(* ===== verification/_CoqProject ===== *)
-Q . S2P
Prelude.v
Lts.v
GoLib.v
Protocol.v
ProtocolFacts.v
PubSub.v
Bus.v
Store.v
Db.v
Spec.v
Refine.v
Expiry.v
History.v
Concurrent.v
Cmd.v
CmdFacts.v
CmdSpec.v
CmdTypes.v
CmdExpire.v
Replay.v
Aof.v
AofFacts.v
Snapshot.v
Compaction.v
LiveSnapshot.v
Replication.v
Server.v
Wire.v
ServerFacts.v
Locks.v
Leaks.v
Delivery.v
Lifecycle.v
Metrics.v
Main.v
Feed.v
WritePath.v
WritePathFacts.v
Progress.v
Liveness.v
Recovery.v
TornTail.v
Deadlines.v
CrashLog.v
CrashPoints.v
Convergence.v
Streams.v
