(* ===== verification/Prelude.v ===== *)
(** * A verification of mini-redis-go

    mini-redis-go is a Redis-like server in Go: a RESP codec, a sharded
    in-memory store with typed values and times to live, a table of command
    handlers, an append-only log with compaction, pub/sub, and primary to
    replica streaming.  This library models its packages as executable Rocq
    definitions translated from the Go sources and proves what each package
    promises and what they achieve together.

    ** How the program works, and where each part is modelled

    A connection ([internal/server]) decodes a frame ([internal/protocol]),
    handles the commands that act on the connection itself (SUBSCRIBE,
    UNSUBSCRIBE, REPLICAOF, REPLCONF, QUIT), and passes the rest to [apply],
    which dispatches to a handler ([internal/cmd]) working on the store
    ([internal/db]).  A write that succeeded is appended to the log
    ([internal/persistence]) and queued for every replica
    ([internal/replication]) under one lock.  In the background the store is
    sampled for expired keys, the log is compacted to a snapshot when it has
    doubled, replicas are pinged, and two kinds of goroutines drain mailboxes
    and feeds to sockets.  On start the log is replayed through the same
    handlers.

    - [Prelude]: notations, tactics, hint databases and generic lemmas.
      [Lts]: labelled transition systems, runs with their visible traces,
      schedules, invariants and weak simulation, which the concurrent parts
      share.
    - [GoLib]: what the sources use of the Go language and library:
      wrap-around of int64, [strconv], [strings], [time], [hash/fnv], the
      float64 arithmetic, the allocator's length check, map iteration order.
    - [Protocol], [ProtocolFacts]: value.go, encoder.go, decoder.go.  A
      reader is the bytes to come and the error the stream ends with.
    - [PubSub]: db/pubsub.go.  Subscribers are pointers into a heap of
      bounded mailboxes.  [Bus]: the bus as an abstract specification, and
      the broker's refinement of it.
    - [Store], [Db]: db/entry.go, shard.go, db.go and the operations of
      expiry.go; one definition per method ([DB_Get], [DB_LPush], ...).
    - [Spec], [Refine]: the abstract store (a flat map with deadlines) and
      the refinement of all 25 operations.
    - [Expiry]: the sampling pass and the drain loop of db/expiry.go.
    - [History]: interleavings of operations and passes over time.
      [Concurrent]: goroutines that run operations one lock section at a
      time, interleaved with each other, the worker and the clock.
    - [Cmd], [CmdFacts], [CmdSpec], [CmdTypes], [CmdExpire]: all of
      internal/cmd; the handler of a command [X] is [cmd_X].
    - [Replay]: persistence/replay.go.  [Aof], [AofFacts]:
      persistence/aof.go over a model of inodes, directory entries and
      durable prefixes.
    - [Snapshot], [Compaction]: db/snapshot.go and persistence/rewrite.go.
      [LiveSnapshot]: the snapshot shard by shard, while clients read and
      the expiry worker runs.
    - [Replication]: replication/primary.go and replica.go.
    - [Server], [ServerFacts]: server/server.go (write path, recovery, ticks
      of the background goroutines), connection.go, pubsub.go,
      replication.go; the whole server as a transition relation ([acts],
      labelled by the goroutine that acts) over any number of connections.
    - [Locks]: the same goroutines at the grain of the locks of the bus and
      of the replica registry ([fstep]): each send of a PUBLISH or of a
      propagation under its read lock, each channel of SUBSCRIBE and
      UNSUBSCRIBE, and each section of a teardown (pubsub.go
      [unsubscribeAll], replication.go [removeReplica], [Remove] of
      primary.go) is a step of its own; every step of [acts] is one of its
      schedules.
    - [Wire]: [connState.write] and [writeRaw] of connection.go, one write
      into the connection's buffer at a time, under their mutex.
    - [Leaks]: what disconnected clients leave on the bus (nothing).
      [Delivery]: from PUBLISH to the connections of the subscribers, through
      any run of the server.
    - [Lifecycle]: [Serve] of server.go as a step relation on top of [acts]:
      the goroutines it starts, the closing of the listeners, the accept
      loops, the waits in order, and the deferred close of the log.
    - [Metrics]: internal/metrics over a Prometheus client given by its laws
      (a class), and the server instrumented with it.
    - [Main]: cmd/server/main.go over a model of paths and listeners, and the
      options of server.go.
    - [Feed]: the interface between the command layer and those that feed it
      commands, a class with [Dispatch] on the sharded store as its instance.
    - [WritePath]: [applyRecord] and [rewriteAOF] of server.go at the grain
      of their lock operations: any number of goroutines between the test for
      a log and replicas, [writeMu], the store sections of the command, the
      append, the propagation and the unlock, or between the lock, the copy of
      one shard after the other, the rewrite of the log and the unlock
      ([pstep]), against the server that serves one write or rewrite at a
      time ([sequential]).  [WritePathFacts]: the invariant that ties the two.
      [Progress], [Liveness]: mutual exclusion, the steps left to take, and
      infinite executions under fairness.  [CrashLog]: what the file of the
      log of that concurrent server holds when it is killed at any step, also
      inside a rewrite; [CrashPoints]: the keyspace a restart makes of it;
      [Streams]: what the replicas' feeds carry.
    - [Recovery], [Convergence]: crash recovery (with compactions) and
      replication end to end, proved against that interface.  [TornTail]:
      what becomes of a log that ends inside a frame.  [Deadlines]: recovery
      of logs that set times to live.

    ** State, effects, errors

    State is passed explicitly: a method on [*DB] maps a store to a store
    and a result.  An object several parties share (a subscriber's mailbox,
    a replica's feed, an open file) is a pointer into a heap.  A lock section
    is one atomic function (the clock readings inside it are one instant); an
    operation that takes a lock twice (GET of an expired key, DEL of several
    keys) is modelled by its sections, and [Concurrent] interleaves the
    sections of any number of goroutines.  Go
    errors are values; a panic is [Crash] or [None], and theorems say it does
    not happen.  Everything the outside decides is an argument: each reading
    of the clock, the iteration order of each map, the random shard, the
    outcome of each system call and socket write.

    ** What the theorems show

    - Codec: round trip, torn frames always reported as
      [io.ErrUnexpectedEOF], termination, re-encodability of what was
      decoded.
    - Store: every operation keeps the type invariant and refines the flat
      specification; any history with the expiry worker refines a
      specification without it, and so does any interleaving of the lock
      sections of concurrent clients; the worker terminates and is invisible;
      an operation ends after a bounded number of its own sections.
    - Bus: the broker refines an abstract bus (sets of subscribers, one
      first-in first-out queue each) for callers that keep its discipline, and
      in every state of the server it
      holds exactly what connected clients asked for; a published message is
      handed to exactly the subscribers the reply counts, in order, whatever
      the rest of the server does meanwhile.
    - Commands: dispatch never panics, refines the specification for every
      well-formed data command in any letter case, rejects malformed ones
      without effect, and commands outside [writeCommands] change nothing.
      WRONGTYPE is the reply exactly when the live value is of another type.
      Deadlines are honoured to the nanosecond and reported with half-up
      rounding.
    - Log: a killed process loses no acknowledged write, a graceful close
      nothing.  After a power loss the synced bytes are there and what follows
      them may be anything: a replay applies every synced write first, and
      finishes when what follows is a prefix of what was written (it may
      refuse other bytes).  Replay applies exactly the complete frames.  Compaction preserves the live keyspace, also when the
      snapshot is taken while clients read and keys expire; a failed one
      leaves the log alone, up to the rename; and whenever it is interrupted,
      by a kill or a power loss, the path names the old log or the whole new
      one.
    - Server: no interleaving of connections, background work and decoded
      requests, send by send and lock section by lock section, from a start on
      any log to the shutdown, panics, deadlocks on the locks of the bus and
      the registry or breaks an invariant (a frame on which the decoder panics
      is excluded, and exhibited); connections terminate; a connection's socket carries whole frames in
      lock order, whoever writes and wherever it fails.
    - Write path under concurrent clients: with a log, every interleaving of
      goroutines in [applyRecord] and [rewriteAOF] is a run of the server that
      serves the writes and rewrites the log one after the other; no reachable
      state is stuck, with or without a log, and what is in progress ends
      after a bounded number of steps; under a fair scheduler and a lock that
      starves nobody, every request is answered.
    - Life cycle: under fairness a cancelled [Serve] returns once its clients
      have left, it closes the log after everything else ended, and nothing
      changes a key or a file afterwards.  [main] opens all the listeners the
      flags ask for or none, and runs the server they describe.
    - Metrics: a scrape shows the connections, the exchanges on them, the log
      bytes, the keys and the replicas with their lag, and the number of series is bounded whatever clients send.
    - End to end: restart on the log of a killed server, compacted any number
      of times on the way, gives back its live keyspace, and a replica that
      drained its feed holds the primary's, both for workloads without
      relative times to live.  With times to live, and no deadline passing before the
      kill, a restart gives back every key, value and at least the time that
      was left.  Both hold with concurrent clients and log rewrites too, the
      kill at any step of any of them, and for a replay or a replica that
      takes its time, as long as no deadline is reached: the time it takes is
      lost, and a millisecond when the log was rewritten.  A replica,
      whatever its sessions meet, applies every complete write it was sent, in
      order.
      Whatever runs out, the file of a killed server whose log is not in error
      holds exactly the commands of the last rewrite that renamed its file
      and, if that rewrite reopened it, the writes recorded since, in the
      order they were committed, and a restart applies exactly these.
    - Limits the code has, proved as such: relative deadlines make replay
      diverge, the test in front of the write lock can miss a replica that
      connects meanwhile, appending after a torn tail makes a restart refuse
      the log or lose the write, a failed reopen
      after a rewrite loses later writes, a second REPLICAOF leaks a feed,
      an announced length can panic the decoder, 64-bit duration arithmetic
      wraps, an unknown command's name can split the reply, an idle client
      keeps a cancelled server from closing its log, and the clean-up at exit
      can remove the socket of a successor.

    ** Fuel

    Only loops driven by input use fuel.  [decode] runs [Decode] with one
    more unit than there are bytes left, since every recursive call consumes
    a byte ([Decode_enough_fuel]); [Replay], [handle] and the stream of a
    replica get one iteration per byte plus one; [drain] gets one pass per
    stored key plus one, since a pass that asks for another removed a key;
    a write into a connection's buffer gets one iteration per byte plus two.
    The theorems show these amounts suffice, so running out never happens.

    ** What is not modelled

    Memory exhaustion below the allocator's length limit; how one flush of
    the log splits into system calls (a failing one leaves some prefix); the
    durability of directory entries after a rename; the readings of the clock
    between the records of one rewrite, which takes one for all of them; the Unicode tables behind
    [strings.ToUpper] and [strings.Fields] on non-ASCII text (the class
    [GoUnicode], over which theorems quantify); data races inside a lock
    section; the interleaving of other clients between the shards [KeyCount]
    visits; log output.  In
    [WritePath] any goroutine may start a rewrite, where the code has one
    goroutine for them.  In [Locks] the write lock is left out, so more
    schedules are possible than the code has.  A request of the systems of
    goroutines is a decoded value; bytes are decoded in [handle].  Of
    the Prometheus client, the flag package, the HTTP server and signal
    delivery only what the code relies on is stated or taken as an input.
    Unix sockets are file system paths, not abstract names.  The tickers and
    delays only decide when a step happens, so their periods appear only
    where code compares with them.  The end-to-end theorems under concurrency
    that compare keyspaces assume that no time to live runs out meanwhile: when one does, a replay or
    a replica may differ, which [relative_ttl_replay_diverges] shows. *)

From Stdlib Require Export Strings.Byte Strings.String ZArith Lia.
From stdpp Require Export base list gmap fin_maps option numbers sorting.
Export ListNotations.
#[global] Open Scope Z_scope.
#[global] Open Scope list_scope.

(** * Bytes, strings and slices *)

Abbreviation bytes := (list byte).

(** A Go [[]byte] value: [None] is the nil slice, [Some bs] a non-nil one.
    The difference is observable: a nil [Bulk] encodes as the null reply. *)
Abbreviation slice := (option (list byte)).

#[global] Instance byte_eq_decision : EqDecision byte := Byte.byte_eq_dec.

#[global] Program Instance byte_countable : Countable byte :=
  inj_countable Byte.to_N Byte.of_N _.
Next Obligation. apply Byte.of_to_N. Qed.

(** [string(b)], [len(b)] and [append(_, b...)] read a nil slice as empty. *)
Definition content (s : slice) : bytes := default [] s.

(** A string literal of the source, as its bytes. *)
Definition B (s : string) : bytes := String.list_byte_of_string s.

Definition CR : byte := x0d.
Definition LF : byte := x0a.
Definition CRLF : bytes := [CR; LF].

(** Go's [len], an [int]. *)
Definition zlen {A} (l : list A) : Z := Z.of_nat (length l).

Definition byte_eqb (a b : byte) : bool := bool_decide (a = b).

(** * Tactics *)

Declare Scope go_scope.
Delimit Scope go_scope with go.
Infix "=b" := byte_eqb (at level 70) : go_scope.

Create HintDb go discriminated.
Create Rewrite HintDb go_len.

(** Case analysis on every [match] / [if] scrutinee of the goal or of [H]. *)
Ltac split_match :=
  repeat match goal with
  | |- context [match ?x with _ => _ end] => destruct x eqn:?
  end.

Ltac split_match_in H :=
  repeat match type of H with
  | context [match ?x with _ => _ end] => destruct x eqn:?; simplify_eq
  end.

(** Turn the boolean tests the code makes into the propositions they decide. *)
Ltac reflect_bools :=
  repeat match goal with
  | H : _ && _ = true |- _ => apply andb_true_iff in H as [? ?]
  | H : _ || _ = false |- _ => apply orb_false_iff in H as [? ?]
  | H : negb _ = true |- _ => apply negb_true_iff in H
  | H : negb _ = false |- _ => apply negb_false_iff in H
  | H : (_ <? _) = true |- _ => apply Z.ltb_lt in H
  | H : (_ <? _) = false |- _ => apply Z.ltb_ge in H
  | H : (_ <=? _) = true |- _ => apply Z.leb_le in H
  | H : (_ <=? _) = false |- _ => apply Z.leb_gt in H
  | H : (_ =? _) = true |- _ => apply Z.eqb_eq in H
  | H : (_ =? _) = false |- _ => apply Z.eqb_neq in H
  | H : bool_decide _ = true |- _ => apply bool_decide_eq_true in H
  | H : bool_decide _ = false |- _ => apply bool_decide_eq_false in H
  end.

(** * Lemmas on lists, options and integers shared by the components *)

Lemma byte_eqb_refl a : byte_eqb a a = true.
Proof. by apply bool_decide_eq_true. Qed.

Lemma byte_eqb_eq a b : byte_eqb a b = true ↔ a = b.
Proof. apply bool_decide_eq_true. Qed.

Lemma byte_eqb_neq a b : byte_eqb a b = false ↔ a ≠ b.
Proof. apply bool_decide_eq_false. Qed.

Lemma zlen_nonneg {A} (l : list A) : 0 ≤ zlen l.
Proof. unfold zlen. lia. Qed.

Lemma zlen_app {A} (l k : list A) : zlen (l ++ k) = zlen l + zlen k.
Proof. unfold zlen. rewrite length_app. lia. Qed.

Lemma zlen_cons {A} (x : A) l : zlen (x :: l) = zlen l + 1.
Proof. unfold zlen. simpl. lia. Qed.

Lemma zlen_nil {A} : zlen (@nil A) = 0.
Proof. done. Qed.

Lemma zlen_pos {A} (l : list A) : 0 < zlen l ↔ l ≠ [].
Proof. destruct l; unfold zlen; simpl; split; try lia; done. Qed.

Lemma prefix_app_cases {A} (p l k : list A) :
  p `prefix_of` l ++ k →
  (∃ l', l = p ++ l' ∧ l' ≠ []) ∨ (∃ p', p = l ++ p' ∧ p' `prefix_of` k).
Proof.
  revert l. induction p as [|x p IH]; intros l Hp.
  - destruct l as [|y l]; [right; exists []; split; [done|apply prefix_nil]|].
    left. by exists (y :: l).
  - destruct l as [|y l]; simpl in *; [right; by exists (x :: p)|].
    apply prefix_cons_inv_1 in Hp as Heq. apply prefix_cons_inv_2 in Hp. subst.
    destruct (IH _ Hp) as [(l' & -> & ?)|(p' & -> & ?)]; [left|right]; eauto.
Qed.

#[export] Hint Rewrite @zlen_app @zlen_cons @zlen_nil : go_len.
#[export] Hint Resolve zlen_nonneg : go.
