(* ===== verification/Lts.v ===== *)
(** Labelled transition systems: runs with their visible traces, invariants
    by rule induction, and weak simulation.  A step carries a label when it
    is visible to a client and [None] when it is internal. *)

From S2P Require Import Prelude.

Section lts.
  Context {S L : Type} (step : S → option L → S → Prop).

(** [s] reaches [s'] showing the labels [tr]. *)
Inductive runs : S → list L → S → Prop :=
  | runs_nil s : runs s [] s
  | runs_silent s s1 tr s' : step s None s1 → runs s1 tr s' → runs s tr s'
  | runs_visible s l s1 tr s' : step s (Some l) s1 → runs s1 tr s' → runs s (l :: tr) s'.

Lemma runs_step s l s' : step s l s' → runs s (option_list l) s'.
Proof. destruct l; intros H; econstructor; try done; apply runs_nil. Qed.

Lemma runs_app s tr s1 tr' s' : runs s tr s1 → runs s1 tr' s' → runs s (tr ++ tr') s'.
Proof. induction 1; intros; simpl; [done|eapply runs_silent|eapply runs_visible]; eauto. Qed.

(** What holds initially and is kept by every step holds in every run. *)
Lemma runs_invariant (I : S → Prop) s tr s' :
  (∀ s l s', I s → step s l s' → I s') → I s → runs s tr s' → I s'.
Proof. intros Hstep Hs Hr. induction Hr; eauto. Qed.

(** The same for what relates the labels shown so far to the state. *)
Lemma runs_trace_invariant (I : list L → S → Prop) s tr s' :
  (∀ tr s l s', I tr s → step s l s' → I (tr ++ option_list l) s') → I [] s → runs s tr s' → I tr s'.
Proof.
  intros Hstep Hs Hr. change tr with ([] ++ tr). revert Hs. generalize (@nil L) as tr0.
  induction Hr as [s|s s1 tr s' Hst _ IH|s l s1 tr s' Hst _ IH]; intros tr0 Hs; [by rewrite app_nil_r|..].
  - apply IH. apply (Hstep _ _ _ _ Hs) in Hst. by rewrite app_nil_r in Hst.
  - apply (Hstep _ _ _ _ Hs), IH in Hst. by rewrite <-app_assoc in Hst.
Qed.

(** ** Schedules: runs given by a list of actions, executably *)

Context {A : Type} (perform : A → S → option (option L * S)).

Fixpoint drive (acts : list A) (s : S) : option (list L * S) :=
  match acts with
  | [] => Some ([], s)
  | a :: acts' =>
      '(l, s1) ← perform a s; '(tr, s2) ← drive acts' s1; Some (option_list l ++ tr, s2)
  end.

Lemma drive_runs acts s tr s' :
  (∀ a s l s', perform a s = Some (l, s') → step s l s') →
  drive acts s = Some (tr, s') → runs s tr s'.
Proof.
  intros Hp. revert s tr. induction acts as [|a acts IH]; intros s tr Hd; simpl in Hd.
  { simplify_eq. apply runs_nil. }
  destruct (perform a s) as [[l s1]|] eqn:E1; simplify_eq/=.
  destruct (drive acts s1) as [[tr1 s2]|] eqn:E2; simplify_eq/=.
  eapply runs_app; [by eapply runs_step, Hp|by apply IH].
Qed.
End lts.

#[global] Hint Resolve runs_nil runs_step : go.

Section simulation.
  Context {S A L : Type} (step : S → option L → S → Prop) (astep : A → option L → A → Prop)
          (Leq : L → L → Prop) (R : S → A → Prop).

(** Every concrete step is matched by some abstract steps that show the same
    label. *)
Definition weak_simulation : Prop :=
  ∀ s a l s', R s a → step s l s' →
    ∃ tr a', runs astep a tr a' ∧ Forall2 Leq (option_list l) tr ∧ R s' a'.

Lemma simulation_runs s a tr s' :
  weak_simulation → R s a → runs step s tr s' →
  ∃ tr' a', runs astep a tr' a' ∧ Forall2 Leq tr tr' ∧ R s' a'.
Proof.
  intros Hsim HR Hruns. revert a HR. induction Hruns as [s|s s1 tr s' Hs _ IH|s l s1 tr s' Hs _ IH];
    intros a HR; [by exists [], a; auto with go|..];
    destruct (Hsim _ _ _ _ HR Hs) as (tr1 & a1 & Hr1 & Hl1 & HR1);
    destruct (IH a1 HR1) as (tr2 & a2 & Hr2 & Hl2 & HR2);
    exists (tr1 ++ tr2), a2; split_and!; try done; try by eapply runs_app.
  - by apply Forall2_nil_inv_l in Hl1 as ->.
  - change (l :: tr) with (option_list (Some l) ++ tr). by apply Forall2_app.
Qed.
End simulation.
