(* ===== verification/GoLib.v ===== *)
(** The part of the Go language and standard library the sources use:
    fixed-width integers, [strconv], [strings], [time], [hash/fnv], the
    allocator's length check and the iteration order of a map.  None of it
    is code of the repository; everything here follows the documented
    behaviour of the Go packages on a 64-bit platform. *)

From Stdlib Require Import Floats.SpecFloat.
From S2P Require Import Prelude.

(** * Fixed-width integers *)

Definition min_int64 : Z := -9223372036854775808.
Definition max_int64 : Z := 9223372036854775807.

Definition int64 (z : Z) : Prop := min_int64 ≤ z ≤ max_int64.

#[global] Instance int64_decision z : Decision (int64 z) := _.

(** Two's-complement wrap-around of [int64] (and [int]) arithmetic. *)
Definition wrap64 (z : Z) : Z := (z + 2 ^ 63) mod 2 ^ 64 - 2 ^ 63.

Definition wrap32u (z : Z) : Z := z mod 2 ^ 32.

(** * [make([]T, n)]

    [runtime.makeslice] panics when [n] is negative or [n * sizeof(T)]
    exceeds [maxAlloc], which is [1 << 48] on linux/amd64. *)

Definition maxAlloc : Z := 2 ^ 48.

Definition makeslice_ok (size n : Z) : bool :=
  (0 <=? n) && (size * n <=? maxAlloc).

(** * [strconv] *)

Definition byte_val (b : byte) : Z := Z.of_N (Byte.to_N b).

Definition is_digit (b : byte) : bool :=
  (48 <=? byte_val b) && (byte_val b <=? 57).

Definition digit_val (b : byte) : Z := byte_val b - 48.

Definition digit_byte (d : Z) : byte :=
  default x30 (Byte.of_N (Z.to_N (d + 48))).

Fixpoint parse_digits (acc : Z) (s : bytes) : option Z :=
  match s with
  | [] => Some acc
  | b :: s' =>
      if is_digit b then parse_digits (acc * 10 + digit_val b) s' else None
  end.

(** [strconv.ParseInt(s, 10, 64)]; [None] is any error (syntax or range).
    On a 64-bit platform [strconv.Atoi] accepts the same strings. *)
Definition ParseInt (s : bytes) : option Z :=
  match s with
  | [] => None
  | b :: rest =>
      let '(neg, ds) :=
        if byte_eqb b x2b then (false, rest)
        else if byte_eqb b x2d then (true, rest)
        else (false, s) in
      match ds with
      | [] => None
      | _ =>
          match parse_digits 0 ds with
          | None => None
          | Some n =>
              if neg then (if n <=? 2 ^ 63 then Some (- n) else None)
              else (if n <? 2 ^ 63 then Some n else None)
          end
      end
  end.

Definition Atoi (s : bytes) : option Z := ParseInt s.

Fixpoint format_digits (fuel : nat) (n : Z) (acc : bytes) : bytes :=
  match fuel with
  | O => acc
  | S f =>
      let acc' := digit_byte (n mod 10) :: acc in
      if n <? 10 then acc' else format_digits f (n / 10) acc'
  end.

Definition format_nat (n : Z) : bytes :=
  format_digits (S (Z.to_nat (Z.log2 n))) n [].

(** [strconv.FormatInt(n, 10)] and [strconv.Itoa(n)]. *)
Definition FormatInt (n : Z) : bytes :=
  if n <? 0 then x2d :: format_nat (- n) else format_nat n.

(** * [float64]: IEEE binary64, rounding to nearest even *)

Definition f64_of_int (n : Z) : spec_float := binary_normalize 53 1024 n 0 false.

Definition f64_div (a b : spec_float) : spec_float := SFdiv 53 1024 a b.

Definition f64_add (a b : spec_float) : spec_float := SFadd 53 1024 a b.

(** * [strings]

    [ToUpper] and [ToLower] map ASCII strings byte by byte; a string with a
    byte of 0x80 or above goes through the Unicode tables, which are a
    parameter here. *)

Class GoUnicode := {
  upper_runes : bytes → bytes;
  lower_runes : bytes → bytes;
  fields_runes : bytes → list bytes
}.

(** One instance, for evaluating closed terms. *)
Definition plain_unicode : GoUnicode := 
  {| upper_runes s := s; lower_runes s := s; fields_runes s := [s] |}.

Definition is_ascii (b : byte) : bool := byte_val b <? 128.

Definition byte_of_val (z : Z) : byte := default x00 (Byte.of_N (Z.to_N z)).

Definition ascii_upper (b : byte) : byte :=
  if (97 <=? byte_val b) && (byte_val b <=? 122)
  then byte_of_val (byte_val b - 32) else b.

Definition ascii_lower (b : byte) : byte :=
  if (65 <=? byte_val b) && (byte_val b <=? 90)
  then byte_of_val (byte_val b + 32) else b.

Definition ToUpper `{GoUnicode} (s : bytes) : bytes :=
  if forallb is_ascii s then map ascii_upper s else upper_runes s.

Definition ToLower `{GoUnicode} (s : bytes) : bytes :=
  if forallb is_ascii s then map ascii_lower s else lower_runes s.

(** [strings.Fields]: the maximal runs of non-space bytes. *)
Definition is_space (b : byte) : bool :=
  bool_decide (byte_val b ∈ [9; 10; 11; 12; 13; 32]).

Fixpoint fields_ascii (cur : bytes) (s : bytes) : list bytes :=
  let flush := match cur with [] => [] | _ => [rev cur] end in
  match s with
  | [] => flush
  | b :: s' => if is_space b then flush ++ fields_ascii [] s' else fields_ascii (b :: cur) s'
  end.

Definition Fields `{GoUnicode} (s : bytes) : list bytes :=
  if forallb is_ascii s then fields_ascii [] s else fields_runes s.

(** [net.JoinHostPort]: a host with a colon is put in brackets. *)
Definition JoinHostPort (host port : bytes) : bytes :=
  if bool_decide (x3a ∈ host) then x5b :: host ++ [x5d; x3a] ++ port else host ++ x3a :: port.

(** * [time]

    A [time.Time] that came from [time.Now] is a number of nanoseconds; the
    zero [Time] is kept apart by the users of this file ([None]).  A
    [Duration] is an [int64] of nanoseconds. *)

Definition Millisecond : Z := 1000000.
Definition Second : Z := 1000000000.

Definition dur_mul (a b : Z) : Z := wrap64 (a * b).

Definition time_add (t d : Z) : Z := t + d.

(** [t.Sub(u)] saturates at the extreme durations. *)
Definition time_sub (t u : Z) : Z :=
  let d := t - u in
  if max_int64 <? d then max_int64 else if d <? min_int64 then min_int64 else d.

(** [d.Milliseconds()] truncates toward zero. *)
Definition Milliseconds (d : Z) : Z := Z.quot d Millisecond.

(** [d.Seconds()]: the whole seconds plus the rest, in floating point. *)
Definition Seconds (d : Z) : spec_float :=
  f64_add (f64_of_int (Z.quot d Second)) (f64_div (f64_of_int (Z.rem d Second)) (f64_of_int Second)).

(** The readings [time.Now] returns during one call, in order. *)
Abbreviation clock := (nat → Z).

(** * [hash/fnv]: 32-bit FNV-1a *)

Definition fnv_offset32 : Z := 2166136261.
Definition fnv_prime32 : Z := 16777619.

Definition fnv32a_step (h : Z) (b : byte) : Z :=
  wrap32u (Z.lxor h (byte_val b) * fnv_prime32).

Definition fnv32a (s : bytes) : Z := foldl fnv32a_step fnv_offset32 s.

(** * Map iteration

    [for k, v := range m] visits every entry once, in an order the runtime
    chooses.  A [map_order] is one such choice. *)

Record map_order := {
  iter : ∀ A : Type, list A → list A;
  iter_perm : ∀ (A : Type) (l : list A), iter A l ≡ₚ l
}.
Arguments iter _ {A} _.
Arguments iter_perm _ {A} _.

Definition order_id : map_order := {| iter := λ _ l, l; iter_perm := λ _ l, Permutation_refl l |}.

Definition order_rev : map_order :=
  {| iter := λ A l, rev l; iter_perm := λ A l, Permutation_sym (Permutation_rev l) |}.

Definition range_map {V} (o : map_order) (m : gmap bytes V) : list (bytes * V) :=
  iter o (map_to_list m).

Definition range_set (o : map_order) (s : gset bytes) : list bytes :=
  iter o (elements s).

(** * Facts *)

Lemma wrap64_id z : int64 z → wrap64 z = z.
Proof.
  unfold int64, wrap64, min_int64, max_int64. intros.
  rewrite Z.mod_small; lia.
Qed.

Lemma wrap64_int64 z : int64 (wrap64 z).
Proof.
  unfold int64, wrap64, min_int64, max_int64.
  pose proof (Z.mod_pos_bound (z + 2 ^ 63) (2 ^ 64)). lia.
Qed.

(** The sum of two non-negative [int64]s that stays non-negative did not wrap. *)
Lemma wrap64_nonneg a b :
  int64 a → int64 b → 0 ≤ a → 0 ≤ b → 0 ≤ wrap64 (a + b) → wrap64 (a + b) = a + b.
Proof.
  unfold int64, min_int64, max_int64. intros Ha Hb Ha0 Hb0 Hw.
  destruct (decide (a + b ≤ max_int64)) as [Hle|Hgt]; unfold max_int64 in *.
  - apply wrap64_id. unfold int64, min_int64, max_int64. lia.
  - exfalso. revert Hw. unfold wrap64.
    rewrite <-(Z_mod_plus_full _ (-1)), Z.mod_small; lia.
Qed.

Lemma byte_val_bound b : 0 ≤ byte_val b < 256.
Proof. unfold byte_val. pose proof (Byte.to_N_bounded b). lia. Qed.

Lemma byte_val_inj a b : byte_val a = byte_val b → a = b.
Proof.
  unfold byte_val. intros H%N2Z.inj.
  assert (Some a = Some b) as [= ->]; [|done].
  by rewrite <-!Byte.of_to_N, H.
Qed.

Lemma byte_val_of_val z : 0 ≤ z < 256 → byte_val (byte_of_val z) = z.
Proof.
  intros Hz. unfold byte_val, byte_of_val.
  destruct (Byte.of_N (Z.to_N z)) as [b|] eqn:E; simpl.
  - apply Byte.to_of_N in E. rewrite E. lia.
  - apply Byte.of_N_None_iff in E. lia.
Qed.

Lemma byte_of_byte_val b : byte_of_val (byte_val b) = b.
Proof. apply byte_val_inj, byte_val_of_val, byte_val_bound. Qed.

Lemma digit_byte_val d : 0 ≤ d < 10 → byte_val (digit_byte d) = d + 48.
Proof.
  intros Hd. unfold byte_val, digit_byte.
  destruct (Byte.of_N (Z.to_N (d + 48))) as [b|] eqn:E; simpl.
  - apply Byte.to_of_N in E. rewrite E. lia.
  - apply Byte.of_N_None_iff in E. lia.
Qed.

Lemma is_digit_digit_byte d : 0 ≤ d < 10 → is_digit (digit_byte d) = true.
Proof. intros Hd. unfold is_digit. rewrite digit_byte_val by done. lia. Qed.

Lemma digit_val_digit_byte d : 0 ≤ d < 10 → digit_val (digit_byte d) = d.
Proof. intros Hd. unfold digit_val. rewrite digit_byte_val by done. lia. Qed.

Lemma format_digits_Forall fuel n acc :
  Forall (λ b, is_digit b = true) acc →
  Forall (λ b, is_digit b = true) (format_digits fuel n acc).
Proof.
  revert n acc. induction fuel as [|f IH]; intros n acc Hacc; simpl; [done|].
  assert (is_digit (digit_byte (n mod 10)) = true)
    by (apply is_digit_digit_byte, Z.mod_pos_bound; lia).
  destruct (n <? 10); [by constructor|]. apply IH. by constructor.
Qed.

Lemma format_digits_nonempty fuel n acc : acc ≠ [] → format_digits fuel n acc ≠ [].
Proof.
  revert n acc. induction fuel as [|f IH]; intros n acc Hacc; simpl; [done|].
  destruct (n <? 10); [done|]. by apply IH.
Qed.

Lemma parse_format_digits fuel n acc :
  0 ≤ n < 10 ^ Z.of_nat fuel →
  ∃ k, 0 ≤ k ∧ ∀ a, parse_digits a (format_digits fuel n acc)
                     = parse_digits (a * 10 ^ k + n) acc.
Proof.
  revert n acc. induction fuel as [|f IH]; intros n acc Hn.
  { exists 0. split; [done|]. intros a. simpl in *. f_equal. lia. }
  rewrite Nat2Z.inj_succ, Z.pow_succ_r in Hn by lia.
  pose proof (Z.mod_pos_bound n 10). pose proof (Z.div_mod n 10).
  cbn [format_digits]. destruct (n <? 10) eqn:E; reflect_bools.
  - exists 1. split; [done|]. intros a. cbn [parse_digits].
    rewrite is_digit_digit_byte, digit_val_digit_byte, Z.mod_small by lia.
    f_equal; lia.
  - destruct (IH (n / 10) (digit_byte (n mod 10) :: acc)) as (k & Hk & IH').
    { split; [apply Z.div_pos; lia|]. apply Z.div_lt_upper_bound; lia. }
    exists (Z.succ k). split; [lia|]. intros a. rewrite IH'. cbn [parse_digits].
    rewrite is_digit_digit_byte, digit_val_digit_byte by lia.
    f_equal. rewrite Z.pow_succ_r by lia. lia.
Qed.

Lemma format_nat_Forall n : Forall (λ b, is_digit b = true) (format_nat n).
Proof. apply format_digits_Forall. constructor. Qed.

Lemma format_nat_nonempty n : format_nat n ≠ [].
Proof.
  unfold format_nat. simpl. destruct (n <? 10); [done|].
  by apply format_digits_nonempty.
Qed.

Lemma parse_format_nat n : 0 ≤ n → parse_digits 0 (format_nat n) = Some n.
Proof.
  intros Hn. unfold format_nat.
  set (f := S (Z.to_nat (Z.log2 n))).
  destruct (parse_format_digits f n []) as (k & _ & Hk); [|by rewrite Hk].
  split; [done|]. unfold f. rewrite Nat2Z.inj_succ, Z2Nat.id by apply Z.log2_nonneg.
  destruct (Z.eq_dec n 0) as [->|]; [done|].
  destruct (Z.log2_spec n) as [_ Hlt]; [lia|].
  eapply Z.lt_le_trans; [exact Hlt|]. apply Z.pow_le_mono_l. lia.
Qed.

Lemma is_digit_not_sign b : is_digit b = true → b ≠ x2b ∧ b ≠ x2d.
Proof. intros Hb. split; intros ->; done. Qed.

Lemma parse_digits_nonneg acc s n :
  0 ≤ acc → parse_digits acc s = Some n → 0 ≤ n.
Proof.
  revert acc. induction s as [|b s IH]; intros acc Hacc H; simplify_eq/=; [done|].
  destruct (is_digit b) eqn:Hb; [|done].
  apply IH in H; [done|]. unfold is_digit, digit_val in *. lia.
Qed.

Lemma ParseInt_int64 s n : ParseInt s = Some n → int64 n.
Proof.
  unfold ParseInt, int64, min_int64, max_int64.
  destruct s as [|b s]; [done|]. intros H.
  repeat case_match; simplify_eq; reflect_bools;
    repeat match goal with
    | E : parse_digits 0 _ = Some _ |- _ => apply parse_digits_nonneg in E; [|lia]
    end; lia.
Qed.

Lemma ParseInt_FormatInt n : int64 n → ParseInt (FormatInt n) = Some n.
Proof.
  unfold int64, min_int64, max_int64. intros Hn. unfold FormatInt.
  destruct (n <? 0) eqn:E; reflect_bools.
  - unfold ParseInt. simpl.
    pose proof (format_nat_nonempty (- n)) as Hne.
    destruct (format_nat (- n)) as [|d ds] eqn:Ef; [done|].
    rewrite <-Ef, parse_format_nat by lia.
    destruct (- n <=? 2 ^ 63) eqn:?; reflect_bools; [f_equal|]; lia.
  - unfold ParseInt.
    pose proof (format_nat_nonempty n) as Hne.
    pose proof (format_nat_Forall n) as Hd.
    destruct (format_nat n) as [|d ds] eqn:Ef; [done|].
    apply Forall_cons_1 in Hd as [[H1 H2]%is_digit_not_sign _].
    apply byte_eqb_neq in H1, H2. rewrite H1, H2.
    rewrite <-Ef, parse_format_nat by lia.
    destruct (n <? 2 ^ 63) eqn:?; reflect_bools; [done|lia].
Qed.

Lemma FormatInt_no_LF n : LF ∉ FormatInt n.
Proof.
  assert (∀ l, Forall (λ b, is_digit b = true) l → LF ∉ l) as Hl.
  { intros l Hl Hin. rewrite Forall_forall in Hl. by apply Hl in Hin. }
  unfold FormatInt. destruct (n <? 0).
  - rewrite not_elem_of_cons. split; [done|]. apply Hl, format_nat_Forall.
  - apply Hl, format_nat_Forall.
Qed.

Lemma ascii_upper_ascii b : is_ascii b = true → is_ascii (ascii_upper b) = true.
Proof.
  unfold is_ascii, ascii_upper. intros Hb. pose proof (byte_val_bound b).
  destruct ((97 <=? byte_val b) && (byte_val b <=? 122)) eqn:E; [|done].
  reflect_bools. rewrite byte_val_of_val by lia. lia.
Qed.

Lemma ascii_upper_idemp b : ascii_upper (ascii_upper b) = ascii_upper b.
Proof.
  unfold ascii_upper at 2 3. pose proof (byte_val_bound b).
  destruct ((97 <=? byte_val b) && (byte_val b <=? 122)) eqn:E; reflect_bools.
  - unfold ascii_upper. rewrite byte_val_of_val by lia.
    destruct (_ && _) eqn:E'; reflect_bools; [lia|done].
  - unfold ascii_upper. by rewrite E.
Qed.

Lemma is_ascii_upper b : is_ascii (ascii_upper b) = is_ascii b.
Proof. by destruct b. Qed.

(** [ToUpper] of a string that equals an ASCII string up to ASCII case. *)
Lemma ToUpper_folds `{GoUnicode} s u :
  map ascii_upper s = u → forallb is_ascii u = true → ToUpper s = u.
Proof.
  intros <- Hu. unfold ToUpper. assert (forallb is_ascii s = true) as ->; [|done].
  induction s as [|b s IH]; [done|]. cbn [map forallb] in *. rewrite is_ascii_upper in Hu.
  apply andb_prop in Hu as [-> Hu]. by apply IH.
Qed.

(** On an ASCII string [ToUpper] is idempotent, whatever the Unicode tables. *)
Lemma ToUpper_ascii_idemp `{GoUnicode} s :
  forallb is_ascii s = true → ToUpper (ToUpper s) = ToUpper s.
Proof.
  intros Hs. unfold ToUpper at 2 3. rewrite Hs. unfold ToUpper.
  assert (forallb is_ascii (map ascii_upper s) = true) as ->.
  { rewrite forallb_forall in *. intros b (c & <- & Hc)%in_map_iff.
    by apply ascii_upper_ascii, Hs. }
  rewrite map_map. apply map_ext. intros. apply ascii_upper_idemp.
Qed.

Lemma fnv32a_bound s : 0 ≤ fnv32a s < 2 ^ 32.
Proof.
  unfold fnv32a. assert (∀ h, 0 ≤ h < 2 ^ 32 → 0 ≤ foldl fnv32a_step h s < 2 ^ 32) as Hf.
  { induction s as [|b s IH]; intros h Hh; simpl; [done|].
    apply IH. unfold fnv32a_step, wrap32u. apply Z.mod_pos_bound. lia. }
  apply Hf. done.
Qed.

Lemma range_map_perm {V} (o : map_order) (m : gmap bytes V) : range_map o m ≡ₚ map_to_list m.
Proof. apply iter_perm. Qed.

Lemma range_set_perm (o : map_order) (s : gset bytes) : range_set o s ≡ₚ elements s.
Proof. apply iter_perm. Qed.

Lemma elem_of_range_map {V} (o : map_order) (m : gmap bytes V) k v :
  (k, v) ∈ range_map o m ↔ m !! k = Some v.
Proof. rewrite range_map_perm. apply elem_of_map_to_list. Qed.

Lemma NoDup_range_map {V} (o : map_order) (m : gmap bytes V) : NoDup (range_map o m).*1.
Proof. rewrite range_map_perm. apply NoDup_fst_map_to_list. Qed.

Lemma elem_of_range_set (o : map_order) (s : gset bytes) x : x ∈ range_set o s ↔ x ∈ s.
Proof. rewrite range_set_perm. apply elem_of_elements. Qed.

Lemma NoDup_range_set (o : map_order) (s : gset bytes) : NoDup (range_set o s).
Proof. rewrite range_set_perm. apply NoDup_elements. Qed.

#[export] Hint Resolve wrap64_int64 ParseInt_int64 : go.
