(* ===== verification/Protocol.v ===== *)
(** [internal/protocol]: the RESP value model, [Encode] and [Decode].

    A reader is the bytes still to come and the error the stream ends with,
    so a frame may be cut anywhere.  [Decode] recurses once per array
    element; every recursive call consumes at least one byte, so the number
    of bytes left bounds the recursion ([decode] supplies that bound and
    [Decode_enough_fuel] shows it suffices). *)

From S2P Require Import Prelude GoLib.
#[local] Open Scope go_scope.

(** * value.go *)

Definition TypeSimpleString : byte := "+"%byte.
Definition TypeError : byte := "-"%byte.
Definition TypeInteger : byte := ":"%byte.
Definition TypeBulkString : byte := "$"%byte.
Definition TypeArray : byte := "*"%byte.

(** The struct [Value]; a nil [Bulk] or [Array] is [None].  [Value{}] has
    type byte 0 and every field zero. *)
Inductive Value := mkValue {
  vType : byte;
  vStr : bytes;
  vInt : Z;
  vBulk : slice;
  vArray : option (list Value)
}.

Definition SimpleStringV (s : bytes) : Value := mkValue TypeSimpleString s 0 None None.
Definition ErrorV (s : bytes) : Value := mkValue TypeError s 0 None None.
Definition IntegerV (n : Z) : Value := mkValue TypeInteger [] n None None.
Definition BulkV (b : slice) : Value := mkValue TypeBulkString [] 0 b None.
Definition ArrayV (a : option (list Value)) : Value := mkValue TypeArray [] 0 None a.

(** * Errors *)

Inductive error :=
  | EOF
  | ErrUnexpectedEOF
  | ErrIO
  | ErrUnknownType (b : byte)
  | ErrBulkNotCRLF
  | ErrLineNotCRLF
  | ErrInvalidInteger (line : bytes)
  | ErrEncodeUnknownType (b : byte).

(** * encoder.go

    The bytes [Encode] hands to its writer, in order, and the error it
    returns.  A writer that fails takes a prefix of these bytes. *)

Fixpoint Encode (v : Value) : bytes * option error :=
  if vType v =b TypeSimpleString then ([TypeSimpleString] ++ vStr v ++ CRLF, None)
  else if vType v =b TypeError then ([TypeError] ++ vStr v ++ CRLF, None)
  else if vType v =b TypeInteger then ([TypeInteger] ++ FormatInt (vInt v) ++ CRLF, None)
  else if vType v =b TypeBulkString then
    match vBulk v with
    | None => (B "$-1" ++ CRLF, None)
    | Some b => ([TypeBulkString] ++ FormatInt (zlen b) ++ CRLF ++ b ++ CRLF, None)
    end
  else if vType v =b TypeArray then
    match vArray v with
    | None => (B "*-1" ++ CRLF, None)
    | Some es =>
        let fix elems (es : list Value) : bytes * option error :=
          match es with
          | [] => ([], None)
          | e :: es' =>
              match Encode e with
              | (out, Some err) => (out, Some err)
              | (out, None) =>
                  let '(out', err) := elems es' in (out ++ out', err)
              end
          end in
        let '(out, err) := elems es in
        ([TypeArray] ++ FormatInt (zlen es) ++ CRLF ++ out, err)
    end
  else ([], Some (ErrEncodeUnknownType (vType v))).

Definition encode (v : Value) : bytes := (Encode v).1.

(** * decoder.go *)

(** [bufio.Reader]: the bytes the stream will still deliver, then [rerr]. *)
Record Reader := mkReader { rbuf : bytes; rerr : error }.

(** [OutOfFuel] is an artefact of the bounded recursion, [Panic] a Go panic
    (only [make] with an impossible length can raise one here). *)
Inductive outcome (A : Type) :=
  | Ok (a : A) (r : Reader)
  | Err (e : error)
  | Panic
  | OutOfFuel.
Arguments Ok {A} _ _.
Arguments Err {A} _.
Arguments Panic {A}.
Arguments OutOfFuel {A}.

Definition obind {A C} (m : outcome A) (k : A → Reader → outcome C) : outcome C :=
  match m with
  | Ok a r => k a r
  | Err e => Err e
  | Panic => Panic
  | OutOfFuel => OutOfFuel
  end.

Notation "'let!' x , r := m 'in' k" := (obind m (λ x r, k))
  (at level 200, x name, r name, m at level 100, k at level 200, only parsing).

(** [unexpectEOF]: a mid-frame EOF becomes [ErrUnexpectedEOF]. *)
Definition unexpectEOF (e : error) : error :=
  match e with EOF => ErrUnexpectedEOF | _ => e end.

(** [bufio.Reader.ReadByte] *)
Definition ReadByte (r : Reader) : outcome byte :=
  match rbuf r with
  | [] => Err (rerr r)
  | b :: bs => Ok b (mkReader bs (rerr r))
  end.

(** The prefix up to and including the first [delim], and the rest. *)
Fixpoint cut_delim (delim : byte) (bs : bytes) : option (bytes * bytes) :=
  match bs with
  | [] => None
  | b :: bs' =>
      if b =b delim then Some ([b], bs')
      else match cut_delim delim bs' with
           | Some (l, rest) => Some (b :: l, rest)
           | None => None
           end
  end.

(** [bufio.Reader.ReadBytes] *)
Definition ReadBytes (delim : byte) (r : Reader) : outcome bytes :=
  match cut_delim delim (rbuf r) with
  | Some (line, rest) => Ok line (mkReader rest (rerr r))
  | None => Err (rerr r)
  end.

(** [io.ReadFull] into a buffer of [n] bytes, [n > 0]. *)
Definition ReadFull (n : Z) (r : Reader) : outcome bytes :=
  if n <=? zlen (rbuf r) then
    Ok (take (Z.to_nat n) (rbuf r)) (mkReader (drop (Z.to_nat n) (rbuf r)) (rerr r))
  else match rbuf r with
       | [] => Err (rerr r)
       | _ => Err (unexpectEOF (rerr r))
       end.

(** [if err != nil { return unexpectEOF(err) }] *)
Definition mid_frame {A} (m : outcome A) : outcome A :=
  match m with Err e => Err (unexpectEOF e) | _ => m end.

Definition readLine (r : Reader) : outcome bytes :=
  let! line, r := mid_frame (ReadBytes LF r) in
  let n := length line in
  if (n <? 2)%nat || negb (default x00 (line !! (n - 2)%nat) =b CR)
  then Err ErrLineNotCRLF
  else Ok (take (n - 2) line) r.

Definition readInt (r : Reader) : outcome Z :=
  let! line, r := readLine r in
  match ParseInt line with
  | None => Err (ErrInvalidInteger line)
  | Some n => Ok n r
  end.

Definition decodeBulk (r : Reader) : outcome Value :=
  let! n, r := readInt r in
  if n <? 0 then Ok (BulkV None) r
  else
    let len := wrap64 (n + 2) in
    if negb (makeslice_ok 1 len) then Panic
    else
      let! buf, r := mid_frame (ReadFull len r) in
      if negb (default x00 (buf !! Z.to_nat n) =b CR)
         || negb (default x00 (buf !! Z.to_nat (n + 1)) =b LF)
      then Err ErrBulkNotCRLF
      else Ok (BulkV (Some (take (Z.to_nat n) buf))) r.

(** [unsafe.Sizeof(Value{})] *)
Definition sizeofValue : Z := 80.

(** The loop of [decodeArray], from index [i] on: [dec] is the recursive
    call, [fuel] bounds the iterations. *)
Fixpoint decode_elems (dec : Reader → outcome Value) (fuel : nat) (i n : Z)
    (arr : list Value) (r : Reader) : outcome (list Value) :=
  if n <=? i then Ok arr r
  else match fuel with
       | O => OutOfFuel
       | S f =>
           let! v, r := mid_frame (dec r) in
           decode_elems dec f (i + 1) n (arr ++ [v]) r
       end.

Definition decodeArray (dec : Reader → outcome Value) (fuel : nat) (r : Reader)
    : outcome Value :=
  let! n, r := readInt r in
  if n <? 0 then Ok (ArrayV None) r
  else if negb (makeslice_ok sizeofValue n) then Panic
  else
    let! arr, r := decode_elems dec fuel 0 n [] r in
    Ok (ArrayV (Some arr)) r.

Fixpoint Decode (fuel : nat) (r : Reader) : outcome Value :=
  match fuel with
  | O => OutOfFuel
  | S f =>
      let! prefix, r := ReadByte r in
      if prefix =b TypeSimpleString then
        let! line, r := readLine r in Ok (SimpleStringV line) r
      else if prefix =b TypeError then
        let! line, r := readLine r in Ok (ErrorV line) r
      else if prefix =b TypeInteger then
        let! n, r := readInt r in Ok (IntegerV n) r
      else if prefix =b TypeBulkString then decodeBulk r
      else if prefix =b TypeArray then decodeArray (Decode f) f r
      else Err (ErrUnknownType prefix)
  end.

(** [Decode] with the fuel that the remaining input justifies. *)
Definition decode (r : Reader) : outcome Value := Decode (S (length (rbuf r))) r.
