(* ===== verification/ProtocolFacts.v ===== *)
(** Correctness of the RESP codec: round trip, torn frames, termination,
    well-formedness of what [Decode] returns, and the two ends of the error
    classification ([io.EOF] only at a frame boundary). *)

From S2P Require Import Prelude GoLib Protocol.

(** A value the wire format can carry: only the field its type selects is
    set, text lines hold no newline, integers fit [int64], and lengths are
    ones the decoder can allocate. *)
Inductive wire_ok : Value → Prop :=
  | wire_simple s : LF ∉ s → wire_ok (SimpleStringV s)
  | wire_error s : LF ∉ s → wire_ok (ErrorV s)
  | wire_int n : int64 n → wire_ok (IntegerV n)
  | wire_null : wire_ok (BulkV None)
  | wire_bulk b : zlen b + 2 ≤ maxAlloc → wire_ok (BulkV (Some b))
  | wire_null_array : wire_ok (ArrayV None)
  | wire_array vs :
      sizeofValue * zlen vs ≤ maxAlloc → Forall wire_ok vs →
      wire_ok (ArrayV (Some vs)).

(** Induction on [wire_ok] with the hypothesis for every array element. *)
Lemma wire_ok_rect_nested (P : Value → Prop) :
  (∀ s, LF ∉ s → P (SimpleStringV s)) →
  (∀ s, LF ∉ s → P (ErrorV s)) →
  (∀ n, int64 n → P (IntegerV n)) →
  P (BulkV None) →
  (∀ b, zlen b + 2 ≤ maxAlloc → P (BulkV (Some b))) →
  P (ArrayV None) →
  (∀ vs, sizeofValue * zlen vs ≤ maxAlloc → Forall wire_ok vs → Forall P vs →
         P (ArrayV (Some vs))) →
  ∀ v, wire_ok v → P v.
Proof.
  intros H1 H2 H3 H4 H5 H6 H7. fix IH 2. intros v Hv. destruct Hv as [| | | | | |vs Hlen Hvs]; auto.
  apply H7; [done|done|]. clear Hlen. induction Hvs; constructor; auto.
Qed.

(** The same as a computation, for concrete values. *)
Fixpoint wire_okb (v : Value) : bool :=
  match v with
  | mkValue t s n None None =>
      if byte_eqb t TypeSimpleString || byte_eqb t TypeError
      then bool_decide (LF ∉ s) && (n =? 0)
      else if byte_eqb t TypeInteger then bool_decide (s = []) && bool_decide (int64 n)
      else (byte_eqb t TypeBulkString || byte_eqb t TypeArray) && bool_decide (s = []) && (n =? 0)
  | mkValue t s n (Some b) None =>
      byte_eqb t TypeBulkString && bool_decide (s = []) && (n =? 0) && (zlen b + 2 <=? maxAlloc)
  | mkValue t s n None (Some vs) =>
      byte_eqb t TypeArray && bool_decide (s = []) && (n =? 0) &&
      (sizeofValue * zlen vs <=? maxAlloc) &&
      (fix all (vs : list Value) : bool :=
         match vs with [] => true | v :: vs' => wire_okb v && all vs' end) vs
  | _ => false
  end.

Lemma wire_okb_sound v : wire_okb v = true → wire_ok v.
Proof.
  revert v. fix IH 1. intros [t s n [b|] [vs|]] H; simpl in H; [done|..].
  - rewrite !andb_true_iff, bool_decide_eq_true, byte_eqb_eq, Z.eqb_eq, Z.leb_le in H.
    destruct H as [[[-> ->] ->] H]. by constructor.
  - rewrite !andb_true_iff, bool_decide_eq_true, byte_eqb_eq, Z.eqb_eq, Z.leb_le in H.
    destruct H as [[[[-> ->] ->] H] Hall]. constructor; [done|]. clear H.
    induction vs as [|v vs IHvs]; constructor; apply andb_true_iff in Hall as [H1 H2]; auto.
  - destruct (byte_eqb t TypeSimpleString || byte_eqb t TypeError) eqn:E1.
    { rewrite andb_true_iff, bool_decide_eq_true, Z.eqb_eq in H. destruct H as [H ->].
      rewrite orb_true_iff, !byte_eqb_eq in E1. destruct E1 as [-> | ->]; by constructor. }
    destruct (byte_eqb t TypeInteger) eqn:E2.
    { rewrite andb_true_iff, !bool_decide_eq_true in H. destruct H as [-> H].
      apply byte_eqb_eq in E2 as ->. by constructor. }
    rewrite !andb_true_iff, orb_true_iff, !byte_eqb_eq, bool_decide_eq_true, Z.eqb_eq in H.
    destruct H as [[[-> | ->] ->] ->]; constructor.
Qed.

Lemma wire_okb_all vs : forallb wire_okb vs = true → Forall wire_ok vs.
Proof.
  intros H. apply Forall_forall. intros v Hv. apply wire_okb_sound.
  rewrite forallb_forall in H. by apply H, list_elem_of_In.
Qed.

(** * The encoder's output, by type *)

Definition encode_all (vs : list Value) : bytes := concat (map encode vs).

Lemma encode_array vs :
  Forall (λ v, (Encode v).2 = None) vs →
  Encode (ArrayV (Some vs)) =
    ([TypeArray] ++ FormatInt (zlen vs) ++ CRLF ++ encode_all vs, None).
Proof.
  intros Hvs. simpl.
  match goal with |- context [let '(_, _) := ?f vs in _] =>
    assert (f vs = (encode_all vs, None)) as ->; [|done] end.
  induction Hvs as [|v vs Hv _ IH]; [done|]. cbn [encode_all map concat].
  unfold encode. destruct (Encode v) as [out [err|]]; [done|].
  by rewrite IH.
Qed.

Lemma wire_ok_Encode v : wire_ok v → (Encode v).2 = None.
Proof.
  induction 1 as [| | | | | |vs _ _ IH] using wire_ok_rect_nested; [done..|].
  by rewrite encode_array.
Qed.

Lemma encode_ArrayV vs :
  Forall wire_ok vs →
  encode (ArrayV (Some vs)) = TypeArray :: FormatInt (zlen vs) ++ CRLF ++ encode_all vs.
Proof.
  intros Hvs. unfold encode. rewrite encode_array; [done|].
  eapply Forall_impl; [exact Hvs|]. apply wire_ok_Encode.
Qed.

Lemma encode_nonempty v : wire_ok v → encode v ≠ [].
Proof. destruct 1; try done. by rewrite encode_ArrayV. Qed.

(** * Lines and integers *)

Lemma cut_delim_app d l rest :
  d ∉ l → cut_delim d (l ++ d :: rest) = Some (l ++ [d], rest).
Proof.
  induction l as [|b l IH]; intros Hl; simpl.
  - by rewrite byte_eqb_refl.
  - rewrite not_elem_of_cons in Hl. destruct Hl as [Hb Hl].
    rewrite (proj2 (byte_eqb_neq b d)) by done. by rewrite IH.
Qed.

Lemma cut_delim_None d l : d ∉ l → cut_delim d l = None.
Proof.
  induction l as [|b l IH]; intros Hl; simpl; [done|].
  rewrite not_elem_of_cons in Hl. destruct Hl as [Hb Hl].
  rewrite (proj2 (byte_eqb_neq b d)) by done. by rewrite IH.
Qed.

Lemma cut_delim_Some d bs l rest :
  cut_delim d bs = Some (l, rest) → ∃ l', l = l' ++ [d] ∧ bs = l ++ rest ∧ d ∉ l'.
Proof.
  revert l. induction bs as [|b bs IH]; intros l H; simpl in H; [done|].
  destruct (byte_eqb b d) eqn:E.
  - apply byte_eqb_eq in E. simplify_eq. exists []. split_and!; [done|done|apply not_elem_of_nil].
  - apply byte_eqb_neq in E. destruct (cut_delim d bs) as [[l0 r0]|]; [|done]. simplify_eq.
    destruct (IH l0 eq_refl) as (l' & -> & -> & Hl').
    exists (b :: l'). split_and!; [done|done|]. by rewrite not_elem_of_cons.
Qed.

Lemma readLine_app l rest e :
  LF ∉ l → readLine (mkReader (l ++ CRLF ++ rest) e) = Ok l (mkReader rest e).
Proof.
  intros Hl. unfold readLine, ReadBytes. simpl.
  replace (l ++ CR :: LF :: rest) with ((l ++ [CR]) ++ LF :: rest) by by rewrite <-app_assoc.
  rewrite cut_delim_app.
  2:{ rewrite elem_of_app, list_elem_of_singleton. intros [?|?]; done. }
  simpl. rewrite !length_app. simpl.
  replace (length l + 1 + 1 - 2)%nat with (length l) by lia.
  destruct (Nat.ltb_spec (length l + 1 + 1) 2); [lia|]. simpl.
  rewrite <-app_assoc, lookup_app_r, Nat.sub_diag by done. simpl.
  by rewrite take_app_length.
Qed.

Lemma readInt_app n rest e :
  int64 n → readInt (mkReader (FormatInt n ++ CRLF ++ rest) e) = Ok n (mkReader rest e).
Proof.
  intros Hn. unfold readInt. rewrite readLine_app by apply FormatInt_no_LF.
  simpl. by rewrite ParseInt_FormatInt.
Qed.

Lemma unexpectEOF_idemp e : unexpectEOF (unexpectEOF e) = unexpectEOF e.
Proof. by destruct e. Qed.

(** A line cut before its newline reads as a mid-frame end of stream. *)
Lemma readLine_torn p e :
  LF ∉ p → readLine (mkReader p e) = Err (unexpectEOF e).
Proof. intros Hp. unfold readLine, ReadBytes. simpl. by rewrite cut_delim_None. Qed.

Lemma no_LF_strict_prefix l p :
  LF ∉ l → p `prefix_of` l ++ CRLF → p ≠ l ++ CRLF → LF ∉ p.
Proof.
  intros Hl Hp Hne Hin. destruct (prefix_app_cases _ _ _ Hp) as [(l' & -> & _)|(p' & -> & Hp')].
  - apply Hl, elem_of_app. by left.
  - rewrite elem_of_app in Hin. destruct Hin as [?|Hin]; [done|].
    unfold CRLF in *. destruct Hp' as [k Hk]. destruct p' as [|a [|b [|c p']]]; simplify_list_eq.
    + by apply not_elem_of_nil in Hin.
    + by apply list_elem_of_singleton in Hin.
Qed.

Lemma readInt_torn n p e :
  p `prefix_of` FormatInt n ++ CRLF → p ≠ FormatInt n ++ CRLF →
  readInt (mkReader p e) = Err (unexpectEOF e).
Proof.
  intros Hp Hne. unfold readInt. rewrite readLine_torn; [done|].
  eapply no_LF_strict_prefix; eauto. apply FormatInt_no_LF.
Qed.

(** * Round trip *)

Lemma decodeBulk_app b rest e :
  zlen b + 2 ≤ maxAlloc →
  decodeBulk (mkReader (FormatInt (zlen b) ++ CRLF ++ b ++ CRLF ++ rest) e)
    = Ok (BulkV (Some b)) (mkReader rest e).
Proof.
  intros Hb. pose proof (zlen_nonneg b). unfold maxAlloc in Hb. unfold decodeBulk.
  rewrite readInt_app by (unfold int64, min_int64, max_int64; lia). simpl.
  destruct (zlen b <? 0) eqn:E; reflect_bools; [lia|].
  rewrite wrap64_id by (unfold int64, min_int64, max_int64; lia).
  unfold makeslice_ok, maxAlloc.
  destruct (_ && _) eqn:Em; [|apply andb_false_iff in Em; lia]. simpl. clear Em.
  unfold ReadFull. simpl.
  destruct (zlen b + 2 <=? _) eqn:El; reflect_bools.
  2:{ autorewrite with go_len in El. pose proof (zlen_nonneg rest). lia. }
  simpl. unfold zlen in *.
  replace (Z.to_nat (Z.of_nat (length b) + 2)) with (length b + 2)%nat by lia.
  replace (Z.to_nat (Z.of_nat (length b) + 1)) with (length b + 1)%nat by lia.
  rewrite Nat2Z.id.
  rewrite take_app_add, drop_app_add. simpl.
  rewrite lookup_app_r, Nat.sub_diag by done.
  rewrite lookup_app_r by lia. replace (length b + 1 - length b)%nat with 1%nat by lia.
  simpl. by rewrite take_app_length.
Qed.

Definition round_trips (v : Value) : Prop :=
  ∀ fuel rest e, (length (encode v) ≤ fuel)%nat →
    Decode fuel (mkReader (encode v ++ rest) e) = Ok v (mkReader rest e).

Lemma decode_elems_app dec vs f i n arr rest e :
  (∀ v, v ∈ vs → ∀ rest, dec (mkReader (encode v ++ rest) e) = Ok v (mkReader rest e)) →
  (length vs ≤ f)%nat → n = i + zlen vs →
  decode_elems dec f i n arr (mkReader (encode_all vs ++ rest) e)
    = Ok (arr ++ vs) (mkReader rest e).
Proof.
  revert f i arr. induction vs as [|v vs IH]; intros f i arr Hdec Hf Hn.
  - rewrite zlen_nil in Hn. destruct f; cbn [decode_elems];
      rewrite (proj2 (Z.leb_le _ _)) by lia; by rewrite app_nil_r.
  - pose proof (zlen_nonneg vs). simpl in Hf. destruct f as [|f]; [lia|].
    rewrite zlen_cons in Hn. cbn [decode_elems]. rewrite (proj2 (Z.leb_gt _ _)) by lia.
    unfold encode_all. cbn [map concat]. fold (encode_all vs).
    rewrite <-app_assoc, Hdec by constructor.
    cbn [mid_frame obind]. rewrite IH; [by rewrite <-app_assoc|..].
    + intros w Hw. apply Hdec. by constructor.
    + lia.
    + lia.
Qed.

Lemma encode_all_elem v vs : v ∈ vs → (length (encode v) ≤ length (encode_all vs))%nat.
Proof.
  unfold encode_all. induction 1; cbn [map concat]; rewrite length_app; lia.
Qed.

Lemma encode_all_length vs :
  Forall wire_ok vs → (length vs ≤ length (encode_all vs))%nat.
Proof.
  unfold encode_all. induction 1 as [|v vs Hv _ IH]; cbn [map concat length]; [done|].
  rewrite length_app. apply encode_nonempty in Hv. destruct (encode v); [done|]. simpl. lia.
Qed.

Lemma wire_array_len n :
  0 ≤ n → sizeofValue * n ≤ maxAlloc → int64 n ∧ makeslice_ok sizeofValue n = true.
Proof. unfold sizeofValue, maxAlloc, int64, makeslice_ok, min_int64, max_int64. unfold maxAlloc. lia. Qed.

#[local] Opaque CRLF.

Lemma Decode_encode v : wire_ok v → round_trips v.
Proof.
  induction 1 as [s Hs|s Hs|n Hn| |b Hb| |vs Hlen Hvs IH] using wire_ok_rect_nested;
    intros fuel rest e Hf.
  1-3, 5: destruct fuel as [|f]; [simpl in Hf; lia|]; unfold encode; simpl;
    rewrite <-?app_assoc.
  - by rewrite readLine_app.
  - by rewrite readLine_app.
  - by rewrite readInt_app.
  - by rewrite decodeBulk_app.
  - destruct fuel; [simpl in Hf; lia|]. done.
  - destruct fuel; [simpl in Hf; lia|]. done.
  - rewrite encode_ArrayV in Hf |- * by done. pose proof (zlen_nonneg vs).
    destruct (wire_array_len (zlen vs)) as [Hi Hm]; [done..|].
    destruct fuel as [|f]; [simpl in Hf; lia|].
    simpl in Hf. rewrite !length_app in Hf. simpl in Hf.
    pose proof (encode_all_length vs Hvs).
    simpl. unfold decodeArray.
    rewrite <-!app_assoc, readInt_app by done. simpl.
    rewrite (proj2 (Z.ltb_ge _ _)) by done. rewrite Hm. simpl.
    pose proof (eq_refl : length CRLF = 2%nat).
    rewrite decode_elems_app; [done| |lia|lia].
    intros v Hv rest'. rewrite Forall_forall in IH. apply IH; [done|].
    pose proof (encode_all_elem v vs Hv). lia.
Qed.

(** * Torn frames *)

(** Cut anywhere strictly inside, a frame decodes to the mid-frame error. *)
Definition tears (v : Value) : Prop :=
  ∀ p fuel e, p `prefix_of` encode v → p ≠ encode v → p ≠ [] →
    (length p ≤ fuel)%nat → Decode fuel (mkReader p e) = Err (unexpectEOF e).

Lemma prefix_cons_strict {A} (x : A) p l :
  p `prefix_of` x :: l → p ≠ x :: l → p ≠ [] →
  ∃ q, p = x :: q ∧ q `prefix_of` l ∧ q ≠ l.
Proof.
  intros Hp Hne Hnil. destruct p as [|y q]; [done|].
  apply prefix_cons_inv_1 in Hp as Hy. apply prefix_cons_inv_2 in Hp. subst y.
  exists q. split_and!; [done|done|congruence].
Qed.

Lemma prefix_app_strict {A} (p l k : list A) :
  p `prefix_of` l ++ k → p ≠ l ++ k →
  (p `prefix_of` l ∧ p ≠ l) ∨ (∃ p', p = l ++ p' ∧ p' `prefix_of` k ∧ p' ≠ k).
Proof.
  intros Hp Hne. destruct (prefix_app_cases _ _ _ Hp) as [(l' & -> & Hl')|(p' & -> & Hp')].
  - left. split; [by eexists|]. intros Heq. apply Hl'.
    apply (app_inv_head p). by rewrite app_nil_r.
  - right. exists p'. split_and!; [done|done|congruence].
Qed.

Lemma decodeBulk_torn b p e :
  zlen b + 2 ≤ maxAlloc →
  p `prefix_of` FormatInt (zlen b) ++ CRLF ++ b ++ CRLF →
  p ≠ FormatInt (zlen b) ++ CRLF ++ b ++ CRLF →
  decodeBulk (mkReader p e) = Err (unexpectEOF e).
Proof.
  intros Hb. rewrite app_assoc. intros Hp Hne. unfold decodeBulk.
  destruct (prefix_app_strict _ _ _ Hp Hne) as [[Hp' Hne']|(q & -> & Hq & Hneq)].
  { by erewrite readInt_torn. }
  pose proof (zlen_nonneg b). unfold maxAlloc in Hb.
  rewrite <-app_assoc, readInt_app by (unfold int64, min_int64, max_int64; lia). simpl.
  rewrite (proj2 (Z.ltb_ge _ _)) by done.
  rewrite wrap64_id by (unfold int64, min_int64, max_int64; lia).
  unfold makeslice_ok, maxAlloc.
  destruct (_ && _) eqn:Em; [|apply andb_false_iff in Em; lia]. simpl. clear Em.
  assert (zlen q < zlen b + 2) as Hlt.
  { destruct (decide (zlen b + 2 ≤ zlen q)) as [Hge|]; [|lia].
    exfalso. apply Hneq. apply prefix_length_eq; [done|].
    rewrite length_app. pose proof (eq_refl : length CRLF = 2%nat). unfold zlen in *. lia. }
  unfold ReadFull. simpl. rewrite (proj2 (Z.leb_gt _ _)) by done.
  destruct q; simpl; by rewrite ?unexpectEOF_idemp.
Qed.

Lemma decode_elems_torn dec vs f i n arr p e :
  Forall wire_ok vs →
  (∀ v, v ∈ vs → (length (encode v) ≤ length p)%nat →
        ∀ rest, dec (mkReader (encode v ++ rest) e) = Ok v (mkReader rest e)) →
  (∀ v q, v ∈ vs → q `prefix_of` encode v → q ≠ encode v → (length q ≤ length p)%nat →
          mid_frame (dec (mkReader q e)) = Err (unexpectEOF e)) →
  p `prefix_of` encode_all vs → p ≠ encode_all vs →
  (length p < f)%nat → n = i + zlen vs →
  decode_elems dec f i n arr (mkReader p e) = Err (unexpectEOF e).
Proof.
  revert p f i arr. induction vs as [|v vs IH]; intros p f i arr Hok Hdec Htear Hp Hne Hf Hn.
  { exfalso. apply Hne. by apply prefix_nil_inv in Hp. }
  apply Forall_cons_1 in Hok as [Hv Hok]. apply encode_nonempty in Hv.
  pose proof (zlen_nonneg vs). rewrite zlen_cons in Hn. destruct f as [|f]; [lia|].
  cbn [decode_elems]. rewrite (proj2 (Z.leb_gt _ _)) by lia.
  unfold encode_all in Hp, Hne. cbn [map concat] in Hp, Hne.
  fold (encode_all vs) in Hp, Hne.
  destruct (prefix_app_strict _ _ _ Hp Hne) as [[Hp' Hne']|(q & -> & Hq & Hneq)].
  - by rewrite (Htear v) by (done || constructor).
  - rewrite length_app in Hf.
    rewrite Hdec by (constructor || rewrite length_app; lia). cbn [mid_frame obind].
    assert (length (encode v) ≠ 0)%nat by (by destruct (encode v)).
    apply IH; [done| | |done|done|lia|lia].
    + intros w Hw Hle. apply Hdec; [by constructor|]. rewrite length_app. lia.
    + intros w r Hw Hr Hner Hlen. apply (Htear w); [by constructor|done..|].
      rewrite length_app. lia.
Qed.

Lemma Decode_torn v : wire_ok v → tears v.
Proof.
  induction 1 as [s Hs|s Hs|n Hn| |b Hb| |vs Hlen Hvs IH] using wire_ok_rect_nested;
    intros p fuel e Hp Hne Hnil Hf.
  1-6: apply prefix_cons_strict in Hp as (q & -> & Hq & Hneq); [|done..];
    (destruct fuel as [|f]; [simpl in Hf; lia|]); simpl.
  - rewrite readLine_torn; [done|]. by eapply no_LF_strict_prefix.
  - rewrite readLine_torn; [done|]. by eapply no_LF_strict_prefix.
  - by erewrite readInt_torn.
  - unfold decodeBulk. by erewrite (readInt_torn (-1)).
  - by eapply decodeBulk_torn.
  - unfold decodeArray. by erewrite (readInt_torn (-1)).
  - rewrite encode_ArrayV in Hp, Hne by done.
    apply prefix_cons_strict in Hp as (q & -> & Hq & Hneq); [|done..].
    destruct fuel as [|f]; [simpl in Hf; lia|]. simpl in *. unfold decodeArray.
    rewrite app_assoc in Hq, Hneq.
    destruct (prefix_app_strict _ _ _ Hq Hneq) as [[Hq' Hne']|(r & -> & Hr & Hner)].
    { by erewrite readInt_torn. }
    pose proof (zlen_nonneg vs).
    destruct (wire_array_len (zlen vs)) as [Hi Hm]; [done..|].
    rewrite <-app_assoc, readInt_app by done. simpl.
    rewrite (proj2 (Z.ltb_ge _ _)) by done. rewrite Hm. simpl.
    rewrite !length_app in Hf. pose proof (eq_refl : length CRLF = 2%nat).
    erewrite decode_elems_torn; [done|done| | |exact Hr|done|lia|lia].
    + intros v Hv Hle rest. eapply Decode_encode; [by eapply Forall_forall|]. lia.
    + intros v t Hv Ht Hnet Hlt. destruct t as [|c t].
      { destruct f as [|f]; [lia|]. done. }
      rewrite Forall_forall in IH. rewrite (IH v); [|done..|lia].
      simpl. by rewrite unexpectEOF_idemp.
Qed.

(** * Consumption and termination *)

(** What a successful read leaves: a proper suffix of the same stream. *)
Definition consumes {A} (m : outcome A) (r : Reader) : Prop :=
  match m with
  | Ok _ r' => ∃ used, used ≠ [] ∧ rbuf r = used ++ rbuf r' ∧ rerr r' = rerr r
  | _ => True
  end.

Lemma consumes_trans {A C} (m : outcome A) (k : A → Reader → outcome C) r :
  consumes m r →
  (∀ a r', m = Ok a r' → consumes (k a r') r' ∨ (∃ c, k a r' = Ok c r')) →
  consumes (obind m k) r.
Proof.
  intros Hm Hk. destruct m as [a r'| | |]; simpl in *; try done.
  destruct Hm as (u & Hu & E & Ee). destruct (Hk a r' eq_refl) as [Hc|[c ->]].
  - destruct (k a r') as [c r''| | |]; simpl in *; try done.
    destruct Hc as (u' & Hu' & E' & Ee'). exists (u ++ u'). split_and!.
    + by destruct u.
    + by rewrite E, E', app_assoc.
    + congruence.
  - by exists u.
Qed.

Lemma consumes_mid {A} (m : outcome A) r : consumes m r → consumes (mid_frame m) r.
Proof. by destruct m. Qed.

Lemma consumes_ReadByte r : consumes (ReadByte r) r.
Proof. unfold ReadByte. destruct r as [[|b bs] e]; simpl; [done|]. by exists [b]. Qed.

Lemma consumes_readLine r : consumes (readLine r) r.
Proof.
  unfold readLine. apply consumes_trans.
  - apply consumes_mid. unfold ReadBytes.
    destruct (cut_delim LF (rbuf r)) as [[l rest]|] eqn:E; [|done].
    apply cut_delim_Some in E as (l' & -> & E & _). exists (l' ++ [LF]). split_and!; [|done..].
    by destruct l'.
  - intros l r' _. case_match; [by left|right; eauto].
Qed.

Lemma consumes_readInt r : consumes (readInt r) r.
Proof.
  unfold readInt. apply consumes_trans; [apply consumes_readLine|].
  intros l r' _. case_match; [right; eauto|by left].
Qed.

Lemma readInt_int64 r n r' : readInt r = Ok n r' → int64 n.
Proof.
  unfold readInt. destruct (readLine r) as [l r0| | |]; simpl; try done.
  destruct (ParseInt l) eqn:E; [|done]. intros [= -> _]. by apply ParseInt_int64 in E.
Qed.

Lemma consumes_decodeBulk r : consumes (decodeBulk r) r.
Proof.
  unfold decodeBulk. apply consumes_trans; [apply consumes_readInt|].
  intros n r' Hint%readInt_int64. case_match eqn:Hn; [right; eauto|]. reflect_bools.
  case_match eqn:Hm; [by left|]. left. apply consumes_trans.
  - apply consumes_mid. unfold ReadFull, makeslice_ok in *. reflect_bools.
    case_match eqn:Hl; [|by destruct (rbuf r')]. reflect_bools.
    exists (take (Z.to_nat (wrap64 (n + 2))) (rbuf r')). split_and!; [|simpl; by rewrite take_drop|done].
    intros Hnil. apply (f_equal length) in Hnil. rewrite length_take in Hnil. simpl in Hnil.
    rewrite wrap64_nonneg in * by (done || lia). unfold zlen in *. lia.
  - intros buf r'' _. case_match; [by left|right; eauto].
Qed.

Lemma consumes_elems dec fuel i n arr r :
  (∀ r, consumes (dec r) r) →
  match decode_elems dec fuel i n arr r with
  | Ok _ r' => ∃ used, rbuf r = used ++ rbuf r' ∧ rerr r' = rerr r
  | _ => True
  end.
Proof.
  intros Hdec. revert i arr r. induction fuel as [|f IH]; intros i arr r; simpl.
  { destruct (n <=? i); [by exists []|done]. }
  destruct (n <=? i); [by exists []|]. pose proof (consumes_mid _ _ (Hdec r)) as Hr.
  destruct (mid_frame (dec r)) as [v r1| | |]; simpl in *; try done.
  destruct Hr as (u & _ & E & Ee). specialize (IH (i + 1) (arr ++ [v]) r1).
  destruct (decode_elems dec f (i + 1) n (arr ++ [v]) r1) as [vs r2| | |]; try done.
  destruct IH as (u' & E' & Ee'). exists (u ++ u'). by rewrite E, E', app_assoc, Ee', Ee.
Qed.

Lemma consumes_Decode fuel r : consumes (Decode fuel r) r.
Proof.
  revert r. induction fuel as [|f IH]; intros r; [done|]. simpl.
  apply consumes_trans; [apply consumes_ReadByte|]. intros b r1 _. left.
  repeat case_match; try done.
  1-3: apply consumes_trans; [apply consumes_readLine || apply consumes_readInt|]; eauto.
  - apply consumes_decodeBulk.
  - unfold decodeArray. apply consumes_trans; [apply consumes_readInt|].
    intros n r2 _. case_match; [right; eauto|]. case_match; [by left|].
    pose proof (consumes_elems (Decode f) f 0 n [] r2 IH) as He.
    destruct (decode_elems (Decode f) f 0 n [] r2) as [vs r3| | |]; [|by left..].
    destruct He as (u & E & Ee). destruct u as [|c u].
    + right. exists (ArrayV (Some vs)). simpl. f_equal. destruct r2, r3; simpl in *; congruence.
    + left. by exists (c :: u).
Qed.

(** Each successful read shortens the input. *)
Lemma consumes_length {A} (m : outcome A) r a r' :
  consumes m r → m = Ok a r' → (length (rbuf r') < length (rbuf r))%nat.
Proof.
  intros Hc ->. destruct Hc as (u & Hu & -> & _). rewrite length_app. destruct u; simpl; [done|lia].
Qed.

Lemma readLine_fuel r : readLine r ≠ OutOfFuel.
Proof.
  unfold readLine, ReadBytes. destruct (cut_delim LF (rbuf r)) as [[l rest]|]; simpl; [|done].
  by case_match.
Qed.

Lemma readInt_fuel r : readInt r ≠ OutOfFuel.
Proof.
  unfold readInt. pose proof (readLine_fuel r). destruct (readLine r); simpl; [|done..].
  by case_match.
Qed.

Lemma decodeBulk_fuel r : decodeBulk r ≠ OutOfFuel.
Proof.
  unfold decodeBulk. pose proof (readInt_fuel r). destruct (readInt r); simpl; [|done..].
  repeat case_match; try done. unfold ReadFull. repeat case_match; simpl; try done.
  by case_match.
Qed.

Lemma decode_elems_fuel dec fuel i n arr r :
  (∀ r', consumes (dec r') r') →
  (∀ r', (length (rbuf r') ≤ length (rbuf r))%nat → dec r' ≠ OutOfFuel) →
  (length (rbuf r) < fuel)%nat →
  decode_elems dec fuel i n arr r ≠ OutOfFuel.
Proof.
  intros Hc. revert i arr r. induction fuel as [|f IH]; intros i arr r Hdec Hf; [lia|].
  simpl. case_match; [done|]. specialize (Hdec r) as Hr.
  destruct (dec r) as [v r1|e| |] eqn:E; simpl; try done; [|by intros _; apply Hr].
  pose proof (consumes_length _ _ _ _ (Hc r) E).
  apply IH; [|lia]. intros r' Hr'. apply Hdec. lia.
Qed.

Lemma Decode_enough_fuel fuel r : (length (rbuf r) < fuel)%nat → Decode fuel r ≠ OutOfFuel.
Proof.
  revert r. induction fuel as [|f IH]; intros r Hf; [lia|]. simpl.
  pose proof (consumes_ReadByte r) as Hb. destruct (ReadByte r) as [b r1| | |] eqn:E; simpl; try done.
  2:{ unfold ReadByte in E. by destruct (rbuf r). }
  eapply consumes_length in Hb; [|done].
  repeat case_match; try done.
  - pose proof (readLine_fuel r1). by destruct (readLine r1).
  - pose proof (readLine_fuel r1). by destruct (readLine r1).
  - pose proof (readInt_fuel r1). by destruct (readInt r1).
  - apply decodeBulk_fuel.
  - unfold decodeArray. pose proof (readInt_fuel r1).
    destruct (readInt r1) as [n r2| | |] eqn:Ei; simpl; try done.
    pose proof (consumes_length _ _ _ _ (consumes_readInt r1) Ei).
    repeat case_match; try done.
    assert (decode_elems (Decode f) f 0 n [] r2 ≠ OutOfFuel) as Hne.
    { apply decode_elems_fuel; [apply consumes_Decode| |lia]. intros r' Hr'. apply IH. lia. }
    by destruct (decode_elems (Decode f) f 0 n [] r2).
Qed.

(** * What [Decode] returns is well formed *)

Lemma readLine_no_LF r l r' : readLine r = Ok l r' → LF ∉ l.
Proof.
  unfold readLine, ReadBytes. destruct (cut_delim LF (rbuf r)) as [[line rest]|] eqn:E; simpl; [|done].
  apply cut_delim_Some in E as (l' & -> & _ & Hl'). case_match; [done|].
  intros [= <- _] Hin. apply Hl'. apply elem_of_take in Hin as (i & Hi & Hlt).
  rewrite length_app in Hlt. simpl in Hlt. rewrite lookup_app_l in Hi by lia.
  by eapply list_elem_of_lookup_2.
Qed.

Lemma decodeBulk_wire r v r' : decodeBulk r = Ok v r' → wire_ok v.
Proof.
  unfold decodeBulk. destruct (readInt r) as [n r1| | |] eqn:E; simpl; try done.
  apply readInt_int64 in E. case_match eqn:Hn; [intros [= <- _]; constructor|].
  case_match eqn:Hm; [done|]. unfold ReadFull. case_match eqn:Hl; [|by case_match].
  simpl. case_match; [done|]. intros [= <- _]. constructor.
  unfold makeslice_ok in Hm. reflect_bools. rewrite wrap64_nonneg in * by (done || lia).
  unfold zlen. rewrite length_take. lia.
Qed.

Lemma decode_elems_wire dec fuel i n arr r vs r' :
  (∀ r v r', dec r = Ok v r' → wire_ok v) →
  Forall wire_ok arr → zlen arr = i → i ≤ n →
  decode_elems dec fuel i n arr r = Ok vs r' → Forall wire_ok vs ∧ zlen vs = n.
Proof.
  intros Hdec. revert i arr r. induction fuel as [|f IH]; intros i arr r Harr Hi Hin; simpl.
  { case_match; [|done]. reflect_bools. intros [= -> _]. split; [done|lia]. }
  case_match; reflect_bools; [intros [= -> _]; split; [done|lia]|].
  destruct (dec r) as [v r1| | |] eqn:E; simpl; try done.
  apply IH; [|autorewrite with go_len; lia|lia].
  apply Forall_app_2; [done|]. constructor; [by eapply Hdec|constructor].
Qed.

Lemma Decode_wire_ok fuel r v r' : Decode fuel r = Ok v r' → wire_ok v.
Proof.
  revert r v r'. induction fuel as [|f IH]; intros r v r'; [done|]. simpl.
  destruct (ReadByte r) as [b r1| | |]; simpl; try done.
  repeat case_match; try done.
  - destruct (readLine r1) eqn:E; simpl; try done. intros [= <- _].
    constructor. by eapply readLine_no_LF.
  - destruct (readLine r1) eqn:E; simpl; try done. intros [= <- _].
    constructor. by eapply readLine_no_LF.
  - destruct (readInt r1) eqn:E; simpl; try done. intros [= <- _].
    constructor. by eapply readInt_int64.
  - apply decodeBulk_wire.
  - unfold decodeArray. destruct (readInt r1) as [n r2| | |]; simpl; try done.
    case_match eqn:Hn; [intros [= <- _]; constructor|]. case_match eqn:Hm; [done|].
    destruct (decode_elems (Decode f) f 0 n [] r2) as [vs r3| | |] eqn:E; simpl; try done.
    intros [= <- _]. reflect_bools.
    apply decode_elems_wire in E as [Hvs Hlen]; [|done|constructor|done|done].
    constructor; [|done]. rewrite Hlen. unfold makeslice_ok in Hm. by reflect_bools.
Qed.

(** * More fuel changes nothing *)

Lemma decode_elems_mono dec dec' f f' i n arr r :
  (∀ r, dec r ≠ OutOfFuel → dec' r = dec r) → (f ≤ f')%nat →
  decode_elems dec f i n arr r ≠ OutOfFuel →
  decode_elems dec' f' i n arr r = decode_elems dec f i n arr r.
Proof.
  intros Hdec. revert f' i arr r. induction f as [|f IH]; intros f' i arr r Hle Hne.
  - destruct f'; simpl in *; by destruct (n <=? i).
  - destruct f' as [|f']; [lia|]. simpl in *. destruct (n <=? i); [done|].
    specialize (Hdec r). destruct (dec r) as [v r1|e| |] eqn:E; simpl in *;
      rewrite ?Hdec by done; simpl; try done. apply IH; [lia|done].
Qed.

Lemma Decode_mono f f' r :
  (f ≤ f')%nat → Decode f r ≠ OutOfFuel → Decode f' r = Decode f r.
Proof.
  revert f' r. induction f as [|f IH]; intros f' r Hle Hne; [done|].
  destruct f' as [|f']; [lia|]. simpl in *.
  destruct (ReadByte r) as [b r1| | |]; simpl in *; try done.
  repeat case_match; try done. unfold decodeArray in *.
  destruct (readInt r1) as [n r2| | |]; simpl in *; try done.
  repeat case_match; try done.
  erewrite (decode_elems_mono (Decode f) (Decode f')); [done| |lia|].
  - intros r' Hr'. apply IH; [lia|done].
  - intros E. by rewrite E in Hne.
Qed.

Lemma decode_fuel fuel r : (length (rbuf r) < fuel)%nat → Decode fuel r = decode r.
Proof. intros Hf. apply Decode_mono; [lia|]. apply Decode_enough_fuel. lia. Qed.

Lemma decode_encode v rest e :
  wire_ok v → decode (mkReader (encode v ++ rest) e) = Ok v (mkReader rest e).
Proof. intros Hv. apply Decode_encode; [done|]. simpl. rewrite length_app. lia. Qed.

Lemma decode_torn v p e :
  wire_ok v → p `prefix_of` encode v → p ≠ encode v → p ≠ [] →
  decode (mkReader p e) = Err (unexpectEOF e).
Proof. intros Hv Hp Hne Hnil. apply (Decode_torn v); [done..|]. simpl. lia. Qed.

(** What is left of the stream after a value. *)
Lemma decode_consumes r v r' :
  decode r = Ok v r' → (length (rbuf r') < length (rbuf r))%nat.
Proof.
  intros H. pose proof (consumes_Decode (S (length (rbuf r))) r) as Hc.
  by eapply consumes_length.
Qed.

Lemma decode_suffix r v r1 : decode r = Ok v r1 → rbuf r1 `suffix_of` rbuf r.
Proof.
  intros E. pose proof (consumes_Decode (S (length (rbuf r))) r) as Hc. fold (decode r) in Hc.
  rewrite E in Hc. destruct Hc as (used & _ & -> & _). by exists used.
Qed.

(** * End of stream *)

Lemma mid_frame_EOF {A} (m : outcome A) : mid_frame m ≠ Err EOF.
Proof. destruct m as [|[]| |]; done. Qed.

Lemma obind_EOF {A C} (m : outcome A) (k : A → Reader → outcome C) :
  m ≠ Err EOF → (∀ a r, k a r ≠ Err EOF) → obind m k ≠ Err EOF.
Proof. intros Hm Hk. destruct m; simpl; [apply Hk|congruence|done..]. Qed.

Lemma readLine_EOF r : readLine r ≠ Err EOF.
Proof. apply obind_EOF; [apply mid_frame_EOF|]. intros l r'. simpl. by case_match. Qed.

Lemma readInt_EOF r : readInt r ≠ Err EOF.
Proof. apply obind_EOF; [apply readLine_EOF|]. intros l r'. simpl. by case_match. Qed.

Lemma decode_elems_EOF dec fuel i n arr r : decode_elems dec fuel i n arr r ≠ Err EOF.
Proof.
  revert i arr r. induction fuel as [|f IH]; intros i arr r; simpl; case_match; try done.
  apply obind_EOF; [apply mid_frame_EOF|]. auto.
Qed.

Lemma Decode_EOF fuel r : Decode fuel r = Err EOF → rbuf r = [].
Proof.
  destruct fuel as [|f]; [done|]. simpl. unfold ReadByte.
  destruct (rbuf r) as [|b bs]; [done|]. simpl. intros H. exfalso. revert H.
  repeat case_match; try done.
  1, 2: apply obind_EOF; [apply readLine_EOF|done].
  - apply obind_EOF; [apply readInt_EOF|done].
  - apply obind_EOF; [apply readInt_EOF|]. intros n r'. cbn zeta. repeat case_match; try done.
    apply obind_EOF; [apply mid_frame_EOF|]. intros buf r''. by case_match.
  - apply obind_EOF; [apply readInt_EOF|]. intros n r'. cbn zeta. repeat case_match; try done.
    apply obind_EOF; [apply decode_elems_EOF|done].
Qed.

(** * Properties *)

(** C10: what [Encode] writes for a value the wire format can carry is read
    back by [Decode] as the same value, and the reader is left exactly at
    the first byte after the frame, whatever follows it; [Encode] reports
    no error for such a value. *)
Theorem decode_encode_roundtrip v rest e :
  wire_ok v →
  (Encode v).2 = None ∧
  decode (mkReader ((Encode v).1 ++ rest) e) = Ok v (mkReader rest e).
Proof. intros Hv. split; [by apply wire_ok_Encode|by apply decode_encode]. Qed.

Lemma decode_encode_roundtrip_witness :
  decode (mkReader ((Encode (ArrayV (Some [BulkV (Some (B "GET")); BulkV (Some (B "k"))]))).1
                    ++ B "tail") EOF)
  = Ok (ArrayV (Some [BulkV (Some (B "GET")); BulkV (Some (B "k"))])) (mkReader (B "tail") EOF).
Proof.
  refine (proj2 (decode_encode_roundtrip
    (ArrayV (Some [BulkV (Some (B "GET")); BulkV (Some (B "k"))])) (B "tail") EOF _)).
  constructor; [vm_compute; congruence|].
  repeat constructor; vm_compute; congruence.
Defined.

(** C30: a frame cut strictly inside (at least one byte, not all of them) is
    reported as [io.ErrUnexpectedEOF] when the stream ends there, for every
    value the wire format can carry and every cut point; no other error, no
    value, no panic. *)
Theorem decode_torn_frame v p :
  wire_ok v → p `prefix_of` (Encode v).1 → p ≠ (Encode v).1 → p ≠ [] →
  decode (mkReader p EOF) = Err ErrUnexpectedEOF.
Proof. apply decode_torn. Qed.

Lemma decode_torn_frame_witness :
  decode (mkReader (B "*1" ++ CRLF ++ B "$4" ++ CRLF ++ B "PI") EOF) = Err ErrUnexpectedEOF.
Proof.
  apply (decode_torn_frame (ArrayV (Some [BulkV (Some (B "PING"))]))).
  - constructor; [vm_compute; congruence|]. repeat constructor; vm_compute; congruence.
  - exists (B "NG" ++ CRLF). vm_compute. reflexivity.
  - vm_compute. congruence.
  - vm_compute. congruence.
Defined.

(** [Decode] terminates on every input: one more unit of fuel than there
    are bytes left always gives a result, and any larger amount of fuel gives
    the same result. *)
Theorem decode_terminates r fuel :
  (length (rbuf r) < fuel)%nat →
  Decode fuel r ≠ OutOfFuel ∧ Decode fuel r = decode r.
Proof. intros Hf. split; [by apply Decode_enough_fuel|by apply decode_fuel]. Qed.

Lemma decode_terminates_witness :
  Decode 100 (mkReader (B "*2" ++ CRLF ++ B "*-1" ++ CRLF) EOF)
  = decode (mkReader (B "*2" ++ CRLF ++ B "*-1" ++ CRLF) EOF).
Proof.
  apply (decode_terminates (mkReader (B "*2" ++ CRLF ++ B "*-1" ++ CRLF) EOF) 100).
  vm_compute. lia.
Defined.

(** Every value [Decode] accepts from a client can be re-encoded and
    decoded again to itself, so a request that was decoded from a socket can
    be appended to the log or sent to a replica and read back unchanged. *)
Theorem decode_reencodes fuel r v r' rest e :
  Decode fuel r = Ok v r' →
  (Encode v).2 = None ∧
  decode (mkReader ((Encode v).1 ++ rest) e) = Ok v (mkReader rest e).
Proof.
  intros Hv%Decode_wire_ok. split; [by apply wire_ok_Encode|by apply decode_encode].
Qed.

Lemma decode_reencodes_witness :
  decode (mkReader ((Encode (ArrayV (Some [BulkV None; IntegerV 7]))).1 ++ []) EOF)
  = Ok (ArrayV (Some [BulkV None; IntegerV 7])) (mkReader [] EOF).
Proof.
  refine (proj2 (decode_reencodes 40
    (mkReader (B "*+2" ++ CRLF ++ B "$-9" ++ CRLF ++ B ":+7" ++ CRLF) EOF)
    (ArrayV (Some [BulkV None; IntegerV 7])) (mkReader [] EOF) [] EOF _)).
  vm_compute. reflexivity.
Defined.

(** On a stream that ends with [io.EOF], [Decode] returns [io.EOF]
    exactly when no byte of a frame is left: a clean close and a torn frame
    are never confused. *)
Theorem decode_eof_only_at_boundary r :
  rerr r = EOF → (decode r = Err EOF ↔ rbuf r = []).
Proof.
  intros He. split; [apply Decode_EOF|]. intros Hb. unfold decode. simpl.
  unfold ReadByte. by rewrite Hb, He.
Qed.

Lemma decode_eof_only_at_boundary_witness :
  decode (mkReader [] EOF) = Err EOF ↔ rbuf (mkReader [] EOF) = [].
Proof. apply decode_eof_only_at_boundary. reflexivity. Defined.

(** C40: a bulk-string header that announces more than [maxAlloc - 2] bytes
    makes [Decode] panic before any payload arrives: [make] is called with
    the length the client sent, and nothing bounds or recovers it. *)
Theorem decode_oversized_bulk_panics n rest e :
  maxAlloc - 2 < n ≤ max_int64 →
  decode (mkReader (TypeBulkString :: FormatInt n ++ CRLF ++ rest) e) = Panic.
Proof.
  intros Hn. unfold decode. cbn [Decode ReadByte obind rbuf rerr].
  change (decodeBulk (mkReader (FormatInt n ++ CRLF ++ rest) e) = Panic).
  unfold maxAlloc, max_int64 in Hn. unfold decodeBulk.
  rewrite readInt_app by (unfold int64, min_int64, max_int64; lia). simpl.
  rewrite (proj2 (Z.ltb_ge _ _)) by lia.
  destruct (makeslice_ok 1 (wrap64 (n + 2))) eqn:Em; [|done].
  unfold makeslice_ok, maxAlloc in Em. reflect_bools.
  rewrite wrap64_nonneg in * by (unfold int64, min_int64, max_int64; lia). lia.
Qed.

Lemma decode_oversized_bulk_panics_witness :
  decode (mkReader (TypeBulkString :: FormatInt 9223372036854775807 ++ CRLF ++ []) EOF) = Panic.
Proof. apply decode_oversized_bulk_panics. vm_compute. split; congruence. Defined.
