(* ===== verification/PubSub.v ===== *)
(** [internal/db/pubsub.go]: the message bus.

    A [*Subscriber] is shared: the same mailbox is registered under every
    channel its connection listens on, and the delivery goroutine drains it.
    Subscribers are therefore pointers into a heap of mailboxes; closing a
    mailbox or filling it is visible under every channel.

    Each method is one function here.  [Subscribe] and [Unsubscribe] hold the
    broker's lock for writing and are atomic.  [Publish] holds it only for
    reading, so other publishers, deliveries and closes may come between two
    of its sends: [Locks] runs it one [send] at a time. *)

From S2P Require Import Prelude GoLib.

(** [cloneBytes] (db.go): an independent, never nil, copy. *)
Definition cloneBytes (b : slice) : slice := Some (content b).

Definition subMailboxCap : Z := 256.

Record Message := mkMessage { Channel : bytes; Payload : slice }.

(** A buffered channel of messages: its queue, oldest first, and whether it
    has been closed. *)
Record Mailbox := mkMailbox { mqueue : list Message; mclosed : bool }.

(** [*Subscriber]: a pointer to its mailbox. *)
Abbreviation subscriber := nat (only parsing).

Record Broker := mkBroker {
  subs : gmap bytes (list subscriber);
  mailboxes : gmap subscriber Mailbox
}.

Definition NewBroker : Broker := mkBroker ∅ ∅.

(** Allocation of a pointer no live mailbox uses. *)
Definition NewSubscriber (b : Broker) : subscriber * Broker :=
  let s := fresh (dom (mailboxes b)) in
  (s, mkBroker (subs b) (<[s := mkMailbox [] false]> (mailboxes b))).

Definition channel_subs (b : Broker) (channel : bytes) : list subscriber :=
  default [] (subs b !! channel).

Definition Subscribe (b : Broker) (channel : bytes) (sub : subscriber) : Broker :=
  mkBroker (<[channel := channel_subs b channel ++ [sub]]> (subs b)) (mailboxes b).

(** [list[i] = list[len(list)-1]; list[:len(list)-1]] at the first index
    that holds [sub]; the list itself when none does. *)
Definition swap_remove (sub : subscriber) (l : list subscriber) : list subscriber :=
  match list_find (λ s, s = sub) l with
  | None => l
  | Some (i, _) =>
      let n := length l in
      take (n - 1) (<[i := default sub (l !! (n - 1)%nat)]> l)
  end.

Definition Unsubscribe (b : Broker) (channel : bytes) (sub : subscriber) : Broker :=
  let l := channel_subs b channel in
  let m :=
    match list_find (λ s, s = sub) l with
    | None => subs b
    | Some _ => <[channel := swap_remove sub l]> (subs b)
    end in
  let m := if bool_decide (default [] (m !! channel) = []) then delete channel m else m in
  mkBroker m (mailboxes b).

(** One iteration of [Publish]'s loop: a non-blocking send.  [None] is the
    panic of a send on a closed (or nil) mailbox. *)
Definition send (msg : Message) (mbs : gmap subscriber Mailbox) (sub : subscriber)
    : option (gmap subscriber Mailbox * Z) :=
  match mbs !! sub with
  | None => None
  | Some mb =>
      if mclosed mb then None
      else if zlen (mqueue mb) <? subMailboxCap
      then Some (<[sub := mkMailbox (mqueue mb ++ [msg]) false]> mbs, 1)
      else Some (mbs, 0)
  end.

Fixpoint publish_loop (msg : Message) (l : list subscriber)
    (mbs : gmap subscriber Mailbox) (delivered : Z)
    : option (gmap subscriber Mailbox * Z) :=
  match l with
  | [] => Some (mbs, delivered)
  | sub :: l' =>
      match send msg mbs sub with
      | None => None
      | Some (mbs', d) => publish_loop msg l' mbs' (delivered + d)
      end
  end.

Definition Publish (b : Broker) (channel : bytes) (payload : slice) : option (Broker * Z) :=
  match publish_loop (mkMessage channel (cloneBytes payload)) (channel_subs b channel)
          (mailboxes b) 0 with
  | None => None
  | Some (mbs, n) => Some (mkBroker (subs b) mbs, n)
  end.

(** [Subscriber.Close]; [None] is the panic of a second close. *)
Definition Close (b : Broker) (sub : subscriber) : option Broker :=
  match mailboxes b !! sub with
  | Some mb =>
      if mclosed mb then None
      else Some (mkBroker (subs b) (<[sub := mkMailbox (mqueue mb) true]> (mailboxes b)))
  | None => None
  end.

(** The receive end ([Mailbox], ranged over by the delivery goroutine):
    the oldest message, if any. *)
Definition Receive (b : Broker) (sub : subscriber) : option (Message * Broker) :=
  match mailboxes b !! sub with
  | Some (mkMailbox (m :: q) c) =>
      Some (m, mkBroker (subs b) (<[sub := mkMailbox q c]> (mailboxes b)))
  | _ => None
  end.

(** * Facts *)

(** Every registered subscriber has an open mailbox, no channel entry is
    empty, no connection is registered twice on a channel, and no mailbox
    holds more than its capacity. *)
Record broker_ok (b : Broker) : Prop := {
  ok_open : ∀ ch s, s ∈ channel_subs b ch →
              ∃ mb, mailboxes b !! s = Some mb ∧ mclosed mb = false;
  ok_nonempty : ∀ ch, subs b !! ch ≠ Some [];
  ok_nodup : ∀ ch, NoDup (channel_subs b ch);
  ok_cap : ∀ s mb, mailboxes b !! s = Some mb → zlen (mqueue mb) ≤ subMailboxCap
}.

Lemma broker_ok_new : broker_ok NewBroker.
Proof.
  split; intros; unfold channel_subs, NewBroker in *; simpl in *; rewrite ?lookup_empty in *; simpl in *.
  - by apply not_elem_of_nil in H.
  - done.
  - constructor.
  - done.
Qed.

Lemma channel_subs_insert b ch l ch' :
  channel_subs (mkBroker (<[ch := l]> (subs b)) (mailboxes b)) ch'
  = if decide (ch = ch') then l else channel_subs b ch'.
Proof. unfold channel_subs. simpl. rewrite lookup_insert. by case_decide. Qed.

Lemma swap_remove_perm sub l :
  sub ∈ l → sub :: swap_remove sub l ≡ₚ l.
Proof.
  intros Hin. unfold swap_remove.
  destruct (list_find _ l) as [[i x]|] eqn:E.
  2:{ apply list_find_None in E. rewrite Forall_forall in E. by apply E in Hin. }
  apply list_find_Some in E as (Hi & -> & _).
  destruct (exists_last (l := l)) as (l' & z & ->); [by destruct l|].
  rewrite length_app. simpl. replace (length l' + 1 - 1)%nat with (length l') by lia.
  rewrite lookup_app_r, Nat.sub_diag by done. simpl.
  destruct (decide (i < length l')%nat) as [Hlt|Hge].
  - rewrite insert_app_l, take_app_length' by (rewrite ?length_insert; done).
    rewrite lookup_app_l in Hi by done.
    apply list_elem_of_split_length in Hi as (l1 & l2 & -> & ->).
    rewrite insert_app_r_alt, Nat.sub_diag by done. simpl.
    rewrite <-app_assoc. simpl. solve_Permutation.
  - apply lookup_lt_Some in Hi as Hlen. rewrite length_app in Hlen. simpl in Hlen.
    assert (i = length l') as -> by lia.
    rewrite lookup_app_r, Nat.sub_diag in Hi by done. simplify_eq/=.
    rewrite insert_app_r_alt, Nat.sub_diag by done. simpl.
    rewrite take_app_length. solve_Permutation.
Qed.

Lemma swap_remove_notin sub l : sub ∉ l → swap_remove sub l = l.
Proof.
  intros Hnin. unfold swap_remove. destruct (list_find _ l) as [[i x]|] eqn:E; [|done].
  apply list_find_Some in E as (Hi & -> & _). by apply list_elem_of_lookup_2 in Hi.
Qed.

Lemma channel_subs_Unsubscribe b ch sub ch' :
  channel_subs (Unsubscribe b ch sub) ch'
  = if decide (ch = ch') then swap_remove sub (channel_subs b ch) else channel_subs b ch'.
Proof.
  unfold Unsubscribe, channel_subs. simpl.
  set (l := default [] (subs b !! ch)).
  set (m := match list_find _ l with None => subs b | Some _ => _ end).
  assert (default [] (m !! ch) = swap_remove sub l) as Hm.
  { unfold m, swap_remove. destruct (list_find _ l) as [[i x]|]; [|done].
    by rewrite lookup_insert_eq. }
  assert (∀ c, ch ≠ c → m !! c = subs b !! c) as Hm'.
  { intros c Hc. unfold m. destruct (list_find _ l) as [[i x]|]; [|done].
    by rewrite lookup_insert_ne. }
  case_decide as Hc; subst.
  - case_bool_decide as Hd; [|done]. by rewrite lookup_delete_eq, <-Hm, Hd.
  - case_bool_decide as Hd; rewrite ?lookup_delete_ne, Hm' by done; done.
Qed.

Lemma mailboxes_Unsubscribe b ch sub : mailboxes (Unsubscribe b ch sub) = mailboxes b.
Proof. done. Qed.

Lemma elem_of_swap_remove sub l s :
  NoDup l → s ∈ swap_remove sub l ↔ s ∈ l ∧ s ≠ sub.
Proof.
  intros Hnd. destruct (decide (sub ∈ l)) as [Hin|Hnin].
  - pose proof (swap_remove_perm sub l Hin) as Hp. rewrite <-Hp in Hnd.
    apply NoDup_cons in Hnd as [Hn _].
    assert (s ∈ l ↔ s = sub ∨ s ∈ swap_remove sub l) as -> by (by rewrite <-elem_of_cons, Hp).
    split; [|intros [[->|?] ?]; done]. intros Hs. split; [by right|]. by intros ->.
  - rewrite swap_remove_notin by done. split; [|by intros [? _]].
    intros Hs. split; [done|]. by intros ->.
Qed.

Lemma NoDup_swap_remove sub l : NoDup l → NoDup (swap_remove sub l).
Proof.
  intros Hnd. destruct (decide (sub ∈ l)) as [Hin|Hnin].
  - rewrite <-(swap_remove_perm sub l Hin) in Hnd. by apply NoDup_cons in Hnd as [_ ?].
  - by rewrite swap_remove_notin.
Qed.

Lemma Subscribe_ok b ch sub mb :
  broker_ok b → mailboxes b !! sub = Some mb → mclosed mb = false →
  sub ∉ channel_subs b ch → broker_ok (Subscribe b ch sub).
Proof.
  intros [Ho Hne Hnd Hc] Hmb Hcl Hnin. unfold Subscribe. split; simpl.
  - intros ch' s. rewrite channel_subs_insert. case_decide; [|apply Ho].
    rewrite elem_of_app, list_elem_of_singleton. intros [?| ->]; [by eapply Ho|eauto].
  - intros ch'. rewrite lookup_insert. case_decide; [|apply Hne]. intros [= E].
    by destruct (channel_subs b ch).
  - intros ch'. rewrite channel_subs_insert. case_decide; [|apply Hnd].
    apply NoDup_app. split_and!; [apply Hnd| |apply NoDup_singleton].
    intros s Hs ->%list_elem_of_singleton. done.
  - done.
Qed.

Lemma Unsubscribe_ok b ch sub : broker_ok b → broker_ok (Unsubscribe b ch sub).
Proof.
  intros [Ho Hne Hnd Hc]. split.
  - intros ch' s. rewrite channel_subs_Unsubscribe. case_decide; [|apply Ho].
    rewrite elem_of_swap_remove by done. intros [? _]. by eapply Ho.
  - intros ch'. unfold Unsubscribe. simpl.
    set (m := match list_find _ _ with None => subs b | Some _ => _ end).
    case_bool_decide as Hd.
    + rewrite lookup_delete. case_decide; [done|]. unfold m.
      case_match; rewrite ?lookup_insert_ne by done; apply Hne.
    + destruct (decide (ch = ch')) as [<-|Hcc]; [by intros E; rewrite E in Hd|].
      unfold m. case_match; rewrite ?lookup_insert_ne by done; apply Hne.
  - intros ch'. rewrite channel_subs_Unsubscribe. case_decide; [|apply Hnd].
    by apply NoDup_swap_remove.
  - done.
Qed.

(** The effect of a publish on one mailbox, and whether it is delivered. *)
Definition has_room (mb : Mailbox) : bool := zlen (mqueue mb) <? subMailboxCap.

Definition enqueue (msg : Message) (mb : Mailbox) : Mailbox :=
  if has_room mb then mkMailbox (mqueue mb ++ [msg]) (mclosed mb) else mb.

Definition delivered_to (mbs : gmap subscriber Mailbox) (s : subscriber) : Z :=
  match mbs !! s with Some mb => if has_room mb then 1 else 0 | None => 0 end.

Lemma send_open msg mbs s mb :
  mbs !! s = Some mb → mclosed mb = false →
  send msg mbs s = Some (<[s := enqueue msg mb]> mbs, delivered_to mbs s).
Proof.
  intros E Hc. unfold send, delivered_to, enqueue, has_room. rewrite E, Hc.
  case_match; [done|]. by rewrite insert_id.
Qed.

Lemma publish_loop_spec msg l mbs d :
  NoDup l →
  (∀ s, s ∈ l → ∃ mb, mbs !! s = Some mb ∧ mclosed mb = false) →
  ∃ mbs', publish_loop msg l mbs d
            = Some (mbs', d + foldr (λ s n, delivered_to mbs s + n) 0 l) ∧
          ∀ s, mbs' !! s = if decide (s ∈ l) then enqueue msg <$> mbs !! s else mbs !! s.
Proof.
  revert mbs d. induction l as [|s l IH]; intros mbs d Hnd Hop.
  { exists mbs. split; [simpl; do 2 f_equal; lia|]. intros s. case_decide as H; [|done].
    by apply not_elem_of_nil in H. }
  apply NoDup_cons in Hnd as [Hs Hnd].
  destruct (Hop s) as (mb & Hmb & Hcl); [constructor|].
  cbn [publish_loop]. rewrite (send_open _ _ _ mb) by done.
  destruct (IH (<[s := enqueue msg mb]> mbs) (d + delivered_to mbs s)) as (mbs' & Heq & Hl); [done|..].
  { intros s' Hs'. rewrite lookup_insert_ne by (intros ->; done). apply Hop. by constructor. }
  exists mbs'. split.
  - rewrite Heq. do 2 f_equal. cbn [foldr]. rewrite <-Z.add_assoc. do 2 f_equal.
    clear -Hs. induction l as [|x l IH]; [done|]. simpl.
    rewrite not_elem_of_cons in Hs. rewrite IH by tauto. f_equal.
    unfold delivered_to. by rewrite lookup_insert_ne by tauto.
  - intros s'. rewrite Hl. destruct (decide (s = s')) as [<-|Hne].
    + rewrite decide_False by done. rewrite decide_True by constructor.
      by rewrite lookup_insert_eq, Hmb.
    + rewrite lookup_insert_ne by done.
      destruct (decide (s' ∈ l)) as [Hin|Hnin]; [by rewrite decide_True by (by constructor)|].
      rewrite decide_False; [done|]. rewrite elem_of_cons. intros [->|?]; done.
Qed.

Lemma enqueue_closed msg mb : mclosed (enqueue msg mb) = mclosed mb.
Proof. unfold enqueue. by case_match. Qed.

Lemma enqueue_cap msg mb :
  zlen (mqueue mb) ≤ subMailboxCap → zlen (mqueue (enqueue msg mb)) ≤ subMailboxCap.
Proof.
  unfold enqueue, has_room. case_match; [|done]. reflect_bools. simpl.
  autorewrite with go_len. lia.
Qed.

(** On a well-formed broker [Publish] cannot panic. *)
Lemma Publish_spec b ch payload :
  broker_ok b →
  ∃ mbs', Publish b ch payload
    = Some (mkBroker (subs b) mbs',
            foldr (λ s n, delivered_to (mailboxes b) s + n) 0 (channel_subs b ch)) ∧
    (∀ s, mbs' !! s =
       if decide (s ∈ channel_subs b ch)
       then enqueue (mkMessage ch (cloneBytes payload)) <$> mailboxes b !! s
       else mailboxes b !! s) ∧
    broker_ok (mkBroker (subs b) mbs').
Proof.
  intros [Ho Hne Hnd Hc].
  destruct (publish_loop_spec (mkMessage ch (cloneBytes payload)) (channel_subs b ch)
              (mailboxes b) 0) as (mbs' & Heq & Hl); [done|by apply Ho|].
  exists mbs'. unfold Publish. rewrite Heq. split_and!; [done|done|]. split; simpl.
  - intros ch' s Hs. rewrite Hl. destruct (Ho ch' s Hs) as (mb & -> & Hcl).
    case_decide; [|eauto]. simpl. eexists. split; [done|]. by rewrite enqueue_closed.
  - done.
  - done.
  - intros s mb. rewrite Hl. case_decide; [|apply Hc].
    destruct (mailboxes b !! s) as [mb'|] eqn:E; [|done]. intros [= <-].
    eapply enqueue_cap, Hc, E.
Qed.

Lemma NewSubscriber_ok b s b' :
  broker_ok b → NewSubscriber b = (s, b') →
  broker_ok b' ∧ mailboxes b !! s = None ∧
  mailboxes b' = <[s := mkMailbox [] false]> (mailboxes b) ∧ subs b' = subs b.
Proof.
  intros [Ho Hne Hnd Hc] [= Es <-].
  assert (mailboxes b !! s = None) as Hs.
  { apply not_elem_of_dom. rewrite <-Es. apply is_fresh. }
  rewrite Es. split_and!; [|done..]. split; simpl.
  - intros ch s' Hs'. destruct (Ho ch s' Hs') as (mb & Hmb & Hcl). exists mb.
    rewrite lookup_insert_ne by congruence. done.
  - done.
  - done.
  - intros s' mb. rewrite lookup_insert. case_decide; [intros [= <-]; done|apply Hc].
Qed.

Lemma Close_ok b s mb :
  broker_ok b → mailboxes b !! s = Some mb → mclosed mb = false →
  (∀ ch, s ∉ channel_subs b ch) →
  ∃ b', Close b s = Some b' ∧ broker_ok b' ∧ subs b' = subs b ∧
        mailboxes b' = <[s := mkMailbox (mqueue mb) true]> (mailboxes b).
Proof.
  intros [Ho Hne Hnd Hc] Hmb Hcl Hun. unfold Close. rewrite Hmb, Hcl.
  eexists. split_and!; [done| |done..]. split; simpl.
  - intros ch s' Hs'. rewrite lookup_insert_ne; [by eapply Ho|]. intros ->. by eapply Hun.
  - done.
  - done.
  - intros s' mb'. rewrite lookup_insert. case_decide; [intros [= <-]; by eapply (Hc s mb)|apply Hc].
Qed.

Lemma Receive_ok b s m b' :
  broker_ok b → Receive b s = Some (m, b') → broker_ok b' ∧ subs b' = subs b.
Proof.
  intros [Ho Hne Hnd Hc]. unfold Receive.
  destruct (mailboxes b !! s) as [[[|m' q] c]|] eqn:E; try done. intros [= -> <-].
  split; [|done]. split; simpl.
  - intros ch s' Hs'. destruct (Ho ch s' Hs') as (mb & Hmb & Hcl).
    rewrite lookup_insert. case_decide; [|eauto]. subst s'.
    rewrite E in Hmb. simplify_eq/=. eauto.
  - done.
  - done.
  - intros s' mb'. rewrite lookup_insert. case_decide; [|apply Hc]. intros [= <-].
    apply Hc in E. simpl in *. autorewrite with go_len in E. lia.
Qed.

Lemma delivered_count (mbs : gmap subscriber Mailbox) (l : list subscriber) :
  foldr (λ s n, delivered_to mbs s + n) 0 l = zlen (filter (λ s, delivered_to mbs s = 1) l).
Proof.
  induction l as [|s l IH]; [done|]. cbn [foldr]. rewrite IH, filter_cons.
  assert (delivered_to mbs s = 1 ∨ delivered_to mbs s = 0) as [E|E]
    by (unfold delivered_to; repeat case_match; auto).
  - rewrite decide_True by done. rewrite zlen_cons, E. lia.
  - rewrite decide_False by lia. rewrite E. lia.
Qed.

(** Two subscribers, one with a full mailbox, for concrete runs. *)
Definition two_subs : Broker :=
  let '(s1, b) := NewSubscriber NewBroker in
  let '(s2, b) := NewSubscriber b in
  Subscribe (Subscribe b (B "c") s1) (B "c") s2.

Lemma two_subs_ok : broker_ok two_subs.
Proof.
  unfold two_subs. destruct (NewSubscriber NewBroker) as [s1 b1] eqn:E1.
  destruct (NewSubscriber_ok _ _ _ broker_ok_new E1) as (H1 & _ & M1 & S1).
  destruct (NewSubscriber b1) as [s2 b2] eqn:E2.
  destruct (NewSubscriber_ok _ _ _ H1 E2) as (H2 & F2 & M2 & S2).
  assert (s1 ≠ s2) as Hne by (intros ->; rewrite M1, lookup_insert_eq in F2; discriminate F2).
  assert (∀ c, channel_subs b2 c = []) as Hnil.
  { intros c. unfold channel_subs. by rewrite S2, S1. }
  eapply (Subscribe_ok _ _ s2 (mkMailbox [] false)); [|by simpl; rewrite M2, lookup_insert_eq|done|].
  - eapply (Subscribe_ok _ _ s1 (mkMailbox [] false)); [done| |done|].
    + rewrite M2, lookup_insert_ne, M1, lookup_insert_eq by done. done.
    + rewrite Hnil. apply not_elem_of_nil.
  - unfold Subscribe. rewrite channel_subs_insert, decide_True, Hnil by done.
    simpl. by intros ?%list_elem_of_singleton.
Qed.

(** * Properties *)

(** [Publish] never panics and delivers at most once: every subscriber
    of the channel whose mailbox holds fewer than 256 messages gets the
    message (with a private copy of the payload) appended, a full mailbox
    and every other mailbox are untouched, the registrations do not change,
    and the number returned is the number of mailboxes that took it. *)
Theorem publish_delivers b ch payload :
  broker_ok b →
  ∃ b', Publish b ch payload
        = Some (b', zlen (filter (λ s, delivered_to (mailboxes b) s = 1) (channel_subs b ch))) ∧
    broker_ok b' ∧ subs b' = subs b ∧
    ∀ s, mailboxes b' !! s =
      if decide (s ∈ channel_subs b ch)
      then enqueue (mkMessage ch (cloneBytes payload)) <$> mailboxes b !! s
      else mailboxes b !! s.
Proof.
  intros Hok. destruct (Publish_spec b ch payload Hok) as (mbs & E & Hm & Hok').
  rewrite delivered_count in E. eexists. by split_and!.
Qed.

Lemma publish_delivers_witness :
  ∃ b', Publish two_subs (B "c") (Some (B "hi"))
        = Some (b', zlen (filter (λ s, delivered_to (mailboxes two_subs) s = 1)
                                 (channel_subs two_subs (B "c")))) ∧
    broker_ok b' ∧ subs b' = subs two_subs ∧
    ∀ s, mailboxes b' !! s =
      if decide (s ∈ channel_subs two_subs (B "c"))
      then enqueue (mkMessage (B "c") (cloneBytes (Some (B "hi")))) <$> mailboxes two_subs !! s
      else mailboxes two_subs !! s.
Proof. apply (publish_delivers two_subs (B "c") (Some (B "hi"))). exact two_subs_ok. Defined.

(** The swap-remove of [Unsubscribe] takes exactly this subscriber off
    exactly this channel: who is left is everybody else, each once, no other
    channel changes, no mailbox changes, and no empty channel entry stays. *)
Theorem unsubscribe_removes_one b ch sub :
  broker_ok b →
  let b' := Unsubscribe b ch sub in
  broker_ok b' ∧ mailboxes b' = mailboxes b ∧
  (∀ s, s ∈ channel_subs b' ch ↔ s ∈ channel_subs b ch ∧ s ≠ sub) ∧
  (∀ ch', ch' ≠ ch → channel_subs b' ch' = channel_subs b ch') ∧
  subs b' !! ch ≠ Some [].
Proof.
  intros Hok. cbn zeta. pose proof (Unsubscribe_ok b ch sub Hok) as Hok'.
  split_and!; [done|done| | |apply Hok'].
  - intros s. rewrite channel_subs_Unsubscribe, decide_True by done.
    apply elem_of_swap_remove, Hok.
  - intros ch' Hne. rewrite channel_subs_Unsubscribe. by rewrite decide_False by congruence.
Qed.

Lemma unsubscribe_removes_one_witness :
  subs (Unsubscribe two_subs (B "c") 0%nat) !! B "c" ≠ Some [].
Proof.
  destruct (unsubscribe_removes_one two_subs (B "c") 0%nat two_subs_ok) as (_ & _ & _ & _ & H).
  exact H.
Defined.
