(* ===== verification/Bus.v ===== *)
(** What the message bus of pubsub.go promises: a specification in which a
    subscriber is the set of channels it listens on and the messages waiting
    for it, and the proof that the broker (subscriber lists with swap-remove,
    shared mailboxes, non-blocking sends) implements it. *)

From S2P Require Import Prelude GoLib PubSub.

(** * Events of the bus *)

Inductive bus_event :=
  | BNew
  | BSubscribe (s : nat) (ch : bytes)
  | BUnsubscribe (s : nat) (ch : bytes)
  | BPublish (ch : bytes) (payload : slice)
  | BReceive (s : nat)
  | BClose (s : nat).

Inductive bus_reply :=
  | BSub (s : nat)
  | BCount (n : Z)
  | BMessage (m : option Message)
  | BNothing.

(** The broker's side; [None] is a panic. *)
Definition bus_step (ev : bus_event) (b : Broker) : option (Broker * bus_reply) :=
  match ev with
  | BNew => let '(s, b) := NewSubscriber b in Some (b, BSub s)
  | BSubscribe s ch => Some (Subscribe b ch s, BNothing)
  | BUnsubscribe s ch => Some (Unsubscribe b ch s, BNothing)
  | BPublish ch payload =>
      match Publish b ch payload with Some (b, n) => Some (b, BCount n) | None => None end
  | BReceive s =>
      match Receive b s with
      | Some (m, b) => Some (b, BMessage (Some m))
      | None => Some (b, BMessage None)
      end
  | BClose s => match Close b s with Some b => Some (b, BNothing) | None => None end
  end.

(** * Specification *)

Record asub := mkASub { as_chans : gset bytes; as_pending : list Message; as_open : bool }.

Abbreviation abus := (gmap nat asub).

(** A message is for the subscribers of its channel that have room. *)
Definition takes (ch : bytes) (a : asub) : Prop :=
  ch ∈ as_chans a ∧ zlen (as_pending a) < subMailboxCap.

Definition give (msg : Message) (a : asub) : asub :=
  if decide (takes (Channel msg) a)
  then mkASub (as_chans a) (as_pending a ++ [msg]) (as_open a) else a.

(** [None]: the caller broke the discipline of the bus (a mailbox joins a
    channel once and while open, and is closed once and when on no channel). *)
Definition spec_bus (ev : bus_event) (m : abus) : option (abus * bus_reply) :=
  match ev with
  | BNew => let s := fresh (dom m) in Some (<[s := mkASub ∅ [] true]> m, BSub s)
  | BSubscribe s ch =>
      match m !! s with
      | Some (mkASub chans q true) =>
          if bool_decide (ch ∈ chans) then None
          else Some (<[s := mkASub ({[ch]} ∪ chans) q true]> m, BNothing)
      | _ => None
      end
  | BUnsubscribe s ch =>
      match m !! s with
      | Some (mkASub chans q o) => Some (<[s := mkASub (chans ∖ {[ch]}) q o]> m, BNothing)
      | None => None
      end
  | BPublish ch payload =>
      Some (give (mkMessage ch (cloneBytes payload)) <$> m,
            BCount (Z.of_nat (size (filter (λ p, takes ch p.2) m))))
  | BReceive s =>
      match m !! s with
      | Some (mkASub chans (msg :: q) o) => Some (<[s := mkASub chans q o]> m, BMessage (Some msg))
      | Some _ => Some (m, BMessage None)
      | None => None
      end
  | BClose s =>
      match m !! s with
      | Some (mkASub chans q true) =>
          if bool_decide (chans = ∅) then Some (<[s := mkASub ∅ q false]> m, BNothing) else None
      | _ => None
      end
  end.

(** Sequences of events, on either side. *)
Section runs.
  Context {S : Type} (step : bus_event → S → option (S * bus_reply)).

Fixpoint bus_run (evs : list bus_event) (b : S) : option (S * list bus_reply) :=
  match evs with
  | [] => Some (b, [])
  | ev :: evs' =>
      '(b1, r) ← step ev b; '(b2, rs) ← bus_run evs' b1; Some (b2, r :: rs)
  end.
End runs.

(** What an event puts into the mailbox of [s]; what a sequence does; and
    what [s] received. *)
Definition taken (s : nat) (ev : bus_event) (m : abus) : list Message :=
  match ev with
  | BPublish ch payload =>
      match m !! s with
      | Some a => if decide (takes ch a) then [mkMessage ch (cloneBytes payload)] else []
      | None => []
      end
  | _ => []
  end.

Fixpoint accepted (s : nat) (evs : list bus_event) (m : abus) : list Message :=
  match evs with
  | [] => []
  | ev :: evs' =>
      taken s ev m ++ match spec_bus ev m with Some (m', _) => accepted s evs' m' | None => [] end
  end.

Fixpoint received (s : nat) (evs : list bus_event) (rs : list bus_reply) : list Message :=
  match evs, rs with
  | BReceive s' :: evs', BMessage (Some msg) :: rs' =>
      (if bool_decide (s' = s) then [msg] else []) ++ received s evs' rs'
  | _ :: evs', _ :: rs' => received s evs' rs'
  | _, _ => []
  end.

(** * Related states *)

Definition mailbox_of (a : asub) : Mailbox := mkMailbox (as_pending a) (negb (as_open a)).

Record bus_rel (b : Broker) (m : abus) : Prop := {
  br_ok : broker_ok b;
  br_boxes : mailboxes b = mailbox_of <$> m;
  br_subs : ∀ ch s, s ∈ channel_subs b ch ↔ ∃ a, m !! s = Some a ∧ ch ∈ as_chans a
}.

Lemma bus_rel_new : bus_rel NewBroker ∅.
Proof.
  split; [apply broker_ok_new|by rewrite fmap_empty|].
  intros ch s. unfold channel_subs. simpl. rewrite lookup_empty. simpl.
  split; [by intros ?%elem_of_nil|]. by intros (a & ? & _).
Qed.

(** Replacing one subscriber's state. *)
Lemma bus_rel_update b m b' s a' :
  bus_rel b m → broker_ok b' → mailboxes b' = <[s := mailbox_of a']> (mailboxes b) →
  (∀ ch s', s' ∈ channel_subs b' ch ↔
     if decide (s' = s) then ch ∈ as_chans a' else s' ∈ channel_subs b ch) →
  bus_rel b' (<[s := a']> m).
Proof.
  intros [_ Hb Hc] Hok Hm Hd. split; [done|by rewrite Hm, Hb, fmap_insert|].
  intros ch s'. rewrite Hd, lookup_insert. case_decide as E1; case_decide as E2; try congruence.
  - naive_solver.
  - by rewrite Hc.
Qed.

Lemma bus_rel_box b m s a : bus_rel b m → m !! s = Some a → mailboxes b !! s = Some (mailbox_of a).
Proof. intros [_ Hb _] Hs. by rewrite Hb, lookup_fmap, Hs. Qed.

(** The members of a channel, counted in the lists and in the map. *)
Lemma publish_count b m ch :
  bus_rel b m →
  zlen (filter (λ s, delivered_to (mailboxes b) s = 1) (channel_subs b ch))
  = Z.of_nat (size (filter (λ p : nat * asub, takes ch p.2) m)).
Proof.
  intros Hr. pose proof (br_ok _ _ Hr) as Hok. unfold zlen. f_equal. rewrite <-size_dom.
  rewrite <-(size_list_to_set (C := gset nat)) by (apply NoDup_filter, Hok).
  f_equal. apply set_eq. intros s. rewrite elem_of_list_to_set, list_elem_of_filter, elem_of_dom.
  rewrite (br_subs _ _ Hr). unfold delivered_to, has_room. split.
  - intros [Hd (a & Ha & Hc)]. rewrite (bus_rel_box _ _ _ _ Hr Ha) in Hd. simpl in Hd.
    exists a. apply map_lookup_filter_Some. split; [done|]. split; [done|].
    simpl. case_match; [by reflect_bools|done].
  - intros [a [Ha [Hc Hroom]]%map_lookup_filter_Some]. simpl in *. split; [|eauto].
    rewrite (bus_rel_box _ _ _ _ Hr Ha). simpl. by apply Z.ltb_lt in Hroom as ->.
Qed.

Lemma publish_rel b m ch payload b' :
  bus_rel b m → broker_ok b' → subs b' = subs b →
  (∀ s, mailboxes b' !! s =
     if decide (s ∈ channel_subs b ch)
     then enqueue (mkMessage ch (cloneBytes payload)) <$> mailboxes b !! s else mailboxes b !! s) →
  bus_rel b' (give (mkMessage ch (cloneBytes payload)) <$> m).
Proof.
  intros Hr Hok Hs Hm. assert (∀ c, channel_subs b' c = channel_subs b c) as Hcs
    by (intros c; unfold channel_subs; by rewrite Hs).
  split; [done| |].
  - apply map_eq. intros s. rewrite Hm, !lookup_fmap. rewrite (br_boxes _ _ Hr), lookup_fmap.
    destruct (m !! s) as [a|] eqn:Ha; simpl; [|by case_decide].
    assert (s ∈ channel_subs b ch ↔ ch ∈ as_chans a) as Hin
      by (rewrite (br_subs _ _ Hr), Ha; naive_solver).
    unfold give, takes, enqueue, has_room. simpl.
    destruct (zlen (as_pending a) <? subMailboxCap) eqn:E; reflect_bools;
      repeat case_decide; simpl; try done; (naive_solver || lia).
  - intros c s. rewrite Hcs, (br_subs _ _ Hr), lookup_fmap. destruct (m !! s) as [a|]; [|naive_solver].
    simpl. assert (as_chans (give (mkMessage ch (cloneBytes payload)) a) = as_chans a) as E
      by (unfold give; by case_decide). split.
    + intros (a' & [= <-] & ?). eexists. split; [done|]. by rewrite E.
    + intros (a' & [= <-] & ?). eexists. split; [done|]. by rewrite <-E.
Qed.

(** Every event the specification allows is performed, with its reply. *)
Lemma bus_step_sim ev b m m' r :
  bus_rel b m → spec_bus ev m = Some (m', r) → ∃ b', bus_step ev b = Some (b', r) ∧ bus_rel b' m'.
Proof.
  intros Hr E. pose proof (br_ok _ _ Hr) as Hok. destruct ev as [|s ch|s ch|ch payload|s|s]; cbn [bus_step spec_bus] in *.
  - simplify_eq. destruct (NewSubscriber b) as [s b'] eqn:En.
    destruct (NewSubscriber_ok _ _ _ Hok En) as (Hok' & Hfr & Hm & Hsb).
    assert (s = fresh (dom m)) as <-.
    { unfold NewSubscriber in En. injection En as <- _. by rewrite (br_boxes _ _ Hr), dom_fmap_L. }
    eexists. split; [done|]. eapply bus_rel_update; [done..|]. intros c s'. unfold channel_subs.
    rewrite Hsb. fold (channel_subs b c). simpl. case_decide as Hd; [subst s'|done].
    split; [|set_solver]. rewrite (br_subs _ _ Hr). intros (a & Ha & _).
    by rewrite (bus_rel_box _ _ _ _ Hr Ha) in Hfr.
  - destruct (m !! s) as [[chans q []]|] eqn:Es; [|done..]. case_bool_decide as Hc; [done|]. simplify_eq.
    assert (s ∉ channel_subs b ch) as Hn by (rewrite (br_subs _ _ Hr), Es; naive_solver).
    eexists. split; [done|]. pose proof (bus_rel_box _ _ _ _ Hr Es) as Hb.
    eapply bus_rel_update; [done|by eapply Subscribe_ok|by rewrite insert_id|].
    intros c s'. unfold Subscribe. rewrite channel_subs_insert. case_decide as Hd.
    + subst c. rewrite elem_of_app, list_elem_of_singleton. case_decide; set_solver.
    + case_decide as Hs; [|done]. subst s'. rewrite (br_subs _ _ Hr), Es. set_solver.
  - destruct (m !! s) as [[chans q o]|] eqn:Es; [|done]. simplify_eq. eexists. split; [done|].
    pose proof (bus_rel_box _ _ _ _ Hr Es) as Hb.
    eapply bus_rel_update; [done|by apply Unsubscribe_ok|by rewrite insert_id|].
    intros c s'. rewrite channel_subs_Unsubscribe. case_decide as Hd.
    + subst c. rewrite elem_of_swap_remove by apply Hok. case_decide; set_solver.
    + case_decide as Hs; [|done]. subst s'. rewrite (br_subs _ _ Hr), Es. set_solver.
  - simplify_eq. destruct (Publish_spec b ch payload Hok) as (mbs & Ep & Hm & Hok').
    rewrite delivered_count, (publish_count _ _ _ Hr) in Ep. rewrite Ep. eexists. split; [done|].
    by eapply publish_rel.
  - destruct (m !! s) as [[chans [|msg q] o]|] eqn:Es; [..|done]; simplify_eq;
      pose proof (bus_rel_box _ _ _ _ Hr Es) as Hb; unfold Receive; rewrite Hb; [eauto|].
    eexists. split; [done|]. eapply bus_rel_update; [done| |done|].
    + eapply (Receive_ok b s msg); [done|]. unfold Receive. by rewrite Hb.
    + intros c s'. case_decide as Hs; [|done]. subst s'.
      change (s ∈ channel_subs b c ↔ c ∈ chans). rewrite (br_subs _ _ Hr), Es. set_solver.
  - destruct (m !! s) as [[chans q []]|] eqn:Es; [|done..]. case_bool_decide as Hc; [|done]. simplify_eq.
    pose proof (bus_rel_box _ _ _ _ Hr Es) as Hb.
    assert (∀ c, s ∉ channel_subs b c) as Hn.
    { intros c (a & Ha & Hin)%(br_subs _ _ Hr). rewrite Es in Ha. simplify_eq/=. set_solver. }
    destruct (Close_ok b s _ Hok Hb eq_refl Hn) as (b' & -> & Hok' & Hsb & Hm).
    eexists. split; [done|]. eapply bus_rel_update; [done..|]. intros c s'. unfold channel_subs.
    rewrite Hsb. fold (channel_subs b c). case_decide as Hs; [|done]. subst s'. set_solver.
Qed.

Lemma bus_run_sim evs b m m' rs :
  bus_rel b m → bus_run spec_bus evs m = Some (m', rs) →
  ∃ b', bus_run bus_step evs b = Some (b', rs) ∧ bus_rel b' m'.
Proof.
  revert b m rs. induction evs as [|ev evs IH]; intros b m rs Hr E; simpl in *; [simplify_eq; eauto|].
  destruct (spec_bus ev m) as [[m1 r]|] eqn:E1; [|done]. simpl in E.
  destruct (bus_run spec_bus evs m1) as [[m2 rs']|] eqn:E2; [|done]. simplify_eq/=.
  destruct (bus_step_sim _ _ _ _ _ Hr E1) as (b1 & -> & Hr1). simpl.
  destruct (IH b1 m1 rs' Hr1 E2) as (b2 & -> & Hr2). simpl. eauto.
Qed.

(** * Order *)

Definition pending (m : abus) (s : nat) : list Message :=
  match m !! s with Some a => as_pending a | None => [] end.

Lemma pending_insert m s a s' :
  pending (<[s := a]> m) s' = if decide (s = s') then as_pending a else pending m s'.
Proof. unfold pending. rewrite lookup_insert. by case_decide. Qed.

Lemma pending_Some m s a : m !! s = Some a → pending m s = as_pending a.
Proof. unfold pending. by intros ->. Qed.

(** An update that keeps a subscriber's mailbox keeps what waits. *)
Lemma pending_same m s a a' s' :
  m !! s = Some a → as_pending a' = as_pending a → pending (<[s := a']> m) s' = pending m s'.
Proof.
  intros Hs Ha. rewrite pending_insert. case_decide; [|done]. subst s'. by rewrite (pending_Some _ _ _ Hs).
Qed.

(** One event: what waits, after what was received, is what waited and what
    was accepted. *)
Lemma spec_bus_fifo ev m m' r s :
  spec_bus ev m = Some (m', r) →
  received s [ev] [r] ++ pending m' s = pending m s ++ taken s ev m.
Proof.
  intros E. destruct ev as [|s0 ch|s0 ch|ch payload|s0|s0]; cbn [spec_bus taken] in *; rewrite ?app_nil_r.
  - simplify_eq. cbn [received app]. rewrite pending_insert. case_decide as Hs; [subst s|done].
    unfold pending. assert (m !! fresh (dom m) = None) as ->; [|done]. apply not_elem_of_dom, is_fresh.
  - destruct (m !! s0) as [[chans q []]|] eqn:Es; [|done..]. case_bool_decide; simplify_eq.
    cbn [received app]. by eapply pending_same.
  - destruct (m !! s0) as [[chans q o]|] eqn:Es; simplify_eq. cbn [received app]. by eapply pending_same.
  - simplify_eq. cbn [received app]. unfold pending. rewrite lookup_fmap. destruct (m !! s) as [a|]; [|done].
    simpl. unfold give. simpl. case_decide; simpl; by rewrite ?app_nil_r.
  - destruct (m !! s0) as [[chans [|msg q] o]|] eqn:Es; simplify_eq; cbn [received app]; [done|].
    rewrite pending_insert, app_nil_r. case_bool_decide as Hs; case_decide; try congruence; [|done].
    subst s. by rewrite (pending_Some _ _ _ Es).
  - destruct (m !! s0) as [[chans q []]|] eqn:Es; [|done..]. case_bool_decide; simplify_eq.
    cbn [received app]. by eapply pending_same.
Qed.

Lemma received_cons s ev evs r rs : received s (ev :: evs) (r :: rs) = received s [ev] [r] ++ received s evs rs.
Proof. destruct ev, r as [| |[]|]; simpl; by rewrite ?app_nil_r. Qed.

Lemma bus_run_fifo evs m m' rs s :
  bus_run spec_bus evs m = Some (m', rs) →
  received s evs rs ++ pending m' s = pending m s ++ accepted s evs m.
Proof.
  revert m rs. induction evs as [|ev evs IH]; intros m rs E; cbn [bus_run] in E.
  { simplify_eq. simpl. by rewrite app_nil_r. }
  destruct (spec_bus ev m) as [[m1 r]|] eqn:E1; [|done]. simpl in E.
  destruct (bus_run spec_bus evs m1) as [[m2 rs']|] eqn:E2; [|done]. injection E as -> <-.
  rewrite received_cons, <-app_assoc, (IH m1 rs' E2), app_assoc, (spec_bus_fifo _ _ _ _ s E1).
  cbn [accepted]. by rewrite E1, <-app_assoc.
Qed.

(** * Properties *)

(** C18: the broker implements the bus of the specification: any sequence of
    new mailboxes, subscriptions, unsubscriptions, publishes, receives and
    closes that keeps the discipline (a mailbox joins a channel it is not on,
    and while it is open; it is closed once, and when it is on no channel)
    runs without a panic, returns the
    replies of the specification (who is counted by a publish, which message
    a receive gets), keeps the invariant, and delivers to every subscriber
    exactly the messages accepted for it, each once and in the order they
    were published: what it received followed by what still waits. *)
Theorem bus_refines_spec evs m rs :
  bus_run spec_bus evs ∅ = Some (m, rs) →
  ∃ b, bus_run bus_step evs NewBroker = Some (b, rs) ∧ broker_ok b ∧
    mailboxes b = mailbox_of <$> m ∧
    ∀ s, received s evs rs ++ pending m s = accepted s evs ∅.
Proof.
  intros E. destruct (bus_run_sim _ _ _ _ _ bus_rel_new E) as (b & Hb & []).
  exists b. split_and!; [done..|]. intros s. by rewrite (bus_run_fifo _ _ _ _ s E).
Qed.

(** Two subscribers, one of whom leaves between two messages. *)
Definition bus_demo : list bus_event :=
  [BNew; BNew; BSubscribe 0 (B "c"); BSubscribe 1 (B "c"); BPublish (B "c") (Some (B "1"));
   BUnsubscribe 0 (B "c"); BPublish (B "c") None; BPublish (B "d") (Some (B "2"));
   BReceive 1; BReceive 0; BReceive 0; BReceive 1; BClose 0].

Lemma bus_refines_spec_witness :
  ∃ m rs b, bus_run bus_step bus_demo NewBroker = Some (b, rs) ∧
    received 1 bus_demo rs ++ pending m 1 = [mkMessage (B "c") (Some (B "1")); mkMessage (B "c") (Some [])].
Proof.
  destruct (bus_run spec_bus bus_demo ∅) as [[m rs]|] eqn:E; [|vm_compute in E; discriminate E].
  destruct (bus_refines_spec bus_demo m rs E) as (b & Hb & _ & _ & Hf).
  exists m, rs, b. split; [exact Hb|]. rewrite Hf. vm_compute. reflexivity.
Defined.
