(* ===== verification/Store.v ===== *)
(** [internal/db]: the typed entries (entry.go), the sharded keyspace
    (shard.go, the [DB] struct and [New] of db.go) and the expiry predicate
    (expiry.go).

    The keyspace is an array of [shardCount] maps.  Every operation on a key
    takes the lock of that key's shard for the whole of its access, so an
    operation (or each lock section of it) is one function on that shard. *)

From S2P Require Import Prelude GoLib PubSub.

(** * entry.go *)

Inductive kind := kindString | kindList | kindHash | kindSet.

#[global] Instance kind_eq_dec : EqDecision kind.
Proof. solve_decision. Defined.

(** The struct [Entry].  [e_expireAt] is [None] for the zero [time.Time]. *)
Record Entry := mkEntry {
  e_kind : kind;
  e_str : slice;
  e_list : list slice;
  e_hash : gmap bytes slice;
  e_set : gset bytes;
  e_expireAt : option Z
}.

Definition set_list (e : Entry) (l : list slice) : Entry :=
  mkEntry (e_kind e) (e_str e) l (e_hash e) (e_set e) (e_expireAt e).
Definition set_hash (e : Entry) (h : gmap bytes slice) : Entry :=
  mkEntry (e_kind e) (e_str e) (e_list e) h (e_set e) (e_expireAt e).
Definition set_set (e : Entry) (s : gset bytes) : Entry :=
  mkEntry (e_kind e) (e_str e) (e_list e) (e_hash e) s (e_expireAt e).
Definition set_expireAt (e : Entry) (t : option Z) : Entry :=
  mkEntry (e_kind e) (e_str e) (e_list e) (e_hash e) (e_set e) t.

(** [&Entry{kind: kindString, str: stored}] and the empty containers the
    typed helpers create. *)
Definition stringEntry (s : slice) : Entry := mkEntry kindString s [] ∅ ∅ None.
Definition emptyList : Entry := mkEntry kindList None [] ∅ ∅ None.
Definition emptyHash : Entry := mkEntry kindHash None [] ∅ ∅ None.
Definition emptySet : Entry := mkEntry kindSet None [] ∅ ∅ None.

(** [Entry.expired]: the boundary is inclusive. *)
Definition expired (e : Entry) (t : Z) : bool :=
  match e_expireAt e with
  | None => false
  | Some x => negb (t <? x)
  end.

(** * shard.go *)

Definition shardCount : Z := 32.

Abbreviation shard := (gmap bytes Entry).

Record DB := mkDB { shards : list shard; pubsub : Broker }.

(** [New] *)
Definition newDB : DB := mkDB (replicate (Z.to_nat shardCount) ∅) NewBroker.

Definition shardIndex (key : bytes) : Z := fnv32a key mod shardCount.

Definition shardFor (db : DB) (key : bytes) : shard :=
  shards db !!! Z.to_nat (shardIndex key).

(** The store after the shard of [key] became [sh]. *)
Definition putShard (db : DB) (key : bytes) (sh : shard) : DB :=
  mkDB (<[Z.to_nat (shardIndex key) := sh]> (shards db)) (pubsub db).

Definition peek (sh : shard) (key : bytes) (now : Z) : option Entry :=
  match sh !! key with
  | None => None
  | Some e => if expired e now then None else Some e
  end.

Definition liveEntry (sh : shard) (key : bytes) (now : Z) : option Entry * shard :=
  match sh !! key with
  | None => (None, sh)
  | Some e => if expired e now then (None, delete key sh) else (Some e, sh)
  end.

(** * The type invariant *)

(** Exactly the field selected by the kind is set, containers are never
    empty, and no stored byte slice is nil. *)
Definition entry_ok (e : Entry) : Prop :=
  match e_kind e with
  | kindString => is_Some (e_str e) ∧ e_list e = [] ∧ e_hash e = ∅ ∧ e_set e = ∅
  | kindList => e_str e = None ∧ e_list e ≠ [] ∧ Forall is_Some (e_list e)
                ∧ e_hash e = ∅ ∧ e_set e = ∅
  | kindHash => e_str e = None ∧ e_list e = [] ∧ e_hash e ≠ ∅
                ∧ map_Forall (λ _ v, is_Some v) (e_hash e) ∧ e_set e = ∅
  | kindSet => e_str e = None ∧ e_list e = [] ∧ e_hash e = ∅ ∧ e_set e ≠ ∅
  end.

(** Every key lives in the shard its hash selects, and every entry is well
    formed. *)
Record db_ok (db : DB) : Prop := {
  ok_shards : length (shards db) = Z.to_nat shardCount;
  ok_routed : ∀ i sh k e, shards db !! i = Some sh → sh !! k = Some e →
                i = Z.to_nat (shardIndex k);
  ok_entries : ∀ i sh k e, shards db !! i = Some sh → sh !! k = Some e → entry_ok e;
  ok_pubsub : broker_ok (pubsub db)
}.

(** * The flat keyspace the shards represent *)

Definition keyspace (db : DB) : gmap bytes Entry := foldr (∪) ∅ (shards db).

(** * Facts *)

Lemma shardIndex_bound key : 0 ≤ shardIndex key < shardCount.
Proof. apply Z.mod_pos_bound. done. Qed.

Lemma shardIndex_lt key db :
  length (shards db) = Z.to_nat shardCount →
  (Z.to_nat (shardIndex key) < length (shards db))%nat.
Proof. intros ->. pose proof (shardIndex_bound key). lia. Qed.

Lemma shards_shardFor db key :
  length (shards db) = Z.to_nat shardCount →
  shards db !! Z.to_nat (shardIndex key) = Some (shardFor db key).
Proof.
  intros Hlen. unfold shardFor.
  apply list_lookup_lookup_total_lt. by apply shardIndex_lt.
Qed.

Lemma length_putShard db key sh : length (shards (putShard db key sh)) = length (shards db).
Proof. apply length_insert. Qed.

Lemma foldr_union_lookup (l : list shard) k i sh :
  l !! i = Some sh →
  (∀ j sh', l !! j = Some sh' → is_Some (sh' !! k) → j = i) →
  foldr (∪) ∅ l !! k = sh !! k.
Proof.
  revert i. induction l as [|s l IH]; intros i Hi Huniq; [done|]. simpl.
  rewrite lookup_union. destruct i as [|i]; simpl in Hi.
  - injection Hi as ->. assert (foldr (∪) ∅ l !! k = None) as ->.
    { clear IH. assert (∀ j sh', l !! j = Some sh' → sh' !! k = None) as Hn.
      { intros j sh' Hj. destruct (sh' !! k) as [e|] eqn:E; [|done].
        assert (S j = 0%nat); [|done]. eapply (Huniq (S j)); [done|by eexists]. }
      clear Huniq. induction l as [|s' l IH]; [done|]. simpl.
      rewrite lookup_union, (Hn 0%nat s') by done.
      rewrite IH; [done|]. intros j sh'. apply (Hn (S j)). }
    by destruct (sh !! k).
  - rewrite (IH i Hi); [|intros j sh' Hj Hk; specialize (Huniq (S j) sh' Hj Hk); lia].
    destruct (s !! k) as [e|] eqn:E; [|by destruct (sh !! k)].
    assert (0%nat = S i); [|done]. eapply (Huniq 0%nat s); [done|by eexists].
Qed.

Lemma keyspace_lookup db key : db_ok db → keyspace db !! key = shardFor db key !! key.
Proof.
  intros [Hlen Hr _ _]. eapply foldr_union_lookup; [by apply shards_shardFor|].
  intros j sh' Hj [e He]. by eapply Hr.
Qed.

Lemma shardFor_putShard db key sh key' :
  length (shards db) = Z.to_nat shardCount →
  shardFor (putShard db key sh) key'
  = if decide (shardIndex key = shardIndex key') then sh else shardFor db key'.
Proof.
  intros Hlen. unfold shardFor, putShard. simpl.
  pose proof (shardIndex_bound key). pose proof (shardIndex_bound key').
  pose proof (shardIndex_lt key db Hlen).
  case_decide as E.
  - rewrite E in *. by rewrite list_lookup_total_insert_eq.
  - rewrite list_lookup_total_insert_ne; [done|lia].
Qed.

(** A shard update keeps the invariant when it only touches [key]. *)
Lemma putShard_ok db key sh :
  db_ok db →
  (∀ k, k ≠ key → sh !! k = shardFor db key !! k) →
  (∀ e, sh !! key = Some e → entry_ok e) →
  db_ok (putShard db key sh).
Proof.
  intros [Hlen Hr He Hp] Hother Hkey. pose proof (shards_shardFor db key Hlen) as Hsh.
  assert (∀ i sh' k e, shards (putShard db key sh) !! i = Some sh' → sh' !! k = Some e →
            i = Z.to_nat (shardIndex k) ∧ entry_ok e) as Hall.
  { intros i sh' k e Hi Hk. unfold putShard in Hi. simpl in Hi.
    rewrite list_lookup_insert in Hi. case_decide as Hd.
    - destruct Hd as [<- _]. injection Hi as <-.
      destruct (decide (k = key)) as [->|Hne]; [split; [done|by apply Hkey]|].
      rewrite Hother in Hk by done. split; [by eapply Hr|by eapply He].
    - split; [by eapply Hr|by eapply He]. }
  split; [by rewrite length_putShard|..|done].
  - intros. by eapply Hall.
  - intros. by eapply Hall.
Qed.

Lemma keyspace_putShard db key sh k :
  db_ok db →
  (∀ k, k ≠ key → sh !! k = shardFor db key !! k) →
  (∀ e, sh !! key = Some e → entry_ok e) →
  keyspace (putShard db key sh) !! k
  = if decide (k = key) then sh !! key else keyspace db !! k.
Proof.
  intros Hok Hother Hkey. rewrite keyspace_lookup by by apply putShard_ok.
  rewrite shardFor_putShard by apply Hok. rewrite keyspace_lookup by done.
  destruct (decide (k = key)) as [->|Hne]; [by rewrite decide_True|].
  case_decide as E; [|done]. rewrite Hother by done. unfold shardFor. by rewrite E.
Qed.

Lemma newDB_ok : db_ok newDB.
Proof.
  assert (∀ i sh, shards newDB !! i = Some sh → sh = ∅) as He.
  { intros i sh Hi. unfold newDB in Hi. cbn [shards] in Hi. by apply lookup_replicate in Hi as [-> _]. }
  split; [done|..|apply broker_ok_new].
  - intros i sh k e Hi Hk. apply He in Hi as ->. by rewrite lookup_empty in Hk.
  - intros i sh k e Hi Hk. apply He in Hi as ->. by rewrite lookup_empty in Hk.
Qed.

Lemma lookup_entry_ok db key e : db_ok db → shardFor db key !! key = Some e → entry_ok e.
Proof.
  intros Hok He. eapply (ok_entries _ Hok); [|exact He].
  apply shards_shardFor, Hok.
Qed.

(** Looking an entry up never changes another key, and what is left under
    [key] is what was there or nothing. *)
Lemma liveEntry_other sh key now k :
  k ≠ key → (liveEntry sh key now).2 !! k = sh !! k.
Proof.
  intros Hk. unfold liveEntry. repeat case_match; simpl; [|done..].
  by rewrite lookup_delete_ne.
Qed.

Lemma liveEntry_peek sh key now : (liveEntry sh key now).1 = peek sh key now.
Proof. unfold liveEntry, peek. by repeat case_match. Qed.

Lemma liveEntry_key sh key now : (liveEntry sh key now).2 !! key = peek sh key now.
Proof.
  unfold liveEntry, peek. repeat case_match; simpl; [|done..].
  by rewrite lookup_delete_eq.
Qed.

Lemma peek_Some sh key now e :
  peek sh key now = Some e ↔ sh !! key = Some e ∧ expired e now = false.
Proof. unfold peek. split; [|intros [-> ->]; done]. repeat case_match; naive_solver. Qed.
