(* ===== verification/Db.v ===== *)
(** [internal/db/db.go] and the TTL operations of [internal/db/expiry.go]:
    the methods of [DB], one definition per method.

    Each [time.Now] a method makes is an argument, in the order of the calls;
    a map iteration takes the [map_order] the runtime chose.  [Crash] is a Go
    panic (nil dereference, index out of range, send on a closed channel). *)

From S2P Require Import Prelude GoLib PubSub Store.

(** * Results *)

Inductive db_error := ErrWrongType.

Inductive res (A : Type) :=
  | Ret (a : A)
  | Fail (e : db_error)
  | Crash.
Arguments Ret {A} _.
Arguments Fail {A} _.
Arguments Crash {A}.

(** * Keyspace-wide *)

Definition KeyCount (db : DB) : Z :=
  foldl (λ n (sh : shard), n + Z.of_nat (size sh)) 0 (shards db).

(** * Strings *)

Definition expireIfNeeded (db : DB) (key : bytes) (now : Z) : DB * bool :=
  let sh := shardFor db key in
  match sh !! key with
  | Some e => if expired e now then (putShard db key (delete key sh), true) else (db, false)
  | None => (db, false)
  end.

(** The read-locked section of [Get].  [None]: the key is there but expired,
    the case in which [Get] drops the read lock and escalates. *)
Definition get_read (db : DB) (key : bytes) (now : Z) : option (res (slice * bool)) :=
  match shardFor db key !! key with
  | None => Some (Ret (None, false))
  | Some e =>
      if expired e now then None
      else if bool_decide (e_kind e ≠ kindString) then Some (Fail ErrWrongType)
      else Some (Ret (e_str e, true))
  end.

(** The read section looks at the clock once ([t1]); only an expired key
    escalates to [expireIfNeeded], which looks again ([t2]). *)
Definition DB_Get (db : DB) (key : bytes) (t1 t2 : Z) : DB * res (slice * bool) :=
  match get_read db key t1 with
  | None => ((expireIfNeeded db key t2).1, Ret (None, false))
  | Some r => (db, r)
  end.

Definition DB_Set (db : DB) (key : bytes) (value : slice) : DB :=
  let stored := cloneBytes value in
  putShard db key (<[key := stringEntry stored]> (shardFor db key)).

(** * Keys *)

(** One iteration of [Del]'s loop, under the key's shard lock. *)
Definition del_step (db : DB) (key : bytes) (now : Z) : DB * Z :=
  match liveEntry (shardFor db key) key now with
  | (Some _, sh) => (putShard db key (delete key sh), 1)
  | (None, sh) => (putShard db key sh, 0)
  end.

Fixpoint del_loop (db : DB) (keys : list bytes) (clk : clock) (i : nat) (removed : Z) : DB * Z :=
  match keys with
  | [] => (db, removed)
  | key :: keys' =>
      let '(db', d) := del_step db key (clk i) in
      del_loop db' keys' clk (S i) (removed + d)
  end.

Definition DB_Del (db : DB) (keys : list bytes) (clk : clock) : DB * Z :=
  del_loop db keys clk 0 0.

(** One iteration of [Exists]'s loop, under the key's shard read lock. *)
Definition exists_step (db : DB) (key : bytes) (now : Z) : Z :=
  match peek (shardFor db key) key now with Some _ => 1 | None => 0 end.

Fixpoint exists_loop (db : DB) (keys : list bytes) (clk : clock) (i : nat) (count : Z) : Z :=
  match keys with
  | [] => count
  | key :: keys' => exists_loop db keys' clk (S i) (count + exists_step db key (clk i))
  end.

Definition DB_Exists (db : DB) (keys : list bytes) (clk : clock) : Z :=
  exists_loop db keys clk 0 0.

(** * The typed lookups for mutation

    [listEntry], [hashEntry] and [setEntry] differ in the kind they accept and
    the empty entry they create. *)

Definition typedEntry (k : kind) (empty : Entry) (sh : shard) (key : bytes) (create : bool)
    (now : Z) : shard * res (option Entry) :=
  match liveEntry sh key now with
  | (None, sh) =>
      if negb create then (sh, Ret None)
      else (<[key := empty]> sh, Ret (Some empty))
  | (Some e, sh) =>
      if bool_decide (e_kind e ≠ k) then (sh, Fail ErrWrongType) else (sh, Ret (Some e))
  end.

Definition listEntry := typedEntry kindList emptyList.
Definition hashEntry := typedEntry kindHash emptyHash.
Definition setEntry := typedEntry kindSet emptySet.

(** [sh.data[key].f = v], written through the pointer the lookup returned. *)
Definition putEntry (db : DB) (key : bytes) (sh : shard) (e : Entry) : DB :=
  putShard db key (<[key := e]> sh).

(** * Lists *)

Definition push_front (values : list slice) (l : list slice) : list slice :=
  foldl (λ prefix i, prefix ++ [cloneBytes (values !!! i)]) []
        (rev (seq 0 (length values))) ++ l.

Definition push_back (values : list slice) (l : list slice) : list slice :=
  foldl (λ l v, l ++ [cloneBytes v]) l values.

Definition push (f : list slice → list slice) (db : DB) (key : bytes) (now : Z) : DB * res Z :=
  match listEntry (shardFor db key) key true now with
  | (sh, Fail err) => (putShard db key sh, Fail err)
  | (sh, Ret (Some e)) =>
      let l := f (e_list e) in
      (putEntry db key sh (set_list e l), Ret (zlen l))
  | (sh, _) => (putShard db key sh, Crash)
  end.

Definition DB_LPush (db : DB) (key : bytes) (values : list slice) (now : Z) : DB * res Z :=
  push (push_front values) db key now.

Definition DB_RPush (db : DB) (key : bytes) (values : list slice) (now : Z) : DB * res Z :=
  push (push_back values) db key now.

(** [LPop] and [RPop]: [pick] splits the non-empty list into the popped
    element and what stays. *)
Definition pop (pick : list slice → option (slice * list slice)) (db : DB) (key : bytes)
    (now : Z) : DB * res (slice * bool) :=
  match listEntry (shardFor db key) key false now with
  | (sh, Fail err) => (putShard db key sh, Fail err)
  | (sh, Crash) => (putShard db key sh, Crash)
  | (sh, Ret None) => (putShard db key sh, Ret (None, false))
  | (sh, Ret (Some e)) =>
      if bool_decide (e_list e = []) then (putShard db key sh, Ret (None, false))
      else match pick (e_list e) with
           | None => (putShard db key sh, Crash)
           | Some (v, l) =>
               let sh := <[key := set_list e l]> sh in
               let sh := if bool_decide (l = []) then delete key sh else sh in
               (putShard db key sh, Ret (v, true))
           end
  end.

(** [v := list[0]; list = list[1:]] *)
Definition pick_head (l : list slice) : option (slice * list slice) :=
  match l !! 0%nat with None => None | Some v => Some (v, drop 1 l) end.

(** [v := list[n-1]; list = list[:n-1]] *)
Definition pick_last (l : list slice) : option (slice * list slice) :=
  let n := length l in
  match l !! (n - 1)%nat with None => None | Some v => Some (v, take (n - 1) l) end.

Definition DB_LPop (db : DB) (key : bytes) (now : Z) := pop pick_head db key now.
Definition DB_RPop (db : DB) (key : bytes) (now : Z) := pop pick_last db key now.

(** A read of the entry at [key]: [absent] when there is none, a type error
    when it is not a [k]. *)
Definition read {A} (k : kind) (absent : A) (f : Entry → res A)
    (db : DB) (key : bytes) (now : Z) : res A :=
  match peek (shardFor db key) key now with
  | None => Ret absent
  | Some e => if bool_decide (e_kind e ≠ k) then Fail ErrWrongType else f e
  end.

Definition DB_LLen (db : DB) (key : bytes) (now : Z) : res Z :=
  read kindList 0 (λ e, Ret (zlen (e_list e))) db key now.

(** [n] is a length, so adding it to a negative [int] cannot overflow. *)
Definition normalizeRange (start stop n : Z) : Z * Z * bool :=
  let start := if start <? 0 then start + n else start in
  let stop := if stop <? 0 then stop + n else stop in
  let start := if start <? 0 then 0 else start in
  let stop := if n <=? stop then n - 1 else stop in
  if (n =? 0) || (stop <? start) || (n <=? start) then (0, 0, false)
  else (start, stop, true).

(** [for i := lo; i <= hi; i++ { out = append(out, l[i]) }]; [None] is an
    index out of range. *)
Definition range_loop (lo hi : Z) (l : list slice) : option (list slice) :=
  mapM (λ i, l !! i) (seq (Z.to_nat lo) (Z.to_nat (hi - lo + 1))).

Definition DB_LRange (db : DB) (key : bytes) (start stop : Z) (now : Z) : res (list slice) :=
  read kindList []
    (λ e, match normalizeRange start stop (zlen (e_list e)) with
          | (_, _, false) => Ret []
          | (lo, hi, true) =>
              match range_loop lo hi (e_list e) with Some out => Ret out | None => Crash end
          end) db key now.

(** * Hashes *)

(** The loop of [HSet] from field [i] on: [values[i]] is a crash when the
    slices are not parallel. *)
Fixpoint hset_loop (h : gmap bytes slice) (fields values : list slice) (added : Z)
    : option (gmap bytes slice * Z) :=
  match fields, values with
  | [], _ => Some (h, added)
  | _ :: _, [] => None
  | f :: fields', v :: values' =>
      let name := content f in
      let added := match h !! name with None => added + 1 | Some _ => added end in
      hset_loop (<[name := cloneBytes v]> h) fields' values' added
  end.

Definition DB_HSet (db : DB) (key : bytes) (fields values : list slice) (now : Z) : DB * res Z :=
  match hashEntry (shardFor db key) key true now with
  | (sh, Fail err) => (putShard db key sh, Fail err)
  | (sh, Ret (Some e)) =>
      match hset_loop (e_hash e) fields values 0 with
      | Some (h, added) => (putEntry db key sh (set_hash e h), Ret added)
      | None => (putShard db key sh, Crash)
      end
  | (sh, _) => (putShard db key sh, Crash)
  end.

Definition DB_HGet (db : DB) (key field : bytes) (now : Z) : res (slice * bool) :=
  read kindHash (None, false)
    (λ e, match e_hash e !! field with
          | None => Ret (None, false)
          | Some v => Ret (v, true)
          end) db key now.

Fixpoint hdel_loop (h : gmap bytes slice) (fields : list bytes) (removed : Z)
    : gmap bytes slice * Z :=
  match fields with
  | [] => (h, removed)
  | f :: fields' =>
      match h !! f with
      | Some _ => hdel_loop (delete f h) fields' (removed + 1)
      | None => hdel_loop h fields' removed
      end
  end.

Definition DB_HDel (db : DB) (key : bytes) (fields : list bytes) (now : Z) : DB * res Z :=
  match hashEntry (shardFor db key) key false now with
  | (sh, Fail err) => (putShard db key sh, Fail err)
  | (sh, Crash) => (putShard db key sh, Crash)
  | (sh, Ret None) => (putShard db key sh, Ret 0)
  | (sh, Ret (Some e)) =>
      let '(h, removed) := hdel_loop (e_hash e) fields 0 in
      let sh := <[key := set_hash e h]> sh in
      let sh := if bool_decide (size h = 0%nat) then delete key sh else sh in
      (putShard db key sh, Ret removed)
  end.

Definition DB_HGetAll (o : map_order) (db : DB) (key : bytes) (now : Z)
    : res (list slice * list slice) :=
  read kindHash ([], [])
    (λ e, let l := range_map o (e_hash e) in
          Ret (map (λ fv, Some fv.1) l, map snd l)) db key now.

Definition DB_HKeys (o : map_order) (db : DB) (key : bytes) (now : Z) : res (list slice) :=
  read kindHash [] (λ e, Ret (map (λ fv, Some fv.1) (range_map o (e_hash e)))) db key now.

Definition DB_HVals (o : map_order) (db : DB) (key : bytes) (now : Z) : res (list slice) :=
  read kindHash [] (λ e, Ret (map snd (range_map o (e_hash e)))) db key now.

Definition DB_HLen (db : DB) (key : bytes) (now : Z) : res Z :=
  read kindHash 0 (λ e, Ret (Z.of_nat (size (e_hash e)))) db key now.

(** * Sets *)

Fixpoint sadd_loop (s : gset bytes) (members : list slice) (added : Z) : gset bytes * Z :=
  match members with
  | [] => (s, added)
  | m :: members' =>
      let name := content m in
      if bool_decide (name ∈ s) then sadd_loop s members' added
      else sadd_loop ({[name]} ∪ s) members' (added + 1)
  end.

Definition DB_SAdd (db : DB) (key : bytes) (members : list slice) (now : Z) : DB * res Z :=
  match setEntry (shardFor db key) key true now with
  | (sh, Fail err) => (putShard db key sh, Fail err)
  | (sh, Ret (Some e)) =>
      let '(s, added) := sadd_loop (e_set e) members 0 in
      (putEntry db key sh (set_set e s), Ret added)
  | (sh, _) => (putShard db key sh, Crash)
  end.

Fixpoint srem_loop (s : gset bytes) (members : list slice) (removed : Z) : gset bytes * Z :=
  match members with
  | [] => (s, removed)
  | m :: members' =>
      let name := content m in
      if bool_decide (name ∈ s) then srem_loop (s ∖ {[name]}) members' (removed + 1)
      else srem_loop s members' removed
  end.

Definition DB_SRem (db : DB) (key : bytes) (members : list slice) (now : Z) : DB * res Z :=
  match setEntry (shardFor db key) key false now with
  | (sh, Fail err) => (putShard db key sh, Fail err)
  | (sh, Crash) => (putShard db key sh, Crash)
  | (sh, Ret None) => (putShard db key sh, Ret 0)
  | (sh, Ret (Some e)) =>
      let '(s, removed) := srem_loop (e_set e) members 0 in
      let sh := <[key := set_set e s]> sh in
      let sh := if bool_decide (size s = 0%nat) then delete key sh else sh in
      (putShard db key sh, Ret removed)
  end.

Definition DB_SIsMember (db : DB) (key : bytes) (member : slice) (now : Z) : res bool :=
  read kindSet false (λ e, Ret (bool_decide (content member ∈ e_set e))) db key now.

Definition DB_SMembers (o : map_order) (db : DB) (key : bytes) (now : Z) : res (list slice) :=
  read kindSet [] (λ e, Ret (map Some (range_set o (e_set e)))) db key now.

Definition DB_SCard (db : DB) (key : bytes) (now : Z) : res Z :=
  read kindSet 0 (λ e, Ret (Z.of_nat (size (e_set e)))) db key now.

(** * Expiry operations (expiry.go) *)

Definition DB_Expire (db : DB) (key : bytes) (d t1 t2 : Z) : DB * bool :=
  match liveEntry (shardFor db key) key t1 with
  | (None, sh) => (putShard db key sh, false)
  | (Some e, sh) =>
      if d <=? 0 then (putShard db key (delete key sh), true)
      else (putEntry db key sh (set_expireAt e (Some (time_add t2 d))), true)
  end.

Definition DB_Persist (db : DB) (key : bytes) (now : Z) : DB * bool :=
  match liveEntry (shardFor db key) key now with
  | (None, sh) => (putShard db key sh, false)
  | (Some e, sh) =>
      match e_expireAt e with
      | None => (putShard db key sh, false)
      | Some _ => (putEntry db key sh (set_expireAt e None), true)
      end
  end.

(** [(remaining, exists, hasTTL)] *)
Definition DB_TTL (db : DB) (key : bytes) (t1 t2 : Z) : Z * bool * bool :=
  match peek (shardFor db key) key t1 with
  | None => (0, false, false)
  | Some e =>
      match e_expireAt e with
      | None => (0, true, false)
      | Some x => (time_sub x t2, true, true)
      end
  end.
