(* ===== verification/Spec.v ===== *)
(** The abstract specification of the store: what [internal/db] promises.

    The state is one flat map from keys to typed values with an optional
    deadline; there are no shards, no expired leftovers, no nil slices and
    no pointers.  [spec_op] is the meaning of one operation performed at
    instant [t].  [view] is the abstraction function: the live part, at [t],
    of the sharded keyspace. *)

From S2P Require Import Prelude GoLib PubSub Store Db.

(** * Abstract state *)

Inductive aval :=
  | AStr (s : bytes)
  | AList (l : list bytes)
  | AHash (h : gmap bytes bytes)
  | ASet (s : gset bytes).

Record aentry := mkA { a_val : aval; a_exp : option Z }.

#[global] Instance aval_eq_dec : EqDecision aval.
Proof. solve_decision. Defined.

#[global] Instance aentry_eq_dec : EqDecision aentry.
Proof. solve_decision. Defined.

Abbreviation astate := (gmap bytes aentry).

(** * Operations of the store *)

Inductive op :=
  | OGet (k : bytes)
  | OSet (k : bytes) (v : slice)
  | ODel (ks : list bytes)
  | OExists (ks : list bytes)
  | OLPush (k : bytes) (vs : list slice)
  | ORPush (k : bytes) (vs : list slice)
  | OLPop (k : bytes)
  | ORPop (k : bytes)
  | OLLen (k : bytes)
  | OLRange (k : bytes) (start stop : Z)
  | OHSet (k : bytes) (fields values : list slice)
  | OHGet (k f : bytes)
  | OHDel (k : bytes) (fields : list bytes)
  | OHGetAll (k : bytes)
  | OHKeys (k : bytes)
  | OHVals (k : bytes)
  | OHLen (k : bytes)
  | OSAdd (k : bytes) (ms : list slice)
  | OSRem (k : bytes) (ms : list slice)
  | OSIsMember (k : bytes) (m : slice)
  | OSMembers (k : bytes)
  | OSCard (k : bytes)
  | OExpire (k : bytes) (d : Z)
  | OPersist (k : bytes)
  | OTTL (k : bytes).

(** The arguments the command handlers guarantee. *)
Definition op_ok (o : op) : Prop :=
  match o with
  | OLPush _ vs | ORPush _ vs | OSAdd _ vs => vs ≠ []
  | OHSet _ fs vs => fs ≠ [] ∧ length fs = length vs
  | _ => True
  end.

Inductive reply :=
  | RDone
  | RNil
  | RVal (b : bytes)
  | RInt (n : Z)
  | RBool (b : bool)
  | RList (l : list bytes)
  | RBag (l : list bytes)
  | RPairs (l : list (bytes * bytes))
  | RTTL (remaining : Z)
  | RNoTTL
  | RWrongType
  | RCrash.

(** Replies built by ranging over a Go map have no specified order. *)
Definition reply_eq (a b : reply) : Prop :=
  match a, b with
  | RBag l, RBag l' => l ≡ₚ l'
  | RPairs l, RPairs l' => l ≡ₚ l'
  | _, _ => a = b
  end.

(** * Meaning of an operation at instant [t] *)

(** Redis range semantics without clamping: element [i] is selected when it
    lies between the two (end-relative when negative) indices. *)
Definition abs_index (i n : Z) : Z := if i <? 0 then i + n else i.

Definition lrange {A} (start stop : Z) (l : list A) : list A :=
  let n := zlen l in
  omap (λ p : Z * A, if (abs_index start n <=? p.1) && (p.1 <=? abs_index stop n)
                     then Some p.2 else None)
       (imap (λ i x, (Z.of_nat i, x)) l).

Definition spec_push (f : list bytes → list bytes) (m : astate) (k : bytes) : astate * reply :=
  match m !! k with
  | None => (<[k := mkA (AList (f [])) None]> m, RInt (zlen (f [])))
  | Some (mkA (AList l) x) => (<[k := mkA (AList (f l)) x]> m, RInt (zlen (f l)))
  | Some _ => (m, RWrongType)
  end.

Definition spec_pop (pick : list bytes → option (bytes * list bytes)) (m : astate) (k : bytes)
    : astate * reply :=
  match m !! k with
  | None => (m, RNil)
  | Some (mkA (AList l) x) =>
      match pick l with
      | None => (m, RNil)
      | Some (v, []) => (delete k m, RVal v)
      | Some (v, l') => (<[k := mkA (AList l') x]> m, RVal v)
      end
  | Some _ => (m, RWrongType)
  end.

Definition uncons {A} (l : list A) : option (A * list A) :=
  match l with [] => None | x :: l' => Some (x, l') end.

Definition unsnoc {A} (l : list A) : option (A * list A) :=
  match rev l with [] => None | x :: l' => Some (x, rev l') end.

Definition spec_read (absent : reply) (f : aval → option reply) (m : astate) (k : bytes)
    : astate * reply :=
  (m, match m !! k with
      | None => absent
      | Some e => default RWrongType (f (a_val e))
      end).

(** A hash or set update: the container after, and the change of its size. *)
Definition spec_hash (m : astate) (k : bytes) (create : bool)
    (f : gmap bytes bytes → gmap bytes bytes) : astate * reply :=
  match m !! k with
  | None =>
      if create then (<[k := mkA (AHash (f ∅)) None]> m, RInt (Z.of_nat (size (f ∅))))
      else (m, RInt 0)
  | Some (mkA (AHash h) x) =>
      (if bool_decide (f h = ∅) then delete k m else <[k := mkA (AHash (f h)) x]> m,
       RInt (Z.abs (Z.of_nat (size (f h)) - Z.of_nat (size h))))
  | Some _ => (m, RWrongType)
  end.

Definition spec_set (m : astate) (k : bytes) (create : bool)
    (f : gset bytes → gset bytes) : astate * reply :=
  match m !! k with
  | None =>
      if create then (<[k := mkA (ASet (f ∅)) None]> m, RInt (Z.of_nat (size (f ∅))))
      else (m, RInt 0)
  | Some (mkA (ASet s) x) =>
      (if bool_decide (f s = ∅) then delete k m else <[k := mkA (ASet (f s)) x]> m,
       RInt (Z.abs (Z.of_nat (size (f s)) - Z.of_nat (size s))))
  | Some _ => (m, RWrongType)
  end.

Definition put_fields (fs vs : list slice) (h : gmap bytes bytes) : gmap bytes bytes :=
  foldl (λ h fv, <[content fv.1 := content fv.2]> h) h (zip fs vs).

Definition as_str (v : aval) := match v with AStr s => Some (RVal s) | _ => None end.
Definition with_list (f : list bytes → reply) (v : aval) :=
  match v with AList l => Some (f l) | _ => None end.
Definition with_hash (f : gmap bytes bytes → reply) (v : aval) :=
  match v with AHash h => Some (f h) | _ => None end.
Definition with_set (f : gset bytes → reply) (v : aval) :=
  match v with ASet s => Some (f s) | _ => None end.

Definition spec_op (t : Z) (o : op) (m : astate) : astate * reply :=
  match o with
  | OGet k => spec_read RNil as_str m k
  | OSet k v => (<[k := mkA (AStr (content v)) None]> m, RDone)
  | ODel ks =>
      (foldl (λ m k, delete k m) m ks,
       RInt (Z.of_nat (size (dom m ∩ list_to_set ks : gset bytes))))
  | OExists ks => (m, RInt (zlen (filter (λ k, is_Some (m !! k)) ks)))
  | OLPush k vs => spec_push (λ l, rev (map content vs) ++ l) m k
  | ORPush k vs => spec_push (λ l, l ++ map content vs) m k
  | OLPop k => spec_pop uncons m k
  | ORPop k => spec_pop unsnoc m k
  | OLLen k => spec_read (RInt 0) (with_list (λ l, RInt (zlen l))) m k
  | OLRange k a b => spec_read (RList []) (with_list (λ l, RList (lrange a b l))) m k
  | OHSet k fs vs => spec_hash m k true (put_fields fs vs)
  | OHGet k f =>
      spec_read RNil
        (with_hash (λ h, match h !! f with Some v => RVal v | None => RNil end)) m k
  | OHDel k fs => spec_hash m k false (λ h, foldl (λ h f, delete f h) h fs)
  | OHGetAll k => spec_read (RPairs []) (with_hash (λ h, RPairs (map_to_list h))) m k
  | OHKeys k => spec_read (RBag []) (with_hash (λ h, RBag (map_to_list h).*1)) m k
  | OHVals k => spec_read (RBag []) (with_hash (λ h, RBag (map_to_list h).*2)) m k
  | OHLen k => spec_read (RInt 0) (with_hash (λ h, RInt (Z.of_nat (size h)))) m k
  | OSAdd k ms => spec_set m k true (λ s, list_to_set (map content ms) ∪ s)
  | OSRem k ms => spec_set m k false (λ s, s ∖ list_to_set (map content ms))
  | OSIsMember k x =>
      spec_read (RBool false) (with_set (λ s, RBool (bool_decide (content x ∈ s)))) m k
  | OSMembers k => spec_read (RBag []) (with_set (λ s, RBag (elements s))) m k
  | OSCard k => spec_read (RInt 0) (with_set (λ s, RInt (Z.of_nat (size s)))) m k
  | OExpire k d =>
      match m !! k with
      | None => (m, RBool false)
      | Some e =>
          (if d <=? 0 then delete k m else <[k := mkA (a_val e) (Some (t + d))]> m, RBool true)
      end
  | OPersist k =>
      match m !! k with
      | Some (mkA v (Some _)) => (<[k := mkA v None]> m, RBool true)
      | _ => (m, RBool false)
      end
  | OTTL k =>
      (m, match m !! k with
          | None => RNil
          | Some (mkA _ None) => RNoTTL
          | Some (mkA _ (Some x)) => RTTL (time_sub x t)
          end)
  end.

(** * The concrete operations, with every clock reading at [t] *)

Definition of_val (r : res (slice * bool)) : reply :=
  match r with
  | Ret (Some b, true) => RVal b
  | Ret (_, false) => RNil
  | Ret (None, true) => RCrash
  | Fail _ => RWrongType
  | Crash => RCrash
  end.

Definition of_res {A} (f : A → reply) (r : res A) : reply :=
  match r with Ret a => f a | Fail _ => RWrongType | Crash => RCrash end.

Definition run_op (ord : map_order) (t : Z) (o : op) (db : DB) : DB * reply :=
  match o with
  | OGet k => let '(db', r) := DB_Get db k t t in (db', of_val r)
  | OSet k v => (DB_Set db k v, RDone)
  | ODel ks => let '(db', n) := DB_Del db ks (λ _, t) in (db', RInt n)
  | OExists ks => (db, RInt (DB_Exists db ks (λ _, t)))
  | OLPush k vs => let '(db', r) := DB_LPush db k vs t in (db', of_res RInt r)
  | ORPush k vs => let '(db', r) := DB_RPush db k vs t in (db', of_res RInt r)
  | OLPop k => let '(db', r) := DB_LPop db k t in (db', of_val r)
  | ORPop k => let '(db', r) := DB_RPop db k t in (db', of_val r)
  | OLLen k => (db, of_res RInt (DB_LLen db k t))
  | OLRange k a b => (db, of_res (λ l, RList (map content l)) (DB_LRange db k a b t))
  | OHSet k fs vs => let '(db', r) := DB_HSet db k fs vs t in (db', of_res RInt r)
  | OHGet k f => (db, of_val (DB_HGet db k f t))
  | OHDel k fs => let '(db', r) := DB_HDel db k fs t in (db', of_res RInt r)
  | OHGetAll k =>
      (db, of_res (λ p, RPairs (zip (map content p.1) (map content p.2))) (DB_HGetAll ord db k t))
  | OHKeys k => (db, of_res (λ l, RBag (map content l)) (DB_HKeys ord db k t))
  | OHVals k => (db, of_res (λ l, RBag (map content l)) (DB_HVals ord db k t))
  | OHLen k => (db, of_res RInt (DB_HLen db k t))
  | OSAdd k ms => let '(db', r) := DB_SAdd db k ms t in (db', of_res RInt r)
  | OSRem k ms => let '(db', r) := DB_SRem db k ms t in (db', of_res RInt r)
  | OSIsMember k x => (db, of_res RBool (DB_SIsMember db k x t))
  | OSMembers k => (db, of_res (λ l, RBag (map content l)) (DB_SMembers ord db k t))
  | OSCard k => (db, of_res RInt (DB_SCard db k t))
  | OExpire k d => let '(db', b) := DB_Expire db k d t t in (db', RBool b)
  | OPersist k => let '(db', b) := DB_Persist db k t in (db', RBool b)
  | OTTL k =>
      (db, match DB_TTL db k t t with
           | (_, false, _) => RNil
           | (_, true, false) => RNoTTL
           | (r, true, true) => RTTL r
           end)
  end.

(** * Abstraction *)

Definition absV (e : Entry) : aval :=
  match e_kind e with
  | kindString => AStr (content (e_str e))
  | kindList => AList (map content (e_list e))
  | kindHash => AHash (content <$> e_hash e)
  | kindSet => ASet (e_set e)
  end.

Definition absE (e : Entry) : aentry := mkA (absV e) (e_expireAt e).

Definition vis (t : Z) (e : Entry) : option aentry :=
  if expired e t then None else Some (absE e).

Definition view (t : Z) (db : DB) : astate := omap (vis t) (keyspace db).
