(* ===== verification/Refine.v ===== *)
(** The sharded, lazily expiring store implements its abstract
    specification: every operation of [internal/db] keeps the type invariant
    and acts on the live view of the keyspace as [spec_op] says, with the
    reply [spec_op] gives. *)

From S2P Require Import Prelude GoLib PubSub Store Db Spec.

(** * The view *)

Lemma view_lookup t db k :
  db_ok db → view t db !! k = shardFor db k !! k ≫= vis t.
Proof. intros Hok. unfold view. by rewrite lookup_omap, keyspace_lookup. Qed.

Lemma view_peek t db k :
  db_ok db → view t db !! k = absE <$> peek (shardFor db k) k t.
Proof.
  intros Hok. rewrite view_lookup by done. unfold peek, vis.
  destruct (shardFor db k !! k) as [e|]; simpl; [|done]. by destruct (expired e t).
Qed.

Lemma view_newDB t : view t newDB = ∅.
Proof. unfold view. replace (keyspace newDB) with (∅ : gmap bytes Entry); [apply omap_empty|]. done. Qed.

(** The effect of an update of one key's shard on the view. *)
Definition put (k : bytes) (o : option aentry) (m : astate) : astate :=
  partial_alter (λ _, o) k m.

Lemma put_Some k a m : put k (Some a) m = <[k := a]> m.
Proof. done. Qed.

Lemma put_None k m : put k None m = delete k m.
Proof. done. Qed.

Lemma view_putShard t db key sh :
  db_ok db →
  (∀ k, k ≠ key → sh !! k = shardFor db key !! k) →
  (∀ e, sh !! key = Some e → entry_ok e) →
  view t (putShard db key sh) = put key (sh !! key ≫= vis t) (view t db).
Proof.
  intros Hok Ho Hk. apply map_eq. intros k. unfold view, put.
  rewrite lookup_omap, keyspace_putShard by done.
  destruct (decide (k = key)) as [->|Hne].
  - by rewrite lookup_partial_alter_eq.
  - rewrite lookup_partial_alter_ne by done. by rewrite lookup_omap.
Qed.

Lemma vis_live t e : expired e t = false → vis t e = Some (absE e).
Proof. intros He. unfold vis. by rewrite He. Qed.

Lemma expired_set_list e l t : expired (set_list e l) t = expired e t.
Proof. done. Qed.

(** [liveEntry] and the typed lookups change nothing a live view can see. *)
Lemma view_liveEntry t db key :
  db_ok db →
  let sh := (liveEntry (shardFor db key) key t).2 in
  db_ok (putShard db key sh) ∧ view t (putShard db key sh) = view t db.
Proof.
  intros Hok sh.
  assert (∀ k, k ≠ key → sh !! k = shardFor db key !! k) as Ho
    by (intros; by apply liveEntry_other).
  assert (∀ e, sh !! key = Some e → entry_ok e) as Hk.
  { intros e. unfold sh. rewrite liveEntry_key. intros [He _]%peek_Some.
    by eapply lookup_entry_ok. }
  split; [by apply putShard_ok|]. rewrite view_putShard by done.
  unfold sh. rewrite liveEntry_key. apply map_eq. intros k.
  destruct (decide (k = key)) as [->|Hne].
  - unfold put. rewrite lookup_partial_alter_eq, view_peek by done.
    destruct (peek (shardFor db key) key t) as [e|] eqn:E; [|done].
    simpl. apply peek_Some in E as [_ E]. by rewrite vis_live.
  - unfold put. by rewrite lookup_partial_alter_ne.
Qed.

(** Writing an entry (or removing it) after a lookup. *)
Lemma view_update t db key now sh o :
  db_ok db →
  (∀ k, k ≠ key → sh !! k = (liveEntry (shardFor db key) key now).2 !! k) →
  sh !! key = o →
  (∀ e, o = Some e → entry_ok e) →
  db_ok (putShard db key sh) ∧ view t (putShard db key sh) = put key (o ≫= vis t) (view t db).
Proof.
  intros Hok Ho <- Hk.
  assert (∀ k, k ≠ key → sh !! k = shardFor db key !! k) as Ho'.
  { intros k Hne. rewrite Ho by done. by apply liveEntry_other. }
  split; [by apply putShard_ok|by apply view_putShard].
Qed.

(** * The three typed lookups, by what the view holds *)

(** What [typedEntry k] finds: nothing, an entry of another kind, or one of
    its own kind, together with the view's entry for the key. *)
Lemma typedEntry_cases k empty db key create t :
  db_ok db →
  let sh := (liveEntry (shardFor db key) key t).2 in
  match peek (shardFor db key) key t with
  | None =>
      view t db !! key = None ∧
      typedEntry k empty (shardFor db key) key create t
        = if create then (<[key := empty]> sh, Ret (Some empty)) else (sh, Ret None)
  | Some e =>
      view t db !! key = Some (absE e) ∧ entry_ok e ∧ expired e t = false ∧
      typedEntry k empty (shardFor db key) key create t
        = (sh, if decide (e_kind e = k) then Ret (Some e) else Fail ErrWrongType)
  end.
Proof.
  intros Hok sh. unfold typedEntry.
  pose proof (view_peek t db key Hok) as Hv.
  pose proof (liveEntry_peek (shardFor db key) key t) as Hl.
  destruct (liveEntry (shardFor db key) key t) as [o sh0]. simpl in *. subst o sh.
  destruct (peek (shardFor db key) key t) as [e|] eqn:E.
  - apply peek_Some in E as [He Hx]. split_and!; [done|by eapply lookup_entry_ok|done|].
    destruct (decide (e_kind e = k)) as [Hk|Hk].
    + rewrite bool_decide_eq_false_2; [done|]. by intros ?.
    + by rewrite bool_decide_eq_true_2.
  - split; [done|]. by destruct create.
Qed.

(** A read-only lookup, by what the view holds. *)
Lemma read_view {A} k absent (f : Entry → res A) db key t :
  db_ok db →
  read k absent f db key t =
    match peek (shardFor db key) key t with
    | None => Ret absent
    | Some e => if decide (e_kind e = k) then f e else Fail ErrWrongType
    end.
Proof.
  intros Hok. unfold read. case_match; [|done].
  destruct (decide (e_kind e = k)) as [Hk|Hk].
  - rewrite bool_decide_eq_false_2; [done|]. by intros ?.
  - by rewrite bool_decide_eq_true_2.
Qed.

(** * Refinement of one operation *)

Definition refines (t : Z) (c : DB * reply) (a : astate * reply) : Prop :=
  db_ok c.1 ∧ view t c.1 = a.1 ∧ reply_eq c.2 a.2.

Lemma refines_same t db r m r' :
  db_ok db → view t db = m → reply_eq r r' → refines t (db, r) (m, r').
Proof. by split. Qed.

Lemma reply_eq_refl r : reply_eq r r.
Proof. by destruct r; simpl. Qed.

(** The entry found is of the wrong kind: nothing changes. *)
Lemma refines_wrong_type t db key m :
  db_ok db → view t db = m →
  refines t (putShard db key (liveEntry (shardFor db key) key t).2, RWrongType) (m, RWrongType).
Proof.
  intros Hok <-. destruct (view_liveEntry t db key Hok) as [Hok' Hv]. by split.
Qed.

(** The entry is written back with a live value. *)
Lemma refines_put t db key sh e r m :
  db_ok db →
  (∀ k, k ≠ key → sh !! k = (liveEntry (shardFor db key) key t).2 !! k) →
  sh !! key = Some e → entry_ok e → expired e t = false → view t db = m →
  refines t (putShard db key sh, r) (<[key := absE e]> m, r).
Proof.
  intros Hok Ho Hk He Hx <-.
  destruct (view_update t db key t sh (Some e) Hok Ho Hk) as [Hok' Hv].
  { by intros ? [= <-]. }
  split_and!; [done| |apply reply_eq_refl]. simpl in *.
  by rewrite Hv, vis_live, put_Some by done.
Qed.

(** The entry is removed. *)
Lemma refines_del t db key sh r m :
  db_ok db →
  (∀ k, k ≠ key → sh !! k = (liveEntry (shardFor db key) key t).2 !! k) →
  sh !! key = None → view t db = m →
  refines t (putShard db key sh, r) (delete key m, r).
Proof.
  intros Hok Ho Hk <-.
  destruct (view_update t db key t sh None Hok Ho Hk) as [Hok' Hv]; [done|].
  split_and!; [done| |apply reply_eq_refl]. simpl in *. by rewrite Hv.
Qed.

(** Updates of a shard at [key] leave the other keys of the shard alone. *)
Ltac shard_other :=
  intros ? ?; repeat first [rewrite lookup_insert_ne by done | rewrite lookup_delete_ne by done];
  try done.

Ltac kind_cases e :=
  let K := fresh "K" in
  unfold entry_ok, absE, absV in *; destruct (e_kind e) eqn:K; simplify_eq/=.

Lemma absE_set_list e l :
  e_kind e = kindList → absE (set_list e l) = mkA (AList (map content l)) (e_expireAt e).
Proof. intros K. unfold absE, absV. simpl. by rewrite K. Qed.

Lemma absE_set_hash e h :
  e_kind e = kindHash → absE (set_hash e h) = mkA (AHash (content <$> h)) (e_expireAt e).
Proof. intros K. unfold absE, absV. simpl. by rewrite K. Qed.

Lemma absE_set_set e s :
  e_kind e = kindSet → absE (set_set e s) = mkA (ASet s) (e_expireAt e).
Proof. intros K. unfold absE, absV. simpl. by rewrite K. Qed.

(** * Lists *)

Lemma foldl_snoc {A C} (g : C → A) (idx : list C) (acc : list A) :
  foldl (λ p i, p ++ [g i]) acc idx = acc ++ map g idx.
Proof.
  revert acc. induction idx as [|i idx IH]; intros acc; simpl; [by rewrite app_nil_r|].
  by rewrite IH, <-app_assoc.
Qed.

Lemma map_lookup_total_seq {A C} `{Inhabited A} (g : A → C) (l : list A) :
  map (λ i, g (l !!! i)) (seq 0 (length l)) = map g l.
Proof.
  induction l as [|x l IH]; [done|]. simpl. f_equal.
  rewrite <-seq_shift, map_map. by rewrite <-IH.
Qed.

Lemma push_front_eq vs l : push_front vs l = rev (map cloneBytes vs) ++ l.
Proof. unfold push_front. by rewrite foldl_snoc, map_rev, map_lookup_total_seq. Qed.

Lemma push_back_eq vs l : push_back vs l = l ++ map cloneBytes vs.
Proof. apply foldl_snoc. Qed.

Lemma content_cloneBytes vs : map content (map cloneBytes vs) = map content vs.
Proof. rewrite map_map. by apply map_ext. Qed.

Lemma is_Some_cloneBytes vs : Forall is_Some (map cloneBytes vs).
Proof. apply Forall_forall. intros x (y & -> & _)%list_elem_of_fmap. by eexists. Qed.

Lemma refine_push t db key fc fa :
  db_ok db →
  (∀ l, fc l ≠ [] ∧ map content (fc l) = fa (map content l) ∧
        (Forall is_Some l → Forall is_Some (fc l))) →
  refines t (let '(db', r) := push fc db key t in (db', of_res RInt r))
            (spec_push fa (view t db) key).
Proof.
  intros Hok Hf. unfold push, spec_push, listEntry.
  pose proof (typedEntry_cases kindList emptyList db key true t Hok) as Hc.
  destruct (peek (shardFor db key) key t) as [e|].
  - destruct Hc as (-> & He & Hx & ->). destruct (decide (e_kind e = kindList)) as [K|K].
    2:{ unfold absE, absV. destruct (e_kind e); [| done| |]; by apply refines_wrong_type. }
    unfold absE, absV. rewrite K. simpl. unfold entry_ok in He. rewrite K in He.
    destruct He as (H1 & H2 & H3 & H4 & H5). destruct (Hf (e_list e)) as (F1 & F2 & F3).
    rewrite <-F2. replace (zlen (map content _)) with (zlen (fc (e_list e)))
      by (unfold zlen; by rewrite length_map).
    rewrite <-absE_set_list by done.
    apply refines_put; [done|shard_other|by rewrite lookup_insert_eq| |done|done].
    unfold entry_ok. simpl. rewrite K. auto.
  - destruct Hc as (-> & ->). simpl. destruct (Hf []) as (F1 & F2 & F3).
    simpl in F2. rewrite <-F2. replace (zlen (map content _)) with (zlen (fc []))
      by (unfold zlen; by rewrite length_map).
    change (mkA _ _) with (absE (set_list emptyList (fc []))).
    apply refines_put; [done|shard_other|by rewrite lookup_insert_eq| |done|done].
    unfold entry_ok. simpl. auto.
Qed.

Lemma refine_LPush t db key vs :
  db_ok db → vs ≠ [] →
  refines t (let '(db', r) := DB_LPush db key vs t in (db', of_res RInt r))
            (spec_push (λ l, rev (map content vs) ++ l) (view t db) key).
Proof.
  intros Hok Hvs. apply refine_push; [done|]. intros l. rewrite push_front_eq. split_and!.
  - intros [E _]%app_eq_nil. apply (f_equal length) in E.
    rewrite length_rev, length_map in E. by destruct vs.
  - by rewrite map_app, map_rev, content_cloneBytes.
  - intros Hl. apply Forall_app. split; [apply Forall_rev, is_Some_cloneBytes|done].
Qed.

Lemma refine_RPush t db key vs :
  db_ok db → vs ≠ [] →
  refines t (let '(db', r) := DB_RPush db key vs t in (db', of_res RInt r))
            (spec_push (λ l, l ++ map content vs) (view t db) key).
Proof.
  intros Hok Hvs. apply refine_push; [done|]. intros l. rewrite push_back_eq. split_and!.
  - intros [_ E]%app_eq_nil. by destruct vs.
  - by rewrite map_app, content_cloneBytes.
  - intros Hl. apply Forall_app. split; [done|apply is_Some_cloneBytes].
Qed.

Lemma refine_pop t db key pc pa :
  db_ok db →
  (∀ l, l ≠ [] → Forall is_Some l →
     ∃ v l', pc l = Some (Some v, l') ∧ Forall is_Some l' ∧
             pa (map content l) = Some (v, map content l')) →
  refines t (let '(db', r) := pop pc db key t in (db', of_val r))
            (spec_pop pa (view t db) key).
Proof.
  intros Hok Hp. unfold pop, spec_pop, listEntry.
  pose proof (typedEntry_cases kindList emptyList db key false t Hok) as Hc.
  destruct (peek (shardFor db key) key t) as [e|].
  - destruct Hc as (-> & He & Hx & ->). destruct (decide (e_kind e = kindList)) as [K|K].
    2:{ unfold absE, absV. destruct (e_kind e); [| done| |]; by apply refines_wrong_type. }
    unfold absE, absV. rewrite K. simpl. unfold entry_ok in He. rewrite K in He.
    destruct He as (H1 & H2 & H3 & H4 & H5). rewrite bool_decide_eq_false_2 by done.
    destruct (Hp (e_list e)) as (v & l' & -> & Hl' & ->); [done..|]. simpl.
    destruct l' as [|x l']; simpl.
    + apply refines_del; [done|shard_other|by rewrite lookup_delete_eq|done].
    + change (content x :: map content l') with (map content (x :: l')).
      rewrite <-absE_set_list by done.
      apply refines_put; [done|shard_other|by rewrite lookup_insert_eq| |done|done].
      unfold entry_ok. simpl. rewrite K. auto.
  - destruct Hc as (-> & ->). simpl. destruct (view_liveEntry t db key Hok) as [? ?].
    by apply refines_same.
Qed.

Lemma refine_LPop t db key :
  db_ok db →
  refines t (let '(db', r) := DB_LPop db key t in (db', of_val r)) (spec_pop uncons (view t db) key).
Proof.
  intros Hok. apply refine_pop; [done|]. intros [|x l] Hne Hl; [done|].
  apply Forall_cons_1 in Hl as [[v ->] Hl]. by exists v, l.
Qed.

Lemma refine_RPop t db key :
  db_ok db →
  refines t (let '(db', r) := DB_RPop db key t in (db', of_val r)) (spec_pop unsnoc (view t db) key).
Proof.
  intros Hok. apply refine_pop; [done|]. intros l Hne Hl.
  destruct (exists_last Hne) as (l' & x & ->). apply Forall_app in Hl as [Hl Hx].
  apply Forall_cons_1 in Hx as [[v ->] _]. exists v, l'.
  unfold pick_last, unsnoc. rewrite length_app. simpl.
  replace (length l' + 1 - 1)%nat with (length l') by lia.
  rewrite lookup_app_r, Nat.sub_diag, take_app_length by done. simpl.
  rewrite map_app, rev_app_distr. simpl. by rewrite rev_involutive.
Qed.

(** * Reads *)

Lemma refine_read {A} t db key k (absent : A) fc (g : res A → reply) fa absent' :
  db_ok db →
  reply_eq (g (Ret absent)) absent' →
  g (Fail ErrWrongType) = RWrongType →
  (∀ e, entry_ok e → e_kind e = k → ∃ r, fa (absV e) = Some r ∧ reply_eq (g (fc e)) r) →
  (∀ e, e_kind e ≠ k → fa (absV e) = None) →
  refines t (db, g (read k absent fc db key t)) (spec_read absent' fa (view t db) key).
Proof.
  intros Hok Habs Hw Hf Hn. unfold spec_read. apply refines_same; [done..|].
  rewrite read_view, view_peek by done.
  destruct (peek (shardFor db key) key t) as [e|] eqn:E; [|done]. simpl.
  apply peek_Some in E as [E _]. apply lookup_entry_ok in E; [|done].
  case_decide as K.
  - destruct (Hf e E K) as (r & -> & ?). done.
  - rewrite Hn, Hw by done. done.
Qed.

(** Reads of the other kinds see nothing. *)
Ltac other_kind := intros e K; unfold absV; by destruct (e_kind e).

Ltac own_kind e :=
  let He := fresh "He" in let K := fresh "K" in
  intros e He K; unfold absV, entry_ok in *; rewrite K in *; simpl.

Lemma refine_LLen t db key :
  db_ok db →
  refines t (db, of_res RInt (DB_LLen db key t))
            (spec_read (RInt 0) (with_list (λ l, RInt (zlen l))) (view t db) key).
Proof.
  intros Hok. apply refine_read; [done..| |other_kind]. own_kind e.
  eexists. split; [done|]. simpl. unfold zlen. by rewrite length_map.
Qed.

(** ** LRANGE: the clamped loop selects what the unclamped filter selects *)

Lemma range_loop_ok lo hi l :
  0 ≤ lo → hi < zlen l → lo ≤ hi →
  range_loop lo hi l = Some (take (Z.to_nat (hi - lo + 1)) (drop (Z.to_nat lo) l)).
Proof.
  unfold range_loop, zlen. intros Hlo Hhi Hle.
  assert (Z.to_nat lo + Z.to_nat (hi - lo + 1) ≤ length l)%nat as Hb by lia.
  generalize dependent (Z.to_nat (hi - lo + 1)). generalize (Z.to_nat lo). clear.
  intros i n. revert i. induction n as [|n IH]; intros i Hi; [done|].
  simpl. destruct (lookup_lt_is_Some_2 l i) as [x Hx]; [lia|]. rewrite Hx. simpl.
  rewrite IH by lia. simpl. by rewrite (drop_S l x i) by done.
Qed.

Lemma omap_imap_range {A} (a b : Z) (l : list A) (off : nat) :
  omap (λ p : Z * A, if (a <=? p.1) && (p.1 <=? b) then Some p.2 else None)
       (imap (λ i x, (Z.of_nat (off + i), x)) l)
  = take (Z.to_nat (b - Z.max a (Z.of_nat off) + 1)) (drop (Z.to_nat (a - Z.of_nat off)) l).
Proof.
  revert off. induction l as [|x l IH]; intros off; [by rewrite drop_nil, take_nil|].
  rewrite imap_cons. simpl. rewrite Nat.add_0_r.
  replace (imap ((λ (i : nat) (x0 : A), (Z.of_nat (off + i), x0)) ∘ S) l)
    with (imap (λ i x, (Z.of_nat (S off + i), x)) l).
  2:{ apply imap_ext. intros i y _. simpl. do 2 f_equal. lia. }
  rewrite IH. destruct (a <=? Z.of_nat off) eqn:Ea; reflect_bools; simpl.
  - replace (Z.to_nat (a - Z.of_nat off)) with 0%nat by lia.
    replace (Z.to_nat (a - Z.of_nat (S off))) with 0%nat by lia. rewrite !drop_0.
    replace (Z.max a (Z.of_nat off)) with (Z.of_nat off) by lia.
    replace (Z.max a (Z.of_nat (S off))) with (Z.of_nat (S off)) by lia.
    destruct (Z.of_nat off <=? b) eqn:Eb; reflect_bools.
    + replace (Z.to_nat (b - Z.of_nat off + 1)) with (S (Z.to_nat (b - Z.of_nat (S off) + 1))) by lia.
      done.
    + replace (Z.to_nat (b - Z.of_nat off + 1)) with 0%nat by lia.
      by replace (Z.to_nat (b - Z.of_nat (S off) + 1)) with 0%nat by lia.
  - replace (Z.to_nat (a - Z.of_nat off)) with (S (Z.to_nat (a - Z.of_nat (S off)))) by lia.
    simpl. do 2 f_equal. lia.
Qed.

Lemma lrange_slice {A} start stop (l : list A) :
  lrange start stop l
  = let a := Z.max 0 (abs_index start (zlen l)) in
    take (Z.to_nat (abs_index stop (zlen l) - a + 1)) (drop (Z.to_nat a) l).
Proof.
  unfold lrange. rewrite (omap_imap_range _ _ l 0). simpl.
  do 2 f_equal; lia.
Qed.

Lemma LRange_loop_correct start stop l :
  match normalizeRange start stop (zlen l) with
  | (_, _, false) => Some []
  | (lo, hi, true) => range_loop lo hi l
  end = Some (lrange start stop l).
Proof.
  rewrite lrange_slice. unfold normalizeRange, abs_index. pose proof (zlen_nonneg l) as Hn.
  set (s := if start <? 0 then start + zlen l else start).
  set (p := if stop <? 0 then stop + zlen l else stop).
  cbn zeta. destruct (_ || _ || _) eqn:E.
  - f_equal. symmetry. apply nil_length_inv.
    rewrite length_take, length_drop. unfold zlen in *.
    apply orb_true_iff in E as [E|E]; [apply orb_true_iff in E as [E|E]|]; reflect_bools;
      repeat case_match; reflect_bools; lia.
  - reflect_bools. rewrite range_loop_ok.
    + f_equal. replace (if s <? 0 then 0 else s) with (Z.max 0 s) by (case_match; reflect_bools; lia).
      destruct (zlen l <=? p) eqn:Ep; reflect_bools; [|done].
      rewrite !take_ge; [done|..]; rewrite length_drop; unfold zlen in *; lia.
    + repeat case_match; reflect_bools; lia.
    + repeat case_match; reflect_bools; lia.
    + repeat case_match; reflect_bools; lia.
Qed.

Lemma lrange_map {A C} (f : A → C) start stop (l : list A) :
  lrange start stop (map f l) = map f (lrange start stop l).
Proof.
  rewrite !lrange_slice. unfold zlen. rewrite length_map. simpl.
  by rewrite <-fmap_drop, <-fmap_take.
Qed.

Lemma refine_LRange t db key start stop :
  db_ok db →
  refines t (db, of_res (λ l, RList (map content l)) (DB_LRange db key start stop t))
            (spec_read (RList []) (with_list (λ l, RList (lrange start stop l))) (view t db) key).
Proof.
  intros Hok. apply (refine_read _ _ _ _ _ _ (of_res _)); [done|apply reply_eq_refl|done| |other_kind]. own_kind e.
  eexists. split; [done|]. pose proof (LRange_loop_correct start stop (e_list e)) as Hl.
  destruct (normalizeRange start stop (zlen (e_list e))) as [[lo hi] [|]].
  - rewrite Hl. simpl. by rewrite lrange_map.
  - simpl. injection Hl as Hl. by rewrite lrange_map, <-Hl.
Qed.

(** * Hashes *)

Lemma hset_loop_spec h fs vs n :
  length fs = length vs →
  map_Forall (λ _ v, is_Some v) h →
  ∃ h', hset_loop h fs vs n = Some (h', n + Z.of_nat (size h') - Z.of_nat (size h)) ∧
        map_Forall (λ _ v, is_Some v) h' ∧
        content <$> h' = put_fields fs vs (content <$> h) ∧
        (size h ≤ size h')%nat ∧ (fs ≠ [] → h' ≠ ∅).
Proof.
  revert h vs n. induction fs as [|f fs IH]; intros h vs n Hlen Hh; destruct vs as [|v vs]; try done.
  { exists h. simpl. split_and!; [|done..]. do 2 f_equal. lia. }
  simpl. destruct (IH (<[content f := cloneBytes v]> h) vs
    (match h !! content f with Some _ => n | None => n + 1 end)) as (h' & Heq & H1 & H2 & H3 & H4).
  { simpl in Hlen. lia. }
  { apply map_Forall_insert_2; [by eexists|done]. }
  exists h'. rewrite Heq.
  assert (<[content f:=cloneBytes v]> h ≠ ∅) as Hne by apply insert_non_empty.
  assert (size (<[content f:=cloneBytes v]> h) ≠ 0%nat) by by apply map_size_non_empty_iff.
  destruct (h !! content f) as [w|] eqn:E.
  - rewrite map_size_insert_Some in * by done. split_and!; try done.
    + rewrite H2, fmap_insert. done.
    + intros _ ->. rewrite map_size_empty in *. lia.
  - rewrite map_size_insert_None in * by done. split_and!; try done.
    + do 2 f_equal. lia.
    + rewrite H2, fmap_insert. done.
    + lia.
    + intros _ ->. rewrite map_size_empty in *. lia.
Qed.

Lemma size_content (h : gmap bytes slice) : size (content <$> h) = size h.
Proof. apply map_size_fmap. Qed.

Lemma content_empty (h : gmap bytes slice) : content <$> h = ∅ ↔ h = ∅.
Proof. apply fmap_empty_iff. Qed.

Lemma refine_HSet t db key fs vs :
  db_ok db → fs ≠ [] → length fs = length vs →
  refines t (let '(db', r) := DB_HSet db key fs vs t in (db', of_res RInt r))
            (spec_hash (view t db) key true (put_fields fs vs)).
Proof.
  intros Hok Hfs Hlen. unfold DB_HSet, spec_hash, hashEntry.
  pose proof (typedEntry_cases kindHash emptyHash db key true t Hok) as Hc.
  destruct (peek (shardFor db key) key t) as [e|].
  - destruct Hc as (-> & He & Hx & ->). destruct (decide (e_kind e = kindHash)) as [K|K].
    2:{ unfold absE, absV. destruct (e_kind e); [| | done|]; by apply refines_wrong_type. }
    unfold absE, absV. rewrite K. simpl. unfold entry_ok in He. rewrite K in He.
    destruct He as (H1 & H2 & H3 & H4 & H5).
    destruct (hset_loop_spec (e_hash e) fs vs 0 Hlen H4) as (h' & -> & F1 & F2 & F3 & F4).
    rewrite <-F2, bool_decide_eq_false_2, !size_content by (rewrite content_empty; by apply F4).
    rewrite <-absE_set_hash by done. simpl.
    replace (Z.abs (Z.of_nat (size h') - _)) with (Z.of_nat (size h') - Z.of_nat (size (e_hash e))) by lia.
    apply refines_put; [done|shard_other|by rewrite lookup_insert_eq| |done|done].
    unfold entry_ok. simpl. rewrite K. auto.
  - destruct Hc as (-> & ->). simpl.
    destruct (hset_loop_spec ∅ fs vs 0 Hlen) as (h' & -> & F1 & F2 & F3 & F4); [done|].
    rewrite fmap_empty in F2. rewrite <-F2, size_content. simpl.
    change (mkA _ _) with (absE (set_hash emptyHash h')).
    rewrite map_size_empty. replace (0 + Z.of_nat (size h') - Z.of_nat 0) with (Z.of_nat (size h')) by lia.
    apply refines_put; [done|shard_other|by rewrite lookup_insert_eq| |done|done].
    unfold entry_ok. simpl. auto.
Qed.

Lemma hdel_loop_spec h fs n :
  ∃ h', hdel_loop h fs n = (h', n + Z.of_nat (size h) - Z.of_nat (size h')) ∧
        h' ⊆ h ∧ content <$> h' = foldl (λ h f, delete f h) (content <$> h) fs.
Proof.
  revert h n. induction fs as [|f fs IH]; intros h n; simpl.
  { exists h. split_and!; [f_equal; lia|done..]. }
  destruct (h !! f) as [v|] eqn:E.
  - destruct (IH (delete f h) (n + 1)) as (h' & -> & H1 & H2). exists h'. split_and!.
    + rewrite map_size_delete_Some by by eexists.
      assert (size h ≠ 0%nat). { intros E0%map_size_empty_inv. by subst. }
      f_equal. lia.
    + etrans; [done|]. apply delete_subseteq.
    + by rewrite H2, fmap_delete.
  - destruct (IH h n) as (h' & -> & H1 & H2). exists h'. split_and!; [done..|].
    rewrite H2. f_equal. symmetry. apply delete_id. by rewrite lookup_fmap, E.
Qed.

Lemma refine_HDel t db key fs :
  db_ok db →
  refines t (let '(db', r) := DB_HDel db key fs t in (db', of_res RInt r))
            (spec_hash (view t db) key false (λ h, foldl (λ h f, delete f h) h fs)).
Proof.
  intros Hok. unfold DB_HDel, spec_hash, hashEntry.
  pose proof (typedEntry_cases kindHash emptyHash db key false t Hok) as Hc.
  destruct (peek (shardFor db key) key t) as [e|].
  - destruct Hc as (-> & He & Hx & ->). destruct (decide (e_kind e = kindHash)) as [K|K].
    2:{ unfold absE, absV. destruct (e_kind e); [| | done|]; by apply refines_wrong_type. }
    unfold absE, absV. rewrite K. simpl. unfold entry_ok in He. rewrite K in He.
    destruct He as (H1 & H2 & H3 & H4 & H5).
    destruct (hdel_loop_spec (e_hash e) fs 0) as (h' & -> & F1 & F2).
    rewrite <-F2, !size_content. simpl.
    assert (size h' ≤ size (e_hash e))%nat by by apply map_subseteq_size.
    replace (Z.abs (Z.of_nat (size h') - _)) with (Z.of_nat (size (e_hash e)) - Z.of_nat (size h')) by lia.
    destruct (decide (h' = ∅)) as [->|Hne].
    + rewrite !bool_decide_eq_true_2 by (rewrite ?fmap_empty; done).
      apply refines_del; [done|shard_other|by rewrite lookup_delete_eq|done].
    + rewrite !bool_decide_eq_false_2
        by (rewrite ?content_empty; rewrite ?map_size_empty_iff; done).
      rewrite <-absE_set_hash by done.
      apply refines_put; [done|shard_other|by rewrite lookup_insert_eq| |done|done].
      unfold entry_ok. simpl. rewrite K. split_and!; try done.
      intros f v Hv. eapply H4, lookup_weaken; eauto.
  - destruct Hc as (-> & ->). simpl. destruct (view_liveEntry t db key Hok) as [? ?].
    by apply refines_same.
Qed.

(** Reads that range over a hash: same bag as the abstract hash. *)
Lemma range_content (o : map_order) (h : gmap bytes slice) :
  prod_map id content <$> range_map o h ≡ₚ map_to_list (content <$> h).
Proof. by rewrite range_map_perm, map_to_list_fmap. Qed.

Lemma zip_map_fst_snd {A C D E} (f : A → D) (g : C → E) (l : list (A * C)) :
  zip (map f (map fst l)) (map g (map snd l)) = map (prod_map f g) l.
Proof. induction l as [|[a c] l IH]; simpl; by rewrite ?IH. Qed.

Lemma refine_HGetAll (o : map_order) t db key :
  db_ok db →
  refines t
    (db, of_res (λ p, RPairs (zip (map content p.1) (map content p.2))) (DB_HGetAll o db key t))
    (spec_read (RPairs []) (with_hash (λ h, RPairs (map_to_list h))) (view t db) key).
Proof.
  intros Hok. apply (refine_read _ _ _ _ _ _ (of_res _)); [done|apply reply_eq_refl|done| |other_kind]. own_kind e.
  eexists. split; [done|]. simpl. rewrite <-(range_content o).
  generalize (range_map o (e_hash e)). clear. intros l.
  induction l as [|[f v] l IH]; simpl; [done|]. by constructor.
Qed.

Lemma refine_HKeys (o : map_order) t db key :
  db_ok db →
  refines t (db, of_res (λ l, RBag (map content l)) (DB_HKeys o db key t))
            (spec_read (RBag []) (with_hash (λ h, RBag (map_to_list h).*1)) (view t db) key).
Proof.
  intros Hok. apply (refine_read _ _ _ _ _ _ (of_res _)); [done|apply reply_eq_refl|done| |other_kind]. own_kind e.
  eexists. split; [done|]. simpl. rewrite <-(range_content o).
  rewrite map_map. generalize (range_map o (e_hash e)). clear. intros l.
  induction l as [|[f v] l IH]; simpl; [done|]. by constructor.
Qed.

Lemma refine_HVals (o : map_order) t db key :
  db_ok db →
  refines t (db, of_res (λ l, RBag (map content l)) (DB_HVals o db key t))
            (spec_read (RBag []) (with_hash (λ h, RBag (map_to_list h).*2)) (view t db) key).
Proof.
  intros Hok. apply (refine_read _ _ _ _ _ _ (of_res _)); [done|apply reply_eq_refl|done| |other_kind]. own_kind e.
  eexists. split; [done|]. simpl. rewrite <-(range_content o).
  rewrite map_map. generalize (range_map o (e_hash e)). clear. intros l.
  induction l as [|[f v] l IH]; simpl; [done|]. by constructor.
Qed.

Lemma refine_HLen t db key :
  db_ok db →
  refines t (db, of_res RInt (DB_HLen db key t))
            (spec_read (RInt 0) (with_hash (λ h, RInt (Z.of_nat (size h)))) (view t db) key).
Proof.
  intros Hok. apply refine_read; [done..| |other_kind]. own_kind e.
  eexists. split; [done|]. simpl. by rewrite size_content.
Qed.

Lemma refine_HGet t db key f :
  db_ok db →
  refines t (db, of_val (DB_HGet db key f t))
    (spec_read RNil (with_hash (λ h, match h !! f with Some v => RVal v | None => RNil end))
       (view t db) key).
Proof.
  intros Hok. apply (refine_read _ _ _ _ _ _ of_val); [done..| |other_kind]. own_kind e.
  eexists. split; [done|]. rewrite lookup_fmap.
  destruct He as (_ & _ & _ & Hh & _).
  destruct (e_hash e !! f) as [v|] eqn:E; [|done]. apply Hh in E as [b ->]. done.
Qed.

(** * Sets *)

Lemma sadd_loop_spec s ms n :
  sadd_loop s ms n
  = (list_to_set (map content ms) ∪ s,
     n + Z.of_nat (size (list_to_set (map content ms) ∪ s)) - Z.of_nat (size s)).
Proof.
  revert s n. induction ms as [|m ms IH]; intros s n; simpl.
  { rewrite (union_empty_l_L s). f_equal. lia. }
  case_bool_decide as Hin; rewrite IH.
  - replace ({[content m]} ∪ list_to_set (map content ms) ∪ s)
      with (list_to_set (map content ms) ∪ s) by set_solver. done.
  - replace ({[content m]} ∪ list_to_set (map content ms) ∪ s)
      with (list_to_set (map content ms) ∪ ({[content m]} ∪ s)) by set_solver.
    f_equal. rewrite (size_union {[content m]} s), size_singleton by set_solver. lia.
Qed.

Lemma srem_loop_spec s ms n :
  srem_loop s ms n
  = (s ∖ list_to_set (map content ms),
     n + Z.of_nat (size s) - Z.of_nat (size (s ∖ list_to_set (map content ms)))).
Proof.
  revert s n. induction ms as [|m ms IH]; intros s n; simpl.
  { rewrite difference_empty_L. f_equal. lia. }
  case_bool_decide as Hin; rewrite IH.
  - replace (s ∖ {[content m]} ∖ list_to_set (map content ms))
      with (s ∖ ({[content m]} ∪ list_to_set (map content ms))) by set_solver.
    f_equal. rewrite (size_difference s {[content m]}), size_singleton by set_solver.
    assert (size s ≠ 0%nat). { rewrite size_non_empty_iff. set_solver. } lia.
  - replace (s ∖ ({[content m]} ∪ list_to_set (map content ms)))
      with (s ∖ list_to_set (map content ms)) by set_solver. done.
Qed.

Lemma refine_SAdd t db key ms :
  db_ok db → ms ≠ [] →
  refines t (let '(db', r) := DB_SAdd db key ms t in (db', of_res RInt r))
            (spec_set (view t db) key true (λ s, list_to_set (map content ms) ∪ s)).
Proof.
  intros Hok Hms. unfold DB_SAdd, spec_set, setEntry.
  pose proof (typedEntry_cases kindSet emptySet db key true t Hok) as Hc.
  assert (∀ s : gset bytes, list_to_set (map content ms) ∪ s ≠ ∅) as Hne.
  { intros s. destruct ms; [done|]. simpl. set_solver. }
  destruct (peek (shardFor db key) key t) as [e|].
  - destruct Hc as (-> & He & Hx & ->). destruct (decide (e_kind e = kindSet)) as [K|K].
    2:{ unfold absE, absV. destruct (e_kind e); [| | |done]; by apply refines_wrong_type. }
    unfold absE, absV. rewrite K. simpl. unfold entry_ok in He. rewrite K in He.
    destruct He as (H1 & H2 & H3 & H4). rewrite sadd_loop_spec.
    rewrite bool_decide_eq_false_2 by apply Hne.
    rewrite <-absE_set_set by done. simpl.
    assert (size (e_set e) ≤ size (list_to_set (map content ms) ∪ e_set e))%nat
      by (apply subseteq_size; set_solver).
    replace (Z.abs _) with
      (Z.of_nat (size (list_to_set (map content ms) ∪ e_set e)) - Z.of_nat (size (e_set e))) by lia.
    apply refines_put; [done|shard_other|by rewrite lookup_insert_eq| |done|done].
    unfold entry_ok. simpl. rewrite K. auto.
  - destruct Hc as (-> & ->). rewrite sadd_loop_spec.
    change (e_set emptySet) with (∅ : gset bytes). rewrite size_empty, Z.sub_0_r, Z.add_0_l.
    cbn [of_res]. change (mkA _ _) with (absE (set_set emptySet (list_to_set (map content ms) ∪ ∅))).
    apply refines_put; [done|shard_other|by rewrite lookup_insert_eq| |done|done].
    unfold entry_ok. simpl. auto.
Qed.

Lemma refine_SRem t db key ms :
  db_ok db →
  refines t (let '(db', r) := DB_SRem db key ms t in (db', of_res RInt r))
            (spec_set (view t db) key false (λ s, s ∖ list_to_set (map content ms))).
Proof.
  intros Hok. unfold DB_SRem, spec_set, setEntry.
  pose proof (typedEntry_cases kindSet emptySet db key false t Hok) as Hc.
  destruct (peek (shardFor db key) key t) as [e|].
  - destruct Hc as (-> & He & Hx & ->). destruct (decide (e_kind e = kindSet)) as [K|K].
    2:{ unfold absE, absV. destruct (e_kind e); [| | |done]; by apply refines_wrong_type. }
    unfold absE, absV. rewrite K. simpl. unfold entry_ok in He. rewrite K in He.
    destruct He as (H1 & H2 & H3 & H4). rewrite srem_loop_spec.
    set (s' := e_set e ∖ list_to_set (map content ms)).
    assert (size s' ≤ size (e_set e))%nat by (apply subseteq_size; set_solver).
    simpl. replace (Z.abs _) with (Z.of_nat (size (e_set e)) - Z.of_nat (size s')) by lia.
    destruct (decide (s' = ∅)) as [Hs|Hs].
    + rewrite !bool_decide_eq_true_2 by (rewrite ?Hs; done).
      apply refines_del; [done|shard_other|by rewrite lookup_delete_eq|done].
    + rewrite !bool_decide_eq_false_2 by (try intros ?%size_empty_inv; set_solver || done).
      rewrite <-absE_set_set by done.
      apply refines_put; [done|shard_other|by rewrite lookup_insert_eq| |done|done].
      unfold entry_ok. simpl. rewrite K. auto.
  - destruct Hc as (-> & ->). simpl. destruct (view_liveEntry t db key Hok) as [? ?].
    by apply refines_same.
Qed.

Lemma refine_SIsMember t db key x :
  db_ok db →
  refines t (db, of_res RBool (DB_SIsMember db key x t))
    (spec_read (RBool false) (with_set (λ s, RBool (bool_decide (content x ∈ s)))) (view t db) key).
Proof.
  intros Hok. apply refine_read; [done..| |other_kind]. own_kind e. by eexists.
Qed.

Lemma refine_SMembers (o : map_order) t db key :
  db_ok db →
  refines t (db, of_res (λ l, RBag (map content l)) (DB_SMembers o db key t))
    (spec_read (RBag []) (with_set (λ s, RBag (elements s))) (view t db) key).
Proof.
  intros Hok. apply (refine_read _ _ _ _ _ _ (of_res _)); [done|apply reply_eq_refl|done| |other_kind]. own_kind e.
  eexists. split; [done|]. simpl. rewrite map_map. simpl. rewrite map_id. apply range_set_perm.
Qed.

Lemma refine_SCard t db key :
  db_ok db →
  refines t (db, of_res RInt (DB_SCard db key t))
    (spec_read (RInt 0) (with_set (λ s, RInt (Z.of_nat (size s)))) (view t db) key).
Proof.
  intros Hok. apply refine_read; [done..| |other_kind]. own_kind e. by eexists.
Qed.

(** * Strings and keys *)

Lemma expireIfNeeded_spec db key now t :
  db_ok db → now ≤ t →
  db_ok (expireIfNeeded db key now).1 ∧ view t (expireIfNeeded db key now).1 = view t db.
Proof.
  intros Hok Ht. unfold expireIfNeeded.
  destruct (shardFor db key !! key) as [e|] eqn:E; [|done].
  destruct (expired e now) eqn:Hx; [|done]. simpl.
  assert (∀ k, k ≠ key → delete key (shardFor db key) !! k = shardFor db key !! k) as Ho
    by (intros; by rewrite lookup_delete_ne).
  assert (∀ e, delete key (shardFor db key) !! key = Some e → entry_ok e) as Hk
    by (intros e'; by rewrite lookup_delete_eq).
  split; [by apply putShard_ok|]. rewrite view_putShard, lookup_delete_eq by done. simpl.
  rewrite put_None. apply delete_id. rewrite view_lookup, E by done. simpl. unfold vis.
  assert (expired e t = true) as ->; [|done].
  unfold expired in *. destruct (e_expireAt e); [|done].
  apply negb_true_iff, Z.ltb_ge. reflect_bools. lia.
Qed.

(** What the read section of [Get] answers is the specification's reply; it
    escalates only on a key that is already invisible. *)
Lemma get_read_spec t db key :
  db_ok db →
  (spec_read RNil as_str (view t db) key).2
  = match get_read db key t with None => RNil | Some r => of_val r end.
Proof.
  intros Hok. unfold get_read, spec_read. rewrite view_lookup by done.
  destruct (shardFor db key !! key) as [e|] eqn:E; [|done].
  simpl. unfold vis. destruct (expired e t); simpl; [done|].
  pose proof (lookup_entry_ok _ _ _ Hok E) as He.
  unfold entry_ok, absV in *. case_bool_decide as K; [by destruct (e_kind e)|].
  destruct (e_kind e); [|done..]. destruct He as [[b ->] _]. done.
Qed.

Lemma refine_Get t db key :
  db_ok db →
  refines t (let '(db', r) := DB_Get db key t t in (db', of_val r))
            (spec_read RNil as_str (view t db) key).
Proof.
  intros Hok. pose proof (get_read_spec t db key Hok) as Hr. unfold DB_Get, spec_read in *.
  simpl in Hr. rewrite Hr. destruct (get_read db key t) as [r|].
  - apply refines_same; [done..|]. apply reply_eq_refl.
  - destruct (expireIfNeeded_spec db key t t) as [? ?]; [done..|]. by apply refines_same.
Qed.

Lemma refine_Set t db key v :
  db_ok db →
  refines t (DB_Set db key v, RDone) (<[key := mkA (AStr (content v)) None]> (view t db), RDone).
Proof.
  intros Hok. unfold DB_Set.
  assert (∀ k, k ≠ key → <[key := stringEntry (cloneBytes v)]> (shardFor db key) !! k
                          = shardFor db key !! k) as Ho by (intros; by rewrite lookup_insert_ne).
  assert (∀ e, <[key := stringEntry (cloneBytes v)]> (shardFor db key) !! key = Some e → entry_ok e) as Hk.
  { intros e. rewrite lookup_insert_eq. intros [= <-]. split_and!; [by eexists|done..]. }
  split_and!; [by apply putShard_ok| |done]. simpl.
  by rewrite view_putShard, lookup_insert_eq by done.
Qed.

Lemma del_step_spec t db key now :
  db_ok db →
  db_ok (del_step db key now).1 ∧
  view t (del_step db key now).1 = delete key (view t db) ∧
  (del_step db key now).2 = if decide (is_Some (view now db !! key)) then 1 else 0.
Proof.
  intros Hok. unfold del_step. rewrite (view_peek now) by done.
  pose proof (liveEntry_peek (shardFor db key) key now) as Hp.
  pose proof (liveEntry_key (shardFor db key) key now) as Hk.
  pose proof (λ k, liveEntry_other (shardFor db key) key now k) as Ho.
  destruct (liveEntry (shardFor db key) key now) as [o sh] eqn:E. simpl in *. subst o.
  destruct (peek (shardFor db key) key now) as [e|] eqn:Ep; cbn [fmap option_fmap option_map].
  - rewrite decide_True by (by eexists).
    destruct (view_update t db key now (delete key sh) None) as [? Hv]; [done|..|done|].
    { intros k Hne. rewrite lookup_delete_ne, E by done. done. }
    { by rewrite lookup_delete_eq. }
    split_and!; [done| |done]. simpl. by rewrite Hv.
  - rewrite decide_False by (by intros []).
    destruct (view_update t db key now sh None) as [? Hv]; [done|..|done|done|].
    { intros k Hne. by rewrite E. }
    split_and!; [done| |done]. simpl. by rewrite Hv.
Qed.

Lemma dom_delete_count (m : astate) (k : bytes) (ks : gset bytes) :
  Z.of_nat (size (dom m ∩ ({[k]} ∪ ks)))
  = (if decide (is_Some (m !! k)) then 1 else 0) + Z.of_nat (size (dom (delete k m) ∩ ks)).
Proof.
  rewrite dom_delete_L. case_decide as Hk.
  - apply elem_of_dom in Hk.
    replace (dom m ∩ ({[k]} ∪ ks)) with ({[k]} ∪ ((dom m ∖ {[k]}) ∩ ks)).
    + rewrite size_union, size_singleton by set_solver. lia.
    + apply set_eq. intros x. destruct (decide (x = k)); set_solver.
  - assert (k ∉ dom m) as Hk' by by rewrite elem_of_dom.
    replace (dom m ∩ ({[k]} ∪ ks)) with ((dom m ∖ {[k]}) ∩ ks); [lia|].
    apply set_eq. intros x. destruct (decide (x = k)); set_solver.
Qed.

Lemma del_loop_spec t db ks i n :
  db_ok db →
  refines t (let '(db', c) := del_loop db ks (λ _, t) i n in (db', RInt c))
    (foldl (λ m k, delete k m) (view t db) ks,
     RInt (n + Z.of_nat (size (dom (view t db) ∩ list_to_set ks : gset bytes)))).
Proof.
  revert db i n. induction ks as [|k ks IH]; intros db i n Hok; simpl.
  { apply refines_same; [done..|]. simpl. rewrite intersection_empty_r_L, size_empty. f_equal. lia. }
  destruct (del_step_spec t db k t Hok) as (Hok' & Hv & Hn).
  destruct (del_step db k t) as [db' d]. simpl in *. subst d.
  destruct (IH db' (S i) (n + (if decide (is_Some (view t db !! k)) then 1 else 0)) Hok')
    as (H1 & H2 & H3). rewrite Hv in H2, H3.
  split_and!; [done|done|]. rewrite dom_delete_count, Z.add_assoc. done.
Qed.

Lemma exists_step_spec t db key :
  db_ok db → exists_step db key t = if decide (is_Some (view t db !! key)) then 1 else 0.
Proof.
  intros Hok. unfold exists_step. rewrite (view_peek t) by done.
  destruct (peek (shardFor db key) key t) as [e|]; cbn [fmap option_fmap option_map].
  - by rewrite decide_True by by eexists.
  - by rewrite decide_False by by intros [].
Qed.

Lemma exists_loop_spec t db ks i n :
  db_ok db →
  exists_loop db ks (λ _, t) i n = n + zlen (filter (λ k, is_Some (view t db !! k)) ks).
Proof.
  intros Hok. revert i n. induction ks as [|k ks IH]; intros i n; simpl.
  { unfold zlen. simpl. lia. }
  rewrite IH, filter_cons, exists_step_spec by done.
  case_decide; autorewrite with go_len; lia.
Qed.

(** * Expiry operations *)

Lemma absE_set_expireAt e x : absE (set_expireAt e x) = mkA (absV e) x.
Proof. done. Qed.

Lemma entry_ok_set_expireAt e x : entry_ok e → entry_ok (set_expireAt e x).
Proof. done. Qed.

Lemma liveEntry_cases t db key :
  db_ok db →
  match (liveEntry (shardFor db key) key t).1 with
  | None => view t db !! key = None
  | Some e => view t db !! key = Some (absE e) ∧ entry_ok e ∧ expired e t = false
  end.
Proof.
  intros Hok. rewrite liveEntry_peek, view_peek by done.
  destruct (peek (shardFor db key) key t) as [e|] eqn:E; [|done].
  apply peek_Some in E as [E Hx]. split_and!; [done|by eapply lookup_entry_ok|done].
Qed.

Lemma refine_Expire t db key d :
  db_ok db →
  refines t (let '(db', b) := DB_Expire db key d t t in (db', RBool b))
            (spec_op t (OExpire key d) (view t db)).
Proof.
  intros Hok. unfold DB_Expire. simpl.
  pose proof (liveEntry_cases t db key Hok) as Hc.
  pose proof (view_liveEntry t db key Hok) as Hl.
  destruct (liveEntry (shardFor db key) key t) as [[e|] sh] eqn:E; simpl in *.
  - destruct Hc as (-> & He & Hx). simpl. destruct (d <=? 0) eqn:Hd.
    + apply refines_del; [done|rewrite E; shard_other|by rewrite lookup_delete_eq|done].
    + rewrite <-absE_set_expireAt. reflect_bools.
      apply refines_put; [done|rewrite E; shard_other|by rewrite lookup_insert_eq|done| |done].
      unfold expired, set_expireAt, time_add. simpl. apply negb_false_iff, Z.ltb_lt. lia.
  - rewrite Hc. destruct Hl. by apply refines_same.
Qed.

Lemma refine_Persist t db key :
  db_ok db →
  refines t (let '(db', b) := DB_Persist db key t in (db', RBool b))
            (spec_op t (OPersist key) (view t db)).
Proof.
  intros Hok. unfold DB_Persist. simpl.
  pose proof (liveEntry_cases t db key Hok) as Hc.
  pose proof (view_liveEntry t db key Hok) as Hl.
  destruct (liveEntry (shardFor db key) key t) as [[e|] sh] eqn:E; simpl in *.
  - destruct Hc as (-> & He & Hx). unfold absE. destruct (e_expireAt e) as [x|] eqn:Ex.
    + rewrite <-absE_set_expireAt.
      apply refines_put; [done|rewrite E; shard_other|by rewrite lookup_insert_eq|done|done|done].
    + destruct Hl. by apply refines_same.
  - rewrite Hc. destruct Hl. by apply refines_same.
Qed.

Lemma refine_TTL t db key :
  db_ok db →
  refines t (run_op order_id t (OTTL key) db) (spec_op t (OTTL key) (view t db)).
Proof.
  intros Hok. simpl. apply refines_same; [done..|]. unfold DB_TTL.
  rewrite view_peek by done. destruct (peek (shardFor db key) key t) as [e|]; [|done].
  simpl. unfold absE. by destruct (e_expireAt e).
Qed.

(** * The refinement theorem *)

Lemma run_op_refines (o : map_order) t x db :
  db_ok db → op_ok x → refines t (run_op o t x db) (spec_op t x (view t db)).
Proof.
  intros Hok Hx. destruct x; simpl in Hx.
  - by apply refine_Get.
  - by apply refine_Set.
  - by apply del_loop_spec.
  - apply refines_same; [done..|]. unfold DB_Exists. by rewrite exists_loop_spec.
  - by apply refine_LPush.
  - by apply refine_RPush.
  - by apply refine_LPop.
  - by apply refine_RPop.
  - by apply refine_LLen.
  - by apply refine_LRange.
  - destruct Hx. by apply refine_HSet.
  - by apply refine_HGet.
  - by apply refine_HDel.
  - by apply refine_HGetAll.
  - by apply refine_HKeys.
  - by apply refine_HVals.
  - by apply refine_HLen.
  - by apply refine_SAdd.
  - by apply refine_SRem.
  - by apply refine_SIsMember.
  - by apply refine_SMembers.
  - by apply refine_SCard.
  - by apply refine_Expire.
  - by apply refine_Persist.
  - by apply refine_TTL.
Qed.

(** A small store with one entry of each kind, for concrete runs. *)
Definition sample_store : DB :=
  let db := DB_Set newDB (B "s") (Some (B "v")) in
  let db := (DB_RPush db (B "l") [Some (B "a"); Some (B "b"); Some (B "c")] 0).1 in
  let db := (DB_HSet db (B "h") [Some (B "f")] [Some (B "x")] 0).1 in
  (DB_SAdd db (B "t") [Some (B "m")] 0).1.

Lemma sample_store_ok : db_ok sample_store.
Proof.
  unfold sample_store.
  destruct (run_op_refines order_id 0 (OSet (B "s") (Some (B "v"))) newDB newDB_ok I) as (H1 & _).
  destruct (run_op_refines order_id 0 (ORPush (B "l") [Some (B "a"); Some (B "b"); Some (B "c")])
              _ H1) as (H2 & _); [done|]. cbn [run_op fst] in H2.
  destruct (DB_RPush _ _ _ _) as [db2 r2]. cbn [fst] in *.
  destruct (run_op_refines order_id 0 (OHSet (B "h") [Some (B "f")] [Some (B "x")]) _ H2)
    as (H3 & _); [done|]. cbn [run_op fst] in H3.
  destruct (DB_HSet _ _ _ _ _) as [db3 r3]. cbn [fst] in *.
  destruct (run_op_refines order_id 0 (OSAdd (B "t") [Some (B "m")]) _ H3) as (H4 & _); [done|].
  cbn [run_op fst] in H4. by destruct (DB_SAdd _ _ _ _).
Qed.

(** * Properties *)

(** C1: the sharded, lazily expiring store implements the flat
    specification: each of the 25 operations of the store, performed at
    instant [t], keeps the type invariant (routing to shards, exactly one
    payload per kind, no empty container, no nil slice), changes the live
    view as the specification says, and returns what it says. *)
Theorem store_refines_spec (o : map_order) t x db :
  db_ok db → op_ok x →
  let out := run_op o t x db in
  let spec := spec_op t x (view t db) in
  db_ok out.1 ∧ view t out.1 = spec.1 ∧ reply_eq out.2 spec.2.
Proof. apply run_op_refines. Qed.

Lemma store_refines_spec_witness :
  view 3 (run_op order_rev 3 (OLPush (B "l") [Some (B "y"); Some (B "z")]) sample_store).1
  = (spec_op 3 (OLPush (B "l") [Some (B "y"); Some (B "z")]) (view 3 sample_store)).1.
Proof.
  exact (proj1 (proj2 (store_refines_spec order_rev 3 (OLPush (B "l") [Some (B "y"); Some (B "z")])
    sample_store sample_store_ok ltac:(discriminate)))).
Defined.

(** C36: the clamping of [normalizeRange] and the copying loop of [LRange]
    select exactly the elements whose index lies between the two indices
    (counted from the end when negative), for every pair of indices, and
    never index out of range. *)
Theorem lrange_clamping_correct start stop (l : list slice) :
  match normalizeRange start stop (zlen l) with
  | (_, _, false) => lrange start stop l = []
  | (lo, hi, true) => range_loop lo hi l = Some (lrange start stop l)
  end.
Proof.
  pose proof (LRange_loop_correct start stop l) as H.
  destruct (normalizeRange start stop (zlen l)) as [[lo hi] []]; [done|by injection H].
Qed.

(** The write-locked second phase of a [GET] that saw an expired key
    re-checks: run on any store the key's shard may have become in between
    (another client may have set the key again), it removes nothing that is
    live at its own clock reading, and keeps the invariant. *)
Theorem get_escalation_spares_live db key now :
  db_ok db →
  db_ok (expireIfNeeded db key now).1 ∧
  (∀ t, now ≤ t → view t (expireIfNeeded db key now).1 = view t db) ∧
  ((expireIfNeeded db key now).2 = true ↔
     ∃ e, keyspace db !! key = Some e ∧ expired e now = true).
Proof.
  intros Hok. split_and!.
  - by apply (expireIfNeeded_spec db key now now).
  - intros t Ht. by apply expireIfNeeded_spec.
  - unfold expireIfNeeded. rewrite keyspace_lookup by done.
    destruct (shardFor db key !! key) as [e|]; [|naive_solver].
    destruct (expired e now) eqn:E; simpl; naive_solver.
Qed.

Lemma get_escalation_spares_live_witness :
  view 9 (expireIfNeeded sample_store (B "l") 9).1 = view 9 sample_store.
Proof.
  exact (proj1 (proj2 (get_escalation_spares_live sample_store (B "l") 9 sample_store_ok)) 9
           ltac:(lia)).
Defined.
