(* ===== verification/Expiry.v ===== *)
(** The active half of [internal/db/expiry.go]: [activeExpiryPass] and the
    draining loop of [RunActiveExpiry].

    A pass depends on the clock, on the random starting shard and on the
    iteration order of each shard's map; all three are inputs. *)

From Stdlib Require Import Floats.SpecFloat.
From S2P Require Import Prelude GoLib PubSub Store Db Spec Refine.

Definition activeExpirySample : Z := 20.

(** * The threshold, in IEEE binary64 *)

(** [activeExpiryThreshold] = 0.25 *)
Definition activeExpiryThreshold : spec_float := binary_normalize 53 1024 1 (-2) false.

Definition hot (sampled expd : Z) : bool :=
  (0 <? sampled) &&
  SFltb activeExpiryThreshold (f64_div (f64_of_int expd) (f64_of_int sampled)).

(** * One pass *)

(** The inner loop over one shard's map: [entries] is what is left to visit. *)
Fixpoint sample_loop (now : Z) (entries : list (bytes * Entry)) (sh : shard) (sampled expd : Z)
    : shard * Z * Z :=
  match entries with
  | [] => (sh, sampled, expd)
  | (key, e) :: rest =>
      match e_expireAt e with
      | None => sample_loop now rest sh sampled expd
      | Some _ =>
          let sampled := sampled + 1 in
          let '(sh, expd) :=
            if expired e now then (delete key sh, expd + 1) else (sh, expd) in
          if activeExpirySample <=? sampled then (sh, sampled, expd)
          else sample_loop now rest sh sampled expd
      end
  end.

Record pass_input := {
  p_now : Z;
  p_start : Z;
  p_orders : nat → map_order
}.

(** The body of the walk for shard [(start+i) % shardCount], under its lock. *)
Definition visit (inp : pass_input) (i : Z) (shs : list shard) (sampled expd : Z)
    : list shard * Z * Z :=
  let j := Z.to_nat ((p_start inp + i) mod shardCount) in
  let '(sh, sampled, expd) :=
    sample_loop (p_now inp) (range_map (p_orders inp j) (shs !!! j)) (shs !!! j) sampled expd in
  (<[j := sh]> shs, sampled, expd).

(** The walk over the shards: [n] iterations are left, the next is [i]. *)
Fixpoint walk (inp : pass_input) (n : nat) (i : Z) (shs : list shard) (sampled expd : Z)
    : list shard * Z * Z :=
  match n with
  | O => (shs, sampled, expd)
  | S n' =>
      if sampled <? activeExpirySample then
        let '(shs, sampled, expd) := visit inp i shs sampled expd in
        walk inp n' (i + 1) shs sampled expd
      else (shs, sampled, expd)
  end.

Definition activeExpiryPass (inp : pass_input) (db : DB) : DB * bool :=
  let '(shs, sampled, expd) := walk inp (Z.to_nat shardCount) 0 (shards db) 0 0 in
  (mkDB shs (pubsub db), hot sampled expd).

(** * [for db.activeExpiryPass() {}] within one tick

    The [i]-th pass sees the [i]-th inputs.  Returns the store and the number
    of passes; [None] when [fuel] passes were all hot. *)
Fixpoint drain (fuel : nat) (inputs : nat → pass_input) (i : nat) (db : DB) : option (DB * nat) :=
  match fuel with
  | O => None
  | S f =>
      let '(db', again) := activeExpiryPass (inputs i) db in
      if again then drain f inputs (S i) db' else Some (db', S i)
  end.

(** * The float comparison is exact on the values a pass can produce *)

Lemma hot_spec s x : 0 ≤ x ≤ s → s ≤ activeExpirySample → hot s x = (s <? 4 * x).
Proof.
  unfold activeExpirySample. intros Hx Hs.
  assert (forallb (λ s, forallb (λ x,
    Bool.eqb (hot (Z.of_nat s) (Z.of_nat x)) (Z.of_nat s <? 4 * Z.of_nat x)) (seq 0 (S s))) (seq 0 21)
    = true) as H by (vm_compute; reflexivity).
  rewrite forallb_forall in H. specialize (H (Z.to_nat s)).
  rewrite in_seq in H. specialize (H ltac:(lia)). rewrite forallb_forall in H.
  specialize (H (Z.to_nat x)). rewrite in_seq in H. specialize (H ltac:(lia)).
  rewrite !Z2Nat.id in H by lia. by apply Bool.eqb_prop in H.
Qed.

(** * What a pass removes *)

(** [sh'] is [sh] without some entries that were expired at [now]. *)
Definition reaped (now : Z) (sh sh' : shard) : Prop :=
  sh' ⊆ sh ∧ ∀ k e, sh !! k = Some e → sh' !! k = None → expired e now = true.

#[export] Instance reaped_refl now : Reflexive (reaped now).
Proof. intros sh. split; [done|]. intros k e H1 H2. congruence. Qed.

#[export] Instance reaped_trans now : Transitive (reaped now).
Proof.
  intros s1 s2 s3 [Hs1 He1] [Hs2 He2]. split; [by etrans|]. intros k e H1 H3.
  destruct (s2 !! k) as [e'|] eqn:E2; [|by eapply He1].
  assert (s1 !! k = Some e') by by eapply lookup_weaken. simplify_eq. by eapply He2.
Qed.

Lemma reaped_mono now now' sh sh' : now ≤ now' → reaped now sh sh' → reaped now' sh sh'.
Proof.
  intros Ht [Hs He]. split; [done|]. intros k e H1 H2. specialize (He k e H1 H2).
  unfold expired in *. destruct (e_expireAt e); [|done]. reflect_bools. apply negb_true_iff, Z.ltb_ge. lia.
Qed.

Lemma reaped_delete now sh k e :
  sh !! k = Some e → expired e now = true → reaped now sh (delete k sh).
Proof.
  intros Hk Hx. split; [apply delete_subseteq|]. intros k' e' H1 H2.
  destruct (decide (k = k')) as [<-|Hne]; [by simplify_eq|].
  by rewrite lookup_delete_ne, H1 in H2.
Qed.

(** The counters account exactly for the deletions, and the budget holds. *)
Lemma sample_loop_spec now entries sh s x sh' s' x' :
  NoDup entries.*1 → (∀ k e, (k, e) ∈ entries → sh !! k = Some e) →
  s < activeExpirySample →
  sample_loop now entries sh s x = (sh', s', x') →
  reaped now sh sh' ∧ x' - x = Z.of_nat (size sh) - Z.of_nat (size sh') ∧
  0 ≤ x' - x ≤ s' - s ∧ s' ≤ activeExpirySample.
Proof.
  revert sh s x. induction entries as [|[k e] entries IH]; intros sh s x Hnd Hin Hs.
  { simpl. intros [= -> -> ->]. split_and!; [done|lia..]. }
  simpl in Hnd. apply NoDup_cons in Hnd as [Hk Hnd]. simpl.
  assert (sh !! k = Some e) as Hke by (apply Hin; constructor).
  destruct (e_expireAt e) as [d|] eqn:Ed.
  2:{ apply IH; [done| |done]. intros k' e' H'. apply Hin. by constructor. }
  assert (∀ sh1 x1,
    reaped now sh sh1 → x1 - x = Z.of_nat (size sh) - Z.of_nat (size sh1) → 0 ≤ x1 - x ≤ 1 →
    (∀ k' e', (k', e') ∈ entries → sh1 !! k' = Some e') →
    (if activeExpirySample <=? s + 1 then (sh1, s + 1, x1)
     else sample_loop now entries sh1 (s + 1) x1) = (sh', s', x') →
    reaped now sh sh' ∧ x' - x = Z.of_nat (size sh) - Z.of_nat (size sh') ∧
    0 ≤ x' - x ≤ s' - s ∧ s' ≤ activeExpirySample) as Hstep.
  { intros sh1 x1 Hr Hx Hb Hin'. case_match eqn:Hlim; reflect_bools.
    - intros [= <- <- <-]. split_and!; [done|lia..].
    - intros H. apply IH in H as (H1 & H2 & H3 & H4); [|done..|lia].
      split_and!; [by etrans|lia..]. }
  destruct (expired e now) eqn:Hx.
  - apply Hstep.
    + by eapply reaped_delete.
    + rewrite map_size_delete_Some by by eexists.
      assert (size sh ≠ 0%nat). { intros E0%map_size_empty_inv. by subst. } lia.
    + lia.
    + intros k' e' H'. rewrite lookup_delete_ne; [apply Hin; by constructor|].
      intros ->. apply Hk. by apply (list_elem_of_fmap_2 fst) in H'.
  - apply Hstep; [done|lia|lia|]. intros k' e' H'. apply Hin. by constructor.
Qed.

Definition total_size (shs : list shard) : Z := foldr (λ sh n, Z.of_nat (size sh) + n) 0 shs.

Lemma total_size_insert shs j sh :
  (j < length shs)%nat →
  total_size (<[j := sh]> shs)
  = total_size shs - Z.of_nat (size (shs !!! j)) + Z.of_nat (size sh).
Proof.
  revert j. induction shs as [|s shs IH]; intros j Hj; simpl in Hj; [lia|].
  destruct j as [|j]; simpl; [lia|]. rewrite IH by lia. lia.
Qed.

Lemma Forall2_insert_r {A} (R : A → A → Prop) `{!Reflexive R} (l : list A) j x :
  (∀ y, l !! j = Some y → R y x) → Forall2 R l (<[j := x]> l).
Proof.
  revert j. induction l as [|y l IH]; intros j H; [constructor|].
  destruct j as [|j]; simpl.
  - constructor; [by apply H|]. clear H IH. induction l; by constructor.
  - constructor; [done|]. apply IH. intros z Hz. by apply H.
Qed.

#[local] Instance reaped_list_refl now : Reflexive (Forall2 (reaped now)).
Proof. intros l. induction l; by constructor. Qed.

(** One shard visit accounts for what it deletes and stays in the budget. *)
Lemma visit_spec inp i shs s x shs' s' x' :
  length shs = Z.to_nat shardCount → s < activeExpirySample →
  visit inp i shs s x = (shs', s', x') →
  Forall2 (reaped (p_now inp)) shs shs' ∧ x' - x = total_size shs - total_size shs' ∧
  0 ≤ x' - x ≤ s' - s ∧ s' ≤ activeExpirySample.
Proof.
  intros Hlen Hs. unfold visit. set (j := Z.to_nat ((p_start inp + i) mod shardCount)).
  assert (j < length shs)%nat as Hj.
  { rewrite Hlen. unfold j. pose proof (Z.mod_pos_bound (p_start inp + i) shardCount).
    unfold shardCount in *. lia. }
  destruct (sample_loop _ _ _ s x) as [[sh1 s1] x1] eqn:E. intros [= <- <- <-].
  apply sample_loop_spec in E as (H1 & H2 & H3 & H4); [|apply NoDup_range_map| |done].
  2:{ intros k e. by rewrite elem_of_range_map. }
  rewrite total_size_insert by done. split_and!; [|lia..].
  apply Forall2_insert_r; [apply _|].
  intros y Hy. apply list_lookup_total_correct in Hy. by subst y.
Qed.

Lemma walk_spec inp n i shs s x shs' s' x' :
  length shs = Z.to_nat shardCount → s ≤ activeExpirySample →
  walk inp n i shs s x = (shs', s', x') →
  Forall2 (reaped (p_now inp)) shs shs' ∧ x' - x = total_size shs - total_size shs' ∧
  0 ≤ x' - x ≤ s' - s ∧ s' ≤ activeExpirySample.
Proof.
  revert i shs s x. induction n as [|n IH]; intros i shs s x Hlen Hs; simpl.
  { intros [= -> -> ->]. split_and!; [done|lia..]. }
  case_match eqn:Hlt; reflect_bools.
  2:{ intros [= -> -> ->]. split_and!; [done|lia..]. }
  destruct (visit inp i shs s x) as [[shs1 s1] x1] eqn:E.
  apply visit_spec in E as (H1 & H2 & H3 & H4); [|done..].
  intros Hw. apply IH in Hw as (W1 & W2 & W3 & W4); [|by erewrite <-Forall2_length|done].
  split_and!; [by etrans|lia..].
Qed.

Lemma KeyCount_total db : KeyCount db = total_size (shards db).
Proof.
  unfold KeyCount. assert (∀ l n, foldl (λ n (sh : shard), n + Z.of_nat (size sh)) n l
    = n + total_size l) as H; [|by rewrite H].
  induction l as [|sh l IH]; intros n; simpl; [lia|]. rewrite IH. lia.
Qed.

(** Removing expired entries from the shards is invisible from then on. *)
Lemma reaped_db now db shs :
  db_ok db → Forall2 (reaped now) (shards db) shs →
  db_ok (mkDB shs (pubsub db)) ∧
  ∀ t, now ≤ t → view t (mkDB shs (pubsub db)) = view t db.
Proof.
  intros Hok Hf. destruct Hok as [Hlen Hr He Hp] eqn:Eok. clear Eok.
  assert (db_ok (mkDB shs (pubsub db))) as Hok'.
  { split; simpl; [by erewrite <-Forall2_length| | |done];
      intros i sh k e Hi Hk; destruct (Forall2_lookup_r _ _ _ _ _ Hf Hi) as (sh0 & Hi0 & Hs & _);
      eapply lookup_weaken in Hk; eauto. }
  split; [done|]. intros t Ht. apply map_eq. intros k. rewrite !view_lookup by done.
  unfold shardFor. simpl. set (i := Z.to_nat (shardIndex k)).
  pose proof (shards_shardFor db k Hlen) as Hi. fold i in Hi. unfold shardFor in Hi. fold i in Hi.
  destruct (Forall2_lookup_l _ _ _ _ _ Hf Hi) as (sh' & Hi' & Hs & Hx).
  rewrite (list_lookup_total_correct _ _ _ Hi').
  destruct (sh' !! k) as [e|] eqn:E'.
  { by rewrite (lookup_weaken _ _ _ _ E' Hs). }
  destruct ((shards db !!! i) !! k) as [e|] eqn:E; [|done]. simpl.
  specialize (Hx k e E E'). unfold vis. assert (expired e t = true) as ->; [|done].
  unfold expired in *. destruct (e_expireAt e); [|done].
  apply negb_true_iff, Z.ltb_ge. reflect_bools. lia.
Qed.

Lemma activeExpiryPass_spec inp db :
  db_ok db →
  let '(db', again) := activeExpiryPass inp db in
  db_ok db' ∧ (∀ t, p_now inp ≤ t → view t db' = view t db) ∧
  KeyCount db' ≤ KeyCount db ∧ (again = true → KeyCount db' < KeyCount db).
Proof.
  intros Hok. unfold activeExpiryPass.
  destruct (walk inp _ 0 (shards db) 0 0) as [[shs s] x] eqn:E.
  apply walk_spec in E as (H1 & H2 & H3 & H4); [|apply Hok|done].
  destruct (reaped_db (p_now inp) db shs Hok H1) as [Hok' Hv].
  split_and!; [done|done|rewrite !KeyCount_total; simpl; lia|].
  rewrite hot_spec by lia. intros Hh. reflect_bools. rewrite !KeyCount_total. simpl. lia.
Qed.

Lemma KeyCount_nonneg db : 0 ≤ KeyCount db.
Proof. rewrite KeyCount_total. induction (shards db); simpl; lia. Qed.

(** The draining loop makes at most one pass per key, plus the last. *)
Lemma drain_total fuel inputs i db :
  db_ok db → KeyCount db < Z.of_nat fuel →
  ∃ db' n, drain fuel inputs i db = Some (db', n) ∧ db_ok db' ∧
           (n - i ≤ S (Z.to_nat (KeyCount db)))%nat ∧
           ∀ t, (∀ j, p_now (inputs j) ≤ t) → view t db' = view t db.
Proof.
  revert i db. induction fuel as [|f IH]; intros i db Hok Hf.
  { pose proof (KeyCount_nonneg db). lia. }
  simpl. pose proof (activeExpiryPass_spec (inputs i) db Hok) as H.
  destruct (activeExpiryPass (inputs i) db) as [db1 again]. destruct H as (H1 & H2 & H3 & H4).
  destruct again.
  - specialize (H4 eq_refl). pose proof (KeyCount_nonneg db1).
    destruct (IH (S i) db1) as (db' & n & -> & Hok' & Hn & Hv); [done|lia|].
    exists db', n. split_and!; [done|done|lia|]. intros t Ht. rewrite Hv by done. by apply H2.
  - exists db1, (S i). split_and!; [done|done|lia|]. intros t Ht. by apply H2.
Qed.

(** [len(db.data)] counts every stored key once, expired or not. *)
Lemma total_size_keyspace (l : list shard) :
  (∀ i j s1 s2 k, l !! i = Some s1 → l !! j = Some s2 → is_Some (s1 !! k) → is_Some (s2 !! k) → i = j) →
  total_size l = Z.of_nat (size (foldr (∪) ∅ l : gmap bytes Entry)).
Proof.
  induction l as [|s l IH]; intros Hu; [done|]. simpl.
  rewrite IH by (intros i j s1 s2 k ? ? ? ?; assert (S i = S j); [by eapply Hu|lia]).
  rewrite map_size_disj_union; [lia|].
  apply map_disjoint_spec. intros k e e' H1 H2.
  assert (∃ j s2, l !! j = Some s2 ∧ is_Some (s2 !! k)) as (j & s2 & Hj & Hs2).
  { clear -H2. induction l as [|s2 l IH]; [done|]. simpl in H2.
    apply lookup_union_Some_raw in H2 as [H2|[_ H2]].
    - exists 0%nat, s2. split; [done|by eexists].
    - destruct (IH H2) as (j & s3 & ? & ?). by exists (S j), s3. }
  assert (0%nat = S j); [|done]. eapply (Hu 0%nat (S j) s s2 k); [done|done|by eexists|done].
Qed.

(** * Properties *)

(** C28: a pass of the active expiry worker is invisible: with any random
    start and any map order it keeps the invariant and removes only entries
    that were expired at its clock reading, so every later live view is
    unchanged; the store only shrinks, and a pass that asks for another one
    ([hot]) has removed at least one key. *)
Theorem active_expiry_invisible inp db :
  db_ok db →
  let '(db', again) := activeExpiryPass inp db in
  db_ok db' ∧ (∀ t, p_now inp ≤ t → view t db' = view t db) ∧
  KeyCount db' ≤ KeyCount db ∧ (again = true → KeyCount db' < KeyCount db).
Proof. apply activeExpiryPass_spec. Qed.

Lemma active_expiry_invisible_witness :
  let '(db', again) := activeExpiryPass {| p_now := 100; p_start := 7; p_orders := λ _, order_rev |}
    (DB_Expire sample_store (B "l") 5 0 0).1 in
  db_ok db' ∧ (∀ t, 100 ≤ t → view t db' = view t (DB_Expire sample_store (B "l") 5 0 0).1) ∧
  KeyCount db' ≤ KeyCount (DB_Expire sample_store (B "l") 5 0 0).1 ∧
  (again = true → KeyCount db' < KeyCount (DB_Expire sample_store (B "l") 5 0 0).1).
Proof.
  apply (active_expiry_invisible {| p_now := 100; p_start := 7; p_orders := λ _, order_rev |}
           (DB_Expire sample_store (B "l") 5 0 0).1).
  destruct (refine_Expire 0 sample_store (B "l") 5 sample_store_ok) as (H & _).
  by destruct (DB_Expire _ _ _ _ _).
Defined.

(** The worker's inner loop terminates within one tick: when nothing
    else touches the store it makes at most one pass per stored key plus
    one, and the whole drain is invisible to clients. *)
Theorem active_expiry_drains inputs db :
  db_ok db →
  ∃ db' n, drain (S (Z.to_nat (KeyCount db))) inputs 0 db = Some (db', n) ∧
    (n ≤ S (Z.to_nat (KeyCount db)))%nat ∧ db_ok db' ∧
    ∀ t, (∀ j, p_now (inputs j) ≤ t) → view t db' = view t db.
Proof.
  intros Hok. pose proof (KeyCount_nonneg db).
  destruct (drain_total (S (Z.to_nat (KeyCount db))) inputs 0 db Hok) as (db' & n & H1 & H2 & H3 & H4);
    [lia|]. exists db', n. split_and!; [done|lia|done|done].
Qed.

Lemma active_expiry_drains_witness :
  ∃ db' n, drain (S (Z.to_nat (KeyCount sample_store)))
             (λ i, {| p_now := Z.of_nat i; p_start := 31; p_orders := λ _, order_id |}) 0 sample_store
           = Some (db', n).
Proof.
  destruct (active_expiry_drains
    (λ i, {| p_now := Z.of_nat i; p_start := 31; p_orders := λ _, order_id |})
    sample_store sample_store_ok) as (db' & n & H & _).
  exists db', n. exact H.
Defined.

(** The floating-point test [float64(expired)/float64(sampled) > 0.25],
    evaluated in IEEE binary64, is exactly the integer test [4 * expired >
    sampled] for every pair of counts a pass can reach. *)
Theorem active_expiry_threshold_exact s x :
  0 ≤ x ≤ s → s ≤ activeExpirySample → hot s x = (s <? 4 * x).
Proof. apply hot_spec. Qed.

Lemma active_expiry_threshold_exact_witness : hot 20 5 = false ∧ hot 20 6 = true.
Proof.
  split.
  - rewrite (active_expiry_threshold_exact 20 5); [reflexivity|lia|vm_compute; congruence].
  - rewrite (active_expiry_threshold_exact 20 6); [reflexivity|lia|vm_compute; congruence].
Defined.

(** [KeyCount] (the number the metrics report) is the number of
    distinct keys stored: sharding neither loses nor double-counts one. *)
Theorem key_count_exact db : db_ok db → KeyCount db = Z.of_nat (size (keyspace db)).
Proof.
  intros [Hlen Hr He Hp]. rewrite KeyCount_total. apply total_size_keyspace.
  intros i j s1 s2 k Hi Hj [e1 H1] [e2 H2].
  rewrite (Hr i s1 k e1), (Hr j s2 k e2) by done. done.
Qed.

Lemma key_count_exact_witness : KeyCount sample_store = Z.of_nat (size (keyspace sample_store)).
Proof. apply (key_count_exact sample_store). exact sample_store_ok. Defined.
