(* ===== verification/History.v ===== *)
(** Histories of the store: operations of clients interleaved with passes of
    the active expiry worker, at the instants of a monotonic clock.  The
    specification of a history never mentions the worker, and forgets a key
    the instant its deadline passes. *)

From S2P Require Import Prelude GoLib PubSub Store Db Spec Refine Expiry.

(** * Ageing *)

Definition alive (t : Z) (a : aentry) : Prop :=
  match a_exp a with None => True | Some x => t < x end.

#[global] Instance alive_dec t a : Decision (alive t a).
Proof. unfold alive. destruct (a_exp a); apply _. Defined.

(** What is left of a state at instant [t]. *)
Definition purge (t : Z) (m : astate) : astate := filter (λ p, alive t p.2) m.

(** * Events *)

Inductive event :=
  | EOp (t : Z) (o : map_order) (x : op)
  | EPass (inp : pass_input).

Definition event_time (ev : event) : Z :=
  match ev with EOp t _ _ => t | EPass inp => p_now inp end.

Definition event_ok (ev : event) : Prop :=
  match ev with EOp _ _ x => op_ok x | EPass _ => True end.

Fixpoint run_history (evs : list event) (db : DB) : DB * list reply :=
  match evs with
  | [] => (db, [])
  | EOp t o x :: evs' =>
      let '(db1, r) := run_op o t x db in
      let '(db2, rs) := run_history evs' db1 in (db2, r :: rs)
  | EPass inp :: evs' => run_history evs' (activeExpiryPass inp db).1
  end.

Fixpoint spec_history (evs : list event) (m : astate) : astate * list reply :=
  match evs with
  | [] => (m, [])
  | EOp t _ x :: evs' =>
      let '(m1, r) := spec_op t x (purge t m) in
      let '(m2, rs) := spec_history evs' m1 in (m2, r :: rs)
  | EPass _ :: evs' => spec_history evs' m
  end.

(** [t0] and the times of the events form a non-decreasing sequence. *)
Fixpoint monotonic (t0 : Z) (evs : list event) : Prop :=
  match evs with
  | [] => True
  | ev :: evs' => t0 ≤ event_time ev ∧ monotonic (event_time ev) evs'
  end.

Fixpoint last_time (t0 : Z) (evs : list event) : Z :=
  match evs with [] => t0 | ev :: evs' => last_time (event_time ev) evs' end.

(** * Facts *)

Lemma purge_lookup t m k : purge t m !! k = (a ← m !! k; if decide (alive t a) then Some a else None).
Proof. unfold purge. rewrite map_lookup_filter. destruct (m !! k) as [a|]; [|done]. simpl.
  unfold guard. by repeat case_decide. Qed.

Lemma alive_mono t t' a : t ≤ t' → alive t' a → alive t a.
Proof. unfold alive. destruct (a_exp a); [lia|done]. Qed.

Lemma purge_purge t t' m : t ≤ t' → purge t' (purge t m) = purge t' m.
Proof.
  intros Ht. apply map_eq. intros k. rewrite !purge_lookup.
  destruct (m !! k) as [a|]; [|done]. simpl. destruct (decide (alive t a)) as [Ha|Ha]; [done|].
  simpl. rewrite decide_False; [done|]. intros H. eapply Ha, alive_mono; eauto.
Qed.

Lemma expired_alive e t : expired e t = negb (bool_decide (alive t (absE e))).
Proof.
  case_bool_decide as H; unfold expired, alive in *; simpl in *; destruct (e_expireAt e) as [x|];
    simpl; try done.
  - apply negb_false_iff. by apply Z.ltb_lt.
  - apply negb_true_iff, Z.ltb_ge. lia.
Qed.

(** The view at a later instant is the earlier view, aged. *)
Lemma view_ages t t' db : db_ok db → t ≤ t' → view t' db = purge t' (view t db).
Proof.
  intros Hok Ht. apply map_eq. intros k. rewrite purge_lookup, !view_lookup by done.
  destruct (shardFor db k !! k) as [e|]; [|done]. simpl. unfold vis.
  rewrite !expired_alive. destruct (decide (alive t' (absE e))) as [H|H].
  - assert (alive t (absE e)) as H' by (eapply alive_mono; eauto).
    rewrite !bool_decide_eq_true_2 by done. simpl. by rewrite decide_True.
  - rewrite (bool_decide_eq_false_2 (alive t' _)) by done. simpl.
    case_bool_decide; simpl; [by rewrite decide_False|done].
Qed.

Lemma purge_view t db : db_ok db → purge t (view t db) = view t db.
Proof. intros Hok. symmetry. by apply view_ages. Qed.

Lemma history_refines t0 evs db :
  db_ok db → monotonic t0 evs → Forall event_ok evs →
  let t := last_time t0 evs in
  db_ok (run_history evs db).1 ∧
  view t (run_history evs db).1 = purge t (spec_history evs (view t0 db)).1 ∧
  Forall2 reply_eq (run_history evs db).2 (spec_history evs (view t0 db)).2.
Proof.
  intros Hok Hm Hev. assert (∀ m, purge t0 m = view t0 db →
    let t := last_time t0 evs in
    db_ok (run_history evs db).1 ∧
    view t (run_history evs db).1 = purge t (spec_history evs m).1 ∧
    Forall2 reply_eq (run_history evs db).2 (spec_history evs m).2) as H
    ; [|by apply H, purge_view].
  revert t0 db Hok Hm. induction Hev as [|ev evs Hx _ IH]; intros t0 db Hok Hm m Hpm; simpl.
  { split_and!; [done|by rewrite Hpm|constructor]. }
  destruct Hm as [Ht Hm]. simpl. destruct ev as [t o x|inp]; simpl in *.
  - rewrite <-(purge_purge t0 t), Hpm, <-view_ages by done.
    destruct (run_op_refines o t x db Hok Hx) as (Hok1 & Hv1 & Hr1).
    destruct (run_op o t x db) as [db1 r], (spec_op t x (view t db)) as [m1 r1]. simpl in *.
    specialize (IH t db1 Hok1 Hm m1). destruct IH as (H1 & H2 & H3).
    { rewrite <-Hv1. by apply purge_view. }
    destruct (run_history evs db1), (spec_history evs m1). simpl in *.
    split_and!; [done..|by constructor].
  - pose proof (activeExpiryPass_spec inp db Hok) as Hp.
    destruct (activeExpiryPass inp db) as [db1 again]. destruct Hp as (Hok1 & Hv1 & _).
    apply IH; [done..|]. simpl.
    rewrite <-(purge_purge t0), Hpm, <-view_ages by done. symmetry. by apply Hv1.
Qed.

(** * Properties *)

(** Any history of client operations and active-expiry passes at
    non-decreasing instants gives the replies of the specification (in
    which the worker does not exist and a key is forgotten the instant its
    deadline passes) and ends in the state of the specification. *)
Theorem history_refines_spec t0 evs db :
  db_ok db → monotonic t0 evs → Forall event_ok evs →
  let t := last_time t0 evs in
  let out := run_history evs db in
  let spec := spec_history evs (view t0 db) in
  db_ok out.1 ∧ view t out.1 = purge t spec.1 ∧ Forall2 reply_eq out.2 spec.2.
Proof. apply history_refines. Qed.

Lemma history_refines_spec_witness :
  let evs := [EOp 1 order_id (OExpire (B "l") 10);
              EPass {| p_now := 11; p_start := 0; p_orders := λ _, order_rev |};
              EOp 12 order_rev (OLLen (B "l")); EOp 12 order_id (OHKeys (B "h"))] in
  Forall2 reply_eq (run_history evs sample_store).2 (spec_history evs (view 0 sample_store)).2.
Proof.
  refine (proj2 (proj2 (history_refines_spec 0
    [EOp 1 order_id (OExpire (B "l") 10);
     EPass {| p_now := 11; p_start := 0; p_orders := λ _, order_rev |};
     EOp 12 order_rev (OLLen (B "l")); EOp 12 order_id (OHKeys (B "h"))]
    sample_store sample_store_ok _ _))).
  - simpl. lia.
  - repeat constructor.
Defined.
