(* ===== verification/Concurrent.v ===== *)
(** The store under concurrent clients: db.go and expiry.go at the grain of
    their lock sections.

    Every goroutine runs one operation at a time as the sequence of lock
    sections its method makes ([GET] of an expired key makes two, [DEL] and
    [EXISTS] one per key), the expiry worker one section per shard it
    visits, and the scheduler interleaves the sections of all of them and
    the passing of time.  A section holds one shard's lock, so it is one
    step; the clock readings inside a section are one instant.

    The specification is a machine on the flat map in which each operation
    takes effect in one step between its invocation and its return (one step
    per key for [DEL] and [EXISTS], as db.go documents) and there is no
    worker. *)

From S2P Require Import Prelude Lts GoLib PubSub Store Db Spec Refine Expiry History.

(** * Goroutines *)

Inductive thread :=
  | Idle
  | Start (x : op)
  | Escalate (k : bytes)
  | DelFrom (ks : list bytes) (removed : Z)
  | ExistsFrom (ks : list bytes) (count : Z)
  | Done (r : reply).

(** The next lock section of a goroutine: [None] when it has none. *)
Definition section (ord : map_order) (now : Z) (th : thread) (db : DB) : option (DB * thread) :=
  match th with
  | Idle | Done _ => None
  | Start (OGet k) =>
      match get_read db k now with
      | None => Some (db, Escalate k)
      | Some r => Some (db, Done (of_val r))
      end
  | Escalate k => Some ((expireIfNeeded db k now).1, Done RNil)
  | Start (ODel ks) => Some (db, DelFrom ks 0)
  | DelFrom [] n => Some (db, Done (RInt n))
  | DelFrom (k :: ks) n =>
      let '(db', d) := del_step db k now in Some (db', DelFrom ks (n + d))
  | Start (OExists ks) => Some (db, ExistsFrom ks 0)
  | ExistsFrom [] n => Some (db, Done (RInt n))
  | ExistsFrom (k :: ks) n => Some (db, ExistsFrom ks (n + exists_step db k now))
  | Start x => let '(db', r) := run_op ord now x db in Some (db', Done r)
  end.

(** * The worker *)

(** [Pass inp n i sampled expd]: inside a pass whose clock was read at
    [p_now inp], with [n] iterations left, the next being [i]. *)
Inductive worker :=
  | Asleep
  | Pass (inp : pass_input) (n : nat) (i : Z) (sampled expd : Z).

(** The loop test of [activeExpiryPass] and one shard visit. *)
Definition worker_step (w : worker) (db : DB) : DB * worker :=
  match w with
  | Asleep => (db, Asleep)
  | Pass inp O i s x => (db, Asleep)
  | Pass inp (S n) i s x =>
      if s <? activeExpirySample then
        let '(shs, s, x) := visit inp i (shards db) s x in
        (mkDB shs (pubsub db), Pass inp n (i + 1) s x)
      else (db, Asleep)
  end.

(** * The concurrent store *)

Record cstore := CS { c_now : Z; c_db : DB; c_threads : list thread; c_worker : worker }.

Inductive label :=
  | Invoke (i : nat) (x : op)
  | Return (i : nat) (r : reply).

Inductive cstep : cstore → option label → cstore → Prop :=
  | C_tick now now' db ths w :
      now ≤ now' →
      cstep (CS now db ths w) None (CS now' db ths w)
  | C_invoke now db ths w i x :
      ths !! i = Some Idle → op_ok x →
      cstep (CS now db ths w) (Some (Invoke i x)) (CS now db (<[i := Start x]> ths) w)
  | C_section now db ths w i th ord db' th' :
      ths !! i = Some th → section ord now th db = Some (db', th') →
      cstep (CS now db ths w) None (CS now db' (<[i := th']> ths) w)
  | C_return now db ths w i r :
      ths !! i = Some (Done r) →
      cstep (CS now db ths w) (Some (Return i r)) (CS now db (<[i := Idle]> ths) w)
  | C_wake now db ths inp :
      p_now inp = now →
      cstep (CS now db ths Asleep) None (CS now db ths (Pass inp (Z.to_nat shardCount) 0 0 0))
  | C_worker now db ths w db' w' :
      worker_step w db = (db', w') →
      cstep (CS now db ths w) None (CS now db' ths w').

Definition store_init (now : Z) (n : nat) : cstore := CS now newDB (replicate n Idle) Asleep.

(** * The specification *)

Inductive athread :=
  | AIdle
  | AStart (x : op)
  | ADel (ks : list bytes) (removed : Z)
  | AExists (ks : list bytes) (count : Z)
  | ADone (r : reply).

Definition present (m : astate) (k : bytes) : Z := if decide (is_Some (m !! k)) then 1 else 0.

(** The effect of a client's step on the live map [m]. *)
Definition act (now : Z) (th : athread) (m : astate) : option (astate * athread) :=
  match th with
  | AIdle | ADone _ => None
  | AStart (ODel ks) => Some (m, ADel ks 0)
  | ADel [] n => Some (m, ADone (RInt n))
  | ADel (k :: ks) n => Some (delete k m, ADel ks (n + present m k))
  | AStart (OExists ks) => Some (m, AExists ks 0)
  | AExists [] n => Some (m, ADone (RInt n))
  | AExists (k :: ks) n => Some (m, AExists ks (n + present m k))
  | AStart x => let '(m', r) := spec_op now x m in Some (m', ADone r)
  end.

Record astore := AS { a_now : Z; a_map : astate; a_threads : list athread }.

Inductive astep : astore → option label → astore → Prop :=
  | A_tick now now' m ths :
      now ≤ now' → astep (AS now m ths) None (AS now' m ths)
  | A_invoke now m ths i x :
      ths !! i = Some AIdle → op_ok x →
      astep (AS now m ths) (Some (Invoke i x)) (AS now m (<[i := AStart x]> ths))
  | A_act now m ths i th m' th' :
      ths !! i = Some th → act now th (purge now m) = Some (m', th') →
      astep (AS now m ths) None (AS now m' (<[i := th']> ths))
  | A_return now m ths i r :
      ths !! i = Some (ADone r) →
      astep (AS now m ths) (Some (Return i r)) (AS now m (<[i := AIdle]> ths)).

Definition spec_init (now : Z) (n : nat) : astore := AS now ∅ (replicate n AIdle).

(** Labels that a client cannot tell apart: replies that list a map agree up
    to the order. *)
Inductive label_eq : label → label → Prop :=
  | same_invoke i x : label_eq (Invoke i x) (Invoke i x)
  | same_return i r r' : reply_eq r r' → label_eq (Return i r) (Return i r').

(** * Related states *)

(** A [GET] that has seen its key expired has already answered nil: its
    second section only cleans up. *)
Inductive trel : thread → athread → Prop :=
  | T_idle : trel Idle AIdle
  | T_start x : op_ok x → trel (Start x) (AStart x)
  | T_escalate k : trel (Escalate k) (ADone RNil)
  | T_del ks n : trel (DelFrom ks n) (ADel ks n)
  | T_exists ks n : trel (ExistsFrom ks n) (AExists ks n)
  | T_done r r' : reply_eq r r' → trel (Done r) (ADone r').

Definition worker_ok (now : Z) (w : worker) : Prop :=
  match w with Asleep => True | Pass inp _ _ _ _ => p_now inp ≤ now end.

Record crel (c : cstore) (a : astore) : Prop := {
  cr_db : db_ok (c_db c);
  cr_now : c_now c = a_now a;
  cr_view : view (c_now c) (c_db c) = purge (c_now c) (a_map a);
  cr_threads : Forall2 trel (c_threads c) (a_threads a);
  cr_worker : worker_ok (c_now c) (c_worker c)
}.

(** * Simulation *)

(** Any operation but [GET], [DEL] and [EXISTS] is a single section. *)
Definition one_section (x : op) : Prop :=
  match x with OGet _ | ODel _ | OExists _ => False | _ => True end.

#[export] Instance one_section_dec x : Decision (one_section x).
Proof. destruct x; simpl; apply _. Defined.

Lemma section_one ord now x db :
  one_section x →
  section ord now (Start x) db = let '(db', r) := run_op ord now x db in Some (db', Done r).
Proof. by destruct x. Qed.

Lemma act_one now x m :
  one_section x → act now (AStart x) m = let '(m', r) := spec_op now x m in Some (m', ADone r).
Proof. by destruct x. Qed.

Lemma purge_live now db m : db_ok db → view now db = m → view now db = purge now m.
Proof. intros Hok <-. by rewrite purge_view. Qed.

(** A section is either invisible or the client's step of the specification. *)
Definition section_matched (now : Z) (m : astate) (ath : athread) (db' : DB) (th' : thread) : Prop :=
  (view now db' = m ∧ trel th' ath) ∨
  ∃ m' ath', act now ath m = Some (m', ath') ∧ view now db' = purge now m' ∧ trel th' ath'.

Lemma start_matched ord now x db db' th' :
  db_ok db → op_ok x → section ord now (Start x) db = Some (db', th') →
  db_ok db' ∧ section_matched now (view now db) (AStart x) db' th'.
Proof.
  intros Hok Hx Hs. destruct (decide (one_section x)) as [Ho|Ho].
  - rewrite section_one in Hs by done.
    destruct (run_op_refines ord now x db Hok Hx) as (H1 & H2 & H3).
    destruct (run_op ord now x db) as [db1 r]. simplify_eq/=.
    split; [done|]. right. rewrite act_one by done.
    destruct (spec_op now x (view now db)) as [m' r']. simpl in *.
    exists m', (ADone r'). split_and!; [done|by apply purge_live|by constructor].
  - destruct x; simpl in Ho; try (exfalso; by apply Ho); simpl in Hs; clear Ho.
    + pose proof (get_read_spec now db k Hok) as Hg. simpl in Hg.
      destruct (get_read db k now) as [g|]; simplify_eq; (split; [done|]); right; simpl; rewrite Hg;
        eexists _, _; (split_and!; [done|by apply purge_live|]); constructor. apply reply_eq_refl.
    + simplify_eq. split; [done|]. right. eexists _, _.
      split_and!; [done|by apply purge_live|constructor].
    + simplify_eq. split; [done|]. right. eexists _, _.
      split_and!; [done|by apply purge_live|constructor].
Qed.

Lemma section_sim ord now th ath db db' th' :
  db_ok db → trel th ath → section ord now th db = Some (db', th') →
  db_ok db' ∧ section_matched now (view now db) ath db' th'.
Proof.
  intros Hok Ht Hs. destruct Ht as [|x Hx|k|ks n|ks n|r r' Hr]; try done.
  - by eapply start_matched.
  - simpl in Hs. simplify_eq. destruct (expireIfNeeded_spec db k now now Hok) as [H1 H2]; [done|].
    split; [done|]. left. split; [done|by constructor].
  - destruct ks as [|k ks]; simpl in Hs.
    { simplify_eq. split; [done|]. right. eexists _, _.
      split_and!; [done|by apply purge_live|by constructor]. }
    destruct (del_step_spec now db k now Hok) as (H1 & H2 & H3).
    destruct (del_step db k now) as [db1 d]. simplify_eq/=. split; [done|]. right.
    eexists _, _. split_and!; [done|by apply purge_live|constructor].
  - destruct ks as [|k ks]; simpl in Hs; simplify_eq; (split; [done|]); right; eexists _, _;
      (split_and!; [done|by apply purge_live|]); [by constructor|].
    rewrite exists_step_spec by done. constructor.
Qed.

(** A shard visit is invisible from the instant the pass read the clock. *)
Lemma worker_sim now w db db' w' :
  db_ok db → worker_ok now w → worker_step w db = (db', w') →
  db_ok db' ∧ view now db' = view now db ∧ worker_ok now w'.
Proof.
  intros Hok Hw Hs. destruct w as [|inp [|n] i s x]; simpl in Hs; [by simplify_eq..|].
  destruct (s <? activeExpirySample) eqn:E; [|by simplify_eq]. reflect_bools.
  destruct (visit inp i (shards db) s x) as [[shs s'] x'] eqn:Ev. simplify_eq.
  apply visit_spec in Ev as (H1 & _); [|apply Hok|done].
  destruct (reaped_db _ _ _ Hok H1) as [H2 H3]. split_and!; [done|by apply H3|done].
Qed.

Lemma crel_thread now db m ths aths w i th ath m' db' :
  crel (CS now db ths w) (AS now m aths) → db_ok db' → view now db' = purge now m' →
  trel th ath → crel (CS now db' (<[i := th]> ths) w) (AS now m' (<[i := ath]> aths)).
Proof. intros [] Hok Hv Ht. split; simpl in *; [done..| |done]. by apply Forall2_insert. Qed.

Lemma concurrent_simulation : weak_simulation cstep astep label_eq crel.
Proof.
  intros c a l c' Hrel Hstep. pose proof Hrel as [Hok Hnow Hview Hths Hw].
  destruct a as [now0 m aths]. simpl in *. subst now0.
  destruct Hstep as [now now' db ths w Hle|now db ths w i x Hi Hx
    |now db ths w i th ord db' th' Hi Hs|now db ths w i r Hi|now db ths inp Hn
    |now db ths w db' w' Hs]; simpl in *.
  - exists [], (AS now' m aths). split_and!; [|done|].
    { by apply (runs_step astep _ None), A_tick. }
    split; simpl; [done..| |done|destruct w; simpl in *; lia].
    by rewrite (view_ages now), Hview, purge_purge.
  - destruct (Forall2_lookup_l _ _ _ _ _ Hths Hi) as (ath & Hai & Ht). inversion Ht; subst.
    exists [Invoke i x], (AS now m (<[i := AStart x]> aths)). split_and!.
    + by apply (runs_step astep _ (Some _)), A_invoke.
    + repeat constructor.
    + eapply crel_thread; [done..|by constructor].
  - destruct (Forall2_lookup_l _ _ _ _ _ Hths Hi) as (ath & Hai & Ht).
    destruct (section_sim _ _ _ _ _ _ _ Hok Ht Hs) as [Hok' [[Hv' Ht']|(m' & ath' & Ha & Hv' & Ht')]].
    + exists [], (AS now m aths). split_and!; [apply runs_nil|done|].
      rewrite <-(list_insert_id aths i ath) by done.
      eapply crel_thread; [done..|by rewrite Hv'|done].
    + rewrite Hview in Ha. exists [], (AS now m' (<[i := ath']> aths)). split_and!; [|done|].
      * by eapply (runs_step astep _ None), A_act.
      * by eapply crel_thread.
  - destruct (Forall2_lookup_l _ _ _ _ _ Hths Hi) as (ath & Hai & Ht). inversion Ht; subst.
    eexists [Return i _], (AS now m (<[i := AIdle]> aths)). split_and!.
    + by apply (runs_step astep _ (Some _)), A_return.
    + by repeat constructor.
    + eapply crel_thread; [done..|by constructor].
  - exists [], (AS now m aths). split_and!; [apply runs_nil|done|]. split; simpl; try done. lia.
  - destruct (worker_sim now w db db' w' Hok Hw Hs) as (H1 & H2 & H3).
    exists [], (AS now m aths). split_and!; [apply runs_nil|done|].
    split; simpl; [done|done|by rewrite H2|done|done].
Qed.

Lemma crel_init now n : crel (store_init now n) (spec_init now n).
Proof.
  split; simpl; [apply newDB_ok|done| | |done].
  - rewrite view_newDB. apply map_eq. intros k. by rewrite purge_lookup, lookup_empty.
  - apply Forall2_replicate. constructor.
Qed.

(** * Scheduling, executably *)

Inductive action :=
  | DoTick (now : Z)
  | DoInvoke (i : nat) (x : op)
  | DoSection (i : nat) (ord : map_order)
  | DoReturn (i : nat)
  | DoWake (start : Z) (ord : map_order)
  | DoWorker.

Definition op_okb (x : op) : bool :=
  match x with
  | OLPush _ vs | ORPush _ vs | OSAdd _ vs => negb (bool_decide (vs = []))
  | OHSet _ fs vs => negb (bool_decide (fs = [])) && bool_decide (length fs = length vs)
  | _ => true
  end.

Definition perform (a : action) (c : cstore) : option (option label * cstore) :=
  let '(CS now db ths w) := c in
  match a with
  | DoTick now' => if now <=? now' then Some (None, CS now' db ths w) else None
  | DoInvoke i x =>
      match ths !! i with
      | Some Idle =>
          if op_okb x then Some (Some (Invoke i x), CS now db (<[i := Start x]> ths) w) else None
      | _ => None
      end
  | DoSection i ord =>
      th ← ths !! i; '(db', th') ← section ord now th db;
      Some (None, CS now db' (<[i := th']> ths) w)
  | DoReturn i =>
      match ths !! i with
      | Some (Done r) => Some (Some (Return i r), CS now db (<[i := Idle]> ths) w)
      | _ => None
      end
  | DoWake start ord =>
      match w with
      | Asleep =>
          Some (None, CS now db ths
            (Pass {| p_now := now; p_start := start; p_orders := λ _, ord |}
                  (Z.to_nat shardCount) 0 0 0))
      | _ => None
      end
  | DoWorker => let '(db', w') := worker_step w db in Some (None, CS now db' ths w')
  end.

Definition schedule : list action → cstore → option (list label * cstore) := drive perform.

Lemma op_okb_ok x : op_okb x = true → op_ok x.
Proof. destruct x; simpl; intros; reflect_bools; done. Qed.

Lemma perform_step a c l c' : perform a c = Some (l, c') → cstep c l c'.
Proof.
  destruct c as [now db ths w]. destruct a; simpl; intros H.
  - case_match; simplify_eq. reflect_bools. by apply C_tick.
  - repeat case_match; simplify_eq. apply C_invoke; [done|by apply op_okb_ok].
  - destruct (ths !! i) as [th|] eqn:Ei; simplify_eq/=.
    destruct (section ord now th db) as [[db' th']|] eqn:Es; simplify_eq/=. by eapply C_section.
  - repeat case_match; simplify_eq. by apply C_return.
  - case_match; simplify_eq. by apply C_wake.
  - destruct (worker_step w db) eqn:E. simplify_eq. by apply C_worker.
Qed.

Lemma schedule_runs acts c tr c' : schedule acts c = Some (tr, c') → runs cstep c tr c'.
Proof. apply drive_runs, perform_step. Qed.

(** * Sections compose to the sequential operations *)

(** A goroutine that takes [n] sections, the [i]-th on the store [env i]
    leaves to it, with that clock and map order. *)
Fixpoint own_sections (n : nat) (env : nat → map_order * Z * DB) (i : nat) (th : thread) : thread :=
  match n with
  | O => th
  | S n' =>
      let '(ord, now, db) := env i in
      match section ord now th db with
      | None => th
      | Some (_, th') => own_sections n' env (S i) th'
      end
  end.

(** The sections an operation can need. *)
Definition work (th : thread) : nat :=
  match th with
  | Idle | Done _ => 0
  | Escalate _ => 1
  | DelFrom ks _ | ExistsFrom ks _ => S (length ks)
  | Start (OGet _) => 2
  | Start (ODel ks) | Start (OExists ks) => S (S (length ks))
  | Start _ => 1
  end.

Lemma section_progress ord now th db :
  th ≠ Idle → (∀ r, th ≠ Done r) →
  ∃ db' th', section ord now th db = Some (db', th') ∧ th' ≠ Idle ∧ (work th' < work th)%nat.
Proof.
  intros Hi Hd. destruct th as [|x|k|[|k ks] n|[|k ks] n|r]; try done; simpl.
  - destruct (decide (one_section x)) as [Ho|Ho].
    + pose proof (section_one ord now x db Ho) as E. simpl in E. rewrite E.
      destruct (run_op ord now x db) as [db' r]. eexists _, _. split_and!; [done|done|].
      destruct x; simpl in *; done || lia.
    + destruct x; simpl in Ho; try (exfalso; by apply Ho); [case_match| |];
        eexists _, _; split_and!; try done; simpl; lia.
  - eexists _, _. split_and!; [done|done|simpl; lia].
  - eexists _, _. split_and!; [done|done|simpl; lia].
  - destruct (del_step db k now). eexists _, _. split_and!; [done|done|simpl; lia].
  - eexists _, _. split_and!; [done|done|simpl; lia].
  - eexists _, _. split_and!; [done|done|simpl; lia].
  - by destruct (Hd r).
Qed.

Lemma own_sections_done n env i th :
  th ≠ Idle → (work th ≤ n)%nat → ∃ r, own_sections n env i th = Done r.
Proof.
  revert i th. induction n as [|n IH]; intros i th Hi Hw.
  - destruct th as [|[]| | | |r]; simpl in *; try done; try lia. by exists r.
  - assert ((∃ r, th = Done r) ∨ ∀ r, th ≠ Done r) as [[r ->]|Hd] by (destruct th; naive_solver).
    { exists r. simpl. by destruct (env i) as [[? ?] ?]. }
    simpl. destruct (env i) as [[ord now] db].
    destruct (section_progress ord now th db) as (db' & th' & -> & H1 & H2); [done..|].
    apply IH; [done|lia].
Qed.

(** A goroutine that is not interrupted. *)
Fixpoint alone (n : nat) (ord : map_order) (now : Z) (th : thread) (db : DB) : DB * thread :=
  match n with
  | O => (db, th)
  | S n' =>
      match section ord now th db with
      | None => (db, th)
      | Some (db', th') => alone n' ord now th' db'
      end
  end.

Lemma alone_del ord now ks n db i :
  alone (S (length ks)) ord now (DelFrom ks n) db
  = let '(db', c) := del_loop db ks (λ _, now) i n in (db', Done (RInt c)).
Proof.
  revert n db i. induction ks as [|k ks IH]; intros n db i; [done|].
  cbn [length]. cbn [alone section del_loop]. destruct (del_step db k now) as [db' d]. apply IH.
Qed.

Lemma alone_exists ord now ks n db i :
  alone (S (length ks)) ord now (ExistsFrom ks n) db
  = (db, Done (RInt (exists_loop db ks (λ _, now) i n))).
Proof.
  revert n i. induction ks as [|k ks IH]; intros n i; [done|].
  cbn [length]. cbn [alone section exists_loop]. apply IH.
Qed.

Lemma sections_are_run_op ord now x db :
  alone (work (Start x)) ord now (Start x) db
  = let '(db', r) := run_op ord now x db in (db', Done r).
Proof.
  destruct (decide (one_section x)) as [Ho|Ho].
  - assert (work (Start x) = 1%nat) as -> by by destruct x.
    cbn [alone]. rewrite section_one by done. by destruct (run_op ord now x db).
  - destruct x; simpl in Ho; try (exfalso; by apply Ho); cbn [work].
    + cbn. unfold DB_Get. by destruct (get_read db k now).
    + change (alone (S (length ks)) ord now (DelFrom ks 0) db
              = let '(db', r) := run_op ord now (ODel ks) db in (db', Done r)).
      rewrite (alone_del ord now ks 0 db 0). cbn. unfold DB_Del.
      by destruct (del_loop _ _ _ _ _).
    + apply (alone_exists ord now ks 0 db 0).
Qed.

(** The worker's sections, uninterrupted, are [activeExpiryPass]. *)
Lemma worker_is_walk inp n i s x db :
  Nat.iter (S n) (λ p, worker_step p.2 p.1) (db, Pass inp n i s x)
  = (mkDB (walk inp n i (shards db) s x).1.1 (pubsub db), Asleep).
Proof.
  revert i s x db. induction n as [|n IH]; intros i s x db; [by destruct db|].
  rewrite Nat.iter_succ_r. cbn [snd fst worker_step walk].
  destruct (s <? activeExpirySample).
  - destruct (visit inp i (shards db) s x) as [[shs s'] x'].
    rewrite (IH (i + 1) s' x' (mkDB shs (pubsub db))). done.
  - clear IH. destruct db as [shs ps]. generalize (S n). intros k.
    induction k as [|k IHk]; [done|]. rewrite Nat.iter_succ_r. exact IHk.
Qed.

Lemma worker_is_pass inp db :
  Nat.iter (S (Z.to_nat shardCount)) (λ p, worker_step p.2 p.1)
    (db, Pass inp (Z.to_nat shardCount) 0 0 0)
  = ((activeExpiryPass inp db).1, Asleep).
Proof.
  rewrite worker_is_walk. unfold activeExpiryPass.
  by destruct (walk inp _ 0 (shards db) 0 0) as [[shs s] x].
Qed.

(** * Properties *)

(** C3: clients that call the store concurrently, with their lock sections
    interleaved in any order with each other, with the expiry worker's shard
    visits and with time, see only what the specification allows: every
    trace of invocations and replies is (up to the unspecified order of map
    listings) a trace of the machine in which each operation takes effect in
    one step between its call and its return (one step per key for [DEL] and
    [EXISTS]), an expired key is gone at its deadline, and no worker exists;
    the invariant holds throughout and the live keyspace is the machine's. *)
Theorem concurrent_store_refines_spec now n tr c :
  runs cstep (store_init now n) tr c →
  ∃ tr' a, runs astep (spec_init now n) tr' a ∧ Forall2 label_eq tr tr' ∧
    db_ok (c_db c) ∧ c_now c = a_now a ∧
    view (c_now c) (c_db c) = purge (c_now c) (a_map a).
Proof.
  intros Hr.
  destruct (simulation_runs _ _ _ _ _ _ _ _ concurrent_simulation (crel_init now n) Hr)
    as (tr' & a & H1 & H2 & []). by exists tr', a.
Qed.

(** A [GET] that saw an expired key is overtaken by a [SET] and a worker pass
    before its cleanup section; the new value survives. *)
Definition race : list action :=
  let k := B "k" in
  let call i x := [DoInvoke i x; DoSection i order_id; DoReturn i] in
  call 0%nat (OSet k (Some (B "old"))) ++ call 0%nat (OExpire k 5) ++
  [DoTick 7; DoInvoke 1%nat (OGet k); DoSection 1%nat order_id; DoWake 3 order_rev; DoWorker] ++
  call 0%nat (OSet k (Some (B "new"))) ++
  [DoWorker; DoSection 1%nat order_id; DoReturn 1%nat] ++
  call 0%nat (OGet k).

Definition race_trace : list label :=
  let k := B "k" in
  [Invoke 0 (OSet k (Some (B "old"))); Return 0 RDone;
   Invoke 0 (OExpire k 5); Return 0 (RBool true);
   Invoke 1 (OGet k);
   Invoke 0 (OSet k (Some (B "new"))); Return 0 RDone;
   Return 1 RNil;
   Invoke 0 (OGet k); Return 0 (RVal (B "new"))].

Lemma concurrent_store_refines_spec_witness :
  ∃ tr' a, runs astep (spec_init 0 2) tr' a ∧ Forall2 label_eq race_trace tr'.
Proof.
  assert (fst <$> schedule race (store_init 0 2) = Some race_trace) as E by (vm_compute; reflexivity).
  destruct (schedule race (store_init 0 2)) as [[tr c]|] eqn:Er; [|discriminate E].
  simpl in E. injection E as ->. apply schedule_runs in Er.
  destruct (concurrent_store_refines_spec 0 2 race_trace c Er) as (tr' & a & H1 & H2 & _).
  exists tr', a. split; [exact H1|exact H2].
Defined.

(** Whatever the other goroutines do to the store between the lock
    sections of an operation, it returns after a bounded number of them (at
    most one per key plus two: no section is ever retried); and when nothing
    interferes, its sections do what the sequential operation does. *)
Theorem operation_sections_bounded x :
  (∀ env, ∃ r, own_sections (work (Start x)) env 0 (Start x) = Done r) ∧
  (∀ ord now db, alone (work (Start x)) ord now (Start x) db
     = let '(db', r) := run_op ord now x db in (db', Done r)).
Proof. split; [intros env; by apply own_sections_done|intros; apply sections_are_run_op]. Qed.
