(* ===== verification/Cmd.v ===== *)
(** [internal/cmd]: the command handlers, the dispatch table and the reply
    constructors.  A handler maps the store and its arguments to the store
    after the command and the reply; [None] instead of a reply is a Go panic.
    [clk] gives the readings of [time.Now] the command makes, in order, and
    [o] the iteration order of the Go maps it ranges over. *)

From S2P Require Import Prelude GoLib Protocol PubSub Store Db.

Abbreviation CmdFunc := (clock → map_order → DB → list Value → DB * option Value).

(** * Reply constructors (registry.go) *)

Definition okValue : Value := SimpleStringV (B "OK").
Definition simpleStringValue (s : bytes) : Value := SimpleStringV s.
Definition errorValue (msg : bytes) : Value := ErrorV msg.
Definition integerValue (n : Z) : Value := IntegerV n.
Definition boolReply (b : bool) : Value := if b then integerValue 1 else integerValue 0.
Definition bulkValue (b : slice) : Value := BulkV b.
Definition nullBulkValue : Value := BulkV None.
Definition wrongArgs (name : string) : Value :=
  errorValue (B "ERR wrong number of arguments for '" ++ B name ++ B "' command").
Definition arrayValue (items : list Value) : Value := ArrayV (Some items).
Definition notInteger : Value := errorValue (B "ERR value is not an integer or out of range").
Definition bulkArrayValue (items : list slice) : Value := arrayValue (map bulkValue items).
Definition replyForErr (err : db_error) : Value :=
  match err with
  | ErrWrongType =>
      errorValue (B "WRONGTYPE Operation against a key holding the wrong kind of value")
  end.

(** [string(v.Bulk)] *)
Definition arg (v : Value) : bytes := content (vBulk v).

(** [bulkArgs] (list.go) *)
Definition bulkArgs (args : list Value) : list slice := map vBulk args.

(** [n, err := ...; if err != nil { return replyForErr(err) }; return f(n)] *)
Definition reply_with {A} (f : A → Value) (r : res A) : option Value :=
  match r with
  | Ret a => Some (f a)
  | Fail err => Some (replyForErr err)
  | Crash => None
  end.

(** [if !ok { return nullBulkValue() }; return bulkValue(v)] *)
Definition bulk_or_null (p : slice * bool) : Value :=
  if p.2 then bulkValue p.1 else nullBulkValue.

Definition usage (name : string) (db : DB) : DB * option Value := (db, Some (wrongArgs name)).

(** * connection.go *)

Definition cmd_Ping : CmdFunc := λ clk o db args,
  match args with
  | [] => (db, Some (simpleStringValue (B "PONG")))
  | [a] => (db, Some (bulkValue (vBulk a)))
  | _ => usage "ping" db
  end.

Definition cmd_Echo : CmdFunc := λ clk o db args,
  match args with
  | [a] => (db, Some (bulkValue (vBulk a)))
  | _ => usage "echo" db
  end.

(** * string.go *)

Definition cmd_Set : CmdFunc := λ clk o db args,
  match args with
  | [k; v] => (DB_Set db (arg k) (vBulk v), Some okValue)
  | _ => usage "set" db
  end.

Definition cmd_Get : CmdFunc := λ clk o db args,
  match args with
  | [k] =>
      let '(db', r) := DB_Get db (arg k) (clk 0%nat) (clk 1%nat) in
      (db', reply_with bulk_or_null r)
  | _ => usage "get" db
  end.

(** * keys.go *)

Definition cmd_Del : CmdFunc := λ clk o db args,
  match args with
  | [] => usage "del" db
  | _ => let '(db', n) := DB_Del db (map arg args) clk in (db', Some (integerValue n))
  end.

Definition cmd_Exists : CmdFunc := λ clk o db args,
  match args with
  | [] => usage "exists" db
  | _ => (db, Some (integerValue (DB_Exists db (map arg args) clk)))
  end.

(** * list.go *)

Definition cmd_LPush : CmdFunc := λ clk o db args,
  match args with
  | k :: (_ :: _) as vs =>
      let '(db', r) := DB_LPush db (arg k) (bulkArgs vs) (clk 0%nat) in
      (db', reply_with integerValue r)
  | _ => usage "lpush" db
  end.

Definition cmd_RPush : CmdFunc := λ clk o db args,
  match args with
  | k :: (_ :: _) as vs =>
      let '(db', r) := DB_RPush db (arg k) (bulkArgs vs) (clk 0%nat) in
      (db', reply_with integerValue r)
  | _ => usage "rpush" db
  end.

Definition cmd_LPop : CmdFunc := λ clk o db args,
  match args with
  | [k] =>
      let '(db', r) := DB_LPop db (arg k) (clk 0%nat) in (db', reply_with bulk_or_null r)
  | _ => usage "lpop" db
  end.

Definition cmd_RPop : CmdFunc := λ clk o db args,
  match args with
  | [k] =>
      let '(db', r) := DB_RPop db (arg k) (clk 0%nat) in (db', reply_with bulk_or_null r)
  | _ => usage "rpop" db
  end.

Definition cmd_LLen : CmdFunc := λ clk o db args,
  match args with
  | [k] => (db, reply_with integerValue (DB_LLen db (arg k) (clk 0%nat)))
  | _ => usage "llen" db
  end.

Definition cmd_LRange : CmdFunc := λ clk o db args,
  match args with
  | [k; a; b] =>
      match Atoi (arg a) with
      | None => (db, Some notInteger)
      | Some start =>
          match Atoi (arg b) with
          | None => (db, Some notInteger)
          | Some stop =>
              (db, reply_with bulkArrayValue (DB_LRange db (arg k) start stop (clk 0%nat)))
          end
      end
  | _ => usage "lrange" db
  end.

(** * hash.go *)

(** [for i := 0; i+1 < len(rest); i += 2 { ... }] *)
Fixpoint split_pairs (rest : list Value) : list slice * list slice :=
  match rest with
  | f :: v :: rest' =>
      let '(fields, values) := split_pairs rest' in (vBulk f :: fields, vBulk v :: values)
  | _ => ([], [])
  end.

Definition cmd_HSet : CmdFunc := λ clk o db args,
  if (zlen args <? 3) || (Z.even (zlen args)) then usage "hset" db
  else match args with
       | k :: rest =>
           let '(fields, values) := split_pairs rest in
           let '(db', r) := DB_HSet db (arg k) fields values (clk 0%nat) in
           (db', reply_with integerValue r)
       | [] => usage "hset" db
       end.

Definition cmd_HGet : CmdFunc := λ clk o db args,
  match args with
  | [k; f] => (db, reply_with bulk_or_null (DB_HGet db (arg k) (arg f) (clk 0%nat)))
  | _ => usage "hget" db
  end.

Definition cmd_HDel : CmdFunc := λ clk o db args,
  match args with
  | k :: (_ :: _) as fs =>
      let '(db', r) := DB_HDel db (arg k) (map arg fs) (clk 0%nat) in
      (db', reply_with integerValue r)
  | _ => usage "hdel" db
  end.

(** [for i := range fields { out = append(out, fields[i], values[i]) }] *)
Fixpoint interleave (fields values : list slice) : option (list Value) :=
  match fields, values with
  | [], _ => Some []
  | f :: fields', v :: values' =>
      match interleave fields' values' with
      | Some out => Some (bulkValue f :: bulkValue v :: out)
      | None => None
      end
  | _ :: _, [] => None
  end.

Definition cmd_HGetAll : CmdFunc := λ clk o db args,
  match args with
  | [k] =>
      (db, match DB_HGetAll o db (arg k) (clk 0%nat) with
           | Ret (fields, values) =>
               match interleave fields values with
               | Some out => Some (arrayValue out)
               | None => None
               end
           | Fail err => Some (replyForErr err)
           | Crash => None
           end)
  | _ => usage "hgetall" db
  end.

Definition cmd_HKeys : CmdFunc := λ clk o db args,
  match args with
  | [k] => (db, reply_with bulkArrayValue (DB_HKeys o db (arg k) (clk 0%nat)))
  | _ => usage "hkeys" db
  end.

Definition cmd_HVals : CmdFunc := λ clk o db args,
  match args with
  | [k] => (db, reply_with bulkArrayValue (DB_HVals o db (arg k) (clk 0%nat)))
  | _ => usage "hvals" db
  end.

Definition cmd_HLen : CmdFunc := λ clk o db args,
  match args with
  | [k] => (db, reply_with integerValue (DB_HLen db (arg k) (clk 0%nat)))
  | _ => usage "hlen" db
  end.

(** * set.go *)

Definition cmd_SAdd : CmdFunc := λ clk o db args,
  match args with
  | k :: (_ :: _) as ms =>
      let '(db', r) := DB_SAdd db (arg k) (bulkArgs ms) (clk 0%nat) in
      (db', reply_with integerValue r)
  | _ => usage "sadd" db
  end.

Definition cmd_SRem : CmdFunc := λ clk o db args,
  match args with
  | k :: (_ :: _) as ms =>
      let '(db', r) := DB_SRem db (arg k) (bulkArgs ms) (clk 0%nat) in
      (db', reply_with integerValue r)
  | _ => usage "srem" db
  end.

Definition cmd_SIsMember : CmdFunc := λ clk o db args,
  match args with
  | [k; m] => (db, reply_with boolReply (DB_SIsMember db (arg k) (vBulk m) (clk 0%nat)))
  | _ => usage "sismember" db
  end.

Definition cmd_SMembers : CmdFunc := λ clk o db args,
  match args with
  | [k] => (db, reply_with bulkArrayValue (DB_SMembers o db (arg k) (clk 0%nat)))
  | _ => usage "smembers" db
  end.

Definition cmd_SCard : CmdFunc := λ clk o db args,
  match args with
  | [k] => (db, reply_with integerValue (DB_SCard db (arg k) (clk 0%nat)))
  | _ => usage "scard" db
  end.

(** * expire.go *)

Definition expire_in (unit : Z) (name : string) : CmdFunc := λ clk o db args,
  match args with
  | [k; n] =>
      match ParseInt (arg n) with
      | None => (db, Some notInteger)
      | Some n =>
          let '(db', b) := DB_Expire db (arg k) (dur_mul n unit) (clk 0%nat) (clk 1%nat) in
          (db', Some (boolReply b))
      end
  | _ => usage name db
  end.

Definition cmd_Expire : CmdFunc := expire_in Second "expire".
Definition cmd_PExpire : CmdFunc := expire_in Millisecond "pexpire".

Definition ttlReply (remaining : Z) (exists_ hasTTL : bool) (unit : Z) : Z :=
  if negb exists_ then -2
  else if negb hasTTL then -1
  else Z.quot (wrap64 (remaining + Z.quot unit 2)) unit.

Definition ttl_in (unit : Z) (name : string) : CmdFunc := λ clk o db args,
  match args with
  | [k] =>
      let '(remaining, exists_, hasTTL) := DB_TTL db (arg k) (clk 0%nat) (clk 1%nat) in
      (db, Some (integerValue (ttlReply remaining exists_ hasTTL unit)))
  | _ => usage name db
  end.

Definition cmd_TTL : CmdFunc := ttl_in Second "ttl".
Definition cmd_PTTL : CmdFunc := ttl_in Millisecond "pttl".

Definition cmd_Persist : CmdFunc := λ clk o db args,
  match args with
  | [k] => let '(db', b) := DB_Persist db (arg k) (clk 0%nat) in (db', Some (boolReply b))
  | _ => usage "persist" db
  end.

(** * pubsub.go *)

Definition cmd_Publish : CmdFunc := λ clk o db args,
  match args with
  | [ch; payload] =>
      match Publish (pubsub db) (arg ch) (vBulk payload) with
      | Some (b, n) => (mkDB (shards db) b, Some (integerValue n))
      | None => (db, None)
      end
  | _ => usage "publish" db
  end.

(** * registry.go *)

Definition commands : list (bytes * CmdFunc) :=
  [ (B "PING", cmd_Ping); (B "ECHO", cmd_Echo); (B "SET", cmd_Set); (B "GET", cmd_Get);
    (B "DEL", cmd_Del); (B "EXISTS", cmd_Exists); (B "LPUSH", cmd_LPush); (B "RPUSH", cmd_RPush);
    (B "LPOP", cmd_LPop); (B "RPOP", cmd_RPop); (B "LRANGE", cmd_LRange); (B "LLEN", cmd_LLen);
    (B "HSET", cmd_HSet); (B "HGET", cmd_HGet); (B "HDEL", cmd_HDel); (B "HGETALL", cmd_HGetAll);
    (B "HKEYS", cmd_HKeys); (B "HVALS", cmd_HVals); (B "HLEN", cmd_HLen); (B "SADD", cmd_SAdd);
    (B "SREM", cmd_SRem); (B "SISMEMBER", cmd_SIsMember); (B "SMEMBERS", cmd_SMembers);
    (B "SCARD", cmd_SCard); (B "EXPIRE", cmd_Expire); (B "PEXPIRE", cmd_PExpire);
    (B "TTL", cmd_TTL); (B "PTTL", cmd_PTTL); (B "PERSIST", cmd_Persist);
    (B "PUBLISH", cmd_Publish) ].

Definition writeCommands : list bytes :=
  [ B "SET"; B "DEL"; B "LPUSH"; B "RPUSH"; B "LPOP"; B "RPOP"; B "HSET"; B "HDEL";
    B "SADD"; B "SREM"; B "EXPIRE"; B "PEXPIRE"; B "PERSIST" ].

Fixpoint assoc {A} (name : bytes) (l : list (bytes * A)) : option A :=
  match l with
  | [] => None
  | (n, x) :: l' => if bool_decide (name = n) then Some x else assoc name l'
  end.

Section registry.
Context `{GoUnicode}.

Definition IsWrite (name : bytes) : bool := bool_decide (ToUpper name ∈ writeCommands).

Definition Known (name : bytes) : bool :=
  match assoc (ToUpper name) commands with Some _ => true | None => false end.

Definition unknownCommand (name : bytes) : Value :=
  errorValue (B "ERR unknown command '" ++ name ++ B "'").

Definition Dispatch (clk : clock) (o : map_order) (db : DB) (request : Value)
    : DB * option Value :=
  match vArray request with
  | Some (first :: args) =>
      if negb (byte_eqb (vType request) TypeArray)
      then (db, Some (errorValue (B "ERR invalid request: expected a non-empty array")))
      else
        let name := ToUpper (content (vBulk first)) in
        match assoc name commands with
        | None => (db, Some (unknownCommand name))
        | Some handler => handler clk o db args
        end
  | _ => (db, Some (errorValue (B "ERR invalid request: expected a non-empty array")))
  end.
End registry.
