(* ===== verification/CmdFacts.v ===== *)
(** Correctness of the command layer: every handler keeps the store's
    invariant and answers, an error reply means nothing happened, the
    commands outside [writeCommands] change nothing a client can see, and a
    well-formed data command means what the store's specification says. *)

From S2P Require Import Prelude GoLib Protocol ProtocolFacts PubSub Store Db Spec Refine Cmd.

(** * Failed lookups leave the shard alone *)

Lemma putShard_id db key : db_ok db → putShard db key (shardFor db key) = db.
Proof.
  intros Hok. unfold putShard. rewrite list_insert_id; [by destruct db|].
  apply shards_shardFor, Hok.
Qed.

Lemma typedEntry_Fail k empty sh key create now sh' err :
  typedEntry k empty sh key create now = (sh', Fail err) → sh' = sh.
Proof. unfold typedEntry, liveEntry. intros H. repeat case_match; simplify_eq/=; done. Qed.

Ltac typed_fail Hok :=
  repeat case_match; intros; simplify_eq/=; try done;
  match goal with
  | H : typedEntry _ _ _ _ _ _ = (_, Fail _) |- _ =>
      apply typedEntry_Fail in H as ->; by apply putShard_id
  end.

Lemma push_Fail f db key t db' err : db_ok db → push f db key t = (db', Fail err) → db' = db.
Proof. intros Hok. unfold push, listEntry. typed_fail Hok. Qed.

Lemma pop_Fail f db key t db' err : db_ok db → pop f db key t = (db', Fail err) → db' = db.
Proof. intros Hok. unfold pop, listEntry. typed_fail Hok. Qed.

Lemma HSet_Fail db key fs vs t db' err : db_ok db → DB_HSet db key fs vs t = (db', Fail err) → db' = db.
Proof. intros Hok. unfold DB_HSet, hashEntry. typed_fail Hok. Qed.

Lemma HDel_Fail db key fs t db' err : db_ok db → DB_HDel db key fs t = (db', Fail err) → db' = db.
Proof. intros Hok. unfold DB_HDel, hashEntry. typed_fail Hok. Qed.

Lemma SAdd_Fail db key ms t db' err : db_ok db → DB_SAdd db key ms t = (db', Fail err) → db' = db.
Proof. intros Hok. unfold DB_SAdd, setEntry. typed_fail Hok. Qed.

Lemma SRem_Fail db key ms t db' err : db_ok db → DB_SRem db key ms t = (db', Fail err) → db' = db.
Proof. intros Hok. unfold DB_SRem, setEntry. typed_fail Hok. Qed.

Lemma Get_Fail db key t1 t2 db' err : DB_Get db key t1 t2 = (db', Fail err) → db' = db.
Proof. unfold DB_Get, get_read. intros H. repeat case_match; by simplify_eq/=. Qed.

(** * The specification never crashes, so neither does the store *)

Lemma spec_op_answers t x m : (spec_op t x m).2 ≠ RCrash.
Proof.
  destruct x; simpl; unfold spec_read, spec_push, spec_pop, spec_hash, spec_set,
    as_str, with_list, with_hash, with_set;
    try done; repeat (case_match; simplify_eq/=; try done).
Qed.

Lemma run_op_answers (o : map_order) t x db :
  db_ok db → op_ok x → db_ok (run_op o t x db).1 ∧ (run_op o t x db).2 ≠ RCrash.
Proof.
  intros Hok Hx. destruct (run_op_refines o t x db Hok Hx) as (H1 & _ & H3).
  split; [done|]. pose proof (spec_op_answers t x (view t db)) as Hs.
  intros E. rewrite E in H3. simpl in H3. by destruct (spec_op t x (view t db)).2.
Qed.

(** * What a handler guarantees *)

(** The encoder accepts the value. *)
Definition encodes (v : Value) : Prop := (Encode v).2 = None.

Lemma encodes_simple s : encodes (SimpleStringV s).
Proof. done. Qed.

Lemma encodes_error s : encodes (ErrorV s).
Proof. done. Qed.

Lemma encodes_int n : encodes (IntegerV n).
Proof. done. Qed.

Lemma encodes_bulk b : encodes (BulkV b).
Proof. by destruct b. Qed.

Lemma encodes_array vs : Forall encodes vs → encodes (ArrayV (Some vs)).
Proof. intros H. unfold encodes. by rewrite encode_array. Qed.

Lemma encodes_bulks l : encodes (bulkArrayValue l).
Proof.
  apply encodes_array, Forall_forall. intros v (b & -> & _)%list_elem_of_fmap. apply encodes_bulk.
Qed.

Lemma encodes_bulk_or_null p : encodes (bulk_or_null p).
Proof. destruct p as [[|] []]; apply encodes_bulk. Qed.

Lemma encodes_boolReply b : encodes (boolReply b).
Proof. by destruct b. Qed.

Lemma encodes_replyForErr err : encodes (replyForErr err).
Proof. by destruct err. Qed.

Create HintDb encodes.
#[export] Hint Resolve encodes_simple encodes_error encodes_int encodes_bulk encodes_bulks
  encodes_bulk_or_null encodes_boolReply encodes_replyForErr : encodes.

Ltac solve_encodes := solve [done | auto with encodes].

(** [sound db out]: the store after the command is well formed, there is a
    reply the encoder accepts, and an error reply means the store is
    untouched. *)
Definition sound (db : DB) (out : DB * option Value) : Prop :=
  db_ok out.1 ∧
  ∃ v, out.2 = Some v ∧ encodes v ∧ (vType v = TypeError → out.1 = db).

Definition handler_sound (f : CmdFunc) : Prop :=
  ∀ clk o db args, db_ok db → sound db (f clk o db args).

Lemma sound_same db v : db_ok db → encodes v → sound db (db, Some v).
Proof. intros. split; [done|]. by exists v. Qed.

Lemma sound_plain db db' v :
  db_ok db' → encodes v → vType v ≠ TypeError → sound db (db', Some v).
Proof. intros. split; [done|]. by exists v. Qed.

(** A store operation whose result is rendered by [reply_with]. *)
Lemma sound_with {A} db db' (f : A → Value) (r : res A) :
  db_ok db' → r ≠ Crash → (∀ err, r = Fail err → db' = db) →
  (∀ a, encodes (f a) ∧ vType (f a) ≠ TypeError) →
  sound db (db', reply_with f r).
Proof.
  intros Hok Hc Hf Ha. destruct r as [a|err|]; [|rewrite (Hf err) in * by done|done].
  - destruct (Ha a). by apply sound_plain.
  - apply sound_same; [done|by destruct err].
Qed.

Lemma render_bulk_or_null p : encodes (bulk_or_null p) ∧ vType (bulk_or_null p) ≠ TypeError.
Proof. split; [apply encodes_bulk_or_null|by destruct p as [v []]]. Qed.

Lemma of_res_Crash {A} (f : A → reply) r : of_res f r ≠ RCrash → r ≠ Crash.
Proof. by intros H ->. Qed.

Lemma of_val_Crash r : of_val r ≠ RCrash → r ≠ Crash.
Proof. by intros H ->. Qed.

(** The reading-once commands, from the refinement of their operation [x]:
    [run_op] at the instant of the reading is the same store call. *)
Lemma sound_op {A} (o : map_order) t x db db' (g : A → reply) (r : res A) (f : A → Value) :
  db_ok db → op_ok x →
  run_op o t x db = (db', of_res g r) →
  (∀ err, r = Fail err → db' = db) → (∀ a, encodes (f a) ∧ vType (f a) ≠ TypeError) →
  sound db (db', reply_with f r).
Proof.
  intros Hok Hx E Hf Ha. destruct (run_op_answers o t x db Hok Hx) as [H1 H2].
  rewrite E in H1, H2. apply sound_with; [done|by eapply of_res_Crash|done|done].
Qed.

Lemma sound_val (o : map_order) t x db db' (r : res (slice * bool)) :
  db_ok db → op_ok x →
  run_op o t x db = (db', of_val r) →
  (∀ err, r = Fail err → db' = db) →
  sound db (db', reply_with bulk_or_null r).
Proof.
  intros Hok Hx E Hf. destruct (run_op_answers o t x db Hok Hx) as [H1 H2].
  rewrite E in H1, H2.
  apply sound_with; [done|by eapply of_val_Crash|done|apply render_bulk_or_null].
Qed.

Lemma Get_ok db key t1 t2 :
  db_ok db →
  db_ok (DB_Get db key t1 t2).1 ∧ (DB_Get db key t1 t2).2 ≠ Crash ∧
  ∀ t, t2 ≤ t → view t (DB_Get db key t1 t2).1 = view t db.
Proof.
  intros Hok. unfold DB_Get, get_read. repeat (case_match; simplify_eq/=); split_and!; try done.
  - by apply (expireIfNeeded_spec db key t2 t2).
  - intros t Ht. by apply expireIfNeeded_spec.
Qed.

Lemma del_loop_ok db ks clk i n : db_ok db → db_ok (del_loop db ks clk i n).1.
Proof.
  revert db i n. induction ks as [|k ks IH]; intros db i n Hok; [done|]. cbn [del_loop].
  destruct (del_step_spec 0 db k (clk i) Hok) as [H _].
  destruct (del_step db k (clk i)) as [db' d]. by apply IH.
Qed.

Lemma Expire_ok db key d t1 t2 : db_ok db → db_ok (DB_Expire db key d t1 t2).1.
Proof.
  intros Hok. pose proof (refine_Expire t1 db key d Hok) as (H & _). unfold DB_Expire in *.
  pose proof (liveEntry_cases t1 db key Hok) as Hc.
  pose proof (λ k, liveEntry_other (shardFor db key) key t1 k) as Ho.
  destruct (liveEntry (shardFor db key) key t1) as [[e|] sh]; [|done].
  destruct (d <=? 0); [done|]. destruct Hc as (_ & He & _). simpl.
  apply putShard_ok; [done| |].
  - intros k Hk. rewrite lookup_insert_ne by done. by apply Ho.
  - intros e'. rewrite lookup_insert_eq. intros [= <-]. done.
Qed.

(** ** Handler by handler *)

Ltac by_arity args :=
  intros clk o db args Hok;
  repeat match goal with
    | |- context [match ?l with [] => _ | _ => _ end] =>
        is_var l; destruct l as [|? ?]; simpl; try (apply sound_same; [done|solve_encodes])
    end.

Lemma sound_Set : handler_sound cmd_Set.
Proof.
  unfold cmd_Set. by_arity args. apply sound_plain; [|done|done].
  by apply (run_op_answers order_id 0 (OSet _ _) db).
Qed.

Lemma sound_Get : handler_sound cmd_Get.
Proof.
  unfold cmd_Get. by_arity args.
  destruct (Get_ok db (arg v) (clk 0%nat) (clk 1%nat) Hok) as (H1 & H2 & _).
  destruct (DB_Get _ _ _ _) as [db' r] eqn:E.
  apply sound_with; [done|done|by intros ? ->; eapply Get_Fail|apply render_bulk_or_null].
Qed.

Lemma sound_Del : handler_sound cmd_Del.
Proof.
  unfold cmd_Del. by_arity args. unfold DB_Del.
  match goal with |- context [del_loop ?d ?ks ?c ?i ?n] =>
    pose proof (del_loop_ok d ks c i n Hok); destruct (del_loop d ks c i n) as [db' m] end.
  by apply sound_plain.
Qed.

Lemma sound_Exists : handler_sound cmd_Exists.
Proof. unfold cmd_Exists. by_arity args. Qed.

Lemma sound_Ping : handler_sound cmd_Ping.
Proof. unfold cmd_Ping. by_arity args. Qed.

Lemma sound_Echo : handler_sound cmd_Echo.
Proof. unfold cmd_Echo. by_arity args. Qed.

(** [mutates x fail]: the handler runs the mutation [x], whose failure
    leaves the store alone by [fail]. *)
Ltac mutates x fail :=
  match goal with
  | clk : clock, o : map_order |- sound ?db (let '(_, _) := ?c in _) =>
      let E := fresh "E" in
      destruct c eqn:E;
      first [eapply (sound_op o (clk 0%nat) x db _ RInt) | eapply (sound_val o (clk 0%nat) x db)];
      [done|try done|simpl; rewrite E; reflexivity|by intros ? ->; eapply fail|..]; try done;
      try (intros; split; [solve_encodes|done])
  end.

Ltac reads x g :=
  match goal with
  | clk : clock, o : map_order |- sound ?db _ =>
      eapply (sound_op o (clk 0%nat) x db db g); try done; try (intros; split; [solve_encodes|done])
  end.

Lemma sound_LPush : handler_sound cmd_LPush.
Proof.
  unfold cmd_LPush. by_arity args. mutates (OLPush (arg v) (bulkArgs (v0 :: args))) push_Fail.
Qed.

Lemma sound_RPush : handler_sound cmd_RPush.
Proof.
  unfold cmd_RPush. by_arity args. mutates (ORPush (arg v) (bulkArgs (v0 :: args))) push_Fail.
Qed.

Lemma sound_LPop : handler_sound cmd_LPop.
Proof. unfold cmd_LPop. by_arity args. mutates (OLPop (arg v)) pop_Fail. Qed.

Lemma sound_RPop : handler_sound cmd_RPop.
Proof. unfold cmd_RPop. by_arity args. mutates (ORPop (arg v)) pop_Fail. Qed.

Lemma sound_HDel : handler_sound cmd_HDel.
Proof. unfold cmd_HDel. by_arity args. mutates (OHDel (arg v) (map arg (v0 :: args))) HDel_Fail. Qed.

Lemma sound_SAdd : handler_sound cmd_SAdd.
Proof. unfold cmd_SAdd. by_arity args. mutates (OSAdd (arg v) (bulkArgs (v0 :: args))) SAdd_Fail. Qed.

Lemma sound_SRem : handler_sound cmd_SRem.
Proof. unfold cmd_SRem. by_arity args. mutates (OSRem (arg v) (bulkArgs (v0 :: args))) SRem_Fail. Qed.

Lemma split_pairs_ok rest :
  2 ≤ zlen rest → (split_pairs rest).1 ≠ [] ∧
  length (split_pairs rest).1 = length (split_pairs rest).2.
Proof.
  assert (∀ n rest, (length rest ≤ n)%nat →
    length (split_pairs rest).1 = length (split_pairs rest).2) as Hlen.
  { clear. induction n as [|n IH]; intros [|f [|v rest]] H; try done; simpl in *; [lia|].
    specialize (IH rest). destruct (split_pairs rest). simpl in *. rewrite IH; [done|lia]. }
  intros H. split; [|by eapply Hlen].
  destruct rest as [|f [|v rest]]; [done|done|]. simpl. by destruct (split_pairs rest).
Qed.

Lemma sound_HSet : handler_sound cmd_HSet.
Proof.
  intros clk o db args Hok. unfold cmd_HSet.
  destruct (_ || _) eqn:Hn; [apply sound_same; [done|solve_encodes]|]. reflect_bools.
  destruct args as [|k rest]; [apply sound_same; [done|solve_encodes]|].
  destruct (split_pairs_ok rest) as [P1 P2]; [autorewrite with go_len in *; lia|].
  destruct (split_pairs rest) as [fs vs]. mutates (OHSet (arg k) fs vs) HSet_Fail.
Qed.

Lemma sound_LLen : handler_sound cmd_LLen.
Proof. unfold cmd_LLen. by_arity args. reads (OLLen (arg v)) RInt. Qed.

Lemma sound_LRange : handler_sound cmd_LRange.
Proof.
  unfold cmd_LRange. by_arity args.
  destruct (Atoi (arg v0)) as [a|]; [|apply sound_same; [done|solve_encodes]].
  destruct (Atoi (arg v1)) as [b|]; [|apply sound_same; [done|solve_encodes]].
  reads (OLRange (arg v) a b) (λ l : list slice, RList (map content l)).
Qed.

Lemma sound_HGet : handler_sound cmd_HGet.
Proof. unfold cmd_HGet. by_arity args. by apply (sound_val o (clk 0%nat) (OHGet (arg v) (arg v0))). Qed.

Lemma interleave_zip l l' :
  length l = length l' →
  interleave l l' = Some (concat (zip_with (λ f v, [bulkValue f; bulkValue v]) l l')).
Proof.
  revert l'. induction l as [|f l IH]; intros [|v l'] H; try done. simpl in *.
  by rewrite IH by lia.
Qed.

Lemma HGetAll_parallel (o : map_order) db key t fs vs :
  DB_HGetAll o db key t = Ret (fs, vs) → length fs = length vs.
Proof.
  unfold DB_HGetAll, read. intros H. repeat case_match; simplify_eq/=; [|done].
  by rewrite !length_map.
Qed.

Lemma sound_HGetAll : handler_sound cmd_HGetAll.
Proof.
  unfold cmd_HGetAll. by_arity args.
  destruct (run_op_answers o (clk 0%nat) (OHGetAll (arg v)) db Hok I) as [_ H].
  simpl in H. destruct (DB_HGetAll _ _ _ _) as [[fs vs]| |] eqn:E; [|apply sound_same; [done|solve_encodes]|done].
  apply HGetAll_parallel in E. rewrite interleave_zip by done. apply sound_same; [done|].
  apply encodes_array, Forall_forall. intros x Hx.
  apply list_elem_of_In, in_concat in Hx as (l & Hl & Hx).
  apply list_elem_of_In, elem_of_lookup_zip_with in Hl as (i & f & b & -> & _).
  destruct Hx as [<-|[<-|[]]]; solve_encodes.
Qed.

Lemma sound_HKeys : handler_sound cmd_HKeys.
Proof.
  unfold cmd_HKeys. by_arity args. reads (OHKeys (arg v)) (λ l : list slice, RBag (map content l)).
Qed.

Lemma sound_HVals : handler_sound cmd_HVals.
Proof.
  unfold cmd_HVals. by_arity args. reads (OHVals (arg v)) (λ l : list slice, RBag (map content l)).
Qed.

Lemma sound_HLen : handler_sound cmd_HLen.
Proof. unfold cmd_HLen. by_arity args. reads (OHLen (arg v)) RInt. Qed.

Lemma sound_SIsMember : handler_sound cmd_SIsMember.
Proof.
  unfold cmd_SIsMember. by_arity args.
  eapply (sound_op o (clk 0%nat) (OSIsMember (arg v) (vBulk v0)) db db RBool); try done.
  intros []; done.
Qed.

Lemma sound_SMembers : handler_sound cmd_SMembers.
Proof.
  unfold cmd_SMembers. by_arity args. reads (OSMembers (arg v)) (λ l : list slice, RBag (map content l)).
Qed.

Lemma sound_SCard : handler_sound cmd_SCard.
Proof. unfold cmd_SCard. by_arity args. reads (OSCard (arg v)) RInt. Qed.

Lemma sound_expire_in unit name : handler_sound (expire_in unit name).
Proof.
  unfold expire_in. by_arity args. destruct (ParseInt (arg v0)) as [n|]; [|apply sound_same; [done|solve_encodes]].
  pose proof (Expire_ok db (arg v) (dur_mul n unit) (clk 0%nat) (clk 1%nat) Hok) as H.
  destruct (DB_Expire _ _ _ _ _) as [db' b]. apply sound_plain; [done|solve_encodes|by destruct b].
Qed.

Lemma sound_ttl_in unit name : handler_sound (ttl_in unit name).
Proof. unfold ttl_in. by_arity args. destruct (DB_TTL _ _ _ _) as [[r e] h]. apply sound_same; [done|solve_encodes]. Qed.

Lemma sound_Persist : handler_sound cmd_Persist.
Proof.
  unfold cmd_Persist. by_arity args.
  destruct (run_op_answers o (clk 0%nat) (OPersist (arg v)) db Hok I) as [H _]. simpl in H.
  destruct (DB_Persist _ _ _) as [db' b]. apply sound_plain; [done|solve_encodes|by destruct b].
Qed.

Lemma sound_Publish : handler_sound cmd_Publish.
Proof.
  unfold cmd_Publish. by_arity args. pose proof Hok as [H1 H2 H3 Hp].
  destruct (Publish_spec (pubsub db) (arg v) (vBulk v0) Hp) as (mbs & -> & _ & Hb).
  apply sound_plain; [by split|done|done].
Qed.

Create HintDb handlers.
#[export] Hint Resolve sound_Ping sound_Echo sound_Set sound_Get sound_Del sound_Exists sound_LPush
  sound_RPush sound_LPop sound_RPop sound_LRange sound_LLen sound_HSet sound_HGet sound_HDel
  sound_HGetAll sound_HKeys sound_HVals sound_HLen sound_SAdd sound_SRem sound_SIsMember
  sound_SMembers sound_SCard sound_expire_in sound_ttl_in sound_Persist sound_Publish : handlers.

Lemma commands_sound : Forall (λ c, handler_sound c.2) commands.
Proof.
  unfold commands, cmd_Expire, cmd_PExpire, cmd_TTL, cmd_PTTL.
  repeat (apply Forall_cons; split; [cbn [snd]; auto with handlers|]). by apply Forall_nil.
Qed.

Lemma assoc_elem {A} name (l : list (bytes * A)) x : assoc name l = Some x → (name, x) ∈ l.
Proof.
  induction l as [|[n y] l IH]; [done|]. simpl. case_bool_decide as E.
  - intros [= ->]. subst n. constructor.
  - intros H. constructor. by apply IH.
Qed.

Lemma assoc_None {A} name (l : list (bytes * A)) : assoc name l = None → name ∉ l.*1.
Proof.
  induction l as [|[k x] l IH]; simpl; [set_solver|]. case_bool_decide; [done|]. set_solver.
Qed.

Lemma Dispatch_sound `{GoUnicode} clk (o : map_order) db request :
  db_ok db → sound db (Dispatch clk o db request).
Proof.
  intros Hok. unfold Dispatch.
  destruct (vArray request) as [[|first args]|]; try (apply sound_same; [done|solve_encodes]).
  destruct (negb _); [apply sound_same; [done|solve_encodes]|].
  destruct (assoc _ commands) as [f|] eqn:E; [|apply sound_same; [done|solve_encodes]].
  apply assoc_elem in E. pose proof commands_sound as Hc. rewrite Forall_forall in Hc.
  by apply (Hc _ E).
Qed.

(** * The commands outside [writeCommands] *)

(** A client reading at or after the command's last clock reading cannot
    tell that it ran. *)
Definition read_only (f : CmdFunc) : Prop :=
  ∀ clk o db args t, db_ok db → (∀ i, clk i ≤ t) → view t (f clk o db args).1 = view t db.

Lemma view_shards t db db' : shards db' = shards db → view t db' = view t db.
Proof. intros H. unfold view, keyspace. by rewrite H. Qed.

Ltac same_store :=
  intros clk o db args t Hok Ht;
  unfold cmd_TTL, cmd_PTTL, ttl_in;
  try match goal with |- view _ (?f clk o db args).1 = _ => unfold f end; repeat (case_match; simplify_eq/=); done.

Lemma read_only_Get : read_only cmd_Get.
Proof.
  intros clk o db [|k [|]] t Hok Ht; try done. simpl.
  destruct (Get_ok db (arg k) (clk 0%nat) (clk 1%nat) Hok) as (_ & _ & H).
  specialize (H t (Ht 1%nat)). by destruct (DB_Get _ _ _ _).
Qed.

Lemma read_only_Publish : read_only cmd_Publish.
Proof.
  intros clk o db args t Hok Ht. unfold cmd_Publish, Publish.
  repeat case_match; simplify_eq/=; try done; by apply view_shards.
Qed.

Lemma commands_read_only :
  Forall (λ c : bytes * CmdFunc, c.1 ∈ writeCommands ∨ read_only c.2) commands.
Proof.
  unfold commands.
  repeat (apply Forall_cons; split; [cbn [fst snd]|]); [..|by apply Forall_nil];
    first [ left; solve [repeat first [apply list_elem_of_here | apply list_elem_of_further]] | right ].
  all: first [exact read_only_Get | exact read_only_Publish | same_store].
Qed.

Lemma Dispatch_array `{GoUnicode} clk (o : map_order) db first args :
  Dispatch clk o db (ArrayV (Some (first :: args)))
  = match assoc (ToUpper (arg first)) commands with
    | None => (db, Some (unknownCommand (ToUpper (arg first))))
    | Some f => f clk o db args
    end.
Proof. done. Qed.

Lemma Dispatch_read_only `{GoUnicode} clk (o : map_order) db first args t :
  db_ok db → (∀ i, clk i ≤ t) → IsWrite (arg first) = false →
  view t (Dispatch clk o db (ArrayV (Some (first :: args)))).1 = view t db.
Proof.
  intros Hok Ht Hw. rewrite Dispatch_array.
  destruct (assoc _ commands) as [f|] eqn:E; [|done].
  apply assoc_elem in E. pose proof commands_read_only as Hc. rewrite Forall_forall in Hc.
  destruct (Hc _ E) as [Hin|Hro]; [|by apply Hro].
  unfold IsWrite in Hw. by rewrite bool_decide_eq_false in Hw.
Qed.

(** A request as a client sends it: an array of bulk strings. *)
Definition request (l : list bytes) : Value := ArrayV (Some (map (λ b, BulkV (Some b)) l)).

(** * Properties *)

(** Whatever request arrives (any value the protocol can carry, any
    command name, any arguments) and whatever the clock and the map
    iteration order are, [Dispatch] on a well-formed store does not panic,
    leaves a well-formed store, gives a reply the encoder accepts, and when
    the reply is an error the store is exactly the store before. *)
Theorem dispatch_safe `{GoUnicode} clk (o : map_order) db req :
  db_ok db →
  let out := Dispatch clk o db req in
  db_ok out.1 ∧
  ∃ v, out.2 = Some v ∧ (Encode v).2 = None ∧ (vType v = TypeError → out.1 = db).
Proof. apply Dispatch_sound. Qed.

Lemma dispatch_safe_witness :
  db_ok (@Dispatch plain_unicode (λ _, 0) order_rev newDB
           (request [B "rpush"; B "l"; B "a"; B "b"])).1.
Proof.
  exact (proj1 (@dispatch_safe plain_unicode (λ _, 0) order_rev newDB
    (request [B "rpush"; B "l"; B "a"; B "b"]) newDB_ok)).
Defined.

(** C22: [IsWrite] misses no command that changes data: a request whose
    command [IsWrite] denies (in any letter case) leaves the live view of
    the keyspace as it was, at every instant not before the command's clock
    readings.  Such commands are neither logged nor propagated. *)
Theorem dispatch_read_only `{GoUnicode} clk (o : map_order) db first args t :
  db_ok db → (∀ i, clk i ≤ t) → IsWrite (arg first) = false →
  view t (Dispatch clk o db (ArrayV (Some (first :: args)))).1 = view t db.
Proof. apply Dispatch_read_only. Qed.

Lemma dispatch_read_only_witness :
  view 5 (@Dispatch plain_unicode (λ i, Z.of_nat (Nat.min i 5)) order_id
            (DB_Expire (DB_Set newDB (B "k") (Some (B "v"))) (B "k") 1 0 0).1
            (request [B "GeT"; B "k"])).1
  = view 5 (DB_Expire (DB_Set newDB (B "k") (Some (B "v"))) (B "k") 1 0 0).1.
Proof.
  apply (@dispatch_read_only plain_unicode (λ i, Z.of_nat (Nat.min i 5)) order_id
           (DB_Expire (DB_Set newDB (B "k") (Some (B "v"))) (B "k") 1 0 0).1
           (BulkV (Some (B "GeT"))) [BulkV (Some (B "k"))] 5).
  - apply Expire_ok. apply (run_op_answers order_id 0 (OSet (B "k") (Some (B "v"))) newDB newDB_ok I).
  - intros i. lia.
  - vm_compute. reflexivity.
Defined.
