(* ===== verification/CmdSpec.v ===== *)
(** The meaning of the data commands: which store operation a request is,
    how its abstract reply is rendered on the wire, and that [Dispatch] does
    exactly that. *)

From S2P Require Import Prelude GoLib Protocol PubSub Store Db Spec Refine Cmd CmdFacts.

(** * Specification *)

Definition render (r : reply) : Value :=
  match r with
  | RDone => okValue
  | RNil | RCrash => nullBulkValue
  | RVal b => bulkValue (Some b)
  | RInt n | RTTL n => integerValue n
  | RBool b => boolReply b
  | RList l | RBag l => bulkArrayValue (map Some l)
  | RPairs l => arrayValue (concat (map (λ p, [bulkValue (Some p.1); bulkValue (Some p.2)]) l))
  | RNoTTL => integerValue (-1)
  | RWrongType => replyForErr ErrWrongType
  end.

(** TTL replies count whole [unit]s, rounded half up. *)
Definition render_ttl (unit : Z) (r : reply) : Value :=
  match r with
  | RTTL n => integerValue (Z.quot (wrap64 (n + Z.quot unit 2)) unit)
  | RNoTTL => integerValue (-1)
  | _ => integerValue (-2)
  end.

Abbreviation meaning := (list Value → option (op * (reply → Value))).

Definition one (f : bytes → op) : meaning := λ args,
  match args with [k] => Some (f (arg k), render) | _ => None end.

Definition many (f : bytes → list Value → op) : meaning := λ args,
  match args with k :: (_ :: _) as vs => Some (f (arg k) vs, render) | _ => None end.

Definition expire (unit : Z) : meaning := λ args,
  match args with
  | [k; n] => match ParseInt (arg n) with
              | Some n => Some (OExpire (arg k) (dur_mul n unit), render)
              | None => None
              end
  | _ => None
  end.

Definition ttl (unit : Z) : meaning := λ args,
  match args with [k] => Some (OTTL (arg k), render_ttl unit) | _ => None end.

Definition hset : meaning := λ args,
  match args with
  | k :: (_ :: _) as rest =>
      if Z.even (zlen rest)
      then let '(fs, vs) := split_pairs rest in Some (OHSet (arg k) fs vs, render)
      else None
  | _ => None
  end.

(** The operation a command with these arguments denotes, and the rendering
    of its reply. *)
Definition denotes : list (bytes * meaning) :=
  [ (B "SET", λ args, match args with
                      | [k; v] => Some (OSet (arg k) (vBulk v), render) | _ => None end);
    (B "GET", one OGet);
    (B "DEL", λ args, match args with
                      | [] => None | _ => Some (ODel (map arg args), render) end);
    (B "EXISTS", λ args, match args with
                         | [] => None | _ => Some (OExists (map arg args), render) end);
    (B "LPUSH", many (λ k vs, OLPush k (map vBulk vs)));
    (B "RPUSH", many (λ k vs, ORPush k (map vBulk vs)));
    (B "LPOP", one OLPop); (B "RPOP", one ORPop); (B "LLEN", one OLLen);
    (B "LRANGE", λ args, match args with
                         | [k; a; b] =>
                             match ParseInt (arg a), ParseInt (arg b) with
                             | Some a, Some b => Some (OLRange (arg k) a b, render)
                             | _, _ => None
                             end
                         | _ => None end);
    (B "HSET", hset);
    (B "HGET", λ args, match args with
                       | [k; f] => Some (OHGet (arg k) (arg f), render) | _ => None end);
    (B "HDEL", many (λ k fs, OHDel k (map arg fs)));
    (B "HGETALL", one OHGetAll); (B "HKEYS", one OHKeys); (B "HVALS", one OHVals);
    (B "HLEN", one OHLen);
    (B "SADD", many (λ k ms, OSAdd k (map vBulk ms)));
    (B "SREM", many (λ k ms, OSRem k (map vBulk ms)));
    (B "SISMEMBER", λ args, match args with
                            | [k; m] => Some (OSIsMember (arg k) (vBulk m), render)
                            | _ => None end);
    (B "SMEMBERS", one OSMembers); (B "SCARD", one OSCard);
    (B "EXPIRE", expire Second); (B "PEXPIRE", expire Millisecond);
    (B "TTL", ttl Second); (B "PTTL", ttl Millisecond);
    (B "PERSIST", one OPersist) ].

(** * Non-nil slices render as their content *)

Lemma bulks_content l : Forall is_Some l → bulkArrayValue l = bulkArrayValue (map Some (map content l)).
Proof.
  intros Hl. unfold bulkArrayValue. do 2 f_equal.
  induction Hl as [|x l [b ->] _ IH]; [done|]. simpl. by f_equal.
Qed.

(** A handler [f] implements the meaning [den] when all its clock readings
    fall on one instant. *)
Definition implements (f : CmdFunc) (den : meaning) : Prop :=
  ∀ (o : map_order) t db args x rd, db_ok db → den args = Some (x, rd) →
    op_ok x ∧
    f (λ _, t) o db args = ((run_op o t x db).1, Some (rd (run_op o t x db).2)).

Lemma reply_with_res {A} (f : A → Value) (g : A → reply) (r : res A) :
  r ≠ Crash → (∀ a, r = Ret a → f a = render (g a)) →
  reply_with f r = Some (render (of_res g r)).
Proof. intros Hc H. destruct r as [a|[]|]; simpl; [by rewrite H|done|done]. Qed.

Lemma reply_with_val r :
  of_val r ≠ RCrash → reply_with bulk_or_null r = Some (render (of_val r)).
Proof. destruct r as [[[b|] []]|[]|]; done. Qed.

(** Reads of stored slices return no nil. *)
Lemma LRange_Some db key a b t l :
  db_ok db → DB_LRange db key a b t = Ret l → Forall is_Some l.
Proof.
  intros Hok. unfold DB_LRange, read. intros H.
  destruct (peek (shardFor db key) key t) as [e|] eqn:E; [|by simplify_eq/=].
  case_bool_decide as K; [done|].
  apply peek_Some in E as [E _]. apply (lookup_entry_ok _ _ _ Hok) in E.
  unfold entry_ok in E. rewrite K in E. destruct E as (_ & _ & Hl & _).
  destruct (normalizeRange _ _ _) as [[lo hi] []]; [|by simplify_eq/=].
  unfold range_loop in H. destruct (mapM _ _) as [out|] eqn:M; [|done]. simplify_eq/=.
  apply mapM_Some in M. apply Forall_forall. intros x Hx.
  apply list_elem_of_lookup in Hx as [i Hi].
  destruct (Forall2_lookup_r _ _ _ _ _ M Hi) as (j & _ & Hj).
  rewrite Forall_forall in Hl. eapply Hl, list_elem_of_lookup_2, Hj.
Qed.

Lemma hash_values_Some (o : map_order) db key t e :
  db_ok db → peek (shardFor db key) key t = Some e → e_kind e = kindHash →
  Forall is_Some (map snd (range_map o (e_hash e))).
Proof.
  intros Hok E K. apply peek_Some in E as [E _]. apply (lookup_entry_ok _ _ _ Hok) in E.
  unfold entry_ok in E. rewrite K in E. destruct E as (_ & _ & _ & Hh & _).
  apply Forall_forall. intros v ([k v'] & -> & Hin)%list_elem_of_fmap.
  apply elem_of_range_map in Hin. by apply (Hh k).
Qed.

(** * Handler by handler *)

(** Splits the argument list as the meaning does, and leaves the accepted
    shape. *)
Ltac args_shape :=
  intros o t db args x rd Hok Hden; unfold one, many, expire, ttl, hset in Hden; cbn beta in Hden;
  repeat match type of Hden with
    | (match ?l with [] => _ | _ => _ end) = _ =>
        is_var l; destruct l as [|? ?]; try discriminate Hden
    end;
  try (injection Hden as <- <-).

(** The accepted shape denotes an admissible operation, which answers. *)
Ltac implemented Hans :=
  match goal with
  | Hok : db_ok ?db |- op_ok ?x ∧ _ = ((run_op ?o ?t _ _).1, _) =>
      let Hx := fresh in
      assert (op_ok x) as Hx by (simpl; auto);
      split; [exact Hx|];
      destruct (run_op_answers o t x db Hok Hx) as [_ Hans]; clear Hx;
      simpl in *; unfold bulkArgs; simpl
  end.

(** A mutation that replies with a count or a value. *)
Ltac mutation :=
  let Hans := fresh "Hans" in
  args_shape; implemented Hans;
  match type of Hans with context [let '(_, _) := ?c in _] => destruct c as [? ?] end;
  simpl in *; f_equal;
  first [ by apply reply_with_val
        | apply (reply_with_res _ RInt); [by eapply of_res_Crash|done] ].

(** A read that replies with a count or a value. *)
Ltac reading g :=
  let Hans := fresh "Hans" in
  args_shape; implemented Hans; f_equal;
  apply (reply_with_res _ g); [by eapply of_res_Crash|try done].

Lemma implements_LPush : implements cmd_LPush (many (λ k vs, OLPush k (map vBulk vs))).
Proof. mutation. Qed.

Lemma implements_RPush : implements cmd_RPush (many (λ k vs, ORPush k (map vBulk vs))).
Proof. mutation. Qed.

Lemma implements_LPop : implements cmd_LPop (one OLPop).
Proof. mutation. Qed.

Lemma implements_RPop : implements cmd_RPop (one ORPop).
Proof. mutation. Qed.

Lemma implements_LLen : implements cmd_LLen (one OLLen).
Proof. reading RInt. Qed.

Lemma implements_Get : implements cmd_Get (one OGet).
Proof. mutation. Qed.

Lemma implements_HDel : implements cmd_HDel (many (λ k fs, OHDel k (map arg fs))).
Proof. mutation. Qed.

Lemma implements_HLen : implements cmd_HLen (one OHLen).
Proof. reading RInt. Qed.

Lemma implements_SAdd : implements cmd_SAdd (many (λ k ms, OSAdd k (map vBulk ms))).
Proof. mutation. Qed.

Lemma implements_SRem : implements cmd_SRem (many (λ k ms, OSRem k (map vBulk ms))).
Proof. mutation. Qed.

Lemma implements_SCard : implements cmd_SCard (one OSCard).
Proof. reading RInt. Qed.

Lemma implements_HKeys : implements cmd_HKeys (one OHKeys).
Proof.
  reading (λ l : list slice, RBag (map content l)). intros l Hl. simpl. apply bulks_content.
  unfold DB_HKeys, read in Hl. repeat case_match; simplify_eq/=; [|done].
  apply Forall_forall. intros x (p & -> & _)%list_elem_of_fmap. by eexists.
Qed.

Lemma implements_HVals : implements cmd_HVals (one OHVals).
Proof.
  reading (λ l : list slice, RBag (map content l)). intros l Hl. simpl. apply bulks_content.
  unfold DB_HVals, read in Hl. destruct (peek _ _ _) as [e|] eqn:E; [|by simplify_eq/=].
  case_bool_decide; [done|]. simplify_eq/=. by eapply hash_values_Some.
Qed.

Lemma implements_SMembers : implements cmd_SMembers (one OSMembers).
Proof.
  reading (λ l : list slice, RBag (map content l)). intros l Hl. simpl. apply bulks_content.
  unfold DB_SMembers, read in Hl. repeat case_match; simplify_eq/=; [|done].
  apply Forall_forall. intros x (p & -> & _)%list_elem_of_fmap. by eexists.
Qed.

Lemma implements_Persist : implements cmd_Persist (one OPersist).
Proof. args_shape. split; [done|]. simpl. by destruct (DB_Persist _ _ _). Qed.

Lemma implements_HGetAll : implements cmd_HGetAll (one OHGetAll).
Proof.
  args_shape. implemented Hans. f_equal. destruct (DB_HGetAll _ _ _ _) as [[fs vs]|[]|] eqn:E; [|done|done].
  unfold DB_HGetAll, read in E. simpl.
  destruct (peek _ _ _) as [e|] eqn:Ep; [|by simplify_eq/=].
  case_bool_decide as K; [done|]. simplify_eq/=.
  pose proof (hash_values_Some o _ _ _ _ Hok Ep K) as Hv. revert Hv. clear.
  induction (range_map o (e_hash e)) as [|[f x] l IH]; intros Hv; simpl in *; [done|].
  apply Forall_cons in Hv as [[b ->] Hv]. specialize (IH Hv).
  destruct (interleave _ _) as [out|]; [|done]. injection IH as ->. done.
Qed.

Lemma implements_Set :
  implements cmd_Set (λ args, match args with
    | [k; v] => Some (OSet (arg k) (vBulk v), render) | _ => None end).
Proof. args_shape. by split. Qed.

Lemma implements_Del :
  implements cmd_Del (λ args, match args with
    | [] => None | _ => Some (ODel (map arg args), render) end).
Proof. args_shape. split; [done|]. simpl. unfold DB_Del. by destruct (del_loop _ _ _ _ _). Qed.

Lemma implements_Exists :
  implements cmd_Exists (λ args, match args with
    | [] => None | _ => Some (OExists (map arg args), render) end).
Proof. args_shape. by split. Qed.

Lemma implements_LRange :
  implements cmd_LRange (λ args, match args with
    | [k; a; b] =>
        match ParseInt (arg a), ParseInt (arg b) with
        | Some a, Some b => Some (OLRange (arg k) a b, render)
        | _, _ => None
        end
    | _ => None end).
Proof.
  args_shape. unfold cmd_LRange, Atoi.
  destruct (ParseInt (arg v0)) as [a|]; [|done]. destruct (ParseInt (arg v1)) as [b|]; [|done].
  injection Hden as <- <-. implemented Hans. f_equal.
  apply (reply_with_res _ (λ l : list slice, RList (map content l))); [by eapply of_res_Crash|].
  intros l Hl. by eapply bulks_content, LRange_Some.
Qed.

Lemma implements_HSet : implements cmd_HSet hset.
Proof.
  args_shape. destruct (Z.even (zlen (v0 :: args))) eqn:Hev; [|done].
  assert (2 ≤ zlen (v0 :: args)) as Hlen.
  { destruct args; [done|]. autorewrite with go_len. pose proof (zlen_nonneg args). lia. }
  destruct (split_pairs_ok _ Hlen) as [P1 P2].
  assert ((zlen (v :: v0 :: args) <? 3) || Z.even (zlen (v :: v0 :: args)) = false) as Hg.
  { apply orb_false_iff. split; [apply Z.ltb_ge; autorewrite with go_len in *; lia|].
    rewrite zlen_cons, Z.even_add, Hev. done. }
  unfold cmd_HSet. rewrite Hg. destruct (split_pairs (v0 :: args)) as [fs vs].
  injection Hden as <- <-. implemented Hans. destruct (DB_HSet _ _ _ _ _) as [db' r].
  simpl in *. f_equal. apply (reply_with_res _ RInt); [by eapply of_res_Crash|done].
Qed.

Lemma implements_HGet :
  implements cmd_HGet (λ args, match args with
    | [k; f] => Some (OHGet (arg k) (arg f), render) | _ => None end).
Proof. args_shape. implemented Hans. f_equal. by apply reply_with_val. Qed.

Lemma implements_SIsMember :
  implements cmd_SIsMember (λ args, match args with
    | [k; m] => Some (OSIsMember (arg k) (vBulk m), render) | _ => None end).
Proof. reading RBool. Qed.

Lemma implements_expire unit name : implements (expire_in unit name) (expire unit).
Proof.
  args_shape. unfold expire_in. destruct (ParseInt (arg v0)) as [n|]; [|done].
  injection Hden as <- <-. split; [done|]. simpl. by destruct (DB_Expire _ _ _ _ _).
Qed.

Lemma implements_ttl unit name : implements (ttl_in unit name) (ttl unit).
Proof.
  args_shape. split; [done|]. simpl. by destruct (DB_TTL _ _ _ _) as [[r []] []].
Qed.

(** * The table *)

Lemma denotes_implemented :
  Forall (λ c : bytes * meaning, ∃ f, assoc c.1 commands = Some f ∧ implements f c.2) denotes.
Proof.
  unfold denotes.
  repeat (apply Forall_cons; split; [cbn [fst snd]; eexists; split; [reflexivity|]|]);
    [..|by apply Forall_nil].
  - exact implements_Set.
  - exact implements_Get.
  - exact implements_Del.
  - exact implements_Exists.
  - exact implements_LPush.
  - exact implements_RPush.
  - exact implements_LPop.
  - exact implements_RPop.
  - exact implements_LLen.
  - exact implements_LRange.
  - exact implements_HSet.
  - exact implements_HGet.
  - exact implements_HDel.
  - exact implements_HGetAll.
  - exact implements_HKeys.
  - exact implements_HVals.
  - exact implements_HLen.
  - exact implements_SAdd.
  - exact implements_SRem.
  - exact implements_SIsMember.
  - exact implements_SMembers.
  - exact implements_SCard.
  - exact (implements_expire Second "expire").
  - exact (implements_expire Millisecond "pexpire").
  - exact (implements_ttl Second "ttl").
  - exact (implements_ttl Millisecond "pttl").
  - exact implements_Persist.
Qed.

Lemma denotes_command name den :
  assoc name denotes = Some den → ∃ f, assoc name commands = Some f ∧ implements f den.
Proof.
  intros E%assoc_elem. pose proof denotes_implemented as H. rewrite Forall_forall in H.
  by apply (H _ E).
Qed.

(** * Arguments without a meaning *)

Definition rejects (f : CmdFunc) (den : meaning) : Prop :=
  ∀ args, den args = None → ∃ msg, ∀ clk o db, f clk o db args = (db, Some (errorValue msg)).

Ltac rejected :=
  intros args Hden; unfold one, many, expire, ttl, hset in Hden;
  repeat (case_match; simplify_eq/=; try (eexists; intros clk o db; done));
  repeat match goal with
    | |- context [match ?l with [] => _ | _ => _ end] =>
        is_var l; destruct l; simplify_eq/=; try (eexists; intros clk o db; done)
    end.

Lemma rejects_HSet (k : Value) (rest : list Value) clk (o : map_order) db :
  Z.even (zlen rest) = false ∨ rest = [] →
  cmd_HSet clk o db (k :: rest) = (db, Some (wrongArgs "hset")).
Proof.
  intros H. unfold cmd_HSet. rewrite zlen_cons. destruct H as [H| ->]; [|done].
  rewrite Z.even_add, H. simpl. by rewrite orb_true_r.
Qed.

Lemma denotes_rejected :
  Forall (λ c : bytes * meaning, ∃ f, assoc c.1 commands = Some f ∧ rejects f c.2) denotes.
Proof.
  unfold denotes.
  repeat (apply Forall_cons; split; [cbn [fst snd]; eexists; split; [reflexivity|]|]);
    [..|by apply Forall_nil].
  all: try (unfold cmd_Expire, cmd_PExpire, cmd_TTL, cmd_PTTL; rejected; fail).
  - intros args Hden. unfold cmd_LRange, Atoi.
    repeat (case_match; simplify_eq/=; try (eexists; done)).
  - intros [|k [|v rest]] Hden; [by eexists..|]. unfold hset in Hden.
    exists (vStr (wrongArgs "hset")). intros clk o db. apply rejects_HSet. left.
    destruct (Z.even _); [|done]. by destruct (split_pairs (v :: rest)).
Qed.

Lemma denotes_reject name den :
  assoc name denotes = Some den → ∃ f, assoc name commands = Some f ∧ rejects f den.
Proof.
  intros E%assoc_elem. pose proof denotes_rejected as H. rewrite Forall_forall in H.
  by apply (H _ E).
Qed.

Lemma arg_bulk b : arg (BulkV (Some b)) = b.
Proof. done. Qed.

Lemma Dispatch_denotes `{GoUnicode} (o : map_order) t db first args den x rd :
  db_ok db →
  assoc (ToUpper (arg first)) denotes = Some den →
  den args = Some (x, rd) →
  let out := Dispatch (λ _, t) o db (ArrayV (Some (first :: args))) in
  let spec := spec_op t x (view t db) in
  db_ok out.1 ∧ view t out.1 = spec.1 ∧ ∃ r, out.2 = Some (rd r) ∧ reply_eq r spec.2.
Proof.
  intros Hok Hden Hx. destruct (denotes_command _ _ Hden) as (f & Hf & Himp).
  rewrite Dispatch_array, Hf.
  destruct (Himp o t db args x rd Hok Hx) as [Hxok ->].
  destruct (run_op_refines o t x db Hok Hxok) as (H1 & H2 & H3).
  split_and!; [done..|]. eexists. by split.
Qed.

(** * Properties *)

(** C4: every well-formed data command means its store operation: the
    name (in any letter case) and the arguments of the request determine an
    operation of the abstract specification, and [Dispatch] changes the live
    view of the keyspace and replies as that operation says, up to the
    unspecified order of map iteration.  All clock readings of the command
    fall on [t]. *)
Theorem dispatch_refines_spec `{GoUnicode} (o : map_order) t db first args den x rd :
  db_ok db →
  assoc (ToUpper (arg first)) denotes = Some den →
  den args = Some (x, rd) →
  let out := Dispatch (λ _, t) o db (ArrayV (Some (first :: args))) in
  let spec := spec_op t x (view t db) in
  db_ok out.1 ∧ view t out.1 = spec.1 ∧ ∃ r, out.2 = Some (rd r) ∧ reply_eq r spec.2.
Proof. apply Dispatch_denotes. Qed.

Lemma dispatch_refines_spec_witness :
  let out := @Dispatch plain_unicode (λ _, 7) order_rev newDB (request [B "sAdd"; B "s"; B "x"; B "x"]) in
  view 7 out.1 = (spec_op 7 (OSAdd (B "s") [Some (B "x"); Some (B "x")]) (view 7 newDB)).1.
Proof.
  eapply (@dispatch_refines_spec plain_unicode order_rev 7 newDB (BulkV (Some (B "sAdd")))
    [BulkV (Some (B "s")); BulkV (Some (B "x")); BulkV (Some (B "x"))] _
    (OSAdd (B "s") [Some (B "x"); Some (B "x")]) render newDB_ok).
  - reflexivity.
  - reflexivity.
Defined.

(** A data command whose arguments have no meaning (wrong number of
    them, an odd field/value list, a number that is not an [int64]) replies
    with an error and touches nothing. *)
Theorem dispatch_rejects_malformed `{GoUnicode} clk (o : map_order) db first args den :
  assoc (ToUpper (arg first)) denotes = Some den →
  den args = None →
  ∃ msg, Dispatch clk o db (ArrayV (Some (first :: args))) = (db, Some (errorValue msg)).
Proof.
  intros Hden Hx. destruct (denotes_reject _ _ Hden) as (f & Hf & Hrej).
  rewrite Dispatch_array, Hf. destruct (Hrej args Hx) as [msg Hmsg]. by exists msg.
Qed.

Lemma dispatch_rejects_malformed_witness :
  ∃ msg, @Dispatch plain_unicode (λ _, 0) order_id newDB
           (request [B "expire"; B "k"; B "9223372036854775808"]) = (newDB, Some (errorValue msg)).
Proof.
  eapply (@dispatch_rejects_malformed plain_unicode (λ _, 0) order_id newDB
    (BulkV (Some (B "expire"))) [BulkV (Some (B "k")); BulkV (Some (B "9223372036854775808"))]).
  - reflexivity.
  - reflexivity.
Defined.

(** A value stored by [SET] is what [GET] returns, byte for byte, for
    any key, any payload (CR, LF and NUL included) and any two moments, and
    whatever the key held before, a time to live included. *)
Theorem set_then_get `{GoUnicode} clk clk' (o o' : map_order) db k v set get :
  db_ok db → ToUpper set = B "SET" → ToUpper get = B "GET" →
  let db' := (Dispatch clk o db (request [set; k; v])).1 in
  Dispatch clk' o' db' (request [get; k]) = (db', Some (bulkValue (Some v))).
Proof.
  intros Hok Hs Hg. unfold request. cbn [map].
  rewrite !Dispatch_array. rewrite !arg_bulk.
  rewrite Hs, Hg. change (assoc (B "SET") commands) with (Some cmd_Set).
  change (assoc (B "GET") commands) with (Some cmd_Get). cbn -[DB_Set DB_Get].
  assert (shardFor (DB_Set db k (Some v)) k !! k = Some (stringEntry (Some v))) as E.
  { unfold DB_Set. rewrite shardFor_putShard by apply Hok. rewrite decide_True by done.
    apply lookup_insert_eq. }
  unfold DB_Get, get_read. by rewrite E.
Qed.

Lemma set_then_get_witness :
  let db' := (@Dispatch plain_unicode (λ _, 3) order_id newDB (request [B "set"; B "k"; CRLF])).1 in
  @Dispatch plain_unicode (λ _, 9) order_id db' (request [B "Get"; B "k"])
  = (db', Some (bulkValue (Some CRLF))).
Proof.
  apply (@set_then_get plain_unicode (λ _, 3) (λ _, 9) order_id order_id newDB (B "k") CRLF
           (B "set") (B "Get") newDB_ok); vm_compute; reflexivity.
Defined.
