(* ===== verification/CmdTypes.v ===== *)
(** The typing discipline of the data commands: each operation works on one
    kind of value, and the WRONGTYPE reply is exactly the case in which the
    live value under its key is of another kind. *)

From S2P Require Import Prelude GoLib Protocol PubSub Store Db Spec Refine Cmd CmdFacts CmdSpec.

(** * Which value an operation accepts *)

Definition is_str (v : aval) : bool := match v with AStr _ => true | _ => false end.
Definition is_list (v : aval) : bool := match v with AList _ => true | _ => false end.
Definition is_hash (v : aval) : bool := match v with AHash _ => true | _ => false end.
Definition is_set (v : aval) : bool := match v with ASet _ => true | _ => false end.

(** The key an operation is typed at and the values it accepts there;
    [None] for the operations that work on every type. *)
Definition op_type (x : op) : option (bytes * (aval → bool)) :=
  match x with
  | OGet k => Some (k, is_str)
  | OLPush k _ | ORPush k _ | OLPop k | ORPop k | OLLen k | OLRange k _ _ => Some (k, is_list)
  | OHSet k _ _ | OHGet k _ | OHDel k _ | OHGetAll k | OHKeys k | OHVals k | OHLen k => Some (k, is_hash)
  | OSAdd k _ | OSRem k _ | OSIsMember k _ | OSMembers k | OSCard k => Some (k, is_set)
  | OSet _ _ | ODel _ | OExists _ | OExpire _ _ | OPersist _ | OTTL _ => None
  end.

(** The live value under the operation's key is not one it accepts. *)
Definition type_clash (x : op) (m : astate) : Prop :=
  ∃ k accepts e, op_type x = Some (k, accepts) ∧ m !! k = Some e ∧ accepts (a_val e) = false.

(** * Facts *)

Lemma spec_wrong_type t x m :
  (spec_op t x m).2 = RWrongType ↔ type_clash x m.
Proof.
  unfold type_clash. split.
  - intros E. destruct x; cbn [op_type]; cbn [spec_op] in E; try done;
      unfold spec_read, spec_push, spec_pop, spec_hash, spec_set in E; cbn [snd] in E;
      match type of E with context [m !! ?k] => destruct (m !! k) as [[[] ex]|] eqn:Hk end;
      try (eexists _, _, _; split_and!; [reflexivity|exact Hk|reflexivity]; fail);
      exfalso; clear Hk; simpl in E; repeat case_match; simplify_eq/=; done.
  - intros (k & acc & e & Hx & Hk & Ha). destruct x; simplify_eq/=;
      unfold spec_read, spec_push, spec_pop, spec_hash, spec_set; rewrite Hk; by destruct e as [[] ?].
Qed.

Lemma spec_clash_keeps t x m : type_clash x m → (spec_op t x m).1 = m.
Proof.
  intros (k & acc & e & Hx & Hk & Ha). destruct x; simplify_eq/=;
    unfold spec_read, spec_push, spec_pop, spec_hash, spec_set; rewrite ?Hk; by destruct e as [[] ?].
Qed.

Lemma denotes_render :
  Forall (λ c : bytes * meaning, ∀ args x rd, c.2 args = Some (x, rd) →
            rd = render ∨ (∃ unit, rd = render_ttl unit) ∧ op_type x = None) denotes.
Proof.
  unfold denotes, one, many, expire, ttl, hset.
  repeat (apply Forall_cons; split; [cbn [snd]; intros args x rd E|]); [..|by apply Forall_nil].
  all: repeat case_match; simplify_eq; eauto.
Qed.

(** No reply but the type error is rendered as one. *)
Lemma render_wrong_type r : render r = replyForErr ErrWrongType ↔ r = RWrongType.
Proof. split; [|by intros ->]. destruct r as [| | | |[]| | | | | | |]; try done; by vm_compute. Qed.

Lemma render_ttl_wrong_type unit r : render_ttl unit r ≠ replyForErr ErrWrongType.
Proof. by destruct r. Qed.

Lemma reply_eq_wrong_type r r' : reply_eq r r' → (r = RWrongType ↔ r' = RWrongType).
Proof. destruct r, r'; simpl; try done; intros; simplify_eq; done. Qed.

(** * Properties *)

(** C23: the store is well typed: a data command answers WRONGTYPE exactly
    when it works on one type only and the live value under its key is of
    another type (an expired value is no value); it then changes nothing.
    The commands that work on every type never answer it. *)
Theorem wrongtype_exact `{GoUnicode} (o : map_order) t db first args den x rd :
  db_ok db → assoc (ToUpper (arg first)) denotes = Some den → den args = Some (x, rd) →
  let out := Dispatch (λ _, t) o db (ArrayV (Some (first :: args))) in
  (out.2 = Some (replyForErr ErrWrongType) ↔ type_clash x (view t db)) ∧
  (type_clash x (view t db) → view t out.1 = view t db).
Proof.
  intros Hok Hden Hx.
  destruct (Dispatch_denotes o t db first args den x rd Hok Hden Hx) as (_ & Hv & r & Hr & Heq).
  pose proof denotes_render as Hd. rewrite Forall_forall in Hd.
  specialize (Hd _ (assoc_elem _ _ _ Hden) args x rd Hx). cbn zeta. split.
  - rewrite Hr, <-(spec_wrong_type t), <-(reply_eq_wrong_type _ _ Heq). destruct Hd as [->|[[unit ->] Hn]].
    + rewrite <-(render_wrong_type r). split; [by intros [= ?]|by intros ->].
    + split; [intros [= E]; by destruct (render_ttl_wrong_type unit r)|].
      intros E%(reply_eq_wrong_type _ _ Heq)%spec_wrong_type. destruct E as (k & acc & e & E & _). congruence.
  - intros Hc. by rewrite Hv, spec_clash_keeps.
Qed.

Lemma wrongtype_exact_witness :
  let out := @Dispatch plain_unicode (λ _, 3) order_id sample_store (request [B "hget"; B "l"; B "f"]) in
  out.2 = Some (replyForErr ErrWrongType) ∧ view 3 out.1 = view 3 sample_store.
Proof.
  destruct (@wrongtype_exact plain_unicode order_id 3 sample_store (BulkV (Some (B "hget")))
    [BulkV (Some (B "l")); BulkV (Some (B "f"))] _ (OHGet (B "l") (B "f")) render sample_store_ok
    eq_refl eq_refl) as [Hw Hk].
  assert (type_clash (OHGet (B "l") (B "f")) (view 3 sample_store)) as Hc.
  { exists (B "l"), is_hash, (mkA (AList [B "a"; B "b"; B "c"]) None).
    split; [reflexivity|]. split; [vm_compute; reflexivity|reflexivity]. }
  split; [exact (proj2 Hw Hc)|exact (Hk Hc)].
Defined.
