(* ===== verification/CmdExpire.v ===== *)
(** Deadlines at the command level: what [EXPIRE] sets is what [TTL] and
    [PTTL] report, a deadline is honoured to the nanosecond, and where the
    64-bit duration arithmetic of the handlers stops meaning that.  Also
    the framing of the unknown-command reply. *)

From S2P Require Import Prelude GoLib Protocol ProtocolFacts PubSub Store Db Spec Refine Expiry.
From S2P Require Import History Cmd CmdFacts CmdSpec.

(** * Facts *)

(** The store after a successful [EXPIRE] of a live key, seen at a later
    instant. *)
Lemma expire_in_effect unit name (o : map_order) t0 db k n a :
  db_ok db → int64 n → 0 < dur_mul n unit → view t0 db !! k = Some a →
  let out := expire_in unit name (λ _, t0) o db [BulkV (Some k); BulkV (Some (FormatInt n))] in
  out.2 = Some (integerValue 1) ∧ db_ok out.1 ∧
  ∀ t, t0 ≤ t →
    view t out.1 !! k = if decide (t < t0 + dur_mul n unit)
                        then Some (mkA (a_val a) (Some (t0 + dur_mul n unit))) else None.
Proof.
  intros Hok Hn Hd Ha.
  destruct (implements_expire unit name o t0 db
    [BulkV (Some k); BulkV (Some (FormatInt n))] (OExpire k (dur_mul n unit)) render Hok)
    as [_ E].
  { unfold expire. by rewrite !arg_bulk, ParseInt_FormatInt. }
  destruct (run_op_refines o t0 (OExpire k (dur_mul n unit)) db Hok I) as (Hok' & Hv & Hr).
  cbn zeta. rewrite E. clear E. destruct (run_op _ _ _ _) as [db' r]. cbn [fst snd] in *.
  cbn [spec_op] in Hv, Hr. rewrite Ha in Hv, Hr. cbn [fst snd] in *.
  rewrite (proj2 (Z.leb_gt _ _)) in Hv by lia.
  split_and!; [destruct r; by simplify_eq/=|done|]. intros t Ht.
  rewrite (view_ages t0) by done. rewrite purge_lookup, Hv, lookup_insert_eq. simpl.
  unfold alive. simpl. by repeat case_decide.
Qed.

(** [TTL] and [PTTL] of a live key with a deadline. *)
Lemma ttl_in_live unit name (o : map_order) t db k v x :
  db_ok db → view t db !! k = Some (mkA v (Some x)) →
  ttl_in unit name (λ _, t) o db [BulkV (Some k)]
  = (db, Some (integerValue (Z.quot (wrap64 (time_sub x t + Z.quot unit 2)) unit))).
Proof.
  intros Hok Hv.
  destruct (implements_ttl unit name o t db [BulkV (Some k)] (OTTL k) (render_ttl unit) Hok)
    as [_ ->]; [done|].
  destruct (refine_TTL t db k Hok) as (_ & _ & Hr). cbn [spec_op] in Hr. rewrite Hv in Hr.
  cbn [run_op fst snd] in *. destruct (DB_TTL db k t t) as [[rem []] []]; by simplify_eq/=.
Qed.

(** A store with one live string key, for concrete runs. *)
Definition one_key : DB := DB_Set newDB (B "k") (Some (B "v")).

Lemma one_key_ok : db_ok one_key.
Proof. apply (run_op_answers order_id 0 (OSet (B "k") (Some (B "v"))) newDB newDB_ok I). Qed.

Lemma one_key_view t : view t one_key !! B "k" = Some (mkA (AStr (B "v")) None).
Proof.
  destruct (refine_Set t newDB (B "k") (Some (B "v")) newDB_ok) as (_ & Hv & _).
  cbn [fst snd] in Hv. unfold one_key. rewrite Hv. apply lookup_insert_eq.
Qed.

(** * Properties *)

(** A time to live set by [EXPIRE] or [PEXPIRE] on a live key is the
    one [TTL] or [PTTL] reports at any later instant before the deadline,
    rounded half up to the unit asked for, as long as the deadline and the
    rounding stay within a 64-bit duration; setting it replies 1. *)
Theorem expire_then_ttl unit unit' name name' (o o' : map_order) t0 t db k n a :
  db_ok db → view t0 db !! k = Some a →
  unit ∈ [Second; Millisecond] → unit' ∈ [Second; Millisecond] →
  0 < n → n * unit + unit' ≤ max_int64 →
  t0 ≤ t < t0 + n * unit →
  let args := [BulkV (Some k); BulkV (Some (FormatInt n))] in
  let db' := (expire_in unit name (λ _, t0) o db args).1 in
  (expire_in unit name (λ _, t0) o db args).2 = Some (integerValue 1) ∧
  ttl_in unit' name' (λ _, t) o' db' [BulkV (Some k)]
  = (db', Some (integerValue ((n * unit - (t - t0) + unit' / 2) / unit'))).
Proof.
  intros Hok Ha Hu Hu' Hn Hmax Ht. cbn zeta.
  assert (0 < unit ∧ 0 < unit') as [Pu Pu'] by (set_unfold; unfold Second, Millisecond in *; lia).
  assert (n ≤ n * unit) by nia.
  assert (dur_mul n unit = n * unit) as Hd
    by (apply wrap64_id; unfold int64, min_int64, max_int64 in *; lia).
  destruct (expire_in_effect unit name o t0 db k n a Hok) as (H1 & H2 & H3);
    [unfold int64, min_int64, max_int64 in *; lia|rewrite Hd; lia|done|].
  split; [exact H1|]. rewrite Hd in H3. specialize (H3 t).
  rewrite decide_True in H3 by lia.
  rewrite (ttl_in_live _ _ _ _ _ _ (a_val a) (t0 + n * unit)) by (done || apply H3; lia).
  do 3 f_equal. unfold time_sub.
  rewrite !(proj2 (Z.ltb_ge _ _)) by (unfold min_int64, max_int64 in *; lia).
  pose proof (Z.div_lt unit' 2). pose proof (Z.div_pos unit' 2).
  rewrite (Z.quot_div_nonneg unit') by lia.
  rewrite wrap64_id by (unfold int64, min_int64, max_int64 in *; lia).
  rewrite Z.quot_div_nonneg by lia. f_equal. lia.
Qed.

Lemma expire_then_ttl_witness :
  let args := [BulkV (Some (B "k")); BulkV (Some (FormatInt 10))] in
  let db' := (expire_in Second "expire" (λ _, 5) order_id one_key args).1 in
  (expire_in Second "expire" (λ _, 5) order_id one_key args).2 = Some (integerValue 1) ∧
  ttl_in Second "ttl" (λ _, 2000000005) order_id db' [BulkV (Some (B "k"))]
  = (db', Some (integerValue ((10 * Second - (2000000005 - 5) + Second / 2) / Second))).
Proof.
  apply (expire_then_ttl Second Second "expire" "ttl" order_id order_id 5 2000000005 one_key (B "k") 10
           (mkA (AStr (B "v")) None) one_key_ok (one_key_view 5)).
  - constructor.
  - constructor.
  - lia.
  - vm_compute. congruence.
  - unfold Second. lia.
Defined.

(** A deadline is honoured exactly: from [EXPIRE] or [PEXPIRE] on, the
    key is in the live view, with its value, at every instant strictly
    before the deadline, and at no instant from the deadline on. *)
Theorem expire_deadline_exact unit name (o : map_order) t0 db k n a :
  db_ok db → view t0 db !! k = Some a → int64 n → 0 < dur_mul n unit →
  let db' := (expire_in unit name (λ _, t0) o db
                [BulkV (Some k); BulkV (Some (FormatInt n))]).1 in
  ∀ t, t0 ≤ t →
    a_val <$> view t db' !! k = if decide (t < t0 + dur_mul n unit) then Some (a_val a) else None.
Proof.
  intros Hok Ha Hn Hd. cbn zeta. intros t Ht.
  destruct (expire_in_effect unit name o t0 db k n a Hok Hn Hd Ha) as (_ & _ & H3).
  rewrite (H3 t Ht). by case_decide.
Qed.

Lemma expire_deadline_exact_witness :
  a_val <$> view 1000000005 (expire_in Millisecond "pexpire" (λ _, 5) order_id one_key
                        [BulkV (Some (B "k")); BulkV (Some (FormatInt 1000))]).1 !! B "k"
  = if decide (1000000005 < 5 + dur_mul 1000 Millisecond) then Some (AStr (B "v")) else None.
Proof.
  apply (expire_deadline_exact Millisecond "pexpire" order_id 5 one_key (B "k") 1000
           (mkA (AStr (B "v")) None) one_key_ok (one_key_view 5)).
  - vm_compute. split; congruence.
  - vm_compute. reflexivity.
  - lia.
Defined.

(** The duration multiplication of [EXPIRE] wraps: asking for a time to
    live of 9223372037 seconds (about 292 years, a number the handler
    accepts) replies 1 and removes the key at once. *)
Theorem expire_overflow_deletes (o : map_order) t db k a :
  db_ok db → view t db !! k = Some a →
  let out := cmd_Expire (λ _, t) o db [BulkV (Some k); BulkV (Some (B "9223372037"))] in
  out.2 = Some (integerValue 1) ∧ view t out.1 = delete k (view t db).
Proof.
  intros Hok Ha.
  destruct (implements_expire Second "expire" o t db
    [BulkV (Some k); BulkV (Some (B "9223372037"))]
    (OExpire k (dur_mul 9223372037 Second)) render Hok eq_refl) as [_ E].
  destruct (run_op_refines o t (OExpire k (dur_mul 9223372037 Second)) db Hok I) as (_ & Hv & Hr).
  cbn zeta. unfold cmd_Expire. rewrite E. clear E.
  destruct (run_op _ _ _ _) as [db' r]. cbn [fst snd spec_op] in *. rewrite Ha in *.
  split; [by destruct r; simplify_eq/=|]. exact Hv.
Qed.

Lemma expire_overflow_deletes_witness :
  (cmd_Expire (λ _, 1) order_id one_key [BulkV (Some (B "k")); BulkV (Some (B "9223372037"))]).2
  = Some (integerValue 1).
Proof.
  apply (expire_overflow_deletes order_id 1 one_key (B "k") (mkA (AStr (B "v")) None)
           one_key_ok (one_key_view 1)).
Defined.

(** The rounding of [ttlReply] wraps: after [PEXPIRE k 9223372036854]
    (accepted, and the deadline is stored correctly) [TTL k] replies
    -9223372036 although the key is live with a deadline. *)
Theorem ttl_rounding_overflow (o : map_order) t db k a :
  db_ok db → view t db !! k = Some a →
  let db' := (cmd_PExpire (λ _, t) o db
                [BulkV (Some k); BulkV (Some (FormatInt 9223372036854))]).1 in
  view t db' !! k = Some (mkA (a_val a) (Some (t + 9223372036854000000))) ∧
  (cmd_TTL (λ _, t) o db' [BulkV (Some k)]).2 = Some (integerValue (-9223372036)).
Proof.
  intros Hok Ha. cbn zeta. unfold cmd_PExpire, cmd_TTL.
  destruct (expire_in_effect Millisecond "pexpire" o t db k 9223372036854 a Hok) as (_ & Hok' & H);
    [vm_compute; split; congruence|vm_compute; reflexivity|done|].
  specialize (H t ltac:(lia)).
  change (dur_mul 9223372036854 Millisecond) with 9223372036854000000 in H.
  rewrite decide_True in H by lia. split; [done|].
  rewrite (ttl_in_live _ _ _ _ _ _ _ _ Hok' H). cbn [snd].
  replace (time_sub _ t) with 9223372036854000000; [done|].
  unfold time_sub. rewrite Z.add_simpl_l. done.
Qed.

Lemma ttl_rounding_overflow_witness :
  (cmd_TTL (λ _, 1) order_id (cmd_PExpire (λ _, 1) order_id one_key
     [BulkV (Some (B "k")); BulkV (Some (FormatInt 9223372036854))]).1 [BulkV (Some (B "k"))]).2
  = Some (integerValue (-9223372036)).
Proof.
  apply (ttl_rounding_overflow order_id 1 one_key (B "k") (mkA (AStr (B "v")) None)
           one_key_ok (one_key_view 1)).
Defined.

(** The unknown-command reply is not escaped: a command name that holds
    CR LF (a bulk string may) gives an error line that a client decodes as
    a shorter error and then reads the rest of the name as further frames,
    here a forged [+OK]. *)
Theorem unknown_command_reply_splits `{GoUnicode} clk (o : map_order) db :
  let name := B "A" ++ CRLF ++ B "+OK" ++ CRLF in
  ∃ v, (Dispatch clk o db (request [name])).2 = Some v ∧
    decode (mkReader (encode v) EOF)
    = Ok (ErrorV (B "ERR unknown command 'A")) (mkReader (B "+OK" ++ CRLF ++ B "'" ++ CRLF) EOF) ∧
    decode (mkReader (B "+OK" ++ CRLF ++ B "'" ++ CRLF) EOF)
    = Ok okValue (mkReader (B "'" ++ CRLF) EOF).
Proof.
  cbn zeta. eexists. split; [reflexivity|].
  split; vm_compute; reflexivity.
Qed.
