(* ===== verification/Replay.v ===== *)
(** [internal/persistence/replay.go]: reading a log back, and what it
    recovers from a log of complete frames with a torn tail. *)

From S2P Require Import Prelude GoLib Protocol ProtocolFacts.

(** How [Replay] ended: [Finished] is a nil error; [NoFuel] an artefact of
    the bounded loop. *)
Inductive replay_end :=
  | Finished
  | OpenFailed
  | BadLog (e : error)
  | ApplyFailed
  | ReplayPanic
  | NoFuel.

(** What [os.Open] finds at the path. *)
Inductive log_file :=
  | Missing
  | Unreadable
  | Contents (r : Reader).

Section Replay.
Context {St : Type} (apply : Value → St → St * bool).

(** The loop: [apply] returns the caller's state and whether the error is nil. *)
Fixpoint replay_loop (fuel : nat) (r : Reader) (s : St) (applied : Z) : St * Z * replay_end :=
  match fuel with
  | O => (s, applied, NoFuel)
  | S f =>
      match decode r with
      | Err EOF => (s, applied, Finished)
      | Err ErrUnexpectedEOF => (s, applied, Finished)
      | Err e => (s, applied, BadLog e)
      | Panic => (s, applied, ReplayPanic)
      | OutOfFuel => (s, applied, NoFuel)
      | Ok cmd r' =>
          let '(s, ok) := apply cmd s in
          if negb ok then (s, applied, ApplyFailed)
          else replay_loop f r' s (applied + 1)
      end
  end.

(** Every frame takes at least one byte, so the length of the log bounds the
    number of iterations. *)
Definition Replay (f : log_file) (s : St) : St * Z * replay_end :=
  match f with
  | Missing => (s, 0, Finished)
  | Unreadable => (s, 0, OpenFailed)
  | Contents r => replay_loop (S (length (rbuf r))) r s 0
  end.

(** The state after applying commands in order, none of which fails. *)
Definition apply_all (cmds : list Value) (s : St) : St := foldl (λ s c, (apply c s).1) s cmds.
End Replay.

(** The end of a log: nothing, or a frame cut strictly inside. *)
Definition torn (tail : bytes) : Prop :=
  tail = [] ∨ ∃ v, wire_ok v ∧ tail `prefix_of` encode v ∧ tail ≠ encode v ∧ tail ≠ [].

Lemma decode_tail tail :
  torn tail →
  decode (mkReader tail EOF) = Err EOF ∨ decode (mkReader tail EOF) = Err ErrUnexpectedEOF.
Proof.
  intros [->|(v & Hv & Hp & Hne & Hnil)]; [by left|]. right. by eapply decode_torn.
Qed.

Section facts.
Context {St : Type} (apply : Value → St → St * bool).

Lemma replay_loop_fuel fuel r s n :
  (length (rbuf r) < fuel)%nat → (replay_loop apply fuel r s n).2 ≠ NoFuel.
Proof.
  revert r s n. induction fuel as [|f IH]; intros r s n Hf; [lia|]. simpl.
  destruct (decode r) as [cmd r'|e| |] eqn:E.
  - apply decode_consumes in E. destruct (apply cmd s) as [s' []]; simpl; [|done].
    apply IH. lia.
  - by destruct e.
  - done.
  - by apply Decode_enough_fuel in E; [|lia].
Qed.

(** More fuel than that changes nothing. *)
Lemma replay_loop_enough fuel fuel' r s n :
  (length (rbuf r) < fuel)%nat → (length (rbuf r) < fuel')%nat →
  replay_loop apply fuel r s n = replay_loop apply fuel' r s n.
Proof.
  revert fuel' r s n. induction fuel as [|fuel IH]; intros fuel' r s n Hf Hf'; [lia|].
  destruct fuel' as [|fuel']; [lia|]. simpl. destruct (decode r) as [c r'| | |] eqn:E; try done.
  apply decode_consumes in E. destruct (apply c s) as [s' []]; simpl; [|done]. apply IH; lia.
Qed.

(** Complete frames are applied before the bytes that follow are looked at. *)
Lemma replay_loop_app fuel fuel' cmds rest s n :
  Forall wire_ok cmds → (∀ c s, (apply c s).2 = true) →
  (length (encode_all cmds ++ rest) < fuel)%nat → (length rest < fuel')%nat →
  replay_loop apply fuel (mkReader (encode_all cmds ++ rest) EOF) s n
  = replay_loop apply fuel' (mkReader rest EOF) (apply_all apply cmds s) (n + zlen cmds).
Proof.
  intros Hc Ha. revert fuel s n. induction Hc as [|c cmds Hw _ IH]; intros fuel s n Hf Hf'.
  - simpl in *. rewrite zlen_nil, Z.add_0_r. by apply replay_loop_enough.
  - unfold encode_all in *. cbn [map concat] in *. rewrite <-app_assoc in *.
    destruct fuel as [|fuel]; [lia|]. cbn [replay_loop]. rewrite decode_encode by done. pose proof (Ha c s) as Hok.
    destruct (apply c s) as [s' ok] eqn:E. simpl in Hok. subst ok. cbn [negb].
    rewrite IH; [|rewrite !length_app in *; pose proof (encode_nonempty c Hw); destruct (encode c); simpl in *; [done|lia]|done].
    cbn [apply_all foldl]. rewrite zlen_cons, E. simpl. f_equal. lia.
Qed.

Lemma replay_loop_count fuel r s n :
  replay_loop apply fuel r s n
  = let '(s', k, e) := replay_loop apply fuel r s 0 in (s', n + k, e).
Proof.
  revert r s n. induction fuel as [|fuel IH]; intros r s n; simpl; [by rewrite Z.add_0_r|].
  destruct (decode r) as [c r'|[]| |]; try by rewrite Z.add_0_r.
  destruct (apply c s) as [s' []]; simpl; [|by rewrite Z.add_0_r].
  rewrite (IH r' s' (n + 1)), (IH r' s' (0 + 1)). destruct (replay_loop apply fuel r' s' 0) as [[? ?] ?]. do 2 f_equal. lia.
Qed.

Lemma Replay_app cmds rest s :
  Forall wire_ok cmds → (∀ c s, (apply c s).2 = true) →
  Replay apply (Contents (mkReader (encode_all cmds ++ rest) EOF)) s
  = let '(s', n, e) := Replay apply (Contents (mkReader rest EOF)) (apply_all apply cmds s) in
    (s', zlen cmds + n, e).
Proof.
  intros Hc Ha. cbn [Replay rbuf]. rewrite (replay_loop_app _ (S (length rest))) by (done || lia).
  apply replay_loop_count.
Qed.

Lemma Replay_all cmds tail s :
  Forall wire_ok cmds → torn tail → (∀ c s, (apply c s).2 = true) →
  Replay apply (Contents (mkReader (encode_all cmds ++ tail) EOF)) s
  = (apply_all apply cmds s, zlen cmds, Finished).
Proof.
  intros Hc Ht Ha. rewrite Replay_app by done. cbn [Replay rbuf replay_loop].
  by destruct (decode_tail tail Ht) as [-> | ->]; rewrite Z.add_0_r.
Qed.
End facts.

(** An invariant of the caller's state survives any log. *)
Lemma Replay_inv {St} (apply : Value → St → St * bool) (P : St → Prop) f s :
  (∀ c s, P s → P (apply c s).1) → P s → P (Replay apply f s).1.1.
Proof.
  intros Hstep. destruct f as [| |r]; [done..|]. cbn [Replay]. generalize (S (length (rbuf r))) 0.
  intros fuel. revert r s. induction fuel as [|fuel IH]; intros r s n Hs; [done|]. cbn [replay_loop].
  destruct (decode r) as [c r'|[]| |]; try done. pose proof (Hstep c s Hs) as Hs'.
  destruct (apply c s) as [s' []]; [by apply IH|done].
Qed.

(** * Properties *)

(** C24: replay of a log that holds complete frames, possibly followed by
    one torn frame, applies exactly the complete commands, each once and in
    order, reports how many, and is not an error. *)
Theorem replay_applies_log {St} (apply : Value → St → St * bool) cmds tail s :
  Forall wire_ok cmds → torn tail → (∀ c s, (apply c s).2 = true) →
  Replay apply (Contents (mkReader (encode_all cmds ++ tail) EOF)) s
  = (apply_all apply cmds s, zlen cmds, Finished).
Proof. apply Replay_all. Qed.

Lemma replay_applies_log_witness :
  Replay (λ c l, (l ++ [c], true))
    (Contents (mkReader (encode_all [ArrayV (Some [BulkV (Some (B "PING"))]); IntegerV 3]
                         ++ B "*1" ++ CRLF ++ B "$4") EOF)) []
  = (apply_all (λ c l, (l ++ [c], true)) [ArrayV (Some [BulkV (Some (B "PING"))]); IntegerV 3] [],
     2, Finished).
Proof.
  apply (replay_applies_log (λ c l, (l ++ [c], true))
           [ArrayV (Some [BulkV (Some (B "PING"))]); IntegerV 3] (B "*1" ++ CRLF ++ B "$4") []).
  - repeat constructor; vm_compute; congruence.
  - right. exists (ArrayV (Some [BulkV (Some (B "PING"))])). split.
    + repeat constructor; vm_compute; congruence.
    + split; [exists (CRLF ++ B "PING" ++ CRLF); vm_compute; reflexivity|].
      split; vm_compute; congruence.
  - intros c l. reflexivity.
Defined.

(** Replay terminates on every file and every way of applying
    commands: within one iteration per byte of the log, plus one, it has
    reached a result. *)
Theorem replay_terminates {St} (apply : Value → St → St * bool) f s :
  (Replay apply f s).2 ≠ NoFuel.
Proof. destruct f as [| |r]; [done..|]. apply replay_loop_fuel. lia. Qed.
