(* ===== verification/Aof.v ===== *)
(** [internal/persistence/aof.go]: the append-only log over a file system.

    A file is an inode with the bytes the kernel holds and the prefix of
    them known to be on the disk ([durable]); a directory maps paths to
    inodes, so an open handle keeps its inode after a rename replaced the
    path.  Every system call the code makes takes its outcome as an
    argument.  A [bufio.Writer] is the bytes not yet handed to the kernel
    and its sticky error; how the kernel calls split those bytes is not
    modelled, only that a failing one leaves a prefix of them in the file. *)

From S2P Require Import Prelude GoLib Protocol ProtocolFacts.

(** * FsyncMode *)

Inductive FsyncMode := FsyncEverySec | FsyncAlways | FsyncNo.

#[global] Instance FsyncMode_eq_dec : EqDecision FsyncMode.
Proof. solve_decision. Defined.

Definition FsyncMode_String (m : FsyncMode) : string :=
  match m with
  | FsyncAlways => "always"
  | FsyncEverySec => "everysec"
  | FsyncNo => "no"
  end.

Definition ParseFsyncMode (s : string) : option FsyncMode :=
  if String.eqb s "always" then Some FsyncAlways
  else if String.eqb s "everysec" then Some FsyncEverySec
  else if String.eqb s "no" then Some FsyncNo
  else None.

(** * The file system *)

Record Inode := mkInode { idata : bytes; idurable : nat }.

(** [aofBytes] is the [aof_bytes_written] counter. *)
Record World := mkWorld {
  inodes : list Inode;
  dir : gmap bytes nat;
  aofBytes : Z
}.

Definition inode (w : World) (i : nat) : Inode := default (mkInode [] 0) (inodes w !! i).

Definition file (w : World) (path : bytes) : option bytes :=
  match dir w !! path with None => None | Some i => Some (idata (inode w i)) end.

Definition set_inode (w : World) (i : nat) (n : Inode) : World :=
  mkWorld (<[i := n]> (inodes w)) (dir w) (aofBytes w).

(** [write]s of [p] to an [O_APPEND] handle: all of it, or ([Some n]) the
    first [n] bytes and then an error. *)
Definition fwrite (w : World) (i : nat) (p : bytes) (accept : option nat) : World * bool :=
  let n := inode w i in
  match accept with
  | None => (set_inode w i (mkInode (idata n ++ p) (idurable n)), true)
  | Some k => (set_inode w i (mkInode (idata n ++ take k p) (idurable n)), false)
  end.

Definition fsync (w : World) (i : nat) (ok : bool) : World * bool :=
  let n := inode w i in
  if ok then (set_inode w i (mkInode (idata n) (length (idata n))), true) else (w, false).

(** [os.OpenFile] with [O_CREATE]: the path's inode, made when missing. *)
Definition open_create (w : World) (path : bytes) : World * nat :=
  match dir w !! path with
  | Some i => (w, i)
  | None =>
      let i := length (inodes w) in
      (mkWorld (inodes w ++ [mkInode [] 0]) (<[path := i]> (dir w)) (aofBytes w), i)
  end.

(** With [O_TRUNC] too. *)
Definition open_trunc (w : World) (path : bytes) : World * nat :=
  let '(w, i) := open_create w path in (set_inode w i (mkInode [] 0), i).

Definition remove (w : World) (path : bytes) : World :=
  mkWorld (inodes w) (delete path (dir w)) (aofBytes w).

Definition rename (w : World) (src dst : bytes) : World :=
  match dir w !! src with
  | Some i => mkWorld (inodes w) (<[dst := i]> (delete src (dir w))) (aofBytes w)
  | None => w
  end.

(** * The AOF *)

(** [a_counted] says whether the buffer writes through [countingWriter];
    [a_ticking] whether the everysec goroutine runs ([a.stop] is open). *)
Record AOF := mkAOF {
  a_f : nat;
  a_buf : bytes;
  a_err : bool;
  a_counted : bool;
  a_mode : FsyncMode;
  a_baseSize : Z;
  a_ticking : bool
}.

Definition rewriteGrowthFactor : Z := 2.
Definition minRewriteSize : Z := 64 * 1024.

Definition Open (w : World) (path : bytes) (mode : FsyncMode) (open_ok stat_ok : bool)
    : World * option AOF :=
  if negb open_ok then (w, None)
  else
    let '(w, i) := open_create w path in
    let base := if stat_ok then zlen (idata (inode w i)) else 0 in
    (w, Some (mkAOF i [] false true mode base (bool_decide (mode = FsyncEverySec)))).

(** [a.w.Flush]: a buffer in error accepts nothing more. *)
Definition Flush (w : World) (a : AOF) (accept : option nat) : World * AOF * bool :=
  if a_err a then (w, a, false)
  else
    let '(w', ok) := fwrite w (a_f a) (a_buf a) accept in
    let written := zlen (idata (inode w' (a_f a))) - zlen (idata (inode w (a_f a))) in
    let bytes' := if a_counted a then aofBytes w' + written else aofBytes w' in
    (mkWorld (inodes w') (dir w') bytes',
     mkAOF (a_f a) (if ok then [] else a_buf a) (negb ok) (a_counted a) (a_mode a)
           (a_baseSize a) (a_ticking a),
     ok).

(** [protocol.Encode(a.w, cmd)]: the bytes reach the buffer even when the
    value turns out not to be encodable. *)
Definition buffer (a : AOF) (p : bytes) : AOF :=
  mkAOF (a_f a) (a_buf a ++ p) (a_err a) (a_counted a) (a_mode a) (a_baseSize a) (a_ticking a).

Definition Append (w : World) (a : AOF) (cmd : Value) (accept : option nat) (sync_ok : bool)
    : World * AOF * bool :=
  if a_err a then (w, a, false)
  else
    let '(out, err) := Encode cmd in
    let a := buffer a out in
    match err with
    | Some _ => (w, a, false)
    | None =>
        let '(w, a, ok) := Flush w a accept in
        if negb ok then (w, a, false)
        else if bool_decide (a_mode a = FsyncAlways)
        then let '(w, ok) := fsync w (a_f a) sync_ok in (w, a, ok)
        else (w, a, true)
    end.

(** One tick of [syncEverySec]. *)
Definition syncEverySec_tick (w : World) (a : AOF) (sync_ok : bool) : World :=
  (fsync w (a_f a) sync_ok).1.

Definition sizeLocked (w : World) (a : AOF) (stat_ok : bool) : option Z :=
  if stat_ok then Some (zlen (idata (inode w (a_f a)))) else None.

Definition Size (w : World) (a : AOF) (stat_ok : bool) : option Z := sizeLocked w a stat_ok.

Definition ShouldRewrite (w : World) (a : AOF) (stat_ok : bool) : bool :=
  match sizeLocked w a stat_ok with
  | None => false
  | Some size =>
      (minRewriteSize <=? size) && (wrap64 (rewriteGrowthFactor * a_baseSize a) <=? size)
  end.

(** [Close]; [None] is the panic of closing [a.stop] twice.  The boolean is
    whether nil is returned. *)
Definition AOF_Close (w : World) (a : AOF) (accept : option nat) (sync_ok close_ok : bool)
    : option (World * AOF * bool) :=
  if bool_decide (a_mode a = FsyncEverySec) && negb (a_ticking a) then None
  else
    let a := mkAOF (a_f a) (a_buf a) (a_err a) (a_counted a) (a_mode a) (a_baseSize a) false in
    let '(w, a, flushed) := Flush w a accept in
    let '(w, synced) := fsync w (a_f a) sync_ok in
    Some (w, a, flushed && synced && close_ok).

(** What a file may hold after the machine lost power: everything known to
    be durable, then any bytes at all (some of those written later, blocks
    that never reached the disk and read as zeros), up to the size it had. *)
Definition after_power_loss (n : Inode) (bs : bytes) : Prop :=
  take (idurable n) (idata n) `prefix_of` bs ∧ (length bs ≤ length (idata n))%nat.
