(* ===== verification/AofFacts.v ===== *)
(** What the append-only log guarantees: every acknowledged append is a
    complete frame in the file, in order; a log written this way replays to
    a prefix of what was appended; under [FsyncAlways] a power loss costs no
    acknowledged command. *)

From S2P Require Import Prelude GoLib Protocol ProtocolFacts Replay Aof.

(** * A run of the log *)

(** A call of [Append], or a tick of the everysec goroutine, with the
    outcomes of its system calls. *)
Inductive log_event :=
  | EAppend (cmd : Value) (accept : option nat) (sync_ok : bool)
  | ETick (sync_ok : bool).

Definition event_cmds (ev : log_event) : list Value :=
  match ev with EAppend c _ _ => [c] | ETick _ => [] end.

(** The events in order.  [acked] collects the commands whose [Append]
    returned nil, [synced] those of them that were acknowledged when the
    file was last successfully fsynced (by the call itself in
    [FsyncAlways], by a tick otherwise). *)
Fixpoint run_log (w : World) (a : AOF) (acked synced : list Value) (evs : list log_event)
    : World * AOF * list Value * list Value :=
  match evs with
  | [] => (w, a, acked, synced)
  | EAppend cmd accept sync_ok :: evs' =>
      let '(w, a, ok) := Append w a cmd accept sync_ok in
      let acked := if ok : bool then acked ++ [cmd] else acked in
      let synced := if ok && bool_decide (a_mode a = FsyncAlways) then acked else synced in
      run_log w a acked synced evs'
  | ETick sync_ok :: evs' =>
      run_log (syncEverySec_tick w a sync_ok) a acked (if sync_ok : bool then acked else synced) evs'
  end.

(** * The invariant of a log

    [pre] are the commands that were in the file when it was opened,
    [written] those appended since whose whole frame is in it. *)
Record log_inv (pre : list Value) (w : World) (a : AOF) (written acked synced : list Value)
    (tail : bytes) : Prop := {
  li_inode : (a_f a < length (inodes w))%nat;
  li_data : idata (inode w (a_f a)) = encode_all (pre ++ written) ++ tail;
  li_wire : Forall wire_ok (pre ++ written);
  li_torn : torn tail;
  li_clean : a_err a = false → tail = [] ∧ a_buf a = [];
  li_acked : acked `sublist_of` written;
  li_durable_le : (idurable (inode w (a_f a)) ≤ length (idata (inode w (a_f a))))%nat;
  li_synced : synced = [] ∨ ∃ n, synced `sublist_of` take n written ∧
    (length (encode_all (pre ++ take n written)) ≤ idurable (inode w (a_f a)))%nat
}.

Lemma inode_set_eq w i n : (i < length (inodes w))%nat → inode (set_inode w i n) i = n.
Proof. intros Hi. unfold inode, set_inode. simpl. by rewrite list_lookup_insert_eq. Qed.

Lemma encode_all_app l k : encode_all (l ++ k) = encode_all l ++ encode_all k.
Proof. unfold encode_all. by rewrite map_app, concat_app. Qed.

Lemma encode_all_singleton v : encode_all [v] = encode v.
Proof. unfold encode_all. simpl. by rewrite app_nil_r. Qed.

Lemma sublist_snoc {A} (x : A) (l k : list A) : l `sublist_of` k → l ++ [x] `sublist_of` k ++ [x].
Proof. intros H. by apply sublist_app. Qed.

Lemma sublist_skip_snoc {A} (x : A) (l k : list A) : l `sublist_of` k → l `sublist_of` k ++ [x].
Proof. intros H. etrans; [exact H|]. apply sublist_inserts_r. done. Qed.

(** The effect of a write on the inode of the log. *)
Lemma Flush_inode w a accept w' a' ok :
  (a_f a < length (inodes w))%nat → a_err a = false → Flush w a accept = (w', a', ok) →
  length (inodes w') = length (inodes w) ∧ dir w' = dir w ∧
  a_f a' = a_f a ∧ a_mode a' = a_mode a ∧ a_err a' = negb ok ∧ (ok = true → a_buf a' = []) ∧
  idurable (inode w' (a_f a)) = idurable (inode w (a_f a)) ∧
  idata (inode w' (a_f a)) = idata (inode w (a_f a)) ++
    match accept with None => a_buf a | Some k => take k (a_buf a) end ∧
  (ok = true ↔ accept = None).
Proof.
  intros Hi He. unfold Flush. rewrite He. unfold fwrite.
  destruct accept as [k|]; intros [= <- <- <-];
    unfold inode, set_inode; cbn [inodes dir a_f a_mode a_err a_buf negb];
    rewrite length_insert, list_lookup_insert_eq by done; split_and!; try done.
Qed.

(** A write that stops inside the frame leaves a torn tail; one that stops
    after it leaves the frame. *)
Lemma torn_take v k :
  wire_ok v → torn (take k (encode v)) ∨ take k (encode v) = encode v.
Proof.
  intros Hv. destruct (decide (take k (encode v) = encode v)) as [E|E]; [by right|]. left.
  destruct (decide (take k (encode v) = [])) as [->|Hn]; [by left|]. right.
  exists v. split_and!; [done|apply prefix_take|done|done].
Qed.

(** What is durable stays durable when the log grows. *)
Lemma synced_grows pre synced written (cmd : Value) d :
  (synced = [] ∨ ∃ n, synced `sublist_of` take n written ∧
        (length (encode_all (pre ++ take n written)) ≤ d)%nat) →
  synced = [] ∨ ∃ n, synced `sublist_of` take n (written ++ [cmd]) ∧
       (length (encode_all (pre ++ take n (written ++ [cmd]))) ≤ d)%nat.
Proof.
  intros [->|(n & H1 & H2)]; [by left|right]. exists (min n (length written)). rewrite take_app_le by lia.
  destruct (decide (n ≤ length written)%nat).
  - by rewrite Nat.min_l.
  - rewrite Nat.min_r by lia. rewrite (take_ge written n) in * by lia. by rewrite take_ge.
Qed.

(** A write of a whole frame, of a part of one, an acknowledgement, and an
    fsync, each as it acts on the invariant. *)
Lemma log_inv_frame pre w a w1 a1 written acked synced cmd :
  log_inv pre w a written acked synced [] → wire_ok cmd →
  length (inodes w1) = length (inodes w) → a_f a1 = a_f a →
  (a_err a1 = false → a_buf a1 = []) →
  idurable (inode w1 (a_f a)) = idurable (inode w (a_f a)) →
  idata (inode w1 (a_f a)) = idata (inode w (a_f a)) ++ encode cmd →
  log_inv pre w1 a1 (written ++ [cmd]) acked synced [].
Proof.
  intros [Hi Hd Hw Ht Hc Ha Hle Hs] Hcmd Hlen Hf Hb Hdur Hdat.
  split; rewrite ?Hf, ?Hdur, ?Hdat, ?Hd; try lia.
  - by rewrite !app_nil_r, (app_assoc pre written [cmd]), (encode_all_app (pre ++ written)), encode_all_singleton.
  - rewrite app_assoc. apply Forall_app; auto.
  - by left.
  - intros He. split; [done|by apply Hb].
  - by apply sublist_skip_snoc.
  - rewrite <-Hd, length_app. lia.
  - by apply synced_grows.
Qed.

Lemma log_inv_partial pre w a w1 a1 written acked synced tail :
  log_inv pre w a written acked synced [] → torn tail →
  length (inodes w1) = length (inodes w) → a_f a1 = a_f a → a_err a1 = true →
  idurable (inode w1 (a_f a)) = idurable (inode w (a_f a)) →
  idata (inode w1 (a_f a)) = idata (inode w (a_f a)) ++ tail →
  log_inv pre w1 a1 written acked synced tail.
Proof.
  intros [Hi Hd Hw Ht Hc Ha Hle Hs] Htail Hlen Hf He Hdur Hdat.
  split; rewrite ?Hf, ?Hdur, ?Hdat, ?Hd, ?He, ?app_nil_r; try done; try lia.
  rewrite Hd, app_nil_r in Hle. rewrite length_app. lia.
Qed.

Lemma log_inv_ack pre w a written acked synced cmd :
  log_inv pre w a (written ++ [cmd]) acked synced [] → acked `sublist_of` written →
  log_inv pre w a (written ++ [cmd]) (acked ++ [cmd]) synced [].
Proof. intros [Hi Hd Hw Ht Hc Ha Hle Hs] Hsub. split; try done. by apply sublist_snoc. Qed.

Lemma log_inv_synced pre w a written acked synced tail :
  log_inv pre w a written acked synced tail →
  idurable (inode w (a_f a)) = length (idata (inode w (a_f a))) →
  log_inv pre w a written acked acked tail.
Proof.
  intros [Hi Hd Hw Ht Hc Ha Hle Hs] E. split; try done.
  right. exists (length written). rewrite take_ge by done. split; [done|].
  rewrite E, Hd, length_app. lia.
Qed.

Lemma log_inv_fsync pre w a written acked synced tail ok :
  log_inv pre w a written acked synced tail →
  log_inv pre (fsync w (a_f a) ok).1 a written acked (if ok then acked else synced) tail ∧
  dir (fsync w (a_f a) ok).1 = dir w ∧ (fsync w (a_f a) ok).2 = ok.
Proof.
  intros [Hi Hd Hw Ht Hc Ha Hle Hs]. unfold fsync.
  destruct ok; [|split; [split|]; eauto]. simpl. split; [|done].
  eapply log_inv_synced; [|by rewrite inode_set_eq]. instantiate (1 := synced).
  split; rewrite ?inode_set_eq by done; simpl; rewrite ?length_insert; try done.
  destruct Hs as [->|(n & H1 & H2)]; [by left|right]. exists n. split; [done|]. lia.
Qed.

(** What [Append] does to the log, whatever the system calls do. *)
Lemma Append_inv pre w a written acked synced tail cmd accept sync w' a' ok :
  log_inv pre w a written acked synced tail → wire_ok cmd →
  Append w a cmd accept sync = (w', a', ok) →
  let acked' := if ok then acked ++ [cmd] else acked in
  ∃ written' tail',
    log_inv pre w' a' written' acked'
      (if ok && bool_decide (a_mode a' = FsyncAlways) then acked' else synced) tail' ∧
    (written' = written ∨ written' = written ++ [cmd]) ∧ dir w' = dir w ∧ a_mode a' = a_mode a ∧
    a_f a' = a_f a.
Proof.
  intros Hinv Hcmd. unfold Append. destruct (a_err a) eqn:He.
  { intros [= <- <- <-]. exists written, tail. split_and!; [done|by left|done..]. }
  destruct (li_clean _ _ _ _ _ _ _ Hinv He) as [-> Hb].
  pose proof (li_inode _ _ _ _ _ _ _ Hinv) as Hi. pose proof (li_acked _ _ _ _ _ _ _ Hinv) as Hsub.
  pose proof (wire_ok_Encode cmd Hcmd) as Herr. destruct (Encode cmd) as [out err] eqn:Eenc.
  simpl in Herr. subst err.
  assert (out = encode cmd) as -> by (unfold encode; by rewrite Eenc).
  destruct (Flush w (buffer a (encode cmd)) accept) as [[w1 a1] ok1] eqn:Ef.
  apply Flush_inode in Ef as (F1 & F2 & F3 & F4 & F5 & F6 & F7 & F8 & F9); [|done|done].
  cbn [buffer a_f a_mode a_buf] in *. rewrite Hb in F8. simpl in F8.
  destruct ok1; cbn [negb] in *.
  - rewrite (proj1 F9 eq_refl) in F8.
    assert (log_inv pre w1 a1 (written ++ [cmd]) acked synced []) as Hw1
      by (eapply log_inv_frame; eauto).
    case_bool_decide as Hm.
    + destruct (log_inv_fsync pre w1 a1 _ _ _ _ sync (log_inv_ack _ _ _ _ _ _ _ Hw1 Hsub)) as (S1 & S3 & S4).
      destruct (log_inv_fsync pre w1 a1 _ _ _ _ sync Hw1) as (S1' & _ & _).
      destruct (fsync w1 (a_f a1) sync) as [w2 ok2]. simpl in *. intros [= <- <- <-]. subst ok2.
      exists (written ++ [cmd]), []. split_and!; [|by right|congruence|done|done].
      rewrite bool_decide_eq_true_2 by done. by destruct sync.
    + intros [= <- <- <-]. exists (written ++ [cmd]), []. split_and!; [|by right|done|done|done].
      rewrite bool_decide_eq_false_2 by done. by apply log_inv_ack.
  - intros [= <- <- <-]. destruct accept as [k|]; [|by specialize (proj2 F9 eq_refl)].
    destruct (torn_take cmd k Hcmd) as [Htorn|Hfull].
    + exists written, (take k (encode cmd)). split_and!; [|by left|done|done|done].
      eapply log_inv_partial; eauto.
    + rewrite Hfull in F8. exists (written ++ [cmd]), []. split_and!; [|by right|done|done|done].
      eapply log_inv_frame; eauto.
Qed.

Lemma run_log_inv pre evs w a written acked synced tail :
  log_inv pre w a written acked synced tail → Forall wire_ok (concat (map event_cmds evs)) →
  let '(w', a', acked', synced') := run_log w a acked synced evs in
  ∃ written' tail', log_inv pre w' a' (written ++ written') acked' synced' tail' ∧
    written' `sublist_of` concat (map event_cmds evs) ∧
    dir w' = dir w ∧ a_mode a' = a_mode a ∧ a_f a' = a_f a.
Proof.
  revert w a written acked synced tail. induction evs as [|[c accept sync|sync] evs IH];
    intros w a written acked synced tail Hinv Hc; simpl in *.
  - exists [], tail. rewrite !app_nil_r. by split_and!.
  - apply Forall_cons in Hc as [Hc Hcs].
    destruct (Append w a c accept sync) as [[w1 a1] ok] eqn:E.
    apply (Append_inv _ _ _ _ _ _ _ _ _ _ _ _ _ Hinv Hc) in E
      as (wr1 & tl1 & Hinv1 & Hwr & Hd & Hm & Hf).
    specialize (IH _ _ _ _ _ _ Hinv1 Hcs). cbn zeta.
    destruct (run_log w1 a1 _ _ evs) as [[[w2 a2] acked2] synced2].
    destruct IH as (wr2 & tl2 & Hinv2 & Hs & Hd2 & Hm2 & Hf2).
    destruct Hwr as [-> | ->].
    + exists wr2, tl2. split_and!; [done|by apply sublist_cons|congruence..].
    + exists (c :: wr2), tl2. rewrite <-app_assoc in Hinv2.
      split_and!; [done|by apply sublist_skip|congruence..].
  - destruct (log_inv_fsync pre w a _ _ _ _ sync Hinv) as (S1 & S2 & _).
    specialize (IH _ _ _ _ _ _ S1 Hc). unfold syncEverySec_tick.
    destruct (run_log _ a acked _ evs) as [[[w2 a2] acked2] synced2].
    destruct IH as (wr2 & tl2 & Hinv2 & Hs & Hd2 & Hm2 & Hf2).
    exists wr2, tl2. split_and!; [done|done|congruence|done|done].
Qed.

(** In [FsyncAlways] an acknowledgement is durable. *)
Lemma run_log_always evs w a acked :
  a_mode a = FsyncAlways →
  (∀ w a c accept s w' a' ok, Append w a c accept s = (w', a', ok) → a_mode a' = a_mode a) →
  let '(_, _, acked', synced') := run_log w a acked acked evs in synced' = acked'.
Proof.
  intros Hm Hmode. revert w a acked Hm.
  induction evs as [|[c accept sync|sync] evs IH]; intros w a acked Hm; simpl; [done| |].
  - destruct (Append w a c accept sync) as [[w1 a1] ok] eqn:E. pose proof (Hmode _ _ _ _ _ _ _ _ E) as Hm1.
    rewrite bool_decide_eq_true_2 by congruence. rewrite andb_true_r.
    destruct ok; apply IH; congruence.
  - destruct sync; by apply IH.
Qed.

Lemma Append_mode w a c accept s w' a' ok :
  Append w a c accept s = (w', a', ok) → a_mode a' = a_mode a.
Proof.
  unfold Append, Flush, fsync, fwrite. intros H.
  repeat (case_match; simplify_eq/=; try done).
Qed.

Lemma Append_ticking w a c accept s w' a' ok :
  Append w a c accept s = (w', a', ok) → a_ticking a' = a_ticking a.
Proof.
  unfold Append, Flush, fsync, fwrite. intros H.
  repeat (case_match; simplify_eq/=; try done).
Qed.

(** A handle freshly opened on a well-formed log. *)
Definition fs_ok (w : World) (path : bytes) : Prop :=
  ∀ i, dir w !! path = Some i → (i < length (inodes w))%nat ∧
    (idurable (inode w i) ≤ length (idata (inode w i)))%nat.

Lemma Open_inv w path mode w' a cmds :
  fs_ok w path → default [] (file w path) = encode_all cmds → Forall wire_ok cmds →
  Open w path mode true true = (w', Some a) →
  log_inv cmds w' a [] [] [] [] ∧ dir w' !! path = Some (a_f a) ∧ a_mode a = mode.
Proof.
  intros Hdir Hfile Hw. unfold Open, open_create, file in *. simpl.
  destruct (dir w !! path) as [i|] eqn:E; intros [= <- <-]; simpl in *.
  - destruct (Hdir i E) as [H1 H2]. split_and!; [|done|done].
    split; simpl; rewrite ?app_nil_r; try done; by left.
  - rewrite lookup_insert_eq. split_and!; [|done|done].
    assert (inode (mkWorld (inodes w ++ [mkInode [] 0]) (<[path:=length (inodes w)]> (dir w))
              (aofBytes w)) (length (inodes w)) = mkInode [] 0) as Hn.
    { unfold inode. simpl. by rewrite lookup_app_r, Nat.sub_diag by done. }
    split; simpl; rewrite ?Hn, ?app_nil_r; simpl; try done; try by left.
    rewrite length_app. simpl. lia.
Qed.

(** * Recovery *)

(** A prefix of a log of complete frames is some of those frames, as many
    as fit, and a torn one. *)
Lemma prefix_of_log written tail bs :
  Forall wire_ok written → torn tail → bs `prefix_of` encode_all written ++ tail →
  ∃ n tail', bs = encode_all (take n written) ++ tail' ∧ torn tail' ∧
    ∀ k, (length (encode_all (take k written)) ≤ length bs)%nat →
         take k written `prefix_of` take n written.
Proof.
  intros Hw Ht. revert bs. induction Hw as [|v written Hv _ IH]; intros bs Hp.
  - exists 0%nat, bs. split_and!; [done| |by intros k; rewrite take_nil]. simpl in Hp.
    destruct (decide (bs = [])) as [->|Hne]; [by left|].
    destruct Ht as [->|(v & Hv & Hp' & Hn & _)]; [by apply prefix_nil_inv in Hp|].
    right. exists v. split_and!; [done|by etrans| |done]. intros ->.
    by apply Hn, prefix_length_eq; [|by apply prefix_length].
  - change (encode_all (v :: written)) with (encode v ++ encode_all written) in Hp.
    rewrite <-app_assoc in Hp.
    apply prefix_app_cases in Hp as [(l' & Heq & Hl')|(p' & -> & Hp)].
    + exists 0%nat, bs. split_and!; [done| |].
      * destruct (decide (bs = [])) as [->|Hne]; [by left|].
        right. exists v. split_and!; [done|by exists l'| |done]. intros ->.
        apply Hl'. apply (app_inv_head (encode v)). by rewrite app_nil_r.
      * intros [|k]; [done|]. cbn [take].
        change (encode_all (v :: take k written)) with (encode v ++ encode_all (take k written)).
        rewrite Heq, !length_app. destruct l'; [done|]. simpl. lia.
    + destruct (IH _ Hp) as (n & tail' & -> & Ht' & Hk). exists (S n), tail'. split_and!.
      * cbn [take]. change (encode_all (v :: take n written))
          with (encode v ++ encode_all (take n written)). by rewrite app_assoc.
      * done.
      * intros [|k] Hlen; [apply prefix_nil|]. cbn [take] in *. apply prefix_cons, Hk.
        change (encode_all (v :: take k written)) with (encode v ++ encode_all (take k written)) in Hlen.
        rewrite length_app in Hlen. rewrite (length_app (encode v)) in Hlen. lia.
Qed.

(** What is left of the log when at least its durable part is, and then
    only bytes that were written: its first [n] commands, all synced ones
    among them, and a torn frame. *)
Lemma recover_prefix pre w a written acked synced tail bs :
  log_inv pre w a written acked synced tail →
  take (idurable (inode w (a_f a))) (idata (inode w (a_f a))) `prefix_of` bs →
  bs `prefix_of` idata (inode w (a_f a)) →
  ∃ n tail', bs = encode_all (take n (pre ++ written)) ++ tail' ∧ torn tail' ∧
    (synced = [] ∨
     ∃ l, take n (pre ++ written) = pre ++ l ∧ synced `sublist_of` l ∧ l `prefix_of` written).
Proof.
  intros [Hi Hd Hw Ht Hc Ha Hle Hs] H1 H2. rewrite Hd in H2.
  destruct (prefix_of_log (pre ++ written) tail bs Hw Ht H2) as (n & tail' & -> & Ht' & Hk).
  exists n, tail'. split_and!; [done..|].
  destruct Hs as [->|(k & Hk1 & Hk2)]; [by left|right].
  apply prefix_length in H1. rewrite length_take in H1.
  specialize (Hk (length pre + k)%nat). rewrite take_app_add in Hk.
  destruct Hk as [l Hl]; [lia|]. exists (take k written ++ l).
  assert (take n (pre ++ written) = pre ++ take k written ++ l) as E by (by rewrite Hl, <-app_assoc).
  split_and!; [done|by apply sublist_inserts_r|].
  assert (pre ++ take k written ++ l `prefix_of` pre ++ written) as Hp
    by (rewrite <-E; apply prefix_take).
  by apply prefix_app_inv in Hp.
Qed.

(** Whatever follows the durable part, it begins with these commands. *)
Lemma recover_power_loss pre w a written acked synced tail bs :
  log_inv pre w a written acked synced tail → after_power_loss (inode w (a_f a)) bs →
  ∃ n rest, bs = encode_all (take n (pre ++ written)) ++ rest ∧
    (synced = [] ∨
     ∃ l, take n (pre ++ written) = pre ++ l ∧ synced `sublist_of` l ∧ l `prefix_of` written).
Proof.
  intros Hinv [[rest ->] _].
  destruct (recover_prefix _ _ _ _ _ _ _ _ Hinv (reflexivity _) (prefix_take _ _)) as (n & tail' & -> & _ & Hs).
  exists n, (tail' ++ rest). by rewrite app_assoc.
Qed.

(** A file that is durable as a whole keeps its content. *)
Lemma power_loss_whole n bs :
  idurable n = length (idata n) → after_power_loss n bs → bs = idata n.
Proof.
  intros Hd [Hp Hl]. rewrite Hd, firstn_all in Hp. symmetry. by apply prefix_length_eq.
Qed.

(** After a [Close] that reported success the file is exactly the log, and
    all of it is on the disk. *)
Lemma Close_durable pre w a written acked synced tail accept sync close w2 a2 :
  log_inv pre w a written acked synced tail →
  AOF_Close w a accept sync close = Some (w2, a2, true) →
  idata (inode w2 (a_f a2)) = encode_all (pre ++ written) ∧
  idurable (inode w2 (a_f a2)) = length (idata (inode w2 (a_f a2))).
Proof.
  intros Hinv. unfold AOF_Close. destruct (_ && _); [done|].
  set (a1 := mkAOF _ _ _ _ _ _ _). destruct (Flush w a1 accept) as [[w1 a3] flushed] eqn:Ef.
  destruct (a_err a) eqn:He.
  { unfold Flush in Ef. cbn [a1 a_err] in Ef. simplify_eq. by destruct (fsync _ _ _). }
  destruct (li_clean _ _ _ _ _ _ _ Hinv He) as [Ht Hb].
  pose proof (li_inode _ _ _ _ _ _ _ Hinv) as Hi.
  apply Flush_inode in Ef as (F1 & _ & F3 & _ & _ & _ & _ & F8 & F9); [|done|done].
  unfold fsync. destruct sync; [|by rewrite andb_false_r].
  intros [= <- <- Hok]. rewrite andb_true_r in Hok. apply andb_prop in Hok as [Hfl _].
  rewrite (proj1 F9 Hfl) in F8. cbn [a1 a_f a_buf] in *. rewrite F3.
  rewrite inode_set_eq by lia. simpl. split; [|done].
  by rewrite F8, Hb, app_nil_r, (li_data _ _ _ _ _ _ _ Hinv), Ht, app_nil_r.
Qed.

(** What [Replay] finds at a path. *)
Definition read_log (w : World) (path : bytes) : log_file :=
  match file w path with None => Missing | Some bs => Contents (mkReader bs EOF) end.

Lemma read_log_handle w path i :
  dir w !! path = Some i → read_log w path = Contents (mkReader (idata (inode w i)) EOF).
Proof. intros H. unfold read_log, file. by rewrite H. Qed.

(** An empty file system and a command, for concrete runs. *)
Definition empty_world : World := mkWorld [] ∅ 0.
Definition ping : Value := ArrayV (Some [BulkV (Some (B "PING"))]).

Lemma ping_wire : wire_ok ping.
Proof. repeat constructor; vm_compute; congruence. Qed.

(** * Properties *)

(** C16: in every fsync mode, killing the process loses no acknowledged
    append: after any run of appends and ticks on a freshly opened log,
    whatever the system calls did (short writes, failed syncs), replaying
    the file applies the commands that were there before, then commands
    appended by the run, in order, all acknowledged ones among them. *)
Theorem kill_keeps_acked {St} (apply : Value → St → St * bool) w path mode w0 a0 cmds evs s :
  fs_ok w path → default [] (file w path) = encode_all cmds → Forall wire_ok cmds →
  Open w path mode true true = (w0, Some a0) →
  Forall wire_ok (concat (map event_cmds evs)) → (∀ c s, (apply c s).2 = true) →
  let '(w', a', acked, synced) := run_log w0 a0 [] [] evs in
  ∃ written, acked `sublist_of` written ∧ written `sublist_of` concat (map event_cmds evs) ∧
    Replay apply (read_log w' path) s
    = (apply_all apply (cmds ++ written) s, zlen (cmds ++ written), Finished).
Proof.
  intros Hfs Hfile Hw Ho Hev Ha.
  destruct (Open_inv _ _ _ _ _ _ Hfs Hfile Hw Ho) as (Hinv & Hdir & _).
  pose proof (run_log_inv _ evs _ _ _ _ _ _ Hinv Hev) as H.
  destruct (run_log w0 a0 [] [] evs) as [[[w' a'] acked] synced].
  destruct H as (written & tail & Hl & Hsub & Hd & _ & Hf). exists written.
  split_and!; [exact (li_acked _ _ _ _ _ _ _ Hl)|done|].
  rewrite (read_log_handle _ _ (a_f a')) by congruence. rewrite (li_data _ _ _ _ _ _ _ Hl).
  apply Replay_all; [exact (li_wire _ _ _ _ _ _ _ Hl)|exact (li_torn _ _ _ _ _ _ _ Hl)|done].
Qed.

Lemma kill_keeps_acked_witness :
  let '(w', a', acked, synced) :=
    run_log (Open empty_world (B "aof") FsyncNo true true).1
      (mkAOF 0 [] false true FsyncNo 0 false) [] []
      [EAppend ping None true; EAppend ping (Some 3%nat) true] in
  ∃ written, acked `sublist_of` written ∧ written `sublist_of` [ping; ping] ∧
    Replay (λ c l, (l ++ [c], true)) (read_log w' (B "aof")) []
    = (apply_all (λ c l, (l ++ [c], true)) ([] ++ written) [], zlen ([] ++ written), Finished).
Proof.
  apply (kill_keeps_acked (λ c l, (l ++ [c], true)) empty_world (B "aof") FsyncNo
    (Open empty_world (B "aof") FsyncNo true true).1 (mkAOF 0 [] false true FsyncNo 0 false) []
    [EAppend ping None true; EAppend ping (Some 3%nat) true] []).
  - intros i Hi. vm_compute in Hi. discriminate Hi.
  - reflexivity.
  - constructor.
  - reflexivity.
  - repeat constructor; exact ping_wire || (vm_compute; congruence).
  - reflexivity.
Defined.

(** C17: a power loss costs no command that had been fsynced.  The file keeps
    the bytes that were synced; what follows them, up to the size the file
    had, may be anything.  A replay first applies an initial part of the log
    that holds every command acknowledged before the last successful fsync
    (in [FsyncAlways] these are all acknowledged commands), and then goes on
    with the bytes that follow as on any other log, so it may still refuse
    them.  When these are the first ones of those written after the sync, as
    many as survived, the replay finishes, with no other commands than those
    of the log. *)
Theorem power_loss_keeps_synced {St} (apply : Value → St → St * bool) w path mode w0 a0 cmds evs bs s :
  fs_ok w path → default [] (file w path) = encode_all cmds → Forall wire_ok cmds →
  Open w path mode true true = (w0, Some a0) →
  Forall wire_ok (concat (map event_cmds evs)) → (∀ c s, (apply c s).2 = true) →
  let '(w', a', acked, synced) := run_log w0 a0 [] [] evs in
  after_power_loss (inode w' (a_f a')) bs →
  let kept l := synced = [] ∨ ∃ l', l = cmds ++ l' ∧ synced `sublist_of` l' in
  (mode = FsyncAlways → synced = acked) ∧
  (∃ l rest, kept l ∧ bs = encode_all l ++ rest ∧
     Replay apply (Contents (mkReader bs EOF)) s
     = let '(s', n, end_) := Replay apply (Contents (mkReader rest EOF)) (apply_all apply l s) in
       (s', zlen l + n, end_)) ∧
  (bs `prefix_of` idata (inode w' (a_f a')) →
   ∃ l, kept l ∧ l `sublist_of` cmds ++ concat (map event_cmds evs) ∧
     Replay apply (Contents (mkReader bs EOF)) s = (apply_all apply l s, zlen l, Finished)).
Proof.
  intros Hfs Hfile Hw Ho Hev Ha.
  destruct (Open_inv _ _ _ _ _ _ Hfs Hfile Hw Ho) as (Hinv & _ & Hm).
  pose proof (run_log_inv _ evs _ _ _ _ _ _ Hinv Hev) as H.
  pose proof (run_log_always evs w0 a0 []) as Hal.
  destruct (run_log w0 a0 [] [] evs) as [[[w' a'] acked] synced].
  destruct H as (written & tail & Hl & Hsub & Hd & _ & Hf). intros Hp kept. cbn [app] in *.
  pose proof (li_wire _ _ _ _ _ _ _ Hl) as Hwire.
  assert (∀ n, synced = [] ∨ (∃ l, take n (cmds ++ written) = cmds ++ l ∧ synced `sublist_of` l ∧ l `prefix_of` written) →
    kept (take n (cmds ++ written))) as Hk by (intros n [?|(l & -> & ? & _)]; [by left|right; by exists l]).
  split_and!.
  - intros ->. apply Hal; [done|apply Append_mode].
  - destruct (recover_power_loss _ _ _ _ _ _ _ _ Hl Hp) as (n & rest & -> & Hs).
    exists (take n (cmds ++ written)), rest. split_and!; [by apply Hk|done|].
    by apply Replay_app; [apply Forall_take|].
  - intros Hpre. destruct (recover_prefix _ _ _ _ _ _ _ _ Hl (proj1 Hp) Hpre) as (n & tail' & -> & Ht & Hs).
    exists (take n (cmds ++ written)). split_and!; [by apply Hk| |].
    + etrans; [apply sublist_take|by apply sublist_app].
    + apply Replay_all; [by apply Forall_take|done|done].
Qed.

Lemma power_loss_keeps_synced_witness :
  let '(w', a', acked, synced) :=
    run_log (Open empty_world (B "aof") FsyncAlways true true).1
      (mkAOF 0 [] false true FsyncAlways 0 false) [] []
      [EAppend ping None true; EAppend ping None false] in
  after_power_loss (inode w' (a_f a')) (encode ping ++ [x00]) ∧ synced = acked ∧
  ∃ l rest, (synced = [] ∨ ∃ l', l = [] ++ l' ∧ synced `sublist_of` l') ∧
    encode ping ++ [x00] = encode_all l ++ rest ∧
    Replay (λ c l, (l ++ [c], true)) (Contents (mkReader (encode ping ++ [x00]) EOF)) []
    = let '(s', n, end_) := Replay (λ c l, (l ++ [c], true)) (Contents (mkReader rest EOF))
                              (apply_all (λ c l, (l ++ [c], true)) l []) in
      (s', zlen l + n, end_).
Proof.
  assert (let '(w', a', _, _) :=
    run_log (Open empty_world (B "aof") FsyncAlways true true).1
      (mkAOF 0 [] false true FsyncAlways 0 false) [] []
      [EAppend ping None true; EAppend ping None false] in
    after_power_loss (inode w' (a_f a')) (encode ping ++ [x00])) as Hp
    by (vm_compute; split; [eexists; reflexivity|lia]).
  assert (Hf : fs_ok empty_world (B "aof")) by (intros i Hi; vm_compute in Hi; discriminate Hi).
  assert (Hc : Forall wire_ok (concat (map event_cmds [EAppend ping None true; EAppend ping None false])))
    by (constructor; [exact ping_wire|constructor; [exact ping_wire|constructor]]).
  pose proof (power_loss_keeps_synced (λ c l, (l ++ [c], true)) empty_world (B "aof") FsyncAlways
    (Open empty_world (B "aof") FsyncAlways true true).1 (mkAOF 0 [] false true FsyncAlways 0 false)
    [] [EAppend ping None true; EAppend ping None false] (encode ping ++ [x00]) []
    Hf eq_refl (List.Forall_nil _) eq_refl Hc (λ _ _, eq_refl)) as H.
  destruct (run_log _ _ _ _ _) as [[[w' a'] acked] synced].
  destruct (H Hp) as (H1 & H2 & _). split; [exact Hp|]. split; [by apply H1|exact H2].
Defined.

(** A graceful stop loses nothing in any mode: when [Close] reports
    success after any run of appends and ticks, a power loss leaves exactly
    the log, and replaying it applies the commands that were there before,
    then commands of the run, in order, all acknowledged ones among them. *)
Theorem clean_close_durable {St} (apply : Value → St → St * bool) w path mode w0 a0 cmds evs
    accept sync close w2 a2 bs s :
  fs_ok w path → default [] (file w path) = encode_all cmds → Forall wire_ok cmds →
  Open w path mode true true = (w0, Some a0) →
  Forall wire_ok (concat (map event_cmds evs)) → (∀ c s, (apply c s).2 = true) →
  let '(w', a', acked, synced) := run_log w0 a0 [] [] evs in
  AOF_Close w' a' accept sync close = Some (w2, a2, true) →
  after_power_loss (inode w2 (a_f a2)) bs →
  ∃ written, acked `sublist_of` written ∧ written `sublist_of` concat (map event_cmds evs) ∧
    Replay apply (Contents (mkReader bs EOF)) s
    = (apply_all apply (cmds ++ written) s, zlen (cmds ++ written), Finished).
Proof.
  intros Hfs Hfile Hw Ho Hev Ha.
  destruct (Open_inv _ _ _ _ _ _ Hfs Hfile Hw Ho) as (Hinv & _ & _).
  pose proof (run_log_inv _ evs _ _ _ _ _ _ Hinv Hev) as H.
  destruct (run_log w0 a0 [] [] evs) as [[[w' a'] acked] synced].
  destruct H as (written & tail & Hl & Hsub & _). intros Hclose Hp. exists written.
  destruct (Close_durable _ _ _ _ _ _ _ _ _ _ _ _ Hl Hclose) as [Hd1 Hd2]. cbn [app] in Hd1.
  apply power_loss_whole in Hp as ->; [|done]. rewrite Hd1.
  split_and!; [exact (li_acked _ _ _ _ _ _ _ Hl)|done|].
  rewrite <-(app_nil_r (encode_all _)).
  apply Replay_all; [exact (li_wire _ _ _ _ _ _ _ Hl)|by left|done].
Qed.

Lemma clean_close_durable_witness :
  let '(w', a', acked, synced) :=
    run_log (Open empty_world (B "aof") FsyncNo true true).1
      (mkAOF 0 [] false true FsyncNo 0 false) [] [] [EAppend ping None true] in
  ∃ w2 a2, AOF_Close w' a' None true true = Some (w2, a2, true) ∧
  ∃ written, acked `sublist_of` written ∧ written `sublist_of` [ping] ∧
    Replay (λ c l, (l ++ [c], true)) (Contents (mkReader (encode ping) EOF)) []
    = (apply_all (λ c l, (l ++ [c], true)) ([] ++ written) [], zlen ([] ++ written), Finished).
Proof.
  eexists _, _. split; [reflexivity|].
  eapply (clean_close_durable (λ c l, (l ++ [c], true)) empty_world (B "aof") FsyncNo
    (Open empty_world (B "aof") FsyncNo true true).1 (mkAOF 0 [] false true FsyncNo 0 false)
    [] [EAppend ping None true] None true true).
  - intros i Hi. vm_compute in Hi. discriminate Hi.
  - reflexivity.
  - constructor.
  - reflexivity.
  - constructor; [exact ping_wire|constructor].
  - reflexivity.
  - reflexivity.
  - vm_compute. split; [eexists; reflexivity|lia].
Defined.

(** One failed write disables the log: the buffered writer keeps its
    error, so every later [Append] on that handle fails and writes nothing,
    even when the disk has room again; the commands of those calls are
    served but never logged. *)
Theorem append_error_is_sticky w a cmd k sync w1 a1 cmd' accept' sync' :
  a_err a = false → Append w a cmd (Some k) sync = (w1, a1, false) → (Encode cmd).2 = None →
  Append w1 a1 cmd' accept' sync' = (w1, a1, false).
Proof.
  intros He H Henc. assert (a_err a1 = true) as E.
  { unfold Append in H. rewrite He in H. destruct (Encode cmd) as [out err]. simpl in Henc. subst err.
    unfold Flush in H. cbn [buffer a_err] in H. rewrite He in H. simpl in H. by simplify_eq/=. }
  unfold Append. by rewrite E.
Qed.

Lemma append_error_is_sticky_witness :
  let out := Append (Open empty_world (B "aof") FsyncNo true true).1
               (mkAOF 0 [] false true FsyncNo 0 false) ping (Some 3%nat) true in
  Append out.1.1 out.1.2 ping None true = (out.1.1, out.1.2, false).
Proof.
  eapply (append_error_is_sticky (Open empty_world (B "aof") FsyncNo true true).1
            (mkAOF 0 [] false true FsyncNo 0 false) ping 3 true).
  - reflexivity.
  - vm_compute. reflexivity.
  - vm_compute. reflexivity.
Defined.

(** The [appendfsync] flag round-trips: every mode is parsed back from
    its printed form, and nothing else is accepted. *)
Theorem fsync_mode_roundtrip s m : ParseFsyncMode s = Some m ↔ s = FsyncMode_String m.
Proof.
  unfold ParseFsyncMode. split.
  - intros H. repeat case_match; simplify_eq/=; by apply String.eqb_eq.
  - intros ->. by destruct m.
Qed.
