(* ===== verification/Snapshot.v ===== *)
(** [internal/db/snapshot.go] and [internal/persistence/rewrite.go]: the
    copy of the live keyspace, the commands that recreate it, and the swap
    of the compacted log for the old one.

    [encodeExpire] calls [time.Until] for every record; here one rewrite
    reads the clock once, at [tw], for all of its records. *)

From S2P Require Import Prelude GoLib Protocol ProtocolFacts PubSub Store Db Aof.

(** * snapshot.go *)

Inductive SnapshotKind := SnapshotString | SnapshotList | SnapshotHash | SnapshotSet.

Record SnapshotEntry := mkSnap {
  Key : bytes;
  Kind : SnapshotKind;
  Str : slice;
  List : list slice;
  Fields : list slice;
  Values : list slice;
  Members : list slice;
  ExpireAt : option Z
}.

Definition cloneByteSlices (l : list slice) : list slice := map cloneBytes l.

(** The iteration orders the runtime picks: one per shard, and one per hash
    or set, named by its key. *)
Record snap_orders := { so_shard : nat → map_order; so_value : bytes → map_order }.

Definition snapshotEntry (o : map_order) (key : bytes) (e : Entry) : SnapshotEntry :=
  match e_kind e with
  | kindString =>
      mkSnap key SnapshotString (cloneBytes (e_str e)) [] [] [] [] (e_expireAt e)
  | kindList =>
      mkSnap key SnapshotList None (cloneByteSlices (e_list e)) [] [] [] (e_expireAt e)
  | kindHash =>
      let l := range_map o (e_hash e) in
      mkSnap key SnapshotHash None [] (map (λ fv, Some fv.1) l) (map (λ fv, cloneBytes fv.2) l) []
             (e_expireAt e)
  | kindSet =>
      mkSnap key SnapshotSet None [] [] [] (map Some (range_set o (e_set e))) (e_expireAt e)
  end.

(** The body of the loop over one shard's map. *)
Definition snapshotShard (os : snap_orders) (now : Z) (i : nat) (sh : shard) : list SnapshotEntry :=
  omap (λ ke : bytes * Entry,
          if expired ke.2 now then None else Some (snapshotEntry (so_value os ke.1) ke.1 ke.2))
       (range_map (so_shard os i) sh).

Definition Snapshot (os : snap_orders) (db : DB) (now : Z) : list SnapshotEntry :=
  concat (imap (snapshotShard os now) (shards db)).

(** * rewrite.go *)

Definition bulkCmd (name : string) (args : list slice) : Value :=
  ArrayV (Some (BulkV (Some (B name)) :: map BulkV args)).

Definition prependKey (key : bytes) (elems : list slice) : list slice := Some key :: elems.

(** [for i := range r.Fields { args = append(args, r.Fields[i], r.Values[i]) }];
    [None] is an index out of range. *)
Fixpoint hash_args (fields values : list slice) : option (list slice) :=
  match fields, values with
  | [], _ => Some []
  | f :: fields', v :: values' =>
      match hash_args fields' values' with
      | Some args => Some (f :: v :: args)
      | None => None
      end
  | _ :: _, [] => None
  end.

(** [now] is the reading of [time.Until]. *)
Definition encodeExpire (now : Z) (r : SnapshotEntry) : bytes * option error :=
  match ExpireAt r with
  | None => ([], None)
  | Some x =>
      let ms := Milliseconds (time_sub x now) in
      let ms := if ms <? 1 then 1 else ms in
      Encode (bulkCmd "PEXPIRE" [Some (Key r); Some (FormatInt ms)])
  end.

(** The command that recreates the value: [None] is a panic, [Some None]
    the early return for an empty container. *)
Definition recordValue (r : SnapshotEntry) : option (option Value) :=
  match Kind r with
  | SnapshotString => Some (Some (bulkCmd "SET" [Some (Key r); Str r]))
  | SnapshotList =>
      if bool_decide (List r = []) then Some None
      else Some (Some (bulkCmd "RPUSH" (prependKey (Key r) (List r))))
  | SnapshotHash =>
      match hash_args (Fields r) (Values r) with
      | None => None
      | Some [] => Some None
      | Some args => Some (Some (bulkCmd "HSET" (Some (Key r) :: args)))
      end
  | SnapshotSet =>
      if bool_decide (Members r = []) then Some None
      else Some (Some (bulkCmd "SADD" (prependKey (Key r) (Members r))))
  end.

Definition encodeRecord (now : Z) (r : SnapshotEntry) : option (bytes * option error) :=
  match recordValue r with
  | None => None
  | Some None => Some ([], None)
  | Some (Some value) =>
      match Encode value with
      | (out, Some err) => Some (out, Some err)
      | (out, None) => let '(out', err) := encodeExpire now r in Some (out ++ out', err)
      end
  end.

(** The bytes handed to the writer, in order, up to the first error. *)
Fixpoint writeSnapshot (now : Z) (records : list SnapshotEntry) : option (bytes * option error) :=
  match records with
  | [] => Some ([], None)
  | r :: records' =>
      match encodeRecord now r with
      | None => None
      | Some (out, Some err) => Some (out, Some err)
      | Some (out, None) =>
          match writeSnapshot now records' with
          | None => None
          | Some (out', err) => Some (out ++ out', err)
          end
      end
  end.

(** The outcomes of the system calls of one [Rewrite], in call order. *)
Record rewrite_io := {
  r_open : bool;
  r_accept : option nat;
  r_sync : bool;
  r_close : bool;
  r_rename : bool;
  r_reopen : bool;
  r_flush : option nat;
  r_stat : bool
}.

(** [AOF.Rewrite]: the boolean is whether nil is returned; [None] a panic. *)
Definition Rewrite (w : World) (a : AOF) (path : bytes) (now : Z) (records : list SnapshotEntry)
    (io : rewrite_io) : option (World * AOF * bool) :=
  let tmp := path ++ B ".tmp" in
  if negb (r_open io) then Some (w, a, false)
  else
    let '(w, i) := open_trunc w tmp in
    match writeSnapshot now records with
    | None => None
    | Some (out, err) =>
        let '(w, written) := fwrite w i out (r_accept io) in
        match err, written with
        | Some _, _ | _, false => Some (remove w tmp, a, false)
        | None, true =>
            let '(w, synced) := fsync w i (r_sync io) in
            if negb synced then Some (remove w tmp, a, false)
            else if negb (r_close io) then Some (remove w tmp, a, false)
            else if negb (r_rename io) then Some (remove w tmp, a, false)
            else
              let w := rename w tmp path in
              if negb (r_reopen io) then Some (w, a, false)
              else
                let '(w, nf) := open_create w path in
                let '(w, a, _) := Flush w a (r_flush io) in
                let base := if r_stat io then zlen (idata (inode w nf)) else a_baseSize a in
                Some (w, mkAOF nf [] false false (a_mode a) base (a_ticking a), true)
        end
    end.
