(* ===== verification/Compaction.v ===== *)
(** Compaction is correct: the commands [Rewrite] puts in the new log
    recreate the live keyspace when they are replayed, and the swap of the
    files is all or nothing up to the rename. *)

From S2P Require Import Prelude GoLib Protocol ProtocolFacts PubSub Store Db Spec Refine Cmd.
From S2P Require Import CmdFacts CmdSpec Replay Aof AofFacts Snapshot.

(** * The commands of a snapshot *)

Definition expire_cmds (now : Z) (r : SnapshotEntry) : list Value :=
  match ExpireAt r with
  | None => []
  | Some x =>
      [bulkCmd "PEXPIRE" [Some (Key r); Some (FormatInt (Z.max 1 (Milliseconds (time_sub x now))))]]
  end.

Definition record_cmds (now : Z) (r : SnapshotEntry) : list Value :=
  match recordValue r with
  | Some (Some v) => v :: expire_cmds now r
  | _ => []
  end.

Definition snapshot_cmds (now : Z) (rs : list SnapshotEntry) : list Value :=
  concat (map (record_cmds now) rs).

Lemma encodeExpire_cmds now r :
  Forall wire_ok (expire_cmds now r) →
  encodeExpire now r = (encode_all (expire_cmds now r), None).
Proof.
  unfold encodeExpire, expire_cmds. destruct (ExpireAt r) as [x|]; [|done].
  replace (if _ <? 1 then 1 else _) with (Z.max 1 (Milliseconds (time_sub x now)))
    by (case_match; reflect_bools; lia).
  intros Hw%Forall_inv. rewrite encode_all_singleton. unfold encode.
  apply wire_ok_Encode in Hw. by destruct (Encode _) as [out []].
Qed.

Lemma encodeRecord_cmds now r :
  recordValue r ≠ None → Forall wire_ok (record_cmds now r) →
  encodeRecord now r = Some (encode_all (record_cmds now r), None).
Proof.
  unfold encodeRecord, record_cmds. intros Hv Hw.
  destruct (recordValue r) as [[v|]|]; [|done|done].
  apply Forall_cons in Hw as [Hw1 Hw2]. rewrite encodeExpire_cmds by done.
  apply wire_ok_Encode in Hw1.
  change (encode_all (v :: ?l)) with (encode v ++ encode_all l). unfold encode.
  by destruct (Encode v) as [out []].
Qed.

Lemma writeSnapshot_cmds now rs :
  Forall (λ r, recordValue r ≠ None) rs → Forall wire_ok (snapshot_cmds now rs) →
  writeSnapshot now rs = Some (encode_all (snapshot_cmds now rs), None).
Proof.
  intros Hrs. unfold snapshot_cmds. induction Hrs as [|r rs Hr _ IH]; intros Hw; [done|].
  cbn [map concat] in *. apply Forall_app in Hw as [Hw1 Hw2].
  cbn [writeSnapshot]. rewrite encodeRecord_cmds, IH by done. by rewrite encode_all_app.
Qed.

(** * The records of a snapshot *)

Lemma hash_args_zip fs vs :
  length fs = length vs → hash_args fs vs = Some (concat (zip_with (λ f v, [f; v]) fs vs)).
Proof.
  revert vs. induction fs as [|f fs IH]; intros [|v vs] H; try done. simpl in *. by rewrite IH by lia.
Qed.

Lemma recordValue_entry (o : map_order) k e : recordValue (snapshotEntry o k e) ≠ None.
Proof.
  unfold recordValue, snapshotEntry. destruct (e_kind e); simpl; try (by repeat case_match).
  rewrite hash_args_zip by by rewrite !length_map. by case_match.
Qed.

Lemma Key_snapshotEntry (o : map_order) k e : Key (snapshotEntry o k e) = k.
Proof. unfold snapshotEntry. by destruct (e_kind e). Qed.

Lemma ExpireAt_snapshotEntry (o : map_order) k e : ExpireAt (snapshotEntry o k e) = e_expireAt e.
Proof. unfold snapshotEntry. by destruct (e_kind e). Qed.

Lemma elem_of_snapshotShard os now i sh r :
  r ∈ snapshotShard os now i sh ↔
  ∃ k e, sh !! k = Some e ∧ expired e now = false ∧ r = snapshotEntry (so_value os k) k e.
Proof.
  unfold snapshotShard. rewrite list_elem_of_omap. split.
  - intros ([k e] & Hin & H). apply elem_of_range_map in Hin. simpl in H.
    destruct (expired e now) eqn:E; simplify_eq/=. eauto.
  - intros (k & e & Hk & Hx & ->). exists (k, e). rewrite elem_of_range_map. simpl. by rewrite Hx.
Qed.

Lemma NoDup_snapshotShard os now i sh : NoDup (map Key (snapshotShard os now i sh)).
Proof.
  unfold snapshotShard. pose proof (NoDup_range_map (so_shard os i) sh) as H.
  induction (range_map (so_shard os i) sh) as [|[k e] l IH]; [constructor|].
  apply NoDup_cons in H as [Hk H]. specialize (IH H). simpl.
  destruct (expired e now); [done|]. simpl. constructor; [|done].
  rewrite Key_snapshotEntry. intros (r & Hr & Hin)%list_elem_of_fmap. apply Hk.
  apply list_elem_of_omap in Hin as ([k' e'] & Hin & Hs). simpl in Hs.
  destruct (expired e' now); simplify_eq/=. rewrite Key_snapshotEntry.
  apply list_elem_of_fmap. by exists (k', e').
Qed.

(** The snapshot holds exactly the live keys, once each. *)
Lemma elem_of_Snapshot os db now r :
  db_ok db →
  r ∈ Snapshot os db now ↔
  ∃ k e, shardFor db k !! k = Some e ∧ expired e now = false ∧ r = snapshotEntry (so_value os k) k e.
Proof.
  intros Hok. unfold Snapshot. rewrite list_elem_of_In, in_concat. split.
  - intros (l & Hl & Hr). apply list_elem_of_In, elem_of_lookup_imap in Hl as (i & sh & -> & Hi).
    apply list_elem_of_In, elem_of_snapshotShard in Hr as (k & e & Hk & Hx & ->).
    exists k, e. split_and!; [|done..].
    pose proof (ok_routed _ Hok _ _ _ _ Hi Hk) as ->.
    rewrite shards_shardFor in Hi by apply Hok. by simplify_eq.
  - intros (k & e & Hk & Hx & ->). exists (snapshotShard os now (Z.to_nat (shardIndex k)) (shardFor db k)).
    split; apply list_elem_of_In.
    + apply elem_of_lookup_imap. eexists _, _. split; [done|]. apply shards_shardFor, Hok.
    + apply elem_of_snapshotShard. eauto.
Qed.

Lemma NoDup_concat_disjoint {A} (ls : list (list A)) :
  Forall NoDup ls →
  (∀ i j l1 l2 x, ls !! i = Some l1 → ls !! j = Some l2 → x ∈ l1 → x ∈ l2 → i = j) →
  NoDup (concat ls).
Proof.
  induction 1 as [|l ls Hl _ IH]; intros Hd; [constructor|]. simpl. apply NoDup_app. split_and!; [done| |].
  - intros x Hx Hin. apply list_elem_of_In, in_concat in Hin as (l2 & Hl2 & Hx2).
    apply list_elem_of_In, list_elem_of_lookup in Hl2 as [j Hj]. apply list_elem_of_In in Hx2.
    by specialize (Hd 0%nat (S j) l l2 x eq_refl Hj Hx Hx2).
  - apply IH. intros i j l1 l2 x H1 H2 H3 H4. specialize (Hd (S i) (S j) l1 l2 x H1 H2 H3 H4). lia.
Qed.

Lemma NoDup_Snapshot os db now : db_ok db → NoDup (map Key (Snapshot os db now)).
Proof.
  intros Hok. unfold Snapshot. rewrite concat_map. apply NoDup_concat_disjoint.
  - apply Forall_forall. intros l (l' & -> & Hl)%list_elem_of_fmap.
    apply elem_of_lookup_imap in Hl as (i & sh & -> & _). apply NoDup_snapshotShard.
  - assert (∀ i l k, (map Key <$> imap (snapshotShard os now) (shards db)) !! i = Some l → k ∈ l →
              i = Z.to_nat (shardIndex k)) as H.
    { intros i l k Hi Hk. rewrite list_lookup_fmap, list_lookup_imap in Hi.
      destruct (shards db !! i) as [sh|] eqn:E; simplify_eq/=.
      apply list_elem_of_fmap in Hk as (r & -> & Hr).
      apply elem_of_snapshotShard in Hr as (k & e & Hk & _ & ->). rewrite Key_snapshotEntry.
      by eapply (ok_routed _ Hok). }
    intros i j l1 l2 k H1 H2 H3 H4. rewrite (H i l1 k), (H j l2 k) by done. done.
Qed.

(** * Replaying the commands of one record *)

Section restore.
Context `{GoUnicode} (o : map_order) (T tw : Z).

(** The dispatcher, with every clock reading of the replay at [T]. *)
Definition replay_at (c : Value) (db : DB) : DB * bool := ((Dispatch (λ _, T) o db c).1, true).

(** The deadline a key gets back: the milliseconds it had left when the log
    was written, at least one, counted from the replay. *)
Definition rebase (x : Z) : Z := T + Z.max 1 (Milliseconds (time_sub x tw)) * Millisecond.

Definition rebased (a : aentry) : aentry := mkA (a_val a) (rebase <$> a_exp a).

Lemma dispatch_step name args den x rd db :
  db_ok db → assoc (ToUpper (B name)) denotes = Some den →
  den (map BulkV args) = Some (x, rd) →
  db_ok (replay_at (bulkCmd name args) db).1 ∧
  view T (replay_at (bulkCmd name args) db).1 = (spec_op T x (view T db)).1.
Proof.
  intros Hok Hd Hx.
  destruct (Dispatch_denotes o T db (BulkV (Some (B name))) (map BulkV args) den x rd Hok Hd Hx)
    as (H1 & H2 & _). by split.
Qed.

(** The time to live survives the millisecond encoding. *)
Lemma expire_ms_ok x :
  let ms := Z.max 1 (Milliseconds (time_sub x tw)) in
  int64 ms ∧ dur_mul ms Millisecond = ms * Millisecond ∧ 0 < ms * Millisecond.
Proof.
  cbn zeta. assert (int64 (time_sub x tw)) as Hs.
  { unfold time_sub, int64, min_int64, max_int64. repeat case_match; reflect_bools; lia. }
  unfold Milliseconds, Millisecond. set (d := time_sub x tw) in *.
  unfold int64, min_int64, max_int64 in Hs.
  assert (Z.quot d 1000000 * 1000000 ≤ 9223372036854775807).
  { destruct (decide (0 ≤ d)).
    - rewrite Z.quot_div_nonneg by lia. pose proof (Z.mul_div_le d 1000000). lia.
    - assert (Z.quot d 1000000 ≤ 0); [|lia]. apply Z.quot_le_upper_bound; lia. }
  assert (1 ≤ Z.max 1 (Z.quot d 1000000) ≤ 9223372036854) as [? ?] by lia.
  split_and!; [unfold int64, min_int64, max_int64; lia| |lia].
  apply wrap64_id. unfold int64, min_int64, max_int64. lia.
Qed.

Lemma restore_expire db k a r :
  db_ok db → Key r = k → view T db !! k = Some (mkA a None) →
  let db' := apply_all replay_at (expire_cmds tw r) db in
  db_ok db' ∧ view T db' = <[k := mkA a (rebase <$> ExpireAt r)]> (view T db).
Proof.
  intros Hok <- Ha. unfold expire_cmds. destruct (ExpireAt r) as [x|]; simpl.
  2:{ split; [done|]. by rewrite insert_id. }
  destruct (expire_ms_ok x) as (H1 & H2 & H3).
  set (ms := Z.max 1 (Milliseconds (time_sub x tw))) in *.
  destruct (dispatch_step "PEXPIRE" [Some (Key r); Some (FormatInt ms)] (expire Millisecond)
    (OExpire (Key r) (dur_mul ms Millisecond)) render db Hok) as [Hok' Hv]; [reflexivity| |].
  { unfold expire. cbn [map]. by rewrite !arg_bulk, ParseInt_FormatInt. }
  split; [done|]. simpl in Hv. rewrite Hv, Ha, H2. rewrite (proj2 (Z.leb_gt _ _)) by lia. done.
Qed.

(** The value-restoring command, by kind, when the key is absent. *)
Definition restores (db : DB) (r : SnapshotEntry) (a : aval) : Prop :=
  ∃ v, recordValue r = Some (Some v) ∧ db_ok (replay_at v db).1 ∧
       view T (replay_at v db).1 = <[Key r := mkA a None]> (view T db).

Lemma many_shape (f : bytes → list Value → op) k (l : list slice) :
  l ≠ [] → many f (map BulkV (Some k :: l)) = Some (f k (map BulkV l), render).
Proof. by destruct l. Qed.

Lemma vBulk_BulkV l : map vBulk (map BulkV l) = l.
Proof. rewrite map_map. by apply map_id. Qed.

Lemma restore_string db k s x :
  db_ok db → restores db (mkSnap k SnapshotString (Some s) [] [] [] [] x) (AStr s).
Proof.
  intros Hok. eexists. split; [done|]. cbn [Key Str].
  eapply (dispatch_step "SET" [Some k; Some s] _ (OSet k (Some s)) render); [done|reflexivity|done].
Qed.

Lemma restore_list db k l x :
  db_ok db → l ≠ [] → view T db !! k = None →
  restores db (mkSnap k SnapshotList None l [] [] [] x) (AList (map content l)).
Proof.
  intros Hok Hl Hk. unfold restores, recordValue. cbn [Kind List Key].
  rewrite bool_decide_eq_false_2 by done. eexists. split; [done|].
  destruct (dispatch_step "RPUSH" (prependKey k l) (many (λ k vs, ORPush k (map vBulk vs)))
    (ORPush k (map vBulk (map BulkV l))) render db Hok) as [H1 H2]; [reflexivity|by apply many_shape|].
  split; [done|]. rewrite H2, vBulk_BulkV. simpl. unfold spec_push. by rewrite Hk.
Qed.

Lemma restore_set db k l x :
  db_ok db → l ≠ [] → view T db !! k = None →
  restores db (mkSnap k SnapshotSet None [] [] [] l x) (ASet (list_to_set (map content l))).
Proof.
  intros Hok Hl Hk. unfold restores, recordValue. cbn [Kind Members Key].
  rewrite bool_decide_eq_false_2 by done. eexists. split; [done|].
  destruct (dispatch_step "SADD" (prependKey k l) (many (λ k ms, OSAdd k (map vBulk ms)))
    (OSAdd k (map vBulk (map BulkV l))) render db Hok) as [H1 H2]; [reflexivity|by apply many_shape|].
  split; [done|]. rewrite H2, vBulk_BulkV. simpl. unfold spec_set. rewrite Hk. simpl.
  by rewrite (union_empty_r_L (list_to_set _)).
Qed.

Lemma split_pairs_zip fs vs :
  length fs = length vs →
  split_pairs (map BulkV (concat (zip_with (λ f v, [f; v]) fs vs))) = (fs, vs) ∧
  Z.even (zlen (map BulkV (concat (zip_with (λ f v, [f; v]) fs vs)))) = true.
Proof.
  revert vs. induction fs as [|f fs IH]; intros [|v vs] Hl; try done.
  cbn [zip_with concat map app length split_pairs vBulk BulkV] in *.
  destruct (IH vs) as [-> He]; [lia|]. split; [done|].
  rewrite !zlen_cons, <-Z.add_assoc, Z.even_add, He. done.
Qed.

Lemma restore_hash db k fs vs x :
  db_ok db → fs ≠ [] → length fs = length vs → view T db !! k = None →
  restores db (mkSnap k SnapshotHash None [] fs vs [] x) (AHash (put_fields fs vs ∅)).
Proof.
  intros Hok Hf Hl Hk. unfold restores, recordValue. cbn [Kind Fields Values Key].
  rewrite hash_args_zip by done. destruct (split_pairs_zip fs vs Hl) as [Hsp Hev].
  set (args := concat (zip_with (λ f v, [f; v]) fs vs)) in *.
  destruct args as [|a1 args1] eqn:Ea; [by destruct fs, vs|]. eexists. split; [done|].
  destruct (dispatch_step "HSET" (Some k :: a1 :: args1) hset (OHSet k fs vs) render db Hok) as [H1 H2];
    [reflexivity| |].
  { unfold hset. cbn [map] in *. by rewrite Hev, Hsp. }
  split; [done|]. rewrite H2. simpl. unfold spec_hash. by rewrite Hk.
Qed.

(** * From a stored entry through its record back to its value *)

Lemma foldl_insert {V} (l : list (bytes * V)) (m : gmap bytes V) :
  foldl (λ m p, <[p.1 := p.2]> m) m l = list_to_map (rev l) ∪ m.
Proof using Type.
  revert m. induction l as [|[k v] l IH]; intros m; simpl; [by rewrite map_empty_union|].
  rewrite IH, list_to_map_app, <-map_union_assoc. f_equal. simpl.
  by rewrite insert_union_singleton_l.
Qed.

Lemma put_fields_hash (ov : map_order) (h : gmap bytes slice) :
  let l := range_map ov h in
  put_fields (map (λ fv, Some fv.1) l) (map (λ fv, cloneBytes fv.2) l) ∅ = content <$> h.
Proof using Type.
  cbn zeta. set (l := range_map ov h).
  assert (put_fields (map (λ fv, Some fv.1) l) (map (λ fv, cloneBytes fv.2) l) ∅
    = foldl (λ m p, <[p.1 := p.2]> m) ∅ (prod_map id content <$> l)) as ->.
  { unfold put_fields. generalize (∅ : gmap bytes bytes).
    induction l as [|[k v] l' IH]; intros m; [done|]. simpl. by rewrite IH. }
  rewrite foldl_insert, map_union_empty.
  rewrite <-(list_to_map_to_list (content <$> h)). apply list_to_map_proper.
  - rewrite map_rev, <-Permutation_rev. rewrite <-list_fmap_compose.
    change (fst ∘ prod_map id content) with (fst : bytes * slice → bytes).
    apply NoDup_range_map.
  - rewrite <-Permutation_rev, map_to_list_fmap. apply fmap_Permutation, range_map_perm.
Qed.

Lemma restore_entry db (ov : map_order) k e :
  db_ok db → entry_ok e → view T db !! k = None →
  restores db (snapshotEntry ov k e) (absV e).
Proof.
  intros Hok He Hk. unfold snapshotEntry, absV, entry_ok in *. destruct (e_kind e).
  - destruct He as ([s ->] & _). by apply restore_string.
  - destruct He as (_ & Hl & _). rewrite <-content_cloneBytes.
    apply restore_list; [done| |done]. by destruct (e_list e).
  - destruct He as (_ & _ & Hh & _). rewrite <-(put_fields_hash ov).
    apply restore_hash; [done| |by rewrite !length_map|done].
    intros E%map_eq_nil. apply Hh. apply map_to_list_empty_iff.
    apply Permutation_nil_r. by rewrite <-E, range_map_perm.
  - destruct He as (_ & _ & _ & Hs).
    replace (e_set e) with (list_to_set (map content (map Some (range_set ov (e_set e)))) : gset bytes) at 2.
    + apply restore_set; [done| |done]. intros E%map_eq_nil.
      apply Hs, leibniz_equiv, elements_empty_iff, Permutation_nil_r. by rewrite <-E, range_set_perm.
    + apply set_eq. intros x. rewrite elem_of_list_to_set, map_map. simpl. rewrite map_id.
      apply elem_of_range_set.
Qed.

Lemma apply_all_app l1 l2 db :
  apply_all replay_at (l1 ++ l2) db = apply_all replay_at l2 (apply_all replay_at l1 db).
Proof. apply foldl_app. Qed.

Lemma restore_record db (ov : map_order) k e :
  db_ok db → entry_ok e → view T db !! k = None →
  let db' := apply_all replay_at (record_cmds tw (snapshotEntry ov k e)) db in
  db_ok db' ∧ view T db' = <[k := rebased (absE e)]> (view T db).
Proof.
  intros Hok He Hk. cbn zeta. unfold record_cmds.
  destruct (restore_entry db ov k e Hok He Hk) as (v & -> & H1 & H2).
  rewrite Key_snapshotEntry in H2. cbn [apply_all foldl].
  destruct (restore_expire (replay_at v db).1 k (absV e) (snapshotEntry ov k e)) as [H3 H4];
    [done|apply Key_snapshotEntry|by rewrite H2, lookup_insert_eq|].
  split; [done|]. etrans; [exact H4|]. rewrite H2, insert_insert_eq, ExpireAt_snapshotEntry. done.
Qed.

(** The records of a snapshot, in any order, onto a store without their keys. *)
Lemma restore_records (src : gmap bytes Entry) os rs db :
  db_ok db → NoDup (map Key rs) →
  (∀ r, r ∈ rs → ∃ k e, src !! k = Some e ∧ entry_ok e ∧ r = snapshotEntry (so_value os k) k e) →
  (∀ r, r ∈ rs → view T db !! Key r = None) →
  let db' := apply_all replay_at (snapshot_cmds tw rs) db in
  db_ok db' ∧ ∀ k, view T db' !! k =
    if decide (k ∈ map Key rs) then rebased <$> (absE <$> src !! k) else view T db !! k.
Proof.
  revert db. induction rs as [|r rs IH]; intros db Hok Hnd Hsrc Hfresh; cbn zeta.
  { split; [done|]. intros k. rewrite decide_False; [done|]. apply not_elem_of_nil. }
  cbn [map] in Hnd. apply NoDup_cons in Hnd as [Hr Hnd].
  destruct (Hsrc r) as (k & e & Hk & He & Er); [constructor|].
  assert (Key r = k) as HK by (subst r; apply Key_snapshotEntry).
  assert (view T db !! k = None) as Hnone by (rewrite <-HK; apply Hfresh; constructor).
  destruct (restore_record db (so_value os k) k e Hok He Hnone) as [H1 H2].
  unfold snapshot_cmds in *. cbn [map concat]. rewrite apply_all_app, Er.
  set (db1 := apply_all replay_at (record_cmds tw (snapshotEntry (so_value os k) k e)) db) in *.
  destruct (IH db1) as [H3 H4]; [done|done| | |].
  { intros r' Hr'. apply Hsrc. by constructor. }
  { intros r' Hr'. rewrite H2. rewrite lookup_insert_ne.
    - apply Hfresh. by constructor.
    - rewrite <-HK. intros E. apply Hr. rewrite E. apply list_elem_of_fmap. eauto. }
  split; [done|]. intros k'. rewrite H4, Key_snapshotEntry, H2.
  destruct (decide (k' = k)) as [->|Hne].
  - rewrite HK in Hr. rewrite decide_False by done. rewrite decide_True by constructor.
    by rewrite lookup_insert_eq, Hk.
  - rewrite lookup_insert_ne by done. destruct (decide (k' ∈ map Key rs)) as [Hin|Hin].
    + by rewrite decide_True by by constructor.
    + rewrite decide_False; [done|]. rewrite elem_of_cons. naive_solver.
Qed.

Lemma compaction_restores os db now :
  db_ok db →
  let db' := apply_all replay_at (snapshot_cmds tw (Snapshot os db now)) newDB in
  db_ok db' ∧ view T db' = rebased <$> view now db.
Proof.
  intros Hok. cbn zeta. set (rs := Snapshot os db now).
  destruct (restore_records (keyspace db) os rs newDB) as [H1 H2].
  - apply newDB_ok.
  - by apply NoDup_Snapshot.
  - intros r Hr. apply elem_of_Snapshot in Hr as (k & e & Hk & Hx & ->); [|done].
    exists k, e. rewrite keyspace_lookup by done. split_and!; [done|by eapply lookup_entry_ok|done].
  - intros r _. by rewrite view_newDB, lookup_empty.
  - split; [done|]. apply map_eq. intros k. rewrite H2, lookup_fmap, (view_peek now db) by done.
    destruct (decide (k ∈ map Key rs)) as [Hin|Hnin].
    + apply list_elem_of_fmap in Hin as (r & -> & Hr).
      apply elem_of_Snapshot in Hr as (k & e & Hk & Hx & ->); [|done].
      rewrite Key_snapshotEntry, keyspace_lookup by done.
      assert (peek (shardFor db k) k now = Some e) as -> by (by apply peek_Some). by rewrite Hk.
    + destruct (peek (shardFor db k) k now) as [e|] eqn:E.
      * apply peek_Some in E as [E1 E2]. exfalso. apply Hnin. apply list_elem_of_fmap.
        exists (snapshotEntry (so_value os k) k e). rewrite Key_snapshotEntry. split; [done|].
        apply elem_of_Snapshot; [done|]. eauto.
      * by rewrite view_newDB, lookup_empty.
Qed.
End restore.

(** * The swap of the files *)

(** The calls up to the rename succeed; and the reopen after it.  The stat
    at the end only decides when the log is rewritten next. *)
Definition replaced (io : rewrite_io) : Prop :=
  r_open io = true ∧ r_accept io = None ∧ r_sync io = true ∧ r_close io = true ∧ r_rename io = true.

Definition all_ok (io : rewrite_io) : Prop := replaced io ∧ r_reopen io = true.

(** The temporary path is not a second name of the log, and the handle is
    an inode of the file system. *)
Definition tmp_free (w : World) (a : AOF) (path : bytes) : Prop :=
  let tmp := path ++ B ".tmp" in
  (a_f a < length (inodes w))%nat ∧
  ∀ i, dir w !! tmp = Some i →
    (i < length (inodes w))%nat ∧ i ≠ a_f a ∧ dir w !! path ≠ Some i.

Lemma tmp_ne (path : bytes) : path ++ B ".tmp" ≠ path.
Proof. intros E. apply (f_equal length) in E. rewrite length_app in E. simpl in E. lia. Qed.

(** The inode of the temporary file: its name and its content; no other
    inode below it changes. *)
Lemma open_trunc_spec w a path :
  tmp_free w a path → fs_ok w path →
  let '(w1, i) := open_trunc w (path ++ B ".tmp") in
  (i < length (inodes w1))%nat ∧ inode w1 i = mkInode [] 0 ∧
  dir w1 = <[path ++ B ".tmp" := i]> (dir w) ∧
  i ≠ a_f a ∧ dir w !! path ≠ Some i ∧
  (∀ j, j ≠ i → inode w1 j = inode w j) ∧ (length (inodes w) ≤ length (inodes w1))%nat.
Proof.
  intros [Ha Ht] Hfs. unfold open_trunc, open_create.
  destruct (dir w !! (path ++ B ".tmp")) as [i|] eqn:E.
  - destruct (Ht i eq_refl) as (H1 & H2 & H3). split_and!; try done.
    + cbn [set_inode inodes]. by rewrite length_insert.
    + by apply inode_set_eq.
    + cbn [set_inode dir]. by rewrite insert_id.
    + intros j Hj. unfold inode. cbn [set_inode inodes]. by rewrite list_lookup_insert_ne.
    + cbn [set_inode inodes]. by rewrite length_insert.
  - split_and!; try done.
    + cbn [set_inode inodes]. rewrite length_insert, length_app. simpl. lia.
    + apply inode_set_eq. simpl. rewrite length_app. simpl. lia.
    + lia.
    + intros Hp. apply Hfs in Hp as [Hp _]. lia.
    + intros j Hj. unfold inode. cbn [set_inode inodes]. rewrite list_lookup_insert_ne by done.
      destruct (decide (j < length (inodes w))%nat).
      * by rewrite lookup_app_l.
      * rewrite (lookup_ge_None_2 (inodes w)) by lia. rewrite lookup_ge_None_2; [done|].
        rewrite length_app. simpl. lia.
    + cbn [set_inode inodes]. rewrite length_insert, length_app. lia.
Qed.

(** A failure before the rename: the log, its handle and their bytes are
    what they were. *)
Lemma Rewrite_fails w a path now rs io w' a' :
  tmp_free w a path → fs_ok w path → r_reopen io = true →
  Rewrite w a path now rs io = Some (w', a', false) →
  a' = a ∧ file w' path = file w path ∧ inode w' (a_f a) = inode w (a_f a) ∧
  (∀ i, dir w !! path = Some i → dir w' !! path = Some i ∧ inode w' i = inode w i).
Proof.
  intros Ht Hfs Hre. unfold Rewrite. destruct (r_open io); cbn [negb]; [|by intros [= <- <-]].
  pose proof (open_trunc_spec w a path Ht Hfs) as H.
  destruct (open_trunc w (path ++ B ".tmp")) as [w1 i].
  destruct H as (H1 & H2 & H3 & H4 & H5 & H6 & H7).
  assert (∀ n, file (remove (set_inode w1 i n) (path ++ B ".tmp")) path = file w path ∧
    inode (remove (set_inode w1 i n) (path ++ B ".tmp")) (a_f a) = inode w (a_f a) ∧
    (∀ j, dir w !! path = Some j →
       dir (remove (set_inode w1 i n) (path ++ B ".tmp")) !! path = Some j ∧
       inode (remove (set_inode w1 i n) (path ++ B ".tmp")) j = inode w j)) as Hsame.
  { intros n. assert (∀ j, j ≠ i → inode (remove (set_inode w1 i n) (path ++ B ".tmp")) j = inode w j) as Hj.
    { intros j Hj. rewrite <-H6 by done. unfold inode. simpl. by rewrite list_lookup_insert_ne. }
    assert (dir (remove (set_inode w1 i n) (path ++ B ".tmp")) !! path = dir w !! path) as Hd.
    { simpl. rewrite H3, lookup_delete_ne, lookup_insert_ne by apply tmp_ne. done. }
    split_and!; [|by apply Hj|].
    - unfold file. rewrite Hd. destruct (dir w !! path) as [j|] eqn:E; [|done].
      rewrite Hj; [done|]. congruence.
    - intros j E. rewrite Hd. split; [done|]. apply Hj. congruence. }
  destruct (writeSnapshot now rs) as [[out err]|]; [|done].
  assert (∀ k p n, set_inode (set_inode w1 i n) i (mkInode p k) = set_inode w1 i (mkInode p k)) as Hss.
  { intros k p n. unfold set_inode. simpl. by rewrite list_insert_insert_eq. }
  unfold fwrite, fsync, open_create, Flush, fwrite. rewrite Hre. intros Hrun.
  repeat (case_match; simplify_eq/=; try (split; [done|]; rewrite ?Hss; by apply Hsame)).
Qed.

(** [Rewrite] keeps the fsync mode and the everysec goroutine. *)
Lemma Rewrite_mode w a path now rs io w' a' ok :
  Rewrite w a path now rs io = Some (w', a', ok) →
  a_mode a' = a_mode a ∧ a_ticking a' = a_ticking a.
Proof.
  unfold Rewrite. destruct (open_trunc w _) as [w1 i]. intros E.
  repeat (case_match; simplify_eq/=; try done).
  match goal with H : Flush _ a _ = _ |- _ => revert H end. unfold Flush.
  repeat case_match; by intros [= <- <- <-].
Qed.

(** A failed [Rewrite] leaves no temporary file behind. *)
Lemma Rewrite_fails_clean w a path now rs io w' a' :
  dir w !! (path ++ B ".tmp") = None → r_reopen io = true →
  Rewrite w a path now rs io = Some (w', a', false) →
  dir w' !! (path ++ B ".tmp") = None ∧ (length (inodes w) ≤ length (inodes w'))%nat.
Proof.
  intros Ht Hre. unfold Rewrite, open_trunc, open_create. rewrite Ht, Hre.
  destruct (r_open io); cbn [negb]; [|by intros [= <- <-]].
  unfold fwrite, fsync. intros E. repeat (case_match; simplify_eq/=; try done).
  all: split; [by rewrite lookup_delete_eq|]; rewrite ?length_insert, length_app; lia.
Qed.

(** When the reopen and the stat succeed, success means everything did. *)
Lemma Rewrite_true_ok w a path now rs io w' a' :
  Rewrite w a path now rs io = Some (w', a', true) → all_ok io.
Proof.
  unfold Rewrite, all_ok, replaced.
  destruct (r_open io); cbn [negb]; [|done]. destruct (open_trunc _ _) as [w1 i].
  unfold fwrite, fsync. destruct (r_accept io); [by intros; repeat case_match|].
  destruct (r_sync io), (r_close io), (r_rename io), (r_reopen io); by intros; repeat case_match.
Qed.

Lemma writeSnapshot_total now rs :
  Forall (λ r, recordValue r ≠ None) rs → is_Some (writeSnapshot now rs).
Proof.
  induction 1 as [|r rs Hr _ [x IH]]; [by eexists|]. cbn [writeSnapshot]. unfold encodeRecord.
  rewrite IH. destruct (recordValue r) as [[v|]|]; [..|done]; repeat case_match; eauto.
Qed.

Lemma Snapshot_records os db now :
  db_ok db → Forall (λ r, recordValue r ≠ None) (Snapshot os db now).
Proof.
  intros Hok. apply Forall_forall. intros r Hr. apply elem_of_Snapshot in Hr as (k & e & _ & _ & ->); [|done].
  apply recordValue_entry.
Qed.

(** A rewrite to records of stored entries does not panic. *)
Lemma Rewrite_records w a path tw rs io :
  Forall (λ r, recordValue r ≠ None) rs → is_Some (Rewrite w a path tw rs io).
Proof.
  intros Hrs. unfold Rewrite. destruct (writeSnapshot_total tw rs Hrs) as [x ->]. repeat case_match; eauto.
Qed.

Lemma Rewrite_total w a path tw os db now io :
  db_ok db → is_Some (Rewrite w a path tw (Snapshot os db now) io).
Proof. intros Hok. by apply Rewrite_records, Snapshot_records. Qed.

(** Everything succeeds: the path names the snapshot, durable, and the
    handle appends after it.  A log whose writes failed is replaced too. *)
Lemma Rewrite_succeeds w a path now rs io cmds :
  tmp_free w a path → fs_ok w path → all_ok io → a_buf a = [] ∨ a_err a = true →
  writeSnapshot now rs = Some (encode_all cmds, None) → Forall wire_ok cmds →
  ∃ w' a', Rewrite w a path now rs io = Some (w', a', true) ∧
    log_inv cmds w' a' [] [] [] [] ∧ dir w' !! path = Some (a_f a') ∧
    dir w' !! (path ++ B ".tmp") = None ∧
    idata (inode w' (a_f a')) = encode_all cmds ∧
    idurable (inode w' (a_f a')) = length (encode_all cmds) ∧
    (r_stat io = true → a_baseSize a' = zlen (encode_all cmds)) ∧ a_counted a' = false ∧ a_mode a' = a_mode a ∧
    a_err a' = false.
Proof.
  intros Ht Hfs [(I1 & I2 & I3 & I4 & I5) I6] Hb Hws Hw. unfold Rewrite.
  rewrite I1, I2, I3, I4, I5, I6, Hws. cbn [negb].
  pose proof (open_trunc_spec w a path Ht Hfs) as H.
  destruct (open_trunc w (path ++ B ".tmp")) as [w1 i].
  destruct H as (H1 & H2 & H3 & H4 & H5 & H6 & H7). unfold fwrite, fsync.
  rewrite H2. cbn [idata idurable app]. rewrite inode_set_eq by done. cbn [idata negb].
  set (bs := encode_all cmds).
  assert (set_inode (set_inode w1 i (mkInode bs 0)) i (mkInode bs (length bs))
          = set_inode w1 i (mkInode bs (length bs))) as ->
    by (unfold set_inode; simpl; by rewrite list_insert_insert_eq).
  set (w2 := set_inode w1 i (mkInode bs (length bs))).
  assert (rename w2 (path ++ B ".tmp") path
    = mkWorld (inodes w2) (<[path := i]> (delete (path ++ B ".tmp") (dir w1))) (aofBytes w2)) as ->.
  { unfold rename. cbn [w2 set_inode dir]. by rewrite H3, lookup_insert_eq. }
  unfold open_create. cbn [dir]. rewrite lookup_insert_eq.
  set (w3 := mkWorld (inodes w2) _ _).
  assert (inode w3 i = mkInode bs (length bs)) as Hi3 by (by apply inode_set_eq).
  destruct (Flush w3 a (r_flush io)) as [[w4 a4] ok4] eqn:Ef.
  assert (inode w4 i = mkInode bs (length bs) ∧ dir w4 = dir w3 ∧
          (i < length (inodes w4))%nat ∧ a_mode a4 = a_mode a) as (Hi4 & Hd4 & Hl4 & Hm4).
  { assert (i < length (inodes w3))%nat as Hl3 by (simpl; by rewrite length_insert).
    unfold Flush, fwrite in Ef.
    assert (∀ k n, inode (mkWorld (<[a_f a := n]> (inodes w3)) (dir w3) k) i = inode w3 i) as Hne
      by (intros k n; unfold inode; simpl; by rewrite list_lookup_insert_ne).
    repeat case_match; simplify_eq/=; rewrite ?length_insert in *; split_and!;
      rewrite ?Hne; done || (unfold inode; simpl; done). }
  eexists _, _. split; [reflexivity|]. cbn [a_f a_baseSize a_counted a_mode a_err]. rewrite Hi4. cbn [idata].
  split_and!; try done; [..|by intros ->].
  - split; cbn [a_f a_err a_buf]; rewrite ?Hi4, ?app_nil_r; simpl; try done; by left.
  - rewrite Hd4. apply lookup_insert_eq.
  - rewrite Hd4. unfold w3. cbn [dir]. rewrite lookup_insert_ne by apply not_eq_sym, tmp_ne.
    apply lookup_delete_eq.
Qed.

(** The rename succeeded and the reopen did not: the path names the new
    file, and every name but the path and the temporary one is unchanged. *)
Lemma Rewrite_no_reopen w a path now rs io bs :
  tmp_free w a path → fs_ok w path → replaced io → r_reopen io = false →
  writeSnapshot now rs = Some (bs, None) →
  ∃ w' i, Rewrite w a path now rs io = Some (w', a, false) ∧
    dir w' !! path = Some i ∧ inode w' i = mkInode bs (length bs) ∧ (i < length (inodes w'))%nat ∧
    dir w' !! (path ++ B ".tmp") = None ∧ (length (inodes w) ≤ length (inodes w'))%nat ∧
    ∀ p, dir w' !! p ≠ Some (a_f a) ∨ (dir w' !! p = dir w !! p ∧ p ≠ path).
Proof.
  intros Ht Hfs (I1 & I2 & I3 & I4 & I5) I6 Hws. unfold Rewrite.
  rewrite I1, I2, I3, I4, I5, I6, Hws. cbn [negb].
  pose proof (open_trunc_spec w a path Ht Hfs) as H.
  destruct (open_trunc w (path ++ B ".tmp")) as [w1 i].
  destruct H as (H1 & H2 & H3 & H4 & H5 & H6 & H7). unfold fwrite, fsync.
  rewrite H2. cbn [idata idurable app]. rewrite inode_set_eq by done. cbn [idata negb].
  eexists _, i. split; [reflexivity|].
  assert (∀ w2, dir w2 = dir w1 → inodes (rename w2 (path ++ B ".tmp") path) = inodes w2 ∧
    dir (rename w2 (path ++ B ".tmp") path) = <[path := i]> (delete (path ++ B ".tmp") (dir w1))) as Hr.
  { intros w2 Hd. unfold rename. by rewrite Hd, H3, lookup_insert_eq. }
  match goal with |- context [rename ?w2 _ _] => destruct (Hr w2 eq_refl) as [R1 R2] end.
  split_and!.
  - by rewrite R2, lookup_insert_eq.
  - unfold inode. rewrite R1. simpl. by rewrite list_lookup_insert_eq by by rewrite length_insert.
  - rewrite R1. simpl. by rewrite !length_insert.
  - rewrite R2, lookup_insert_ne by apply not_eq_sym, tmp_ne. apply lookup_delete_eq.
  - rewrite R1. simpl. by rewrite !length_insert.
  - intros p. rewrite R2, H3. destruct (decide (p = path)) as [->|Hp].
    { left. rewrite lookup_insert_eq. congruence. }
    destruct (decide (p = path ++ B ".tmp")) as [->|Hp'].
    { left. by rewrite lookup_insert_ne, lookup_delete_eq by done. }
    right. by rewrite lookup_insert_ne, lookup_delete_ne, lookup_insert_ne by done.
Qed.

(** A rewrite that does not get to its reopen does not look at its outcome. *)
Definition reopening (io : rewrite_io) : rewrite_io :=
  {| r_open := r_open io; r_accept := r_accept io; r_sync := r_sync io; r_close := r_close io;
     r_rename := r_rename io; r_reopen := true; r_flush := r_flush io; r_stat := r_stat io |}.

Lemma Rewrite_not_replaced w a path now rs io :
  ¬ replaced io → Rewrite w a path now rs (reopening io) = Rewrite w a path now rs io.
Proof.
  unfold replaced, Rewrite. cbn [reopening r_open r_accept r_sync r_close r_rename r_flush r_stat]. intros Hn.
  destruct (r_open io); [|done]. destruct (open_trunc _ _) as [w1 i]. destruct (writeSnapshot _ _) as [[out []]|]; [done| |done].
  destruct (r_accept io); [done|]. destruct (r_sync io); [|done].
  destruct (r_close io); [|done]. destruct (r_rename io); [|done]. by destruct Hn.
Qed.

(** ** In the middle of a rewrite *)

(** What the file system may hold while [Rewrite] runs: the temporary file
    with some of the bytes, with all of them synced, or (the boolean) under
    the path of the log. *)
Inductive mid_rewrite (w : World) (path : bytes) (now : Z) (rs : list SnapshotEntry) : World → bool → Prop :=
  | M_writing w1 i out err k :
      open_trunc w (path ++ B ".tmp") = (w1, i) → writeSnapshot now rs = Some (out, err) →
      mid_rewrite w path now rs (fwrite w1 i out (Some k)).1 false
  | M_synced w1 i out :
      open_trunc w (path ++ B ".tmp") = (w1, i) → writeSnapshot now rs = Some (out, None) →
      mid_rewrite w path now rs (fsync (fwrite w1 i out None).1 i true).1 false
  | M_renamed w1 i out :
      open_trunc w (path ++ B ".tmp") = (w1, i) → writeSnapshot now rs = Some (out, None) →
      mid_rewrite w path now rs
        (rename (fsync (fwrite w1 i out None).1 i true).1 (path ++ B ".tmp") path) true.

(** Every [Rewrite] that opened its temporary file goes through one of them:
    it ends there, having removed that file when it failed before the rename,
    or reopened the path after it. *)
Lemma Rewrite_passes w a path now rs io w' a' ok :
  r_open io = true → Rewrite w a path now rs io = Some (w', a', ok) →
  ∃ wm swapped, mid_rewrite w path now rs wm swapped ∧
    if swapped then w' = wm ∧ ok = false ∨ w' = (Flush (open_create wm path).1 a (r_flush io)).1.1 ∧ ok = true
    else w' = remove wm (path ++ B ".tmp") ∧ ok = false.
Proof.
  intros Ho. unfold Rewrite. rewrite Ho. cbn [negb]. destruct (open_trunc w _) as [w1 i] eqn:Eo.
  destruct (writeSnapshot now rs) as [[out err]|] eqn:Ews; [|done].
  assert (∀ w2 b, fwrite w1 i out (r_accept io) = (w2, b) →
    mid_rewrite w path now rs w2 false ∧ (b = true → w2 = (fwrite w1 i out None).1)) as Hw.
  { intros w2 b. unfold fwrite. destruct (r_accept io) as [k|]; intros [= <- <-]; (split; [|done]).
    - exact (M_writing _ _ _ _ _ _ _ _ k Eo Ews).
    - rewrite <-(firstn_all out) at 1. exact (M_writing _ _ _ _ _ _ _ _ (length out) Eo Ews). }
  destruct (fwrite w1 i out (r_accept io)) as [w2 written]. destruct (Hw _ _ eq_refl) as [Hm Hall].
  destruct err as [err|]; [intros [= <- <- <-]; by exists w2, false|].
  destruct written; [|intros [= <- <- <-]; by exists w2, false]. rewrite (Hall eq_refl) in *.
  destruct (r_sync io); cbn [negb];
    [|intros E; unfold fsync in E; simplify_eq/=; by eexists _, false].
  destruct (fsync _ i true) as [w3 synced] eqn:Es.
  assert (synced = true) as -> by (unfold fsync in Es; by simplify_eq). cbn [negb].
  pose proof (M_synced _ _ _ _ _ _ _ Eo Ews) as H3. rewrite Es in H3.
  pose proof (M_renamed _ _ _ _ _ _ _ Eo Ews) as H4. rewrite Es in H4. cbn [fst] in *.
  destruct (r_close io); cbn [negb]; [|intros [= <- <- <-]; by exists w3, false].
  destruct (r_rename io); cbn [negb]; [|intros [= <- <- <-]; by exists w3, false].
  destruct (r_reopen io); cbn [negb]; [|intros [= <- <- <-]; eexists _, true; split; [exact H4|by left]].
  destruct (open_create _ path) as [w5 nf] eqn:E5. destruct (Flush w5 a _) as [[w6 a6] fl] eqn:E6.
  intros [= <- <- <-]. eexists _, true. split; [exact H4|right]. rewrite E5. cbn [fst]. by rewrite E6.
Qed.

(** At each of these points the path names the old file, as it was, or the
    complete snapshot, durable. *)
Lemma mid_rewrite_inode w a path now rs w' swapped :
  tmp_free w a path → fs_ok w path → mid_rewrite w path now rs w' swapped →
  if swapped then
    ∃ i out, writeSnapshot now rs = Some (out, None) ∧ dir w' !! path = Some i ∧ inode w' i = mkInode out (length out)
  else dir w' !! path = dir w !! path ∧ ∀ i, dir w !! path = Some i → inode w' i = inode w i.
Proof.
  intros Ht Hfs Hm. pose proof (open_trunc_spec w a path Ht Hfs) as H.
  assert (∀ w1 i n m, inode (set_inode (set_inode w1 i n) i m) i = inode (set_inode w1 i m) i) as Hss
    by (intros; unfold inode, set_inode; simpl; by rewrite list_insert_insert_eq).
  destruct Hm as [w1 i out err k Eo Hws|w1 i out Eo Hws|w1 i out Eo Hws]; rewrite Eo in H;
    destruct H as (H1 & H2 & H3 & H4 & H5 & H6 & H7); unfold fwrite, fsync; rewrite H2; cbn [fst idata idurable app].
  1,2: split; [simpl; by rewrite H3, lookup_insert_ne by apply tmp_ne|].
  1,2: intros j Hj; rewrite <-H6 by congruence; unfold inode; simpl;
    by rewrite ?list_lookup_insert_ne by congruence.
  exists i, out. rewrite inode_set_eq by done. cbn [idata]. split; [done|].
  assert (∀ w2, dir w2 = dir w1 → inodes (rename w2 (path ++ B ".tmp") path) = inodes w2 ∧
    dir (rename w2 (path ++ B ".tmp") path) = <[path := i]> (delete (path ++ B ".tmp") (dir w1))) as Hr.
  { intros w2 Hd. unfold rename. by rewrite Hd, H3, lookup_insert_eq. }
  match goal with |- context [rename ?w2 _ _] => destruct (Hr w2 eq_refl) as [R1 R2] end.
  split; [by rewrite R2, lookup_insert_eq|]. unfold inode at 1. rewrite R1. simpl.
  by rewrite list_lookup_insert_eq by by rewrite length_insert.
Qed.

Lemma mid_rewrite_file w a path now rs w' swapped :
  tmp_free w a path → fs_ok w path → mid_rewrite w path now rs w' swapped →
  if swapped then ∃ out, writeSnapshot now rs = Some (out, None) ∧ file w' path = Some out
  else file w' path = file w path.
Proof.
  intros Ht Hfs Hm. pose proof (mid_rewrite_inode _ _ _ _ _ _ _ Ht Hfs Hm) as H. unfold file. destruct swapped.
  - destruct H as (i & out & Hws & -> & ->). by exists out.
  - destruct H as [-> Hi]. destruct (dir w !! path) as [i|]; [|done]. by rewrite (Hi i eq_refl).
Qed.

(** An append whose system calls succeed changes only its handle's inode. *)
Lemma Append_elsewhere w a cmd :
  a_err a = false → a_buf a = [] → (Encode cmd).2 = None →
  (Append w a cmd None true).2 = true ∧ dir (Append w a cmd None true).1.1 = dir w ∧
  ∀ j, j ≠ a_f a → inode (Append w a cmd None true).1.1 j = inode w j.
Proof.
  intros He Hb Henc. unfold Append, Flush, fsync, fwrite. cbn [buffer a_err a_buf a_f]. rewrite He.
  destruct (Encode cmd) as [out err]. simpl in Henc. subst err. cbn [negb a_mode a_f].
  simpl. destruct (bool_decide (a_mode a = FsyncAlways)); simpl;
    (split_and!; [done|done|]; intros j Hj; unfold inode; simpl; by rewrite ?list_lookup_insert_ne).
Qed.

(** System calls that all succeed, and an open log, for concrete runs. *)
Definition io_ok : rewrite_io :=
  {| r_open := true; r_accept := None; r_sync := true; r_close := true; r_rename := true;
     r_reopen := true; r_flush := None; r_stat := true |}.

Definition log_world : World := (Open empty_world (B "aof") FsyncAlways true true).1.
Definition log_handle : AOF := mkAOF 0 [] false true FsyncAlways 0 false.
Definition orders_id : snap_orders := {| so_shard := λ _, order_id; so_value := λ _, order_rev |}.

Lemma log_tmp_free : tmp_free log_world log_handle (B "aof").
Proof.
  split; [vm_compute; lia|]. intros i Hi. vm_compute in Hi. discriminate Hi.
Qed.

Lemma log_fs_ok : fs_ok log_world (B "aof").
Proof.
  intros i Hi. assert (i = 0%nat) as -> by (vm_compute in Hi; congruence).
  split; vm_compute; lia.
Qed.

(** * Properties *)

(** The bytes written for a snapshot replay to what it was taken of. *)
Lemma snapshot_replays `{GoUnicode} (o : map_order) T tw os db now :
  db_ok db →
  Forall wire_ok (snapshot_cmds tw (Snapshot os db now)) →
  ∃ bs db', writeSnapshot tw (Snapshot os db now) = Some (bs, None) ∧
    Replay (replay_at o T) (Contents (mkReader bs EOF)) newDB
    = (db', zlen (snapshot_cmds tw (Snapshot os db now)), Finished) ∧
    db_ok db' ∧ view T db' = rebased T tw <$> view now db.
Proof.
  intros Hok Hw. exists (encode_all (snapshot_cmds tw (Snapshot os db now))).
  eexists. split_and!.
  - apply writeSnapshot_cmds; [|done]. apply Forall_forall.
    intros r (k & e & _ & _ & ->)%elem_of_Snapshot; [|done]. apply recordValue_entry.
  - rewrite <-(app_nil_r (encode_all _)). apply Replay_all; [done|by left|done].
  - by apply compaction_restores.
  - by apply compaction_restores.
Qed.

(** C11: compaction preserves the state: the bytes [writeSnapshot] produces
    for a snapshot of any well-formed store, taken at [now] and written at
    [tw], replay from an empty store, at [T], to exactly the live keyspace:
    the same keys with the same values, persistent keys persistent, and
    every other key with the milliseconds it had left (at least one)
    counted from [T]; the expired keys stay gone. *)
Theorem compaction_preserves_state `{GoUnicode} (o : map_order) T tw os db now :
  db_ok db →
  Forall wire_ok (snapshot_cmds tw (Snapshot os db now)) →
  ∃ bs db', writeSnapshot tw (Snapshot os db now) = Some (bs, None) ∧
    Replay (replay_at o T) (Contents (mkReader bs EOF)) newDB
    = (db', zlen (snapshot_cmds tw (Snapshot os db now)), Finished) ∧
    db_ok db' ∧ view T db' = rebased T tw <$> view now db.
Proof. apply snapshot_replays. Qed.

Lemma compaction_preserves_state_witness :
  ∃ bs db', writeSnapshot 50 (Snapshot orders_id sample_store 40) = Some (bs, None) ∧
    @Replay _ (@replay_at plain_unicode order_id 90) (Contents (mkReader bs EOF)) newDB
    = (db', zlen (snapshot_cmds 50 (Snapshot orders_id sample_store 40)), Finished) ∧
    db_ok db' ∧ view 90 db' = rebased 90 50 <$> view 40 sample_store.
Proof.
  apply (@compaction_preserves_state plain_unicode order_id 90 50 orders_id sample_store 40
           sample_store_ok).
  apply wire_okb_all. vm_compute. reflexivity.
Defined.

(** A [Rewrite] whose system calls succeed leaves the path naming
    exactly the snapshot, durable on disk, no temporary file, a handle that
    appends after it, and the new size as the growth baseline. *)
Theorem rewrite_swaps_log w a path tw rs io :
  tmp_free w a path → fs_ok w path → all_ok io → a_buf a = [] →
  Forall (λ r, recordValue r ≠ None) rs → Forall wire_ok (snapshot_cmds tw rs) →
  ∃ w' a', Rewrite w a path tw rs io = Some (w', a', true) ∧
    file w' path = Some (encode_all (snapshot_cmds tw rs)) ∧
    file w' (path ++ B ".tmp") = None ∧
    dir w' !! path = Some (a_f a') ∧ a_err a' = false ∧ a_buf a' = [] ∧
    idurable (inode w' (a_f a')) = length (encode_all (snapshot_cmds tw rs)) ∧
    (r_stat io = true → a_baseSize a' = zlen (encode_all (snapshot_cmds tw rs))).
Proof.
  intros Ht Hfs Hio Hb Hrs Hw.
  destruct (Rewrite_succeeds w a path tw rs io (snapshot_cmds tw rs) Ht Hfs Hio (or_introl Hb))
    as (w' & a' & E & Hinv & Hd & Htmp & Hdat & Hdur & Hbase & _ & _ & He);
    [by apply writeSnapshot_cmds|done|].
  exists w', a'. unfold file. rewrite Hd, Htmp, Hdat.
  split_and!; try done. by apply (li_clean _ _ _ _ _ _ _ Hinv).
Qed.

Lemma rewrite_swaps_log_witness :
  ∃ w' a', Rewrite log_world log_handle (B "aof") 7 (Snapshot orders_id sample_store 7) io_ok
           = Some (w', a', true) ∧
    file w' (B "aof") = Some (encode_all (snapshot_cmds 7 (Snapshot orders_id sample_store 7))) ∧
    file w' (B "aof" ++ B ".tmp") = None ∧
    dir w' !! B "aof" = Some (a_f a') ∧ a_err a' = false ∧ a_buf a' = [] ∧
    idurable (inode w' (a_f a'))
    = length (encode_all (snapshot_cmds 7 (Snapshot orders_id sample_store 7))) ∧
    (r_stat io_ok = true → a_baseSize a' = zlen (encode_all (snapshot_cmds 7 (Snapshot orders_id sample_store 7)))).
Proof.
  apply (rewrite_swaps_log log_world log_handle (B "aof") 7 (Snapshot orders_id sample_store 7) io_ok
           log_tmp_free log_fs_ok).
  - repeat split.
  - reflexivity.
  - apply Forall_forall. intros r Hr. apply elem_of_Snapshot in Hr as (k & e & _ & _ & ->).
    + apply recordValue_entry.
    + exact sample_store_ok.
  - apply wire_okb_all. vm_compute. reflexivity.
Defined.

(** A [Rewrite] that fails at any step up to and including the rename
    leaves the log as it was: the path has the same bytes, and the handle
    is the same and still names the same inode. *)
Theorem rewrite_failure_keeps_log w a path tw rs io w' a' :
  tmp_free w a path → fs_ok w path → r_reopen io = true →
  Rewrite w a path tw rs io = Some (w', a', false) →
  a' = a ∧ file w' path = file w path ∧ inode w' (a_f a) = inode w (a_f a).
Proof.
  intros Ht Hfs Hre E. destruct (Rewrite_fails _ _ _ _ _ _ _ _ Ht Hfs Hre E) as (? & ? & ? & _).
  by split_and!.
Qed.

Lemma rewrite_failure_keeps_log_witness :
  let io := {| r_open := true; r_accept := None; r_sync := false; r_close := true;
               r_rename := true; r_reopen := true; r_flush := None; r_stat := true |} in
  ∃ w' a', Rewrite log_world log_handle (B "aof") 7 [] io = Some (w', a', false) ∧
    a' = log_handle ∧ file w' (B "aof") = file log_world (B "aof") ∧
    inode w' (a_f log_handle) = inode log_world (a_f log_handle).
Proof.
  eexists _, _. split; [reflexivity|].
  eapply (rewrite_failure_keeps_log log_world log_handle (B "aof") 7 []
    {| r_open := true; r_accept := None; r_sync := false; r_close := true;
       r_rename := true; r_reopen := true; r_flush := None; r_stat := true |});
    [exact log_tmp_free|exact log_fs_ok|reflexivity|reflexivity].
Defined.

(** C15: the swap of the logs is atomic at every instant.  Whenever during a
    [Rewrite] the process is killed, or the machine loses power, the path of
    the log names either the old file, with everything in it that was
    durable before, or the new one with the whole snapshot: never a partial
    one, whatever part of the temporary file was written. *)
Theorem rewrite_crash_atomic w a path tw rs w' swapped bs i :
  tmp_free w a path → fs_ok w path →
  Forall (λ r, recordValue r ≠ None) rs → Forall wire_ok (snapshot_cmds tw rs) →
  mid_rewrite w path tw rs w' swapped → dir w' !! path = Some i → after_power_loss (inode w' i) bs →
  if swapped then bs = encode_all (snapshot_cmds tw rs)
  else dir w !! path = Some i ∧ after_power_loss (inode w i) bs.
Proof.
  intros Ht Hfs Hrs Hw Hm Hi Hp. pose proof (mid_rewrite_inode _ _ _ _ _ _ _ Ht Hfs Hm) as H. destruct swapped.
  - destruct H as (j & out & Hws & Hj & Hin). rewrite Hi in Hj. injection Hj as <-. rewrite Hin in Hp.
    rewrite (writeSnapshot_cmds _ _ Hrs Hw) in Hws. injection Hws as <-. by apply power_loss_whole in Hp.
  - destruct H as [Hd Hin]. rewrite Hd in Hi. by rewrite <-(Hin i Hi).
Qed.

(** The rename has happened, the reopen has not. *)
Lemma rewrite_crash_atomic_witness :
  ∃ w' i, mid_rewrite log_world (B "aof") 7 (Snapshot orders_id sample_store 7) w' true ∧
    dir w' !! B "aof" = Some i ∧
    ∀ bs, after_power_loss (inode w' i) bs → bs = encode_all (snapshot_cmds 7 (Snapshot orders_id sample_store 7)).
Proof.
  destruct (open_trunc log_world (B "aof" ++ B ".tmp")) as [w1 i] eqn:Eo.
  assert (Forall wire_ok (snapshot_cmds 7 (Snapshot orders_id sample_store 7))) as Hw
    by (apply wire_okb_all; vm_compute; reflexivity).
  assert (Forall (λ r, recordValue r ≠ None) (Snapshot orders_id sample_store 7)) as Hr
    by (apply Snapshot_records; exact sample_store_ok).
  pose proof (M_renamed log_world (B "aof") 7 _ w1 i _ Eo (writeSnapshot_cmds 7 _ Hr Hw)) as Hm.
  pose proof (mid_rewrite_inode log_world log_handle (B "aof") 7 _ _ true log_tmp_free log_fs_ok Hm)
    as (j & out & _ & Hj & _).
  eexists _, j. split; [exact Hm|]. split; [exact Hj|]. intros bs Hbs.
  exact (rewrite_crash_atomic log_world log_handle (B "aof") 7 _ _ true bs j log_tmp_free log_fs_ok Hr Hw Hm Hj Hbs).
Defined.

(** A [Rewrite] whose last step, reopening the path, fails returns an
    error although the log has already been replaced, and keeps the handle
    on the old inode, which no path names any more: every later [Append]
    reports success, synced, and no file of the file system changes. *)
Theorem rewrite_reopen_failure_loses_writes w a path tw rs io :
  tmp_free w a path → fs_ok w path →
  (∀ p, dir w !! p = Some (a_f a) → p = path) → a_err a = false → a_buf a = [] →
  replaced io → r_reopen io = false →
  Forall (λ r, recordValue r ≠ None) rs → Forall wire_ok (snapshot_cmds tw rs) →
  ∃ w1, Rewrite w a path tw rs io = Some (w1, a, false) ∧
    file w1 path = Some (encode_all (snapshot_cmds tw rs)) ∧
    ∀ cmd, (Encode cmd).2 = None →
      (Append w1 a cmd None true).2 = true ∧
      ∀ p, file (Append w1 a cmd None true).1.1 p = file w1 p.
Proof.
  intros Ht Hfs Huniq He Hb Hio Hre Hrs Hw.
  destruct (Rewrite_no_reopen w a path tw rs io (encode_all (snapshot_cmds tw rs)) Ht Hfs)
    as (w1 & i & E & Hi & Hin & _ & _ & _ & Hd); [done..|by apply writeSnapshot_cmds|].
  exists w1. split_and!; [done|unfold file; by rewrite Hi, Hin|]. intros cmd Henc.
  destruct (Append_elsewhere w1 a cmd He Hb Henc) as (H1 & H2 & H3). split; [done|].
  intros p. unfold file. rewrite H2. destruct (dir w1 !! p) as [j|] eqn:Ej; [|done].
  rewrite H3; [done|]. intros ->. destruct (Hd p) as [Hp|[Hp Hne]]; [by rewrite Ej in Hp|].
  apply Hne, Huniq. congruence.
Qed.

Lemma rewrite_reopen_failure_loses_writes_witness :
  let io := {| r_open := true; r_accept := None; r_sync := true; r_close := true;
               r_rename := true; r_reopen := false; r_flush := None; r_stat := true |} in
  ∃ w1, Rewrite log_world log_handle (B "aof") 7 [] io = Some (w1, log_handle, false) ∧
    file w1 (B "aof") = Some (encode_all (snapshot_cmds 7 [])) ∧
    ∀ cmd, (Encode cmd).2 = None →
      (Append w1 log_handle cmd None true).2 = true ∧
      ∀ p, file (Append w1 log_handle cmd None true).1.1 p = file w1 p.
Proof.
  apply (rewrite_reopen_failure_loses_writes log_world log_handle (B "aof") 7 []
    {| r_open := true; r_accept := None; r_sync := true; r_close := true;
       r_rename := true; r_reopen := false; r_flush := None; r_stat := true |}
    log_tmp_free log_fs_ok); [|reflexivity|reflexivity|repeat split|reflexivity|..].
  - intros p Hp. change (dir log_world) with (<[B "aof" := 0%nat]> (∅ : gmap bytes nat)) in Hp.
    apply lookup_insert_Some in Hp as [[<- _]|[_ Hp]]; [reflexivity|].
    rewrite lookup_empty in Hp. discriminate Hp.
  - constructor.
  - constructor.
Defined.

(** After a successful [Rewrite] the new buffer no longer writes
    through [countingWriter], so the bytes of later appends are written but
    not added to [aof_bytes_written]. *)
Theorem rewrite_stops_byte_counter w a path tw rs io w' a' cmd :
  Rewrite w a path tw rs io = Some (w', a', true) →
  (Encode cmd).2 = None →
  let '(w2, a2, ok) := Append w' a' cmd None true in
  ok = true ∧ aofBytes w2 = aofBytes w'.
Proof.
  intros E Henc. assert (a_counted a' = false ∧ a_err a' = false) as [Hc He].
  { unfold Rewrite in E. repeat (case_match; simplify_eq/=; try done). }
  unfold Append, Flush, fsync, fwrite. cbn [buffer a_err]. rewrite He.
  destruct (Encode cmd) as [out err]. simpl in Henc. subst err. simpl. rewrite ?He, ?Hc. simpl.
  by repeat case_match; simplify_eq/=.
Qed.

Lemma rewrite_stops_byte_counter_witness :
  match Rewrite log_world log_handle (B "aof") 7 [] io_ok with
  | Some (w', a', true) =>
      let '(w2, a2, ok) := Append w' a' ping None true in ok = true ∧ aofBytes w2 = aofBytes w'
  | _ => False
  end.
Proof.
  destruct (Rewrite log_world log_handle (B "aof") 7 [] io_ok) as [[[w' a'] []]|] eqn:E.
  - apply (rewrite_stops_byte_counter log_world log_handle (B "aof") 7 [] io_ok w' a' ping E).
    reflexivity.
  - vm_compute in E. discriminate E.
  - vm_compute in E. discriminate E.
Defined.
