(* ===== verification/LiveSnapshot.v ===== *)
(** [DB.Snapshot] while the server runs.  A rewrite holds the server's write
    lock, so no write command runs, but the snapshot locks one shard at a
    time: between two shards clients read (and [GET] evicts what it finds
    expired), the expiry worker visits shards, and time passes. *)

From S2P Require Import Prelude Lts GoLib Protocol ProtocolFacts PubSub Store Db Spec Refine Expiry.
From S2P Require Import History Concurrent Cmd CmdFacts CmdSpec Replay Aof AofFacts Snapshot Compaction.

(** The operations of the commands outside [writeCommands]. *)
Definition reads (x : op) : bool :=
  match x with
  | OGet _ | OExists _ | OLLen _ | OLRange _ _ _ | OHGet _ _ | OHGetAll _ | OHKeys _ | OHVals _
  | OHLen _ | OSIsMember _ _ | OSMembers _ | OSCard _ | OTTL _ => true
  | OSet _ _ | ODel _ | OLPush _ _ | ORPush _ _ | OLPop _ | ORPop _ | OHSet _ _ _ | OHDel _ _
  | OSAdd _ _ | OSRem _ _ | OExpire _ _ | OPersist _ => false
  end.

(** No goroutine is inside a write. *)
Definition reading (th : thread) : Prop :=
  match th with Start x => reads x = true | DelFrom _ _ => False | _ => True end.

(** The snapshot in progress: the next shard and what it has copied. *)
Record snapping := Snapping { x_store : cstore; x_next : nat; x_out : list SnapshotEntry }.

Section live_snapshot.
Context (os : snap_orders) (now : Z).

Inductive xstep : snapping → option label → snapping → Prop :=
  | X_other c l c' i out :
      cstep c l c' → (∀ j x, l = Some (Invoke j x) → reads x = true) →
      xstep (Snapping c i out) l (Snapping c' i out)
  | X_shard c i out sh :
      shards (c_db c) !! i = Some sh →
      xstep (Snapping c i out) None (Snapping c (S i) (out ++ snapshotShard os now i sh)).

(** ** Reads only evict *)

Definition evicted (t : Z) (db db' : DB) : Prop :=
  Forall2 (reaped t) (shards db) (shards db') ∧ pubsub db' = pubsub db.

Lemma evicted_refl t db : evicted t db db.
Proof. split; [|done]. by apply Forall_Forall2_diag, Forall_forall. Qed.

Lemma evicted_trans t db1 db2 db3 : evicted t db1 db2 → evicted t db2 db3 → evicted t db1 db3.
Proof. intros [H1 E1] [H2 E2]. split; [by etrans|congruence]. Qed.

Lemma evicted_mono t t' db db' : t ≤ t' → evicted t db db' → evicted t' db db'.
Proof. intros Ht [Hf E]. split; [|done]. eapply Forall2_impl; [exact Hf|]. intros. by eapply reaped_mono. Qed.

Lemma evicted_db t db db' :
  db_ok db → evicted t db db' → db_ok db' ∧ ∀ t', t ≤ t' → view t' db' = view t' db.
Proof.
  intros Hok [Hf E]. destruct db' as [shs b]. simpl in *. subst b. by apply reaped_db.
Qed.

Lemma expireIfNeeded_evicted db k t : evicted t db (expireIfNeeded db k t).1.
Proof.
  unfold expireIfNeeded. destruct (shardFor db k !! k) as [e|] eqn:E; [|apply evicted_refl].
  destruct (expired e t) eqn:Hx; [|apply evicted_refl]. split; [|done]. simpl.
  apply Forall2_insert_r; [apply _|]. intros sh Hsh. unfold shardFor in *.
  rewrite (list_lookup_total_correct _ _ _ Hsh) in *. by eapply reaped_delete.
Qed.

Lemma reading_section ord t th db db' th' :
  reading th → section ord t th db = Some (db', th') → evicted t db db' ∧ reading th'.
Proof.
  destruct th as [|x|k|ks n|ks n|r]; simpl; intros Hr Hs; try done.
  - destruct x; try done; simpl in Hs; simplify_eq; try (split; [apply evicted_refl|done]).
    destruct (get_read db k t); simplify_eq; (split; [apply evicted_refl|done]).
  - simplify_eq. split; [apply expireIfNeeded_evicted|done].
  - destruct ks; simplify_eq; (split; [apply evicted_refl|done]).
Qed.

Lemma worker_evicts t w db db' w' :
  db_ok db → worker_ok t w → worker_step w db = (db', w') → evicted t db db' ∧ worker_ok t w'.
Proof.
  intros Hok Hw Hs. destruct w as [|inp [|n] i s x]; simpl in Hs;
    [simplify_eq; split; [apply evicted_refl|done]..|].
  destruct (s <? activeExpirySample) eqn:E; [|simplify_eq; split; [apply evicted_refl|done]]. reflect_bools.
  destruct (visit inp i (shards db) s x) as [[shs s'] x'] eqn:Ev. simplify_eq.
  apply visit_spec in Ev as (H1 & _); [|apply Hok|done]. split; [|done].
  eapply evicted_mono; [exact Hw|]. by split.
Qed.

(** ** Invariant *)

(** Relative to the store [db0] the snapshot started on. *)
Record snap_inv (db0 : DB) (x : snapping) : Prop := {
  si_time : now ≤ c_now (x_store x);
  si_worker : worker_ok (c_now (x_store x)) (c_worker (x_store x));
  si_threads : ∀ i th, c_threads (x_store x) !! i = Some th → reading th;
  si_db : evicted (c_now (x_store x)) db0 (c_db (x_store x));
  si_seen : ∃ seen, Forall2 (reaped (c_now (x_store x))) (take (x_next x) (shards db0)) seen ∧
    length seen = x_next x ∧ x_out x = concat (imap (snapshotShard os now) seen)
}.

Lemma snap_inv_other db0 c c' i out :
  snap_inv db0 (Snapping c i out) → c_now c ≤ c_now c' → worker_ok (c_now c') (c_worker c') →
  (∀ j th, c_threads c' !! j = Some th → reading th) → evicted (c_now c') (c_db c) (c_db c') →
  snap_inv db0 (Snapping c' i out).
Proof.
  intros [H1 H2 H3 H4 (seen & H5 & H6)] Ht Hw Hth Hdb. simpl in *. split; simpl; [lia|done|done| |].
  - eapply evicted_trans; [by eapply evicted_mono|done].
  - exists seen. split; [|done]. eapply Forall2_impl; [exact H5|]. intros. by eapply reaped_mono.
Qed.

Lemma reading_insert (ths : list thread) i th :
  (∀ j th, ths !! j = Some th → reading th) → reading th →
  ∀ j th', <[i := th]> ths !! j = Some th' → reading th'.
Proof. intros Hths Hth j th'. rewrite list_lookup_insert. case_decide; [naive_solver|apply Hths]. Qed.

Lemma xstep_inv db0 x l x' : db_ok db0 → snap_inv db0 x → xstep x l x' → snap_inv db0 x'.
Proof.
  intros Hok0 Hinv Hst. destruct Hst as [c l c' i out Hc Hl|c i out sh Hsh].
  - pose proof (si_threads _ _ Hinv) as Hths. pose proof (si_worker _ _ Hinv) as Hw. simpl in *.
    destruct (evicted_db _ _ _ Hok0 (si_db _ _ Hinv)) as [Hok _]. simpl in Hok.
    destruct Hc as [t t' db ths w Ht|t db ths w j x Hj Hx|t db ths w j th ord db' th' Hj Hs
      |t db ths w j r Hj|t db ths inp Hn|t db ths w db' w' Hs]; simpl in *;
      (eapply snap_inv_other; [exact Hinv|simpl; try lia..]); simpl;
      try done; try apply evicted_refl.
    + destruct w; simpl in *; [done|lia].
    + apply reading_insert; [done|]. by eapply Hl.
    + destruct (reading_section _ _ _ _ _ _ (Hths _ _ Hj) Hs). by apply reading_insert.
    + by destruct (reading_section _ _ _ _ _ _ (Hths _ _ Hj) Hs).
    + by apply reading_insert.
    + by destruct (worker_evicts _ _ _ _ _ Hok Hw Hs).
    + by destruct (worker_evicts _ _ _ _ _ Hok Hw Hs).
  - destruct Hinv as [H1 H2 H3 [H4 H4'] (seen & H5 & H6 & H7)]. split; simpl in *; [done..|].
    destruct (Forall2_lookup_r _ _ _ _ _ H4 Hsh) as (sh0 & Hsh0 & Hr).
    exists (seen ++ [sh]). rewrite (take_S_r _ _ _ Hsh0), imap_app, concat_app. split_and!.
    + by apply Forall2_app; [|constructor].
    + rewrite length_app. simpl. lia.
    + subst out. f_equal. simpl. by rewrite app_nil_r, Nat.add_0_r, H6.
Qed.

(** Some shards in a row, undisturbed. *)
Lemma visit_shards c i n out :
  (i + n ≤ length (shards (c_db c)))%nat →
  runs xstep (Snapping c i out) []
    (Snapping c (i + n)
       (out ++ concat (imap (λ j, snapshotShard os now (i + j)) (take n (drop i (shards (c_db c))))))).
Proof.
  revert i out. induction n as [|n IH]; intros i out Hn.
  { rewrite Nat.add_0_r. simpl. rewrite app_nil_r. apply runs_nil. }
  destruct (lookup_lt_is_Some_2 (shards (c_db c)) i) as [sh Hsh]; [lia|].
  eapply runs_silent; [by apply X_shard|].
  rewrite (drop_S _ _ _ Hsh). cbn [take imap concat]. rewrite app_assoc, Nat.add_0_r.
  replace (i + S n)%nat with (S i + n)%nat by lia.
  erewrite (imap_ext _ (λ j, snapshotShard os now (S i + j))); [apply IH; lia|].
  intros j sh' _. cbn. f_equal. lia.
Qed.
End live_snapshot.

Lemma evicted_view t t0 db db' :
  db_ok db → evicted t db db' → view t0 db' ⊆ view t0 db.
Proof.
  intros Hok Hev. destruct (evicted_db _ _ _ Hok Hev) as [Hok' _]. destruct Hev as [Hf _].
  apply map_subseteq_spec. intros k e. rewrite !view_lookup by done. unfold shardFor.
  pose proof (shards_shardFor db k (ok_shards _ Hok)) as Hi.
  destruct (Forall2_lookup_l _ _ _ _ _ Hf Hi) as (sh' & Hi' & Hs & _).
  rewrite (list_lookup_total_correct _ _ _ Hi'). intros (e0 & He0 & Hv)%bind_Some.
  unfold shardFor in Hs. by rewrite (lookup_weaken _ _ _ _ He0 Hs).
Qed.

(** C31: a log rewritten while the server runs holds the live keyspace.  The
    snapshot reads the clock, then copies one shard after the other; between
    two shards any number of clients may read, evicting what they find
    expired, the expiry worker may be anywhere in a pass, and time passes.
    What is written are the entries of a keyspace [M] that holds every key
    live when the snapshot ends, as it is then, and nothing that was not live
    when it began; a replay at an instant [T] brings them back with their
    values, and the keys that had a deadline with the milliseconds that were
    left when the file was written, at least one, counted anew from [T]: not
    with the original deadline.  The records must fit the wire. *)
Theorem live_snapshot_restores `{GoUnicode} (o : map_order) T tw os now c0 tr c1 out :
  db_ok (c_db c0) → c_now c0 = now → worker_ok now (c_worker c0) →
  (∀ i th, c_threads c0 !! i = Some th → reading th) →
  runs (xstep os now) (Snapping c0 0 []) tr (Snapping c1 (Z.to_nat shardCount) out) →
  Forall wire_ok (snapshot_cmds tw out) →
  ∃ M, M ⊆ view now (c_db c0) ∧ purge (c_now c1) M = view (c_now c1) (c_db c1) ∧
  ∃ bs db', writeSnapshot tw out = Some (bs, None) ∧
    Replay (replay_at o T) (Contents (mkReader bs EOF)) newDB = (db', zlen (snapshot_cmds tw out), Finished) ∧
    db_ok db' ∧ view T db' = rebased T tw <$> M.
Proof.
  intros Hok Hnow Hw Hth Hr Hwire.
  assert (snap_inv os now (c_db c0) (Snapping c1 (Z.to_nat shardCount) out)) as Hinv.
  { eapply (runs_invariant (xstep os now) (snap_inv os now (c_db c0))); [..|exact Hr].
    - intros. by eapply xstep_inv.
    - split; simpl; rewrite ?Hnow; [done..|apply evicted_refl|by exists []]. }
  destruct Hinv as [Ht _ _ Hdb (seen & Hseen & _ & Hout)]. simpl in *. subst out.
  rewrite take_ge in Hseen by by rewrite (ok_shards _ Hok).
  pose (dbs := mkDB seen (pubsub (c_db c0))). assert (evicted (c_now c1) (c_db c0) dbs) as Hevs by by split.
  destruct (evicted_db _ _ _ Hok Hevs) as [Hoks Hvs], (evicted_db _ _ _ Hok Hdb) as [_ Hv1].
  exists (view now dbs). split_and!.
  - by eapply evicted_view.
  - rewrite <-view_ages by done. by rewrite Hvs, Hv1.
  - by apply (snapshot_replays o T tw os dbs now).
Qed.

(** Half of the shards are copied, a key passes its deadline and a [GET]
    evicts it, then the rest is copied. *)
Definition expiring_store : DB := (DB_Expire sample_store (B "s") 10 40 40).1.

Lemma expiring_store_ok : db_ok expiring_store.
Proof.
  destruct (run_op_refines order_id 40 (OExpire (B "s") 10) sample_store sample_store_ok I) as (H1 & _).
  unfold expiring_store. cbn [run_op] in H1. destruct (DB_Expire sample_store _ _ _ _) as [db b].
  exact H1.
Qed.

Lemma live_snapshot_restores_witness :
  let c0 := CS 40 expiring_store [Idle] Asleep in
  ∃ c1 M db', view 60 (c_db c1) !! B "s" = None ∧ M ⊆ view 40 expiring_store ∧
    purge 60 M = view 60 (c_db c1) ∧ view 90 db' = rebased 90 70 <$> M.
Proof.
  intros c0.
  pose (c1 := CS 60 (expireIfNeeded expiring_store (B "s") 60).1 [Done RNil] Asleep).
  pose (out1 := concat (imap (λ j, snapshotShard orders_id 40 (0 + j)) (take 16 (drop 0 (shards expiring_store))))).
  pose (out2 := out1 ++ concat (imap (λ j, snapshotShard orders_id 40 (16 + j)) (take 16 (drop 16 (shards (c_db c1)))))).
  assert (runs (xstep orders_id 40) (Snapping c0 0 []) [Invoke 0 (OGet (B "s"))] (Snapping c1 32 out2)) as Hr.
  { apply (runs_app _ _ [] (Snapping c0 16 out1)).
    { apply (visit_shards orders_id 40 c0 0 16 []). vm_compute. lia. }
    eapply runs_silent; [apply X_other; [apply (C_tick _ 60); lia|done]|].
    eapply runs_visible; [apply X_other; [by apply (C_invoke _ _ _ _ 0 (OGet (B "s")))|by intros ? ? [= <- <-]]|].
    eapply runs_silent; [apply X_other; [apply (C_section _ _ _ _ 0 (Start (OGet (B "s"))) order_id expiring_store (Escalate (B "s"))); vm_compute; reflexivity|done]|].
    eapply runs_silent; [apply X_other; [by apply (C_section _ _ _ _ 0 (Escalate (B "s")) order_id)|done]|].
    apply (visit_shards orders_id 40 c1 16 16 out1). vm_compute. lia. }
  destruct (@live_snapshot_restores plain_unicode order_id 90 70 orders_id 40 c0
    [Invoke 0 (OGet (B "s"))] c1 out2)
    as (M & HM & Hp & bs & db' & _ & _ & _ & Hv).
  - exact expiring_store_ok.
  - reflexivity.
  - exact I.
  - intros [|i] th Hth; [by injection Hth as <-|done].
  - exact Hr.
  - apply wire_okb_all. vm_compute. reflexivity.
  - exists c1, M, db'. split_and!; [vm_compute; reflexivity|exact HM|exact Hp|exact Hv].
Defined.
