(* ===== verification/Replication.v ===== *)
(** [internal/replication]: the primary's registry of replica feeds
    (primary.go) and the replica's end of the stream (replica.go).

    A [*Replica] is shared by the registry, the connection that registered
    it and its delivery goroutine, so replicas are pointers into a heap. *)

From Stdlib Require Import Floats.SpecFloat.
From S2P Require Import Prelude GoLib Protocol ProtocolFacts Cmd.

(** * primary.go *)

Definition replicaQueueCap : Z := 256.

(** [r_ch] is the queue of frames, oldest first; [r_closed] whether the
    channel has been closed. *)
Record Replica := mkReplica {
  r_id : Z;
  r_addr : bytes;
  r_ch : list bytes;
  r_closed : bool;
  r_lastAck : Z
}.

Record Replicas := mkReplicas {
  rheap : gmap nat Replica;
  rnext : Z;
  reps : gmap Z nat
}.

Definition NewReplicas : Replicas := mkReplicas ∅ 0 ∅.

(** [uint64] increment. *)
Definition next_id (n : Z) : Z := (n + 1) mod 2 ^ 64.

Definition Add (r : Replicas) (addr : bytes) (now : Z) : Replicas * nat :=
  let p := fresh (dom (rheap r)) in
  let rep := mkReplica (rnext r) addr [] false now in
  (mkReplicas (<[p := rep]> (rheap r)) (next_id (rnext r)) (<[rnext r := p]> (reps r)), p).

(** [None] is the panic of a nil pointer or of a second close. *)
Definition Remove (r : Replicas) (p : nat) : option Replicas :=
  match rheap r !! p with
  | None => None
  | Some rep =>
      if r_closed rep then None
      else Some (mkReplicas
                   (<[p := mkReplica (r_id rep) (r_addr rep) (r_ch rep) true (r_lastAck rep)]> (rheap r))
                   (rnext r) (delete (r_id rep) (reps r)))
  end.

Definition Any (r : Replicas) : bool := negb (bool_decide (size (reps r) = 0%nat)).

(** One iteration of [Propagate]'s loop; [None] is a send on a closed channel. *)
Definition offer (frame : bytes) (h : gmap nat Replica) (p : nat) : option (gmap nat Replica) :=
  match h !! p with
  | None => None
  | Some rep =>
      if r_closed rep then None
      else if zlen (r_ch rep) <? replicaQueueCap
      then Some (<[p := mkReplica (r_id rep) (r_addr rep) (r_ch rep ++ [frame]) false (r_lastAck rep)]> h)
      else Some h
  end.

Fixpoint propagate_loop (frame : bytes) (ps : list nat) (h : gmap nat Replica)
    : option (gmap nat Replica) :=
  match ps with
  | [] => Some h
  | p :: ps' =>
      match offer frame h p with
      | None => None
      | Some h' => propagate_loop frame ps' h'
      end
  end.

(** [o] is the order the runtime ranges over [r.reps] in. *)
Definition Propagate (o : map_order) (r : Replicas) (cmd : Value) : option Replicas :=
  match Encode cmd with
  | (_, Some _) => Some r
  | (frame, None) =>
      match propagate_loop frame (iter o (map_to_list (reps r))).*2 (rheap r) with
      | None => None
      | Some h => Some (mkReplicas h (rnext r) (reps r))
      end
  end.

Definition Acked (r : Replicas) (p : nat) (now : Z) : Replicas :=
  match rheap r !! p with
  | None => r
  | Some rep =>
      mkReplicas (<[p := mkReplica (r_id rep) (r_addr rep) (r_ch rep) (r_closed rep) now]> (rheap r))
                 (rnext r) (reps r)
  end.

Definition sinceAck (rep : Replica) (now : Z) : Z := time_sub now (r_lastAck rep).

Definition StaleReplicas (o : map_order) (r : Replicas) (staleAfter now : Z) : list bytes :=
  omap (λ p, match rheap r !! p with
             | Some rep => if staleAfter <? sinceAck rep now then Some (r_addr rep) else None
             | None => None
             end)
       (iter o (map_to_list (reps r))).*2.

(** [LagSeconds]: a map keyed by address, so of two feeds that share one
    the feed visited last is reported. *)
Definition LagSeconds (o : map_order) (r : Replicas) (now : Z) : gmap bytes spec_float :=
  foldl (λ out p, match rheap r !! p with
                  | Some rep => <[r_addr rep := Seconds (sinceAck rep now)]> out
                  | None => out
                  end)
        ∅ (iter o (map_to_list (reps r))).*2.

Definition pingCommand : Value := ArrayV (Some [BulkV (Some (B "PING"))]).

(** The registry after a heartbeat and the addresses it warns about. *)
Definition Heartbeat (o o' : map_order) (r : Replicas) (staleAfter now : Z)
    : option (Replicas * list bytes) :=
  match Propagate o r pingCommand with
  | None => None
  | Some r' => Some (r', StaleReplicas o' r' staleAfter now)
  end.

(** One receive of the delivery goroutine from [Feed]. *)
Definition Feed_receive (r : Replicas) (p : nat) : option (bytes * Replicas) :=
  match rheap r !! p with
  | Some (mkReplica id addr (f :: q) c ack) =>
      Some (f, mkReplicas (<[p := mkReplica id addr q c ack]> (rheap r)) (rnext r) (reps r))
  | _ => None
  end.

(** * replica.go *)

(** [strings.EqualFold(s, "PING")]: no letter of PING has a case variant
    outside ASCII. *)
Definition EqualFold_PING (s : bytes) : bool := bool_decide (map ascii_upper s = B "PING").

Definition isHeartbeat (v : Value) : bool :=
  byte_eqb (vType v) TypeArray &&
  match vArray v with
  | Some (first :: _) => EqualFold_PING (content (vBulk first))
  | _ => false
  end.

Definition replconfAck : Value :=
  ArrayV (Some [BulkV (Some (B "REPLCONF")); BulkV (Some (B "ACK")); BulkV (Some (B "0"))]).

Definition replicaofCommand : Value := ArrayV (Some [BulkV (Some (B "REPLICAOF"))]).

(** How a session ended. *)
Inductive stream_end :=
  | DialFailed
  | HandshakeSendFailed
  | HandshakeReadFailed (e : error)
  | HandshakeRejected (ack : Value)
  | StreamBroken (e : error)
  | AckFailed
  | StreamPanic
  | StreamNoFuel.

Section stream.
Context {St : Type} (apply : Value → St → St).

(** The stream loop: the local state, the values sent back, and the end.
    [ack_ok i] is the outcome of the [i]-th acknowledgement. *)
Fixpoint stream_loop (fuel : nat) (ack_ok : nat → bool) (r : Reader) (s : St) (sent : list Value)
    : St * list Value * stream_end :=
  match fuel with
  | O => (s, sent, StreamNoFuel)
  | S f =>
      match decode r with
      | Err e => (s, sent, StreamBroken e)
      | Panic => (s, sent, StreamPanic)
      | OutOfFuel => (s, sent, StreamNoFuel)
      | Ok cmd r' =>
          if isHeartbeat cmd then
            if ack_ok (length sent) then stream_loop f ack_ok r' s (sent ++ [replconfAck])
            else (s, sent, AckFailed)
          else stream_loop f ack_ok r' (apply cmd s) sent
      end
  end.

(** [streamOnce] against a primary whose side of the connection delivers
    [r]; the first write ([ack_ok 0]) is the handshake. *)
Definition streamOnce (dial_ok : bool) (ack_ok : nat → bool) (r : Reader) (s : St)
    : St * list Value * stream_end :=
  if negb dial_ok then (s, [], DialFailed)
  else if negb (ack_ok 0%nat) then (s, [], HandshakeSendFailed)
  else
    match decode r with
    | Err e => (s, [replicaofCommand], HandshakeReadFailed e)
    | Panic => (s, [replicaofCommand], StreamPanic)
    | OutOfFuel => (s, [replicaofCommand], StreamNoFuel)
    | Ok ack r' =>
        if negb (byte_eqb (vType ack) TypeSimpleString)
        then (s, [replicaofCommand], HandshakeRejected ack)
        else stream_loop (S (length (rbuf r'))) ack_ok r' s [replicaofCommand]
    end.

(** What one attempt of [RunReplica] meets: whether the dial succeeds, the
    outcomes of its writes, and what the primary's side delivers. *)
Record session := mkSession { dial_ok : bool; ack_ok : nat → bool; inbound : Reader }.

(** [RunReplica]: one [streamOnce] after another until the context is
    cancelled; errors are logged and retried, and nothing but the local
    state is carried from one session to the next.  [None] is a panic. *)
Fixpoint RunReplica (sessions : list session) (s : St) : option (St * list stream_end) :=
  match sessions with
  | [] => Some (s, [])
  | x :: sessions' =>
      match streamOnce (dial_ok x) (ack_ok x) (inbound x) s with
      | (_, _, StreamPanic) => None
      | (s', _, e) =>
          match RunReplica sessions' s' with
          | None => None
          | Some (s'', es) => Some (s'', e :: es)
          end
      end
  end.
End stream.

(** * The registry's invariant *)

Record reps_ok (r : Replicas) : Prop := {
  ro_live : ∀ id p, reps r !! id = Some p →
    ∃ rep, rheap r !! p = Some rep ∧ r_id rep = id ∧ r_closed rep = false;
  ro_cap : ∀ p rep, rheap r !! p = Some rep → zlen (r_ch rep) ≤ replicaQueueCap
}.

Lemma reps_ok_new : reps_ok NewReplicas.
Proof.
  split; intros ? ? H; unfold NewReplicas in H; simpl in H; by rewrite lookup_empty in H.
Qed.

(** Different registered ids are different replicas. *)
Lemma reps_inj r id1 id2 p :
  reps_ok r → reps r !! id1 = Some p → reps r !! id2 = Some p → id1 = id2.
Proof.
  intros [Hl _] H1 H2. destruct (Hl _ _ H1) as (rep1 & E1 & <- & _).
  destruct (Hl _ _ H2) as (rep2 & E2 & <- & _). congruence.
Qed.

Lemma NoDup_reps (o : map_order) r : reps_ok r → NoDup (iter o (map_to_list (reps r))).*2.
Proof.
  intros Hok. rewrite (fmap_Permutation snd _ _ (iter_perm o _)).
  apply NoDup_alt. intros i j p Hi Hj.
  rewrite list_lookup_fmap_Some in Hi. rewrite list_lookup_fmap_Some in Hj.
  destruct Hi as ([id1 p1] & -> & Hi), Hj as ([id2 p2] & Hp & Hj). simpl in Hp. subst p2.
  assert (id1 = id2) as <-.
  { eapply (reps_inj r); [done|..]; apply elem_of_map_to_list; by eapply list_elem_of_lookup_2. }
  eapply NoDup_lookup; [|exact Hi|exact Hj].
  eapply NoDup_fmap_1, NoDup_fst_map_to_list.
Qed.

(** What one frame does to a replica's queue. *)
Definition enqueue_frame (frame : bytes) (rep : Replica) : Replica :=
  if zlen (r_ch rep) <? replicaQueueCap
  then mkReplica (r_id rep) (r_addr rep) (r_ch rep ++ [frame]) (r_closed rep) (r_lastAck rep)
  else rep.

Lemma propagate_loop_spec frame ps h :
  NoDup ps → (∀ p, p ∈ ps → ∃ rep, h !! p = Some rep ∧ r_closed rep = false) →
  ∃ h', propagate_loop frame ps h = Some h' ∧
    ∀ p, h' !! p = if decide (p ∈ ps) then enqueue_frame frame <$> h !! p else h !! p.
Proof.
  revert h. induction ps as [|p ps IH]; intros h Hnd Hop; cbn [propagate_loop].
  { exists h. split; [done|]. intros p. rewrite decide_False; [done|]. apply not_elem_of_nil. }
  apply NoDup_cons in Hnd as [Hp Hnd]. destruct (Hop p) as (rep & E & Hc); [constructor|].
  assert (offer frame h p = Some (<[p := enqueue_frame frame rep]> h)) as ->.
  { unfold offer, enqueue_frame. rewrite E, Hc. case_match; [done|]. by rewrite insert_id. }
  destruct (IH (<[p := enqueue_frame frame rep]> h)) as (h' & -> & Hh'); [done| |].
  { intros q Hq. rewrite lookup_insert_ne by (intros ->; done). apply Hop. by constructor. }
  exists h'. split; [done|]. intros q. rewrite Hh'. destruct (decide (q = p)) as [->|Hne].
  - rewrite decide_False by done. rewrite decide_True by constructor.
    by rewrite lookup_insert_eq, E.
  - rewrite lookup_insert_ne by done. destruct (decide (q ∈ ps)) as [Hin|Hin].
    + by rewrite decide_True by by constructor.
    + rewrite decide_False; [done|]. rewrite elem_of_cons. naive_solver.
Qed.

(** [p] is a registered feed. *)
Definition registered (r : Replicas) (p : nat) : Prop := ∃ id, reps r !! id = Some p.

#[global] Instance registered_dec r p : Decision (registered r p).
Proof.
  refine (cast_if (decide (Exists (λ q : Z * nat, q.2 = p) (map_to_list (reps r)))));
    unfold registered; rewrite Exists_exists in *.
  - destruct e as ([id q] & Hin & Hq). simpl in Hq. subst q. exists id. by apply elem_of_map_to_list.
  - intros [id Hid]. apply n. exists (id, p). by rewrite elem_of_map_to_list.
Defined.

Lemma elem_of_feeds (o : map_order) r p :
  p ∈ (iter o (map_to_list (reps r))).*2 ↔ registered r p.
Proof.
  rewrite (fmap_Permutation snd _ _ (iter_perm o _)), list_elem_of_fmap. split.
  - intros ([id q] & -> & H). exists id. by apply elem_of_map_to_list.
  - intros [id H]. exists (id, p). split; [done|]. by apply elem_of_map_to_list.
Qed.

Lemma enqueue_frame_keeps frame rep :
  r_id (enqueue_frame frame rep) = r_id rep ∧ r_closed (enqueue_frame frame rep) = r_closed rep ∧
  (zlen (r_ch rep) ≤ replicaQueueCap → zlen (r_ch (enqueue_frame frame rep)) ≤ replicaQueueCap).
Proof.
  unfold enqueue_frame. case_match; [|done]. reflect_bools. simpl. split_and!; [done..|].
  intros. autorewrite with go_len. lia.
Qed.

Lemma Propagate_spec (o : map_order) r cmd :
  reps_ok r → (Encode cmd).2 = None →
  ∃ h, Propagate o r cmd = Some (mkReplicas h (rnext r) (reps r)) ∧
    reps_ok (mkReplicas h (rnext r) (reps r)) ∧
    ∀ p, (registered r p → h !! p = enqueue_frame (encode cmd) <$> rheap r !! p) ∧
         (¬ registered r p → h !! p = rheap r !! p).
Proof.
  intros Hok Henc. unfold Propagate, encode. destruct (Encode cmd) as [frame err]. simpl in Henc. subst err.
  destruct (propagate_loop_spec frame (iter o (map_to_list (reps r))).*2 (rheap r)) as (h & -> & Hh).
  { by apply NoDup_reps. }
  { intros p [id Hp]%elem_of_feeds. destruct (ro_live _ Hok _ _ Hp) as (rep & ? & _ & ?). eauto. }
  assert (∀ p, (registered r p → h !! p = enqueue_frame frame <$> rheap r !! p) ∧
               (¬ registered r p → h !! p = rheap r !! p)) as Hp.
  { intros p. rewrite Hh. case_decide as Hd; rewrite elem_of_feeds in Hd; naive_solver. }
  exists h. split_and!; [done| |done]. split; simpl.
  - intros id p Hid. destruct (ro_live _ Hok _ _ Hid) as (rep & E & H1 & H2).
    destruct (Hp p) as [Hr _]. rewrite Hr, E by (by exists id). simpl.
    destruct (enqueue_frame_keeps frame rep) as (K1 & K2 & _). eexists. split_and!; [done|congruence..].
  - intros p rep' E. rewrite Hh in E. destruct (decide _) as [Hd|Hd]; [|by eapply ro_cap].
    destruct (rheap r !! p) as [rep|] eqn:E'; [|done]. simplify_eq/=.
    apply enqueue_frame_keeps. by eapply ro_cap.
Qed.

Lemma Add_ok r addr now :
  reps_ok r →
  let '(r', p) := Add r addr now in
  reps_ok r' ∧ rheap r !! p = None ∧ registered r' p ∧
  rheap r' !! p = Some (mkReplica (rnext r) addr [] false now).
Proof.
  intros [Hl Hc]. unfold Add. set (p := fresh (dom (rheap r))).
  assert (rheap r !! p = None) as Hp by (apply not_elem_of_dom, is_fresh).
  split_and!; [|done| |apply lookup_insert_eq].
  - split; simpl.
    + intros id q. rewrite lookup_insert. case_decide as E; intros H.
      * simplify_eq. rewrite lookup_insert_eq. eexists. by split_and!.
      * destruct (Hl _ _ H) as (rep & ? & ? & ?). exists rep. by rewrite lookup_insert_ne by congruence.
    + intros q rep. rewrite lookup_insert. case_decide; [intros [= <-]; done|apply Hc].
  - exists (rnext r). apply lookup_insert_eq.
Qed.

(** Removing a feed that is still open cannot panic; afterwards nothing can
    be sent to it. *)
Lemma Remove_ok r p rep :
  reps_ok r → rheap r !! p = Some rep → r_closed rep = false →
  ∃ r', Remove r p = Some r' ∧ reps_ok r' ∧ ¬ registered r' p.
Proof.
  intros Hok E Hc. unfold Remove. rewrite E, Hc. eexists. split; [done|].
  assert (∀ id q, delete (r_id rep) (reps r) !! id = Some q → q ≠ p) as Hne.
  { intros id q. rewrite lookup_delete. case_decide as Hid; [done|]. intros Hq ->.
    destruct (ro_live _ Hok _ _ Hq) as (rep' & E' & <- & _). congruence. }
  split; [split; simpl|].
  - intros id q Hq. pose proof (Hne _ _ Hq). apply lookup_delete_Some in Hq as [_ Hq].
    destruct (ro_live _ Hok _ _ Hq) as (rep' & ? & ? & ?). exists rep'.
    by rewrite lookup_insert_ne by congruence.
  - intros q rep'. rewrite lookup_insert. case_decide; [|by eapply ro_cap].
    intros [= <-]. simpl. by eapply ro_cap.
  - intros [id H]. by apply Hne in H.
Qed.

Lemma Remove_reps r p r' : reps_ok r → Remove r p = Some r' → reps_ok r'.
Proof.
  intros Hok E. destruct (rheap r !! p) as [rep|] eqn:Ep; [|unfold Remove in E; by rewrite Ep in E].
  destruct (r_closed rep) eqn:Hc; [unfold Remove in E; by rewrite Ep, Hc in E|].
  destruct (Remove_ok r p rep Hok Ep Hc) as (r1 & E1 & H1 & _). congruence.
Qed.

(** * One replica's feed over time *)

Inductive feed_event :=
  | FPropagate (o : map_order) (cmd : Value)
  | FDeliver.

Definition feed_cmds (ev : feed_event) : list Value :=
  match ev with FPropagate _ c => [c] | FDeliver => [] end.

Definition queue (r : Replicas) (p : nat) : list bytes :=
  match rheap r !! p with Some rep => r_ch rep | None => [] end.

Definition has_space (r : Replicas) (p : nat) : bool := zlen (queue r p) <? replicaQueueCap.

(** [Propagate] in terms of the queues. *)
Lemma Propagate_queue (o : map_order) r cmd :
  reps_ok r → (Encode cmd).2 = None →
  ∃ r', Propagate o r cmd = Some r' ∧ reps_ok r' ∧ reps r' = reps r ∧
    (∀ p, registered r p →
       queue r' p = if has_space r p then queue r p ++ [encode cmd] else queue r p) ∧
    (∀ p, ¬ registered r p → rheap r' !! p = rheap r !! p).
Proof.
  intros Hok Henc. destruct (Propagate_spec o r cmd Hok Henc) as (h & E & Hok' & Hh).
  eexists. split_and!; [done|done|done| |].
  - intros p Hp. destruct (Hh p) as [H _]. unfold has_space, queue. simpl. rewrite H by done.
    destruct (rheap r !! p) as [rep|] eqn:Er; simpl.
    + unfold enqueue_frame. by case_match.
    + destruct Hp as [id Hid]. destruct (ro_live _ Hok _ _ Hid) as (rep & ? & _). congruence.
  - intros p Hp. by apply Hh.
Qed.

Lemma registered_reps r r' p : reps r' = reps r → registered r p → registered r' p.
Proof. intros E [id Hid]. exists id. by rewrite E. Qed.

(** Writes propagated and frames delivered, in any interleaving: the
    registry, the frames shipped to the socket of [p], and the commands that
    found room in its queue. *)
Fixpoint run_feed (r : Replicas) (p : nat) (evs : list feed_event)
    (sent : list bytes) (accepted : list Value) : option (Replicas * list bytes * list Value) :=
  match evs with
  | [] => Some (r, sent, accepted)
  | FPropagate o cmd :: evs' =>
      match Propagate o r cmd with
      | None => None
      | Some r' => run_feed r' p evs' sent (if has_space r p then accepted ++ [cmd] else accepted)
      end
  | FDeliver :: evs' =>
      match Feed_receive r p with
      | Some (f, r') => run_feed r' p evs' (sent ++ [f]) accepted
      | None => run_feed r p evs' sent accepted
      end
  end.

Lemma Feed_receive_spec r p :
  reps_ok r →
  match Feed_receive r p with
  | Some (f, r') => reps_ok r' ∧ queue r p = f :: queue r' p ∧ reps r' = reps r
  | None => True
  end.
Proof.
  intros [Hl Hc]. unfold Feed_receive.
  destruct (rheap r !! p) as [[id addr [|f q] c ack]|] eqn:E; try done. split_and!; [|
    unfold queue; rewrite E; simpl; by rewrite lookup_insert_eq|done].
  split; simpl.
  - intros id' q' H. destruct (Hl _ _ H) as (rep & E' & ? & ?). rewrite lookup_insert.
    case_decide; [|eauto]. subst q'. rewrite E in E'. simplify_eq/=. eauto.
  - intros q' rep. rewrite lookup_insert. case_decide; [|apply Hc]. intros [= <-].
    apply Hc in E. simpl in *. autorewrite with go_len in E. lia.
Qed.

Lemma run_feed_fifo evs r p sent accepted :
  reps_ok r → registered r p → Forall wire_ok (concat (map feed_cmds evs)) →
  sent ++ queue r p = map encode accepted → Forall wire_ok accepted →
  ∃ r' sent' new, run_feed r p evs sent accepted = Some (r', sent', accepted ++ new) ∧
    reps_ok r' ∧ registered r' p ∧ sent' ++ queue r' p = map encode (accepted ++ new) ∧
    new `sublist_of` concat (map feed_cmds evs) ∧ Forall wire_ok (accepted ++ new).
Proof.
  revert r sent accepted. induction evs as [|[o cmd|] evs IH];
    intros r sent accepted Hok Hreg Hw Hq Hacc; cbn [run_feed map concat feed_cmds] in *.
  - exists r, sent, []. rewrite app_nil_r. by split_and!.
  - apply Forall_app in Hw as [Hw1%Forall_inv Hw2].
    destruct (Propagate_queue o r cmd Hok) as (r1 & -> & Hok' & Hr & Hq1 & _); [by apply wire_ok_Encode|].
    pose proof (registered_reps _ _ _ Hr Hreg) as Hreg1. specialize (Hq1 p Hreg).
    destruct (has_space r p) eqn:Es.
    + destruct (IH r1 sent (accepted ++ [cmd])) as (r' & sent' & new & Hrun & H1 & H2 & H3 & H4 & H5);
        [done|done|done| |apply Forall_app; auto|].
      { by rewrite Hq1, app_assoc, Hq, map_app. }
      exists r', sent', (cmd :: new). rewrite <-app_assoc in *. split_and!; try done.
      by apply sublist_skip.
    + destruct (IH r1 sent accepted) as (r' & sent' & new & Hrun & H1 & H2 & H3 & H4 & H5);
        [done|done|done|by rewrite Hq1|done|].
      exists r', sent', new. split_and!; try done. by apply sublist_cons.
  - pose proof (Feed_receive_spec r p Hok) as Hf.
    destruct (Feed_receive r p) as [[f r1]|]; [|by apply IH].
    destruct Hf as (Hok1 & Hq1 & Hr1).
    apply IH; [done|by eapply registered_reps|done| |done].
    by rewrite <-app_assoc, <-Hq, Hq1.
Qed.

(** * The replica's end *)

(** The commands a replica applies: every frame but the heartbeats. *)
Definition writes_of (cmds : list Value) : list Value :=
  filter (λ c, isHeartbeat c = false) cmds.

Definition heartbeats_of (cmds : list Value) : list Value :=
  filter (λ c, isHeartbeat c = true) cmds.

Section stream_facts.
Context {St : Type} (apply : Value → St → St).

Lemma writes_of_cons c cmds :
  writes_of (c :: cmds) = if isHeartbeat c then writes_of cmds else c :: writes_of cmds.
Proof. unfold writes_of. rewrite filter_cons. destruct (isHeartbeat c); by case_decide. Qed.

Lemma heartbeats_of_cons c cmds :
  heartbeats_of (c :: cmds) = if isHeartbeat c then c :: heartbeats_of cmds else heartbeats_of cmds.
Proof. unfold heartbeats_of. rewrite filter_cons. destruct (isHeartbeat c); by case_decide. Qed.

(** A stream of frames that ends between two of them, all acknowledged. *)
Lemma stream_loop_all fuel cmds s sent :
  Forall wire_ok cmds → (length (encode_all cmds) < fuel)%nat →
  stream_loop apply fuel (λ _, true) (mkReader (encode_all cmds) EOF) s sent
  = (foldl (λ s c, apply c s) s (writes_of cmds),
     sent ++ map (λ _, replconfAck) (heartbeats_of cmds), StreamBroken EOF).
Proof.
  intros Hc. revert fuel s sent. induction Hc as [|c cmds Hw _ IH]; intros fuel s sent Hf;
    (destruct fuel as [|fuel]; [lia|]).
  - simpl. by rewrite app_nil_r.
  - change (encode_all (c :: cmds)) with (encode c ++ encode_all cmds) in *.
    cbn [stream_loop]. rewrite decode_encode, writes_of_cons, heartbeats_of_cons by done.
    assert (length (encode_all cmds) < fuel)%nat as Hf'.
    { rewrite length_app in Hf. pose proof (encode_nonempty c Hw). destruct (encode c); [done|].
      simpl in Hf. lia. }
    destruct (isHeartbeat c); rewrite IH by done; [|done]. simpl. by rewrite <-app_assoc.
Qed.

Lemma streamOnce_all cmds s :
  Forall wire_ok cmds →
  streamOnce apply true (λ _, true) (mkReader (encode okValue ++ encode_all cmds) EOF) s
  = (foldl (λ s c, apply c s) s (writes_of cmds),
     replicaofCommand :: map (λ _, replconfAck) (heartbeats_of cmds), StreamBroken EOF).
Proof.
  intros Hc. unfold streamOnce. cbn [negb]. rewrite decode_encode by by apply wire_okb_sound.
  cbn [okValue SimpleStringV vType]. rewrite byte_eqb_refl. cbn [negb rbuf].
  rewrite stream_loop_all by (done || lia). done.
Qed.

(** * Sessions of any kind *)

(** The frames [cmds] are read off the front of a stream. *)
Inductive reads_off : Reader → list Value → Reader → Prop :=
  | reads_off_nil r : reads_off r [] r
  | reads_off_cons r c r1 cmds r2 : decode r = Ok c r1 → reads_off r1 cmds r2 → reads_off r (c :: cmds) r2.

(** What a session comes to: the writes it applies and how it ends.  There is
    no primary; the REPLICAOF cannot be sent; no reply can be read (it is
    torn, malformed, or the socket fails); the reply is no simple string; or
    commands are streamed, until the decoder reports an error (the end of
    the connection, an error of the socket, a frame that is cut or
    malformed), or a heartbeat cannot be acknowledged.  The outcome of the
    [i]-th write of the session is [acks i], the REPLICAOF is the first. *)
Inductive attempted : session → list Value → stream_end → Prop :=
  | no_primary acks r : attempted (mkSession false acks r) [] DialFailed
  | not_sent acks r : acks 0%nat = false → attempted (mkSession true acks r) [] HandshakeSendFailed
  | not_answered acks r err :
      acks 0%nat = true → decode r = Err err → attempted (mkSession true acks r) [] (HandshakeReadFailed err)
  | turned_away acks r ack r1 :
      acks 0%nat = true → decode r = Ok ack r1 → vType ack ≠ TypeSimpleString →
      attempted (mkSession true acks r) [] (HandshakeRejected ack)
  | stream_broken acks r ack r1 cmds cut err :
      decode r = Ok ack r1 → vType ack = TypeSimpleString → reads_off r1 cmds cut → decode cut = Err err →
      (∀ i, (i ≤ length (heartbeats_of cmds))%nat → acks i = true) →
      attempted (mkSession true acks r) (writes_of cmds) (StreamBroken err)
  | not_acked acks r ack r1 cmds ping cut :
      decode r = Ok ack r1 → vType ack = TypeSimpleString → reads_off r1 (cmds ++ [ping]) cut → isHeartbeat ping = true →
      (∀ i, (i ≤ length (heartbeats_of cmds))%nat → acks i = true) →
      acks (S (length (heartbeats_of cmds))) = false →
      attempted (mkSession true acks r) (writes_of cmds) AckFailed.

(** Somewhere in the stream the decoder panics. *)
Definition panics (r : Reader) : Prop := ∃ r', rbuf r' `suffix_of` rbuf r ∧ decode r' = Panic.

Lemma panics_later r v r1 : decode r = Ok v r1 → panics r1 → panics r.
Proof. intros E (r' & Hs & Hp). exists r'. split; [|done]. etrans; [exact Hs|by eapply decode_suffix]. Qed.

(** The loop, after [n] writes. *)
Lemma stream_loop_cases fuel acks r s sent :
  (length (rbuf r) < fuel)%nat →
  panics r ∨
  ∃ cmds cut sent' end_, stream_loop apply fuel acks r s sent = (foldl (λ s c, apply c s) s (writes_of cmds), sent', end_) ∧
    (∀ i, (i < length (heartbeats_of cmds))%nat → acks (length sent + i)%nat = true) ∧
    ((∃ err, reads_off r cmds cut ∧ decode cut = Err err ∧ end_ = StreamBroken err) ∨
     (∃ ping, reads_off r (cmds ++ [ping]) cut ∧ isHeartbeat ping = true ∧
        acks (length sent + length (heartbeats_of cmds))%nat = false ∧ end_ = AckFailed)).
Proof.
  revert r s sent. induction fuel as [|fuel IH]; intros r s sent Hf; [lia|]. cbn [stream_loop].
  destruct (decode r) as [c r1|err| |] eqn:E.
  - pose proof (decode_consumes r c r1 E) as Hlen. destruct (isHeartbeat c) eqn:Hb.
    + destruct (acks (length sent)) eqn:Ha.
      2:{ right. exists [], r1, sent, AckFailed. split_and!; [done|simpl; lia|]. right. exists c.
          rewrite Nat.add_0_r. split_and!; [|done..]. eapply reads_off_cons; [done|constructor]. }
      destruct (IH r1 s (sent ++ [replconfAck])) as [Hp|(cmds & cut & sent' & e & -> & Hok & Hend)]; [lia|by left; eapply panics_later|right].
      rewrite length_app in Hok, Hend. simpl in Hok, Hend.
      exists (c :: cmds), cut, sent', e. rewrite writes_of_cons, heartbeats_of_cons, Hb. cbn [length]. split_and!; [done| |].
      * intros [|i] Hi; [by rewrite Nat.add_0_r|]. rewrite <-(Hok i) by lia. f_equal. lia.
      * destruct Hend as [(err & H1 & H2 & ->)|(ping & H1 & H2 & H3 & ->)]; [left; exists err|right; exists ping].
        -- split_and!; [by eapply reads_off_cons|done..].
        -- split_and!; [by eapply reads_off_cons|done| |done]. rewrite <-H3. f_equal. lia.
    + destruct (IH r1 (apply c s) sent) as [Hp|(cmds & cut & sent' & e & -> & Hok & Hend)]; [lia|by left; eapply panics_later|right].
      exists (c :: cmds), cut, sent', e. rewrite writes_of_cons, heartbeats_of_cons, Hb. split_and!; [done..|].
      destruct Hend as [(err & H1 & H2 & ->)|(ping & H1 & H2 & H3 & ->)]; [left; exists err|right; exists ping];
        (split_and!; [by eapply reads_off_cons|done..]).
  - right. exists [], r, sent, (StreamBroken err). split_and!; [done|simpl; lia|]. left. exists err.
    split_and!; [constructor|done..].
  - left. by exists r.
  - by apply Decode_enough_fuel in E; [|lia].
Qed.

Lemma streamOnce_attempted x s :
  panics (inbound x) ∨
  ∃ l sent end_, attempted x l end_ ∧ end_ ≠ StreamPanic ∧
    streamOnce apply (dial_ok x) (ack_ok x) (inbound x) s = (foldl (λ s c, apply c s) s l, sent, end_).
Proof.
  destruct x as [[] acks r]; cbn [dial_ok ack_ok inbound]; [|right; eexists _, _, _; split; [constructor|done]].
  unfold streamOnce. cbn [negb]. destruct (acks 0%nat) eqn:H0; cbn [negb].
  2:{ right. eexists _, _, _. split; [by apply not_sent|done]. }
  destruct (decode r) as [ack r1|err| |] eqn:E.
  - destruct (byte_eqb (vType ack) TypeSimpleString) eqn:Et; cbn [negb].
    2:{ right. eexists _, _, _. split; [eapply turned_away; [done..|by apply byte_eqb_neq]|done]. }
    apply byte_eqb_eq in Et.
    destruct (stream_loop_cases (S (length (rbuf r1))) acks r1 s [replicaofCommand]) as
      [Hp|(cmds & cut & sent & e & Hl & Hok & Hend)]; [lia|by left; eapply panics_later|right].
    exists (writes_of cmds), sent, e. simpl in Hok, Hend.
    assert (∀ i, (i ≤ length (heartbeats_of cmds))%nat → acks i = true) as Ha by (intros [|i] Hi; [done|apply Hok; lia]).
    destruct Hend as [(err & H1 & H2 & ->)|(ping & H1 & H2 & H3 & ->)]; (split_and!; [|done..]).
    + by eapply stream_broken.
    + by eapply not_acked.
  - right. eexists _, _, _. split; [by apply not_answered|done].
  - left. by exists r.
  - by apply Decode_enough_fuel in E; [|lia].
Qed.

Lemma RunReplica_attempted xs s :
  Exists (λ x, panics (inbound x)) xs ∨
  ∃ os, Forall2 (λ x o, attempted x o.1 o.2) xs os ∧
    RunReplica apply xs s = Some (foldl (λ s c, apply c s) s (concat os.*1), os.*2).
Proof.
  revert s. induction xs as [|x xs IH]; intros s; [right; by exists []|]. cbn [RunReplica].
  destruct (streamOnce_attempted x s) as [Hp|(l & sent & e & Ha & Hne & ->)]; [left; by constructor|].
  destruct (IH (foldl (λ s c, apply c s) s l)) as [Hp|(os & Hos & Hrun)]; [left; by constructor 2|right].
  exists ((l, e) :: os). split; [by constructor|]. rewrite Hrun. simpl. rewrite foldl_app. by destruct e.
Qed.
End stream_facts.

(** A registry with one feed, for concrete runs. *)
Definition one_feed : Replicas := (Add NewReplicas (B "10.0.0.2:7000") 5).1.

Lemma one_feed_ok : reps_ok one_feed ∧ registered one_feed (Add NewReplicas (B "10.0.0.2:7000") 5).2.
Proof.
  pose proof (Add_ok NewReplicas (B "10.0.0.2:7000") 5 reps_ok_new) as H. unfold one_feed.
  destruct (Add NewReplicas _ 5). naive_solver.
Qed.

(** * Properties *)

(** [Propagate] never blocks and never sends on a closed channel: on a
    well-formed registry it enqueues the encoded command once at the end of
    every registered feed that holds fewer than 256 frames, leaves a full
    feed exactly as it is, and touches nothing else. *)
Theorem propagate_enqueues_once (o : map_order) r cmd :
  reps_ok r → (Encode cmd).2 = None →
  ∃ r', Propagate o r cmd = Some r' ∧ reps_ok r' ∧ reps r' = reps r ∧
    (∀ p, registered r p →
       queue r' p = if has_space r p then queue r p ++ [encode cmd] else queue r p) ∧
    (∀ p, ¬ registered r p → rheap r' !! p = rheap r !! p).
Proof. apply Propagate_queue. Qed.

Lemma propagate_enqueues_once_witness :
  ∃ r', Propagate order_id one_feed pingCommand = Some r' ∧ reps_ok r' ∧ reps r' = reps one_feed ∧
    (∀ p, registered one_feed p → queue r' p =
       if has_space one_feed p then queue one_feed p ++ [encode pingCommand] else queue one_feed p) ∧
    (∀ p, ¬ registered one_feed p → rheap r' !! p = rheap one_feed !! p).
Proof.
  apply (propagate_enqueues_once order_id one_feed pingCommand).
  - exact (proj1 one_feed_ok).
  - vm_compute. reflexivity.
Defined.

(** A replica's stream is the primary's writes in order: for any
    interleaving of propagated commands and deliveries, the frames on the
    socket followed by those still queued are the encodings of the commands
    that found room, in propagation order; a replica that reads the
    handshake reply and those frames applies exactly those commands, in
    that order, without the heartbeats, and acknowledges each heartbeat. *)
Theorem replica_applies_in_order {St} (apply : Value → St → St) evs r p s :
  reps_ok r → registered r p → queue r p = [] →
  Forall wire_ok (concat (map feed_cmds evs)) →
  ∃ r' sent accepted, run_feed r p evs [] [] = Some (r', sent, accepted) ∧
    accepted `sublist_of` concat (map feed_cmds evs) ∧
    sent ++ queue r' p = map encode accepted ∧
    let got := take (length sent) accepted in
    streamOnce apply true (λ _, true) (mkReader (encode okValue ++ concat sent) EOF) s
    = (foldl (λ s c, apply c s) s (writes_of got),
       replicaofCommand :: map (λ _, replconfAck) (heartbeats_of got), StreamBroken EOF).
Proof.
  intros Hok Hreg Hq Hw.
  destruct (run_feed_fifo evs r p [] [] Hok Hreg Hw) as (r' & sent & acc & E & _ & _ & H3 & H4 & H5);
    [by rewrite Hq|constructor|]. cbn [app] in *.
  exists r', sent, acc. split_and!; [done..|]. cbn zeta.
  assert (sent = map encode (take (length sent) acc)) as Hs.
  { rewrite <-firstn_map, <-H3. by rewrite take_app_length. }
  rewrite Hs at 1. apply streamOnce_all. by apply Forall_take.
Qed.

Lemma replica_applies_in_order_witness :
  ∃ r' sent accepted,
    run_feed one_feed (Add NewReplicas (B "10.0.0.2:7000") 5).2
      [FPropagate order_id replconfAck; FPropagate order_id pingCommand; FDeliver] [] []
    = Some (r', sent, accepted) ∧
    accepted `sublist_of` [replconfAck; pingCommand] ∧
    sent ++ queue r' (Add NewReplicas (B "10.0.0.2:7000") 5).2 = map encode accepted ∧
    let got := take (length sent) accepted in
    streamOnce (λ c l, l ++ [c]) true (λ _, true) (mkReader (encode okValue ++ concat sent) EOF) []
    = (foldl (λ s c, s ++ [c]) [] (writes_of got),
       replicaofCommand :: map (λ _, replconfAck) (heartbeats_of got), StreamBroken EOF).
Proof.
  apply (replica_applies_in_order (λ c l, l ++ [c])
    [FPropagate order_id replconfAck; FPropagate order_id pingCommand; FDeliver] one_feed
    (Add NewReplicas (B "10.0.0.2:7000") 5).2 []).
  - exact (proj1 one_feed_ok).
  - exact (proj2 one_feed_ok).
  - vm_compute. reflexivity.
  - apply wire_okb_all. vm_compute. reflexivity.
Defined.

(** C26: a replica keeps what it has and goes on.  Whatever the sessions of
    [RunReplica] meet (the dial, each write and the bytes and errors of the
    primary's side are arbitrary), either some stream makes the decoder
    panic, on an announced length it cannot allocate, or every session comes
    to one of the ends of [attempted], which is the error that is logged, and
    the local state has exactly the write frames of all streams applied, in
    order: of each, those in front of the bytes the decoder could not read,
    or of the heartbeat whose acknowledgement failed. *)
Theorem replica_reconnects {St} (apply : Value → St → St) xs s :
  Exists (λ x, panics (inbound x)) xs ∨
  ∃ os, Forall2 (λ x o, attempted x o.1 o.2) xs os ∧
    RunReplica apply xs s = Some (foldl (λ s c, apply c s) s (concat os.*1), os.*2).
Proof. apply RunReplica_attempted. Qed.

(** A primary that is down, a socket that takes nothing, a handshake that is
    cut, a torn stream, a busy primary, and a heartbeat that cannot be
    acknowledged. *)
Example bad_day :
  let all := λ _ : nat, true in
  RunReplica (λ c l, l ++ [c])
    [mkSession false all (mkReader [] EOF); mkSession true (λ _, false) (mkReader [] EOF);
     mkSession true all (mkReader (B "+O") EOF);
     mkSession true all (mkReader (encode okValue ++ encode_all [pingCommand; replconfAck] ++ take 5 (encode pingCommand)) EOF);
     mkSession true all (mkReader (encode (ErrorV (B "ERR busy"))) EOF);
     mkSession true (λ i, bool_decide (i = 0%nat))
       (mkReader (encode okValue ++ encode_all [replicaofCommand; pingCommand; replconfAck]) EOF)] []
  = Some ([replconfAck; replicaofCommand],
      [DialFailed; HandshakeSendFailed; HandshakeReadFailed ErrUnexpectedEOF; StreamBroken ErrUnexpectedEOF;
       HandshakeRejected (ErrorV (B "ERR busy")); AckFailed]).
Proof. vm_compute. reflexivity. Qed.
