(* ===== verification/Server.v ===== *)
(** [internal/server]: the write path (server.go), the per-connection loop
    (connection.go) and the commands that act on the connection (pubsub.go,
    replication.go).

    A request runs with the outcomes of what it asks of the outside: the
    clock, the map iteration orders, the system calls of the log and the
    writes to the socket.  [None] is a Go panic. *)

From S2P Require Import Prelude GoLib Protocol ProtocolFacts PubSub Store Db Expiry Cmd Replay Aof.
From S2P Require Import Snapshot Replication.

Record Server := mkServer {
  s_db : DB;
  s_world : World;
  s_aofPath : bytes;
  s_fsyncMode : FsyncMode;
  s_aof : option AOF;
  s_replicas : Replicas;
  s_primaryAddr : bytes
}.

Definition with_db (s : Server) (db : DB) : Server :=
  mkServer db (s_world s) (s_aofPath s) (s_fsyncMode s) (s_aof s) (s_replicas s) (s_primaryAddr s).
Definition with_pubsub (s : Server) (b : Broker) : Server := with_db s (mkDB (shards (s_db s)) b).
Definition with_log (s : Server) (w : World) (a : option AOF) : Server :=
  mkServer (s_db s) w (s_aofPath s) (s_fsyncMode s) a (s_replicas s) (s_primaryAddr s).
Definition with_replicas (s : Server) (r : Replicas) : Server :=
  mkServer (s_db s) (s_world s) (s_aofPath s) (s_fsyncMode s) (s_aof s) r (s_primaryAddr s).

(** [NewMulti] with its options applied; listeners and metrics are outside. *)
Definition NewMulti (w : World) (aofPath : bytes) (mode : FsyncMode) (primaryAddr : bytes) : Server :=
  mkServer newDB w aofPath mode None NewReplicas primaryAddr.

(** What the outside does during one request. *)
Record env := {
  e_clk : clock;
  e_ord : map_order;
  e_accept : option nat;
  e_sync : bool;
  e_feeds : map_order;
  e_now : Z
}.

Definition commandName (request : Value) : bytes :=
  if negb (byte_eqb (vType request) TypeArray) then []
  else match vArray request with
       | Some (first :: _) => content (vBulk first)
       | _ => []
       end.

Section server.
Context `{GoUnicode}.

(** * server.go: the write path *)

(** [if s.aof != nil { s.aof.Append(request) }]: an error is only logged. *)
Definition append_log (e : env) (s : Server) (request : Value) : Server :=
  match s_aof s with
  | None => s
  | Some a =>
      let '(w, a, _) := Append (s_world s) a request (e_accept e) (e_sync e) in
      with_log s w (Some a)
  end.

Definition applyRecord (e : env) (s : Server) (request : Value) (name : bytes)
    : option (Server * Value) :=
  let '(db, reply) := Dispatch (e_clk e) (e_ord e) (s_db s) request in
  match reply with
  | None => None
  | Some reply =>
      let s' := with_db s db in
      if negb (IsWrite name) || (bool_decide (s_aof s = None) && negb (Any (s_replicas s)))
      then Some (s', reply)
      else if byte_eqb (vType reply) TypeError then Some (s', reply)
      else
        let s' := append_log e s' request in
        match Propagate (e_feeds e) (s_replicas s') request with
        | None => None
        | Some r => Some (with_replicas s' r, reply)
        end
  end.

(** [apply]: the reply, and the label and result recorded by the metrics. *)
Definition apply (e : env) (s : Server) (request : Value)
    : option (Server * Value * (bytes * bytes)) :=
  let name := commandName request in
  match applyRecord e s request name with
  | None => None
  | Some (s', reply) =>
      let label := if Known name then ToUpper name else B "unknown" in
      let result := if byte_eqb (vType reply) TypeError then B "error" else B "ok" in
      Some (s', reply, (label, result))
  end.

(** * server.go: recovery and compaction *)

(** The closure [loadAOF] hands to [Replay]; the [i]-th command runs with the
    [i]-th environment.  A panic would end the process. *)
Definition replay_dispatch (es : nat → env) (c : Value) (st : option DB * nat)
    : option DB * nat * bool :=
  match st with
  | (None, i) => (None, i, true)
  | (Some db, i) =>
      let '(db', reply) := Dispatch (e_clk (es i)) (e_ord (es i)) db c in
      (match reply with Some _ => Some db' | None => None end, S i, true)
  end.

(** [loadAOF]: the server that goes on, or [None] when an error is returned
    (or the process died). *)
Definition loadAOF (es : nat → env) (s : Server) (f : log_file) (open_ok stat_ok : bool)
    : option Server :=
  match Replay (replay_dispatch es) f (Some (s_db s), 0%nat) with
  | ((Some db, _), _, Finished) =>
      match Open (s_world s) (s_aofPath s) (s_fsyncMode s) open_ok stat_ok with
      | (w, Some a) => Some (with_log (with_db s db) w (Some a))
      | (_, None) => None
      end
  | _ => None
  end.

(** The start of [Serve]: with a log configured it is loaded before anything
    else runs; an error ends [Serve]. *)
Definition Serve_start (es : nat → env) (s : Server) (f : log_file) (open_ok stat_ok : bool)
    : option Server :=
  if bool_decide (s_aofPath s = []) then Some s else loadAOF es s f open_ok stat_ok.

(** The end of [Serve]: the deferred [Close] of the log, whose error is only
    logged.  [None] is a panic. *)
Definition Serve_stop (accept : option nat) (sync_ok close_ok : bool) (s : Server) : option Server :=
  match s_aof s with
  | None => Some s
  | Some a =>
      match AOF_Close (s_world s) a accept sync_ok close_ok with
      | None => None
      | Some (w, a, _) => Some (with_log s w (Some a))
      end
  end.

(** [rewriteAOF], under [writeMu]: the boolean is whether nil is returned. *)
Definition rewriteAOF (os : snap_orders) (now tw : Z) (io : rewrite_io) (s : Server)
    : option (Server * bool) :=
  match s_aof s with
  | None => None
  | Some a =>
      let records := Snapshot os (s_db s) now in
      match Rewrite (s_world s) a (s_aofPath s) tw records io with
      | None => None
      | Some (w, a, ok) => Some (with_log s w (Some a), ok)
      end
  end.

(** One tick of [runAutoRewrite]. *)
Definition autoRewrite_tick (stat_ok : bool) (os : snap_orders) (now tw : Z) (io : rewrite_io)
    (s : Server) : option (Server * bool) :=
  match s_aof s with
  | None => None
  | Some a =>
      if negb (ShouldRewrite (s_world s) a stat_ok) then Some (s, true)
      else rewriteAOF os now tw io s
  end.

(** * server.go: the heartbeat *)

Definition replicaHeartbeatInterval : Z := 5 * Second.
Definition replicaAckTimeout : Z := 30 * Second.

(** One tick of [runReplicaHeartbeat]: the server after it and the addresses
    it warns about.  [None] is a panic. *)
Definition runReplicaHeartbeat_tick (o o' : map_order) (now : Z) (s : Server)
    : option (Server * list bytes) :=
  match Heartbeat o o' (s_replicas s) replicaAckTimeout now with
  | None => None
  | Some (r, warned) => Some (with_replicas s r, warned)
  end.

(** * connection.go and pubsub.go *)

Record connState := mkConn {
  cs_sub : option nat;
  cs_channels : gset bytes;
  cs_replica : option nat;
  cs_remote : bytes
}.

Definition new_conn (remote : bytes) : connState := mkConn None ∅ None remote.

Definition subscribed (cs : connState) : bool := negb (bool_decide (cs_channels cs = ∅)).

Definition allowedWhileSubscribed (name : bytes) : bool :=
  bool_decide (name ∈ [B "SUBSCRIBE"; B "UNSUBSCRIBE"; B "PING"; B "QUIT"]).

Definition errorVal (msg : bytes) : Value := ErrorV msg.
Definition okVal : Value := SimpleStringV (B "OK").
Definition subscribeReply (kind channel : bytes) (count : Z) : Value :=
  ArrayV (Some [BulkV (Some kind); BulkV (Some channel); IntegerV count]).
Definition subscribeReplyNull (kind : bytes) (count : Z) : Value :=
  ArrayV (Some [BulkV (Some kind); BulkV None; IntegerV count]).
Definition messageReply (channel : bytes) (payload : slice) : Value :=
  ArrayV (Some [BulkV (Some (B "message")); BulkV (Some channel); BulkV payload]).

(** [cs.write(v) == nil]: [wok] is the outcome of the socket. *)
Definition write_ok (wok : bool) (v : Value) : bool :=
  match (Encode v).2 with None => wok | Some _ => false end.

(** The frames written, then whether the connection goes on. *)
Abbreviation served := (Server * connState * list Value * bool)%type.

Definition reply_one (wok : nat → bool) (s : Server) (cs : connState) (v : Value) : served :=
  (s, cs, [v], write_ok (wok 0%nat) v).

Fixpoint subscribe_loop (wok : nat → bool) (i : nat) (s : Server) (cs : connState) (sub : nat)
    (channels : list Value) (out : list Value) : served :=
  match channels with
  | [] => (s, cs, out, true)
  | c :: channels' =>
      let channel := content (vBulk c) in
      let '(s, cs) :=
        if bool_decide (channel ∈ cs_channels cs) then (s, cs)
        else (with_pubsub s (Subscribe (pubsub (s_db s)) channel sub),
              mkConn (cs_sub cs) ({[channel]} ∪ cs_channels cs) (cs_replica cs) (cs_remote cs)) in
      let v := subscribeReply (B "subscribe") channel (Z.of_nat (size (cs_channels cs))) in
      if write_ok (wok i) v then subscribe_loop wok (S i) s cs sub channels' (out ++ [v])
      else (s, cs, out ++ [v], false)
  end.

Definition subscribe (wok : nat → bool) (s : Server) (cs : connState) (channels : list Value)
    : served :=
  match channels with
  | [] => reply_one wok s cs (errorVal (B "ERR wrong number of arguments for 'subscribe' command"))
  | _ =>
      let '(s, cs, sub) :=
        match cs_sub cs with
        | Some sub => (s, cs, sub)
        | None =>
            let '(sub, b) := NewSubscriber (pubsub (s_db s)) in
            (with_pubsub s b, mkConn (Some sub) ∅ (cs_replica cs) (cs_remote cs), sub)
        end in
      subscribe_loop wok 0 s cs sub channels []
  end.

(** [None] is the nil dereference of [Unsubscribe(channel, cs.sub)]. *)
Fixpoint unsubscribe_loop (wok : nat → bool) (i : nat) (s : Server) (cs : connState)
    (targets : list bytes) (out : list Value) : option served :=
  match targets with
  | [] => Some (s, cs, out, true)
  | channel :: targets' =>
      let next (s : Server) (cs : connState) :=
        let v := subscribeReply (B "unsubscribe") channel (Z.of_nat (size (cs_channels cs))) in
        if write_ok (wok i) v then unsubscribe_loop wok (S i) s cs targets' (out ++ [v])
        else Some (s, cs, out ++ [v], false) in
      if bool_decide (channel ∈ cs_channels cs) then
        match cs_sub cs with
        | None => None
        | Some sub =>
            next (with_pubsub s (Unsubscribe (pubsub (s_db s)) channel sub))
                 (mkConn (cs_sub cs) (cs_channels cs ∖ {[channel]}) (cs_replica cs) (cs_remote cs))
        end
      else next s cs
  end.

Definition unsubscribe (o : map_order) (wok : nat → bool) (s : Server) (cs : connState)
    (channels : list Value) : option served :=
  let targets :=
    match channels with
    | [] => range_set o (cs_channels cs)
    | _ => map (λ c, content (vBulk c)) channels
    end in
  match targets with
  | [] => Some (reply_one wok s cs (subscribeReplyNull (B "unsubscribe") 0))
  | _ => unsubscribe_loop wok 0 s cs targets []
  end.

(** [for channel := range cs.channels { Unsubscribe(channel, cs.sub) }; cs.sub.Close()] *)
Definition unsubscribeAll (o : map_order) (s : Server) (cs : connState) : option Server :=
  match cs_sub cs with
  | None => Some s
  | Some sub =>
      let b := foldl (λ b channel, Unsubscribe b channel sub) (pubsub (s_db s))
                     (range_set o (cs_channels cs)) in
      match Close b sub with
      | None => None
      | Some b => Some (with_pubsub s b)
      end
  end.

(** One iteration of [deliver], the goroutine of the subscriber [sub]: the
    message it received, written as a frame; [None] while the mailbox is
    empty.  The boolean is whether the goroutine goes on. *)
Definition deliver_step (wok : bool) (s : Server) (sub : nat) : option (Server * Value * bool) :=
  match Receive (pubsub (s_db s)) sub with
  | None => None
  | Some (msg, b) =>
      let v := messageReply (Channel msg) (Payload msg) in
      Some (with_pubsub s b, v, write_ok wok v)
  end.

(** * replication.go *)

(** One iteration of [deliverReplica], the goroutine of the feed [p]: the
    frame it handed to [writeRaw], whose outcome is [wok]. *)
Definition deliverReplica_step (wok : bool) (s : Server) (p : nat) : option (Server * bytes * bool) :=
  match Feed_receive (s_replicas s) p with
  | None => None
  | Some (frame, r) => Some (with_replicas s r, frame, wok)
  end.

Definition replicaof (wok : nat → bool) (now : Z) (s : Server) (cs : connState) : served :=
  if negb (write_ok (wok 0%nat) okVal) then (s, cs, [okVal], false)
  else
    let '(r, p) := Add (s_replicas s) (cs_remote cs) now in
    (with_replicas s r, mkConn (cs_sub cs) (cs_channels cs) (Some p) (cs_remote cs), [okVal], true).

Definition removeReplica (s : Server) (cs : connState) : option Server :=
  match cs_replica cs with
  | None => Some s
  | Some p =>
      match Remove (s_replicas s) p with
      | None => None
      | Some r => Some (with_replicas s r)
      end
  end.

(** * serve (pubsub.go) *)

Definition args_of (request : Value) : list Value :=
  match vArray request with Some (_ :: args) => args | _ => [] end.

Definition subscribe_error (name : bytes) : Value :=
  errorVal (B "ERR Can't execute '" ++ ToLower name ++
            B "': only (UN)SUBSCRIBE / PING / QUIT are allowed in subscribe context").

Definition readonly_error : Value :=
  errorVal (B "READONLY You can't write against a read only replica.").

Definition serve (e : env) (wok : nat → bool) (s : Server) (cs : connState) (request : Value)
    : option served :=
  let name := ToUpper (commandName request) in
  if subscribed cs && negb (allowedWhileSubscribed name)
  then Some (reply_one wok s cs (subscribe_error name))
  else if bool_decide (name = B "SUBSCRIBE") then Some (subscribe wok s cs (args_of request))
  else if bool_decide (name = B "UNSUBSCRIBE") then unsubscribe (e_ord e) wok s cs (args_of request)
  else if bool_decide (name = B "REPLICAOF") then Some (replicaof wok (e_now e) s cs)
  else if bool_decide (name = B "REPLCONF") then
    match cs_replica cs with
    | Some p => Some (with_replicas s (Acked (s_replicas s) p (e_now e)), cs, [], true)
    | None => Some (reply_one wok s cs okVal)
    end
  else if bool_decide (name = B "QUIT") then Some (s, cs, [okVal], false)
  else if negb (bool_decide (s_primaryAddr s = [])) && IsWrite name
  then Some (reply_one wok s cs readonly_error)
  else match apply e s request with
       | None => None
       | Some (s', reply, _) => Some (reply_one wok s' cs reply)
       end.

(** The deferred calls of [handle], in the order they run. *)
Definition teardown (o : map_order) (s : Server) (cs : connState) : option Server :=
  match removeReplica s cs with
  | None => None
  | Some s => unsubscribeAll o s cs
  end.

(** * handle (connection.go)

    The [i]-th request of the connection runs with the [i]-th environment;
    [err_text] is [err.Error()] of the decoder's errors. *)
Section handle.
Context (err_text : error → bytes) (es : nat → env) (woks : nat → nat → bool).

(** The loop: the server, the connection and the frames written when it
    ends. *)
Fixpoint handle_loop (fuel : nat) (i : nat) (r : Reader) (s : Server) (cs : connState)
    (out : list Value) : option (Server * connState * list Value) :=
  match fuel with
  | O => None
  | S f =>
      match decode r with
      | Err EOF => Some (s, cs, out)
      | Err ErrUnexpectedEOF => Some (s, cs, out)
      | Err err => Some (s, cs, out ++ [errorVal (B "ERR " ++ err_text err)])
      | Panic => None
      | OutOfFuel => None
      | Ok request r' =>
          match serve (es i) (woks i) s cs request with
          | None => None
          | Some (s, cs, vs, true) => handle_loop f (S i) r' s cs (out ++ vs)
          | Some (s, cs, vs, false) => Some (s, cs, out ++ vs)
          end
      end
  end.

(** A whole connection on the input [r], teardown included. *)
Definition handle (o : map_order) (r : Reader) (s : Server) (remote : bytes)
    : option (Server * list Value) :=
  match handle_loop (S (length (rbuf r))) 0 r s (new_conn remote) [] with
  | None => None
  | Some (s, cs, out) =>
      match teardown o s cs with
      | None => None
      | Some s => Some (s, out)
      end
  end.
End handle.
End server.
