(* ===== verification/Wire.v ===== *)
(** connection.go, the writing side: [connState.write] and [writeRaw] under
    [writeMu], at the grain of the single writes [Encode] makes into the
    connection's [bufio.Writer].

    The request loop and the delivery goroutines of one connection all write
    through here.  Between the calls to [Lock] and [Unlock] nothing in the
    code checks who holds the lock, so the step relation does not either. *)

From S2P Require Import Prelude Lts GoLib Protocol ProtocolFacts Replay Aof AofFacts.

#[local] Open Scope go_scope.

(** * bufio.Writer *)

(** [defaultBufSize] of package bufio. *)
Definition bufSize : nat := Z.to_nat 4096.

(** [bw_sent] is what the socket has taken, [bw_buf] the bytes buffered. *)
Record BufWriter := mkBufWriter { bw_sent : bytes; bw_buf : bytes; bw_err : bool }.

(** A write to the socket takes all the bytes, or ([Some k]) the first [k]
    of them and fails. *)
Abbreviation socket := (option nat).

Definition bufio_Flush (sock : socket) (b : BufWriter) : BufWriter :=
  if bw_err b then b
  else
    match bw_buf b, sock with
    | [], _ => b
    | buf, None => mkBufWriter (bw_sent b ++ buf) [] false
    | buf, Some k => mkBufWriter (bw_sent b ++ take k buf) (drop k buf) true
    end.

(** One piece handed to the writer: [io.WriteString], or [Write] of a byte
    slice. *)
Inductive piece :=
  | Str (s : bytes)
  | Raw (s : bytes).

Definition content_of (p : piece) : bytes := match p with Str s | Raw s => s end.

(** The loop of [Write] and [WriteString]: what does not fit fills the
    buffer, which is flushed; [Write] hands a slice straight to the socket
    when the buffer is empty ([direct]; a [net.Conn] is not an
    [io.StringWriter], so [WriteString] never does). *)
Fixpoint bufio_loop (fuel : nat) (direct : bool) (socks : nat → socket) (i : nat) (b : BufWriter)
    (p : bytes) : option BufWriter :=
  match fuel with
  | O => None
  | S f =>
      let avail := (bufSize - length (bw_buf b))%nat in
      if (bool_decide (avail < length p)%nat) && negb (bw_err b) then
        if bool_decide (bw_buf b = []) && direct then
          match socks i with
          | None => bufio_loop f direct socks (S i) (mkBufWriter (bw_sent b ++ p) [] false) []
          | Some k => bufio_loop f direct socks (S i) (mkBufWriter (bw_sent b ++ take k p) [] true) (drop k p)
          end
        else
          bufio_loop f direct socks (S i)
            (bufio_Flush (socks i) (mkBufWriter (bw_sent b) (bw_buf b ++ take avail p) false)) (drop avail p)
      else if bw_err b then Some b
      else Some (mkBufWriter (bw_sent b) (bw_buf b ++ p) false)
  end.

(** Every iteration but the first takes a byte, so this fuel is enough
    ([bufio_write_total]). *)
Definition bufio_write (socks : nat → socket) (b : BufWriter) (p : piece) : option BufWriter :=
  bufio_loop (2 + length (content_of p)) (match p with Raw _ => true | Str _ => false end) socks 0 b
    (content_of p).

(** * The pieces of a frame *)

(** The writes [Encode] makes, in order, and its own error. *)
Fixpoint Encode_pieces (v : Value) : list piece * option error :=
  if vType v =b TypeSimpleString then ([Str ([TypeSimpleString] ++ vStr v ++ CRLF)], None)
  else if vType v =b TypeError then ([Str ([TypeError] ++ vStr v ++ CRLF)], None)
  else if vType v =b TypeInteger then ([Str ([TypeInteger] ++ FormatInt (vInt v) ++ CRLF)], None)
  else if vType v =b TypeBulkString then
    match vBulk v with
    | None => ([Str (B "$-1" ++ CRLF)], None)
    | Some b => ([Str ([TypeBulkString] ++ FormatInt (zlen b) ++ CRLF); Raw b; Str CRLF], None)
    end
  else if vType v =b TypeArray then
    match vArray v with
    | None => ([Str (B "*-1" ++ CRLF)], None)
    | Some es =>
        let fix elems (es : list Value) : list piece * option error :=
          match es with
          | [] => ([], None)
          | e :: es' =>
              match Encode_pieces e with
              | (ps, Some err) => (ps, Some err)
              | (ps, None) => let '(ps', err) := elems es' in (ps ++ ps', err)
              end
          end in
        let '(ps, err) := elems es in (Str ([TypeArray] ++ FormatInt (zlen es) ++ CRLF) :: ps, err)
    end
  else ([], Some (ErrEncodeUnknownType (vType v))).

(** * Writers of one connection *)

(** [cs.write(v)] and [cs.writeRaw(frame)]. *)
Inductive job :=
  | Write (v : Value)
  | WriteRaw (frame : bytes).

Definition job_pieces (j : job) : list piece * option error :=
  match j with Write v => Encode_pieces v | WriteRaw frame => ([Raw frame], None) end.

Definition job_bytes (j : job) : bytes := concat (map content_of (job_pieces j).1).

(** A goroutine outside [write], at [Lock], inside with pieces to go, or at
    the deferred [Unlock] with its result. *)
Inductive writer :=
  | Outside
  | Locking (j : job)
  | Writing (j : job) (todo : list piece)
  | Leaving (j : job) (ok : bool).

Record conn := mkWire { w_bw : BufWriter; w_lock : bool; w_threads : list writer }.

Inductive wlabel :=
  | Locked (j : job)
  | Returned (j : job) (ok : bool).

Inductive wstep : conn → option wlabel → conn → Prop :=
  | W_call b lk ths i j :
      ths !! i = Some Outside →
      wstep (mkWire b lk ths) None (mkWire b lk (<[i := Locking j]> ths))
  | W_lock b ths i j :
      ths !! i = Some (Locking j) →
      wstep (mkWire b false ths) (Some (Locked j))
            (mkWire b true (<[i := Writing j (job_pieces j).1]> ths))
  | W_piece b lk ths i j p todo socks b' :
      ths !! i = Some (Writing j (p :: todo)) → bufio_write socks b p = Some b' →
      wstep (mkWire b lk ths) None
            (mkWire b' lk (<[i := if bw_err b' then Leaving j false else Writing j todo]> ths))
  | W_encode_error b lk ths i j err :
      ths !! i = Some (Writing j []) → (job_pieces j).2 = Some err →
      wstep (mkWire b lk ths) None (mkWire b lk (<[i := Leaving j false]> ths))
  | W_flush b lk ths i j sock b' :
      ths !! i = Some (Writing j []) → (job_pieces j).2 = None → bufio_Flush sock b = b' →
      wstep (mkWire b lk ths) None (mkWire b' lk (<[i := Leaving j (negb (bw_err b'))]> ths))
  | W_unlock b lk ths i j ok :
      ths !! i = Some (Leaving j ok) →
      wstep (mkWire b lk ths) (Some (Returned j ok)) (mkWire b false (<[i := Outside]> ths)).

Definition wire_init (n : nat) : conn := mkWire (mkBufWriter [] [] false) false (replicate n Outside).

(** * The buffer keeps order *)

(** Handing [p] to a writer: without an error nothing is lost or reordered;
    with one, what reached the socket is still an initial part. *)
Definition pushed (b : BufWriter) (p : bytes) (b' : BufWriter) : Prop :=
  bw_sent b `prefix_of` bw_sent b' ∧
  bw_sent b' `prefix_of` bw_sent b ++ bw_buf b ++ p ∧
  (bw_err b' = false → bw_sent b' ++ bw_buf b' = bw_sent b ++ bw_buf b ++ p).

Lemma pushed_trans b p b1 q b2 :
  pushed b p b1 → bw_err b1 = false → pushed b1 q b2 → pushed b (p ++ q) b2.
Proof.
  intros (P1 & Q1 & E1) He (P2 & Q2 & E2). specialize (E1 He). unfold pushed.
  rewrite (app_assoc (bw_sent b1)), E1, <-!app_assoc in Q2.
  split_and!; [by etrans|done|]. intros He2. rewrite E2 by done.
  by rewrite (app_assoc (bw_sent b1)), E1, <-!app_assoc.
Qed.

Lemma pushed_stop b p b1 q : pushed b p b1 → bw_err b1 = true → pushed b (p ++ q) b1.
Proof.
  intros (P1 & Q1 & E1) He. split_and!; [done| |congruence].
  etrans; [exact Q1|]. exists q. by rewrite <-!app_assoc.
Qed.

Lemma pushed_buffer b p : pushed b p (mkBufWriter (bw_sent b) (bw_buf b ++ p) false).
Proof. split_and!; simpl; [done|by eexists|done]. Qed.

Lemma bufio_Flush_pushed sock b : bw_err b = false → pushed b [] (bufio_Flush sock b).
Proof.
  intros He. unfold bufio_Flush. rewrite He. unfold pushed. rewrite !app_nil_r.
  destruct (bw_buf b) as [|c buf] eqn:Eb.
  { rewrite app_nil_r. split_and!; [done..|]. intros _. by rewrite Eb, app_nil_r. }
  destruct sock as [k|]; cbn [bw_sent bw_buf bw_err]; rewrite ?app_nil_r; split_and!; try done; try by eexists.
  apply prefix_app, prefix_take.
Qed.

Lemma bufio_Flush_empties sock b : bw_err (bufio_Flush sock b) = false → bw_buf (bufio_Flush sock b) = [].
Proof.
  unfold bufio_Flush. destruct (bw_err b) eqn:He; [congruence|].
  destruct (bw_buf b) eqn:Eb, sock; simpl; congruence.
Qed.

Lemma bufio_fill_pushed sock b p :
  pushed b p (bufio_Flush sock (mkBufWriter (bw_sent b) (bw_buf b ++ p) false)).
Proof.
  pose proof (pushed_trans _ _ _ _ _ (pushed_buffer b p) eq_refl 
    (bufio_Flush_pushed sock (mkBufWriter (bw_sent b) (bw_buf b ++ p) false) eq_refl)) as Hp.
  by rewrite app_nil_r in Hp.
Qed.

Lemma bufio_loop_pushed fuel direct socks i b p b' :
  bw_err b = false → bufio_loop fuel direct socks i b p = Some b' → pushed b p b'.
Proof.
  revert i b p. induction fuel as [|f IH]; intros i b p He E; [done|]. cbn [bufio_loop] in E. rewrite He in E.
  case_bool_decide; cbn [andb negb] in E; [|simplify_eq; apply pushed_buffer].
  assert (∀ b1 p1 q, p = p1 ++ q → pushed b p1 b1 → bufio_loop f direct socks (S i) b1 q = Some b' → pushed b p b')
    as Hstep.
  { intros b1 p1 q -> H1 Hl. destruct (bw_err b1) eqn:He1.
    - destruct f; [done|]. cbn [bufio_loop] in Hl. rewrite He1, andb_false_r in Hl. simplify_eq.
      by apply pushed_stop.
    - eapply pushed_trans; [done..|]. by eapply IH. }
  case_bool_decide as Hb; [destruct direct|]; cbn [andb] in E.
  - destruct (socks i) as [k|].
    + apply (Hstep _ (take k p) _) in E; [done|by rewrite take_drop|].
      split_and!; simpl; [by eexists|by rewrite Hb|done].
    + apply (Hstep _ p _) in E; [done|by rewrite app_nil_r|].
      split_and!; simpl; [by eexists|by rewrite Hb|by rewrite Hb, app_nil_r].
  - eapply (Hstep _ (take _ p) _); [by rewrite take_drop|apply bufio_fill_pushed|exact E].
  - eapply (Hstep _ (take _ p) _); [by rewrite take_drop|apply bufio_fill_pushed|exact E].
Qed.

(** A failed writer takes nothing more. *)
Lemma bufio_write_failed socks b p b' : bw_err b = true → bufio_write socks b p = Some b' → b' = b.
Proof. intros He. unfold bufio_write. cbn [bufio_loop Nat.add]. rewrite He, andb_false_r. congruence. Qed.

Lemma bufio_write_pushed socks b p b' :
  bufio_write socks b p = Some b' → bw_err b = false → pushed b (content_of p) b'.
Proof. intros E He. by eapply bufio_loop_pushed. Qed.

Lemma bufio_loop_failed fuel direct socks i b p :
  bw_err b = true → (0 < fuel)%nat → is_Some (bufio_loop fuel direct socks i b p).
Proof. intros He Hf. destruct fuel; [lia|]. cbn [bufio_loop]. rewrite He, andb_false_r. eauto. Qed.

Lemma bufio_loop_total fuel direct socks i b p :
  (length p < fuel)%nat → (length (bw_buf b) < bufSize)%nat ∨ (S (length p) < fuel)%nat →
  is_Some (bufio_loop fuel direct socks i b p).
Proof.
  revert i b p. induction fuel as [|f IH]; intros i b p Hf Hb; [lia|].
  destruct (bw_err b) eqn:He; [apply bufio_loop_failed; [done|lia]|].
  assert (0 < bufSize)%nat as H0 by (unfold bufSize; lia).
  cbn [bufio_loop]. rewrite He. case_bool_decide as Hp; cbn [andb negb]; [|eauto].
  destruct (bool_decide (bw_buf b = []) && direct).
  - destruct (socks i); [apply bufio_loop_failed; [done|lia]|]. apply IH; cbn [bw_buf length]; lia.
  - match goal with |- is_Some (bufio_loop _ _ _ _ ?b1 _) => destruct (bw_err b1) eqn:He1 end.
    { apply bufio_loop_failed; [done|lia]. }
    pose proof (bufio_Flush_empties _ _ He1) as E1.
    apply IH; rewrite ?E1, length_drop; cbn [length]; lia.
Qed.

Lemma bufio_write_total socks b p : is_Some (bufio_write socks b p).
Proof. apply bufio_loop_total; lia. Qed.

(** * The pieces are the frame *)

Lemma Value_nested_ind (P : Value → Prop) :
  (∀ t s n b, P (mkValue t s n b None)) →
  (∀ t s n b es, Forall P es → P (mkValue t s n b (Some es))) → ∀ v, P v.
Proof.
  intros H1 H2. fix IH 1. intros [t s n b [es|]]; [|apply H1]. apply H2.
  induction es; constructor; [apply IH|done].
Qed.

Lemma Encode_pieces_spec v :
  concat (map content_of (Encode_pieces v).1) = (Encode v).1 ∧ (Encode_pieces v).2 = (Encode v).2.
Proof.
  induction v as [t s n b|t s n b es IH] using Value_nested_ind;
    cbn [Encode_pieces Encode vType vStr vInt vBulk vArray];
    (destruct (t =b TypeSimpleString); [by cbn; rewrite app_nil_r|]);
    (destruct (t =b TypeError); [by cbn; rewrite app_nil_r|]);
    (destruct (t =b TypeInteger); [by cbn; rewrite app_nil_r|]);
    (destruct (t =b TypeBulkString); [destruct b; cbn; by rewrite ?app_nil_r, <-?app_assoc|]);
    (destruct (t =b TypeArray); [|done]); [done|].
  match goal with |- context [concat (map content_of (let '(_, _) := ?f es in _).1) = (let '(_, _) := ?g es in _).1] =>
    assert (concat (map content_of (f es).1) = (g es).1 ∧ (f es).2 = (g es).2) as [H1 H2];
    [|destruct (f es), (g es); simpl in *; subst; by rewrite <-?app_assoc] end.
  induction IH as [|e es [E1 E2] _ IHes]; [done|].
  destruct (Encode_pieces e) as [ps [err|]], (Encode e) as [out err']; simpl in E1, E2; subst; [done|].
  match goal with |- context [let '(_, _) := ?f es in (ps ++ _, _)] => destruct (f es) end.
  match goal with |- context [let '(_, _) := ?f es in (_ ++ _, _)] => destruct (f es) end.
  destruct IHes as [I1 I2]. simpl in *. subst. by rewrite map_app, concat_app.
Qed.

(** * Mutual exclusion and order *)

Definition locked (tr : list wlabel) : list job :=
  omap (λ l, match l with Locked j => Some j | Returned _ _ => None end) tr.

Definition frames (js : list job) : bytes := concat (map job_bytes js).

Definition sound (j : job) : Prop := (job_pieces j).2 = None.

Definition inside (w : writer) : Prop :=
  match w with Outside | Locking _ => False | Writing _ _ | Leaving _ _ => True end.

(** Where the goroutine that holds the lock is, the jobs [js] having taken
    it so far. *)
Definition writer_ok (b : BufWriter) (js : list job) (w : writer) : Prop :=
  match w with
  | Outside | Locking _ => True
  | Writing j todo =>
      ∃ js0 done, js = js0 ++ [j] ∧ job_bytes j = done ++ concat (map content_of todo) ∧
        (bw_err b = false → bw_sent b ++ bw_buf b = frames js0 ++ done)
  | Leaving j true => bw_err b = false ∧ bw_buf b = [] ∧ bw_sent b = frames js
  | Leaving j false => bw_err b = true
  end.

Record wire_inv (tr : list wlabel) (c : conn) : Prop := {
  wi_held : ∀ i w, w_threads c !! i = Some w → inside w → w_lock c = true;
  wi_one : ∀ i w i' w', w_threads c !! i = Some w → inside w →
    w_threads c !! i' = Some w' → inside w' → i' = i;
  wi_ok : ∀ i w, w_threads c !! i = Some w → writer_ok (w_bw c) (locked tr) w;
  wi_free : w_lock c = false → bw_err (w_bw c) = false →
    bw_buf (w_bw c) = [] ∧ bw_sent (w_bw c) = frames (locked tr);
  wi_sent : bw_sent (w_bw c) `prefix_of` frames (locked tr);
  wi_acked : ∀ tr1 j tr2, tr = tr1 ++ Returned j true :: tr2 →
    frames (locked tr1) `prefix_of` bw_sent (w_bw c)
}.

Lemma locked_app tr tr' : locked (tr ++ tr') = locked tr ++ locked tr'.
Proof. apply omap_app. Qed.

Lemma frames_app js js' : frames (js ++ js') = frames js ++ frames js'.
Proof. unfold frames. by rewrite map_app, concat_app. Qed.

Lemma frames_one j : frames [j] = job_bytes j.
Proof. unfold frames. simpl. by rewrite app_nil_r. Qed.

(** The step of a goroutine that stays where it is with respect to the lock. *)
Lemma wire_inv_inside tr b b' lk ths i w w' :
  wire_inv tr (mkWire b lk ths) → ths !! i = Some w → inside w → inside w' →
  writer_ok b' (locked tr) w' → bw_sent b `prefix_of` bw_sent b' →
  bw_sent b' `prefix_of` frames (locked tr) →
  wire_inv tr (mkWire b' lk (<[i := w']> ths)).
Proof.
  intros [Hheld Hone Hok Hfree Hsent Hack] Hi Hw Hw' Hok' Hp Hs. simpl in *.
  assert (lk = true) as -> by by eapply Hheld.
  assert (∀ k wk, <[i := w']> ths !! k = Some wk → inside wk → k = i) as Hk.
  { intros k wk. rewrite list_lookup_insert. case_decide; [naive_solver|]. intros. by eapply Hone. }
  split; simpl; [done| | |done|done|].
  - intros k wk k' wk' H1 H2 H3 H4. by rewrite (Hk k wk), (Hk k' wk').
  - intros k wk Hwk. destruct (decide (k = i)) as [->|Hne].
    + rewrite list_lookup_insert_eq in Hwk by by eapply lookup_lt_Some. by simplify_eq.
    + destruct wk; try done; by destruct Hne, (Hk _ _ Hwk).
  - intros. etrans; [by eapply Hack|done].
Qed.

Lemma piece_step tr b lk ths i j p todo socks b' :
  wire_inv tr (mkWire b lk ths) → ths !! i = Some (Writing j (p :: todo)) →
  bufio_write socks b p = Some b' →
  wire_inv tr (mkWire b' lk (<[i := if bw_err b' then Leaving j false else Writing j todo]> ths)).
Proof.
  intros Hinv Hi Hb. destruct (wi_ok _ _ Hinv _ _ Hi) as (js0 & d & Hjs & Hj & Hd). simpl in *.
  destruct (bw_err b) eqn:He.
  { apply (bufio_write_failed _ _ _ _ He) in Hb as ->. rewrite He.
    eapply wire_inv_inside; [done..|apply Hinv]. }
  destruct (bufio_write_pushed _ _ _ _ Hb He) as (P1 & P2 & P3).
  rewrite (app_assoc (bw_sent b)), Hd in P2, P3 by done.
  eapply wire_inv_inside; [done|done|done| | |done|].
  - by destruct (bw_err b').
  - destruct (bw_err b') eqn:He'; simpl; [done|]. exists js0, (d ++ content_of p). split_and!; [done| |].
    + by rewrite <-app_assoc.
    + intros _. by rewrite app_assoc, P3.
  - etrans; [exact P2|]. rewrite Hjs, frames_app, frames_one, Hj, <-app_assoc.
    do 2 apply prefix_app. by eexists.
Qed.

Lemma flush_step tr b lk ths i j sock b' :
  wire_inv tr (mkWire b lk ths) → ths !! i = Some (Writing j []) → bufio_Flush sock b = b' →
  wire_inv tr (mkWire b' lk (<[i := Leaving j (negb (bw_err b'))]> ths)).
Proof.
  intros Hinv Hi Hb. destruct (wi_ok _ _ Hinv _ _ Hi) as (js0 & d & Hjs & Hj & Hd). simpl in *.
  rewrite app_nil_r in Hj. subst d. destruct (bw_err b) eqn:He.
  { unfold bufio_Flush in Hb. rewrite He in Hb. subst b'. rewrite He.
    eapply wire_inv_inside; [done..|apply Hinv]. }
  rewrite <-frames_one, <-frames_app, <-Hjs in Hd. specialize (Hd eq_refl).
  pose proof (bufio_Flush_pushed sock b He) as (P1 & P2 & P3). rewrite Hb, app_nil_r, Hd in *.
  eapply wire_inv_inside; [done|done|done|done| |done|done].
  destruct (bw_err b') eqn:He'; simpl; [done|]. subst b'.
  pose proof (bufio_Flush_empties _ _ He') as E. split_and!; [done|done|].
  specialize (P3 eq_refl). by rewrite E, app_nil_r in P3.
Qed.

Lemma snoc_split {A} (l : list A) x l1 y l2 :
  l ++ [x] = l1 ++ y :: l2 → (x = y ∧ l1 = l) ∨ ∃ l2', l = l1 ++ y :: l2'.
Proof.
  destruct l2 as [|z l2 _] using rev_ind; intros E.
  - apply app_inj_tail in E as [-> ->]. by left.
  - right. rewrite app_comm_cons, app_assoc in E. apply app_inj_tail in E as [-> _]. by exists l2.
Qed.

Lemma lock_step tr b ths i j :
  wire_inv tr (mkWire b false ths) → ths !! i = Some (Locking j) →
  wire_inv (tr ++ [Locked j]) (mkWire b true (<[i := Writing j (job_pieces j).1]> ths)).
Proof.
  intros [Hheld Hone Hok Hfree Hsent Hack] Hi. simpl in *.
  assert (∀ k wk, ths !! k = Some wk → ¬ inside wk) as Hnone by (intros k wk Hk Hin; by specialize (Hheld k wk Hk Hin)).
  assert (∀ k wk, <[i := Writing j (job_pieces j).1]> ths !! k = Some wk → inside wk → k = i) as Hk.
  { intros k wk. rewrite list_lookup_insert. case_decide; [naive_solver|]. intros Hwk Hin. by destruct (Hnone k wk). }
  split; simpl; [done| | |done| |].
  - intros k wk k' wk' H1 H2 H3 H4. by rewrite (Hk k wk), (Hk k' wk').
  - intros k wk Hwk. rewrite locked_app. simpl. destruct (decide (k = i)) as [->|Hne].
    + rewrite list_lookup_insert_eq in Hwk by by eapply lookup_lt_Some. simplify_eq. simpl.
      exists (locked tr), []. split_and!; [done..|]. intros He. destruct (Hfree eq_refl He) as [-> ->].
      by rewrite !app_nil_r.
    + destruct wk; try done; by destruct Hne, (Hk _ _ Hwk).
  - rewrite locked_app, frames_app. etrans; [exact Hsent|by eexists].
  - intros tr1 j1 tr2 [[? _]|[tr2' ->]]%snoc_split; [done|]. by eapply Hack.
Qed.

Lemma unlock_step tr b lk ths i j ok :
  wire_inv tr (mkWire b lk ths) → ths !! i = Some (Leaving j ok) →
  wire_inv (tr ++ [Returned j ok]) (mkWire b false (<[i := Outside]> ths)).
Proof.
  intros [Hheld Hone Hok Hfree Hsent Hack] Hi. simpl in *.
  assert (∀ k wk, <[i := Outside]> ths !! k = Some wk → ¬ inside wk) as Hnone.
  { intros k wk. rewrite list_lookup_insert. case_decide as Hd; [naive_solver|].
    intros Hwk Hin. apply Hd. split; [|by eapply lookup_lt_Some]. symmetry. by eapply (Hone i). }
  assert (locked (tr ++ [Returned j ok]) = locked tr) as El by (rewrite locked_app; apply app_nil_r).
  pose proof (Hok _ _ Hi) as Hw. split; simpl; rewrite ?El.
  - intros k wk Hwk Hin. by destruct (Hnone k wk).
  - intros k wk k' wk' Hwk Hin. by destruct (Hnone k wk).
  - intros k wk Hwk. pose proof (Hnone k wk Hwk). by destruct wk.
  - intros _ He. destruct ok; simpl in Hw; [|congruence]. by destruct Hw as (_ & ? & ?).
  - done.
  - intros tr1 j1 tr2 [[[= -> ->] ->]|[tr2' ->]]%snoc_split; [|by eapply Hack].
    destruct Hw as (_ & _ & ->). done.
Qed.

Lemma call_step tr b lk ths i j :
  wire_inv tr (mkWire b lk ths) → ths !! i = Some Outside →
  wire_inv tr (mkWire b lk (<[i := Locking j]> ths)).
Proof.
  intros [Hheld Hone Hok Hfree Hsent Hack] Hi. simpl in *.
  assert (∀ k wk, <[i := Locking j]> ths !! k = Some wk → wk = Locking j ∨ ths !! k = Some wk) as Hk.
  { intros k wk. rewrite list_lookup_insert. case_decide; naive_solver. }
  split; simpl; [| | |done|done|done].
  - intros k wk [->|Hwk]%Hk Hin; [done|by eapply Hheld].
  - intros k wk k' wk' [->|Hwk]%Hk Hin [->|Hwk']%Hk Hin'; try done. by eapply Hone.
  - intros k wk [->|Hwk]%Hk; [done|by eapply Hok].
Qed.

Lemma wire_init_inv n : wire_inv [] (wire_init n).
Proof.
  assert (∀ i w, replicate n Outside !! i = Some w → w = Outside) as Hr by (intros i w Hw; by apply lookup_replicate in Hw as [-> _]).
  split; simpl; [by intros i w ->%Hr|by intros i w ? ? ->%Hr|by intros i w ->%Hr|done|done|].
  intros [|? ?]; done.
Qed.

Lemma wire_reachable n tr c :
  runs wstep (wire_init n) tr c → Forall sound (locked tr) → wire_inv tr c.
Proof.
  apply (runs_trace_invariant wstep (λ tr c, Forall sound (locked tr) → wire_inv tr c)).
  2:{ intros _. apply wire_init_inv. }
  clear. intros tr c l c' IH Hst. rewrite locked_app. intros [Hs _]%Forall_app. specialize (IH Hs).
  destruct Hst as [b lk ths i j Hi|b ths i j Hi|b lk ths i j p todo socks b' Hi Hb|b lk ths i j err Hi He
    |b lk ths i j sock b' Hi He Hb|b lk ths i j ok Hi]; cbn [option_list]; rewrite ?app_nil_r.
  - by apply call_step.
  - by apply lock_step.
  - by eapply piece_step.
  - destruct (wi_ok _ _ IH _ _ Hi) as (js0 & d & Hjs & _). rewrite Hjs, Forall_app, Forall_singleton in Hs.
    destruct Hs as [_ Hs]. unfold sound in Hs. congruence.
  - by eapply flush_step.
  - by eapply unlock_step.
Qed.

(** * Frames on the wire *)

(** The job sends the value. *)
Definition carries (j : job) (v : Value) : Prop :=
  wire_ok v ∧ match j with Write v' => v' = v | WriteRaw frame => frame = encode v end.

Lemma carries_bytes j v : carries j v → sound j ∧ job_bytes j = encode v.
Proof.
  intros [Hv Hj]. unfold sound, job_bytes. destruct j as [v'|frame]; subst; simpl.
  - destruct (Encode_pieces_spec v) as [E1 E2]. split; [|done]. rewrite E2. by apply wire_ok_Encode.
  - by rewrite app_nil_r.
Qed.

Lemma carries_frames js vs : Forall2 carries js vs → Forall sound js ∧ frames js = encode_all vs ∧ Forall wire_ok vs.
Proof.
  induction 1 as [|j v js vs Hj _ (IH1 & IH2 & IH3)]; [done|].
  destruct (carries_bytes _ _ Hj) as [Hs Hb]. split_and!; [by constructor| |by constructor; [apply Hj|]].
  change (job_bytes j ++ frames js = encode v ++ encode_all vs). by rewrite Hb, IH2.
Qed.

(** C20: a connection's socket carries whole frames.  However the request
    loop and any number of delivery goroutines interleave, write by write,
    through the connection's buffer, and wherever the socket fails: the
    bytes that left are the frames in the order their writers took the lock,
    the first [k] of them complete and in one piece each, then at most part
    of one more; and a [write] or [writeRaw] that reported success, with all
    frames before it, is among those [k]. *)
Theorem frames_leave_whole n tr c vs :
  runs wstep (wire_init n) tr c → Forall2 carries (locked tr) vs →
  ∃ k tail, bw_sent (w_bw c) = encode_all (take k vs) ++ tail ∧ torn tail ∧
    ∀ tr1 j tr2, tr = tr1 ++ Returned j true :: tr2 → take (length (locked tr1)) vs `prefix_of` take k vs.
Proof.
  intros Hr Hc. destruct (carries_frames _ _ Hc) as (Hs & Hf & Hw).
  pose proof (wire_reachable _ _ _ Hr Hs) as Hinv. pose proof (wi_sent _ _ Hinv) as Hp. rewrite Hf in Hp.
  destruct (prefix_of_log vs [] (bw_sent (w_bw c)) Hw ltac:(by left) ltac:(by rewrite app_nil_r))
    as (k & tail & E & Ht & Hk).
  exists k, tail. split_and!; [done..|]. intros tr1 j tr2 ->. apply Hk.
  assert (Forall2 carries (locked tr1) (take (length (locked tr1)) vs)) as Hc1.
  { apply (Forall2_take _ _ _ (length (locked tr1))) in Hc. by rewrite locked_app, take_app_length in Hc. }
  destruct (carries_frames _ _ Hc1) as (_ & <- & _). apply prefix_length. by eapply (wi_acked _ _ Hinv).
Qed.

(** A reply, and a pushed frame that the socket cuts after two bytes. *)
Lemma frames_leave_whole_witness :
  let ok := SimpleStringV (B "OK") in
  let nil := BulkV None in
  ∃ c k tail,
    runs wstep (wire_init 2)
      [Locked (Write ok); Returned (Write ok) true; Locked (WriteRaw (encode nil))] c ∧
    bw_sent (w_bw c) = encode ok ++ B "$-" ∧
    bw_sent (w_bw c) = encode_all (take k [ok; nil]) ++ tail ∧ torn tail ∧
    take 1 [ok; nil] `prefix_of` take k [ok; nil].
Proof.
  intros ok nil.
  set (c := mkWire (mkBufWriter (encode ok ++ B "$-") (B "1" ++ CRLF) true) true
              [Outside; Leaving (WriteRaw (encode nil)) false]).
  assert (runs wstep (wire_init 2)
    [Locked (Write ok); Returned (Write ok) true; Locked (WriteRaw (encode nil))] c) as Hr.
  { eapply runs_silent; [eapply (W_call _ _ _ 0 (Write ok)); reflexivity|].
    eapply runs_silent; [eapply (W_call _ _ _ 1 (WriteRaw (encode nil))); reflexivity|].
    eapply runs_visible; [eapply (W_lock _ _ 0); reflexivity|].
    eapply runs_silent; [eapply (W_piece _ _ _ 0 _ _ _ (λ _, None) (mkBufWriter [] (encode ok) false)); reflexivity|].
    eapply runs_silent; [eapply (W_flush _ _ _ 0 _ None (mkBufWriter (encode ok) [] false)); reflexivity|].
    eapply runs_visible; [eapply (W_unlock _ _ _ 0); reflexivity|].
    eapply runs_visible; [eapply (W_lock _ _ 1); reflexivity|].
    eapply runs_silent; [eapply (W_piece _ _ _ 1 _ _ _ (λ _, None) (mkBufWriter (encode ok) (encode nil) false)); reflexivity|].
    eapply runs_silent; [eapply (W_flush _ _ _ 1 _ (Some 2%nat) (w_bw c)); reflexivity|apply runs_nil]. }
  destruct (frames_leave_whole 2 _ c [ok; nil] Hr) as (k & tail & E & Ht & Hk).
  { constructor; [split; [by apply wire_okb_sound|done]|].
    constructor; [split; [by apply wire_okb_sound|done]|constructor]. }
  exists c, k, tail. split_and!; [done|done|done|done|].
  apply (Hk [Locked (Write ok)] (Write ok) [Locked (WriteRaw (encode nil))] eq_refl).
Defined.
