(* ===== verification/ServerFacts.v ===== *)
(** Safety of the server over any number of connections: the invariants of
    the store, the message bus and the replica registry, kept by every
    request, delivery, disconnect and background step; and a whole
    connection, from its first byte to its teardown.

    A request and a teardown are one step here; [Locks] takes them apart at
    the locks of the bus and of the registry. *)

From S2P Require Import Prelude GoLib Protocol ProtocolFacts PubSub Store Db Spec Refine Expiry Cmd.
From S2P Require Import CmdFacts Replay Aof AofFacts Snapshot Compaction Replication Server.

(** * Invariants *)

(** The everysec goroutine of an open log is running, so [Close] can stop
    it. *)
Definition log_ok (s : Server) : Prop :=
  ∀ a, s_aof s = Some a → a_mode a = FsyncEverySec → a_ticking a = true.

Record srv_ok (s : Server) : Prop := {
  sv_db : db_ok (s_db s);
  sv_reps : reps_ok (s_replicas s);
  sv_log : log_ok s
}.

Definition mailbox_open (b : Broker) (p : nat) : Prop :=
  ∃ mb, mailboxes b !! p = Some mb ∧ mclosed mb = false.

Definition feed_open (r : Replicas) (p : nat) : Prop :=
  ∃ rep, rheap r !! p = Some rep ∧ r_closed rep = false.

(** A connection's own view of its subscriptions is the broker's, its
    mailbox is open, and so is its replica feed. *)
Record conn_ok (s : Server) (cs : connState) : Prop := {
  co_none : cs_sub cs = None → cs_channels cs = ∅;
  co_open : ∀ p, cs_sub cs = Some p → mailbox_open (pubsub (s_db s)) p;
  co_subs : ∀ p, cs_sub cs = Some p →
    ∀ ch, p ∈ channel_subs (pubsub (s_db s)) ch ↔ ch ∈ cs_channels cs;
  co_feed : ∀ p, cs_replica cs = Some p → feed_open (s_replicas s) p
}.

(** Two connections share neither a mailbox nor a feed. *)
Definition apart (cs1 cs2 : connState) : Prop :=
  (∀ p, cs_sub cs1 = Some p → cs_sub cs2 ≠ Some p) ∧
  (∀ p, cs_replica cs1 = Some p → cs_replica cs2 ≠ Some p).

(** What serving a connection owes the rest of the system. *)
Definition serve_post (s : Server) (cs : connState) (s' : Server) (cs' : connState) : Prop :=
  srv_ok s' ∧ conn_ok s' cs' ∧
  ∀ cs2, conn_ok s cs2 → apart cs2 cs → conn_ok s' cs2 ∧ apart cs2 cs'.

Lemma serve_post_refl s cs : srv_ok s → conn_ok s cs → serve_post s cs s cs.
Proof. intros. by split_and!. Qed.

Lemma serve_post_trans s cs s1 cs1 s2 cs2 :
  serve_post s cs s1 cs1 → serve_post s1 cs1 s2 cs2 → serve_post s cs s2 cs2.
Proof.
  intros (H1 & H2 & H3) (H4 & H5 & H6). split_and!; [done..|].
  intros cs3 Hc Ha. destruct (H3 cs3 Hc Ha) as [Hc' Ha']. by apply H6.
Qed.

Lemma apart_sym cs1 cs2 : apart cs1 cs2 → apart cs2 cs1.
Proof. intros [H1 H2]. split; intros p ? ?; [by eapply H1|by eapply H2]. Qed.

(** * Changes that no connection notices *)

Definition broker_keeps (b b' : Broker) : Prop :=
  subs b' = subs b ∧ ∀ p, mailbox_open b' p ↔ mailbox_open b p.

Definition feeds_keep (r r' : Replicas) : Prop := ∀ p, feed_open r p → feed_open r' p.

Lemma conn_ok_keeps s s' cs :
  broker_keeps (pubsub (s_db s)) (pubsub (s_db s')) → feeds_keep (s_replicas s) (s_replicas s') →
  conn_ok s cs → conn_ok s' cs.
Proof.
  intros [Hs Hm] Hf [H1 H2 H3 H4]. split; [done|by intros p Hp; apply Hm, H2| |auto].
  intros p Hp ch. rewrite <-(H3 p Hp). unfold channel_subs. by rewrite Hs.
Qed.

Lemma serve_post_keeps s s' cs :
  srv_ok s' → conn_ok s cs →
  broker_keeps (pubsub (s_db s)) (pubsub (s_db s')) → feeds_keep (s_replicas s) (s_replicas s') →
  serve_post s cs s' cs.
Proof. intros Hs Hc Hb Hf. split_and!; [done|by eapply conn_ok_keeps|]. intros. split; [by eapply conn_ok_keeps|done]. Qed.

Lemma broker_keeps_refl b : broker_keeps b b.
Proof. by split. Qed.

Lemma feeds_keep_refl r : feeds_keep r r.
Proof. by intros p. Qed.

Lemma Publish_keeps b ch payload b' n :
  broker_ok b → Publish b ch payload = Some (b', n) → broker_keeps b b'.
Proof.
  intros Hok E. destruct (Publish_spec b ch payload Hok) as (mbs & E' & Hm & _).
  rewrite E' in E. simplify_eq. split; [done|]. intros p. unfold mailbox_open. simpl. rewrite Hm.
  case_decide; [|done]. destruct (mailboxes b !! p) as [mb|]; simpl; [|done]. split.
  - intros (mb' & [= <-] & Hc). exists mb. by rewrite enqueue_closed in Hc.
  - intros (mb' & [= <-] & Hc). eexists. split; [done|]. by rewrite enqueue_closed.
Qed.

(** ** The command handlers touch the bus only through [Publish] *)

Definition bus_kept (f : CmdFunc) : Prop :=
  ∀ clk o db args, db_ok db → broker_keeps (pubsub db) (pubsub (f clk o db args).1).

Definition bus_untouched (f : CmdFunc) : Prop := ∀ clk o db args, pubsub (f clk o db args).1 = pubsub db.

Lemma del_loop_pubsub db ks clk i n : pubsub (del_loop db ks clk i n).1 = pubsub db.
Proof.
  revert db i n. induction ks as [|k ks IH]; intros db i n; [done|]. cbn [del_loop].
  assert (pubsub (del_step db k (clk i)).1 = pubsub db) as Hs
    by (unfold del_step; by repeat case_match).
  destruct (del_step db k (clk i)) as [db1 d]. by rewrite IH.
Qed.

Ltac bus_same :=
  intros clk o db args;
  unfold cmd_Expire, cmd_PExpire, cmd_TTL, cmd_PTTL, expire_in, ttl_in;
  try match goal with |- pubsub (?f clk o db args).1 = _ => unfold f end;
  unfold DB_Get, get_read, expireIfNeeded, DB_LPush, DB_RPush, push, DB_LPop, DB_RPop, pop, DB_HSet, DB_HDel,
    DB_SAdd, DB_SRem, DB_Expire, DB_Persist, DB_Set, putEntry, usage;
  repeat (case_match; simplify_eq/=; try done).

Lemma commands_untouched :
  Forall (λ c : bytes * CmdFunc, c = (B "PUBLISH", cmd_Publish) ∨ bus_untouched c.2) commands.
Proof.
  unfold commands. repeat (apply Forall_cons; split; [cbn [snd]|]); [..|by apply Forall_nil].
  all: try (right; bus_same; fail).
  - right. intros clk o db args. unfold cmd_Del. destruct args as [|a args]; [done|].
    unfold DB_Del. pose proof (del_loop_pubsub db (map arg (a :: args)) clk 0 0) as Hp.
    by destruct (del_loop _ _ _ _ _).
  - by left.
Qed.

Lemma commands_bus : Forall (λ c : bytes * CmdFunc, bus_kept c.2) commands.
Proof.
  eapply Forall_impl; [apply commands_untouched|]. intros [n f] [E|Hf] clk o db args Hok; cbn [snd] in *.
  - injection E as -> ->. unfold cmd_Publish.
    repeat (case_match; simplify_eq/=; try apply broker_keeps_refl).
    eapply Publish_keeps; [apply Hok|done].
  - rewrite Hf. apply broker_keeps_refl.
Qed.

Lemma Dispatch_bus `{GoUnicode} clk (o : map_order) db req :
  db_ok db → broker_keeps (pubsub db) (pubsub (Dispatch clk o db req).1).
Proof.
  intros Hok. unfold Dispatch.
  destruct (vArray req) as [[|first args]|]; try apply broker_keeps_refl.
  destruct (negb _); [apply broker_keeps_refl|].
  destruct (assoc _ commands) as [f|] eqn:E; [|apply broker_keeps_refl].
  apply assoc_elem in E. pose proof commands_bus as Hc. rewrite Forall_forall in Hc.
  by apply (Hc _ E).
Qed.

(** * The write path *)

Lemma Propagate_keeps (o : map_order) r cmd :
  reps_ok r → ∃ r', Propagate o r cmd = Some r' ∧ reps_ok r' ∧ feeds_keep r r'.
Proof.
  intros Hok. destruct (Encode cmd).2 as [err|] eqn:Henc.
  - exists r. unfold Propagate. destruct (Encode cmd) as [out e]. simpl in Henc. subst e.
    split_and!; [done|done|apply feeds_keep_refl].
  - destruct (Propagate_spec o r cmd Hok Henc) as (h & -> & Hok' & Hh). eexists. split_and!; [done..|].
    intros p (rep & E & Hc). unfold feed_open. simpl.
    destruct (Hh p) as [H1 H2]. destruct (decide (registered r p)) as [Hp|Hp].
    + rewrite H1, E by done. simpl. eexists. split; [done|].
      destruct (enqueue_frame_keeps (encode cmd) rep) as (_ & K & _). congruence.
    + rewrite H2 by done. eauto.
Qed.

Lemma append_log_frame e s request :
  s_db (append_log e s request) = s_db s ∧ s_replicas (append_log e s request) = s_replicas s ∧
  s_primaryAddr (append_log e s request) = s_primaryAddr s.
Proof. unfold append_log. by repeat case_match. Qed.

Lemma append_log_ok e s request : log_ok s → log_ok (append_log e s request).
Proof.
  intros Hl. unfold append_log. destruct (s_aof s) as [a|] eqn:Ea; [|done].
  destruct (Append _ _ _ _ _) as [[w a'] ok] eqn:E. intros a1. cbn [with_log s_aof]. intros [= <-].
  rewrite (Append_mode _ _ _ _ _ _ _ _ E), (Append_ticking _ _ _ _ _ _ _ _ E). by apply Hl.
Qed.

Section with_unicode.
Context `{GoUnicode}.

Lemma applyRecord_ok e s request name :
  srv_ok s →
  ∃ s' reply, applyRecord e s request name = Some (s', reply) ∧ srv_ok s' ∧ encodes reply ∧
    broker_keeps (pubsub (s_db s)) (pubsub (s_db s')) ∧
    feeds_keep (s_replicas s) (s_replicas s') ∧
    s_db s' = (Dispatch (e_clk e) (e_ord e) (s_db s) request).1 ∧
    (Dispatch (e_clk e) (e_ord e) (s_db s) request).2 = Some reply ∧
    s_primaryAddr s' = s_primaryAddr s.
Proof.
  intros [Hdb Hr Hlog]. unfold applyRecord.
  pose proof (Dispatch_sound (e_clk e) (e_ord e) (s_db s) request Hdb) as (Hdb' & v & Hv & Henc & _).
  pose proof (Dispatch_bus (e_clk e) (e_ord e) (s_db s) request Hdb) as Hb.
  destruct (Dispatch _ _ _ _) as [db' reply]. simpl in *. subst reply.
  assert (srv_ok (with_db s db')) as Hs' by by split.
  pose proof (feeds_keep_refl (s_replicas s)).
  destruct (_ || _); [exists (with_db s db'), v; by split_and!|].
  destruct (byte_eqb _ _); [exists (with_db s db'), v; by split_and!|].
  destruct (append_log_frame e (with_db s db') request) as (A1 & A2 & A3).
  destruct (Propagate_keeps (e_feeds e) (s_replicas (append_log e (with_db s db') request)) request)
    as (r' & -> & Hr' & Hf); [by rewrite A2|].
  eexists _, v. split; [done|]. cbn [with_replicas s_db s_replicas s_primaryAddr].
  rewrite A2 in Hf. rewrite A1, A3. cbn [with_db s_db s_primaryAddr].
  split_and!; try done. split; simpl; [by rewrite A1|done|by apply (append_log_ok e (with_db s db'))].
Qed.

(** * Connections *)

(** Broker changes made on behalf of one subscriber [p]. *)
Lemma conn_ok_other s b' cs p :
  conn_ok s cs → cs_sub cs ≠ Some p →
  (∀ q, q ≠ p → mailbox_open (pubsub (s_db s)) q → mailbox_open b' q) →
  (∀ q ch, q ≠ p → q ∈ channel_subs b' ch ↔ q ∈ channel_subs (pubsub (s_db s)) ch) →
  conn_ok (with_pubsub s b') cs.
Proof.
  intros [H1 H2 H3 H4] Hne Hm Hc. split; [done| | |done].
  - intros q Hq. apply Hm; [congruence|by apply H2].
  - intros q Hq ch. cbn [with_pubsub with_db s_db pubsub]. rewrite Hc by congruence. by apply H3.
Qed.

Lemma srv_ok_pubsub s b : srv_ok s → broker_ok b → srv_ok (with_pubsub s b).
Proof. intros [[] ?] Hb. by split. Qed.

Lemma post_new_sub s cs sub b :
  srv_ok s → conn_ok s cs → cs_sub cs = None → NewSubscriber (pubsub (s_db s)) = (sub, b) →
  serve_post s cs (with_pubsub s b) (mkConn (Some sub) ∅ (cs_replica cs) (cs_remote cs)).
Proof.
  intros Hs Hc Hn E. pose proof Hs as [Hdb _].
  destruct (NewSubscriber_ok _ _ _ (ok_pubsub _ Hdb) E) as (Hb & Hfresh & Hmb & Hsubs).
  assert (∀ q, mailbox_open (pubsub (s_db s)) q → q ≠ sub) as Hne
    by (intros q (mb & Hq & _) ->; congruence).
  assert (∀ q, q ≠ sub → mailbox_open (pubsub (s_db s)) q → mailbox_open b q) as Hm
    by (intros q Hq (mb & ? & ?); exists mb; by rewrite Hmb, lookup_insert_ne).
  assert (∀ ch, channel_subs b ch = channel_subs (pubsub (s_db s)) ch) as Hch
    by (intros ch; unfold channel_subs; by rewrite Hsubs).
  split_and!; [by apply srv_ok_pubsub| |].
  - split; simpl; [done| | |apply Hc].
    + intros p [= <-]. exists (mkMailbox [] false). by rewrite Hmb, lookup_insert_eq.
    + intros p [= <-] ch. rewrite Hch. split; [|set_solver]. intros Hin.
      destruct (ok_open _ (ok_pubsub _ Hdb) _ _ Hin) as (mb & ? & _). congruence.
  - intros cs2 Hc2 [Ha1 Ha2]. assert (cs_sub cs2 ≠ Some sub) as Hcs2.
    { intros Hp. by apply (Hne sub); [apply (co_open _ _ Hc2)|]. }
    split; [eapply conn_ok_other; eauto; by setoid_rewrite Hch|]. split; [|done].
    intros p Hp [= <-]. done.
Qed.

Lemma post_subscribe s cs sub ch :
  srv_ok s → conn_ok s cs → cs_sub cs = Some sub → ch ∉ cs_channels cs →
  serve_post s cs (with_pubsub s (Subscribe (pubsub (s_db s)) ch sub))
    (mkConn (cs_sub cs) ({[ch]} ∪ cs_channels cs) (cs_replica cs) (cs_remote cs)).
Proof.
  intros Hs Hc Hsub Hnin. pose proof Hs as [Hdb _]. pose proof Hc as [H1 H2 H3 H4].
  destruct (H2 _ Hsub) as (mb & Hmb & Hcl).
  assert (sub ∉ channel_subs (pubsub (s_db s)) ch) as Hni by (by rewrite (H3 _ Hsub)).
  assert (∀ c, channel_subs (Subscribe (pubsub (s_db s)) ch sub) c
    = if decide (ch = c) then channel_subs (pubsub (s_db s)) ch ++ [sub]
      else channel_subs (pubsub (s_db s)) c) as Hch by (intros c; apply channel_subs_insert).
  split_and!.
  - apply srv_ok_pubsub; [done|]. eapply Subscribe_ok; eauto. apply Hdb.
  - split; simpl; [congruence| | |done].
    + intros p Hp. apply (H2 _ Hp).
    + intros p Hp c. rewrite Hch. assert (p = sub) as -> by congruence.
      case_decide; [set_solver|]. rewrite (H3 _ Hsub). set_solver.
  - intros cs2 Hc2 [Ha1 Ha2]. split; [|done]. apply (conn_ok_other s _ cs2 sub);
      [done|intros Hp; by eapply Ha1|done|].
    intros q c Hq. rewrite Hch. case_decide; [subst; set_solver|done].
Qed.

Lemma post_unsubscribe s cs sub ch :
  srv_ok s → conn_ok s cs → cs_sub cs = Some sub →
  serve_post s cs (with_pubsub s (Unsubscribe (pubsub (s_db s)) ch sub))
    (mkConn (cs_sub cs) (cs_channels cs ∖ {[ch]}) (cs_replica cs) (cs_remote cs)).
Proof.
  intros Hs Hc Hsub. pose proof Hs as [Hdb _]. pose proof Hc as [H1 H2 H3 H4].
  assert (∀ q c, q ∈ channel_subs (Unsubscribe (pubsub (s_db s)) ch sub) c ↔
    q ∈ channel_subs (pubsub (s_db s)) c ∧ ¬ (q = sub ∧ ch = c)) as Hch.
  { intros q c. rewrite channel_subs_Unsubscribe. case_decide as E; [|naive_solver]. subst c.
    rewrite elem_of_swap_remove by apply (ok_nodup _ (ok_pubsub _ Hdb)). naive_solver. }
  split_and!.
  - apply srv_ok_pubsub; [done|]. apply Unsubscribe_ok, Hdb.
  - split; simpl; [congruence| | |done].
    + intros p Hp. apply (H2 _ Hp).
    + intros p Hp c. rewrite Hch. assert (p = sub) as -> by congruence. rewrite (H3 _ Hsub). set_solver.
  - intros cs2 Hc2 [Ha1 Ha2]. split; [|done]. apply (conn_ok_other s _ cs2 sub);
      [done|intros Hp; by eapply Ha1|done|].
    intros q c Hq. rewrite Hch. naive_solver.
Qed.

Lemma encodes_subscribeReply kind ch n : encodes (subscribeReply kind ch n).
Proof. by apply encodes_array; repeat constructor. Qed.

Lemma encodes_subscribeReplyNull kind n : encodes (subscribeReplyNull kind n).
Proof. by apply encodes_array; repeat constructor. Qed.

(** The outcome of a request: the frames are ones the encoder accepts and
    the rest of the system is intact. *)
Definition serve_good (s : Server) (cs : connState)
    (r : Server * connState * list Value * bool) : Prop :=
  let '(s', cs', out, _) := r in serve_post s cs s' cs' ∧ Forall encodes out.

Lemma good_reply wok s cs v :
  srv_ok s → conn_ok s cs → encodes v → serve_good s cs (reply_one wok s cs v).
Proof. intros. split; [by apply serve_post_refl|by repeat constructor]. Qed.

Lemma serve_good_trans s cs s1 cs1 r :
  serve_post s cs s1 cs1 → serve_good s1 cs1 r → serve_good s cs r.
Proof. destruct r as [[[s2 cs2] out] k]. intros H1 [H2 H3]. split; [by eapply serve_post_trans|done]. Qed.

Lemma subscribe_loop_good wok i s cs sub channels out :
  srv_ok s → conn_ok s cs → cs_sub cs = Some sub → Forall encodes out →
  serve_good s cs (subscribe_loop wok i s cs sub channels out).
Proof.
  revert i s cs out. induction channels as [|c channels IH]; intros i s cs out Hs Hc Hsub Ho;
    cbn [subscribe_loop].
  { split; [by apply serve_post_refl|done]. }
  set (ch := content (vBulk c)).
  assert (∃ s1 cs1,
    (if bool_decide (ch ∈ cs_channels cs) then (s, cs)
     else (with_pubsub s (Subscribe (pubsub (s_db s)) ch sub),
           mkConn (cs_sub cs) ({[ch]} ∪ cs_channels cs) (cs_replica cs) (cs_remote cs))) = (s1, cs1) ∧
    serve_post s cs s1 cs1 ∧ cs_sub cs1 = Some sub) as (s1 & cs1 & -> & Hp & Hsub1).
  { case_bool_decide as Hin; eexists _, _; (split; [done|]).
    - split; [by apply serve_post_refl|done].
    - split; [by apply post_subscribe|done]. }
  pose proof Hp as (Hs1 & Hc1 & _).
  assert (Forall encodes (out ++ [subscribeReply (B "subscribe") ch (Z.of_nat (size (cs_channels cs1)))]))
    as Ho1 by (apply Forall_app; split; [done|repeat constructor; apply encodes_subscribeReply]).
  destruct (write_ok _ _).
  - eapply serve_good_trans; [exact Hp|]. by apply IH.
  - by split.
Qed.

Lemma subscribe_good wok s cs channels :
  srv_ok s → conn_ok s cs → serve_good s cs (subscribe wok s cs channels).
Proof.
  intros Hs Hc. unfold subscribe. destruct channels as [|c channels]; [by apply good_reply|].
  destruct (cs_sub cs) as [sub|] eqn:E; [by apply subscribe_loop_good|].
  destruct (NewSubscriber (pubsub (s_db s))) as [sub b] eqn:En.
  pose proof (post_new_sub s cs sub b Hs Hc E En) as Hp. pose proof Hp as (Hs1 & Hc1 & _).
  eapply serve_good_trans; [exact Hp|]. by apply subscribe_loop_good.
Qed.

Lemma unsubscribe_loop_good wok i s cs targets out :
  srv_ok s → conn_ok s cs → Forall encodes out →
  ∃ r, unsubscribe_loop wok i s cs targets out = Some r ∧ serve_good s cs r.
Proof.
  revert i s cs out. induction targets as [|ch targets IH]; intros i s cs out Hs Hc Ho;
    cbn [unsubscribe_loop].
  { eexists. split; [done|]. split; [by apply serve_post_refl|done]. }
  assert (∀ s1 cs1, serve_post s cs s1 cs1 → ∃ r,
    (let v := subscribeReply (B "unsubscribe") ch (Z.of_nat (size (cs_channels cs1))) in
     if write_ok (wok i) v then unsubscribe_loop wok (S i) s1 cs1 targets (out ++ [v])
     else Some (s1, cs1, out ++ [v], false)) = Some r ∧ serve_good s cs r) as Hnext.
  { intros s1 cs1 Hp. pose proof Hp as (Hs1 & Hc1 & _). cbn zeta.
    assert (Forall encodes
      (out ++ [subscribeReply (B "unsubscribe") ch (Z.of_nat (size (cs_channels cs1)))])) as Ho1
      by (apply Forall_app; split; [done|repeat constructor; apply encodes_subscribeReply]).
    destruct (write_ok _ _); [|eexists; by split].
    destruct (IH (S i) s1 cs1 _ Hs1 Hc1 Ho1) as (r & Hr & Hg). exists r.
    split; [done|by eapply serve_good_trans]. }
  case_bool_decide as Hin.
  - destruct (cs_sub cs) as [sub|] eqn:E.
    + rewrite <-E. apply Hnext. by apply post_unsubscribe.
    + rewrite (co_none _ _ Hc E) in Hin. set_solver.
  - apply Hnext. by apply serve_post_refl.
Qed.

Lemma unsubscribe_good (o : map_order) wok s cs channels :
  srv_ok s → conn_ok s cs →
  ∃ r, unsubscribe o wok s cs channels = Some r ∧ serve_good s cs r.
Proof.
  intros Hs Hc. unfold unsubscribe. cbn zeta. destruct (match channels with [] => _ | _ => _ end).
  - eexists. split; [done|]. apply good_reply; [done..|apply encodes_subscribeReplyNull].
  - by apply unsubscribe_loop_good.
Qed.

Lemma conn_ok_replicas s r cs :
  conn_ok s cs → (∀ p, cs_replica cs = Some p → feed_open r p) → conn_ok (with_replicas s r) cs.
Proof. intros [H1 H2 H3 H4] Hf. by split. Qed.

Lemma Add_keeps r addr now r' p :
  Add r addr now = (r', p) → rheap r !! p = None →
  ∀ q, feed_open r q → q ≠ p ∧ feed_open r' q.
Proof.
  intros E Hfresh q (rep & Hq & Hcl). assert (q ≠ p) as Hne by congruence. split; [done|]. exists rep.
  unfold Add in E. injection E as <- <-. simpl. by rewrite lookup_insert_ne.
Qed.

Lemma replicaof_acked wok now s cs :
  wok 0%nat = true →
  replicaof wok now s cs
  = let '(r, p) := Add (s_replicas s) (cs_remote cs) now in
    (with_replicas s r, mkConn (cs_sub cs) (cs_channels cs) (Some p) (cs_remote cs), [okVal], true).
Proof. intros Hw. unfold replicaof, write_ok. simpl. by rewrite Hw. Qed.

Lemma replicaof_good wok now s cs :
  srv_ok s → conn_ok s cs → serve_good s cs (replicaof wok now s cs).
Proof.
  intros Hs Hc. unfold replicaof. destruct (negb _).
  { split; [by apply serve_post_refl|by repeat constructor]. }
  destruct Hs as [Hdb Hr Hlog]. pose proof (Add_ok (s_replicas s) (cs_remote cs) now Hr) as Ha.
  destruct (Add _ _ _) as [r p] eqn:E. destruct Ha as (Hr' & Hfresh & _ & Hp).
  pose proof (Add_keeps _ _ _ _ _ E Hfresh) as Hkeep.
  split; [|by repeat constructor]. split_and!; [by split| |].
  - split; simpl; [apply Hc|apply Hc|apply Hc|].
    intros q [= <-]. by eexists.
  - intros cs2 Hc2 [Ha1 Ha2]. split.
    + apply conn_ok_replicas; [done|]. intros q Hq. by apply Hkeep, (co_feed _ _ Hc2).
    + split; [done|]. intros q Hq [= <-]. by apply (co_feed _ _ Hc2) in Hq as [? _]%Hkeep.
Qed.

Lemma Acked_ok r p now : reps_ok r → reps_ok (Acked r p now) ∧ feeds_keep r (Acked r p now).
Proof.
  intros [Hl Hc]. unfold Acked. destruct (rheap r !! p) as [rep|] eqn:E; [|split; [by split|apply feeds_keep_refl]].
  split; [split; simpl|].
  - intros id q Hq. destruct (Hl _ _ Hq) as (rep' & E' & ? & ?). rewrite lookup_insert.
    case_decide; [|eauto]. subst q. rewrite E in E'. simplify_eq. eauto.
  - intros q rep'. rewrite lookup_insert. case_decide; [|apply Hc]. intros [= <-]. simpl. by eapply Hc.
  - intros q (rep' & E' & Hcl). unfold feed_open. simpl. rewrite lookup_insert.
    case_decide; [|eauto]. subst q. rewrite E in E'. simplify_eq. eauto.
Qed.

Lemma serve_ok e wok s cs request :
  srv_ok s → conn_ok s cs →
  ∃ r, serve e wok s cs request = Some r ∧ serve_good s cs r.
Proof.
  intros Hs Hc. unfold serve. cbn zeta.
  destruct (_ && _); [eexists; split; [done|by apply good_reply]|].
  case_bool_decide; [eexists; split; [done|by apply subscribe_good]|].
  case_bool_decide; [by apply unsubscribe_good|].
  case_bool_decide; [eexists; split; [done|by apply replicaof_good]|].
  case_bool_decide.
  { destruct (cs_replica cs) as [p|]; [|eexists; split; [done|by apply good_reply]].
    eexists. split; [done|]. split; [|constructor].
    destruct (Acked_ok (s_replicas s) p (e_now e)) as [Hk1 Hk2]; [apply Hs|].
    apply serve_post_keeps; [split; [apply Hs|done|apply Hs]|done|apply broker_keeps_refl|done]. }
  case_bool_decide.
  { eexists. split; [done|]. split; [by apply serve_post_refl|by repeat constructor]. }
  destruct (_ && _); [eexists; split; [done|by apply good_reply]|].
  unfold apply. destruct (applyRecord_ok e s request (commandName request) Hs)
    as (s' & reply & -> & Hs' & Henc & Hb & Hf & _).
  eexists. split; [done|]. split; [by apply serve_post_keeps|by repeat constructor].
Qed.

(** * Teardown *)

Lemma unsubscribe_each l s cs sub :
  srv_ok s → conn_ok s cs → cs_sub cs = Some sub →
  serve_post s cs
    (with_pubsub s (foldl (λ b channel, Unsubscribe b channel sub) (pubsub (s_db s)) l))
    (mkConn (cs_sub cs) (cs_channels cs ∖ list_to_set l) (cs_replica cs) (cs_remote cs)).
Proof.
  revert s cs. induction l as [|ch l IH]; intros s cs Hs Hc Hsub; simpl.
  - rewrite difference_empty_L. destruct cs, s as [[] ? ? ? ? ? ?]. by apply serve_post_refl.
  - pose proof (post_unsubscribe s cs sub ch Hs Hc Hsub) as Hp. pose proof Hp as (Hs1 & Hc1 & _).
    eapply serve_post_trans; [exact Hp|]. rewrite <-difference_difference_l_L.
    exact (IH _ _ Hs1 Hc1 Hsub).
Qed.

Lemma unsubscribeAll_ok (o : map_order) s cs :
  srv_ok s → conn_ok s cs →
  ∃ s', unsubscribeAll o s cs = Some s' ∧ srv_ok s' ∧ s_replicas s' = s_replicas s ∧
    ∀ cs2, conn_ok s cs2 → apart cs2 cs → conn_ok s' cs2.
Proof.
  intros Hs Hc. unfold unsubscribeAll. destruct (cs_sub cs) as [sub|] eqn:E; [|by exists s].
  destruct (unsubscribe_each (range_set o (cs_channels cs)) s cs sub Hs Hc E) as (Hs1 & Hc1 & Ho).
  set (b := foldl _ _ _) in *.
  assert (cs_channels cs ∖ list_to_set (range_set o (cs_channels cs)) = ∅) as Hempty.
  { apply set_eq. intros x. rewrite elem_of_difference, elem_of_list_to_set, elem_of_range_set. set_solver. }
  rewrite Hempty in *. destruct (co_open _ _ Hc1 _ E) as (mb & Hmb & Hcl).
  destruct (Close_ok b sub mb) as (b' & -> & Hb' & Hsub' & Hmb'); [apply Hs1|done|done| |].
  { intros ch Hin. apply (co_subs _ _ Hc1 _ E) in Hin. set_solver. }
  eexists. split_and!; [done|by apply srv_ok_pubsub|done|].
  intros cs2 Hc2 Ha. destruct (Ho cs2 Hc2 Ha) as [Hc2' [Ha1 _]].
  apply (conn_ok_other (with_pubsub s b) b' cs2 sub); [done| | |].
  - intros Hp. by apply (Ha1 sub).
  - intros q Hq (mb' & ? & ?). exists mb'. by rewrite Hmb', lookup_insert_ne.
  - intros q ch Hq. unfold channel_subs. by rewrite Hsub'.
Qed.

Lemma removeReplica_ok s cs :
  srv_ok s → conn_ok s cs →
  ∃ s', removeReplica s cs = Some s' ∧ srv_ok s' ∧ s_db s' = s_db s ∧
    ∀ cs2, conn_ok s cs2 → (∀ p, cs_replica cs2 = Some p → cs_replica cs ≠ Some p) → conn_ok s' cs2.
Proof.
  intros [Hdb Hr Hlog] Hc. unfold removeReplica. destruct (cs_replica cs) as [p|] eqn:E; [|by exists s].
  destruct (co_feed _ _ Hc p E) as (rep & Hp & Hcl).
  destruct (Remove_ok (s_replicas s) p rep Hr Hp Hcl) as (r' & Er & Hr' & _). rewrite Er.
  eexists. split_and!; [done|by split|done|]. intros cs2 Hc2 Hne. apply conn_ok_replicas; [done|].
  intros q Hq. destruct (co_feed _ _ Hc2 q Hq) as (rep2 & Hq2 & Hcl2). exists rep2. split; [|done].
  assert (q ≠ p) by (intros ->; by eapply Hne).
  unfold Remove in Er. rewrite Hp, Hcl in Er. injection Er as <-. simpl. by rewrite lookup_insert_ne.
Qed.

Lemma teardown_ok (o : map_order) s cs :
  srv_ok s → conn_ok s cs →
  ∃ s', teardown o s cs = Some s' ∧ srv_ok s' ∧
    ∀ cs2, conn_ok s cs2 → apart cs2 cs → conn_ok s' cs2.
Proof.
  intros Hs Hc. unfold teardown.
  destruct (removeReplica_ok s cs Hs Hc) as (s1 & -> & Hs1 & Hdb1 & Ho1).
  assert (conn_ok s1 (mkConn (cs_sub cs) (cs_channels cs) None (cs_remote cs))) as Hc1.
  { split; simpl; [apply Hc|..|done]; rewrite Hdb1; apply Hc. }
  destruct (unsubscribeAll_ok o s1 _ Hs1 Hc1) as (s2 & E & Hs2 & _ & Ho2).
  exists s2. split_and!; [exact E|done|]. intros cs2 Hc2 [Ha1 Ha2]. apply Ho2.
  - apply Ho1; [done|]. intros p Hp. by apply Ha2.
  - by split.
Qed.

(** * The system as a transition relation *)

Record Sys := mkSys { sy_server : Server; sy_conns : gmap nat connState }.

(** Who takes a step: the accept loops, a connection's handler, the delivery
    goroutines of subscribers and replicas, the everysec goroutine of the
    log, or a background goroutine of [Serve]. *)
Inductive goroutine := GExpiry | GRewrite | GReplica | GHeartbeat | GMetrics.

#[global] Instance goroutine_eq_dec : EqDecision goroutine.
Proof. solve_decision. Defined.

Inductive actor :=
  | Acceptor
  | Client (c : nat)
  | Delivery
  | Fsyncer
  | Background (g : goroutine).

Inductive acts : actor → Sys → Sys → Prop :=
  | step_accept s conns c remote :
      conns !! c = None →
      acts Acceptor (mkSys s conns) (mkSys s (<[c := new_conn remote]> conns))
  | step_request s conns c cs e wok request s' cs' out :
      conns !! c = Some cs →
      serve e wok s cs request = Some (s', cs', out, true) →
      acts (Client c) (mkSys s conns) (mkSys s' (<[c := cs']> conns))
  | step_last s conns c cs e wok request s' cs' out o s'' :
      conns !! c = Some cs →
      serve e wok s cs request = Some (s', cs', out, false) →
      teardown o s' cs' = Some s'' →
      acts (Client c) (mkSys s conns) (mkSys s'' (delete c conns))
  | step_hangup s conns c cs o s' :
      conns !! c = Some cs → teardown o s cs = Some s' →
      acts (Client c) (mkSys s conns) (mkSys s' (delete c conns))
  | step_deliver s conns wok sub s' v more :
      deliver_step wok s sub = Some (s', v, more) →
      acts Delivery (mkSys s conns) (mkSys s' conns)
  | step_ship s conns wok p s' frame more :
      deliverReplica_step wok s p = Some (s', frame, more) →
      acts Delivery (mkSys s conns) (mkSys s' conns)
  | step_fsync s conns a sync_ok :
      s_aof s = Some a → a_ticking a = true →
      acts Fsyncer (mkSys s conns)
        (mkSys (with_log s (syncEverySec_tick (s_world s) a sync_ok) (Some a)) conns)
  | step_heartbeat s conns o o' now s' warned :
      runReplicaHeartbeat_tick o o' now s = Some (s', warned) →
      acts (Background GHeartbeat) (mkSys s conns) (mkSys s' conns)
  | step_expire s conns inp :
      acts (Background GExpiry) (mkSys s conns)
        (mkSys (with_db s (activeExpiryPass inp (s_db s)).1) conns)
  | step_rewrite s conns stat os now tw io s' ok :
      autoRewrite_tick stat os now tw io s = Some (s', ok) →
      acts (Background GRewrite) (mkSys s conns) (mkSys s' conns)
  | step_stream s conns clk o cmd :
      acts (Background GReplica) (mkSys s conns)
        (mkSys (with_db s (Dispatch clk o (s_db s) cmd).1) conns).

Definition step (sy sy' : Sys) : Prop := ∃ a, acts a sy sy'.

Record sys_ok (sy : Sys) : Prop := {
  sk_srv : srv_ok (sy_server sy);
  sk_conn : ∀ c cs, sy_conns sy !! c = Some cs → conn_ok (sy_server sy) cs;
  sk_apart : ∀ c1 c2 cs1 cs2, sy_conns sy !! c1 = Some cs1 → sy_conns sy !! c2 = Some cs2 →
    c1 ≠ c2 → apart cs1 cs2
}.

(** The other connections survive a request of one. *)
Lemma sys_ok_served s conns c cs s' cs' :
  sys_ok (mkSys s conns) → conns !! c = Some cs → serve_post s cs s' cs' →
  sys_ok (mkSys s' (<[c := cs']> conns)).
Proof.
  intros [Hs Hc Ha] Hcs (Hs' & Hc' & Ho). simpl in *.
  assert (∀ c2 cs2, conns !! c2 = Some cs2 → c2 ≠ c → conn_ok s' cs2 ∧ apart cs2 cs') as Hother.
  { intros c2 cs2 H2 Hne. apply Ho; [by eapply Hc|by eapply Ha]. }
  split; simpl; [done|..].
  - intros c2 cs2. rewrite lookup_insert. case_decide; [by intros [= <-]|].
    intros H2. by apply (Hother c2).
  - intros c1 c2 cs1 cs2. rewrite !lookup_insert.
    repeat case_decide; intros; simplify_eq; try done.
    + apply apart_sym. by apply (Hother c2).
    + by apply (Hother c1).
    + by eapply (Ha c1 c2).
Qed.

Lemma sys_ok_torn s conns c cs s' :
  sys_ok (mkSys s conns) → conns !! c = Some cs → srv_ok s' →
  (∀ cs2, conn_ok s cs2 → apart cs2 cs → conn_ok s' cs2) →
  sys_ok (mkSys s' (delete c conns)).
Proof.
  intros [Hs Hc Ha] Hcs Hs' Ho. simpl in *. split; simpl; [done|..].
  - intros c2 cs2 [Hne H2]%lookup_delete_Some. apply Ho; [by eapply Hc|by eapply (Ha c2 c)].
  - intros c1 c2 cs1 cs2 [_ H1]%lookup_delete_Some [_ H2]%lookup_delete_Some. by eapply Ha.
Qed.

Lemma sys_ok_keeps s conns s' :
  sys_ok (mkSys s conns) → srv_ok s' →
  broker_keeps (pubsub (s_db s)) (pubsub (s_db s')) → feeds_keep (s_replicas s) (s_replicas s') →
  sys_ok (mkSys s' conns).
Proof.
  intros [Hs Hc Ha] Hs' Hb Hf. split; simpl; [done| |done].
  intros c cs Hcs. eapply conn_ok_keeps; [done..|by eapply Hc].
Qed.

Lemma Receive_keeps b sub m b' : Receive b sub = Some (m, b') → broker_keeps b b'.
Proof.
  unfold Receive. destruct (mailboxes b !! sub) as [[[|m' q] c]|] eqn:E; try done. intros [= -> <-].
  split; [done|]. intros p. unfold mailbox_open. simpl. rewrite lookup_insert.
  case_decide as Hp; [|done]. subst p. rewrite E. split; intros (mb & [= <-] & Hc); by eexists.
Qed.

Lemma Feed_receive_keeps r p f r' : Feed_receive r p = Some (f, r') → feeds_keep r r'.
Proof.
  unfold Feed_receive. destruct (rheap r !! p) as [[id a [|f' q] c ack]|] eqn:E; try done. intros [= -> <-].
  intros p' (rep & Hp & Hcl). unfold feed_open. simpl. rewrite lookup_insert.
  case_decide; [|eauto]. subst p'. rewrite E in Hp. simplify_eq/=. eauto.
Qed.

(** The ticks of the background goroutines. *)
Lemma heartbeat_tick_ok (o o' : map_order) now s :
  srv_ok s → ∃ s' warned, runReplicaHeartbeat_tick o o' now s = Some (s', warned) ∧ srv_ok s' ∧
    s_db s' = s_db s ∧ feeds_keep (s_replicas s) (s_replicas s').
Proof.
  intros [Hdb Hr Hl]. unfold runReplicaHeartbeat_tick, Heartbeat.
  destruct (Propagate_keeps o (s_replicas s) pingCommand Hr) as (r' & -> & Hr' & Hf).
  eexists _, _. by split_and!.
Qed.

Lemma autoRewrite_tick_frame stat os now tw io s s' ok :
  srv_ok s → autoRewrite_tick stat os now tw io s = Some (s', ok) →
  srv_ok s' ∧ s_db s' = s_db s ∧ s_replicas s' = s_replicas s.
Proof.
  intros [Hdb Hr Hl]. unfold autoRewrite_tick, rewriteAOF. destruct (s_aof s) as [a|] eqn:Ea; [|done].
  destruct (negb _); [by intros [= <- <-]|]. destruct (Rewrite _ _ _ _ _ _) as [[[w a'] ok']|] eqn:E; [|done].
  intros [= <- <-]. split_and!; [|done..]. split; [done..|]. intros a1. cbn [with_log s_aof]. intros [= <-].
  destruct (Rewrite_mode _ _ _ _ _ _ _ _ _ E) as [-> ->]. by apply Hl.
Qed.

Lemma autoRewrite_tick_total stat os now tw io s :
  srv_ok s → is_Some (s_aof s) → is_Some (autoRewrite_tick stat os now tw io s).
Proof.
  intros [Hdb Hr Hl] [a Ea]. unfold autoRewrite_tick, rewriteAOF. rewrite Ea. destruct (negb _); [eauto|].
  destruct (Rewrite_total (s_world s) a (s_aofPath s) tw os (s_db s) now io Hdb) as [[[w a'] ok] ->]. eauto.
Qed.

Lemma acts_ok a sy sy' : acts a sy sy' → sys_ok sy → sys_ok sy'.
Proof.
  intros Hst Hok. pose proof (sk_srv _ Hok) as Hs.
  destruct Hst as [s conns c remote Hn|s conns c cs e wok req s' cs' out Hcs E
    |s conns c cs e wok req s' cs' out o s'' Hcs E Ht|s conns c cs o s' Hcs Ht|s conns wok sub s' v more E
    |s conns wok p s' f more E|s conns a sync_ok Ea Hti|s conns o o' now s' warned E|s conns inp|s conns stat os now tw io s' ok E
    |s conns clk o cmd]; simpl in Hs.
  - destruct Hok as [_ Hc Ha]. simpl in *. split; simpl; [done|..].
    + intros c2 cs2. rewrite lookup_insert. case_decide; [intros [= <-]|by apply Hc]. by split.
    + intros c1 c2 cs1 cs2. rewrite !lookup_insert. repeat case_decide; intros; simplify_eq; try done.
      by eapply (Ha c1 c2).
  - destruct (serve_ok e wok s cs req Hs (sk_conn _ Hok _ _ Hcs)) as (r & Er & Hg).
    rewrite E in Er. simplify_eq. destruct Hg as [Hp _]. by eapply sys_ok_served.
  - destruct (serve_ok e wok s cs req Hs (sk_conn _ Hok _ _ Hcs)) as (r & Er & Hg).
    rewrite E in Er. simplify_eq. destruct Hg as [Hp _].
    pose proof (sys_ok_served _ _ _ _ _ _ Hok Hcs Hp) as Hok1. destruct Hp as (Hs1 & Hc1 & _).
    destruct (teardown_ok o s' cs' Hs1 Hc1) as (s2 & E2 & Hs2 & Ho). rewrite Ht in E2. simplify_eq.
    rewrite <-(delete_insert_eq conns c cs'). by eapply sys_ok_torn; [exact Hok1|apply lookup_insert_eq|..].
  - destruct (teardown_ok o s cs Hs (sk_conn _ Hok _ _ Hcs)) as (s2 & E2 & Hs2 & Ho).
    rewrite Ht in E2. simplify_eq. by eapply sys_ok_torn.
  - unfold deliver_step in E. destruct (Receive _ sub) as [[m b]|] eqn:E1; simplify_eq.
    destruct (Receive_ok _ _ _ _ (ok_pubsub _ (sv_db _ Hs)) E1) as [Hb _].
    eapply sys_ok_keeps; [done|by apply srv_ok_pubsub|by eapply Receive_keeps|apply feeds_keep_refl].
  - unfold deliverReplica_step in E. pose proof (Feed_receive_spec (s_replicas s) p (sv_reps _ Hs)) as Hf.
    destruct (Feed_receive _ p) as [[f1 r]|] eqn:E1; simplify_eq.
    eapply sys_ok_keeps; [done|split; [apply Hs|apply Hf|apply Hs]|apply broker_keeps_refl|by eapply Feed_receive_keeps].
  - eapply sys_ok_keeps; [done| |apply broker_keeps_refl|apply feeds_keep_refl].
    split; [apply Hs..|]. intros a1. cbn [with_log s_aof]. by intros [= <-].
  - destruct (heartbeat_tick_ok o o' now s Hs) as (s1 & wd & E1 & Hs1 & Hdb & Hf). rewrite E in E1. simplify_eq.
    eapply sys_ok_keeps; [done|done|rewrite Hdb; apply broker_keeps_refl|done].
  - pose proof (activeExpiryPass_spec inp (s_db s) (sv_db _ Hs)) as Hx.
    assert (pubsub (activeExpiryPass inp (s_db s)).1 = pubsub (s_db s)) as Hp
      by (unfold activeExpiryPass; by repeat case_match).
    destruct (activeExpiryPass inp (s_db s)) as [db' again]. simpl in *.
    eapply sys_ok_keeps; [done|split; [apply Hx|apply Hs|apply Hs]| |apply feeds_keep_refl].
    simpl. rewrite Hp. apply broker_keeps_refl.
  - destruct (autoRewrite_tick_frame _ _ _ _ _ _ _ _ Hs E) as (Hs' & E1 & E2).
    eapply sys_ok_keeps; [done|done|rewrite E1; apply broker_keeps_refl|rewrite E2; apply feeds_keep_refl].
  - eapply sys_ok_keeps; [done| |by apply Dispatch_bus, Hs|apply feeds_keep_refl].
    split; [|apply Hs..]. by apply Dispatch_sound, Hs.
Qed.

Lemma reachable_ok sy sy' : rtc step sy sy' → sys_ok sy → sys_ok sy'.
Proof. induction 1 as [|? ? ? [a Ha]]; [done|]. intros Hok. apply IHrtc. by eapply acts_ok. Qed.

(** ** The start and the end of [Serve] *)

Lemma loadAOF_ok es s f open_ok stat_ok s' :
  srv_ok s → loadAOF es s f open_ok stat_ok = Some s' → srv_ok s'.
Proof.
  intros [Hdb Hr Hl]. unfold loadAOF.
  pose proof (Replay_inv (replay_dispatch es) (λ st, ∀ db, st.1 = Some db → db_ok db) f
    (Some (s_db s), 0%nat)) as Hinv.
  destruct (Replay _ _ _) as [[[[db|] i] n] []]; try done. cbn [fst] in Hinv.
  unfold Open. destruct (negb open_ok); [done|]. destruct (open_create _ _) as [w j].
  intros [= <-]. split; [|done|].
  - apply Hinv; [|by intros ? [= <-]|done]. intros c [[db0|] k] Hst; [|done].
    specialize (Hst db0 eq_refl). simpl. destruct (Dispatch_sound (e_clk (es k)) (e_ord (es k)) db0 c Hst)
      as (Hok & v & Hv & _). destruct (Dispatch _ _ _ _) as [db1 r]. simpl in *. subst r. by intros ? [= <-].
  - intros a. cbn [with_log s_aof]. intros [= <-]. cbn. intros ->. done.
Qed.

Lemma initial_ok es w path mode primary f open_ok stat_ok s :
  Serve_start es (NewMulti w path mode primary) f open_ok stat_ok = Some s → sys_ok (mkSys s ∅).
Proof.
  assert (srv_ok (NewMulti w path mode primary)) as H0 by (split; [apply newDB_ok|apply reps_ok_new|done]).
  intros E. split; simpl; [|intros; by rewrite lookup_empty in *..].
  unfold Serve_start in E. case_bool_decide; [by simplify_eq|by eapply loadAOF_ok].
Qed.

Lemma Serve_stop_total accept sync close s : srv_ok s → is_Some (Serve_stop accept sync close s).
Proof.
  intros [_ _ Hl]. unfold Serve_stop. destruct (s_aof s) as [a|] eqn:Ea; [|eauto]. unfold AOF_Close.
  case_bool_decide as Hm; cbn [andb]; [rewrite (Hl a Ea Hm); cbn [negb]|]; repeat case_match; simplify_eq; eauto.
Qed.
End with_unicode.

(** ** One connection's loop *)

Section one_connection.
Context `{GoUnicode} (err_text : error → bytes) (es : nat → env) (woks : nat → nat → bool).

(** The loop ends, and only a panic of the decoder can end it badly. *)
Lemma handle_loop_ok fuel i r s cs out :
  (length (rbuf r) < fuel)%nat → srv_ok s → conn_ok s cs → Forall encodes out →
  (∃ s' cs' out', handle_loop err_text es woks fuel i r s cs out = Some (s', cs', out') ∧
     srv_ok s' ∧ conn_ok s' cs' ∧ Forall encodes out') ∨
  (∃ r', rbuf r' `suffix_of` rbuf r ∧ decode r' = Panic).
Proof.
  revert i r s cs out. induction fuel as [|f IH]; intros i r s cs out Hf Hs Hc Ho; [lia|].
  cbn [handle_loop]. destruct (decode r) as [req r'|err| |] eqn:E.
  - pose proof (decode_consumes _ _ _ E) as Hlen.
    destruct (serve_ok (es i) (woks i) s cs req Hs Hc) as (res & -> & Hg).
    destruct res as [[[s1 cs1] vs] keep]. destruct Hg as [(Hs1 & Hc1 & _) Hvs].
    assert (Forall encodes (out ++ vs)) by by apply Forall_app. destruct keep.
    + destruct (IH (S i) r' s1 cs1 (out ++ vs)) as [?|(r2 & Hsuf & Hp)]; [lia|done..|by left|right].
      exists r2. split; [|done]. etrans; [exact Hsuf|by eapply decode_suffix].
    + left. by eexists _, _, _.
  - left. assert (Forall encodes (out ++ [errorVal (B "ERR " ++ err_text err)]))
      by (apply Forall_app; split; [done|by repeat constructor]).
    destruct err; by eexists _, _, _.
  - right. by exists r.
  - by apply Decode_enough_fuel in E; [|lia].
Qed.

Lemma handle_ok (o : map_order) r s remote :
  srv_ok s →
  (∃ s' out, handle err_text es woks o r s remote = Some (s', out) ∧ srv_ok s' ∧ Forall encodes out) ∨
  (∃ r', rbuf r' `suffix_of` rbuf r ∧ decode r' = Panic).
Proof.
  intros Hs. unfold handle.
  destruct (handle_loop_ok (S (length (rbuf r))) 0 r s (new_conn remote) []) as
    [(s1 & cs1 & out & -> & Hs1 & Hc1 & Ho)|?]; [lia|done|by split|constructor| |by right].
  left. destruct (teardown_ok o s1 cs1 Hs1 Hc1) as (s2 & -> & Hs2 & _). by eexists _, _.
Qed.
End one_connection.

(** A fresh server, for concrete runs. *)
Definition empty_fs : World := mkWorld [] ∅ 0.

Definition fresh_server : Server := NewMulti empty_fs (B "aof") FsyncNo [].

Definition quiet (t : Z) : env :=
  {| e_clk := λ _, t; e_ord := order_id; e_accept := None; e_sync := true; e_feeds := order_id;
     e_now := t |}.

(** A server that started on an empty log, synced every second. *)
Definition everysec_server : Server :=
  with_log (NewMulti empty_fs (B "aof") FsyncEverySec [])
    (mkWorld [mkInode [] 0] (<[B "aof" := 0%nat]> ∅) 0)
    (Some (mkAOF 0 [] false true FsyncEverySec 0 true)).

Lemma fresh_server_ok : srv_ok fresh_server.
Proof. split; [apply newDB_ok|apply reps_ok_new|done]. Qed.

(** * Properties *)

(** C29: a whole connection, on any byte stream, ends: the loop makes at
    most one iteration per byte, every frame it writes is one the encoder
    accepts, the deferred teardown succeeds and leaves the store, the bus
    and the replica registry well formed; the only thing that can go wrong
    is a panic of the decoder on an announced length it cannot allocate. *)
Theorem connection_terminates `{GoUnicode} err_text es woks (o : map_order) r s remote :
  srv_ok s →
  (∃ s' out, handle err_text es woks o r s remote = Some (s', out) ∧ srv_ok s' ∧ Forall encodes out) ∨
  (∃ r', rbuf r' `suffix_of` rbuf r ∧ decode r' = Panic).
Proof. apply handle_ok. Qed.

Lemma connection_terminates_witness :
  (∃ s' out, @handle plain_unicode (λ _, []) (λ _, quiet 0) (λ _ _, true) order_id
      (mkReader (encode (request [B "SUBSCRIBE"; B "news"])) EOF) fresh_server (B "10.0.0.9:1")
      = Some (s', out) ∧ srv_ok s' ∧ Forall encodes out) ∨
  (∃ r', rbuf r' `suffix_of` encode (request [B "SUBSCRIBE"; B "news"]) ∧ decode r' = Panic).
Proof.
  apply (@connection_terminates plain_unicode (λ _, []) (λ _, quiet 0) (λ _ _, true) order_id
    (mkReader (encode (request [B "SUBSCRIBE"; B "news"])) EOF) fresh_server (B "10.0.0.9:1")).
  exact fresh_server_ok.
Defined.

(** In subscribe mode any command but (UN)SUBSCRIBE, PING and QUIT gets
    one error frame and changes neither the server nor the connection. *)
Theorem subscribe_mode_restricts `{GoUnicode} e wok s cs request :
  cs_channels cs ≠ ∅ →
  ToUpper (commandName request) ∉ [B "SUBSCRIBE"; B "UNSUBSCRIBE"; B "PING"; B "QUIT"] →
  ∃ v, serve e wok s cs request = Some (s, cs, [v], wok 0%nat) ∧ vType v = TypeError.
Proof.
  intros Hch Hname. eexists. unfold serve, subscribed, allowedWhileSubscribed. cbn zeta.
  rewrite !bool_decide_eq_false_2 by done. by split.
Qed.

Lemma subscribe_mode_restricts_witness :
  ∃ v, @serve plain_unicode (quiet 0) (λ _, true) fresh_server
         (mkConn (Some 0%nat) {[B "news"]} None (B "10.0.0.9:1")) (request [B "SET"; B "k"; B "v"])
       = Some (fresh_server, mkConn (Some 0%nat) {[B "news"]} None (B "10.0.0.9:1"), [v], true) ∧
       vType v = TypeError.
Proof.
  apply (@subscribe_mode_restricts plain_unicode (quiet 0) (λ _, true) fresh_server
    (mkConn (Some 0%nat) {[B "news"]} None (B "10.0.0.9:1")) (request [B "SET"; B "k"; B "v"])).
  - apply (non_empty_singleton_L (B "news")).
  - apply (bool_decide_unpack _). vm_compute. exact I.
Defined.

(** A server started with [--replicaof] refuses every write of an
    ordinary client with one error frame and does not touch its store, log
    or feeds. *)
Theorem replica_refuses_writes `{GoUnicode} e wok s cs request :
  s_primaryAddr s ≠ [] → IsWrite (ToUpper (commandName request)) = true →
  ∃ v, serve e wok s cs request = Some (s, cs, [v], wok 0%nat) ∧ vType v = TypeError.
Proof.
  intros Hp Hw. unfold serve. cbn zeta.
  destruct (subscribed cs && _); [by eexists|].
  set (name := ToUpper (commandName request)) in *.
  assert (∀ x, ToUpper x ∉ writeCommands → bool_decide (name = x) = false) as Hne.
  { intros x Hx. apply bool_decide_eq_false_2. intros E. apply Hx. rewrite <-E.
    unfold IsWrite in Hw. by apply bool_decide_eq_true in Hw. }
  rewrite !Hne by (apply (bool_decide_unpack _); vm_compute; exact I).
  rewrite Hw, (bool_decide_eq_false_2 (s_primaryAddr s = [])) by done. by eexists.
Qed.

Lemma replica_refuses_writes_witness :
  ∃ v, @serve plain_unicode (quiet 0) (λ _, true) (NewMulti empty_fs (B "aof") FsyncNo (B "p:6379"))
         (new_conn (B "10.0.0.9:1")) (request [B "lpush"; B "k"; B "v"])
       = Some (NewMulti empty_fs (B "aof") FsyncNo (B "p:6379"), new_conn (B "10.0.0.9:1"), [v], true) ∧
       vType v = TypeError.
Proof.
  apply (@replica_refuses_writes plain_unicode (quiet 0) (λ _, true)
    (NewMulti empty_fs (B "aof") FsyncNo (B "p:6379")) (new_conn (B "10.0.0.9:1"))
    (request [B "lpush"; B "k"; B "v"])); vm_compute; congruence.
Defined.

(** The metric labels are bounded: whatever names clients send, the
    command label [apply] records is a registered command's upper-cased
    name or "unknown", and the result label is "ok" or "error". *)
Lemma apply_labels `{GoUnicode} e s request s' reply label result :
  apply e s request = Some (s', reply, (label, result)) →
  label ∈ B "unknown" :: commands.*1 ∧ result ∈ [B "ok"; B "error"].
Proof.
  unfold apply. destruct (applyRecord _ _ _ _) as [[s1 r1]|]; [|done]. intros [= -> -> <- <-]. split.
  - unfold Known. destruct (assoc (ToUpper (commandName request)) commands) as [f|] eqn:E; [|by left].
    right. apply assoc_elem in E. apply list_elem_of_fmap.
    by exists (ToUpper (commandName request), f).
  - case_match; [right; by left|by left].
Qed.

(** A second [REPLICAOF] on a connection leaks the first feed: the
    connection forgets it, so after the connection is torn down the feed is
    still registered and open; every later write is encoded and queued for
    it until it is full, and [Any] stays true. *)
Theorem second_replicaof_leaks_feed wok wok' now now' (o : map_order) s cs :
  srv_ok s → conn_ok s cs → wok 0%nat = true → wok' 0%nat = true →
  let '(s1, cs1, _, _) := replicaof wok now s cs in
  let '(s2, cs2, _, _) := replicaof wok' now' s1 cs1 in
  ∃ s3 p, teardown o s2 cs2 = Some s3 ∧ cs_replica cs1 = Some p ∧
    feed_open (s_replicas s3) p ∧ cs_replica cs2 ≠ Some p.
Proof.
  intros Hs Hc Hw Hw'.
  pose proof (replicaof_good wok now s cs Hs Hc) as Hg1. rewrite replicaof_acked in * by done.
  pose proof (Add_ok (s_replicas s) (cs_remote cs) now (sv_reps _ Hs)) as Ha1.
  destruct (Add (s_replicas s) (cs_remote cs) now) as [r1 p1].
  destruct Hg1 as [(Hs1 & Hc1 & _) _]. destruct Ha1 as (Hr1 & _ & _ & Hp1).
  pose proof (replicaof_good wok' now' _ _ Hs1 Hc1) as Hg2. rewrite replicaof_acked in * by done.
  cbn [with_replicas s_replicas cs_remote cs_sub cs_channels cs_replica] in *.
  pose proof (Add_ok r1 (cs_remote cs) now' Hr1) as Ha2.
  destruct (Add r1 (cs_remote cs) now') as [r2 p2] eqn:E2.
  destruct Hg2 as [(Hs2 & Hc2 & _) _]. destruct Ha2 as (_ & Hfresh & _ & _).
  assert (feed_open r1 p1) as Hf1 by (by eexists).
  destruct (Add_keeps _ _ _ _ _ E2 Hfresh p1 Hf1) as [Hne Hf2].
  destruct (teardown_ok o _ _ Hs2 Hc2) as (s3 & Et & _ & Ho). rewrite Et.
  assert (conn_ok s3 (mkConn None ∅ (Some p1) [])) as Hc3.
  { apply Ho.
    - split; cbn [cs_sub cs_channels cs_replica]; [done|by intros p|by intros p|]. by intros p [= <-].
    - split; cbn [cs_sub cs_replica]; [by intros p|]. intros p [= <-]. congruence. }
  exists s3, p1. split_and!; [done|done|by apply (co_feed _ _ Hc3)|cbn [cs_replica]; congruence].
Qed.

Lemma second_replicaof_leaks_feed_witness :
  let '(s1, cs1, _, _) := replicaof (λ _, true) 1 fresh_server (new_conn (B "10.0.0.9:1")) in
  let '(s2, cs2, _, _) := replicaof (λ _, true) 2 s1 cs1 in
  ∃ s3 p, teardown order_id s2 cs2 = Some s3 ∧ cs_replica cs1 = Some p ∧
    feed_open (s_replicas s3) p ∧ cs_replica cs2 ≠ Some p.
Proof.
  apply (second_replicaof_leaks_feed (λ _, true) (λ _, true) 1 2 order_id fresh_server
    (new_conn (B "10.0.0.9:1"))).
  - exact fresh_server_ok.
  - split; cbn [new_conn cs_sub cs_channels cs_replica]; [reflexivity|discriminate..].
  - reflexivity.
  - reflexivity.
Defined.
