(* ===== verification/Locks.v ===== *)
(** The server's goroutines at the granularity of the locks of the message
    bus ([db.Broker]) and of the replica registry ([replication.Replicas]).

    [PUBLISH] holds the broker's lock for reading while it sends to one
    mailbox after the other, and so does every propagation with the registry:
    other publishers, deliveries, and the close of a mailbox or a feed, which
    takes no lock, come in between.  [SUBSCRIBE] and [UNSUBSCRIBE] take the
    lock once per channel, and the deferred calls of a connection
    ([removeReplica], [unsubscribeAll]) are a sequence of locked and unlocked
    sections: what makes the close safe is only that it comes last.

    Between two lock operations a goroutine touches nothing these locks
    guard, so that stretch is one step.  The lock of the write path is left
    out (its interleavings are those of [WritePath]): without it more
    schedules are possible, not fewer. *)

From S2P Require Import Prelude GoLib Protocol ProtocolFacts PubSub Store Db Spec Refine Expiry Cmd.
From S2P Require Import CmdFacts Replay Aof AofFacts Snapshot Compaction Replication Server ServerFacts.

(** * The deferred calls, section by section *)

(** [Unsubscribe] and the locked part of [Remove] are sections under the
    write lock; the two closes take no lock. *)
Inductive lock_section :=
  | Leave (sub : nat) (channel : bytes)
  | Shut (sub : nat)
  | Drop (p : nat)
  | Hang (p : nat).

(** [Remove] up to [Unlock], and its [close(rep.ch)]; [None] is a panic. *)
Definition Remove_locked (r : Replicas) (p : nat) : option Replicas :=
  match rheap r !! p with
  | None => None
  | Some rep => Some (mkReplicas (rheap r) (rnext r) (delete (r_id rep) (reps r)))
  end.

Definition Remove_close (r : Replicas) (p : nat) : option Replicas :=
  match rheap r !! p with
  | None => None
  | Some rep =>
      if r_closed rep then None
      else Some (mkReplicas
                   (<[p := mkReplica (r_id rep) (r_addr rep) (r_ch rep) true (r_lastAck rep)]> (rheap r))
                   (rnext r) (reps r))
  end.

Definition run_section (x : lock_section) (s : Server) : option Server :=
  match x with
  | Leave sub channel => Some (with_pubsub s (Unsubscribe (pubsub (s_db s)) channel sub))
  | Shut sub => with_pubsub s <$> Close (pubsub (s_db s)) sub
  | Drop p => with_replicas s <$> Remove_locked (s_replicas s) p
  | Hang p => with_replicas s <$> Remove_close (s_replicas s) p
  end.

Definition Remove_sections (p : nat) : list lock_section := [Drop p; Hang p].

Definition removeReplica_sections (cs : connState) : list lock_section :=
  match cs_replica cs with None => [] | Some p => Remove_sections p end.

Definition unsubscribeAll_sections (o : map_order) (cs : connState) : list lock_section :=
  match cs_sub cs with
  | None => []
  | Some sub => map (Leave sub) (range_set o (cs_channels cs)) ++ [Shut sub]
  end.

(** The deferred calls of [handle], last deferred first. *)
Definition deferred (o : map_order) (cs : connState) : list lock_section :=
  removeReplica_sections cs ++ unsubscribeAll_sections o cs.

(** * Goroutines *)

Inductive worker := Conn (c : nat) | Heart | Stream.

#[global] Instance worker_eq_dec : EqDecision worker.
Proof. solve_decision. Defined.

#[global] Program Instance worker_countable : Countable worker :=
  inj_countable' (λ w, match w with Conn c => inl c | Heart => inr true | Stream => inr false end)
                 (λ x, match x with inl c => Conn c | inr true => Heart | inr false => Stream end) _.
Next Obligation. by intros []. Qed.

(** What a goroutine is in the middle of: the loop of [subscribe] and of
    [unsubscribe] with the channels left; [Publish], holding the read lock,
    with the subscribers left and the count so far; a write about to be
    propagated, and being propagated (read lock held) with the replicas left,
    each with the reply to come; the deferred calls left. *)
Inductive task :=
  | Joining (sub : nat) (channels : list Value)
  | Parting (targets : list bytes)
  | Publishing (msg : Message) (rest : list nat) (delivered : Z)
  | Recording (cmd reply : Value)
  | Shipping (frame : bytes) (rest : list nat) (reply : Value)
  | Closing (rest : list lock_section).

(** A connection without a task waits for its next request. *)
Record FSys := mkFSys {
  f_server : Server;
  f_conns : gmap nat connState;
  f_tasks : gmap worker task
}.

(** What a step comes to: the next state and the frames written to clients,
    or ([None]) a panic. *)
Abbreviation outcome := (option (FSys * list Value)).

(** * Requests up to their first lock *)

Section locks.
Context `{GoUnicode}.

Inductive begun :=
  | Served (r : Server * connState * list Value * bool)
  | Started (s : Server) (cs : connState) (t : task).

Definition subscribe_start (wok : nat → bool) (s : Server) (cs : connState) (channels : list Value) : begun :=
  match channels with
  | [] => Served (reply_one wok s cs (errorVal (B "ERR wrong number of arguments for 'subscribe' command")))
  | _ =>
      match cs_sub cs with
      | Some sub => Started s cs (Joining sub channels)
      | None =>
          let '(sub, b) := NewSubscriber (pubsub (s_db s)) in
          Started (with_pubsub s b) (mkConn (Some sub) ∅ (cs_replica cs) (cs_remote cs)) (Joining sub channels)
      end
  end.

Definition unsubscribe_start (o : map_order) (wok : nat → bool) (s : Server) (cs : connState)
    (channels : list Value) : begun :=
  let targets :=
    match channels with
    | [] => range_set o (cs_channels cs)
    | _ => map (λ c, content (vBulk c)) channels
    end in
  match targets with
  | [] => Served (reply_one wok s cs (subscribeReplyNull (B "unsubscribe") 0))
  | _ => Started s cs (Parting targets)
  end.

(** The channel and payload of a request that reaches [Broker.Publish]. *)
Definition publish_of (request : Value) : option (bytes * slice) :=
  match vArray request with
  | Some [first; ch; payload] =>
      if byte_eqb (vType request) TypeArray && bool_decide (ToUpper (content (vBulk first)) = B "PUBLISH")
      then Some (arg ch, vBulk payload) else None
  | _ => None
  end.

(** [RLock], and the list the loop of [Publish] ranges over. *)
Definition Publish_start (b : Broker) (ch : bytes) (payload : slice) : task :=
  Publishing (mkMessage ch (cloneBytes payload)) (channel_subs b ch) 0.

(** [apply], up to the propagation of a write. *)
Definition apply_start (e : env) (wok : nat → bool) (s : Server) (cs : connState) (request : Value)
    : option begun :=
  match publish_of request with
  | Some (ch, payload) => Some (Started s cs (Publish_start (pubsub (s_db s)) ch payload))
  | None =>
      let '(db, reply) := Dispatch (e_clk e) (e_ord e) (s_db s) request in
      match reply with
      | None => None
      | Some reply =>
          let s' := with_db s db in
          if negb (IsWrite (commandName request)) || (bool_decide (s_aof s = None) && negb (Any (s_replicas s)))
          then Some (Served (reply_one wok s' cs reply))
          else if byte_eqb (vType reply) TypeError then Some (Served (reply_one wok s' cs reply))
          else Some (Started (append_log e s' request) cs (Recording request reply))
      end
  end.

Definition serve_start (e : env) (wok : nat → bool) (s : Server) (cs : connState) (request : Value)
    : option begun :=
  let name := ToUpper (commandName request) in
  if subscribed cs && negb (allowedWhileSubscribed name)
  then Some (Served (reply_one wok s cs (subscribe_error name)))
  else if bool_decide (name = B "SUBSCRIBE") then Some (subscribe_start wok s cs (args_of request))
  else if bool_decide (name = B "UNSUBSCRIBE")
  then Some (unsubscribe_start (e_ord e) wok s cs (args_of request))
  else if bool_decide (name ∈ [B "REPLICAOF"; B "REPLCONF"; B "QUIT"]) ||
          (negb (bool_decide (s_primaryAddr s = [])) && IsWrite name)
  then Served <$> serve e wok s cs request
  else apply_start e wok s cs request.

(** [Propagate] up to [RLock]: the frame and the replicas to send it to, or
    nothing when the command cannot be encoded. *)
Definition Propagate_start (o : map_order) (r : Replicas) (cmd : Value) : option (bytes * list nat) :=
  match Encode cmd with
  | (_, Some _) => None
  | (frame, None) => Some (frame, (iter o (map_to_list (reps r))).*2)
  end.

(** * Steps of a task *)

Definition set_task (w : worker) (t : option task) (fs : FSys) : FSys :=
  mkFSys (f_server fs) (f_conns fs) (partial_alter (λ _, t) w (f_tasks fs)).

Definition set_server (s : Server) (fs : FSys) : FSys := mkFSys s (f_conns fs) (f_tasks fs).

(** The frame [v] is written, by a connection that then goes on with [t], or
    closes if the write failed. *)
Definition answer (wok : bool) (o : map_order) (c : nat) (s : Server) (cs : connState) (v : Value)
    (t : option task) (fs : FSys) : outcome :=
  Some (mkFSys s (<[c := cs]> (f_conns fs))
          (partial_alter (λ _, if write_ok wok v then t else Some (Closing (deferred o cs))) (Conn c) (f_tasks fs)),
        [v]).

(** The end of [Publish] or [Propagate]: a connection writes the reply. *)
Definition finish (wok : bool) (o : map_order) (w : worker) (v : Value) (fs : FSys) : outcome :=
  match w with
  | Conn c =>
      match f_conns fs !! c with
      | None => None
      | Some cs => answer wok o c (f_server fs) cs v None fs
      end
  | _ => Some (set_task w None fs, [])
  end.

(** One step of the task [t] of the goroutine [w], with the outcome of a
    write to the socket and a map iteration order. *)
Definition task_step (wok : bool) (o : map_order) (w : worker) (t : task) (fs : FSys) : outcome :=
  let s := f_server fs in
  let b := pubsub (s_db s) in
  match t, w with
  | Joining _ [], _ | Parting [], _ => Some (set_task w None fs, [])
  | Joining sub (ch :: channels), Conn c =>
      match f_conns fs !! c with
      | None => None
      | Some cs =>
          let channel := content (vBulk ch) in
          let '(s, cs) :=
            if bool_decide (channel ∈ cs_channels cs) then (s, cs)
            else (with_pubsub s (Subscribe b channel sub),
                  mkConn (cs_sub cs) ({[channel]} ∪ cs_channels cs) (cs_replica cs) (cs_remote cs)) in
          answer wok o c s cs (subscribeReply (B "subscribe") channel (Z.of_nat (size (cs_channels cs))))
                 (Some (Joining sub channels)) fs
      end
  | Parting (channel :: targets), Conn c =>
      match f_conns fs !! c with
      | None => None
      | Some cs =>
          let next s cs :=
            answer wok o c s cs (subscribeReply (B "unsubscribe") channel (Z.of_nat (size (cs_channels cs))))
                   (Some (Parting targets)) fs in
          if bool_decide (channel ∈ cs_channels cs) then
            match cs_sub cs with
            | None => None
            | Some sub =>
                next (with_pubsub s (Unsubscribe b channel sub))
                     (mkConn (cs_sub cs) (cs_channels cs ∖ {[channel]}) (cs_replica cs) (cs_remote cs))
            end
          else next s cs
      end
  | Publishing msg (sub :: rest) n, _ =>
      match send msg (mailboxes b) sub with
      | None => None
      | Some (mbs, d) =>
          Some (set_task w (Some (Publishing msg rest (n + d))) (set_server (with_pubsub s (mkBroker (subs b) mbs)) fs), [])
      end
  | Publishing _ [] n, _ => finish wok o w (integerValue n) fs
  | Recording cmd reply, _ =>
      match Propagate_start o (s_replicas s) cmd with
      | None => finish wok o w reply fs
      | Some (frame, rest) => Some (set_task w (Some (Shipping frame rest reply)) fs, [])
      end
  | Shipping frame (p :: rest) reply, _ =>
      match offer frame (rheap (s_replicas s)) p with
      | None => None
      | Some h =>
          Some (set_task w (Some (Shipping frame rest reply))
                  (set_server (with_replicas s (mkReplicas h (rnext (s_replicas s)) (reps (s_replicas s)))) fs), [])
      end
  | Shipping _ [] reply, _ => finish wok o w reply fs
  | Closing (x :: rest), Conn c =>
      match run_section x s with
      | None => None
      | Some s => Some (set_task w (Some (Closing rest)) (set_server s fs), [])
      end
  | Closing [], Conn c => Some (set_task w None (mkFSys s (delete c (f_conns fs)) (f_tasks fs)), [])
  | _, _ => None
  end.

(** * Locks *)

(** Nobody holds the lock for reading. *)
Definition bus_free (ts : gmap worker task) : Prop := ∀ w msg rest n, ts !! w ≠ Some (Publishing msg rest n).
Definition registry_free (ts : gmap worker task) : Prop := ∀ w frame rest v, ts !! w ≠ Some (Shipping frame rest v).

(** Whether the next step of a task takes the broker's lock, or the
    registry's, for writing. *)
Definition locks_bus (cs : connState) (t : task) : Prop :=
  match t with
  | Joining _ (ch :: _) => content (vBulk ch) ∉ cs_channels cs
  | Parting (channel :: _) => channel ∈ cs_channels cs
  | Closing (Leave _ _ :: _) => True
  | _ => False
  end.

Definition locks_registry (t : task) : Prop := match t with Closing (Drop _ :: _) => True | _ => False end.

Definition enabled (fs : FSys) (w : worker) (t : task) : Prop :=
  (∀ c cs, w = Conn c → f_conns fs !! c = Some cs → locks_bus cs t → bus_free (f_tasks fs)) ∧
  (locks_registry t → registry_free (f_tasks fs)).

(** * The step relation *)

Definition request_step (e : env) (wok : nat → bool) (o : map_order) (c : nat) (cs : connState) (request : Value)
    (fs : FSys) : outcome :=
  match serve_start e wok (f_server fs) cs request with
  | None => None
  | Some (Served (s, cs, out, more)) =>
      Some (mkFSys s (<[c := cs]> (f_conns fs))
              (if more then f_tasks fs else <[Conn c := Closing (deferred o cs)]> (f_tasks fs)), out)
  | Some (Started s cs t) => Some (mkFSys s (<[c := cs]> (f_conns fs)) (<[Conn c := t]> (f_tasks fs)), [])
  end.

(** A command that [streamOnce] dispatches on a replica. *)
Definition streamed_step (clk : clock) (o : map_order) (cmd : Value) (fs : FSys) : outcome :=
  match publish_of cmd with
  | Some (ch, payload) =>
      Some (set_task Stream (Some (Publish_start (pubsub (s_db (f_server fs))) ch payload)) fs, [])
  | None =>
      match Dispatch clk o (s_db (f_server fs)) cmd with
      | (_, None) => None
      | (db, Some _) => Some (set_server (with_db (f_server fs) db) fs, [])
      end
  end.

Inductive fstep : FSys → outcome → Prop :=
  | F_accept fs c remote :
      f_conns fs !! c = None →
      fstep fs (Some (mkFSys (f_server fs) (<[c := new_conn remote]> (f_conns fs)) (f_tasks fs), []))
  | F_request fs c cs e wok o request :
      f_conns fs !! c = Some cs → f_tasks fs !! Conn c = None →
      (ToUpper (commandName request) = B "REPLICAOF" → registry_free (f_tasks fs)) →
      fstep fs (request_step e wok o c cs request fs)
  | F_hangup fs c cs o :
      f_conns fs !! c = Some cs → f_tasks fs !! Conn c = None →
      fstep fs (Some (set_task (Conn c) (Some (Closing (deferred o cs))) fs, []))
  | F_task fs w t wok o :
      f_tasks fs !! w = Some t → enabled fs w t → fstep fs (task_step wok o w t fs)
  | F_heartbeat fs :
      f_tasks fs !! Heart = None → fstep fs (Some (set_task Heart (Some (Recording pingCommand okVal)) fs, []))
  | F_stream fs clk o cmd : f_tasks fs !! Stream = None → fstep fs (streamed_step clk o cmd fs)
  | F_deliver fs wok sub s' v more :
      deliver_step wok (f_server fs) sub = Some (s', v, more) → fstep fs (Some (set_server s' fs, [v]))
  | F_ship fs wok p s' frame more :
      deliverReplica_step wok (f_server fs) p = Some (s', frame, more) → fstep fs (Some (set_server s' fs, []))
  | F_fsync fs a sync_ok :
      s_aof (f_server fs) = Some a → a_ticking a = true →
      fstep fs (Some (set_server (with_log (f_server fs) (syncEverySec_tick (s_world (f_server fs)) a sync_ok) (Some a)) fs, []))
  | F_expire fs inp :
      fstep fs (Some (set_server (with_db (f_server fs) (activeExpiryPass inp (s_db (f_server fs))).1) fs, []))
  | F_rewrite fs stat os now tw io :
      is_Some (s_aof (f_server fs)) →
      fstep fs (match autoRewrite_tick stat os now tw io (f_server fs) with
                | None => None
                | Some (s', _) => Some (set_server s' fs, [])
                end).

Definition moves (fs fs' : FSys) : Prop := ∃ out, fstep fs (Some (fs', out)).

(** * The invariant *)

(** What a closing connection still holds of the bus and the registry. *)
Inductive closing : list lock_section → connState → Prop :=
  | closing_done remote : closing [] (mkConn None ∅ None remote)
  | closing_shut sub remote : closing [Shut sub] (mkConn (Some sub) ∅ None remote)
  | closing_leave sub ch l chs remote :
      closing l (mkConn (Some sub) chs None remote) → ch ∉ chs →
      closing (Leave sub ch :: l) (mkConn (Some sub) ({[ch]} ∪ chs) None remote)
  | closing_hang p l sub chs remote :
      closing l (mkConn sub chs None remote) → closing (Hang p :: l) (mkConn sub chs (Some p) remote)
  | closing_drop p l v : closing (Hang p :: l) v → closing (Drop p :: Hang p :: l) v.

(** The holdings of a connection, by what it is doing. *)
Definition holds (cs : option connState) (t : option task) (v : option connState) : Prop :=
  match cs, t, v with
  | None, None, None => True
  | Some cs, Some (Closing l), Some v => closing l v
  | Some cs, Some (Joining sub _), Some v => v = cs ∧ cs_sub cs = Some sub
  | Some cs, _, Some v => v = cs
  | _, _, _ => False
  end.

(** Whoever is being sent to is registered; a feed is closed only after it
    was taken out. *)
Definition task_ok (s : Server) (w : worker) (t : task) : Prop :=
  match t with
  | Joining _ _ | Parting _ => ∃ c, w = Conn c
  | Publishing msg rest _ => ∀ x, x ∈ rest → x ∈ channel_subs (pubsub (s_db s)) (Channel msg)
  | Recording _ reply => encodes reply
  | Shipping _ rest reply => (∀ p, p ∈ rest → registered (s_replicas s) p) ∧ encodes reply
  | Closing l =>
      (∃ c, w = Conn c) ∧
      match l with Hang p :: _ => is_Some (rheap (s_replicas s) !! p) ∧ ¬ registered (s_replicas s) p | _ => True end
  end.

Record fsys_ok (fs : FSys) : Prop := {
  fk_holds : ∃ views, sys_ok (mkSys (f_server fs) views) ∧
    ∀ c, holds (f_conns fs !! c) (f_tasks fs !! Conn c) (views !! c);
  fk_tasks : ∀ w t, f_tasks fs !! w = Some t → task_ok (f_server fs) w t
}.

(** ** Sections *)

Lemma closing_deferred (o : map_order) s cs : conn_ok s cs → closing (deferred o cs) cs.
Proof.
  intros Hc. destruct cs as [sub chs rep remote]. unfold deferred, removeReplica_sections, unsubscribeAll_sections.
  cbn [cs_sub cs_channels cs_replica].
  assert (closing (match sub with None => [] | Some x => map (Leave x) (range_set o chs) ++ [Shut x] end)
    (mkConn sub chs None remote)) as Hrest.
  { destruct sub as [x|].
    - assert (list_to_set (range_set o chs) = chs) as Hset
        by (apply set_eq; intros ch; by rewrite elem_of_list_to_set, elem_of_range_set).
      pose proof (NoDup_range_set o chs) as Hnd. rewrite <-Hset at 2. clear Hc Hset. revert Hnd.
      generalize (range_set o chs) as l. induction l as [|ch l IH]; intros Hnd; simpl; [constructor|].
      apply NoDup_cons in Hnd as [Hch Hnd]. constructor; [by apply IH|]. by rewrite elem_of_list_to_set.
    - rewrite (co_none _ _ Hc eq_refl : chs = ∅). constructor. }
  destruct rep as [p|]; [|done]. repeat constructor. done.
Qed.

(** A section run by the connection whose turn it is: it does not panic, and
    leaves the rest of the system as it was. *)
Lemma post_shut s sub remote :
  srv_ok s → conn_ok s (mkConn (Some sub) ∅ None remote) →
  ∃ b, Close (pubsub (s_db s)) sub = Some b ∧ subs b = subs (pubsub (s_db s)) ∧
    serve_post s (mkConn (Some sub) ∅ None remote) (with_pubsub s b) (mkConn None ∅ None remote).
Proof.
  intros Hs Hc. destruct (co_open _ _ Hc sub eq_refl) as (mb & Hmb & Hcl).
  destruct (Close_ok (pubsub (s_db s)) sub mb) as (b & E & Hb & Hsub & Hm); [apply Hs|done..| |].
  { intros ch Hin. apply (co_subs _ _ Hc sub eq_refl) in Hin. set_solver. }
  exists b. split_and!; [done..|]. split_and!; [by apply srv_ok_pubsub|by split|].
  intros cs2 Hc2 [Ha1 Ha2]. split; [|done]. apply (conn_ok_other s b cs2 sub); [done| | |].
  - intros Hp. by eapply Ha1.
  - intros q Hq (mb' & ? & ?). exists mb'. by rewrite Hm, lookup_insert_ne.
  - intros q ch Hq. unfold channel_subs. by rewrite Hsub.
Qed.

Lemma post_drop s v p l :
  srv_ok s → conn_ok s v → closing (Drop p :: l) v →
  ∃ r, Remove_locked (s_replicas s) p = Some r ∧ rheap r = rheap (s_replicas s) ∧
    is_Some (rheap r !! p) ∧ ¬ registered r p ∧
    (∀ q, ¬ registered (s_replicas s) q → ¬ registered r q) ∧
    serve_post s v (with_replicas s r) v.
Proof.
  intros Hs Hc Hcl. assert (cs_replica v = Some p) as Hp by (by inversion Hcl as [| | | |? ? ? Hh]; inversion Hh).
  destruct (co_feed _ _ Hc _ Hp) as (rep & Hrep & Hopen). unfold Remove_locked. rewrite Hrep.
  eexists. split; [done|]. cbn [rheap reps]. pose proof (sv_reps _ Hs) as [Hl Hcap].
  split_and!; [done|by eexists| | |].
  - intros [id Hid]. cbn in Hid. apply lookup_delete_Some in Hid as [Hne Hid].
    destruct (Hl _ _ Hid) as (rep' & E & Hr & _). congruence.
  - intros q Hq [id Hid]. apply Hq. cbn in Hid. apply lookup_delete_Some in Hid as [_ Hid]. by exists id.
  - apply serve_post_keeps; [|done|apply broker_keeps_refl|intros q Hq; exact Hq].
    split; [apply Hs| |apply Hs]. split; cbn; [|done]. intros id q [_ Hid]%lookup_delete_Some. by apply Hl.
Qed.

Lemma post_hang s p sub chs remote :
  srv_ok s → conn_ok s (mkConn sub chs (Some p) remote) → ¬ registered (s_replicas s) p →
  ∃ r, Remove_close (s_replicas s) p = Some r ∧ reps r = reps (s_replicas s) ∧
    (∀ q, is_Some (rheap (s_replicas s) !! q) → is_Some (rheap r !! q)) ∧
    serve_post s (mkConn sub chs (Some p) remote) (with_replicas s r) (mkConn sub chs None remote).
Proof.
  intros Hs Hc Hreg. destruct (co_feed _ _ Hc p eq_refl) as (rep & Hrep & Hopen).
  unfold Remove_close. rewrite Hrep, Hopen. eexists. split; [done|]. pose proof (sv_reps _ Hs) as [Hl Hcap].
  assert (∀ q, q ≠ p → ∀ h x, (<[p := x]> h : gmap nat Replica) !! q = h !! q) as Hne
    by (intros; by rewrite lookup_insert_ne).
  cbn [reps rheap]. split_and!; [done| |].
  { intros q Hq. rewrite lookup_insert. by case_decide. }
  split_and!.
  - split; [apply Hs| |apply Hs]. split; cbn.
    + intros id q Hid. rewrite Hne; [by apply Hl|]. intros ->. apply Hreg. by exists id.
    + intros q rep'. rewrite lookup_insert. case_decide; [intros [= <-]; by apply (Hcap p rep)|apply Hcap].
  - split; cbn; [apply Hc..|done].
  - intros cs2 Hc2 [Ha1 Ha2]. split; [|by split]. apply conn_ok_replicas; [done|]. intros q Hq.
    destruct (co_feed _ _ Hc2 q Hq) as (rep2 & ? & ?). exists rep2. cbn. rewrite Hne; [done|].
    intros ->. by apply (Ha2 p).
Qed.

(** ** What the others notice *)

(** The tasks of other goroutines survive a change of the server: the
    channels may change while nobody publishes, the registry while nobody
    propagates. *)
Record tasks_keep (s s' : Server) (ts : gmap worker task) : Prop := {
  tk_bus : (subs (pubsub (s_db s')) = subs (pubsub (s_db s))) ∨ bus_free ts;
  tk_registry : (reps (s_replicas s') = reps (s_replicas s)) ∨
    (registry_free ts ∧
     ∀ p, is_Some (rheap (s_replicas s) !! p) → ¬ registered (s_replicas s) p → ¬ registered (s_replicas s') p);
  tk_heap : ∀ p, is_Some (rheap (s_replicas s) !! p) → is_Some (rheap (s_replicas s') !! p)
}.

Lemma tasks_keep_ok s s' ts w t :
  tasks_keep s s' ts → ts !! w = Some t → task_ok s w t → task_ok s' w t.
Proof.
  intros [Hb Hr Hh] Hw Ht. destruct t as [| |msg rest n|cmd reply|frame rest reply|l]; cbn in *; try done.
  - destruct Hb as [Hb|Hb]; [|by apply Hb in Hw]. unfold channel_subs in *. by rewrite Hb.
  - destruct Hr as [Hr|[Hr _]]; [|by apply Hr in Hw]. unfold registered in *. by rewrite Hr.
  - destruct Ht as [Hc Ht]. split; [done|]. destruct l as [|[| | |p] l]; try done. destruct Ht as [Hp Ht].
    split; [by apply Hh|]. destruct Hr as [Hr|[_ Hr]]; [|by apply Hr]. unfold registered in *. by rewrite Hr.
Qed.

Lemma tasks_keep_same s s' ts :
  subs (pubsub (s_db s')) = subs (pubsub (s_db s)) → s_replicas s' = s_replicas s → tasks_keep s s' ts.
Proof. intros Hb Hr. split; rewrite ?Hr; auto. Qed.

(** A change made by a background goroutine. *)
Lemma fsys_ok_server fs s' :
  fsys_ok fs → srv_ok s' → broker_keeps (pubsub (s_db (f_server fs))) (pubsub (s_db s')) →
  feeds_keep (s_replicas (f_server fs)) (s_replicas s') → tasks_keep (f_server fs) s' (f_tasks fs) →
  fsys_ok (set_server s' fs).
Proof.
  intros [(views & Hv & Hh) Ht] Hs Hb Hf Hk. split; cbn.
  - exists views. split; [|done]. by eapply sys_ok_keeps.
  - intros w t Hw. eapply tasks_keep_ok; [done..|]. by apply Ht.
Qed.

(** A change made on behalf of a goroutine, which goes on with [t]. *)
Lemma tasks_altered s s' ts w t :
  (∀ w t, ts !! w = Some t → task_ok s w t) → tasks_keep s s' ts → (∀ x, t = Some x → task_ok s' w x) →
  ∀ w' t', partial_alter (λ _, t) w ts !! w' = Some t' → task_ok s' w' t'.
Proof.
  intros Ht Hk Hw w' t' E. destruct (decide (w = w')) as [<-|Hne].
  - rewrite lookup_partial_alter_eq in E. by apply Hw.
  - rewrite lookup_partial_alter_ne in E by done. eapply tasks_keep_ok; [done..|]. by apply Ht.
Qed.

(** ... of a connection, [v] being what it held and [v'] what it holds. *)
Lemma fsys_ok_conn fs c cs s' cs' t (views : gmap nat connState) v v' :
  sys_ok (mkSys (f_server fs) views) → (∀ c, holds (f_conns fs !! c) (f_tasks fs !! Conn c) (views !! c)) →
  (∀ w t, f_tasks fs !! w = Some t → task_ok (f_server fs) w t) →
  f_conns fs !! c = Some cs → views !! c = Some v →
  serve_post (f_server fs) v s' v' → holds (Some cs') t (Some v') →
  tasks_keep (f_server fs) s' (f_tasks fs) → (∀ x, t = Some x → task_ok s' (Conn c) x) →
  fsys_ok (mkFSys s' (<[c := cs']> (f_conns fs)) (partial_alter (λ _, t) (Conn c) (f_tasks fs))).
Proof.
  intros Hv Hh Ht Hcs Hvc Hp Ho Hk Hx. split; cbn; [|by eapply tasks_altered].
  exists (<[c := v']> views). split; [by eapply sys_ok_served|]. intros c'. destruct (decide (c = c')) as [<-|Hne].
  - by rewrite !lookup_insert_eq, lookup_partial_alter_eq.
  - rewrite !lookup_insert_ne, lookup_partial_alter_ne by congruence. apply Hh.
Qed.

Lemma fsys_ok_conn_same fs c cs s' t (views : gmap nat connState) v v' :
  sys_ok (mkSys (f_server fs) views) → (∀ c, holds (f_conns fs !! c) (f_tasks fs !! Conn c) (views !! c)) →
  (∀ w t, f_tasks fs !! w = Some t → task_ok (f_server fs) w t) →
  f_conns fs !! c = Some cs → views !! c = Some v →
  serve_post (f_server fs) v s' v' → holds (Some cs) t (Some v') →
  tasks_keep (f_server fs) s' (f_tasks fs) → (∀ x, t = Some x → task_ok s' (Conn c) x) →
  fsys_ok (set_task (Conn c) t (set_server s' fs)).
Proof.
  intros Hv Hh Ht Hcs Hvc Hp Ho Hk Hx. pose proof (fsys_ok_conn fs c cs s' cs t views v v') as Hf.
  rewrite (insert_id (f_conns fs) c cs Hcs) in Hf. by apply Hf.
Qed.

(** ** Requests *)

Lemma Add_tasks r addr now r' p :
  Add r addr now = (r', p) →
  (∀ q, is_Some (rheap r !! q) → ¬ registered r q → ¬ registered r' q) ∧
  (∀ q, is_Some (rheap r !! q) → is_Some (rheap r' !! q)).
Proof.
  intros [= <- <-]. cbn. split; intros q Hq.
  - intros Hn [id Hid]. cbn in Hid. apply lookup_insert_Some in Hid as [[_ <-]|[_ Hid]]; [|by apply Hn; exists id].
    apply elem_of_dom in Hq. by apply is_fresh in Hq.
  - rewrite lookup_insert. by case_decide.
Qed.

Lemma Acked_tasks s p now ts : tasks_keep s (with_replicas s (Acked (s_replicas s) p now)) ts.
Proof.
  unfold Acked. destruct (rheap (s_replicas s) !! p) as [rep|] eqn:E; [|by apply tasks_keep_same; destruct s].
  split; cbn; [by left..|]. intros q Hq. rewrite lookup_insert. by case_decide.
Qed.

Lemma replicaof_tasks wok now s cs ts :
  registry_free ts → tasks_keep s (replicaof wok now s cs).1.1.1 ts.
Proof.
  intros Hf. unfold replicaof. destruct (negb _); [by apply tasks_keep_same|].
  destruct (Add _ _ _) as [r p] eqn:E. apply Add_tasks in E as [H1 H2]. split; cbn; [by left|by right|done].
Qed.

Definition started_ok (s : Server) (cs : connState) (c : nat) (ts : gmap worker task) (st : begun) : Prop :=
  match st with
  | Served (s', cs', out, _) => serve_post s cs s' cs' ∧ Forall encodes out ∧ tasks_keep s s' ts
  | Started s' cs' t =>
      serve_post s cs s' cs' ∧ tasks_keep s s' ts ∧ holds (Some cs') (Some t) (Some cs') ∧ task_ok s' (Conn c) t
  end.

Lemma served_one wok s cs c ts v :
  srv_ok s → conn_ok s cs → encodes v → started_ok s cs c ts (Served (reply_one wok s cs v)).
Proof. intros. split_and!; [by apply serve_post_refl|by repeat constructor|by apply tasks_keep_same]. Qed.

Lemma subscribe_start_ok wok s cs c ts channels :
  srv_ok s → conn_ok s cs → started_ok s cs c ts (subscribe_start wok s cs channels).
Proof.
  intros Hs Hc. unfold subscribe_start. destruct channels as [|ch channels]; [by apply served_one|].
  destruct (cs_sub cs) as [sub|] eqn:E.
  - split_and!; [by apply serve_post_refl|by apply tasks_keep_same|by split|by exists c].
  - destruct (NewSubscriber (pubsub (s_db s))) as [sub b] eqn:En.
    split_and!; [by apply (post_new_sub s cs sub b)| |by split|by exists c].
    apply tasks_keep_same; [|done]. destruct (NewSubscriber_ok _ _ _ (ok_pubsub _ (sv_db _ Hs)) En) as (_ & _ & _ & Hsub).
    exact Hsub.
Qed.

Lemma unsubscribe_start_ok (o : map_order) wok s cs c ts channels :
  srv_ok s → conn_ok s cs → started_ok s cs c ts (unsubscribe_start o wok s cs channels).
Proof.
  intros Hs Hc. unfold unsubscribe_start. cbn zeta. destruct (match channels with [] => _ | _ => _ end).
  - apply served_one; [done..|apply encodes_subscribeReplyNull].
  - split_and!; [by apply serve_post_refl|by apply tasks_keep_same|done|by exists c].
Qed.

Lemma apply_start_ok e wok s cs c ts request :
  srv_ok s → conn_ok s cs →
  ∃ st, apply_start e wok s cs request = Some st ∧ started_ok s cs c ts st.
Proof.
  intros Hs Hc. unfold apply_start. destruct (publish_of request) as [[ch payload]|].
  { eexists. split; [done|]. split_and!; [by apply serve_post_refl|by apply tasks_keep_same|done|by intros x]. }
  pose proof (Dispatch_sound (e_clk e) (e_ord e) (s_db s) request (sv_db _ Hs)) as (Hdb & v & Hv & Henc & _).
  pose proof (Dispatch_bus (e_clk e) (e_ord e) (s_db s) request (sv_db _ Hs)) as Hbus.
  destruct (Dispatch _ _ _ _) as [db reply]. cbn in Hv, Hdb, Hbus. subst reply.
  assert (srv_ok (with_db s db)) as Hs' by (split; [done|apply Hs..]).
  assert (serve_post s cs (with_db s db) cs) as Hp by (apply serve_post_keeps; [done..|apply feeds_keep_refl]).
  assert (tasks_keep s (with_db s db) ts) as Hk by (apply tasks_keep_same; [apply Hbus|done]).
  assert (started_ok s cs c ts (Served (reply_one wok (with_db s db) cs v))) as Hone
    by (split_and!; [done|by repeat constructor|done]).
  destruct (_ || _); [by eexists|]. destruct (byte_eqb _ _); [by eexists|]. eexists. split; [done|].
  destruct (append_log_frame e (with_db s db) request) as (A1 & A2 & _). split_and!; [|..|done|done].
  - apply serve_post_keeps; [|done|by rewrite A1|rewrite A2; apply feeds_keep_refl].
    split; [by rewrite A1|rewrite A2; apply Hs'|apply append_log_ok, Hs'].
  - apply tasks_keep_same; [rewrite A1; apply Hbus|by rewrite A2].
Qed.

Lemma serve_start_ok e wok s cs c ts request :
  srv_ok s → conn_ok s cs → (ToUpper (commandName request) = B "REPLICAOF" → registry_free ts) →
  ∃ st, serve_start e wok s cs request = Some st ∧ started_ok s cs c ts st.
Proof.
  intros Hs Hc Hreg. destruct (serve_ok e wok s cs request Hs Hc) as ([[[s' cs'] out] more] & E & Hp & Ho).
  unfold serve_start. cbn zeta. set (name := ToUpper (commandName request)) in *.
  destruct (_ && _) eqn:Hsub; [eexists; split; [done|by apply served_one]|].
  case_bool_decide as H1; [eexists; split; [done|by apply subscribe_start_ok]|].
  case_bool_decide as H2; [eexists; split; [done|by apply unsubscribe_start_ok]|].
  destruct (_ || _) eqn:Hor; [|by apply apply_start_ok]. rewrite E. eexists. split; [done|]. split_and!; [done..|].
  unfold serve in E. fold name in E. rewrite Hsub, !bool_decide_eq_false_2 in E by done. cbn zeta in E.
  destruct (decide (name = B "REPLICAOF")) as [H3|H3];
    [rewrite (bool_decide_eq_true_2 _ H3) in E|rewrite (bool_decide_eq_false_2 _ H3) in E].
  { pose proof (replicaof_tasks wok (e_now e) s cs ts (Hreg H3)) as Hk. injection E as E. by rewrite E in Hk. }
  destruct (decide (name = B "REPLCONF")) as [H4|H4];
    [rewrite (bool_decide_eq_true_2 _ H4) in E|rewrite (bool_decide_eq_false_2 _ H4) in E].
  { destruct (cs_replica cs) as [p|]; injection E as <- _ _ _; [apply Acked_tasks|by apply tasks_keep_same]. }
  destruct (decide (name = B "QUIT")) as [H5|H5];
    [rewrite (bool_decide_eq_true_2 _ H5) in E|rewrite (bool_decide_eq_false_2 _ H5) in E].
  { injection E as <- _ _ _. by apply tasks_keep_same. }
  rewrite bool_decide_eq_false_2 in Hor by set_solver. cbn [orb] in Hor. rewrite Hor in E.
  injection E as <- _ _ _. by apply tasks_keep_same.
Qed.

(** ** Tasks *)

Lemma deferred_ok (o : map_order) s c cs : task_ok s (Conn c) (Closing (deferred o cs)).
Proof.
  split; [by exists c|]. unfold deferred, removeReplica_sections, unsubscribeAll_sections.
  destruct (cs_replica cs) as [p|]; [done|]. destruct (cs_sub cs) as [sub|]; [|done]. by destruct (range_set _ _).
Qed.

Lemma answer_ok wok (o : map_order) c cs s' cs' v t fs views :
  sys_ok (mkSys (f_server fs) views) → (∀ c, holds (f_conns fs !! c) (f_tasks fs !! Conn c) (views !! c)) →
  (∀ w t, f_tasks fs !! w = Some t → task_ok (f_server fs) w t) →
  f_conns fs !! c = Some cs → views !! c = Some cs →
  serve_post (f_server fs) cs s' cs' → tasks_keep (f_server fs) s' (f_tasks fs) → encodes v →
  holds (Some cs') t (Some cs') → (∀ x, t = Some x → task_ok s' (Conn c) x) →
  ∃ fs' out, answer wok o c s' cs' v t fs = Some (fs', out) ∧ fsys_ok fs' ∧ Forall encodes out.
Proof.
  intros Hv Hh Ht Hcs Hvc Hp Hk Henc Ho Hx. eexists _, _. split; [done|]. split; [|by repeat constructor].
  pose proof Hp as (_ & Hc' & _). destruct (write_ok wok v); (eapply fsys_ok_conn; [done..| |done|]).
  - done.
  - done.
  - by eapply closing_deferred.
  - intros x [= <-]. apply deferred_ok.
Qed.

(** A goroutine that publishes or propagates. *)
Definition sending (t : task) : Prop :=
  match t with Publishing _ _ _ | Recording _ _ | Shipping _ _ _ => True | _ => False end.

#[global] Instance sending_dec t : Decision (sending t).
Proof. destruct t; apply _. Defined.

Lemma sending_holds cs t v : sending t → holds cs (Some t) v → ∃ cs', cs = Some cs' ∧ v = Some cs'.
Proof. destruct t, cs, v; cbn; try done; intros _ ->; eauto. Qed.

Lemma fsys_ok_sending fs w t s' t' :
  fsys_ok fs → f_tasks fs !! w = Some t → sending t → (∀ x, t' = Some x → sending x) →
  srv_ok s' → broker_keeps (pubsub (s_db (f_server fs))) (pubsub (s_db s')) →
  feeds_keep (s_replicas (f_server fs)) (s_replicas s') → tasks_keep (f_server fs) s' (f_tasks fs) →
  (∀ x, t' = Some x → task_ok s' w x) → fsys_ok (set_task w t' (set_server s' fs)).
Proof.
  intros [(views & Hv & Hh) Ht] Hw Hst Hst' Hs Hb Hf Hk Hx. split; cbn; [|by eapply tasks_altered].
  exists views. split; [by eapply sys_ok_keeps|]. intros c. destruct (decide (w = Conn c)) as [->|Hne].
  - rewrite lookup_partial_alter_eq. specialize (Hh c). rewrite Hw in Hh.
    apply sending_holds in Hh as (cs & -> & ->); [|done]. destruct t' as [x|]; [|done].
    specialize (Hst' x eq_refl). by destruct x.
  - rewrite lookup_partial_alter_ne by done. apply Hh.
Qed.

Lemma finish_ok wok (o : map_order) w t v fs :
  fsys_ok fs → f_tasks fs !! w = Some t → sending t → encodes v →
  ∃ fs' out, finish wok o w v fs = Some (fs', out) ∧ fsys_ok fs' ∧ Forall encodes out.
Proof.
  intros Hok Hw Hst Henc. pose proof Hok as [(views & Hv & Hh) Ht]. unfold finish.
  assert (fsys_ok (set_task w None fs)) as Hback.
  { destruct fs as [s conns ts]. apply (fsys_ok_sending (mkFSys s conns ts) w t s None);
      try done; [apply Hv|apply feeds_keep_refl|by apply tasks_keep_same]. }
  destruct w as [c| |]; [|eexists _, _; split; [done|by split]..].
  pose proof (Hh c) as Hhc. rewrite Hw in Hhc. apply sending_holds in Hhc as (cs & Hcs & Hvc); [|done].
  rewrite Hcs. eapply answer_ok; [done..| | |done|done|done].
  - apply serve_post_refl; [apply Hv|]. by apply (sk_conn _ Hv c).
  - by apply tasks_keep_same.
Qed.

Lemma send_ok s msg sub :
  srv_ok s → sub ∈ channel_subs (pubsub (s_db s)) (Channel msg) →
  ∃ mbs d, send msg (mailboxes (pubsub (s_db s))) sub = Some (mbs, d) ∧
    srv_ok (with_pubsub s (mkBroker (subs (pubsub (s_db s))) mbs)) ∧
    broker_keeps (pubsub (s_db s)) (mkBroker (subs (pubsub (s_db s))) mbs).
Proof.
  intros Hs Hsub. pose proof (ok_pubsub _ (sv_db _ Hs)) as [Ho Hne Hnd Hcap].
  destruct (Ho _ _ Hsub) as (mb & Hmb & Hcl). rewrite (send_open _ _ _ mb) by done. eexists _, _. split; [done|].
  assert (∀ p, mailbox_open (mkBroker (subs (pubsub (s_db s))) (<[sub := enqueue msg mb]> (mailboxes (pubsub (s_db s))))) p ↔
    mailbox_open (pubsub (s_db s)) p) as Hop.
  { intros p. unfold mailbox_open. cbn. rewrite lookup_insert. case_decide as Hd; [|done]. subst p. rewrite Hmb.
    split; intros (mb' & [= <-] & Hc); eexists; (split; [done|]); by rewrite ?enqueue_closed in *. }
  split; [|by split]. apply srv_ok_pubsub; [done|]. split; cbn; [|done..|].
  - intros ch x Hx. apply Hop. by apply (Ho ch).
  - intros x mb'. rewrite lookup_insert. case_decide; [intros [= <-]; by eapply enqueue_cap, Hcap|apply Hcap].
Qed.

Lemma offer_ok s frame p :
  srv_ok s → registered (s_replicas s) p →
  ∃ h, offer frame (rheap (s_replicas s)) p = Some h ∧
    let s' := with_replicas s (mkReplicas h (rnext (s_replicas s)) (reps (s_replicas s))) in
    srv_ok s' ∧ feeds_keep (s_replicas s) (s_replicas s') ∧
    ∀ q, is_Some (rheap (s_replicas s) !! q) → is_Some (h !! q).
Proof.
  intros Hs [id Hid]. pose proof (sv_reps _ Hs) as Hr. destruct (ro_live _ Hr _ _ Hid) as (rep & Hp & Hrid & Hcl).
  unfold offer. rewrite Hp, Hcl. destruct (_ <? _) eqn:Hroom; eexists; (split; [done|]); cbn.
  2:{ split_and!; [|by intros q|done]. split; [apply Hs| |apply Hs]. by destruct Hr; split. }
  apply Z.ltb_lt in Hroom. split_and!.
  - split; [apply Hs| |apply Hs]. split; cbn.
    + intros id' q Hq. destruct (ro_live _ Hr _ _ Hq) as (rep' & Hq' & ? & ?). rewrite lookup_insert.
      case_decide; [|eauto]. subst q. rewrite Hp in Hq'. injection Hq' as <-. eexists. by split_and!.
    + intros q rep'. rewrite lookup_insert. case_decide; [|apply Hr]. intros [= <-]. cbn.
      autorewrite with go_len. lia.
  - intros q (rep' & Hq & Hc). unfold feed_open. cbn. rewrite lookup_insert. case_decide; [by eexists|eauto].
  - intros q Hq. rewrite lookup_insert. by case_decide.
Qed.

(** The next section of a closing connection. *)
Lemma section_ok fs c cs x l views v :
  sys_ok (mkSys (f_server fs) views) → views !! c = Some v → closing (x :: l) v →
  f_tasks fs !! Conn c = Some (Closing (x :: l)) → f_conns fs !! c = Some cs →
  task_ok (f_server fs) (Conn c) (Closing (x :: l)) → enabled fs (Conn c) (Closing (x :: l)) →
  ∃ s' v', run_section x (f_server fs) = Some s' ∧ serve_post (f_server fs) v s' v' ∧ closing l v' ∧
    tasks_keep (f_server fs) s' (f_tasks fs) ∧ task_ok s' (Conn c) (Closing l).
Proof.
  intros Hv Hvc Hcl Hw Hcs [_ Hh] [Hbus Hreg]. pose proof (sk_srv _ Hv) as Hs. pose proof (sk_conn _ Hv _ _ Hvc) as Hc.
  cbn in Hs, Hc. assert (∀ s, match l with Hang _ :: _ => False | _ => True end → task_ok s (Conn c) (Closing l)) as Htail.
  { intros s Hl. split; [by exists c|]. by destruct l as [|[] l]. }
  inversion Hcl as [|sub remote|sub ch l' chs remote Hcl' Hch|p l' sub chs remote Hcl'|p l' v' Hcl']; subst; cbn [run_section].
  - destruct (post_shut _ _ _ Hs Hc) as (b & -> & Hsub & Hp). eexists _, _. split; [done|].
    split; [done|]. split; [apply closing_done|]. split; [by apply tasks_keep_same|exact (Htail _ I)].
  - eexists _, _. split; [done|]. split; [by apply (post_unsubscribe _ _ sub ch Hs Hc)|]. split; [|split].
    + cbn. replace (({[ch]} ∪ chs) ∖ {[ch]}) with chs by set_solver. done.
    + split; cbn; [|by left|done]. right. by apply (Hbus c cs).
    + apply Htail. by inversion Hcl'.
  - destruct (post_hang _ _ _ _ _ Hs Hc) as (r & -> & Hr & Hd & Hp); [apply Hh|]. eexists _, _. split; [done|].
    split; [done|]. split; [done|]. split; [split; [by left|by left|done]|]. apply Htail. by inversion Hcl'.
  - destruct (post_drop _ _ _ _ Hs Hc Hcl) as (r & -> & Hr & Hd & Hn & Hk & Hp). eexists _, _. split; [done|].
    split; [done|]. split; [done|]. split; [|split; [by exists c|done]]. split; cbn; [by left| |by rewrite Hr].
    right. split; [by apply Hreg|]. intros q _. apply Hk.
Qed.

Abbreviation goes_well r := (∃ fs' out, r = Some (fs', out) ∧ fsys_ok fs' ∧ Forall encodes out).

Lemma closing_step_ok wok (o : map_order) c l fs :
  fsys_ok fs → f_tasks fs !! Conn c = Some (Closing l) → enabled fs (Conn c) (Closing l) →
  goes_well (task_step wok o (Conn c) (Closing l) fs).
Proof.
  intros [(views & Hv & Hh) Ht] Hw Hen. pose proof (Hh c) as Hhc. rewrite Hw in Hhc. cbn in Hhc.
  destruct (f_conns fs !! c) as [cs|] eqn:Hcs, (views !! c) as [v|] eqn:Hvc; try done.
  destruct l as [|x l]; cbn [task_step].
  - eexists _, _. split; [done|]. split; [|constructor]. split; cbn.
    + exists (delete c views). split; [by apply (sys_ok_torn _ _ _ _ _ Hv Hvc (sk_srv _ Hv))|].
      intros c'. destruct (decide (c = c')) as [<-|Hne].
      * by rewrite !lookup_delete_eq, lookup_partial_alter_eq.
      * rewrite !lookup_delete_ne, lookup_partial_alter_ne by congruence. apply Hh.
    + eapply tasks_altered; [done|by apply tasks_keep_same|done].
  - destruct (section_ok fs c cs x l views v Hv Hvc Hhc Hw Hcs (Ht _ _ Hw) Hen) as (s' & v' & -> & Hp & Hcl & Hk & Hx).
    eexists _, _. split; [done|]. split; [|constructor].
    eapply (fsys_ok_conn_same fs c cs s' (Some (Closing l)) views v v'); try done. by intros y [= <-].
Qed.

Lemma joining_step_ok wok (o : map_order) c sub channels fs :
  fsys_ok fs → f_tasks fs !! Conn c = Some (Joining sub channels) → enabled fs (Conn c) (Joining sub channels) →
  goes_well (task_step wok o (Conn c) (Joining sub channels) fs).
Proof.
  intros [(views & Hv & Hh) Ht] Hw [Hen _]. pose proof (Hh c) as Hhc. rewrite Hw in Hhc. cbn in Hhc.
  destruct (f_conns fs !! c) as [cs|] eqn:Hcs, (views !! c) as [v|] eqn:Hvc; try done. destruct Hhc as [-> Hsub].
  pose proof (sk_srv _ Hv) as Hs. pose proof (sk_conn _ Hv _ _ Hvc) as Hc. cbn in Hs, Hc.
  destruct channels as [|ch channels]; cbn [task_step].
  - eexists _, _. split; [done|]. split; [|constructor].
    apply (fsys_ok_conn_same fs c cs (f_server fs) None views cs cs); try done;
      first [by apply serve_post_refl|by apply tasks_keep_same].
  - rewrite Hcs. case_bool_decide as Hin.
    + eapply answer_ok; [done..|by apply serve_post_refl|by apply tasks_keep_same|apply encodes_subscribeReply|done|].
      intros x [= <-]. by exists c.
    + eapply answer_ok; [done..|by apply post_subscribe| |apply encodes_subscribeReply|done|].
      * split; cbn; [|by left|done]. right. by apply (Hen c cs).
      * intros x [= <-]. by exists c.
Qed.

Lemma parting_step_ok wok (o : map_order) c targets fs :
  fsys_ok fs → f_tasks fs !! Conn c = Some (Parting targets) → enabled fs (Conn c) (Parting targets) →
  goes_well (task_step wok o (Conn c) (Parting targets) fs).
Proof.
  intros [(views & Hv & Hh) Ht] Hw [Hen _]. pose proof (Hh c) as Hhc. rewrite Hw in Hhc. cbn in Hhc.
  destruct (f_conns fs !! c) as [cs|] eqn:Hcs, (views !! c) as [v|] eqn:Hvc; try done. cbn in Hhc. subst v.
  pose proof (sk_srv _ Hv) as Hs. pose proof (sk_conn _ Hv _ _ Hvc) as Hc. cbn in Hs, Hc.
  destruct targets as [|ch targets]; cbn [task_step].
  - eexists _, _. split; [done|]. split; [|constructor].
    apply (fsys_ok_conn_same fs c cs (f_server fs) None views cs cs); try done;
      first [by apply serve_post_refl|by apply tasks_keep_same].
  - rewrite Hcs. case_bool_decide as Hin.
    + destruct (cs_sub cs) as [sub|] eqn:Hsub; [|rewrite (co_none _ _ Hc Hsub) in Hin; set_solver]. rewrite <-Hsub.
      eapply answer_ok; [done..|by apply post_unsubscribe| |apply encodes_subscribeReply|done|].
      * split; cbn; [|by left|done]. right. by apply (Hen c cs).
      * intros x [= <-]. by exists c.
    + eapply answer_ok; [done..|by apply serve_post_refl|by apply tasks_keep_same|apply encodes_subscribeReply|done|].
      intros x [= <-]. by exists c.
Qed.

Lemma sending_step_ok wok (o : map_order) w t fs :
  fsys_ok fs → f_tasks fs !! w = Some t → sending t → goes_well (task_step wok o w t fs).
Proof.
  intros Hok Hw Hst. pose proof Hok as [(views & Hv & Hh) Ht]. pose proof (sk_srv _ Hv) as Hs. cbn in Hs.
  pose proof (Ht _ _ Hw) as Htw. destruct t as [| |msg [|sub rest] n|cmd reply|frame [|p rest] reply|]; try done;
    cbn [task_step] in *.
  - by eapply finish_ok.
  - destruct (send_ok (f_server fs) msg sub Hs) as (mbs & d & -> & Hs' & Hb); [apply Htw; set_solver|].
    eexists _, _. split; [done|]. split; [|constructor].
    eapply fsys_ok_sending; [done..|by intros x [= <-]|done|done|apply feeds_keep_refl|by apply tasks_keep_same|].
    intros x [= <-] y Hy. apply Htw. set_solver.
  - destruct (Propagate_start _ _ _) as [[frame rest]|] eqn:E; [|by eapply finish_ok].
    eexists _, _. split; [done|]. split; [|constructor].
    assert (∀ p, p ∈ rest → registered (s_replicas (f_server fs)) p) as Hrest.
    { unfold Propagate_start in E. destruct (Encode cmd) as [f [e|]]; [done|]. injection E as <- <-.
      intros p. by rewrite elem_of_feeds. }
    destruct fs as [s conns ts].
    apply (fsys_ok_sending (mkFSys s conns ts) w (Recording cmd reply) s (Some (Shipping frame rest reply))); try done.
    + by intros x [= <-].
    + apply feeds_keep_refl.
    + by apply tasks_keep_same.
    + by intros x [= <-].
  - eapply finish_ok; [done..|apply Htw].
  - destruct Htw as [Hreg Henc]. destruct (offer_ok (f_server fs) frame p Hs) as (h & -> & Hs' & Hf & Hd);
      [apply Hreg; set_solver|].
    eexists _, _. split; [done|]. split; [|constructor].
    eapply fsys_ok_sending; [done..|by intros x [= <-]|done|apply broker_keeps_refl|done|split; [by left|by left|done]|].
    intros x [= <-]. split; [|done]. intros q Hq. apply Hreg. set_solver.
Qed.

Lemma task_step_ok wok (o : map_order) w t fs :
  fsys_ok fs → f_tasks fs !! w = Some t → enabled fs w t → goes_well (task_step wok o w t fs).
Proof.
  intros Hok Hw Hen. pose proof (fk_tasks _ Hok _ _ Hw) as Ht.
  destruct t; [destruct Ht as [c ->]|destruct Ht as [c ->]|..|destruct Ht as [[c ->] _]].
  - by apply joining_step_ok.
  - by apply parting_step_ok.
  - by apply sending_step_ok.
  - by apply sending_step_ok.
  - by apply sending_step_ok.
  - by apply closing_step_ok.
Qed.

(** A connection that waits for a request. *)
Lemma holds_idle fs (views : gmap nat connState) c cs :
  (∀ c, holds (f_conns fs !! c) (f_tasks fs !! Conn c) (views !! c)) →
  f_conns fs !! c = Some cs → f_tasks fs !! Conn c = None → views !! c = Some cs.
Proof.
  intros Hh Hcs Hw. specialize (Hh c). rewrite Hcs, Hw in Hh. destruct (views !! c); [|done]. by cbn in Hh; subst.
Qed.

Lemma request_step_ok fs c cs e wok (o : map_order) request :
  fsys_ok fs → f_conns fs !! c = Some cs → f_tasks fs !! Conn c = None →
  (ToUpper (commandName request) = B "REPLICAOF" → registry_free (f_tasks fs)) →
  goes_well (request_step e wok o c cs request fs).
Proof.
  intros [(views & Hv & Hh) Ht] Hcs Hw Hreg. pose proof (holds_idle _ _ _ _ Hh Hcs Hw) as Hvc.
  unfold request_step. destruct (serve_start_ok e wok (f_server fs) cs c (f_tasks fs) request) as (st & -> & Hst);
    [apply Hv|by apply (sk_conn _ Hv c)|done|].
  destruct st as [[[[s' cs'] out] []]|s' cs' t].
  - destruct Hst as (Hp & Ho & Hk). eexists _, _. split; [done|]. split; [|done].
    pose proof (fsys_ok_conn fs c cs s' cs' None views cs cs') as Hf.
    change (partial_alter (λ _ : option task, None) (Conn c) (f_tasks fs)) with (delete (Conn c) (f_tasks fs)) in Hf.
    rewrite delete_id in Hf by done. by apply Hf.
  - destruct Hst as (Hp & Ho & Hk). eexists _, _. split; [done|]. split; [|done].
    eapply (fsys_ok_conn fs c cs s' cs' (Some _) views cs cs'); try done.
    + destruct Hp as (_ & Hc' & _). by eapply closing_deferred.
    + intros x [= <-]. apply deferred_ok.
  - destruct Hst as (Hp & Hk & Hho & Hx). eexists _, _. split; [done|]. split; [|constructor].
    eapply (fsys_ok_conn fs c cs s' cs' (Some t) views cs cs'); try done. by intros x [= <-].
Qed.

(** A background task that begins. *)
Lemma begin_ok fs w t :
  fsys_ok fs → (∀ c, w ≠ Conn c) → task_ok (f_server fs) w t → fsys_ok (set_task w (Some t) fs).
Proof.
  intros [(views & Hv & Hh) Ht] Hw Hx. split; cbn.
  - exists views. split; [done|]. intros c. rewrite lookup_partial_alter_ne by done. apply Hh.
  - eapply tasks_altered; [done|by apply tasks_keep_same|]. by intros x [= <-].
Qed.

Lemma streamed_step_ok fs clk (o : map_order) cmd : fsys_ok fs → goes_well (streamed_step clk o cmd fs).
Proof.
  intros Hok. pose proof Hok as [(views & Hv & _) _]. pose proof (sk_srv _ Hv) as Hs. cbn in Hs. unfold streamed_step.
  destruct (publish_of cmd) as [[ch payload]|].
  { eexists _, _. split; [done|]. split; [|constructor]. apply begin_ok; [done|done|by intros x]. }
  pose proof (Dispatch_sound clk o (s_db (f_server fs)) cmd (sv_db _ Hs)) as (Hdb & v & Hr & _).
  pose proof (Dispatch_bus clk o (s_db (f_server fs)) cmd (sv_db _ Hs)) as Hbus.
  destruct (Dispatch _ _ _ _) as [db reply]. cbn in Hr, Hdb, Hbus. subst reply.
  eexists _, _. split; [done|]. split; [|constructor].
  apply fsys_ok_server; [done|split; [done|apply Hs..]|done|apply feeds_keep_refl|].
  apply tasks_keep_same; [apply Hbus|done].
Qed.

(** The steps of the background goroutines that hold no lock of these. *)
Lemma fsys_ok_quiet fs s' :
  fsys_ok fs → srv_ok s' → pubsub (s_db s') = pubsub (s_db (f_server fs)) → s_replicas s' = s_replicas (f_server fs) →
  fsys_ok (set_server s' fs).
Proof.
  intros Hok Hs Hb Hr. apply fsys_ok_server; [done|done|rewrite Hb; apply broker_keeps_refl|rewrite Hr; apply feeds_keep_refl|].
  apply tasks_keep_same; [by rewrite Hb|done].
Qed.

Lemma encodes_message channel payload : encodes (messageReply channel payload).
Proof. apply encodes_array. repeat (apply Forall_cons; split); try done; by destruct payload. Qed.

Lemma fstep_ok fs r : fsys_ok fs → fstep fs r → goes_well r.
Proof.
  intros Hok Hst. pose proof Hok as [(views & Hv & Hh) Ht]. pose proof (sk_srv _ Hv) as Hs. cbn in Hs.
  destruct Hst as [fs c remote Hn|fs c cs e wok o request Hcs Hw Hreg|fs c cs o Hcs Hw|fs w t wok o Hw Hen|fs Hw
    |fs clk o cmd Hw|fs wok sub s' v more E|fs wok p s' frame more E|fs a sync_ok Ea Hti|fs inp
    |fs stat os now tw io Ha].
  - eexists _, _. split; [done|]. split; [|constructor]. pose proof (Hh c) as Hhc. rewrite Hn in Hhc.
    destruct (f_tasks fs !! Conn c) eqn:Hw, (views !! c) eqn:Hvc; try done. split; cbn; [|done].
    exists (<[c := new_conn remote]> views).
    split; [by eapply acts_ok; [apply (step_accept (f_server fs) views c remote)|]|].
    intros c'. destruct (decide (c = c')) as [<-|Hne]; [by rewrite !lookup_insert_eq, Hw|].
    rewrite !lookup_insert_ne by done. apply Hh.
  - by apply request_step_ok.
  - eexists _, _. split; [done|]. split; [|constructor]. pose proof (holds_idle _ _ _ _ Hh Hcs Hw) as Hvc.
    pose proof (sk_conn _ Hv _ _ Hvc) as Hc.
    apply (fsys_ok_conn_same fs c cs (f_server fs) (Some (Closing (deferred o cs))) views cs cs); try done.
    + by eapply closing_deferred.
    + by apply tasks_keep_same.
    + intros x [= <-]. apply deferred_ok.
  - by apply task_step_ok.
  - eexists _, _. split; [done|]. split; [|constructor]. by apply begin_ok.
  - by apply streamed_step_ok.
  - unfold deliver_step in E. destruct (Receive _ sub) as [[m b]|] eqn:E1; [|done]. injection E as <- <- _.
    destruct (Receive_ok _ _ _ _ (ok_pubsub _ (sv_db _ Hs)) E1) as [Hb Hsub].
    eexists _, _. split; [done|]. split; [|apply Forall_singleton, encodes_message].
    apply fsys_ok_server; [done|by apply srv_ok_pubsub|by eapply Receive_keeps|apply feeds_keep_refl|by apply tasks_keep_same].
  - unfold deliverReplica_step in E. pose proof (Feed_receive_spec (s_replicas (f_server fs)) p (sv_reps _ Hs)) as Hf.
    destruct (Feed_receive _ p) as [[f1 r]|] eqn:E1; [|done]. injection E as <- _ _.
    eexists _, _. split; [done|]. split; [|constructor].
    apply fsys_ok_server; [done|split; [apply Hs|apply Hf|apply Hs]|apply broker_keeps_refl|by eapply Feed_receive_keeps|].
    unfold Feed_receive in E1. destruct (rheap _ !! p) as [[id ad [|f2 q] cl ack]|] eqn:Ep; try done. injection E1 as <- <-.
    split; cbn; [by left..|]. intros x Hx. rewrite lookup_insert. by case_decide.
  - eexists _, _. split; [done|]. split; [|constructor]. apply fsys_ok_quiet; [done| |done|done].
    split; [apply Hs..|]. intros a1. cbn [with_log s_aof]. intros [= <-]. by apply Hs.
  - eexists _, _. split; [done|]. split; [|constructor].
    pose proof (activeExpiryPass_spec inp (s_db (f_server fs)) (sv_db _ Hs)) as Hx.
    assert (pubsub (activeExpiryPass inp (s_db (f_server fs))).1 = pubsub (s_db (f_server fs))) as Hp
      by (unfold activeExpiryPass; by repeat case_match).
    destruct (activeExpiryPass inp _) as [db' again]. cbn in *.
    apply fsys_ok_quiet; [done|split; [apply Hx|apply Hs..]|done|done].
  - destruct (autoRewrite_tick_total stat os now tw io _ Hs Ha) as [[s' ok] E]. rewrite E.
    eexists _, _. split; [done|]. split; [|constructor].
    destruct (autoRewrite_tick_frame _ _ _ _ _ _ _ _ Hs E) as (Hs' & E1 & E2). apply fsys_ok_quiet; [done..| |done]. by rewrite E1.
Qed.

Lemma moves_ok fs fs' : rtc moves fs fs' → fsys_ok fs → fsys_ok fs'.
Proof.
  induction 1 as [|fs fs1 fs' [out Hst] _ IH]; [done|]. intros Hok. apply IH.
  destruct (fstep_ok _ _ Hok Hst) as (fs2 & out2 & [= <- <-] & Hok2 & _). done.
Qed.

Lemma start_fsys_ok s : sys_ok (mkSys s ∅) → fsys_ok (mkFSys s ∅ ∅).
Proof. intros Hs. split; cbn; [|intros w t; by rewrite lookup_empty]. exists ∅. split; [done|]. intros c. by rewrite !lookup_empty. Qed.

(** Some goroutine in the middle of something can always go on: the locks
    cannot deadlock. *)
Lemma tasks_progress fs : f_tasks fs ≠ ∅ → ∃ w t, f_tasks fs !! w = Some t ∧ enabled fs w t.
Proof.
  intros Hne. destruct (decide (map_Exists (λ _ t, sending t) (f_tasks fs))) as [(w & t & Hw & Hst)|Hno].
  - exists w, t. split; [done|]. split; [intros c cs _ _ Hl|intros Hl]; by destruct t.
  - destruct (map_choose _ Hne) as (w & t & Hw). exists w, t. split; [done|].
    assert (∀ w t, f_tasks fs !! w = Some t → ¬ sending t) as Hns by (intros w' t' Hw' Hs; apply Hno; by exists w', t').
    split; [intros c cs _ _ _ w' msg rest n Hw'|intros _ w' frame rest v Hw']; by apply Hns in Hw'.
Qed.

(** ** A request and a teardown without interruption

    Left alone, the steps of a request are what [serve] computes, and the
    sections of the deferred calls what [teardown] computes. *)

Lemma move_task fs w t wok (o : map_order) fs' out :
  f_tasks fs !! w = Some t → enabled fs w t → task_step wok o w t fs = Some (fs', out) → moves fs fs'.
Proof. intros Hw Hen E. exists out. rewrite <-E. by apply F_task. Qed.

Lemma enabled_free s conns ts w t t' :
  bus_free ts → registry_free ts → ¬ sending t' → enabled (mkFSys s conns (<[w := t']> ts)) w t.
Proof.
  intros Hb Hr Hs. split; cbn; intros; intros ? * E; apply lookup_insert_Some in E as [[_ E]|[_ E]];
    (by subst t') || (by apply Hb in E) || by apply Hr in E.
Qed.

Lemma enabled_sending fs w t : sending t → enabled fs w t.
Proof. intros Hs. split; [intros c cs _ _ Hl|intros Hl]; by destruct t. Qed.

Lemma set_again (ts : gmap worker task) w t t' :
  partial_alter (λ _, t') w (<[w := t]> ts) = match t' with Some x => <[w := x]> ts | None => delete w ts end.
Proof. rewrite partial_alter_insert_eq. by destruct t'. Qed.

Lemma joining_alone wok (o : map_order) c sub channels i s cs out conns ts s' cs' out' more :
  subscribe_loop wok i s cs sub channels out = (s', cs', out', more) →
  conns !! c = Some cs → bus_free ts → registry_free ts →
  rtc moves (mkFSys s conns (<[Conn c := Joining sub channels]> ts))
    (mkFSys s' (<[c := cs']> conns) (if more then delete (Conn c) ts else <[Conn c := Closing (deferred o cs')]> ts)).
Proof.
  revert i s cs out conns. induction channels as [|ch channels IH]; intros i s cs out conns E Hc Hb Hr; cbn in E.
  { injection E as <- <- <- <-. apply rtc_once. rewrite (insert_id conns) by done.
    eapply (move_task _ (Conn c) _ true o); [apply lookup_insert_eq|apply enabled_free; [done|done|by intros []]|].
    cbn. unfold set_task. cbn. by rewrite set_again. }
  destruct (if bool_decide _ then _ else _) as [s1 cs1] eqn:E1. eapply rtc_l.
  { eapply (move_task _ (Conn c) _ (wok i) o); [apply lookup_insert_eq|apply enabled_free; [done|done|by intros []]|].
    cbn. rewrite Hc, E1. unfold answer. cbn. rewrite set_again. reflexivity. }
  cbn in E |- *. destruct (write_ok (wok i) _).
  - eapply (IH (S i) s1 cs1 _ (<[c := cs1]> conns)) in E; [|apply lookup_insert_eq|done..]. by rewrite insert_insert_eq in E.
  - by injection E as <- <- <- <-.
Qed.

Lemma parting_alone wok (o : map_order) c targets i s cs out conns ts s' cs' out' more :
  unsubscribe_loop wok i s cs targets out = Some (s', cs', out', more) →
  conns !! c = Some cs → bus_free ts → registry_free ts →
  rtc moves (mkFSys s conns (<[Conn c := Parting targets]> ts))
    (mkFSys s' (<[c := cs']> conns) (if more then delete (Conn c) ts else <[Conn c := Closing (deferred o cs')]> ts)).
Proof.
  revert i s cs out conns. induction targets as [|ch targets IH]; intros i s cs out conns E Hc Hb Hr.
  { injection E as <- <- <- <-. apply rtc_once. rewrite (insert_id conns) by done.
    eapply (move_task _ (Conn c) _ true o); [apply lookup_insert_eq|apply enabled_free; [done|done|by intros []]|].
    cbn. unfold set_task. cbn. by rewrite set_again. }
  assert (∀ s1 cs1,
    task_step (wok i) o (Conn c) (Parting (ch :: targets)) (mkFSys s conns (<[Conn c := Parting (ch :: targets)]> ts))
    = answer (wok i) o c s1 cs1 (subscribeReply (B "unsubscribe") ch (Z.of_nat (size (cs_channels cs1))))
        (Some (Parting targets)) (mkFSys s conns (<[Conn c := Parting (ch :: targets)]> ts)) →
    (let v := subscribeReply (B "unsubscribe") ch (Z.of_nat (size (cs_channels cs1))) in
     if write_ok (wok i) v then unsubscribe_loop wok (S i) s1 cs1 targets (out ++ [v])
     else Some (s1, cs1, out ++ [v], false)) = Some (s', cs', out', more) →
    rtc moves (mkFSys s conns (<[Conn c := Parting (ch :: targets)]> ts))
      (mkFSys s' (<[c := cs']> conns) (if more then delete (Conn c) ts else <[Conn c := Closing (deferred o cs')]> ts))) as Hnext.
  { intros s1 cs1 Est E1. eapply rtc_l.
    { eapply move_task; [apply lookup_insert_eq|apply enabled_free; [done|done|by intros []]|]. rewrite Est. unfold answer. cbn.
      rewrite set_again. reflexivity. }
    cbn in E1 |- *. destruct (write_ok (wok i) _).
    - eapply (IH (S i) s1 cs1 _ (<[c := cs1]> conns)) in E1; [|apply lookup_insert_eq|done..]. by rewrite insert_insert_eq in E1.
    - by injection E1 as <- <- <- <-. }
  cbn [unsubscribe_loop] in E. cbn [task_step f_server f_conns] in Hnext. rewrite Hc in Hnext.
  destruct (bool_decide _); [destruct (cs_sub cs) as [sub|]; [|done]|]; by eapply Hnext.
Qed.

(** The two loops that send. *)
Lemma publishing_alone msg l n s conns ts w mbs' n' :
  publish_loop msg l (mailboxes (pubsub (s_db s))) n = Some (mbs', n') →
  rtc moves (mkFSys s conns (<[w := Publishing msg l n]> ts))
    (mkFSys (with_pubsub s (mkBroker (subs (pubsub (s_db s))) mbs')) conns (<[w := Publishing msg [] n']> ts)).
Proof.
  revert s n. induction l as [|x l IH]; intros s n E; cbn in E.
  { injection E as <- <-. by destruct s as [[? []] ? ? ? ? ? ?]. }
  destruct (send _ _ x) as [[mbs d]|] eqn:Es; [|done]. eapply rtc_l.
  { eapply (move_task _ w _ true order_id); [apply lookup_insert_eq|by apply enabled_sending|].
    cbn. rewrite Es. unfold set_task. cbn. rewrite set_again. reflexivity. }
  apply (IH (with_pubsub s (mkBroker (subs (pubsub (s_db s))) mbs))). exact E.
Qed.

Lemma shipping_alone frame l reply s conns ts w h :
  propagate_loop frame l (rheap (s_replicas s)) = Some h →
  rtc moves (mkFSys s conns (<[w := Shipping frame l reply]> ts))
    (mkFSys (with_replicas s (mkReplicas h (rnext (s_replicas s)) (reps (s_replicas s)))) conns
       (<[w := Shipping frame [] reply]> ts)).
Proof.
  revert s. induction l as [|x l IH]; intros s E; cbn in E.
  { injection E as <-. by destruct s as [? ? ? ? ? [] ?]. }
  destruct (offer _ _ x) as [h1|] eqn:Es; [|done]. eapply rtc_l.
  { eapply (move_task _ w _ true order_id); [apply lookup_insert_eq|by apply enabled_sending|].
    cbn. rewrite Es. unfold set_task. cbn. rewrite set_again. reflexivity. }
  apply (IH (with_replicas s (mkReplicas h1 (rnext (s_replicas s)) (reps (s_replicas s))))). exact E.
Qed.

(** The reply at the end of them. *)
Lemma finish_alone wok (o : map_order) c t v s conns ts cs :
  sending t → conns !! c = Some cs →
  (∀ fs, task_step wok o (Conn c) t fs = finish wok o (Conn c) v fs) →
  rtc moves (mkFSys s conns (<[Conn c := t]> ts))
    (mkFSys s conns (if write_ok wok v then delete (Conn c) ts else <[Conn c := Closing (deferred o cs)]> ts)).
Proof.
  intros Hst Hc Hf. apply rtc_once. eapply (move_task _ (Conn c) _ wok o); [apply lookup_insert_eq|by apply enabled_sending|].
  rewrite Hf. unfold finish. cbn. rewrite Hc. unfold answer. cbn. rewrite set_again, (insert_id conns) by done.
  by destruct (write_ok wok v).
Qed.

Section alone.
Context (o : map_order) (c : nat) (conns : gmap nat connState) (ts : gmap worker task).
Context (Hidle : ts !! Conn c = None) (Hbus : bus_free ts) (Hreg : registry_free ts).

(** After a request: the connection waits, or closes. *)
Definition after (r : Server * connState * list Value * bool) : FSys :=
  let '(s, cs, _, more) := r in
  mkFSys s (<[c := cs]> conns) (if more then ts else <[Conn c := Closing (deferred o cs)]> ts).

Lemma request_alone e wok s cs request st :
  conns !! c = Some cs → serve_start e wok s cs request = Some st →
  moves (mkFSys s conns ts)
    match st with
    | Served r => after r
    | Started s1 cs1 t => mkFSys s1 (<[c := cs1]> conns) (<[Conn c := t]> ts)
    end.
Proof.
  intros Hc E.
  assert (fstep (mkFSys s conns ts) (request_step e wok o c cs request (mkFSys s conns ts))) as Hst by by apply F_request.
  unfold request_step in Hst. cbn [f_server] in Hst. rewrite E in Hst.
  destruct st as [[[[s1 cs1] out] more]|s1 cs1 t]; by eexists.
Qed.

Lemma subscribe_alone wok s cs channels r :
  conns !! c = Some cs → subscribe wok s cs channels = r →
  (∀ st, subscribe_start wok s cs channels = st → moves (mkFSys s conns ts)
    match st with
    | Served r => after r
    | Started s1 cs1 t => mkFSys s1 (<[c := cs1]> conns) (<[Conn c := t]> ts)
    end) → rtc moves (mkFSys s conns ts) (after r).
Proof.
  intros Hc <- Hm. specialize (Hm _ eq_refl). unfold subscribe, subscribe_start in *.
  destruct channels as [|ch channels]; [by apply rtc_once|].
  assert (∀ s1 cs1 sub,
    moves (mkFSys s conns ts) (mkFSys s1 (<[c := cs1]> conns) (<[Conn c := Joining sub (ch :: channels)]> ts)) →
    rtc moves (mkFSys s conns ts) (after (subscribe_loop wok 0 s1 cs1 sub (ch :: channels) []))) as Hj.
  { intros s1 cs1 sub Hm1. eapply rtc_l; [exact Hm1|].
    destruct (subscribe_loop wok 0 s1 cs1 sub (ch :: channels) []) as [[[s2 cs2] out] more] eqn:E.
    eapply (joining_alone wok o c _ _ _ _ _ _ (<[c := cs1]> conns) ts) in E; [|apply lookup_insert_eq|exact Hbus|exact Hreg].
    rewrite (insert_insert_eq conns), (delete_id ts (Conn c) Hidle) in E. exact E. }
  destruct (cs_sub cs) as [sub|]; [by apply Hj|].
  destruct (NewSubscriber _) as [sub b]. by apply Hj.
Qed.

Lemma unsubscribe_alone (o' : map_order) wok s cs channels r :
  conns !! c = Some cs → unsubscribe o' wok s cs channels = Some r →
  (∀ st, unsubscribe_start o' wok s cs channels = st → moves (mkFSys s conns ts)
    match st with
    | Served r => after r
    | Started s1 cs1 t => mkFSys s1 (<[c := cs1]> conns) (<[Conn c := t]> ts)
    end) → rtc moves (mkFSys s conns ts) (after r).
Proof.
  intros Hc E Hm. specialize (Hm _ eq_refl). unfold unsubscribe, unsubscribe_start in *. cbn zeta in *.
  destruct (match channels with [] => _ | _ => _ end) as [|ch targets].
  { injection E as <-. by apply rtc_once. }
  eapply rtc_l; [exact Hm|]. destruct r as [[[s2 cs2] out] more].
  eapply (parting_alone wok o c _ _ _ _ _ (<[c := cs]> conns) ts) in E; [|apply lookup_insert_eq|exact Hbus|exact Hreg].
  rewrite (insert_insert_eq conns), (delete_id ts (Conn c) Hidle) in E. exact E.
Qed.

Lemma Dispatch_publish clk (o' : map_order) db request ch payload :
  publish_of request = Some (ch, payload) →
  IsWrite (commandName request) = false ∧
  Dispatch clk o' db request =
    match Publish (pubsub db) ch payload with
    | Some (b, n) => (mkDB (shards db) b, Some (integerValue n))
    | None => (db, None)
    end.
Proof.
  unfold publish_of, Dispatch, commandName, IsWrite.
  destruct (vArray request) as [[|f [|a [|p [|? ?]]]]|]; try done. destruct (byte_eqb _ _); [|done]. cbn [andb negb].
  case_bool_decide as Hn; [|done]. intros [= <- <-]. rewrite Hn. split; [vm_compute; reflexivity|done].
Qed.

Lemma apply_alone e wok s cs request r :
  conns !! c = Some cs →
  match apply e s request with
  | None => None
  | Some (s', reply, _) => Some (reply_one wok s' cs reply)
  end = Some r →
  (∀ st, apply_start e wok s cs request = Some st → moves (mkFSys s conns ts)
    match st with
    | Served r => after r
    | Started s1 cs1 t => mkFSys s1 (<[c := cs1]> conns) (<[Conn c := t]> ts)
    end) → rtc moves (mkFSys s conns ts) (after r).
Proof.
  intros Hc E Hm. unfold apply, applyRecord, apply_start in *.
  destruct (publish_of request) as [[ch payload]|] eqn:Hpub.
  - destruct (Dispatch_publish (e_clk e) (e_ord e) (s_db s) request ch payload Hpub) as [Hw Hd].
    rewrite Hd, Hw in E. cbn [negb orb] in E. unfold Publish in E.
    destruct (publish_loop _ _ _ _) as [[mbs n]|] eqn:Ep; [|done]. injection E as <-.
    eapply rtc_l; [by apply Hm|]. cbv beta iota. rewrite (insert_id conns) by done.
    etrans; [by eapply publishing_alone|]. unfold after, reply_one. cbv beta iota.
    pose proof (finish_alone (wok 0%nat) o c (Publishing (mkMessage ch (cloneBytes payload)) [] n) (integerValue n)
      (with_pubsub s (mkBroker (subs (pubsub (s_db s))) mbs)) conns ts cs) as Hf.
    rewrite (delete_id ts) in Hf by done. rewrite (insert_id conns) by done. by apply Hf.
  - destruct (Dispatch _ _ _ _) as [db [reply|]]; [|done].
    destruct (_ || _); [injection E as <-; exact (rtc_once _ _ (Hm _ eq_refl))|].
    destruct (byte_eqb _ _); [injection E as <-; exact (rtc_once _ _ (Hm _ eq_refl))|].
    destruct (Propagate _ _ _) as [r'|] eqn:Ep; [|done]. injection E as <-.
    eapply rtc_l; [by apply Hm|]. cbv beta iota. rewrite (insert_id conns) by done. unfold after, reply_one. cbv beta iota.
    rewrite (insert_id conns) by done. set (s1 := append_log _ _ _) in *.
    unfold Propagate in Ep. destruct (Encode request) as [frame [err|]] eqn:Henc.
    + injection Ep as <-. replace (with_replicas s1 (s_replicas s1)) with s1 by (by destruct s1).
      pose proof (finish_alone (wok 0%nat) o c (Recording request reply) reply s1 conns ts cs) as Hf.
      rewrite (delete_id ts) in Hf by done. apply Hf; [done..|]. intros fs. cbn. unfold Propagate_start. by rewrite Henc.
    + destruct (propagate_loop _ _ _) as [h|] eqn:El; [|done]. injection Ep as <-. eapply rtc_l.
      { eapply (move_task _ (Conn c) _ true (e_feeds e)); [apply lookup_insert_eq|by apply enabled_sending|].
        cbn. unfold Propagate_start. rewrite Henc. unfold set_task. cbn. rewrite set_again. reflexivity. }
      etrans; [by eapply shipping_alone|].
      pose proof (finish_alone (wok 0%nat) o c (Shipping frame [] reply) reply
        (with_replicas s1 (mkReplicas h (rnext (s_replicas s1)) (reps (s_replicas s1)))) conns ts cs) as Hf.
      rewrite (delete_id ts) in Hf by done. by apply Hf.
Qed.

(** [serve] is one schedule of a request. *)
Lemma serve_alone e wok s cs request r :
  conns !! c = Some cs → serve e wok s cs request = Some r → rtc moves (mkFSys s conns ts) (after r).
Proof.
  intros Hc E. pose proof (λ st, request_alone e wok s cs request st Hc) as Hm. unfold serve_start in Hm. cbn zeta in Hm.
  rewrite E in Hm. cbn [fmap option_fmap option_map] in Hm. unfold serve in E. cbn zeta in E.
  destruct (_ && negb (allowedWhileSubscribed _)); [injection E as <-; apply rtc_once; by apply (Hm (Served _))|].
  destruct (bool_decide (_ = B "SUBSCRIBE")).
  { injection E as E. eapply subscribe_alone; [done..|]. intros st <-. by apply Hm. }
  destruct (bool_decide (_ = B "UNSUBSCRIBE")).
  { eapply unsubscribe_alone; [done..|]. intros st <-. by apply Hm. }
  destruct (bool_decide (_ ∈ _) || _) eqn:Hor; [apply rtc_once; by apply (Hm (Served r))|].
  apply orb_false_iff in Hor as [Hn%bool_decide_eq_false Hro].
  rewrite !bool_decide_eq_false_2, Hro in E by set_solver. by eapply apply_alone.
Qed.

(** The sections of the deferred calls, run one after the other. *)
Fixpoint run_sections (l : list lock_section) (s : Server) : option Server :=
  match l with [] => Some s | x :: l' => s' ← run_section x s; run_sections l' s' end.

Lemma run_sections_app l1 l2 s : run_sections (l1 ++ l2) s = s' ← run_sections l1 s; run_sections l2 s'.
Proof. revert s. induction l1 as [|x l1 IH]; intros s; [done|]. cbn. destruct (run_section x s); [apply IH|done]. Qed.

Lemma Remove_two_sections s p :
  run_sections (Remove_sections p) s = with_replicas s <$> Remove (s_replicas s) p.
Proof.
  unfold Remove_sections, Remove. cbn. unfold Remove_locked. destruct (rheap (s_replicas s) !! p) as [rep|] eqn:E; [|done].
  cbn. unfold Remove_close. cbn. rewrite E. by destruct (r_closed rep).
Qed.

Lemma leave_sections sub l s :
  run_sections (map (Leave sub) l) s
  = Some (with_pubsub s (foldl (λ b channel, Unsubscribe b channel sub) (pubsub (s_db s)) l)).
Proof. revert s. induction l as [|ch l IH]; intros s; cbn; [by destruct s as [[] ? ? ? ? ? ?]|]. by rewrite IH. Qed.

Lemma teardown_sections s cs : run_sections (deferred o cs) s = teardown o s cs.
Proof.
  unfold deferred, teardown, removeReplica, removeReplica_sections. rewrite run_sections_app.
  assert (∀ s, run_sections (unsubscribeAll_sections o cs) s = unsubscribeAll o s cs) as Hu.
  { intros s1. unfold unsubscribeAll, unsubscribeAll_sections. destruct (cs_sub cs) as [sub|]; [|done].
    rewrite run_sections_app, leave_sections. cbn. by destruct (Close _ sub). }
  destruct (cs_replica cs) as [p|]; [|apply Hu]. rewrite Remove_two_sections.
  destruct (Remove _ p) as [r|]; [apply Hu|done].
Qed.

Lemma closing_alone l s s' cs (conns' : gmap nat connState) :
  conns' !! c = Some cs → run_sections l s = Some s' →
  rtc moves (mkFSys s conns' (<[Conn c := Closing l]> ts)) (mkFSys s' (delete c conns') ts).
Proof.
  intros Hc. revert s. induction l as [|x l IH]; intros s E; cbn in E.
  - injection E as <-. apply rtc_once.
    eapply (move_task _ (Conn c) _ true o); [apply lookup_insert_eq|apply enabled_free; [done|done|by intros []]|].
    cbn. unfold set_task. cbn. by rewrite set_again, (delete_id ts).
  - destruct (run_section x s) as [s1|] eqn:Ex; [|done]. eapply rtc_l; [|by apply IH].
    eapply (move_task _ (Conn c) _ true o); [apply lookup_insert_eq|apply enabled_free; [done|done|by intros []]|].
    cbn. rewrite Ex. unfold set_task. cbn. by rewrite set_again.
Qed.
End alone.

Lemma bus_free_empty : bus_free ∅.
Proof. intros w ???. by rewrite lookup_empty. Qed.

Lemma registry_free_empty : registry_free ∅.
Proof. intros w ???. by rewrite lookup_empty. Qed.

(** A background goroutine has nobody to reply to. *)
Lemma done_alone w t s conns ts :
  sending t → (∀ fs, task_step true order_id w t fs = Some (set_task w None fs, [])) → ts !! w = None →
  rtc moves (mkFSys s conns (<[w := t]> ts)) (mkFSys s conns ts).
Proof.
  intros Hst E Hw. apply rtc_once. eapply move_task; [apply lookup_insert_eq|by apply enabled_sending|].
  rewrite E. unfold set_task. cbn. by rewrite set_again, (delete_id ts).
Qed.

(** Every step of the coarse relation is a schedule of this one, so what
    holds of every schedule holds there too. *)
Definition fine (sy : Sys) : FSys := mkFSys (sy_server sy) (sy_conns sy) ∅.

Lemma coarse_step a sy sy' : sys_ok sy → acts a sy sy' → rtc moves (fine sy) (fine sy').
Proof.
  intros Hok Hst. pose proof (sk_srv _ Hok) as Hs.
  pose proof bus_free_empty as Hb. pose proof registry_free_empty as Hr.
  assert (∀ r, fstep (fine sy) r → ∀ fs out, r = Some (fs, out) → rtc moves (fine sy) fs) as Hone
    by (intros r Hm fs out ->; apply rtc_once; by exists out).
  unfold fine in *. destruct Hst as [s conns c remote Hn|s conns c cs e wok req s' cs' out Hcs E
    |s conns c cs e wok req s1 cs' out o s' Hcs E Ht|s conns c cs o s' Hcs Ht|s conns wok sub s' v more E
    |s conns wok p s' f more E|s conns a1 sync_ok Ea Hti|s conns o o' now s' warned E|s conns inp
    |s conns stat os now tw io s' ok E|s conns clk o cmd]; cbn [sy_server sy_conns] in *.
  - eapply Hone; [by apply (F_accept (mkFSys s conns ∅))|done].
  - exact (serve_alone order_id c conns ∅ eq_refl Hb Hr e wok s cs req _ Hcs E).
  - etrans; [exact (serve_alone o c conns ∅ eq_refl Hb Hr e wok s cs req _ Hcs E)|]. cbn.
    rewrite <-(delete_insert_eq conns c cs'). eapply (closing_alone o); [done..|apply lookup_insert_eq|].
    by rewrite teardown_sections.
  - etrans; [eapply Hone; [by eapply (F_hangup (mkFSys s conns ∅) c cs o)|done]|]. cbn.
    eapply (closing_alone o); [done..|]. by rewrite teardown_sections.
  - eapply Hone; [by eapply (F_deliver (mkFSys s conns ∅) wok sub)|done].
  - eapply Hone; [by eapply (F_ship (mkFSys s conns ∅) wok p)|done].
  - eapply Hone; [by eapply (F_fsync (mkFSys s conns ∅) a1 sync_ok)|done].
  - etrans; [eapply Hone; [by eapply (F_heartbeat (mkFSys s conns ∅))|done]|].
    change (set_task Heart (Some (Recording pingCommand okVal)) (mkFSys s conns ∅))
      with (mkFSys s conns (<[Heart := Recording pingCommand okVal]> ∅)).
    unfold runReplicaHeartbeat_tick, Heartbeat in E. destruct (Propagate o (s_replicas s) pingCommand) as [r|] eqn:Ep; [|done].
    injection E as <- _. unfold Propagate in Ep. destruct (Encode pingCommand) as [frame [|]] eqn:Henc; [done|].
    destruct (propagate_loop _ _ _) as [h|] eqn:El; [|done]. injection Ep as <-. eapply rtc_l.
    { eapply (move_task _ Heart _ true o); [apply lookup_insert_eq|by apply enabled_sending|].
      cbn [task_step f_server]. unfold Propagate_start. rewrite Henc. unfold set_task. cbn [f_server f_conns f_tasks].
      rewrite set_again. reflexivity. }
    etrans; [by eapply shipping_alone|]. by apply done_alone.
  - eapply Hone; [by apply (F_expire (mkFSys s conns ∅) inp)|done].
  - assert (is_Some (s_aof s)) as Ha by (unfold autoRewrite_tick in E; by destruct (s_aof s)).
    eapply Hone; [by apply (F_rewrite (mkFSys s conns ∅) stat os now tw io)|]. cbn. by rewrite E.
  - pose proof (F_stream (mkFSys s conns ∅) clk o cmd eq_refl) as Hm. unfold streamed_step in Hm. cbn [f_server] in Hm.
    destruct (publish_of cmd) as [[ch payload]|] eqn:Hp.
    + destruct (Dispatch_publish clk o (s_db s) cmd ch payload Hp) as [_ ->].
      destruct (Publish_spec (pubsub (s_db s)) ch payload (ok_pubsub _ (sv_db _ Hs))) as (mbs & E & _). rewrite E.
      unfold Publish in E. destruct (publish_loop _ _ _ _) as [[mbs1 n]|] eqn:El; [|done]. injection E as <- _.
      etrans; [eapply Hone; [exact Hm|done]|]. etrans; [by eapply publishing_alone|]. by apply done_alone.
    + pose proof (Dispatch_sound clk o (s_db s) cmd (sv_db _ Hs)) as (_ & v & Hv & _).
      destruct (Dispatch _ _ _ _) as [db reply]. cbn in Hv. subst reply. by eapply Hone.
Qed.
End locks.

(** * Properties *)

(** C9: nothing panics the server.  In every state reachable, from a start
    that loaded any log, by any interleaving of accepted connections,
    requests of any content (values, as decoded: the decoder's own panic on
    an announced length it cannot allocate comes before them), hang-ups,
    deliveries to subscribers and replicas, heartbeats, expiry passes, log
    rewrites and commands streamed from a primary, at the granularity of the
    bus's and the registry's locks: the store is well formed, no step that
    can happen next panics (in particular every single send of a publication
    or propagation in progress finds its mailbox or feed open, every close
    comes once), every frame written is one the encoder accepts, some
    goroutine that is in the middle of something can go on, and the shutdown
    succeeds. *)
Theorem server_never_panics `{GoUnicode} es w path mode primary f open_ok stat_ok s0 fs :
  Serve_start es (NewMulti w path mode primary) f open_ok stat_ok = Some s0 →
  rtc moves (mkFSys s0 ∅ ∅) fs →
  db_ok (s_db (f_server fs)) ∧
  (∀ r, fstep fs r → ∃ fs' out, r = Some (fs', out) ∧ Forall encodes out) ∧
  (f_tasks fs ≠ ∅ → ∃ w t, f_tasks fs !! w = Some t ∧ enabled fs w t) ∧
  (∀ accept sync close, is_Some (Serve_stop accept sync close (f_server fs))).
Proof.
  intros Hst Hr.
  pose proof (moves_ok _ _ Hr (start_fsys_ok _ (initial_ok _ _ _ _ _ _ _ _ _ Hst))) as Hok.
  pose proof Hok as [(views & Hv & _) _]. pose proof (sk_srv _ Hv) as Hs. cbn in Hs. split_and!.
  - apply Hs.
  - intros r Hstep. destruct (fstep_ok _ _ Hok Hstep) as (fs' & out & -> & _ & Ho). by eexists _, _.
  - apply tasks_progress.
  - intros. by apply Serve_stop_total.
Qed.

(** A mailbox closed while it is still registered: the next send to it
    panics.  The order of [unsubscribeAll] is what excludes it. *)
Example early_close_panics :
  let b := Subscribe (NewSubscriber NewBroker).2 (B "news") 0%nat in
  let s := with_pubsub (NewMulti empty_fs (B "aof") FsyncNo []) b in
  let sending_to := Publishing (mkMessage (B "news") (Some (B "hi"))) [0%nat] 0 in
  let fs := mkFSys s ∅ {[Stream := sending_to]} in
  (∃ fs' out, task_step true order_id Stream sending_to fs = Some (fs', out)) ∧
  ∃ s', run_section (Shut 0) s = Some s' ∧ task_step true order_id Stream sending_to (set_server s' fs) = None.
Proof. cbn zeta. split; [by eexists _, _|]. by eexists. Qed.

(** The only subscriber hangs up while a publication to it is in progress. *)
Lemma server_never_panics_witness :
  ∃ fs, f_tasks fs !! Conn 2 = Some (Publishing (mkMessage (B "news") (Some (B "hi"))) [0%nat] 0) ∧
    f_tasks fs !! Conn 1 = Some (Closing [Leave 0 (B "news"); Shut 0]) ∧
    (∀ r, @fstep plain_unicode fs r → ∃ fs' out, r = Some (fs', out) ∧ Forall encodes out) ∧
    is_Some (Serve_stop None true true (f_server fs)).
Proof.
  assert (∃ s cs out, @serve plain_unicode (quiet 0) (λ _, true) everysec_server
            (new_conn (B "10.0.0.9:1")) (request [B "SUBSCRIBE"; B "news"]) = Some (s, cs, out, true) ∧
            channel_subs (pubsub (s_db s)) (B "news") = [0%nat] ∧ s_primaryAddr s = [] ∧
            deferred order_id cs = [Leave 0 (B "news"); Shut 0])
    as (s & cs & out & E & Hsub & Hprim & Hdef) by (by eexists _, _, _).
  set (conns := <[2%nat := new_conn (B "10.0.0.9:2")]> (<[1%nat := new_conn (B "10.0.0.9:1")]> (∅ : gmap nat connState))).
  set (publishing := Publishing (mkMessage (B "news") (Some (B "hi"))) [0%nat] 0).
  set (fs := mkFSys s (<[1%nat := cs]> conns)
               (<[Conn 1 := Closing [Leave 0 (B "news"); Shut 0]]> (<[Conn 2 := publishing]> ∅))).
  destruct (@server_never_panics plain_unicode (λ _, quiet 0) empty_fs (B "aof") FsyncEverySec []
    Missing true true everysec_server fs) as (_ & Hstep & _ & Hstop); [reflexivity| |].
  { eapply rtc_l; [eexists; by apply (@F_accept plain_unicode _ 1 (B "10.0.0.9:1"))|]. cbn.
    eapply rtc_l; [eexists; by apply (@F_accept plain_unicode _ 2 (B "10.0.0.9:2"))|]. cbn.
    etrans; [eapply (@serve_alone plain_unicode order_id 1 conns ∅); [done|apply bus_free_empty|apply registry_free_empty|done|exact E]|].
    eapply rtc_l.
    { apply (@request_alone plain_unicode order_id 2 (<[1%nat := cs]> conns) ∅ (lookup_empty _) registry_free_empty (quiet 1) (λ _, true) s
        (new_conn (B "10.0.0.9:2")) (request [B "PUBLISH"; B "news"; B "hi"]) (Started s (new_conn (B "10.0.0.9:2")) publishing));
        [done|]. unfold serve_start, publishing. by rewrite Hprim, <-Hsub. }
    cbv beta iota. rewrite (insert_id (<[1%nat := cs]> conns)) by done.
    apply rtc_once. exists []. unfold fs. rewrite <-Hdef. by eapply (@F_hangup plain_unicode (mkFSys s _ _) 1 cs). }
  exists fs. split_and!; [done|done|exact Hstep|apply Hstop].
Defined.
