(* ===== verification/Leaks.v ===== *)
(** What clients leave behind: every open mailbox of the message bus belongs
    to a connection that is still there, so the bus forgets a client when it
    disconnects; and no queue of the server grows beyond its capacity. *)

From S2P Require Import Prelude GoLib Protocol ProtocolFacts PubSub Store Db Spec Refine Expiry Cmd.
From S2P Require Import CmdFacts Replay Aof AofFacts Snapshot Compaction Replication Server ServerFacts.

Abbreviation bus s := (pubsub (s_db s)).

(** Serving a connection opens no mailbox but the connection's own, which it
    keeps. *)
Definition opens_own (s : Server) (cs : connState) (s' : Server) (cs' : connState) : Prop :=
  (∀ sub, cs_sub cs = Some sub → cs_sub cs' = Some sub) ∧
  ∀ p, mailbox_open (bus s') p → mailbox_open (bus s) p ∨ cs_sub cs' = Some p.

Lemma opens_own_refl s s' cs cs' :
  cs_sub cs' = cs_sub cs → (∀ p, mailbox_open (bus s') p → mailbox_open (bus s) p) → opens_own s cs s' cs'.
Proof. intros E Hp. split; [congruence|]. intros p Ho. left. auto. Qed.

Lemma opens_own_trans s cs s1 cs1 s2 cs2 :
  opens_own s cs s1 cs1 → opens_own s1 cs1 s2 cs2 → opens_own s cs s2 cs2.
Proof.
  intros [A1 B1] [A2 B2]. split; [by intros; apply A2, A1|].
  intros p [Hp|?]%B2; [|by right]. destruct (B1 p Hp) as [?|?]; [by left|right; by apply A2].
Qed.

(** The result of a request. *)
Definition served_own (s : Server) (cs : connState) (r : Server * connState * list Value * bool) : Prop :=
  opens_own s cs r.1.1.1 r.1.1.2.

Lemma reply_own wok s cs v : served_own s cs (reply_one wok s cs v).
Proof. by apply opens_own_refl. Qed.

Lemma subscribe_loop_own wok i s cs sub channels out :
  served_own s cs (subscribe_loop wok i s cs sub channels out).
Proof.
  revert i s cs out. induction channels as [|c channels IH]; intros i s cs out; cbn [subscribe_loop].
  { by apply opens_own_refl. }
  case_bool_decide.
  - destruct (write_ok _ _); [apply IH|by apply opens_own_refl].
  - destruct (write_ok _ _); [|by apply opens_own_refl].
    eapply opens_own_trans; [|apply IH]. by apply opens_own_refl.
Qed.

Lemma subscribe_own wok s cs channels : served_own s cs (subscribe wok s cs channels).
Proof.
  unfold subscribe. destruct channels as [|c channels]; [apply reply_own|].
  destruct (cs_sub cs) as [sub|] eqn:E; [apply subscribe_loop_own|].
  destruct (NewSubscriber (bus s)) as [sub b] eqn:En.
  eapply opens_own_trans; [|apply subscribe_loop_own]. split; [by rewrite E|].
  unfold NewSubscriber in En. injection En as Es <-. intros p (mb & Hp & Hc). simpl in *.
  rewrite lookup_insert in Hp. case_decide; [right; congruence|left; by exists mb].
Qed.

Lemma unsubscribe_loop_own wok i s cs targets out r :
  unsubscribe_loop wok i s cs targets out = Some r → served_own s cs r.
Proof.
  revert i s cs out. induction targets as [|ch targets IH]; intros i s cs out E; cbn [unsubscribe_loop] in E.
  { simplify_eq. by apply opens_own_refl. }
  case_bool_decide; [destruct (cs_sub cs) as [sub|] eqn:Es; [|done]|];
    (destruct (write_ok _ _); [apply IH in E|simplify_eq; by apply opens_own_refl]); [|done].
  eapply opens_own_trans; [|exact E]. by apply opens_own_refl.
Qed.

Section with_unicode.
Context `{GoUnicode}.

Lemma serve_own e wok s cs request r :
  srv_ok s → serve e wok s cs request = Some r → served_own s cs r.
Proof.
  intros Hs. unfold serve, unsubscribe, replicaof. cbn zeta.
  destruct (_ && _); [intros [= <-]; apply reply_own|].
  case_bool_decide; [intros [= <-]; apply subscribe_own|].
  case_bool_decide.
  { destruct (match args_of request with [] => _ | _ => _ end); [intros [= <-]; apply reply_own|].
    apply unsubscribe_loop_own. }
  case_bool_decide.
  { destruct (negb _); [|destruct (Add _ _ _)]; intros [= <-]; by apply opens_own_refl. }
  case_bool_decide; [destruct (cs_replica cs); intros [= <-]; by apply opens_own_refl|].
  case_bool_decide; [intros [= <-]; by apply opens_own_refl|].
  destruct (_ && _); [intros [= <-]; apply reply_own|]. unfold apply.
  destruct (applyRecord_ok e s request (commandName request) Hs) as (s' & reply & -> & _ & _ & Hb & _).
  intros [= <-]. apply opens_own_refl; [done|]. intros p. apply Hb.
Qed.

(** Teardown closes the connection's mailbox and opens none. *)
Lemma teardown_own (o : map_order) s cs s' :
  teardown o s cs = Some s' →
  ∀ p, mailbox_open (bus s') p → mailbox_open (bus s) p ∧ cs_sub cs ≠ Some p.
Proof.
  unfold teardown. intros E. destruct (removeReplica s cs) as [s1|] eqn:E1; [|done].
  assert (s_db s1 = s_db s) as Hdb by (unfold removeReplica in E1; repeat case_match; by simplify_eq).
  unfold unsubscribeAll in E. destruct (cs_sub cs) as [sub|].
  2:{ simplify_eq. rewrite Hdb. by intros p Hp. }
  assert (∀ l b, mailboxes (foldl (λ b channel, Unsubscribe b channel sub) b l) = mailboxes b) as Hm.
  { induction l as [|ch l IH]; intros b; [done|]. simpl. by rewrite IH. }
  unfold Close in E. rewrite Hm, Hdb in E. destruct (mailboxes (bus s) !! sub) as [mb|] eqn:Eb; [|done].
  destruct (mclosed mb); [done|]. simplify_eq. intros p (mb' & Hp & Hc). simpl in Hp.
  rewrite lookup_insert in Hp. case_decide as Hd; [by simplify_eq|].
  split; [by exists mb'|congruence].
Qed.

(** * Ownership *)

Definition owned (sy : Sys) : Prop :=
  ∀ p, mailbox_open (bus (sy_server sy)) p →
    ∃ c cs, sy_conns sy !! c = Some cs ∧ cs_sub cs = Some p.

Lemma owned_keeps s conns s' :
  owned (mkSys s conns) → (∀ p, mailbox_open (bus s') p → mailbox_open (bus s) p) → owned (mkSys s' conns).
Proof. intros Ho Hk p Hp. apply Ho. by apply Hk. Qed.

Lemma owned_served s conns c cs s' cs' :
  owned (mkSys s conns) → conns !! c = Some cs → opens_own s cs s' cs' →
  owned (mkSys s' (<[c := cs']> conns)).
Proof.
  intros Ho Hc [Hk Hn] p Hp. simpl. destruct (Hn p Hp) as [Hp'|Hp'].
  - destruct (Ho p Hp') as (c2 & cs2 & H2 & Hs2). simpl in H2.
    destruct (decide (c2 = c)) as [->|Hne].
    + exists c, cs'. rewrite lookup_insert_eq. simplify_eq. by rewrite (Hk p).
    + exists c2, cs2. by rewrite lookup_insert_ne.
  - exists c, cs'. by rewrite lookup_insert_eq.
Qed.

Lemma owned_torn (o : map_order) s conns c cs s' :
  owned (mkSys s conns) → conns !! c = Some cs → teardown o s cs = Some s' →
  owned (mkSys s' (delete c conns)).
Proof.
  intros Ho Hc Ht p Hp. destruct (teardown_own _ _ _ _ Ht p Hp) as [Hp' Hne].
  destruct (Ho p Hp') as (c2 & cs2 & H2 & Hs2). exists c2, cs2. simpl in *.
  rewrite lookup_delete_ne; [done|congruence].
Qed.

Lemma acts_owned a sy sy' : acts a sy sy' → sys_ok sy → owned sy → owned sy'.
Proof.
  intros Hst Hok Ho. pose proof (sk_srv _ Hok) as Hs.
  destruct Hst as [s conns c remote Hn|s conns c cs e wok req s' cs' out Hcs E
    |s conns c cs e wok req s' cs' out o s'' Hcs E Ht|s conns c cs o s' Hcs Ht|s conns wok sub s' v more E
    |s conns wok p s' f more E|s conns a sync_ok Ea Hti|s conns o o' now s' warned E|s conns inp
    |s conns stat os now tw io s' ok E|s conns clk o cmd]; simpl in Hs.
  - intros p Hp. destruct (Ho p Hp) as (c2 & cs2 & H2 & Hs2). exists c2, cs2. simpl in *.
    rewrite lookup_insert_ne; [done|congruence].
  - eapply owned_served; [done..|]. exact (serve_own _ _ _ _ _ _ Hs E).
  - pose proof (owned_served _ _ _ _ _ _ Ho Hcs (serve_own _ _ _ _ _ _ Hs E)) as Ho1. simpl in Ho1.
    rewrite <-(delete_insert_eq conns c cs').
    eapply owned_torn; [exact Ho1|apply lookup_insert_eq|exact Ht].
  - by eapply owned_torn.
  - unfold deliver_step in E. destruct (Receive _ sub) as [[m b]|] eqn:E1; simplify_eq.
    eapply owned_keeps; [done|]. intros p. apply (Receive_keeps _ _ _ _ E1).
  - unfold deliverReplica_step in E. destruct (Feed_receive _ p) as [[f1 r]|]; simplify_eq.
    by eapply owned_keeps.
  - by eapply owned_keeps.
  - destruct (heartbeat_tick_ok o o' now s Hs) as (s1 & wd & E1 & _ & Hdb & _). rewrite E in E1. simplify_eq.
    eapply owned_keeps; [done|]. by rewrite Hdb.
  - eapply owned_keeps; [done|]. unfold activeExpiryPass. by repeat case_match.
  - destruct (autoRewrite_tick_frame _ _ _ _ _ _ _ _ Hs E) as (_ & E1 & _).
    eapply owned_keeps; [done|]. by rewrite E1.
  - eapply owned_keeps; [done|]. intros p. apply (Dispatch_bus clk o (s_db s) cmd). apply Hs.
Qed.

Lemma reachable_owned sy sy' : rtc step sy sy' → sys_ok sy → owned sy → owned sy'.
Proof.
  induction 1 as [|? ? ? [a Ha] _ IH]; [done|]. intros Hok Ho.
  apply IH; [by eapply acts_ok|by eapply acts_owned].
Qed.

(** Replaying a log starts from a bus with no subscriber, and publishing to
    nobody opens no mailbox. *)
Definition nobody (db : DB) : Prop := db_ok db ∧ ∀ p, ¬ mailbox_open (pubsub db) p.

Lemma nobody_dispatch clk (o : map_order) db cmd : nobody db → nobody (Dispatch clk o db cmd).1.
Proof.
  intros [Hok Hn]. split; [by apply Dispatch_sound|].
  intros p Hp. eapply Hn, (Dispatch_bus clk o db cmd Hok), Hp.
Qed.

Lemma nobody_new : nobody newDB.
Proof. split; [apply newDB_ok|]. by intros p (mb & Hp & _). Qed.

Lemma loadAOF_nobody es s f open_ok stat_ok s' :
  nobody (s_db s) → loadAOF es s f open_ok stat_ok = Some s' → nobody (s_db s').
Proof.
  intros Hn. unfold loadAOF.
  pose proof (Replay_inv (replay_dispatch es) (λ st, ∀ db, st.1 = Some db → nobody db) f
    (Some (s_db s), 0%nat)) as Hinv.
  destruct (Replay _ _ _) as [[[[db|] i] n] []]; try done. cbn [fst] in Hinv.
  unfold Open. destruct (negb open_ok); [done|]. destruct (open_create _ _) as [w j].
  intros [= <-]. apply Hinv; [|by intros ? [= <-]|done]. intros c [[db0|] k] Hst; [|done].
  pose proof (nobody_dispatch (e_clk (es k)) (e_ord (es k)) db0 c (Hst db0 eq_refl)) as Hd.
  simpl. destruct (Dispatch _ _ _ _) as [db1 [r|]]; [by intros ? [= <-]|done].
Qed.

Lemma initial_owned es w path mode primary f open_ok stat_ok s :
  Serve_start es (NewMulti w path mode primary) f open_ok stat_ok = Some s → owned (mkSys s ∅).
Proof.
  intros E. enough (nobody (s_db s)) as [_ Hn] by (intros p []%Hn). unfold Serve_start in E.
  case_bool_decide; [simplify_eq; apply nobody_new|eapply loadAOF_nobody; [|exact E]; apply nobody_new].
Qed.

Lemma reachable_start es w path mode primary f open_ok stat_ok s0 sy :
  Serve_start es (NewMulti w path mode primary) f open_ok stat_ok = Some s0 →
  rtc step (mkSys s0 ∅) sy → sys_ok sy ∧ owned sy.
Proof.
  intros Hst Hr. pose proof (initial_ok _ _ _ _ _ _ _ _ _ Hst) as Hok.
  split; [by eapply reachable_ok|]. by eapply reachable_owned; [..|eapply initial_owned].
Qed.
End with_unicode.

(** The clients connected to the system that hold mailbox [p], or are
    subscribed to [ch]. *)
Definition holds (sy : Sys) (p : nat) (cs : connState) : Prop :=
  ∃ c, sy_conns sy !! c = Some cs ∧ cs_sub cs = Some p.

Lemma registered_held sy ch p :
  sys_ok sy → owned sy →
  p ∈ channel_subs (bus (sy_server sy)) ch ↔ ∃ cs, holds sy p cs ∧ ch ∈ cs_channels cs.
Proof.
  intros Hok Ho. split.
  - intros Hp. destruct (ok_open _ (ok_pubsub _ (sv_db _ (sk_srv _ Hok))) _ _ Hp) as (mb & Hmb).
    destruct (Ho p) as (c & cs & Hc & Hs); [by exists mb|]. exists cs. split; [by exists c|].
    by apply (co_subs _ _ (sk_conn _ Hok _ _ Hc) p Hs).
  - intros (cs & (c & Hc & Hs) & Hch). by apply (co_subs _ _ (sk_conn _ Hok _ _ Hc) p Hs).
Qed.

(** C21: the message bus holds what the connected clients asked for and
    nothing else.  In every state the server can reach from any start, by
    any interleaving: a mailbox is open exactly when a connected client owns
    it, and one client only; a mailbox is registered on a channel exactly
    when its owner is subscribed to it; and the table has an entry for a
    channel exactly when some connected client is subscribed to it.  So a
    client that disconnects, subscribed to anything, leaves nothing behind. *)
Theorem bus_leak_free `{GoUnicode} es w path mode primary f open_ok stat_ok s0 sy :
  Serve_start es (NewMulti w path mode primary) f open_ok stat_ok = Some s0 →
  rtc step (mkSys s0 ∅) sy →
  let b := pubsub (s_db (sy_server sy)) in
  (∀ p, mailbox_open b p ↔ ∃ cs, holds sy p cs) ∧
  (∀ c1 c2 cs1 cs2 p, sy_conns sy !! c1 = Some cs1 → sy_conns sy !! c2 = Some cs2 →
     cs_sub cs1 = Some p → cs_sub cs2 = Some p → c1 = c2) ∧
  (∀ ch p, p ∈ channel_subs b ch ↔ ∃ cs, holds sy p cs ∧ ch ∈ cs_channels cs) ∧
  (∀ ch, is_Some (subs b !! ch) ↔ ∃ c cs, sy_conns sy !! c = Some cs ∧ ch ∈ cs_channels cs).
Proof.
  intros Hst Hr. destruct (reachable_start _ _ _ _ _ _ _ _ _ _ Hst Hr) as [Hok Ho]. cbn zeta.
  split_and!; [|..|intros; by apply registered_held|].
  - intros p. split; [intros (c & cs & Hp)%Ho; by exists cs, c|].
    intros (cs & c & Hc & Hs). by apply (co_open _ _ (sk_conn _ Hok _ _ Hc)).
  - intros c1 c2 cs1 cs2 p H1 H2 Hs1 Hs2. destruct (decide (c1 = c2)) as [|Hne]; [done|].
    by destruct (proj1 (sk_apart _ Hok _ _ _ _ H1 H2 Hne) p Hs1).
  - intros ch. split.
    + intros [l Hl]. destruct l as [|p l].
      { by destruct (ok_nonempty _ (ok_pubsub _ (sv_db _ (sk_srv _ Hok))) ch). }
      destruct (proj1 (registered_held sy ch p Hok Ho)) as (cs & (c & Hc & _) & Hch); [|by exists c, cs].
      unfold channel_subs. rewrite Hl. simpl. left.
    + intros (c & cs & Hc & Hch). destruct (cs_sub cs) as [p|] eqn:Es.
      2:{ rewrite (co_none _ _ (sk_conn _ Hok _ _ Hc) Es) in Hch. set_solver. }
      assert (p ∈ channel_subs (bus (sy_server sy)) ch) as Hp
        by (apply registered_held; [done..|]; exists cs; split; [by exists c|done]).
      unfold channel_subs in Hp. destruct (subs _ !! ch); [done|]. by apply not_elem_of_nil in Hp.
Qed.

(** A client that subscribed and hung up, and one that is still there. *)
Lemma bus_leak_free_witness :
  match @serve plain_unicode (quiet 0) (λ _, true) everysec_server (new_conn (B "10.0.0.9:1"))
          (request [B "SUBSCRIBE"; B "news"]) with
  | Some (s, cs, _, true) =>
      is_Some (subs (pubsub (s_db s)) !! B "news") ∧
      match teardown order_id s cs with
      | Some s' => ¬ is_Some (subs (pubsub (s_db s')) !! B "news") ∧
                   ∀ p, ¬ mailbox_open (pubsub (s_db s')) p
      | None => False
      end
  | _ => False
  end.
Proof.
  assert (∃ s cs out, @serve plain_unicode (quiet 0) (λ _, true) everysec_server
            (new_conn (B "10.0.0.9:1")) (request [B "SUBSCRIBE"; B "news"]) = Some (s, cs, out, true) ∧
            cs_channels cs = {[B "news"]} ∧ ∃ s', teardown order_id s cs = Some s')
    as (s & cs & out & E & Hch & s' & Et) by (eexists _, _, _; split; [reflexivity|split; [reflexivity|eexists; reflexivity]]).
  pose (conns := <[1%nat := cs]> (<[1%nat := new_conn (B "10.0.0.9:1")]> (∅ : gmap nat connState))).
  assert (rtc (@step plain_unicode) (mkSys everysec_server ∅) (mkSys s conns)) as Hr.
  { eapply rtc_l; [eexists; apply step_accept; reflexivity|]. apply rtc_once. eexists.
    eapply step_request; [apply lookup_insert_eq|exact E]. }
  destruct (@bus_leak_free plain_unicode (λ _, quiet 0) empty_fs (B "aof") FsyncEverySec []
    Missing true true everysec_server (mkSys s conns) eq_refl Hr) as (_ & _ & _ & H4).
  destruct (@bus_leak_free plain_unicode (λ _, quiet 0) empty_fs (B "aof") FsyncEverySec []
    Missing true true everysec_server (mkSys s' (delete 1%nat conns)) eq_refl) as (G1 & _ & _ & G4).
  { eapply rtc_r; [exact Hr|]. eexists. eapply step_hangup; [apply lookup_insert_eq|exact Et]. }
  assert (∀ c cs', delete 1%nat conns !! c = Some cs' → False) as Hnone.
  { intros c cs' [Hne Hc]%lookup_delete_Some. subst conns. by rewrite !lookup_insert_ne in Hc. }
  rewrite E, Et. split; [apply H4; exists 1%nat, cs; rewrite Hch; split; [apply lookup_insert_eq|by apply elem_of_singleton]|].
  split; [intros (c & cs' & Hc & _)%G4; by eapply Hnone|intros p (cs' & c & Hc & _)%G1; by eapply Hnone].
Defined.

(** No queue of the server grows without bound: whatever the clients,
    the primary and the background work do, in every state the server can
    reach, every mailbox of the bus, also one nobody reads, holds at most
    [subMailboxCap] messages, and every replica feed, also one of a replica
    that stopped reading, at most [replicaQueueCap] frames. *)
Theorem queues_bounded `{GoUnicode} es w path mode primary f open_ok stat_ok s0 sy :
  Serve_start es (NewMulti w path mode primary) f open_ok stat_ok = Some s0 →
  rtc step (mkSys s0 ∅) sy →
  (∀ p mb, mailboxes (pubsub (s_db (sy_server sy))) !! p = Some mb → zlen (mqueue mb) ≤ subMailboxCap) ∧
  (∀ p rep, rheap (s_replicas (sy_server sy)) !! p = Some rep → zlen (r_ch rep) ≤ replicaQueueCap).
Proof.
  intros Hst Hr. destruct (reachable_start _ _ _ _ _ _ _ _ _ _ Hst Hr) as [Hok _].
  destruct (sk_srv _ Hok) as [Hdb Hreps _]. split; [apply (ok_cap _ (ok_pubsub _ Hdb))|apply (ro_cap _ Hreps)].
Qed.

Lemma queues_bounded_witness :
  match @serve plain_unicode (quiet 0) (λ _, true) everysec_server (new_conn (B "10.0.0.9:1"))
          (request [B "SUBSCRIBE"; B "news"]) with
  | Some (s, cs, _, true) =>
      match mailboxes (pubsub (s_db s)) !! 0%nat with
      | Some mb => zlen (mqueue mb) ≤ subMailboxCap
      | None => False
      end
  | _ => False
  end.
Proof.
  assert (∃ s cs out mb, @serve plain_unicode (quiet 0) (λ _, true) everysec_server
            (new_conn (B "10.0.0.9:1")) (request [B "SUBSCRIBE"; B "news"]) = Some (s, cs, out, true) ∧
            mailboxes (pubsub (s_db s)) !! 0%nat = Some mb)
    as (s & cs & out & mb & E & Em) by (eexists _, _, _, _; split; reflexivity).
  destruct (@queues_bounded plain_unicode (λ _, quiet 0) empty_fs (B "aof") FsyncEverySec []
    Missing true true everysec_server (mkSys s (<[1%nat := cs]> (<[1%nat := new_conn (B "10.0.0.9:1")]> ∅))))
    as [Hq _].
  - reflexivity.
  - eapply rtc_l; [eexists; apply step_accept; reflexivity|]. apply rtc_once. eexists.
    eapply step_request; [apply lookup_insert_eq|exact E].
  - rewrite E, Em. by apply (Hq 0%nat).
Defined.
