(* ===== verification/Delivery.v ===== *)
(** From [PUBLISH] to the subscribers' sockets: what a client publishes is
    queued for the connected clients subscribed to the channel, and leaves
    each mailbox in the order it came in, whatever the rest of the server
    does in between. *)

From S2P Require Import Prelude Lts GoLib Protocol ProtocolFacts PubSub Store Db Spec Refine Expiry Cmd.
From S2P Require Import CmdFacts CmdSpec Replay Aof AofFacts Snapshot Compaction Replication Server ServerFacts Leaks.

(** * Mailboxes *)

(** The messages waiting in mailbox [p]. *)
Definition waiting (b : Broker) (p : nat) : list Message :=
  match mailboxes b !! p with Some mb => mqueue mb | None => [] end.

(** Nothing that waits is lost or overtaken. *)
Definition boxes_grow (b b' : Broker) : Prop := ∀ p, waiting b p `prefix_of` waiting b' p.

#[global] Instance boxes_grow_preorder : PreOrder boxes_grow.
Proof.
  split; [by intros b p|]. intros b1 b2 b3 H1 H2 p. etrans; [apply H1|apply H2].
Qed.

Lemma boxes_same b b' : mailboxes b' = mailboxes b → boxes_grow b b'.
Proof. intros E p. unfold waiting. by rewrite E. Qed.

Lemma NewSubscriber_grow b s b' : broker_ok b → NewSubscriber b = (s, b') → boxes_grow b b'.
Proof.
  intros Hok E p. destruct (NewSubscriber_ok b s b' Hok E) as (_ & Hs & Hm & _). unfold waiting. rewrite Hm, lookup_insert.
  case_decide as Hp; [|done]. subst p. by rewrite Hs.
Qed.

Lemma Close_grow b s b' : Close b s = Some b' → boxes_grow b b'.
Proof.
  unfold Close. destruct (mailboxes b !! s) as [mb|] eqn:E; [|done]. destruct (mclosed mb); [done|].
  intros [= <-] p. unfold waiting. simpl. rewrite lookup_insert. case_decide as Hp; [|done]. subst p. by rewrite E.
Qed.

(** A publish appends the message to the open mailboxes of the channel that
    have room, and to no other. *)
Lemma Publish_waiting b ch payload b' n p :
  broker_ok b → Publish b ch payload = Some (b', n) →
  waiting b' p = waiting b p ++
    if decide (p ∈ channel_subs b ch ∧ zlen (waiting b p) < subMailboxCap)
    then [mkMessage ch (cloneBytes payload)] else [].
Proof.
  intros Hok E. destruct (Publish_spec b ch payload Hok) as (mbs & E' & Hm & _). rewrite E in E'. simplify_eq.
  unfold waiting. simpl. rewrite Hm. destruct (decide (p ∈ channel_subs b ch)) as [Hp|Hp].
  2:{ rewrite decide_False by tauto. by rewrite app_nil_r. }
  destruct (ok_open _ Hok _ _ Hp) as (mb & Hmb & _). rewrite Hmb. simpl. unfold enqueue, has_room.
  destruct (Z.ltb_spec (zlen (mqueue mb)) subMailboxCap).
  - by rewrite decide_True.
  - rewrite decide_False by (intros [_ ?]; lia). by rewrite app_nil_r.
Qed.

Lemma Publish_grow b ch payload b' n : broker_ok b → Publish b ch payload = Some (b', n) → boxes_grow b b'.
Proof. intros Hok E p. rewrite (Publish_waiting _ _ _ _ _ _ Hok E). by eexists. Qed.

(** * Connections *)

Lemma subscribe_loop_boxes wok i s cs sub channels out :
  mailboxes (bus (subscribe_loop wok i s cs sub channels out).1.1.1) = mailboxes (bus s).
Proof.
  revert i s cs out. induction channels as [|c channels IH]; intros i s cs out; cbn [subscribe_loop]; [done|].
  case_bool_decide; (destruct (write_ok _ _); [by rewrite IH|done]).
Qed.

Lemma subscribe_grow wok s cs channels :
  broker_ok (bus s) → boxes_grow (bus s) (bus (subscribe wok s cs channels).1.1.1).
Proof.
  intros Hok. unfold subscribe. destruct channels as [|c channels]; [done|].
  destruct (cs_sub cs) as [sub|]; [apply boxes_same, subscribe_loop_boxes|].
  destruct (NewSubscriber (bus s)) as [sub b] eqn:E. etrans; [by eapply NewSubscriber_grow|].
  apply boxes_same. by rewrite subscribe_loop_boxes.
Qed.

Lemma unsubscribe_loop_boxes wok i s cs targets out r :
  unsubscribe_loop wok i s cs targets out = Some r → mailboxes (bus r.1.1.1) = mailboxes (bus s).
Proof.
  revert i s cs out. induction targets as [|ch targets IH]; intros i s cs out E; cbn [unsubscribe_loop] in E.
  { by simplify_eq. }
  case_bool_decide; [destruct (cs_sub cs) as [sub|]; [|done]|];
    (destruct (write_ok _ _); [apply IH in E; by rewrite E|by simplify_eq]).
Qed.

Lemma teardown_grow (o : map_order) s cs s' : teardown o s cs = Some s' → boxes_grow (bus s) (bus s').
Proof.
  unfold teardown. intros E. destruct (removeReplica s cs) as [s1|] eqn:E1; [|done].
  assert (s_db s1 = s_db s) as Hdb by (unfold removeReplica in E1; repeat case_match; by simplify_eq).
  unfold unsubscribeAll in E. destruct (cs_sub cs) as [sub|]; [|simplify_eq; by rewrite Hdb].
  assert (∀ l b, mailboxes (foldl (λ b channel, Unsubscribe b channel sub) b l) = mailboxes b) as Hm.
  { induction l as [|ch l IH]; intros b; [done|]. simpl. by rewrite IH. }
  destruct (Close _ sub) as [b|] eqn:Ec; simplify_eq. rewrite <-Hdb. etrans; [apply boxes_same, Hm|].
  by eapply Close_grow.
Qed.

Section delivery.
Context `{GoUnicode}.

Lemma Dispatch_grow clk (o : map_order) db req : db_ok db → boxes_grow (pubsub db) (pubsub (Dispatch clk o db req).1).
Proof.
  intros Hok. unfold Dispatch.
  destruct (vArray req) as [[|first args]|]; try done. destruct (negb _); [done|].
  destruct (assoc _ commands) as [f|] eqn:E; [|done].
  apply assoc_elem in E. pose proof commands_untouched as Hc. rewrite Forall_forall in Hc.
  destruct (Hc _ E) as [[= _ ->]|Hf]; [|by cbn in Hf; rewrite Hf].
  unfold cmd_Publish. repeat (case_match; simplify_eq/=; try done). eapply Publish_grow; [apply Hok|done].
Qed.

Lemma serve_grow e wok s cs request r :
  srv_ok s → serve e wok s cs request = Some r → boxes_grow (bus s) (bus r.1.1.1).
Proof.
  intros Hs. pose proof (ok_pubsub _ (sv_db _ Hs)) as Hb. unfold serve, unsubscribe, replicaof. cbn zeta.
  destruct (_ && _); [by intros [= <-]|].
  case_bool_decide; [intros [= <-]; by apply subscribe_grow|].
  case_bool_decide.
  { destruct (match args_of request with [] => _ | _ => _ end); [by intros [= <-]|].
    intros E. by apply boxes_same, (unsubscribe_loop_boxes _ _ _ _ _ _ _ E). }
  case_bool_decide.
  { destruct (negb _); [|destruct (Add _ _ _)]; by intros [= <-]. }
  case_bool_decide; [destruct (cs_replica cs); by intros [= <-]|].
  case_bool_decide; [by intros [= <-]|].
  destruct (_ && _); [by intros [= <-]|]. unfold apply.
  destruct (applyRecord_ok e s request (commandName request) Hs) as (s' & reply & -> & _ & _ & _ & _ & Hdb & _).
  intros [= <-]. cbn. rewrite Hdb. apply Dispatch_grow, Hs.
Qed.

(** * Runs of the server and the frames handed to the subscribers *)

(** The label is a message handed to the connection of a mailbox, and
    whether the write on its socket succeeded. *)
Inductive shown : Sys → option (nat * Value * bool) → Sys → Prop :=
  | shown_deliver s conns wok sub s' v more :
      deliver_step wok s sub = Some (s', v, more) →
      shown (mkSys s conns) (Some (sub, v, more)) (mkSys s' conns)
  | shown_ship s conns wok p s' frame more :
      deliverReplica_step wok s p = Some (s', frame, more) →
      shown (mkSys s conns) None (mkSys s' conns)
  | shown_act a sy sy' : a ≠ Delivery → acts a sy sy' → shown sy None sy'.

(** The messages handed to the connection of [p]. *)
Definition handed (p : nat) (tr : list (nat * Value * bool)) : list Value :=
  concat (map (λ l, if decide (l.1.1 = p) then [l.1.2] else []) tr).

Definition message_frame (m : Message) : Value := messageReply (Channel m) (Payload m).

Lemma shown_step sy l sy' : shown sy l sy' → step sy sy'.
Proof.
  intros [s conns wok sub s' v more E|s conns wok p s' frame more E|a ? ? _ Ha].
  - exists Delivery. by eapply step_deliver.
  - exists Delivery. by eapply step_ship.
  - by exists a.
Qed.

Lemma acts_grow a sy sy' :
  sys_ok sy → a ≠ Delivery → acts a sy sy' → boxes_grow (bus (sy_server sy)) (bus (sy_server sy')).
Proof.
  intros [Hs _ _] Ha Hst.
  destruct Hst as [s conns c remote Hc|s conns c cs e wok request s' cs' out Hc E
    |s conns c cs e wok request s' cs' out o s'' Hc E Et|s conns c cs o s' Hc Et|?|?|s conns a sync_ok Ha' Htk
    |s conns o o' now s' warned E|s conns inp|s conns stat os now tw io s' ok E|s conns clk o cmd]; simpl in *; try done.
  - by apply (serve_grow _ _ _ _ _ _ Hs E).
  - etrans; [apply (serve_grow _ _ _ _ _ _ Hs E)|by eapply teardown_grow].
  - by eapply teardown_grow.
  - destruct (heartbeat_tick_ok o o' now s Hs) as (s1 & w1 & E1 & _ & Hdb & _). rewrite E in E1. simplify_eq. by rewrite Hdb.
  - apply boxes_same. unfold activeExpiryPass. by repeat case_match.
  - destruct (autoRewrite_tick_frame _ _ _ _ _ _ _ _ Hs E) as (_ & -> & _). done.
  - apply Dispatch_grow, Hs.
Qed.

(** Mailboxes are first in, first out. *)
Lemma shown_fifo p sy tr sy' :
  sys_ok sy → runs shown sy tr sy' →
  ∃ later, map message_frame (waiting (bus (sy_server sy)) p ++ later) =
    handed p tr ++ map message_frame (waiting (bus (sy_server sy')) p).
Proof.
  intros Hok Hr.
  apply (runs_trace_invariant shown (λ tr sy', sys_ok sy' ∧ ∃ later,
    map message_frame (waiting (bus (sy_server sy)) p ++ later) =
    handed p tr ++ map message_frame (waiting (bus (sy_server sy')) p)) sy tr sy'); [|split; [done|by exists []; rewrite app_nil_r]|done].
  intros tr1 sy1 l sy2 (Hok1 & later & E) Hst. split.
  { eapply reachable_ok; [|exact Hok1]. by eapply rtc_once, shown_step. }
  unfold handed in *. rewrite map_app, concat_app.
  assert (∀ tl, waiting (bus (sy_server sy2)) p = waiting (bus (sy_server sy1)) p ++ tl → l = None →
    ∃ later, map message_frame (waiting (bus (sy_server sy)) p ++ later) =
      (concat (map (λ l : nat * Value * bool, if decide (l.1.1 = p) then [l.1.2] else []) tr1) ++
       concat (map (λ l : nat * Value * bool, if decide (l.1.1 = p) then [l.1.2] else []) (option_list l))) ++
      map message_frame (waiting (bus (sy_server sy2)) p)) as Hgrow.
  { intros tl Et ->. exists (later ++ tl). rewrite Et. simpl. rewrite app_nil_r, app_assoc, map_app, E, map_app. by rewrite app_assoc. }
  destruct Hst as [s conns wok sub s' v more Ed|s conns wok q s' frame more Ed|a ? ? Ha Hact].
  - exists later. rewrite E. simpl in *. clear Hgrow. unfold deliver_step, Receive in Ed.
    destruct (mailboxes (bus s) !! sub) as [[[|m q] cl]|] eqn:Eb; try done. simplify_eq. simpl.
    rewrite app_nil_r. unfold waiting. simpl. destruct (decide (sub = p)) as [->|Hne].
    + rewrite Eb, lookup_insert_eq. simpl. by rewrite <-app_assoc.
    + rewrite lookup_insert_ne by done. by rewrite app_nil_r.
  - eapply (Hgrow []); [|done]. unfold deliverReplica_step in Ed.
    destruct (Feed_receive _ _) as [[? ?]|]; simplify_eq. by rewrite app_nil_r.
  - destruct (acts_grow _ _ _ Hok1 Ha Hact p) as [tl Et]. by eapply Hgrow.
Qed.

(** * PUBLISH *)

Lemma serve_publish e wok s cs first ch payload :
  srv_ok s → subscribed cs = false → ToUpper (arg first) = B "PUBLISH" →
  ∃ b n, Publish (bus s) (arg ch) (vBulk payload) = Some (b, n) ∧
    serve e wok s cs (ArrayV (Some [first; ch; payload]))
    = Some (reply_one wok (with_pubsub s b) cs (integerValue n)).
Proof.
  intros Hs Hc Hn. destruct (publish_delivers (bus s) (arg ch) (vBulk payload) (ok_pubsub _ (sv_db _ Hs))) as (b & E & _).
  eexists b, _. split; [exact E|]. unfold serve. rewrite Hc.
  change (commandName (ArrayV (Some [first; ch; payload]))) with (arg first). rewrite Hn. cbn [andb].
  repeat (rewrite bool_decide_eq_false_2 by done).
  assert (IsWrite (B "PUBLISH") = false) as -> by (unfold IsWrite; by rewrite (ToUpper_folds (B "PUBLISH") (B "PUBLISH"))).
  rewrite andb_false_r. unfold apply, applyRecord. change (commandName (ArrayV (Some [first; ch; payload]))) with (arg first).
  assert (IsWrite (arg first) = false) as -> by (unfold IsWrite; by rewrite Hn).
  rewrite Dispatch_array, Hn.
  change (assoc (B "PUBLISH") commands) with (Some cmd_Publish). cbn [cmd_Publish]. rewrite E. done.
Qed.

(** A connected client gets a message of [ch]: it is subscribed and its
    mailbox has room. *)
Definition reached (b : Broker) (ch : bytes) (cs : connState) : Prop :=
  ch ∈ cs_channels cs ∧
  match cs_sub cs with Some p => zlen (waiting b p) < subMailboxCap | None => False end.

#[export] Instance reached_dec b ch cs : Decision (reached b ch cs).
Proof. unfold reached. destruct (cs_sub cs); apply _. Defined.

Definition audience (b : Broker) (ch : bytes) (conns : gmap nat connState) : gmap nat connState :=
  filter (λ x, reached b ch x.2) conns.

Lemma delivered_to_waiting b ch p :
  broker_ok b → p ∈ channel_subs b ch →
  delivered_to (mailboxes b) p = 1 ↔ zlen (waiting b p) < subMailboxCap.
Proof.
  intros Hok Hp. destruct (ok_open _ Hok _ _ Hp) as (mb & Hmb & _).
  unfold delivered_to, waiting, has_room. rewrite Hmb. destruct (Z.ltb_spec (zlen (mqueue mb)) subMailboxCap); lia.
Qed.

(** The mailboxes that take a message are those of the audience, one each. *)
Lemma audience_size sy ch :
  sys_ok sy → owned sy →
  zlen (filter (λ p, delivered_to (mailboxes (bus (sy_server sy))) p = 1) (channel_subs (bus (sy_server sy)) ch))
  = Z.of_nat (size (audience (bus (sy_server sy)) ch (sy_conns sy))).
Proof.
  intros Hok Ho. set (b := bus (sy_server sy)). pose proof (ok_pubsub _ (sv_db _ (sk_srv _ Hok))) as Hb. fold b in Hb.
  set (l1 := filter _ _). set (l2 := map_to_list (audience b ch (sy_conns sy))).
  assert (Some <$> l1 ≡ₚ (λ x, cs_sub x.2) <$> l2) as Hp.
  { assert (∀ c cs, (c, cs) ∈ l2 ↔ sy_conns sy !! c = Some cs ∧ reached b ch cs) as Hl2.
    { intros c cs. unfold l2. rewrite elem_of_map_to_list. unfold audience. by rewrite map_lookup_filter_Some. }
    apply NoDup_Permutation.
    - apply NoDup_fmap_2; [apply _|]. apply NoDup_filter, (ok_nodup _ Hb).
    - apply NoDup_fmap_2_strong; [|apply NoDup_map_to_list].
      intros [c1 cs1] [c2 cs2] [H1 [_ Hr1]]%Hl2 [H2 [_ Hr2]]%Hl2 E. simpl in *.
      destruct (cs_sub cs1) as [p|] eqn:Ep; [|done].
      destruct (decide (c1 = c2)) as [->|Hne]; [congruence|].
      by destruct (proj1 (sk_apart _ Hok _ _ _ _ H1 H2 Hne) p Ep).
    - intros [p|]; rewrite !list_elem_of_fmap; split.
      + intros (p' & [= <-] & [Hd Hin]%list_elem_of_filter).
        destruct (proj1 (registered_held sy ch p Hok Ho) Hin) as (cs & (c & Hc & Hs) & Hch).
        exists (c, cs). split; [done|]. apply Hl2. split; [done|]. split; [done|]. rewrite Hs.
        by eapply delivered_to_waiting.
      + intros ([c cs] & Hs & [Hc [Hch Hr]]%Hl2). simpl in Hs. rewrite <-Hs in Hr. exists p. split; [done|].
        assert (p ∈ channel_subs b ch) as Hin by (apply registered_held; [done..|]; exists cs; split; [by exists c|done]).
        apply list_elem_of_filter. split; [by eapply delivered_to_waiting|done].
      + by intros (? & ? & _).
      + intros ([c cs] & Hs & [Hc [Hch Hr]]%Hl2). simpl in Hs. by rewrite <-Hs in Hr. }
  apply Permutation_length in Hp. rewrite !length_fmap in Hp. unfold zlen. rewrite Hp. unfold l2.
  by rewrite length_map_to_list.
Qed.
End delivery.

(** * Properties *)

(** C19: a published message reaches its subscribers.  In every state the
    server can reach, a client that is in no subscription sends PUBLISH, in
    any letter case.  The reply is the number of connected clients that are
    subscribed to the channel and have room for a message; these get it and
    nobody else.  Whatever the clients, the delivery goroutines and the
    background work do afterwards, what is handed to the connection of each
    of them, with what still waits for it, are the messages that were
    waiting before, then this one, then later ones. *)
Theorem published_message_delivered `{GoUnicode} es wd path mode primary f open_ok stat_ok s0 sy c cs e wok
    first ch payload :
  Serve_start es (NewMulti wd path mode primary) f open_ok stat_ok = Some s0 →
  rtc step (mkSys s0 ∅) sy → sy_conns sy !! c = Some cs → subscribed cs = false →
  ToUpper (arg first) = B "PUBLISH" →
  let b := pubsub (s_db (sy_server sy)) in
  let msg := mkMessage (arg ch) (cloneBytes (vBulk payload)) in
  ∃ s1 keep, serve e wok (sy_server sy) cs (ArrayV (Some [first; ch; payload])) =
      Some (s1, cs, [IntegerV (Z.of_nat (size (audience b (arg ch) (sy_conns sy))))], keep) ∧
    ∀ d ds p, sy_conns sy !! d = Some ds → cs_sub ds = Some p →
      waiting (pubsub (s_db s1)) p = waiting b p ++ (if decide (reached b (arg ch) ds) then [msg] else []) ∧
      ∀ tr sy2, runs shown (mkSys s1 (sy_conns sy)) tr sy2 →
        ∃ later, handed p tr ++ map message_frame (waiting (pubsub (s_db (sy_server sy2))) p) =
          map message_frame (waiting (pubsub (s_db s1)) p ++ later).
Proof.
  intros Hst Hr Hc Hsub Hn b msg. destruct (reachable_start _ _ _ _ _ _ _ _ _ _ Hst Hr) as [Hok Ho].
  pose proof (sk_srv _ Hok) as Hs. pose proof (ok_pubsub _ (sv_db _ Hs)) as Hb.
  destruct (serve_publish e wok (sy_server sy) cs first ch payload Hs Hsub Hn) as (b1 & n & Ep & Es).
  assert (n = Z.of_nat (size (audience b (arg ch) (sy_conns sy)))) as ->.
  { destruct (publish_delivers b (arg ch) (vBulk payload) Hb) as (b2 & Ep2 & _). unfold b in Ep2. rewrite Ep in Ep2.
    injection Ep2 as _ ->. by apply audience_size. }
  eexists _, _. split; [exact Es|]. intros d ds p Hd Hp.
  assert (sys_ok (mkSys (with_pubsub (sy_server sy) b1) (sy_conns sy))) as Hok1.
  { destruct (serve_ok e wok _ cs (ArrayV (Some [first; ch; payload])) Hs (sk_conn _ Hok _ _ Hc)) as (r & Er & Hg).
    rewrite Es in Er. simplify_eq. destruct Hg as [Hpost _].
    pose proof (sys_ok_served (sy_server sy) (sy_conns sy) c cs _ _ ltac:(by destruct sy) Hc Hpost) as Hok1.
    by rewrite insert_id in Hok1. }
  split; [|intros tr sy2 Hruns; destruct (shown_fifo p _ _ _ Hok1 Hruns) as (later & E); by exists later].
  cbn. rewrite (Publish_waiting _ _ _ _ _ p Hb Ep). f_equal.
  assert (p ∈ channel_subs b (arg ch) ↔ arg ch ∈ cs_channels ds) as Hin.
  { pose proof (co_subs _ _ (sk_conn _ Hok _ _ Hd) p Hp (arg ch)) as Hco. fold b in Hco. tauto. }
  apply decide_ext. fold b. unfold reached. rewrite Hp, Hin. done.
Qed.

(** Client 1 is subscribed to news, client 2 publishes. *)
Definition listener : Server * connState :=
  match @serve plain_unicode (quiet 0) (λ _, true) everysec_server (new_conn (B "10.0.0.1:1"))
          (request [B "SUBSCRIBE"; B "news"]) with
  | Some (s, cs, _, _) => (s, cs)
  | None => (everysec_server, new_conn [])
  end.

Definition two_clients : gmap nat connState :=
  <[2%nat := new_conn (B "10.0.0.2:1")]> (<[1%nat := listener.2]> (<[1%nat := new_conn (B "10.0.0.1:1")]> ∅)).

Lemma published_message_delivered_witness :
  ∃ s1 keep, @serve plain_unicode (quiet 5) (λ _, true) listener.1 (new_conn (B "10.0.0.2:1"))
      (request [B "Publish"; B "news"; B "hi"])
    = Some (s1, new_conn (B "10.0.0.2:1"), [IntegerV 1], keep) ∧
    ∃ s2 later, deliver_step true s1 0 = Some (s2, messageReply (B "news") (Some (B "hi")), true) ∧
      [messageReply (B "news") (Some (B "hi"))] ++ map message_frame (waiting (pubsub (s_db s2)) 0) =
      map message_frame ([] ++ [mkMessage (B "news") (Some (B "hi"))] ++ later).
Proof.
  assert (rtc (@step plain_unicode) (mkSys everysec_server ∅) (mkSys listener.1 two_clients)) as Hr.
  { eapply rtc_l; [eexists; apply (step_accept _ _ 1%nat (B "10.0.0.1:1")); reflexivity|].
    assert (∃ out, @serve plain_unicode (quiet 0) (λ _, true) everysec_server (new_conn (B "10.0.0.1:1"))
        (request [B "SUBSCRIBE"; B "news"]) = Some (listener.1, listener.2, out, true)) as [out Es]
      by (eexists; reflexivity).
    eapply rtc_l; [eexists; eapply (step_request _ _ 1%nat); [apply lookup_insert_eq|exact Es]|].
    apply rtc_once. eexists. apply step_accept. reflexivity. }
  destruct (@published_message_delivered plain_unicode (λ _, quiet 0) empty_fs (B "aof") FsyncEverySec []
    Missing true true everysec_server (mkSys listener.1 two_clients) 2%nat (new_conn (B "10.0.0.2:1")) (quiet 5)
    (λ _, true) (BulkV (Some (B "Publish"))) (BulkV (Some (B "news"))) (BulkV (Some (B "hi"))))
    as (s1 & keep & Es & Hfifo).
  - reflexivity.
  - exact Hr.
  - reflexivity.
  - reflexivity.
  - reflexivity.
  - exists s1, keep. split; [exact Es|].
    assert (∃ s2, deliver_step true s1 0 = Some (s2, messageReply (B "news") (Some (B "hi")), true)) as [s2 Ed].
    { vm_compute in Es. injection Es as <- _. eexists. vm_compute. reflexivity. }
    destruct (Hfifo 1%nat listener.2 0%nat eq_refl eq_refl) as [Hw Hruns].
    destruct (Hruns [(0%nat, messageReply (B "news") (Some (B "hi")), true)] (mkSys s2 two_clients)) as [later El].
    + eapply runs_visible; [apply (shown_deliver _ _ true), Ed|apply runs_nil].
    + exists s2, later. split; [exact Ed|]. rewrite Hw in El. exact El.
Defined.
