(* ===== verification/Lifecycle.v ===== *)
(** The life of a server: [Serve] of server.go, from the goroutines it starts
    to the order in which it waits for them.

    The main goroutine starts one accept loop per listener, the background
    goroutines its options ask for, and one goroutine that closes the
    listeners when the context is cancelled; it then waits for the accept
    loops, for the connections, for each background goroutine, and closes
    the log.  What the goroutines do meanwhile is [acts].

    A step is labelled by the task it completes: those are the steps the
    shutdown waits for.  A background goroutine notices the cancellation at
    its next [select] (the replica's when its socket is closed under it), so
    its end is one step that fairness grants; that the loop inside one tick
    of the expiry worker ends is a theorem of [Expiry]. *)

From S2P Require Import Prelude Lts GoLib Protocol PubSub Store Db Expiry Cmd Aof Replication Server.
From S2P Require Import AofFacts ServerFacts.

(** * State *)

(** Where the main goroutine is: [acceptWG.Wait()], [connWG.Wait()], at the
    [<-xDone] receives still to do, or past the deferred close of the log. *)
Inductive main_pc :=
  | WaitAccept
  | WaitConns
  | WaitDone (gs : list goroutine)
  | Returned.

(** [l_closed] counts the listeners closed so far, in order; [l_loops] says
    of each accept loop whether it runs; [l_running] lists the background
    goroutines whose done channel is open. *)
Record Life := mkLife {
  l_sys : Sys;
  l_cancelled : bool;
  l_closed : nat;
  l_loops : list bool;
  l_running : list goroutine;
  l_main : main_pc
}.

(** The background goroutines [Serve] starts, given its options. *)
Definition started (s : Server) (metricsAddr : bytes) : list goroutine :=
  (if bool_decide (metricsAddr = []) then [] else [GMetrics]) ++
  [GExpiry] ++
  (if bool_decide (s_aof s = None) then [] else [GRewrite]) ++
  (if bool_decide (s_primaryAddr s = []) then [] else [GReplica]) ++
  [GHeartbeat].

(** [Serve] once the log is loaded: everything runs and nothing has ended. *)
Definition Serve_launch (s : Server) (listeners : nat) (metricsAddr : bytes) : Life :=
  mkLife (mkSys s ∅) false 0 (replicate listeners true) (started s metricsAddr) WaitAccept.

(** The receives at the end of [Serve], in order; a channel that belongs to
    no goroutine was closed at the start. *)
Definition drain_order : list goroutine := [GExpiry; GRewrite; GReplica; GHeartbeat; GMetrics].

(** * The main goroutine *)

(** What happens when the log is closed. *)
Record close_io := mkCloseIO { cl_accept : option nat; cl_sync : bool; cl_close : bool }.

(** Its next step; [None] while it waits. *)
Definition main_step (io : close_io) (l : Life) : option Life :=
  let '(mkLife sy canc k loops run m) := l in
  match m with
  | WaitAccept =>
      if forallb negb loops then Some (mkLife sy canc k loops run WaitConns) else None
  | WaitConns =>
      if bool_decide (sy_conns sy = ∅) then Some (mkLife sy canc k loops run (WaitDone drain_order))
      else None
  | WaitDone (g :: gs) =>
      if bool_decide (g ∈ run) then None else Some (mkLife sy canc k loops run (WaitDone gs))
  | WaitDone [] =>
      match Serve_stop (cl_accept io) (cl_sync io) (cl_close io) (sy_server sy) with
      | None => None
      | Some s => Some (mkLife (mkSys s (sy_conns sy)) canc k loops run Returned)
      end
  | Returned => None
  end.

(** * Steps *)

(** [TClient c]: the handler of connection [c] returns, because the client
    hung up, said [QUIT], or could not be written to. *)
Inductive task :=
  | TClose
  | TLoop (i : nat)
  | TClient (c : nat)
  | TGo (g : goroutine)
  | TMain.

#[global] Instance task_eq_dec : EqDecision task.
Proof. solve_decision. Defined.

Section lifecycle.
Context `{GoUnicode}.

Inductive lstep : Life → option task → Life → Prop :=
  | L_cancel sy canc k loops run m :
      lstep (mkLife sy canc k loops run m) None (mkLife sy true k loops run m)
  | L_close sy k loops run m :
      (k < length loops)%nat →
      lstep (mkLife sy true k loops run m) (Some TClose) (mkLife sy true (S k) loops run m)
  | L_accept sy canc k loops run m i sy' :
      loops !! i = Some true → (k ≤ i)%nat → acts Acceptor sy sy' →
      lstep (mkLife sy canc k loops run m) None (mkLife sy' canc k loops run m)
  | L_accept_error sy canc k loops run m i :
      loops !! i = Some true → (k ≤ i)%nat →
      lstep (mkLife sy canc k loops run m) None (mkLife sy canc k loops run m)
  | L_loop_exit sy canc k loops run m i :
      loops !! i = Some true → (i < k)%nat →
      lstep (mkLife sy canc k loops run m) (Some (TLoop i))
            (mkLife sy canc k (<[i := false]> loops) run m)
  | L_request sy canc k loops run m c sy' :
      acts (Client c) sy sy' → is_Some (sy_conns sy' !! c) →
      lstep (mkLife sy canc k loops run m) None (mkLife sy' canc k loops run m)
  | L_conn_exit sy canc k loops run m c sy' :
      acts (Client c) sy sy' → sy_conns sy' !! c = None →
      lstep (mkLife sy canc k loops run m) (Some (TClient c)) (mkLife sy' canc k loops run m)
  | L_delivery sy canc k loops run m sy' :
      acts Delivery sy sy' →
      lstep (mkLife sy canc k loops run m) None (mkLife sy' canc k loops run m)
  | L_fsync sy canc k loops run m sy' :
      acts Fsyncer sy sy' →
      lstep (mkLife sy canc k loops run m) None (mkLife sy' canc k loops run m)
  | L_background sy canc k loops run m g sy' :
      g ∈ run → acts (Background g) sy sy' →
      lstep (mkLife sy canc k loops run m) None (mkLife sy' canc k loops run m)
  | L_go_exit sy k loops run m g :
      g ∈ run →
      lstep (mkLife sy true k loops run m) (Some (TGo g))
            (mkLife sy true k loops (filter (λ x, x ≠ g) run) m)
  | L_main l io l' :
      main_step io l = Some l' → lstep l (Some TMain) l'.

(** * Invariant *)

(** The waits of the main goroutine have their meaning: behind one, what it
    waited for is over. *)
Record life_ok (l : Life) : Prop := {
  lo_sys : l_main l ≠ Returned → sys_ok (l_sys l);
  lo_closed : (0 < l_closed l)%nat → l_cancelled l = true;
  lo_bound : (l_closed l ≤ length (l_loops l))%nat;
  lo_some : l_loops l ≠ [];
  lo_exited : ∀ i, l_loops l !! i = Some false → (i < l_closed l)%nat;
  lo_loops : l_main l ≠ WaitAccept → ∀ i b, l_loops l !! i = Some b → b = false;
  lo_conns : l_main l ≠ WaitAccept → l_main l ≠ WaitConns → sy_conns (l_sys l) = ∅;
  lo_done : ∀ gs, l_main l = WaitDone gs → ∀ g, g ∈ l_running l → g ∈ gs;
  lo_over : l_main l = Returned → l_running l = [];
  lo_log : l_main l = Returned → ∀ a, s_aof (sy_server (l_sys l)) = Some a → a_ticking a = false
}.

(** The clauses of [life_ok] a step does not touch. *)
Ltac life_split :=
  split; simpl in *; try done; try (intros; match goal with H : _ |- _ => by eapply H end).

(** What a step leaves alone. *)
Lemma acts_conns a sy sy' :
  acts a sy sy' →
  match a with
  | Acceptor => ∀ c, is_Some (sy_conns sy !! c) → is_Some (sy_conns sy' !! c)
  | Client c => is_Some (sy_conns sy !! c) ∧
      (sy_conns sy' = delete c (sy_conns sy) ∨ ∃ cs, sy_conns sy' = <[c := cs]> (sy_conns sy))
  | _ => sy_conns sy' = sy_conns sy
  end.
Proof.
  intros Ha. destruct Ha; simpl; try done.
  - intros c'. rewrite lookup_insert. case_decide; [by eexists|done].
  - split; [by eexists|right; by eexists].
  - split; [by eexists|by left].
  - split; [by eexists|by left].
Qed.

(** Delivering a message or a frame touches neither the log nor the keys. *)
Lemma delivery_frame sy sy' :
  acts Delivery sy sy' →
  s_aof (sy_server sy') = s_aof (sy_server sy) ∧ s_world (sy_server sy') = s_world (sy_server sy) ∧
  shards (s_db (sy_server sy')) = shards (s_db (sy_server sy)) ∧ sy_conns sy' = sy_conns sy.
Proof.
  intros Ha. inversion Ha as [| | | |? ? ? ? ? ? ? E|? ? ? ? ? ? ? E| | | | |]; subst; simpl.
  - unfold deliver_step in E. by repeat case_match; simplify_eq.
  - unfold deliverReplica_step in E. by repeat case_match; simplify_eq.
Qed.

Lemma life_ok_sys sy sy' canc k loops run m :
  life_ok (mkLife sy canc k loops run m) → (m ≠ Returned → sys_ok sy') →
  (m ≠ WaitAccept → m ≠ WaitConns → sy_conns sy' = ∅) →
  (m = Returned → ∀ a, s_aof (sy_server sy') = Some a → a_ticking a = false) →
  life_ok (mkLife sy' canc k loops run m).
Proof. intros []. by split. Qed.

(** A server step in a state where the log may still be open. *)
Lemma life_ok_acts a sy sy' canc k loops run m :
  life_ok (mkLife sy canc k loops run m) → acts a sy sy' → m ≠ Returned →
  (m ≠ WaitAccept → m ≠ WaitConns → sy_conns sy' = sy_conns sy) →
  life_ok (mkLife sy' canc k loops run m).
Proof.
  intros Hok Ha Hm Hc. apply (life_ok_sys sy); [done|by intros; eapply acts_ok, Hok| |done].
  intros H1 H2. rewrite Hc by done. by apply (lo_conns _ Hok).
Qed.

Lemma Serve_stop_log accept sync close s s' a :
  Serve_stop accept sync close s = Some s' → s_aof s' = Some a → a_ticking a = false.
Proof.
  unfold Serve_stop, AOF_Close. intros E Ha.
  destruct (s_aof s) as [a0|] eqn:Ea; [|simplify_eq; congruence].
  destruct (_ && _); [done|]. destruct (Flush _ _ _) as [[w a1] fl] eqn:Ef.
  destruct (fsync _ _ _) as [w2 sn]. simplify_eq. simpl in Ha. simplify_eq.
  unfold Flush in Ef. repeat case_match; by simplify_eq/=.
Qed.

Lemma main_step_ok io l l' : main_step io l = Some l' → life_ok l → life_ok l'.
Proof.
  destruct l as [sy canc k loops run [| |[|g gs]|]]; simpl; intros E Hok; [..|done].
  - destruct (forallb negb loops) eqn:Hf; [|done]. simplify_eq.
    rewrite forallb_forall in Hf. destruct Hok; life_split.
    intros _ i b Hb. apply negb_true_iff, Hf. by eapply list_elem_of_In, list_elem_of_lookup_2.
  - case_bool_decide; [|done]. simplify_eq. destruct Hok; life_split.
    intros gs [= <-] g _. destruct g; unfold drain_order; set_solver.
  - destruct (Serve_stop _ _ _ _) as [s|] eqn:Es; [|done]. simplify_eq.
    destruct Hok; life_split.
    + intros _. destruct run as [|g run]; [done|]. exfalso.
      eapply not_elem_of_nil, (lo_done0 [] eq_refl g). set_solver.
    + intros _ a Ha. by eapply Serve_stop_log.
  - case_bool_decide as Hg; [done|]. simplify_eq. destruct Hok; life_split.
    intros gs' [= <-] g' Hg'. specialize (lo_done0 _ eq_refl g' Hg'). set_solver.
Qed.

(** A connection only exists before the main goroutine is past it. *)
Lemma conn_open_main l c :
  life_ok l → is_Some (sy_conns (l_sys l) !! c) → l_main l = WaitAccept ∨ l_main l = WaitConns.
Proof.
  intros Hok [cs Hc]. destruct (l_main l) as [| |gs|] eqn:E; [by left|by right|..];
    exfalso; rewrite (lo_conns l Hok), lookup_empty in Hc; by rewrite ?E.
Qed.

Lemma client_step_ok c sy sy' canc k loops run m :
  life_ok (mkLife sy canc k loops run m) → acts (Client c) sy sy' →
  life_ok (mkLife sy' canc k loops run m).
Proof.
  intros Hok Ha. destruct (acts_conns _ _ _ Ha) as [Hc _].
  destruct (conn_open_main _ _ Hok Hc) as [E|E]; simpl in E; subst m; by eapply life_ok_acts.
Qed.

Lemma lstep_ok l t l' : life_ok l → lstep l t l' → life_ok l'.
Proof.
  intros Hok Hst. destruct Hst as [sy canc k loops run m|sy k loops run m Hk
    |sy canc k loops run m i sy' Hi Hk Ha|sy canc k loops run m i Hi Hk
    |sy canc k loops run m i Hi Hk|sy canc k loops run m c sy' Ha Hc
    |sy canc k loops run m c sy' Ha Hc|sy canc k loops run m sy' Ha|sy canc k loops run m sy' Ha
    |sy canc k loops run m g sy' Hg Ha|sy k loops run m g Hg|l io l' Hm].
  - destruct Hok; life_split.
  - destruct Hok; life_split. intros i Hi. specialize (lo_exited0 i Hi). lia.
  - assert (m = WaitAccept) as ->.
    { destruct m; [done|..]; exfalso; by specialize (lo_loops _ Hok ltac:(done) i true Hi). }
    by eapply life_ok_acts.
  - done.
  - destruct Hok; life_split; rewrite ?length_insert; try done.
    + intros E. apply (f_equal length) in E. rewrite length_insert in E. by destruct loops.
    + intros j. rewrite list_lookup_insert. case_decide; [intros; lia|by apply lo_exited0].
    + intros Hm j b. rewrite list_lookup_insert. case_decide; [by intros [= <-]|by apply lo_loops0].
  - by eapply client_step_ok.
  - by eapply client_step_ok.
  - destruct (delivery_frame _ _ Ha) as (H1 & _ & _ & H4).
    eapply life_ok_sys; [done|intros Hm; by eapply acts_ok, Hok|rewrite H4; apply Hok|rewrite H1; apply Hok].
  - assert (m ≠ Returned) as Hm.
    { intros ->. inversion Ha as [| | | | | |? ? a ? Ea Ht| | | |]; subst.
      by rewrite (lo_log _ Hok eq_refl a Ea) in Ht. }
    eapply life_ok_acts; [done..|]. by rewrite (acts_conns _ _ _ Ha).
  - assert (m ≠ Returned) as Hm.
    { intros ->. pose proof (lo_over _ Hok eq_refl) as E. simpl in E. subst. by apply elem_of_nil in Hg. }
    eapply life_ok_acts; [done..|]. by rewrite (acts_conns _ _ _ Ha).
  - destruct Hok; life_split.
    + intros gs E g' [_ Hg']%list_elem_of_filter. by eapply lo_done0.
    + intros E. by rewrite lo_over0.
  - by eapply main_step_ok.
Qed.

Lemma launch_ok s n metricsAddr :
  sys_ok (mkSys s ∅) → (0 < n)%nat → life_ok (Serve_launch s n metricsAddr).
Proof.
  intros Hs Hn. split; simpl; try done; try lia.
  - destruct n; [lia|done].
  - intros i Hi. by apply lookup_replicate in Hi as [? _].
Qed.

(** * After the return *)

Lemma returned_step l t l' :
  life_ok l → l_main l = Returned → lstep l t l' →
  l_main l' = Returned ∧ s_world (sy_server (l_sys l')) = s_world (sy_server (l_sys l)) ∧
  shards (s_db (sy_server (l_sys l'))) = shards (s_db (sy_server (l_sys l))).
Proof.
  intros Hok Hm Hst. pose proof (lo_conns _ Hok) as Hc. rewrite Hm in Hc.
  specialize (Hc ltac:(done) ltac:(done)). pose proof (lo_over _ Hok Hm) as Hr.
  assert (∀ i, l_loops l !! i ≠ Some true) as Hl.
  { intros i Hi. by specialize (lo_loops _ Hok ltac:(by rewrite Hm) i true Hi). }
  destruct Hst; simpl in *; subst; try done.
  - by destruct (Hl i).
  - destruct (acts_conns _ _ _ ltac:(done)) as [[cs Hx] _]. by rewrite Hc in Hx.
  - destruct (acts_conns _ _ _ ltac:(done)) as [[cs Hx] _]. by rewrite Hc in Hx.
  - by destruct (delivery_frame _ _ ltac:(done)) as (_ & ? & ? & _).
  - inversion H0 as [| | | | | |? ? a ? Ea Ht| | | |]; subst.
    by rewrite (lo_log _ Hok eq_refl a Ea) in Ht.
  - by apply elem_of_nil in H0.
  - destruct l as [? ? ? ? ? []]; simplify_eq/=; done.
Qed.

(** * Progress *)

(** What a task waits for. *)
Definition enabled (t : task) (l : Life) : Prop :=
  match t with
  | TClose => l_cancelled l = true ∧ (l_closed l < length (l_loops l))%nat
  | TLoop i => l_loops l !! i = Some true ∧ (i < l_closed l)%nat
  | TClient c => is_Some (sy_conns (l_sys l) !! c)
  | TGo g => l_cancelled l = true ∧ g ∈ l_running l
  | TMain =>
      match l_main l with
      | WaitAccept => ∀ i b, l_loops l !! i = Some b → b = false
      | WaitConns => sy_conns (l_sys l) = ∅
      | WaitDone [] => True
      | WaitDone (g :: _) => g ∉ l_running l
      | Returned => False
      end
  end.

Lemma enabled_can_step t l : life_ok l → enabled t l → ∃ l', lstep l (Some t) l'.
Proof.
  intros Hok He. destruct l as [sy canc k loops run m], t as [|i|c|g|]; simpl in He.
  - destruct He as [-> Hk]. eexists. by apply L_close.
  - destruct He. eexists. by eapply L_loop_exit.
  - destruct He as [cs Hc]. destruct (conn_open_main _ _ Hok ltac:(by eexists)) as [E|E];
      simpl in E; subst m; pose proof (lo_sys _ Hok ltac:(done)) as Hs; simpl in Hs;
      destruct sy as [s conns]; simpl in *;
      destruct (teardown_ok order_id s cs (sk_srv _ Hs) (sk_conn _ Hs c cs Hc)) as (s2 & E2 & _);
      (eexists; eapply (L_conn_exit _ _ _ _ _ _ c); [by eapply step_hangup|apply lookup_delete_eq]).
  - destruct He as [-> Hg]. eexists. by apply L_go_exit.
  - pose (io := mkCloseIO None true true).
    enough (∃ l', main_step io (mkLife sy canc k loops run m) = Some l') as [l' Hl]
      by (eexists; by eapply L_main). destruct m as [| |[|g gs]|]; simpl; [..|done].
    + assert (forallb negb loops = true) as ->; [|by eexists]. apply forallb_forall.
      intros b Hb. apply list_elem_of_In, list_elem_of_lookup_1 in Hb as [i Hi]. by rewrite (He i b Hi).
    + rewrite bool_decide_eq_true_2 by done. by eexists.
    + destruct (Serve_stop_total None true true (sy_server sy)) as [s' ->]; [|by eexists].
      by apply (sk_srv _ (lo_sys _ Hok ltac:(done))).
    + rewrite bool_decide_eq_false_2 by done. by eexists.
Qed.

(** Every listener is closed: from here on no connection is accepted. *)
Definition closing (l : Life) : Prop :=
  l_cancelled l = true ∧ l_closed l = length (l_loops l).

(** What is left to end. *)
Definition main_rank (m : main_pc) : nat :=
  match m with WaitAccept => 8 | WaitConns => 7 | WaitDone gs => S (length gs) | Returned => 0 end.

Definition remaining (l : Life) : nat :=
  length (filter (λ b, b = true) (l_loops l)) + size (sy_conns (l_sys l)) +
  length (l_running l) + main_rank (l_main l).

Lemma client_conns c sy sy' :
  acts (Client c) sy sy' →
  (is_Some (sy_conns sy' !! c) → size (sy_conns sy') = size (sy_conns sy)) ∧
  (sy_conns sy' !! c = None → (size (sy_conns sy') < size (sy_conns sy))%nat) ∧
  ∀ c', c' ≠ c → sy_conns sy' !! c' = sy_conns sy !! c'.
Proof.
  intros Ha. destruct (acts_conns _ _ _ Ha) as [[cs0 Hc] [E|[cs E]]]; rewrite E; split_and!.
  - rewrite lookup_delete_eq. by intros [].
  - intros _. rewrite map_size_delete_Some by by eexists.
    pose proof (map_size_non_empty_iff (sy_conns sy)) as [_ Hn].
    assert (size (sy_conns sy) ≠ 0%nat); [|lia]. apply Hn. intros E0. by rewrite E0 in Hc.
  - intros c' Hne. by rewrite lookup_delete_ne.
  - intros _. by rewrite map_size_insert_Some by by eexists.
  - by rewrite lookup_insert_eq.
  - intros c' Hne. by rewrite lookup_insert_ne.
Qed.

Lemma loop_exit_count (loops : list bool) i :
  loops !! i = Some true →
  (length (filter (λ b, b = true) (<[i := false]> loops)) < length (filter (λ b, b = true) loops))%nat.
Proof.
  revert i. induction loops as [|b loops IH]; intros [|i] Hi; simplify_eq/=.
  - rewrite !filter_cons. repeat case_decide; simpl; done || lia.
  - specialize (IH i Hi). rewrite !filter_cons. case_decide; simpl; lia.
Qed.

Lemma go_exit_count (run : list goroutine) g :
  g ∈ run → (length (filter (λ x, x ≠ g) run) < length run)%nat.
Proof.
  intros Hg. induction run as [|x run IH]; [by apply elem_of_nil in Hg|].
  rewrite filter_cons. pose proof (length_filter (λ x, x ≠ g) run). case_decide as Hd; simpl; [|lia].
  apply elem_of_cons in Hg as [->|Hg]; [done|]. specialize (IH Hg). lia.
Qed.

Lemma main_step_rank io l l' :
  main_step io l = Some l' →
  l_closed l' = l_closed l ∧ l_cancelled l' = l_cancelled l ∧ l_loops l' = l_loops l ∧
  l_running l' = l_running l ∧ sy_conns (l_sys l') = sy_conns (l_sys l) ∧
  (main_rank (l_main l') < main_rank (l_main l))%nat.
Proof.
  destruct l as [sy canc k loops run [| |[|g gs]|]]; simpl; intros E; repeat case_match;
    simplify_eq/=; split_and!; (done || lia).
Qed.

(** Cancellation is not undone and listeners are not reopened. *)
Lemma lstep_cancelled l t l' :
  lstep l t l' → l_cancelled l = true →
  l_cancelled l' = true ∧ (l_closed l ≤ l_closed l')%nat ∧ length (l_loops l') = length (l_loops l) ∧
  (t = Some TClose → l_closed l' = S (l_closed l)).
Proof.
  intros Hst Hc. destruct Hst as [| | | | | | | | | | |l io l' Hm]; simpl in *; subst;
    split_and!; rewrite ?length_insert; try done; try lia.
  all: apply main_step_rank in Hm as (E1 & E2 & E3 & _); rewrite ?E1, ?E2, ?E3; done || lia.
Qed.

(** Once closing, nothing is added, and every completed task counts. *)
Lemma closing_remaining l t l' :
  life_ok l → closing l → lstep l t l' →
  closing l' ∧ (remaining l' ≤ remaining l)%nat ∧ (is_Some t → (remaining l' < remaining l)%nat).
Proof.
  intros Hok [Hc Hk] Hst. destruct (lstep_cancelled _ _ _ Hst Hc) as (Hc' & Hle & Hlen & _).
  assert (l_closed l' ≤ length (l_loops l'))%nat as Hb by by eapply lo_bound, lstep_ok.
  split; [split; [done|lia]|]. unfold remaining. destruct Hst as [sy canc k loops run m
    |sy k loops run m ?|sy canc k loops run m i sy' Hi ? Ha|sy canc k loops run m i Hi ?
    |sy canc k loops run m i Hi ?|sy canc k loops run m c sy' Ha Hx
    |sy canc k loops run m c sy' Ha Hx|sy canc k loops run m sy' Ha|sy canc k loops run m sy' Ha
    |sy canc k loops run m g sy' Hg Ha|sy k loops run m g Hg|l io l' Hm]; simpl in *.
  - split; [lia|by intros []].
  - lia.
  - apply lookup_lt_Some in Hi. lia.
  - split; [lia|by intros []].
  - pose proof (loop_exit_count _ _ Hi). lia.
  - destruct (client_conns _ _ _ Ha) as (E & _). rewrite E by done. split; [lia|by intros []].
  - destruct (client_conns _ _ _ Ha) as (_ & E & _). specialize (E Hx). lia.
  - rewrite (acts_conns _ _ _ Ha). split; [lia|by intros []].
  - rewrite (acts_conns _ _ _ Ha). split; [lia|by intros []].
  - rewrite (acts_conns _ _ _ Ha). split; [lia|by intros []].
  - pose proof (go_exit_count _ _ Hg). lia.
  - apply main_step_rank in Hm as (_ & _ & E3 & E4 & E5 & Hr). rewrite E3, E4, E5. lia.
Qed.

(** An open connection stays open until its handler ends. *)
Lemma conn_stays l t l' c :
  lstep l t l' → t ≠ Some (TClient c) → is_Some (sy_conns (l_sys l) !! c) →
  is_Some (sy_conns (l_sys l') !! c).
Proof.
  intros Hst Hne Hc. destruct Hst; simpl in *; try done.
  - by eapply (acts_conns _ _ _ H2).
  - destruct (client_conns _ _ _ H0) as (_ & _ & E). destruct (decide (c = c0)) as [->|]; [done|]. by rewrite E.
  - destruct (client_conns _ _ _ H0) as (_ & _ & E). rewrite E; [done|congruence].
  - by rewrite (acts_conns _ _ _ H0).
  - by rewrite (acts_conns _ _ _ H0).
  - by rewrite (acts_conns _ _ _ H1).
  - by apply main_step_rank in H0 as (_ & _ & _ & _ & -> & _).
Qed.

(** A task that can be completed stays so until it is. *)
Lemma enabled_persists t t' l l' :
  life_ok l → l_cancelled l = true → (t = TClose ∨ closing l) → enabled t l →
  lstep l t' l' → t' ≠ Some t → enabled t l'.
Proof.
  intros Hok Hc Hcl He Hst Hne. destruct (lstep_cancelled _ _ _ Hst Hc) as (Hc' & Hle & Hlen & _).
  destruct t as [|i|c|g|]; simpl in *.
  - split; [done|]. rewrite Hlen. destruct He as [_ He]. destruct Hst; simpl in *; try lia; [congruence|].
    apply main_step_rank in H0 as (-> & _). lia.
  - destruct He as [Hi Hlt]. split; [|lia]. destruct Hst; simpl in *; try done.
    + rewrite list_lookup_insert_ne; [done|congruence].
    + by apply main_step_rank in H0 as (_ & _ & -> & _).
  - by eapply conn_stays.
  - split; [done|]. destruct He as [_ He]. destruct Hst; simpl in *; try done.
    + apply list_elem_of_filter. split; [congruence|done].
    + by apply main_step_rank in H0 as (_ & _ & _ & -> & _).
  - destruct Hcl as [?|[_ Hcl]]; [done|]. destruct Hst; simpl in *; try done.
    + apply lookup_lt_Some in H0. lia.
    + destruct m as [| |[|]|]; simpl in *; try done. intros j b. rewrite list_lookup_insert.
      case_decide; [by intros [= <-]|by apply He].
    + destruct m as [| |[|]|]; simpl in *; try done.
      destruct (acts_conns _ _ _ H0) as [[cs Hx] _]. by rewrite He in Hx.
    + destruct m as [| |[|]|]; simpl in *; try done.
      destruct (acts_conns _ _ _ H0) as [[cs Hx] _]. by rewrite He in Hx.
    + by rewrite (acts_conns _ _ _ H0).
    + by rewrite (acts_conns _ _ _ H0).
    + by rewrite (acts_conns _ _ _ H1).
    + destruct m as [| |[|]|]; simpl in *; try done. rewrite list_elem_of_filter. naive_solver.
Qed.

(** Unless [Serve] has returned there is a task to complete. *)
Lemma some_task l : closing l → l_main l ≠ Returned → ∃ t, enabled t l.
Proof.
  intros [Hc Hk] Hm. destruct l as [sy canc k loops run [| |[|g gs]|]]; simpl in *; [..|done].
  - destruct (decide (true ∈ loops)) as [Hin|Hin].
    + apply list_elem_of_lookup_1 in Hin as [i Hi]. exists (TLoop i). split; [done|].
      apply lookup_lt_Some in Hi. simpl. lia.
    + exists TMain. simpl. intros i [] Hb; [|done]. by apply list_elem_of_lookup_2 in Hb.
  - destruct (decide (sy_conns sy = ∅)) as [He|He]; [by exists TMain|].
    apply map_choose in He as (c & cs & Hcs). exists (TClient c). by exists cs.
  - by exists TMain.
  - destruct (decide (g ∈ run)); [by exists (TGo g)|by exists TMain].
Qed.
(** * Fair executions *)

(** An infinite execution (one that stops repeats its last state). *)
Record execution (f : nat → Life) (lab : nat → option task) : Prop := {
  ex_step : ∀ n, lstep (f n) (lab n) (f (S n)) ∨ (lab n = None ∧ f (S n) = f n);
  ex_fair : ∀ t i, enabled t (f i) → ∃ j, (i ≤ j)%nat ∧ (lab j = Some t ∨ ¬ enabled t (f j))
}.

Section fair.
  Context (f : nat → Life) (lab : nat → option task).
  Hypothesis (Hex : execution f lab) (H0 : life_ok (f 0%nat)).

Lemma exec_ok n : life_ok (f n).
Proof.
  induction n as [|n IH]; [done|]. destruct (ex_step _ _ Hex n) as [Hs|[_ ->]]; [|done].
  by eapply lstep_ok.
Qed.

Lemma exec_cancelled i j : (i ≤ j)%nat → l_cancelled (f i) = true → l_cancelled (f j) = true.
Proof.
  induction 1 as [|j _ IH]; [done|]. intros Hc. specialize (IH Hc).
  destruct (ex_step _ _ Hex j) as [Hs|[_ ->]]; [|done]. by apply (lstep_cancelled _ _ _ Hs).
Qed.

Lemma exec_closing i j :
  (i ≤ j)%nat → closing (f i) → closing (f j) ∧ (remaining (f j) ≤ remaining (f i))%nat.
Proof.
  induction 1 as [|j _ IH]; [done|]. intros Hc. destruct (IH Hc) as [Hc' Hr].
  destruct (ex_step _ _ Hex j) as [Hs|[_ ->]]; [|done].
  destruct (closing_remaining _ _ _ (exec_ok j) Hc' Hs) as (? & ? & _). split; [done|lia].
Qed.

(** An enabled task is completed at some later point. *)
Lemma task_completed t i :
  l_cancelled (f i) = true → (t = TClose ∨ closing (f i)) → enabled t (f i) →
  ∃ j, (i ≤ j)%nat ∧ lab j = Some t ∧ lstep (f j) (lab j) (f (S j)).
Proof.
  intros Hc Hcl He. destruct (ex_fair _ _ Hex t i He) as (j & Hij & Hj).
  assert (∀ n, (i ≤ n)%nat → (∃ j, (i ≤ j)%nat ∧ lab j = Some t) ∨ enabled t (f n)) as Hall.
  { induction 1 as [|n Hn IH]; [by right|]. destruct IH as [?|IH]; [by left|].
    destruct (decide (lab n = Some t)) as [Ht|Ht]; [left; eauto|right].
    destruct (ex_step _ _ Hex n) as [Hs|[_ ->]]; [|done].
    eapply enabled_persists; [apply exec_ok|by eapply exec_cancelled| |done..].
    destruct Hcl as [?|Hcl]; [by left|right; by apply (exec_closing i)]. }
  assert (∃ j, (i ≤ j)%nat ∧ lab j = Some t) as (j' & Hj' & Ht).
  { destruct (Hall j Hij) as [?|?]; [done|]. destruct Hj as [?|?]; [eauto|done]. }
  exists j'. split_and!; [done..|]. destruct (ex_step _ _ Hex j') as [?|[E _]]; [done|congruence].
Qed.

Lemma listeners_close i : l_cancelled (f i) = true → ∃ j, (i ≤ j)%nat ∧ closing (f j).
Proof.
  remember (length (l_loops (f i)) - l_closed (f i))%nat as d eqn:Hd.
  revert i Hd. induction (lt_wf d) as [d _ IH]. intros i -> Hc.
  pose proof (lo_bound _ (exec_ok i)).
  destruct (decide (l_closed (f i) = length (l_loops (f i)))) as [E|E]; [by exists i|].
  destruct (task_completed TClose i) as (j & Hij & Hlab & Hs); [done|by left|split; [done|lia]|].
  pose proof (exec_cancelled i j Hij Hc) as Hcj.
  destruct (lstep_cancelled _ _ _ Hs Hcj) as (Hc' & _ & Hlen & Hk). specialize (Hk Hlab).
  assert (∀ n, (i ≤ n)%nat → (l_closed (f i) ≤ l_closed (f n))%nat ∧
            length (l_loops (f n)) = length (l_loops (f i))) as Hm.
  { induction 1 as [|n Hn IHn]; [done|]. destruct (ex_step _ _ Hex n) as [Hsn|[_ ->]]; [|done].
    destruct (lstep_cancelled _ _ _ Hsn (exec_cancelled i n Hn Hc)) as (_ & ? & ? & _). lia. }
  destruct (Hm j Hij) as [Hm1 Hm2].
  destruct (IH (length (l_loops (f (S j))) - l_closed (f (S j)))%nat ltac:(lia) (S j) eq_refl Hc')
    as (j2 & ? & ?). exists j2. split; [lia|done].
Qed.

Lemma closing_returns i : closing (f i) → ∃ j, (i ≤ j)%nat ∧ l_main (f j) = Returned.
Proof.
  remember (remaining (f i)) as d eqn:Hd. revert i Hd.
  induction (lt_wf d) as [d _ IH]. intros i -> Hc.
  assert (l_main (f i) = Returned ∨ l_main (f i) ≠ Returned) as [Hr|Hr]
    by (destruct (l_main (f i)); [right|right|right|left]; done).
  { by exists i. }
  destruct (some_task _ Hc Hr) as [t Ht].
  destruct (task_completed t i) as (j & Hij & Hlab & Hs); [apply Hc|by right|done|].
  destruct (exec_closing i j Hij Hc) as [Hcj Hrj].
  destruct (closing_remaining _ _ _ (exec_ok j) Hcj Hs) as (Hc' & _ & Hlt).
  rewrite Hlab in Hlt. specialize (Hlt ltac:(by eexists)).
  destruct (IH (remaining (f (S j))) ltac:(lia) (S j) eq_refl Hc') as (j2 & ? & ?).
  exists j2. split; [lia|done].
Qed.
End fair.
End lifecycle.

(** A stretch of an execution, with the tasks it completes. *)
Lemma execution_window `{GoUnicode} f lab i n :
  execution f lab → runs lstep (f i) (omap lab (seq i n)) (f (i + n)%nat).
Proof.
  intros Hex. revert i. induction n as [|n IH]; intros i; simpl.
  { rewrite Nat.add_0_r. apply runs_nil. }
  specialize (IH (S i)). rewrite <-plus_n_Sm. simpl in IH.
  destruct (ex_step _ _ Hex i) as [Hs|[E Ef]].
  - destruct (lab i); [by eapply runs_visible|by eapply runs_silent].
  - rewrite E. by rewrite Ef in IH.
Qed.

(** * A concrete shutdown *)

(** A server in memory, with one listener, one client, and a signal. *)
Definition bare_server : Server := NewMulti empty_fs [] FsyncNo [].

Definition quiet_sys : Sys := mkSys bare_server ∅.
Definition busy_sys : Sys := mkSys bare_server {[0%nat := new_conn (B "10.0.0.1:9")]}.

Definition shutdown_script : list (Life * option task) :=
  let two := [GExpiry; GHeartbeat] in
  let one := [GHeartbeat] in
  let at_ sy k loops run m := mkLife sy true k [loops] run m in
  [(Serve_launch bare_server 1 [], None);
   (mkLife busy_sys false 0 [true] two WaitAccept, None);
   (at_ busy_sys 0%nat true two WaitAccept, Some TClose);
   (at_ busy_sys 1%nat true two WaitAccept, Some (TLoop 0));
   (at_ busy_sys 1%nat false two WaitAccept, Some TMain);
   (at_ busy_sys 1%nat false two WaitConns, Some (TClient 0));
   (at_ quiet_sys 1%nat false two WaitConns, Some TMain);
   (at_ quiet_sys 1%nat false two (WaitDone drain_order), Some (TGo GExpiry));
   (at_ quiet_sys 1%nat false one (WaitDone drain_order), Some TMain);
   (at_ quiet_sys 1%nat false one (WaitDone [GRewrite; GReplica; GHeartbeat; GMetrics]), Some TMain);
   (at_ quiet_sys 1%nat false one (WaitDone [GReplica; GHeartbeat; GMetrics]), Some TMain);
   (at_ quiet_sys 1%nat false one (WaitDone [GHeartbeat; GMetrics]), Some (TGo GHeartbeat));
   (at_ quiet_sys 1%nat false [] (WaitDone [GHeartbeat; GMetrics]), Some TMain);
   (at_ quiet_sys 1%nat false [] (WaitDone [GMetrics]), Some TMain);
   (at_ quiet_sys 1%nat false [] (WaitDone []), Some TMain)].

Definition script_end : Life := mkLife quiet_sys true 1 [false] [] Returned.

Definition script_state (n : nat) : Life :=
  match shutdown_script !! n with Some p => p.1 | None => script_end end.
Definition script_label (n : nat) : option task :=
  match shutdown_script !! n with Some p => p.2 | None => None end.

Lemma script_execution `{GoUnicode} : execution script_state script_label.
Proof.
  pose (io := mkCloseIO None true true). split.
  - intros n. do 15 (try (destruct n as [|n]; [left|])); [..|right; done].
    + apply L_accept with (i := 0%nat); [done|lia|]. by apply step_accept.
    + apply L_cancel.
    + apply L_close. simpl. lia.
    + apply L_loop_exit; [done|lia].
    + by apply (L_main _ io).
    + eapply L_conn_exit; [|reflexivity].
      change quiet_sys with (mkSys bare_server (delete 0%nat (sy_conns busy_sys))).
      apply (step_hangup _ _ 0 (new_conn (B "10.0.0.1:9")) order_id); reflexivity.
    + by apply (L_main _ io).
    + apply (L_go_exit _ _ _ [GExpiry; GHeartbeat]). set_solver.
    + by apply (L_main _ io).
    + by apply (L_main _ io).
    + by apply (L_main _ io).
    + apply (L_go_exit _ _ _ [GHeartbeat]). set_solver.
    + by apply (L_main _ io).
    + by apply (L_main _ io).
    + by apply (L_main _ io).
  - intros t i _. exists (i + 15)%nat. split; [lia|right].
    assert (script_state (i + 15) = script_end) as ->.
    { unfold script_state. rewrite lookup_ge_None_2; [done|]. simpl. lia. }
    destruct t as [|j|c|g|]; simpl; [lia|..|tauto].
    + intros [Hj Hl]. assert (j = 0%nat) as -> by lia. done.
    + rewrite lookup_empty. by intros [].
    + intros [_ Hg]. by apply elem_of_nil in Hg.
Qed.

(** * Properties *)

Section properties.
Context `{GoUnicode}.

Lemma launch_start_ok es w path mode primary file open_ok stat_ok s listeners metricsAddr :
  Serve_start es (NewMulti w path mode primary) file open_ok stat_ok = Some s →
  (0 < listeners)%nat → life_ok (Serve_launch s listeners metricsAddr).
Proof. intros Hs. apply launch_ok. by eapply initial_ok. Qed.

Lemma runs_life_ok l tr l' : life_ok l → runs lstep l tr l' → life_ok l'.
Proof. intros Hok. apply runs_invariant; [apply lstep_ok|done]. Qed.

(** From its return on, only deliveries happen. *)
Lemma returned_runs l tr l' :
  life_ok l → l_main l = Returned → runs lstep l tr l' →
  l_main l' = Returned ∧ s_world (sy_server (l_sys l')) = s_world (sy_server (l_sys l)) ∧
  shards (s_db (sy_server (l_sys l'))) = shards (s_db (sy_server (l_sys l))).
Proof.
  intros Hok Hm Hr. revert Hok Hm.
  induction Hr as [|l l1 tr l' Hst _ IH|l t l1 tr l' Hst _ IH]; intros Hok Hm; [done|..];
    destruct (returned_step _ _ _ Hok Hm Hst) as (Hm1 & <- & <-); apply IH; by try eapply lstep_ok.
Qed.

(** C12: a server that is told to stop stops: in every execution of [Serve]
    (any number of listeners, any mix of options, any interleaving of its
    goroutines with requests, deliveries, expiry, rewrites and accepted
    connections) in which the context is cancelled, clients eventually hang
    up and no runnable goroutine is starved, [Serve] returns; and none of the
    steps it waits for can be stuck. *)
Theorem shutdown_returns es w path mode primary file open_ok stat_ok s listeners metricsAddr f lab i :
  Serve_start es (NewMulti w path mode primary) file open_ok stat_ok = Some s →
  (0 < listeners)%nat → f 0%nat = Serve_launch s listeners metricsAddr →
  execution f lab → l_cancelled (f i) = true →
  (∀ n t, enabled t (f n) → ∃ l', lstep (f n) (Some t) l') ∧
  ∃ j, (i ≤ j)%nat ∧ l_main (f j) = Returned.
Proof.
  intros Hs Hn Hf Hex Hc.
  assert (life_ok (f 0%nat)) as H0 by (rewrite Hf; by eapply launch_start_ok).
  split; [intros n t; by eapply enabled_can_step, exec_ok|].
  destruct (listeners_close f lab Hex H0 i Hc) as (j & Hj & Hcl).
  destruct (closing_returns f lab Hex H0 j Hcl) as (j2 & Hj2 & Hr). exists j2. split; [lia|done].
Qed.

(** C27: [Serve] returns only after the context was cancelled, every accept
    loop and background goroutine ended and every connection was torn down,
    so the log is closed last, and nothing that runs afterwards (delivery
    goroutines may) changes a key or a byte of the log. *)
Theorem shutdown_ordered es w path mode primary file open_ok stat_ok s listeners metricsAddr tr l :
  Serve_start es (NewMulti w path mode primary) file open_ok stat_ok = Some s →
  (0 < listeners)%nat → runs lstep (Serve_launch s listeners metricsAddr) tr l →
  l_main l = Returned →
  l_cancelled l = true ∧ l_loops l = replicate (length (l_loops l)) false ∧
  sy_conns (l_sys l) = ∅ ∧ l_running l = [] ∧
  ∀ tr' l', runs lstep l tr' l' →
    l_main l' = Returned ∧
    s_world (sy_server (l_sys l')) = s_world (sy_server (l_sys l)) ∧
    shards (s_db (sy_server (l_sys l'))) = shards (s_db (sy_server (l_sys l))).
Proof.
  intros Hs Hn Hr Hm.
  pose proof (runs_life_ok _ _ _ (launch_start_ok _ _ _ _ _ _ _ _ _ _ metricsAddr Hs Hn) Hr) as Hok.
  assert (∀ i b, l_loops l !! i = Some b → b = false) as Hl by (apply (lo_loops _ Hok); by rewrite Hm).
  split_and!.
  - apply (lo_closed _ Hok). destruct (l_loops l) as [|b loops] eqn:E; [by destruct (lo_some _ Hok)|].
    assert (b = false) as -> by by apply (Hl 0%nat).
    pose proof (lo_exited _ Hok 0%nat) as He. rewrite E in He. specialize (He eq_refl). lia.
  - symmetry. apply replicate_as_elem_of. split; [done|]. intros b Hb.
    apply list_elem_of_lookup_1 in Hb as [i Hi]. by eapply Hl.
  - apply (lo_conns _ Hok); by rewrite Hm.
  - by apply (lo_over _ Hok).
  - intros tr' l' Hr'. by eapply returned_runs.
Qed.

(** A client that stays connected keeps the server from stopping: as
    long as the handler of a connection has not ended, no execution of any
    length, signal or not, gets [Serve] past its wait for connections, so the
    log is neither closed nor synced by a shutdown. *)
Theorem idle_client_blocks_shutdown es w path mode primary file open_ok stat_ok s listeners metricsAddr
    tr l c tr' l' :
  Serve_start es (NewMulti w path mode primary) file open_ok stat_ok = Some s →
  (0 < listeners)%nat → runs lstep (Serve_launch s listeners metricsAddr) tr l →
  is_Some (sy_conns (l_sys l) !! c) →
  runs lstep l tr' l' → TClient c ∉ tr' →
  is_Some (sy_conns (l_sys l') !! c) ∧ (l_main l' = WaitAccept ∨ l_main l' = WaitConns).
Proof.
  intros Hs Hn Hr Hc Hr' Ht.
  pose proof (runs_life_ok _ _ _ (launch_start_ok _ _ _ _ _ _ _ _ _ _ metricsAddr Hs Hn) Hr) as Hok.
  clear Hr. assert (is_Some (sy_conns (l_sys l') !! c) ∧ life_ok l') as [Hc' Hok'].
  { induction Hr' as [|l l1 tr' l' Hst _ IH|l t l1 tr' l' Hst _ IH]; [done|..];
      apply IH; try set_solver; try (by eapply lstep_ok); eapply conn_stays; set_solver. }
  split; [done|]. by eapply conn_open_main.
Qed.
End properties.

Lemma shutdown_returns_witness : ∃ j, (2 ≤ j)%nat ∧ l_main (script_state j) = Returned.
Proof.
  refine (proj2 (@shutdown_returns plain_unicode (λ _, quiet 0) empty_fs [] FsyncNo [] Replay.Missing true true
    bare_server 1 [] script_state script_label 2 _ _ _ (@script_execution plain_unicode) _)).
  - reflexivity.
  - lia.
  - reflexivity.
  - reflexivity.
Defined.

Lemma shutdown_ordered_witness :
  sy_conns (l_sys script_end) = ∅ ∧
  ∀ tr' l', runs (@lstep plain_unicode) script_end tr' l' → l_main l' = Returned.
Proof.
  destruct (@shutdown_ordered plain_unicode (λ _, quiet 0) empty_fs [] FsyncNo [] Replay.Missing true true
    bare_server 1 [] _ script_end eq_refl ltac:(lia)
    (execution_window script_state script_label 0 15 script_execution) eq_refl)
    as (_ & _ & Hc & _ & Hl).
  split; [exact Hc|]. intros tr' l' Hr. exact (proj1 (Hl tr' l' Hr)).
Defined.

(** The script up to the wait for its client, who has not hung up. *)
Lemma idle_client_blocks_shutdown_witness :
  l_main (script_state 5) = WaitAccept ∨ l_main (script_state 5) = WaitConns.
Proof.
  refine (proj2 (@idle_client_blocks_shutdown plain_unicode (λ _, quiet 0) empty_fs [] FsyncNo [] Replay.Missing
    true true bare_server 1 [] _ (script_state 1) 0 _ (script_state 5) eq_refl ltac:(lia)
    (execution_window script_state script_label 0 1 script_execution) _
    (execution_window script_state script_label 1 4 script_execution) _)).
  - eexists. reflexivity.
  - set_solver.
Defined.
