(* ===== verification/Metrics.v ===== *)
(** [internal/metrics]: the recording helpers, the registration of the live
    gauges, and the server with its metrics.

    The Prometheus client is a parameter: what it does with each call is
    stated as laws on the readings a scrape returns.  The readings are
    integers (the client adds float64 ones, exact up to 2^53). *)

From Stdlib Require Import Floats.SpecFloat.
From S2P Require Import Prelude Lts GoLib Protocol PubSub Store Db Expiry Cmd Aof Replication Server.
From S2P Require Import CmdFacts CmdSpec ServerFacts.

(** * The client library *)

(** The calls the package makes on its metric objects: [commandsTotal],
    [commandDuration], [aofBytesWritten], [aofFsyncDuration] and
    [connectionsActive]. *)
Inductive prom_call :=
  | CommandInc (cmd result : bytes)
  | CommandObserve (cmd : bytes) (seconds : spec_float)
  | BytesAdd (n : Z)
  | FsyncObserve (seconds : spec_float)
  | ConnInc
  | ConnDec.

Definition gauge_delta (c : prom_call) : Z :=
  match c with ConnInc => 1 | ConnDec => -1 | _ => 0 end.

Definition bytes_delta (c : prom_call) : Z :=
  match c with BytesAdd n => n | _ => 0 end.

Definition series_of (c : prom_call) : gset (bytes * bytes) :=
  match c with CommandInc cmd result => {[(cmd, result)]} | _ => ∅ end.

Definition count_of (l : bytes * bytes) (c : prom_call) : Z :=
  if bool_decide (l ∈ series_of c) then 1 else 0.

(** The readings: the gauge, the counter of log bytes, the value of a counter
    of the vector, and the label pairs that exist. *)
Class Prometheus := {
  registry : Type;
  empty_registry : registry;
  call : prom_call → registry → registry;
  gauge_value : registry → Z;
  bytes_value : registry → Z;
  counter_value : bytes * bytes → registry → Z;
  series : registry → gset (bytes * bytes)
}.

(** A gauge starts at 0, [Inc] and [Dec] change it by one; a counter starts at
    0 and [Add] adds to it; a counter vector starts without series, [WithLabelValues] creates the one it names and
    [Inc] adds one to it alone. *)
Class PrometheusLaws `{Prometheus} := {
  gauge_empty : gauge_value empty_registry = 0;
  gauge_call c r : gauge_value (call c r) = gauge_value r + gauge_delta c;
  bytes_empty : bytes_value empty_registry = 0;
  bytes_call c r : bytes_value (call c r) = bytes_value r + bytes_delta c;
  counter_empty l : counter_value l empty_registry = 0;
  counter_call l c r : counter_value l (call c r) = counter_value l r + count_of l c;
  series_empty : series empty_registry = ∅;
  series_call c r : series (call c r) = series_of c ∪ series r
}.

(** * State of the package *)

(** [m_names] are the collectors registered on the default registry, by
    name; the providers are closures over the running server, called at
    scrape time (the lag provider reads the clock and ranges over a map). *)
Record Metrics `{Prometheus} := mkMetrics {
  m_enabled : bool;
  m_once : bool;
  m_names : list bytes;
  m_keysFn : option (Server → spec_float);
  m_lagFn : option (map_order → Z → Server → gmap bytes spec_float);
  m_registry : registry
}.

Arguments mkMetrics {_} _ _ _ _ _ _.

Section metrics.
Context `{Prometheus}.

(** After package initialisation: the five metrics of the [var] block are
    registered, recording is off and nothing is wired. *)
Definition package_init : Metrics :=
  mkMetrics false false
    [B "mini_redis_commands_total"; B "mini_redis_command_duration_seconds";
     B "mini_redis_aof_bytes_written_total"; B "mini_redis_aof_fsync_duration_seconds";
     B "mini_redis_connections_active"] None None empty_registry.

Definition record (cs : list prom_call) (m : Metrics) : Metrics :=
  if negb (m_enabled m) then m
  else mkMetrics (m_enabled m) (m_once m) (m_names m) (m_keysFn m) (m_lagFn m)
         (foldl (λ r c, call c r) (m_registry m) cs).

Definition ObserveCommand (cmd result : bytes) (d : Z) : Metrics → Metrics :=
  record [CommandInc cmd result; CommandObserve cmd (Seconds d)].

Definition AddAOFBytes (n : Z) : Metrics → Metrics := record [BytesAdd n].

Definition ObserveFsync (d : Z) : Metrics → Metrics := record [FsyncObserve (Seconds d)].

Definition ConnOpened : Metrics → Metrics := record [ConnInc].

Definition ConnClosed : Metrics → Metrics := record [ConnDec].

(** [promauto] and [MustRegister] panic ([None]) on a name already taken. *)
Definition register (name : bytes) (names : list bytes) : option (list bytes) :=
  if bool_decide (name ∈ names) then None else Some (names ++ [name]).

Definition Init (keys : Server → spec_float) (lag : map_order → Z → Server → gmap bytes spec_float)
    (m : Metrics) : option Metrics :=
  let wired names := mkMetrics true true names (Some keys) (Some lag) (m_registry m) in
  if m_once m then Some (wired (m_names m))
  else
    match register (B "mini_redis_keys_total") (m_names m) with
    | None => None
    | Some names =>
        match register (B "mini_redis_memory_bytes") names with
        | None => None
        | Some names =>
            match register (B "mini_redis_replication_lag_seconds") names with
            | None => None
            | Some names => Some (wired names)
            end
        end
    end.

(** The keys gauge at scrape time. *)
Definition keys_gauge (m : Metrics) (s : Server) : spec_float :=
  match m_keysFn m with Some f => f s | None => f64_of_int 0 end.

(** [lagCollector.Collect]: one series per replica address. *)
Definition Collect (o o' : map_order) (now : Z) (m : Metrics) (s : Server)
    : list (bytes * spec_float) :=
  match m_lagFn m with None => [] | Some f => range_map o' (f o now s) end.

(** The providers [Serve] wires when [--metrics-addr] is set. *)
Definition server_keys (s : Server) : spec_float := f64_of_int (KeyCount (s_db s)).
Definition server_lag (o : map_order) (now : Z) (s : Server) : gmap bytes spec_float :=
  LagSeconds o (s_replicas s) now.

Definition Serve_metrics (metricsAddr : bytes) (m : Metrics) : option Metrics :=
  if bool_decide (metricsAddr = []) then Some m else Init server_keys server_lag m.
End metrics.

(** * The server with its metrics *)

Section metered.
Context `{Prometheus} `{GoUnicode}.

(** Which requests reach [apply] in [serve]. *)
Definition to_apply (s : Server) (cs : connState) (name : bytes) : bool :=
  negb (subscribed cs && negb (allowedWhileSubscribed name)) &&
  negb (bool_decide (name ∈ [B "SUBSCRIBE"; B "UNSUBSCRIBE"; B "REPLICAOF"; B "REPLCONF"; B "QUIT"])) &&
  negb (negb (bool_decide (s_primaryAddr s = [])) && IsWrite name).

(** The label pair a request is counted under. *)
Definition observation (e : env) (s : Server) (cs : connState) (request : Value)
    : option (bytes * bytes) :=
  if to_apply s cs (ToUpper (commandName request))
  then match apply e s request with Some (_, _, l) => Some l | None => None end
  else None.

Definition observe (obs : option (bytes * bytes)) (d : Z) (m : Metrics) : Metrics :=
  match obs with Some (label, result) => ObserveCommand label result d m | None => m end.

(** [countingWriter] reports what a flush of the log passed on. *)
Definition logged (s s' : Server) (m : Metrics) : Metrics :=
  let n := aofBytes (s_world s') - aofBytes (s_world s) in
  if n =? 0 then m else AddAOFBytes n m.

Record MSys := mkMSys { ms_sys : Sys; ms_metrics : Metrics }.

(** What passes over a connection for one request: whether the client is
    subscribed, whether the server is a replica, what is asked and the
    frames written back. *)
Record exchange := mkExchange {
  x_subscribed : bool;
  x_replica : bool;
  x_request : Value;
  x_frames : list Value
}.

Definition exchanged (s : Server) (cs : connState) (request : Value) (out : list Value) : exchange :=
  mkExchange (subscribed cs) (negb (bool_decide (s_primaryAddr s = []))) request out.

(** [handle] counts its connection in and out, [apply] counts each request,
    the log reports its bytes and syncs.  The label is the exchange, not what
    the metrics make of it. *)
Inductive mstep : MSys → option exchange → MSys → Prop :=
  | M_accept s conns c remote m :
      conns !! c = None →
      mstep (mkMSys (mkSys s conns) m) None
            (mkMSys (mkSys s (<[c := new_conn remote]> conns)) (ConnOpened m))
  | M_request s conns c cs e wok request s' cs' out m d :
      conns !! c = Some cs → serve e wok s cs request = Some (s', cs', out, true) →
      mstep (mkMSys (mkSys s conns) m) (Some (exchanged s cs request out))
            (mkMSys (mkSys s' (<[c := cs']> conns))
                    (observe (observation e s cs request) d (logged s s' m)))
  | M_last s conns c cs e wok request s' cs' out o s'' m d :
      conns !! c = Some cs → serve e wok s cs request = Some (s', cs', out, false) →
      teardown o s' cs' = Some s'' →
      mstep (mkMSys (mkSys s conns) m) (Some (exchanged s cs request out))
            (mkMSys (mkSys s'' (delete c conns))
                    (ConnClosed (observe (observation e s cs request) d (logged s s'' m))))
  | M_hangup s conns c cs o s' m :
      conns !! c = Some cs → teardown o s cs = Some s' →
      mstep (mkMSys (mkSys s conns) m) None
            (mkMSys (mkSys s' (delete c conns)) (ConnClosed (logged s s' m)))
  | M_background a sy sy' m :
      a = Delivery ∨ a = Fsyncer ∨ (∃ g, a = Background g) → acts a sy sy' →
      mstep (mkMSys sy m) None (mkMSys sy' (logged (sy_server sy) (sy_server sy') m))
  | M_sync sy m d : mstep (mkMSys sy m) None (mkMSys sy (ObserveFsync d m)).

(** ** What is to be counted *)

(** The exchanges that reach the dispatcher: no connection-level command, no
    command but [PING] while subscribed, no write on a replica. *)
Definition dispatched (x : exchange) : Prop :=
  let name := ToUpper (commandName (x_request x)) in
  name ∉ [B "SUBSCRIBE"; B "UNSUBSCRIBE"; B "REPLICAOF"; B "REPLCONF"; B "QUIT"] ∧
  (x_subscribed x = true → name = B "PING") ∧
  (x_replica x = true → IsWrite name = false).

#[global] Instance dispatched_dec x : Decision (dispatched x).
Proof. apply _. Defined.

(** They are counted under the name of a registered command or as unknown,
    as errors when an error is what the client gets. *)
Definition counted_under (x : exchange) (l : bytes * bytes) : Prop :=
  dispatched x ∧
  l.1 = (let name := ToUpper (commandName (x_request x)) in
         if decide (name ∈ commands.*1) then name else B "unknown") ∧
  l.2 = (if decide (Exists (λ v, vType v = TypeError) (x_frames x)) then B "error" else B "ok").

#[global] Instance counted_under_dec x l : Decision (counted_under x l).
Proof. apply _. Defined.

(** ** Facts *)

Lemma serve_to_apply e wok s cs request :
  to_apply s cs (ToUpper (commandName request)) = true →
  serve e wok s cs request =
  match apply e s request with
  | None => None
  | Some (s', reply, _) => Some (reply_one wok s' cs reply)
  end.
Proof.
  unfold to_apply, serve. intros Ha. reflect_bools.
  set (name := ToUpper (commandName request)) in *.
  assert (∀ x, x ∈ [B "SUBSCRIBE"; B "UNSUBSCRIBE"; B "REPLICAOF"; B "REPLCONF"; B "QUIT"] →
    bool_decide (name = x) = false) as Hx by (intros x ?; apply bool_decide_eq_false_2; congruence).
  rewrite !Hx by set_solver. by repeat (case_match; try done).
Qed.

Lemma to_apply_dispatched s cs request out :
  to_apply s cs (ToUpper (commandName request)) = true ↔ dispatched (exchanged s cs request out).
Proof.
  unfold to_apply, dispatched, exchanged, allowedWhileSubscribed. cbn [x_subscribed x_replica x_request].
  set (name := ToUpper (commandName request)).
  destruct (subscribed cs), (bool_decide (s_primaryAddr s = [])), (IsWrite name);
    repeat case_bool_decide; cbn; set_solver.
Qed.

Lemma Known_registered name : Known name = bool_decide (ToUpper name ∈ commands.*1).
Proof.
  unfold Known. destruct (assoc (ToUpper name) commands) as [f|] eqn:E; symmetry.
  - apply bool_decide_eq_true_2, list_elem_of_fmap. exists (ToUpper name, f). by split; [|apply assoc_elem].
  - apply bool_decide_eq_false_2. by eapply assoc_None.
Qed.

(** What [apply] records is what the exchange is to be counted under. *)
Lemma observation_counted e wok s cs request s' cs' out more l :
  serve e wok s cs request = Some (s', cs', out, more) →
  observation e s cs request = Some l ↔ counted_under (exchanged s cs request out) l.
Proof.
  intros E. unfold observation. pose proof (to_apply_dispatched s cs request out) as Hd.
  destruct (to_apply _ _ _) eqn:Ht.
  2:{ split; [done|]. intros [Hx _]. by apply Hd in Hx. }
  rewrite serve_to_apply in E by done. unfold apply in *.
  destruct (applyRecord _ _ _ _) as [[s1 reply]|]; [|done]. injection E as <- <- <- <-.
  unfold counted_under. cbn [exchanged x_frames x_request]. rewrite Known_registered.
  assert (byte_eqb (vType reply) TypeError = bool_decide (Exists (λ v, vType v = TypeError) [reply])) as ->.
  { apply eq_bool_prop_intro. rewrite !Is_true_true, byte_eqb_eq, bool_decide_eq_true, Exists_cons, Exists_nil. tauto. }
  destruct l as [l1 l2]. rewrite !(decide_bool_decide). cbn [fst snd].
  split; [intros [= <- <-]; split; [by apply Hd|done]|by intros (_ & -> & ->)].
Qed.

(** How many of the exchanges are to be counted under a label pair. *)
Definition occurrences (l : bytes * bytes) (tr : list exchange) : Z :=
  zlen (filter (λ x, counted_under x l) tr).

Lemma occurrences_app l tr1 tr2 : occurrences l (tr1 ++ tr2) = occurrences l tr1 + occurrences l tr2.
Proof. unfold occurrences. rewrite filter_app. autorewrite with go_len. lia. Qed.

Context `{!PrometheusLaws}.

(** What a stretch of the server's life adds to the readings: [dc]
    connections, [db] bytes and the counts [f]. *)
Definition accounted (dc db : Z) (f : bytes * bytes → Z) (m m' : Metrics) : Prop :=
  (m_enabled m', m_keysFn m', m_lagFn m') = (m_enabled m, m_keysFn m, m_lagFn m) ∧
  if m_enabled m then
    gauge_value (m_registry m') = gauge_value (m_registry m) + dc ∧
    bytes_value (m_registry m') = bytes_value (m_registry m) + db ∧
    (∀ l, counter_value l (m_registry m') = counter_value l (m_registry m) + f l) ∧
    (∀ l, l ∈ series (m_registry m') → l ∈ series (m_registry m) ∨ 0 < f l)
  else m' = m.

Lemma accounted_refl m : accounted 0 0 (λ _, 0) m m.
Proof. split; [done|]. destruct (m_enabled m); [|done]. split_and!; intros; lia || by left. Qed.

Lemma accounted_eq dc db f dc' db' f' m m' :
  dc = dc' → db = db' → (∀ l, f l = f' l) → accounted dc db f m m' → accounted dc' db' f' m m'.
Proof.
  intros <- <- Hf [A1 A2]. split; [done|]. destruct (m_enabled m); [|done]. destruct A2 as (A2 & A3 & A4 & A5).
  split_and!; [done..| |]; intros l; rewrite <-Hf; auto.
Qed.

Lemma accounted_trans dc1 db1 f1 dc2 db2 f2 m m1 m2 :
  (∀ l, 0 ≤ f1 l) → (∀ l, 0 ≤ f2 l) →
  accounted dc1 db1 f1 m m1 → accounted dc2 db2 f2 m1 m2 →
  accounted (dc1 + dc2) (db1 + db2) (λ l, f1 l + f2 l) m m2.
Proof.
  intros P1 P2 [[= E1 K1 L1] A1] [[= E2 K2 L2] A2]. rewrite E1 in E2, A2. split; [congruence|].
  destruct (m_enabled m); [|by subst m1]. destruct A1 as (G1 & B1 & C1 & S1), A2 as (G2 & B2 & C2 & S2).
  split_and!; [lia|lia| |].
  - intros l. rewrite C2, C1. lia.
  - intros l [Hl|Hl]%S2; [apply S1 in Hl as [Hl|Hl]; [by left|right]|right]; specialize (P1 l); specialize (P2 l); lia.
Qed.

(** One recording helper that is on. *)
Lemma record_accounted dc db f cs m :
  foldr (λ c n, gauge_delta c + n) 0 cs = dc → foldr (λ c n, bytes_delta c + n) 0 cs = db →
  (∀ l, foldr (λ c n, count_of l c + n) 0 cs = f l) →
  accounted dc db f m (record cs m).
Proof.
  intros <- <- Hf. unfold accounted, record. destruct (m_enabled m) eqn:E; simpl; [|by rewrite E].
  split; [done|]. clear E. generalize (m_registry m) as r. revert f Hf.
  induction cs as [|c cs IH]; intros f Hf r; simpl in *.
  - split_and!; [lia|lia|intros l; rewrite <-Hf; lia|by left].
  - destruct (IH (λ l, f l - count_of l c) ltac:(intros l; cbv beta; rewrite <-Hf; lia) (call c r)) as (G & Bt & C & S).
    rewrite G, Bt, gauge_call, bytes_call. split_and!; [lia|lia| |].
    + intros l. rewrite C, counter_call. lia.
    + intros l [Hl|Hl]%S.
      * rewrite series_call, elem_of_union in Hl. destruct Hl as [Hl|Hl]; [right|by left].
        rewrite <-Hf. unfold count_of at 1. rewrite bool_decide_eq_true_2 by done.
        assert (∀ l (cs : list prom_call), 0 ≤ foldr (λ c n, count_of l c + n) 0 cs) as Hp.
        { intros l'. induction cs0 as [|c' cs' IH']; simpl; [lia|]. unfold count_of at 1. case_bool_decide; lia. }
        specialize (Hp l cs). lia.
      * right. unfold count_of in Hl. case_bool_decide; lia.
Qed.

Ltac one_call := apply record_accounted; cbn; intros; unfold count_of; cbn;
  rewrite ?bool_decide_eq_false_2 by set_solver; lia.

Lemma opened_accounted m : accounted 1 0 (λ _, 0) m (ConnOpened m).
Proof. one_call. Qed.

Lemma closed_accounted m : accounted (-1) 0 (λ _, 0) m (ConnClosed m).
Proof. one_call. Qed.

Lemma fsync_accounted d m : accounted 0 0 (λ _, 0) m (ObserveFsync d m).
Proof. one_call. Qed.

Lemma logged_accounted s s' m :
  accounted 0 (aofBytes (s_world s') - aofBytes (s_world s)) (λ _, 0) m (logged s s' m).
Proof. unfold logged. case_match eqn:E; [apply Z.eqb_eq in E; rewrite E; apply accounted_refl|one_call]. Qed.

Lemma observe_accounted e wok s cs request s' cs' out more d m :
  serve e wok s cs request = Some (s', cs', out, more) →
  accounted 0 0 (λ l, occurrences l [exchanged s cs request out]) m (observe (observation e s cs request) d m).
Proof.
  intros E. pose proof (λ l, observation_counted _ _ _ _ _ _ _ _ _ l E) as Ho.
  assert (∀ l, occurrences l [exchanged s cs request out] =
    if bool_decide (observation e s cs request = Some l) then 1 else 0) as Hocc.
  { intros l. unfold occurrences. rewrite filter_cons, filter_nil.
    rewrite (bool_decide_ext _ _ (Ho l)). by case_decide; case_bool_decide. }
  destruct (observation e s cs request) as [[label result]|]; cbn [observe].
  - apply record_accounted; [done..|]. intros l. rewrite Hocc. cbn. unfold count_of. cbn [series_of].
    rewrite (bool_decide_eq_false_2 (l ∈ ∅)) by set_solver. repeat case_bool_decide; set_solver.
  - eapply accounted_eq; [..|apply accounted_refl]; [done..|]. intros l. by rewrite Hocc.
Qed.

Lemma occurrences_nonneg l tr : 0 ≤ occurrences l tr.
Proof. unfold occurrences, zlen. lia. Qed.

Definition conn_count (ms : MSys) : Z := Z.of_nat (size (sy_conns (ms_sys ms))).
Definition log_bytes (ms : MSys) : Z := aofBytes (s_world (sy_server (ms_sys ms))).

Lemma delete_count (conns : gmap nat connState) c cs :
  conns !! c = Some cs → Z.of_nat (size (delete c conns)) - Z.of_nat (size conns) = -1.
Proof.
  intros Hc. rewrite map_size_delete_Some by by eexists. assert (size conns ≠ 0%nat); [|lia].
  intros Hz. apply map_size_empty_inv in Hz. subst. by rewrite lookup_empty in Hc.
Qed.

Lemma mstep_accounted ms x ms' :
  mstep ms x ms' →
  accounted (conn_count ms' - conn_count ms) (log_bytes ms' - log_bytes ms)
    (λ l, occurrences l (option_list x)) (ms_metrics ms) (ms_metrics ms').
Proof.
  unfold conn_count, log_bytes.
  intros Hst. destruct Hst as [s conns c remote m Hn|s conns c cs e wok request s' cs' out m d Hc E
    |s conns c cs e wok request s' cs' out o s'' m d Hc E Ht|s conns c cs o s' m Hc Ht
    |a sy sy' m Ha Hst|sy m d]; simpl.
  - eapply accounted_eq; [| | |apply opened_accounted]; [rewrite map_size_insert_None by done; lia|lia|done].
  - eapply accounted_eq; [| | |eapply accounted_trans; [| |apply (logged_accounted s s')|by eapply observe_accounted]];
      intros; rewrite ?map_size_insert_Some by (by eexists); try apply occurrences_nonneg; cbn; lia.
  - eapply accounted_eq; [| | |eapply accounted_trans; [| | |apply closed_accounted];
      [| |eapply accounted_trans; [| |apply (logged_accounted s s'')|by eapply observe_accounted]]];
      intros; cbn; rewrite ?(delete_count conns c cs) by done;
      try pose proof (occurrences_nonneg l [exchanged s cs request out]); lia.
  - eapply accounted_eq; [| | |eapply accounted_trans; [| |apply (logged_accounted s s')|apply closed_accounted]];
      intros; cbn; rewrite ?(delete_count conns c cs) by done; lia || done.
  - eapply accounted_eq; [| | |apply (logged_accounted (sy_server sy) (sy_server sy'))]; [|lia|done].
    assert (sy_conns sy' = sy_conns sy) as ->; [|lia]. destruct Hst; simpl; try done; naive_solver.
  - eapply accounted_eq; [| | |apply fsync_accounted]; intros; lia || done.
Qed.

Lemma runs_accounted ms tr ms' :
  runs mstep ms tr ms' →
  accounted (conn_count ms' - conn_count ms) (log_bytes ms' - log_bytes ms)
    (λ l, occurrences l tr) (ms_metrics ms) (ms_metrics ms').
Proof.
  induction 1 as [ms|ms ms1 tr ms' Hst _ IH|ms x ms1 tr ms' Hst _ IH].
  - eapply accounted_eq; [| | |apply accounted_refl]; intros; lia || done.
  - eapply accounted_eq; [| | |eapply accounted_trans; [| |exact (mstep_accounted _ _ _ Hst)|exact IH]];
      intros; cbn; try apply occurrences_nonneg; try lia. done.
  - eapply accounted_eq; [| | |eapply accounted_trans; [| |exact (mstep_accounted _ _ _ Hst)|exact IH]];
      intros; cbn; try apply occurrences_nonneg; try lia. by rewrite <-occurrences_app.
Qed.

(** An exchange that is counted at all is counted under one of finitely many
    label pairs. *)
Lemma occurrences_bounded l tr :
  0 < occurrences l tr → l.1 ∈ B "unknown" :: commands.*1 ∧ l.2 ∈ [B "ok"; B "error"].
Proof.
  unfold occurrences. destruct (filter _ tr) as [|x xs] eqn:E; [done|]. intros _.
  assert (x ∈ filter (λ x, counted_under x l) tr) as Hx by (rewrite E; set_solver).
  apply list_elem_of_filter in Hx as [(_ & -> & ->) _]. split.
  - apply elem_of_cons. cbv zeta. destruct (decide _); [by right|by left].
  - apply elem_of_cons. destruct (decide _); [right; by constructor|by left].
Qed.

(** The server below the metrics. *)
Lemma mstep_sys_ok ms obs ms' : sys_ok (ms_sys ms) → mstep ms obs ms' → sys_ok (ms_sys ms').
Proof.
  intros Hok Hst.
  assert ((∃ a, acts a (ms_sys ms) (ms_sys ms')) ∨ ms_sys ms' = ms_sys ms) as Hs.
  2:{ destruct Hs as [[a Ha]|Hs]; [by eapply acts_ok|by rewrite Hs]. }
  destruct Hst; simpl; try (by right); left; eexists.
  - by apply step_accept.
  - by eapply step_request.
  - by eapply step_last.
  - by eapply step_hangup.
  - done.
Qed.
End metered.

(** ** The live gauges *)

Lemma size_list_to_set_le (l : list (bytes * bytes)) :
  (size (list_to_set l : gset (bytes * bytes)) ≤ length l)%nat.
Proof.
  induction l as [|x l IH]; [done|]. rewrite list_to_set_cons, size_union_alt, size_singleton.
  assert (list_to_set l ∖ {[x]} ⊆ (list_to_set l : gset (bytes * bytes))) as Hs%subseteq_size
    by set_solver. simpl. lia.
Qed.

Lemma elem_of_keys {V} (m : gmap bytes V) k : k ∈ (map_to_list m).*1 ↔ is_Some (m !! k).
Proof.
  rewrite list_elem_of_fmap. split.
  - intros ([k' v] & -> & Hk). apply elem_of_map_to_list in Hk. by eexists.
  - intros [v Hv]. exists (k, v). by rewrite elem_of_map_to_list.
Qed.

(** [rep] is a registered replica feed of the address [a]. *)
Definition replica_at (s : Server) (p : nat) (rep : Replica) (a : bytes) : Prop :=
  registered (s_replicas s) p ∧ rheap (s_replicas s) !! p = Some rep ∧ r_addr rep = a.

Lemma LagSeconds_spec o r now addr :
  (∀ v, LagSeconds o r now !! addr = Some v →
     ∃ p rep, registered r p ∧ rheap r !! p = Some rep ∧ r_addr rep = addr ∧ v = Seconds (sinceAck rep now)) ∧
  (∀ p rep, registered r p → rheap r !! p = Some rep → r_addr rep = addr →
     is_Some (LagSeconds o r now !! addr)).
Proof.
  unfold LagSeconds.
  set (step := λ (out : gmap bytes spec_float) p, match rheap r !! p with
    | Some rep => <[r_addr rep := Seconds (sinceAck rep now)]> out | None => out end).
  assert (∀ ps out v, foldl step out ps !! addr = Some v → out !! addr = Some v ∨
    ∃ p rep, p ∈ ps ∧ rheap r !! p = Some rep ∧ r_addr rep = addr ∧ v = Seconds (sinceAck rep now)) as Hf.
  { induction ps as [|p ps IH]; intros out v; simpl; [by left|]. intros [Hv|(q & rep & ? & ?)]%IH.
    - unfold step in Hv. destruct (rheap r !! p) as [rep|] eqn:E; [|by left].
      apply lookup_insert_Some in Hv as [[Ha <-]|[_ ?]]; [|by left]. right. exists p, rep. set_solver.
    - right. exists q, rep. set_solver. }
  assert (∀ ps out, is_Some (out !! addr) ∨ (∃ p rep, p ∈ ps ∧ rheap r !! p = Some rep ∧ r_addr rep = addr) →
    is_Some (foldl step out ps !! addr)) as Hb.
  { induction ps as [|p ps IH]; intros out; simpl.
    - intros [?|(p & rep & Hp & _)]; [done|]. by apply elem_of_nil in Hp.
    - intros Hor. apply IH. unfold step. destruct Hor as [Ho|(q & rep & [->|Hq]%elem_of_cons & Hr & Ha)].
      + left. destruct (rheap r !! p); [|done]. apply lookup_insert_is_Some'. by right.
      + left. rewrite Hr, <-Ha. apply lookup_insert_is_Some'. by left.
      + right. by exists q, rep. }
  split.
  - intros v Hv. apply Hf in Hv as [Hv|(p & rep & Hp & ?)]; [by rewrite lookup_empty in Hv|].
    apply elem_of_feeds in Hp. by exists p, rep.
  - intros p rep Hp Hr Ha. apply Hb. right. exists p, rep. by rewrite elem_of_feeds.
Qed.

Lemma lag_series o o' now s :
  let lags := range_map o' (server_lag o now s) in
  NoDup lags.*1 ∧
  (∀ a, a ∈ lags.*1 ↔ ∃ p rep, replica_at s p rep a) ∧
  (∀ a v, (a, v) ∈ lags → ∃ p rep, replica_at s p rep a ∧ v = Seconds (sinceAck rep now)).
Proof.
  unfold range_map, server_lag, replica_at. cbv zeta.
  pose proof (λ a, LagSeconds_spec o (s_replicas s) now a) as Hl.
  pose proof (iter_perm o' (map_to_list (LagSeconds o (s_replicas s) now))) as Hp. split_and!.
  - rewrite (fmap_Permutation fst _ _ Hp). apply NoDup_fst_map_to_list.
  - intros a. rewrite (fmap_Permutation fst _ _ Hp), elem_of_keys. split.
    + intros [v Hv]. apply Hl in Hv. naive_solver.
    + intros (p & rep & ? & ? & ?). by eapply Hl.
  - intros a v Hin. rewrite Hp, elem_of_map_to_list in Hin. apply Hl in Hin. naive_solver.
Qed.

Lemma Init_fresh `{Prometheus} keys lag :
  ∃ names, Init keys lag package_init
    = Some (mkMetrics true true names (Some keys) (Some lag) empty_registry).
Proof. by eexists. Qed.

(** [Init] in a fresh process wires the gauges; called again it does not
    register them twice. *)
Lemma Init_twice `{Prometheus} keys lag keys' lag' :
  ∃ m m', Init keys lag package_init = Some m ∧ Init keys' lag' m = Some m' ∧
    m_names m' = m_names m ∧ m_enabled m = true ∧ m_enabled m' = true.
Proof. eexists _, _. by split_and!. Qed.

Lemma Serve_metrics_fresh `{Prometheus} addr m :
  Serve_metrics addr package_init = Some m →
  m_registry m = empty_registry ∧
  (m_enabled m, m_keysFn m, m_lagFn m) =
    if bool_decide (addr = []) then (false, None, None)
    else (true, Some server_keys, Some server_lag).
Proof.
  unfold Serve_metrics. case_bool_decide; [by intros [= <-]|].
  destruct (Init_fresh server_keys server_lag) as [names ->]. by intros [= <-].
Qed.

(** A client that keeps every call, for concrete runs. *)
#[global] Instance counting_prometheus : Prometheus := {|
  registry := list prom_call;
  empty_registry := [];
  call c r := c :: r;
  gauge_value r := foldr (λ c n, n + gauge_delta c) 0 r;
  bytes_value r := foldr (λ c n, n + bytes_delta c) 0 r;
  counter_value l r := foldr (λ c n, n + count_of l c) 0 r;
  series r := foldr (λ c s, series_of c ∪ s) ∅ r
|}.

#[global] Instance counting_laws : PrometheusLaws.
Proof. by split. Qed.

(** * Properties *)

(** C32: with metrics on, a scrape shows the server as it is: the gauge of
    open connections is the number of connections; each command counter is
    the number of exchanges, among all that passed over the connections, that
    were dispatched (not answered by the connection itself: no connection
    command, no command refused while subscribed, no write refused on a
    replica), under the upper-cased name of a registered command or
    "unknown", and as an error exactly when an error frame was written back;
    the byte counter is what went through the log's counting writer; the keys
    gauge is the number of keys stored; and there is one lag series per
    address with a registered replica feed, whose value is the seconds since
    the last acknowledgement of a feed of that address.  With metrics off
    nothing is ever recorded. *)
Theorem scrape_is_exact `{PrometheusLaws} `{GoUnicode} s addr m tr ms :
  sys_ok (mkSys s ∅) → Serve_metrics addr package_init = Some m →
  runs mstep (mkMSys (mkSys s ∅) m) tr ms →
  let reg := m_registry (ms_metrics ms) in
  let now_server := sy_server (ms_sys ms) in
  if bool_decide (addr = []) then reg = empty_registry
  else
    gauge_value reg = Z.of_nat (size (sy_conns (ms_sys ms))) ∧
    (∀ l, counter_value l reg = zlen (filter (λ x, counted_under x l) tr)) ∧
    bytes_value reg = aofBytes (s_world now_server) - aofBytes (s_world s) ∧
    keys_gauge (ms_metrics ms) now_server = f64_of_int (Z.of_nat (size (keyspace (s_db now_server)))) ∧
    (∀ o o' now, let lags := Collect o o' now (ms_metrics ms) now_server in
       NoDup lags.*1 ∧
       (∀ a, a ∈ lags.*1 ↔ ∃ p rep, replica_at now_server p rep a) ∧
       (∀ a v, (a, v) ∈ lags → ∃ p rep, replica_at now_server p rep a ∧ v = Seconds (sinceAck rep now))).
Proof.
  intros Hs Hm Hr. pose proof (runs_accounted _ _ _ Hr) as [[= He Hk Hl] Ha]. simpl in *.
  assert (sys_ok (ms_sys ms)) as Hok.
  { eapply (runs_invariant mstep (λ ms, sys_ok (ms_sys ms))); [apply mstep_sys_ok| |exact Hr]. done. }
  destruct (Serve_metrics_fresh _ _ Hm) as [E0 E]. simpl.
  case_bool_decide; injection E as E1 E2 E3; rewrite E1 in Ha; [by rewrite Ha|].
  rewrite E0 in Ha. destruct Ha as (Hg & Hb & Hc & _). unfold conn_count, log_bytes in *. split_and!.
  - rewrite Hg, gauge_empty. simpl. rewrite map_size_empty. lia.
  - intros l. rewrite Hc, counter_empty. done.
  - rewrite Hb, bytes_empty. simpl. lia.
  - unfold keys_gauge. rewrite Hk, E2. unfold server_keys. rewrite key_count_exact; [done|apply Hok].
  - intros o o' now. unfold Collect. rewrite Hl, E3. apply lag_series.
Qed.

(** C33: whatever clients send, the number of command series the metrics can
    grow to is bounded by the commands the server knows: two per registered
    command, and two for all other names together. *)
Theorem metric_series_bounded `{PrometheusLaws} `{GoUnicode} s addr m tr ms :
  Serve_metrics addr package_init = Some m →
  runs mstep (mkMSys (mkSys s ∅) m) tr ms →
  (size (series (m_registry (ms_metrics ms))) ≤ 2 * (length commands + 1))%nat.
Proof.
  intros Hm Hr. pose proof (runs_accounted _ _ _ Hr) as [_ Ha]. simpl in Ha.
  assert (series (m_registry m) = ∅) as He.
  { destruct (Serve_metrics_fresh _ _ Hm) as [-> _]. apply series_empty. }
  assert (series (m_registry (ms_metrics ms)) ⊆
          list_to_set (list_prod (B "unknown" :: commands.*1) [B "ok"; B "error"])) as Hsub.
  { destruct (m_enabled m); [|rewrite Ha, He; set_solver]. destruct Ha as (_ & _ & _ & Hser).
    intros l [Hl|Hl]%Hser; [set_solver|]. apply occurrences_bounded in Hl. destruct l as [a b].
    apply elem_of_list_to_set, list_elem_of_In, in_prod; apply list_elem_of_In, Hl. }
  apply subseteq_size in Hsub. etrans; [exact Hsub|]. etrans; [apply size_list_to_set_le|].
  rewrite length_prod, length_cons, length_fmap. simpl. lia.
Qed.

(** A process with metrics on: a client connects and sends one [PING] and
    one unknown command. *)
Definition demo_metrics : Metrics := default package_init (Serve_metrics (B ":9091") package_init).

Definition demo_conn : connState := new_conn (B "10.0.0.9:1").

Definition demo_end : MSys :=
  mkMSys (mkSys fresh_server (<[0%nat := demo_conn]> (<[0%nat := demo_conn]> (<[0%nat := demo_conn]> ∅))))
    (observe (Some (B "unknown", B "error")) 7
       (observe (Some (B "PING", B "ok")) 5 (ConnOpened demo_metrics))).

Definition demo_trace : list exchange :=
  [mkExchange false false (request [B "ping"]) [SimpleStringV (B "PONG")];
   mkExchange false false (request [B "nope"]) [ErrorV (B "ERR unknown command 'NOPE'")]].

Lemma demo_runs :
  runs (@mstep _ plain_unicode) (mkMSys (mkSys fresh_server ∅) demo_metrics) demo_trace demo_end.
Proof.
  eapply runs_silent; [by apply (M_accept fresh_server ∅ 0 (B "10.0.0.9:1"))|].
  eapply runs_visible.
  { apply (M_request fresh_server _ 0 demo_conn (quiet 0) (λ _, true) (request [B "ping"]) fresh_server
             demo_conn [SimpleStringV (B "PONG")] _ 5); [done|vm_compute; reflexivity]. }
  eapply runs_visible; [|apply runs_nil].
  eapply (M_request fresh_server _ 0 demo_conn (quiet 0) (λ _, true) (request [B "nope"]) fresh_server
             demo_conn _ _ 7); [apply lookup_insert_eq|vm_compute; reflexivity].
Qed.

Lemma scrape_is_exact_witness :
  gauge_value (m_registry (ms_metrics demo_end)) = 1 ∧
  counter_value (B "PING", B "ok") (m_registry (ms_metrics demo_end)) = 1 ∧
  counter_value (B "unknown", B "error") (m_registry (ms_metrics demo_end)) = 1.
Proof.
  destruct (@scrape_is_exact _ counting_laws plain_unicode fresh_server (B ":9091") demo_metrics
    demo_trace demo_end) as (Hg & Hc & _).
  - split; [exact fresh_server_ok| |]; simpl; intros; by rewrite lookup_empty in *.
  - reflexivity.
  - exact demo_runs.
  - split; [exact Hg|]. rewrite !Hc. vm_compute. done.
Defined.

Lemma metric_series_bounded_witness :
  (size (series (m_registry (ms_metrics demo_end))) ≤ 2 * (length commands + 1))%nat.
Proof.
  apply (@metric_series_bounded _ counting_laws plain_unicode fresh_server (B ":9091") demo_metrics
    demo_trace demo_end).
  - reflexivity.
  - exact demo_runs.
Defined.
