(* ===== verification/Main.v ===== *)
(** [cmd/server/main.go]: the flags, the listeners, the options, and how the
    process ends.

    The operating system is a table of socket and file paths and the list of
    listeners that are open; each call takes its outcome as an argument where
    the environment can make it fail.  A Unix path is a file system path, not
    an abstract (leading [@]) name. *)

From S2P Require Import Prelude GoLib Protocol PubSub Store Db Expiry Cmd Replay Aof Replication Server.
From S2P Require Import ServerFacts Lifecycle.

(** * The operating system *)

Inductive file_kind := RegularFile | SocketFile | OtherFile.

#[global] Instance file_kind_eq_dec : EqDecision file_kind.
Proof. solve_decision. Defined.

Inductive listener :=
  | TCP (addr : bytes)
  | Unix (path : bytes).

#[global] Instance listener_eq_dec : EqDecision listener.
Proof. solve_decision. Defined.

Record OS := mkOS { os_paths : gmap bytes file_kind; os_open : list listener }.

(** [net.Listen("tcp", addr)] *)
Definition listen_tcp (ok : bool) (os : OS) (addr : bytes) : OS * option listener :=
  if ok then (mkOS (os_paths os) (os_open os ++ [TCP addr]), Some (TCP addr)) else (os, None).

(** [net.Listen("unix", path)] fails on a path that exists, and makes the
    socket file. *)
Definition listen_unix (ok : bool) (os : OS) (path : bytes) : OS * option listener :=
  match os_paths os !! path with
  | Some _ => (os, None)
  | None =>
      if ok then (mkOS (<[path := SocketFile]> (os_paths os)) (os_open os ++ [Unix path]),
                  Some (Unix path))
      else (os, None)
  end.

(** [os.Remove] of a path that is not a directory. *)
Definition os_Remove (ok : bool) (os : OS) (path : bytes) : OS * bool :=
  match os_paths os !! path with
  | None => (os, false)
  | Some _ => if ok then (mkOS (delete path (os_paths os)) (os_open os), true) else (os, false)
  end.

(** [ln.Close()]: a Unix listener unlinks its socket file. *)
Definition close_listener (os : OS) (l : listener) : OS :=
  mkOS (match l with TCP _ => os_paths os | Unix path => delete path (os_paths os) end)
       (filter (λ x, x ≠ l) (os_open os)).

(** The process exits: the kernel closes its descriptors, files stay. *)
Definition process_exit (os : OS) : OS := mkOS (os_paths os) [].

(** The outcomes of the calls of one start. *)
Record start_io := mkStartIO {
  io_tcp : bool;
  io_lstat : bool;
  io_remove : bool;
  io_unix : bool
}.

(** * Listeners *)

Inductive listen_error :=
  | ListenTCP (addr : bytes)
  | LstatFailed
  | NotASocket (path : bytes)
  | RemoveFailed
  | ListenUnix (path : bytes)
  | NothingToListenOn.

(** [os.Lstat] reports what is at the path, a missing path, or (when
    [io_lstat] is false) another error. *)
Definition removeStaleUnixSocket (io : start_io) (os : OS) (path : bytes) : OS * option listen_error :=
  if negb (io_lstat io) then (os, Some LstatFailed)
  else
    match os_paths os !! path with
    | None => (os, None)
    | Some k =>
        if bool_decide (k ≠ SocketFile) then (os, Some (NotASocket path))
        else
          let '(os, ok) := os_Remove (io_remove io) os path in
          (os, if ok then None else Some RemoveFailed)
    end.

Definition closeAll (os : OS) (lns : list listener) : OS := foldl close_listener os lns.

(** The cleanup function: the path it unlinks, if any. *)
Abbreviation cleanup := (option bytes).

Definition run_cleanup (os : OS) (c : cleanup) : OS :=
  match c with None => os | Some path => (os_Remove true os path).1 end.

(** The Unix half of [openListeners], with [lns] already open. *)
Definition open_unix (io : start_io) (os : OS) (lns : list listener) (unixSocket : bytes)
    : OS * (listen_error + list listener * cleanup) :=
  if bool_decide (unixSocket = []) then (os, inr (lns, None))
  else
    match removeStaleUnixSocket io os unixSocket with
    | (os, Some err) => (closeAll os lns, inl err)
    | (os, None) =>
        match listen_unix (io_unix io) os unixSocket with
        | (os, None) => (closeAll os lns, inl (ListenUnix unixSocket))
        | (os, Some ln) => (os, inr (lns ++ [ln], Some unixSocket))
        end
    end.

Definition openListeners (io : start_io) (os : OS) (bind port : bytes) (noTCP : bool)
    (unixSocket : bytes) : OS * (listen_error + list listener * cleanup) :=
  let '(os, tcp) :=
    if noTCP then (os, inr [])
    else
      let addr := JoinHostPort bind port in
      match listen_tcp (io_tcp io) os addr with
      | (os, None) => (os, inl (ListenTCP addr))
      | (os, Some ln) => (os, inr [ln])
      end in
  match tcp with
  | inl err => (os, inl err)
  | inr lns =>
      match open_unix io os lns unixSocket with
      | (os, inl err) => (os, inl err)
      | (os, inr (lns, c)) => (os, if bool_decide (lns = []) then inl NothingToListenOn else inr (lns, c))
      end
  end.

(** * Options (server.go) *)

Inductive Option :=
  | WithAOF (path : bytes)
  | WithFsync (mode : FsyncMode)
  | WithReplicaOf (addr : bytes)
  | WithMetrics (addr : bytes).

(** The fields of [Server] the options set. *)
Record settings := mkSettings {
  st_aofPath : bytes;
  st_fsyncMode : FsyncMode;
  st_primaryAddr : bytes;
  st_metricsAddr : bytes
}.

Definition apply_option (s : settings) (o : Option) : settings :=
  match o with
  | WithAOF path => mkSettings path (st_fsyncMode s) (st_primaryAddr s) (st_metricsAddr s)
  | WithFsync mode => mkSettings (st_aofPath s) mode (st_primaryAddr s) (st_metricsAddr s)
  | WithReplicaOf addr => mkSettings (st_aofPath s) (st_fsyncMode s) addr (st_metricsAddr s)
  | WithMetrics addr => mkSettings (st_aofPath s) (st_fsyncMode s) (st_primaryAddr s) addr
  end.

(** The zero values of a new [Server]. *)
Definition zero_settings : settings := mkSettings [] FsyncEverySec [] [].

(** [NewMulti(lns, opts...)]; [None] is its panic. *)
Definition NewMulti_opts (w : World) (lns : list listener) (opts : list Option)
    : option (Server * settings) :=
  if bool_decide (lns = []) then None
  else
    let st := foldl apply_option zero_settings opts in
    Some (NewMulti w (st_aofPath st) (st_fsyncMode st) (st_primaryAddr st), st).

(** [New(ln, opts...)]: one listener. *)
Definition New (w : World) (ln : listener) (opts : list Option) : option (Server * settings) :=
  NewMulti_opts w [ln] opts.

(** * main *)

Record flags := mkFlags {
  f_port : bytes;
  f_bind : bytes;
  f_noTCP : bool;
  f_unixSocket : bytes;
  f_appendOnly : bool;
  f_aofPath : bytes;
  f_appendFsync : string;
  f_replicaOf : bytes;
  f_metricsAddr : bytes
}.

Definition default_flags : flags :=
  mkFlags (B "6380") [] false [] true (B "appendonly.aof") "everysec" [] (B ":9091").

Section main.
Context `{GoUnicode}.

(** [--replicaof "host port"]; [None] is [log.Fatalf]. *)
Definition parse_replicaOf (replicaOf : bytes) : option bytes :=
  if bool_decide (replicaOf = []) then Some []
  else match Fields replicaOf with
       | [host; port] => Some (JoinHostPort host port)
       | _ => None
       end.

Definition main_options (f : flags) (mode : FsyncMode) (primaryAddr : bytes) : list Option :=
  (if f_appendOnly f then [WithAOF (f_aofPath f); WithFsync mode] else []) ++
  (if bool_decide (primaryAddr = []) then [] else [WithReplicaOf primaryAddr]) ++
  (if bool_decide (f_metricsAddr f = []) then [] else [WithMetrics (f_metricsAddr f)]).

(** How far [main] gets before [Serve]. *)
Inductive start :=
  | BadFlags
  | BadListen (e : listen_error)
  | StartPanic
  | Ready (s : Server) (st : settings) (lns : list listener) (c : cleanup).

Definition main_start (io : start_io) (os : OS) (w : World) (f : flags) : OS * start :=
  match ParseFsyncMode (f_appendFsync f) with
  | None => (os, BadFlags)
  | Some mode =>
      match parse_replicaOf (f_replicaOf f) with
      | None => (os, BadFlags)
      | Some primaryAddr =>
          match openListeners io os (f_bind f) (f_port f) (f_noTCP f) (f_unixSocket f) with
          | (os, inl err) => (os, BadListen err)
          | (os, inr (lns, c)) =>
              match NewMulti_opts w lns (main_options f mode primaryAddr) with
              | None => (os, StartPanic)
              | Some (s, st) => (os, Ready s st lns c)
              end
          end
      end
  end.

(** How it ends once [Serve] has: an error is [log.Fatalf], which runs no
    deferred function; otherwise the listeners were closed by [Serve] and the
    cleanup runs last.  [between] is what other processes did to the file
    system after the listeners were closed. *)
Definition main_exit (os : OS) (lns : list listener) (c : cleanup) (serve_ok : bool)
    (between : gmap bytes file_kind → gmap bytes file_kind) : OS :=
  if negb serve_ok then process_exit os
  else
    let os := closeAll os lns in
    process_exit (run_cleanup (mkOS (between (os_paths os)) (os_open os)) c).
End main.

(** * Facts *)

Lemma removeStale_paths io os path os' err :
  removeStaleUnixSocket io os path = (os', err) →
  os_open os' = os_open os ∧ (∀ p, p ≠ path → os_paths os' !! p = os_paths os !! p) ∧
  (∀ k, os_paths os !! path = Some k → k ≠ SocketFile → os_paths os' !! path = Some k) ∧
  (err = None → os_paths os' !! path = None).
Proof.
  unfold removeStaleUnixSocket, os_Remove. intros E.
  destruct (io_lstat io); simpl in E; [|by simplify_eq].
  destruct (os_paths os !! path) as [k|] eqn:Ek; [|by simplify_eq].
  case_bool_decide as Hk; [simplify_eq; split_and!; [done|done|congruence|done]|]. assert (k = SocketFile) as -> by (destruct k; naive_solver).
  destruct (io_remove io); simplify_eq/=.
  - split_and!; [done|intros; by rewrite lookup_delete_ne|by intros ? [= <-]|intros _; apply lookup_delete_eq].
  - split_and!; [done|done|by intros ? [= <-]|done].
Qed.

Lemma listen_unix_paths ok os path os' l :
  listen_unix ok os path = (os', l) →
  (∀ p, p ≠ path → os_paths os' !! p = os_paths os !! p) ∧
  (os_paths os !! path ≠ None → os' = os) ∧
  match l with
  | None => os' = os
  | Some ln => ln = Unix path ∧ os_open os' = os_open os ++ [Unix path] ∧ os_paths os !! path = None
  end.
Proof.
  unfold listen_unix. destruct (os_paths os !! path) as [k|] eqn:E; [intros [= <- <-]; by split_and!|].
  destruct ok; intros [= <- <-]; simpl; [|by split_and!].
  split_and!; [intros; by rewrite lookup_insert_ne|done..].
Qed.

Lemma close_tcp os addr :
  os_open os = [TCP addr] → closeAll os [TCP addr] = mkOS (os_paths os) [].
Proof.
  intros E. unfold closeAll, close_listener. simpl. rewrite E, filter_cons_False; [done|]. naive_solver.
Qed.

(** The listeners the flags ask for. *)
Definition wanted (bind port : bytes) (noTCP : bool) (unixSocket : bytes) : list listener :=
  (if noTCP then [] else [TCP (JoinHostPort bind port)]) ++
  (if bool_decide (unixSocket = []) then [] else [Unix unixSocket]).

(** What a start owes: nothing is left open on failure, and no file that is
    not a socket is touched. *)
Definition listeners_ok (os : OS) (bind port : bytes) (noTCP : bool) (unixSocket : bytes)
    (res : OS * (listen_error + list listener * cleanup)) : Prop :=
  (∀ p, p ≠ unixSocket → os_paths res.1 !! p = os_paths os !! p) ∧
  (∀ p k, os_paths os !! p = Some k → k ≠ SocketFile → os_paths res.1 !! p = Some k) ∧
  match res.2 with
  | inl _ => os_open res.1 = []
  | inr (lns, c) =>
      lns ≠ [] ∧ lns = wanted bind port noTCP unixSocket ∧ os_open res.1 = lns ∧
      c = (if bool_decide (unixSocket = []) then None else Some unixSocket)
  end.

Lemma open_unix_ok io os pre path :
  os_open os = pre → (pre = [] ∨ ∃ addr, pre = [TCP addr]) →
  let res := open_unix io os pre path in
  (∀ p, p ≠ path → os_paths res.1 !! p = os_paths os !! p) ∧
  (∀ k, os_paths os !! path = Some k → k ≠ SocketFile → os_paths res.1 !! path = Some k) ∧
  match res.2 with
  | inl _ => os_open res.1 = []
  | inr (lns, c) =>
      lns = pre ++ (if bool_decide (path = []) then [] else [Unix path]) ∧ os_open res.1 = lns ∧
      c = (if bool_decide (path = []) then None else Some path)
  end.
Proof.
  intros Hpre Hcase. unfold open_unix. case_bool_decide as Hp; simpl.
  { rewrite app_nil_r. by split_and!. }
  assert (∀ os', os_open os' = pre → closeAll os' pre = mkOS (os_paths os') []) as Hclose.
  { intros os' E. destruct Hcase as [->|[addr ->]]; [|by apply close_tcp]. destruct os'; by simplify_eq/=. }
  destruct (removeStaleUnixSocket io os path) as [os1 [err|]] eqn:E1;
    apply removeStale_paths in E1 as (O1 & P1 & K1 & N1); rewrite Hpre in O1.
  { simpl. rewrite Hclose by done. simpl. by split_and!. }
  specialize (N1 eq_refl).
  destruct (listen_unix (io_unix io) os1 path) as [os2 [ln|]] eqn:E2;
    apply listen_unix_paths in E2 as (P2 & _ & L2); simpl.
  - destruct L2 as (-> & O2 & _). rewrite O1 in O2. split_and!; [|intros k Hk Hs|done..].
    + intros p Hne. by rewrite P2, P1.
    + specialize (K1 k Hk Hs). congruence.
  - subst os2. rewrite Hclose by done. simpl. by split_and!.
Qed.

Lemma openListeners_ok io os bind port noTCP unixSocket :
  os_open os = [] →
  listeners_ok os bind port noTCP unixSocket (openListeners io os bind port noTCP unixSocket).
Proof.
  intros Hos. unfold openListeners, listeners_ok, wanted, listen_tcp.
  assert (∀ os1 pre, os_open os1 = pre → os_paths os1 = os_paths os → (pre = [] ∨ ∃ addr, pre = [TCP addr]) →
    let res := match open_unix io os1 pre unixSocket with
      | (os, inl err) => (os, inl err)
      | (os, inr (lns, c)) => (os, if bool_decide (lns = []) then inl NothingToListenOn else inr (lns, c))
      end in
    (∀ p, p ≠ unixSocket → os_paths res.1 !! p = os_paths os !! p) ∧
    (∀ p k, os_paths os !! p = Some k → k ≠ SocketFile → os_paths res.1 !! p = Some k) ∧
    match res.2 with
    | inl _ => os_open res.1 = []
    | inr (lns, c) =>
        lns ≠ [] ∧ lns = pre ++ (if bool_decide (unixSocket = []) then [] else [Unix unixSocket]) ∧
        os_open res.1 = lns ∧ c = (if bool_decide (unixSocket = []) then None else Some unixSocket)
    end) as Hhalf.
  { intros os1 pre H1 H2 H3. destruct (open_unix_ok io os1 pre unixSocket H1 H3) as (P & K & R).
    rewrite H2 in P, K. destruct (open_unix io os1 pre unixSocket) as [os2 [err|[lns c]]]; simpl in *.
    - split_and!; [done| |done]. intros p k Hk Hs. destruct (decide (p = unixSocket)) as [->|]; [by eapply K|by rewrite P].
    - destruct R as (R1 & R2 & R3). split_and!; [done| |].
      + intros p k Hk Hs. destruct (decide (p = unixSocket)) as [->|]; [by eapply K|by rewrite P].
      + destruct (bool_decide (lns = [])) eqn:Hl; reflect_bools; [simpl; by rewrite R2|]. by split_and!. }
  destruct noTCP; [by apply (Hhalf os []); auto|]. destruct (io_tcp io); simpl; [|by split_and!].
  apply Hhalf; simpl; [by rewrite Hos|done|right; eauto].
Qed.

(** A socket file left by an earlier run does not stop the next one. *)
Lemma open_unix_fresh io os pre path :
  path ≠ [] → io_lstat io = true → io_remove io = true → io_unix io = true →
  os_paths os !! path = None ∨ os_paths os !! path = Some SocketFile →
  ∃ os', open_unix io os pre path = (os', inr (pre ++ [Unix path], Some path)).
Proof.
  intros Hp H1 H2 H3 Hk. unfold open_unix, removeStaleUnixSocket, os_Remove, listen_unix.
  rewrite bool_decide_eq_false_2, H1, H2, H3 by done. simpl.
  destruct Hk as [E|E]; rewrite E; simpl; [rewrite E|rewrite lookup_delete_eq]; by eexists.
Qed.

Lemma foldl_options f mode primaryAddr :
  foldl apply_option zero_settings (main_options f mode primaryAddr)
  = mkSettings (if f_appendOnly f then f_aofPath f else [])
               (if f_appendOnly f then mode else FsyncEverySec) primaryAddr (f_metricsAddr f).
Proof.
  unfold main_options. destruct (f_appendOnly f); repeat case_bool_decide; simplify_eq/=; by f_equal.
Qed.

Lemma wanted_length bind port noTCP unixSocket :
  wanted bind port noTCP unixSocket ≠ [] → (0 < length (wanted bind port noTCP unixSocket))%nat.
Proof. destruct (wanted _ _ _ _); simpl; [done|lia]. Qed.

(** * Properties *)

(** C34: opening the listeners is all or nothing, whatever the operating
    system answers: on success exactly the listeners the flags ask for are
    open, at least one; on any error none is left open.  Either way no path
    but the socket's is touched, and a file that is not a socket is never
    removed or replaced. *)
Theorem open_listeners_all_or_nothing io os bind port noTCP unixSocket :
  os_open os = [] →
  let '(os', res) := openListeners io os bind port noTCP unixSocket in
  (∀ p, p ≠ unixSocket → os_paths os' !! p = os_paths os !! p) ∧
  (∀ p k, os_paths os !! p = Some k → k ≠ SocketFile → os_paths os' !! p = Some k) ∧
  match res with
  | inl _ => os_open os' = []
  | inr (lns, _) => lns ≠ [] ∧ lns = wanted bind port noTCP unixSocket ∧ os_open os' = lns
  end.
Proof.
  intros Hos. destruct (openListeners_ok io os bind port noTCP unixSocket Hos) as (P & K & R).
  destruct (openListeners io os bind port noTCP unixSocket) as [os' [err|[lns c]]]; simpl in *; [by split_and!|].
  destruct R as (? & ? & ? & _). by split_and!.
Qed.

Lemma open_listeners_all_or_nothing_witness :
  let os := mkOS (<[B "/tmp/s" := RegularFile]> ∅) [] in
  let '(os', res) := openListeners (mkStartIO true true true true) os [] (B "6380") false (B "/tmp/s") in
  os_open os' = [] ∧ os_paths os' !! B "/tmp/s" = Some RegularFile.
Proof.
  pose proof (open_listeners_all_or_nothing (mkStartIO true true true true)
    (mkOS (<[B "/tmp/s" := RegularFile]> ∅) []) [] (B "6380") false (B "/tmp/s") eq_refl) as (_ & K & R).
  split; [exact R|]. apply (K (B "/tmp/s") RegularFile); [reflexivity|discriminate].
Defined.

(** C35: whatever the flags and the operating system, [main] reaches [Serve]
    or exits with a message (it never trips [NewMulti]'s panic); the server
    it runs has the settings the flags ask for, and once its log is loaded
    it is in the initial state of the server's life cycle. *)
Theorem main_starts_as_asked `{GoUnicode} io os w f :
  os_open os = [] →
  let '(os', r) := main_start io os w f in
  match r with
  | StartPanic => False
  | Ready s st lns c =>
      lns = wanted (f_bind f) (f_port f) (f_noTCP f) (f_unixSocket f) ∧ os_open os' = lns ∧
      ParseFsyncMode (f_appendFsync f) ≠ None ∧
      s_aofPath s = (if f_appendOnly f then f_aofPath f else []) ∧
      (f_appendOnly f = true → ParseFsyncMode (f_appendFsync f) = Some (s_fsyncMode s)) ∧
      parse_replicaOf (f_replicaOf f) = Some (s_primaryAddr s) ∧
      st_metricsAddr st = f_metricsAddr f ∧
      ∀ es file open_ok stat_ok s', Serve_start es s file open_ok stat_ok = Some s' →
        life_ok (Serve_launch s' (length lns) (st_metricsAddr st))
  | _ => os_open os' = []
  end.
Proof.
  intros Hos. unfold main_start, NewMulti_opts. destruct (ParseFsyncMode (f_appendFsync f)) as [mode|]; [|done].
  destruct (parse_replicaOf (f_replicaOf f)) as [primary|]; [|done].
  destruct (openListeners_ok io os (f_bind f) (f_port f) (f_noTCP f) (f_unixSocket f) Hos) as (_ & _ & R).
  destruct (openListeners _ _ _ _ _ _) as [os' [err|[lns c]]]; simpl in *; [done|].
  destruct R as (Hn & -> & Ho & _). rewrite bool_decide_eq_false_2 by done.
  rewrite foldl_options. simpl. split_and!; try done.
  - by destruct (f_appendOnly f).
  - intros es file open_ok stat_ok s' Hs.
    apply launch_ok; [by eapply initial_ok|by apply wanted_length].
Qed.

Lemma main_starts_as_asked_witness :
  let '(os', r) := @main_start plain_unicode (mkStartIO true true true true) (mkOS ∅ []) empty_fs
    (mkFlags (B "6381") [] false [] false [] "always" (B "10.0.0.2 6380") []) in
  match r with
  | Ready s st lns c => lns = [TCP (B ":6381")] ∧ s_aofPath s = [] ∧ os_open os' = lns
  | _ => False
  end.
Proof.
  pose proof (@main_starts_as_asked plain_unicode (mkStartIO true true true true) (mkOS ∅ []) empty_fs
    (mkFlags (B "6381") [] false [] false [] "always" (B "10.0.0.2 6380") []) eq_refl)
    as (Hl & Ho & _ & Hp & _).
  split; [exact Hl|]. split; [exact Hp|exact Ho].
Defined.

(** The clean-up at exit unlinks whatever is at the socket path: when
    another server bound the path after this one closed its listeners (a
    shutdown waits for its clients, so the gap is as long as they like), the
    exit removes the other server's live socket. *)
Theorem cleanup_removes_successor_socket os lns path between :
  between (delete path (os_paths os)) !! path = Some SocketFile →
  lns = [Unix path] →
  os_paths (main_exit os lns (Some path) true between) !! path = None.
Proof.
  intros Hb ->. unfold main_exit, run_cleanup, os_Remove. simpl. rewrite Hb. simpl.
  apply lookup_delete_eq.
Qed.

Lemma cleanup_removes_successor_socket_witness :
  os_paths (main_exit (mkOS (<[B "/run/r.sock" := SocketFile]> ∅) [Unix (B "/run/r.sock")])
    [Unix (B "/run/r.sock")] (Some (B "/run/r.sock")) true
    (λ m, <[B "/run/r.sock" := SocketFile]> m)) !! B "/run/r.sock" = None.
Proof.
  apply (cleanup_removes_successor_socket
    (mkOS (<[B "/run/r.sock" := SocketFile]> ∅) [Unix (B "/run/r.sock")])
    [Unix (B "/run/r.sock")] (B "/run/r.sock") (λ m, <[B "/run/r.sock" := SocketFile]> m)); reflexivity.
Defined.

(** A run that ended with an error of [Serve] leaves its socket file behind
    (no deferred function runs), and the next start succeeds all the same. *)
Theorem restart_after_failed_serve io os bind port unixSocket :
  os_open os = [] → unixSocket ≠ [] → os_paths os !! unixSocket = None →
  io_tcp io = true → io_lstat io = true → io_remove io = true → io_unix io = true →
  match openListeners io os bind port true unixSocket with
  | (os1, inr (lns, c)) =>
      let os2 := main_exit os1 lns c false id in
      os_paths os2 !! unixSocket = Some SocketFile ∧
      ∃ os3, openListeners io os2 bind port true unixSocket = (os3, inr ([Unix unixSocket], Some unixSocket))
  | (_, inl _) => False
  end.
Proof.
  intros Hos Hu Hn H1 H2 H3 H4. unfold openListeners.
  assert (open_unix io os [] unixSocket
    = (mkOS (<[unixSocket := SocketFile]> (os_paths os)) [Unix unixSocket],
       inr ([Unix unixSocket], Some unixSocket))) as ->.
  { unfold open_unix, removeStaleUnixSocket, listen_unix.
    rewrite bool_decide_eq_false_2, H2, H4 by done. simpl. rewrite Hn. simpl. by rewrite Hn, Hos. }
  simpl. split; [apply lookup_insert_eq|].
  destruct (open_unix_fresh io (mkOS (<[unixSocket := SocketFile]> (os_paths os)) []) [] unixSocket)
    as [os3 E]; [done..|right; apply lookup_insert_eq|]. unfold main_exit, process_exit. simpl. rewrite E.
  exists os3. by rewrite bool_decide_eq_false_2.
Qed.
