(* ===== verification/Feed.v ===== *)
(** What the command layer promises to whoever feeds it commands: the replay
    of a log and the stream from a primary.

    A request has an abstract effect, a function on the flat keyspace.  The
    class [CommandLayer] says that a store applies requests by their abstract
    effect; the clients ([Recovery], [Convergence]) reason from it, and
    [Dispatch] on the sharded store is its instance. *)

From S2P Require Import Prelude GoLib Protocol ProtocolFacts PubSub Store Db Spec Refine Expiry.
From S2P Require Import History Cmd CmdFacts CmdSpec Replay Aof AofFacts Snapshot Compaction.
From S2P Require Import Replication Server.

Section feed.
Context `{GoUnicode}.

(** * The abstract effect of a request *)

Definition request_op (req : Value) : option op :=
  if negb (byte_eqb (vType req) TypeArray) then None
  else match vArray req with
       | Some (first :: args) =>
           match assoc (ToUpper (arg first)) denotes with
           | Some den => match den args with Some (x, _) => Some x | None => None end
           | None => None
           end
       | _ => None
       end.

Definition abs_step (t : Z) (req : Value) (m : astate) : astate :=
  match request_op req with Some x => (spec_op t x m).1 | None => m end.

(** [Dispatch] on a request that is an array, in terms of its meaning. *)
Lemma Dispatch_cases clk (o : map_order) db req :
  Dispatch clk o db req
  = if negb (byte_eqb (vType req) TypeArray) then (db, Some (errorValue (B "ERR invalid request: expected a non-empty array")))
    else match vArray req with
         | Some (first :: args) => Dispatch clk o db (ArrayV (Some (first :: args)))
         | _ => (db, Some (errorValue (B "ERR invalid request: expected a non-empty array")))
         end.
Proof. unfold Dispatch. simpl. destruct (vArray req) as [[|f l]|]; by destruct (negb _). Qed.

Lemma IsWrite_denotes name : IsWrite name = true → is_Some (assoc (ToUpper name) denotes).
Proof.
  unfold IsWrite. intros Hw%bool_decide_eq_true. revert Hw. unfold writeCommands.
  repeat (rewrite elem_of_cons; intros [->|Hw]; [by eexists|revert Hw]).
  by intros ?%not_elem_of_nil.
Qed.

Lemma Dispatch_not_write clk (o : map_order) db req t :
  db_ok db → (∀ i, clk i ≤ t) → IsWrite (commandName req) = false →
  view t (Dispatch clk o db req).1 = view t db.
Proof.
  intros Hok Ht Hw. rewrite Dispatch_cases. unfold commandName in Hw.
  destruct (negb _); [done|]. destruct (vArray req) as [[|first args]|]; [done| |done].
  by apply Dispatch_read_only.
Qed.

Lemma Dispatch_view (o : map_order) t db req :
  db_ok db → view t (Dispatch (λ _, t) o db req).1 = abs_step t req (view t db).
Proof.
  intros Hok. unfold abs_step, request_op. rewrite Dispatch_cases.
  destruct (negb _); [done|]. destruct (vArray req) as [[|first args]|]; [done| |done].
  destruct (assoc (ToUpper (arg first)) denotes) as [den|] eqn:Ed.
  - destruct (den args) as [[x rd]|] eqn:Ex.
    + by destruct (Dispatch_denotes o t db first args den x rd Hok Ed Ex) as (_ & ? & _).
    + destruct (denotes_reject _ _ Ed) as (f & Hf & Hrej). rewrite Dispatch_array, Hf.
      by destruct (Hrej args Ex) as [msg ->].
  - apply Dispatch_read_only; [done|done|].
    destruct (IsWrite (arg first)) eqn:Hw; [|done].
    apply IsWrite_denotes in Hw as [den Hden]. congruence.
Qed.

(** * Commands without times to live *)

Definition time_free (x : op) : Prop := match x with OExpire _ _ => False | _ => True end.

Definition no_expire (req : Value) : Prop := ∀ x, request_op req = Some x → time_free x.

Definition no_exp (m : astate) : Prop := map_Forall (λ _ a, a_exp a = None) m.

Lemma spec_time_free t t' x m : time_free x → (spec_op t x m).1 = (spec_op t' x m).1.
Proof. by destruct x. Qed.

Lemma spec_no_exp t x m : time_free x → no_exp m → no_exp (spec_op t x m).1.
Proof.
  intros Hx Hm.
  assert (∀ k v, no_exp (<[k := mkA v None]> m)) as Hins by (intros; by apply map_Forall_insert_2).
  assert (∀ k, no_exp (delete k m)) as Hdel by (intros; by apply map_Forall_delete).
  assert (∀ k v x, m !! k = Some (mkA v x) → x = None) as Hlk by (intros k v y Hk; apply (Hm k _ Hk)).
  destruct x; simpl; unfold spec_read, spec_push, spec_pop, spec_hash, spec_set; try done;
    try (repeat case_match; simplify_eq/=; try done;
         match goal with H : _ !! _ = Some (mkA _ _) |- _ => apply Hlk in H; subst end; by auto).
  clear Hx. induction ks as [|k ks IH] using rev_ind; [done|]. rewrite foldl_app. simpl.
  by apply map_Forall_delete.
Qed.

Lemma purge_no_exp t m : no_exp m → purge t m = m.
Proof.
  intros Hm. apply map_eq. intros k. rewrite purge_lookup. destruct (m !! k) as [a|] eqn:E; [|done].
  simpl. rewrite decide_True; [done|]. unfold alive. by rewrite (Hm k a E).
Qed.

Definition abs_all (reqs : list Value) (m : astate) : astate := foldl (λ m c, abs_step 0 c m) m reqs.

Lemma abs_step_time t req m : no_expire req → abs_step t req m = abs_step 0 req m.
Proof.
  intros Hn. unfold abs_step. destruct (request_op req) as [x|] eqn:E; [|done].
  by apply spec_time_free, Hn.
Qed.

Lemma abs_step_no_exp t req m : no_expire req → no_exp m → no_exp (abs_step t req m).
Proof.
  intros Hn Hm. unfold abs_step. destruct (request_op req) as [x|] eqn:E; [|done].
  by apply spec_no_exp; [apply Hn|].
Qed.

(** ** Commands that are free of time by their name *)

Lemma denotes_time_free :
  Forall (λ c : bytes * meaning, c.1 ∈ [B "EXPIRE"; B "PEXPIRE"] ∨
    ∀ args x rd, c.2 args = Some (x, rd) → time_free x) denotes.
Proof.
  unfold denotes.
  repeat (apply Forall_cons; split; [cbn [fst snd]|]); [..|by apply Forall_nil].
  all: first [left; set_solver|right; intros args x rd;
    unfold one, many, hset, ttl; repeat (case_match; simplify_eq/=; try done); by intros [= <- <-]].
Qed.

Lemma no_expire_name first args :
  ToUpper (arg first) ∉ [B "EXPIRE"; B "PEXPIRE"] → no_expire (ArrayV (Some (first :: args))).
Proof.
  intros Hn x. unfold request_op. cbn [vType vArray ArrayV]. rewrite byte_eqb_refl. cbn [negb].
  destruct (assoc (ToUpper (arg first)) denotes) as [den|] eqn:E; [|done].
  destruct (den args) as [[y rd]|] eqn:Ed; [|done]. intros [= <-].
  apply assoc_elem in E. pose proof denotes_time_free as Hf. rewrite Forall_forall in Hf.
  destruct (Hf _ E) as [?|Hy]; [done|]. by eapply Hy.
Qed.

(** * The interface *)

Class CommandLayer (St : Type) := {
  cl_ok : St → Prop;
  cl_view : Z → St → astate;
  cl_empty : St;
  cl_apply : Z → Value → St → St;
  cl_empty_ok : cl_ok cl_empty;
  cl_empty_view t : cl_view t cl_empty = ∅;
  cl_apply_ok t c s : cl_ok s → cl_ok (cl_apply t c s);
  cl_apply_view t c s : cl_ok s → cl_view t (cl_apply t c s) = abs_step t c (cl_view t s)
}.

(** Commands without times to live give the same state at whatever instant
    they are applied. *)
Lemma feed_all `{CommandLayer St} T reqs s :
  cl_ok s → Forall no_expire reqs →
  let s' := foldl (λ s c, cl_apply T c s) s reqs in
  cl_ok s' ∧ cl_view T s' = abs_all reqs (cl_view T s).
Proof.
  intros Hok Hn. revert s Hok. induction Hn as [|req reqs Hr _ IH]; intros s Hok; [done|].
  cbn [foldl]. destruct (IH (cl_apply T req s)) as [H1 H2]; [by apply cl_apply_ok|].
  split; [exact H1|]. etrans; [exact H2|]. rewrite cl_apply_view by done. by rewrite abs_step_time.
Qed.

(** A fresh store fed such commands. *)
Lemma feed_empty `{CommandLayer St} T reqs :
  Forall no_expire reqs →
  let s' := foldl (λ s c, cl_apply T c s) cl_empty reqs in
  cl_ok s' ∧ cl_view T s' = abs_all reqs ∅.
Proof. intros Hn. rewrite <-(cl_empty_view T). apply feed_all; [apply cl_empty_ok|done]. Qed.

(** * The dispatcher *)

#[refine] Instance dispatch_layer (o : map_order) : CommandLayer DB := {|
  cl_ok := db_ok;
  cl_view := view;
  cl_empty := newDB;
  cl_apply T c db := (Dispatch (λ _, T) o db c).1
|}.
Proof.
  - apply newDB_ok.
  - apply view_newDB.
  - intros t c db Hok. by apply Dispatch_sound.
  - intros t c db Hok. by apply Dispatch_view.
Defined.

Lemma replay_abs (o : map_order) T reqs :
  Forall no_expire reqs →
  db_ok (apply_all (replay_at o T) reqs newDB) ∧
  view T (apply_all (replay_at o T) reqs newDB) = abs_all reqs ∅.
Proof. apply (feed_empty (H0 := dispatch_layer o)). Qed.

(** * The commands of a snapshot *)

(** Without times to live a snapshot's commands are free of time, and their
    effect is the keyspace. *)
Lemma snapshot_no_expire os db now tw :
  db_ok db → no_exp (view now db) → Forall no_expire (snapshot_cmds tw (Snapshot os db now)).
Proof.
  intros Hok Hne. apply Forall_forall. intros c Hc.
  unfold snapshot_cmds in Hc. apply list_elem_of_In, in_concat in Hc as (l & Hl & Hc).
  apply in_map_iff in Hl as (r & <- & Hr). apply list_elem_of_In in Hr, Hc.
  apply elem_of_Snapshot in Hr as (k & e & Hk & Hx & ->); [|done].
  assert (e_expireAt e = None) as He.
  { apply (Hne k (absE e)). rewrite view_lookup, Hk by done. simpl. unfold vis. by rewrite Hx. }
  unfold record_cmds, expire_cmds in Hc. rewrite ExpireAt_snapshotEntry, He in Hc.
  unfold recordValue in Hc.
  repeat case_match; simplify_eq; try by apply not_elem_of_nil in Hc.
  all: apply list_elem_of_singleton in Hc as ->; apply no_expire_name; apply (bool_decide_eq_true_1 _); by vm_compute.
Qed.

Lemma snapshot_abs os db now tw :
  db_ok db → no_exp (view now db) →
  abs_all (snapshot_cmds tw (Snapshot os db now)) ∅ = view now db.
Proof.
  intros Hok Hne. pose proof (snapshot_no_expire os db now tw Hok Hne) as Hn.
  destruct (replay_abs order_id 0 _ Hn) as [_ <-].
  destruct (compaction_restores order_id 0 tw os db now Hok) as [_ ->].
  apply map_eq. intros k. rewrite lookup_fmap. destruct (view now db !! k) as [a|] eqn:E; [|done].
  simpl. pose proof (Hne k a E) as Ha. unfold rebased. rewrite Ha. destruct a; simpl in *. by subst.
Qed.
End feed.
