(* ===== verification/WritePath.v ===== *)
(** The write path under concurrent clients: [apply] and [rewriteAOF] of
    server.go at the grain of their lock operations.

    A goroutine that serves a request tests whether the command needs
    recording, takes [writeMu] if so, runs the command one store section at
    a time, appends to the log, queues the frame for the replicas and
    releases the lock.  A goroutine that rewrites the log takes the same lock,
    reads the clock, copies one shard after the other, each under the lock of
    the shard, writes and swaps the files in one step under the mutex of the
    log, and releases the lock.  The scheduler interleaves these steps of any
    number of goroutines with the expiry worker, fsync ticks, replicas that
    join, acknowledge and leave, deliveries, heartbeats and the clock.  A data command calls one operation
    of the store ([Dispatch_meaning], [Dispatch_del]), so the steps of
    [Dispatch] are the lock sections of that operation; any other command
    touches no shard and is one step.  An fsync tick may come at any moment
    and in any mode, more than the code allows.

    The reference is the server that serves one write after the other with
    [applyRecord] and rewrites the log in between, to the snapshot of a store
    that was there while the lock was held. *)

From S2P Require Import Prelude Lts GoLib Protocol ProtocolFacts PubSub Store Db Spec Refine Expiry.
From S2P Require Import History Concurrent Cmd CmdFacts CmdSpec Replay Aof AofFacts Snapshot Compaction.
From S2P Require Import LiveSnapshot Replication Server ServerFacts Feed.

Section write_path.
Context `{GoUnicode}.

(** * Goroutines *)

(** The operation a request means and how its reply is rendered. *)
Definition request_meaning (req : Value) : option (op * (reply → Value)) :=
  if negb (byte_eqb (vType req) TypeArray) then None
  else match vArray req with
       | Some (first :: args) =>
           match assoc (ToUpper (arg first)) denotes with Some den => den args | None => None end
       | _ => None
       end.

(** Inside [Dispatch]: between two lock sections of a data command, or in
    front of any other command, which touches no shard. *)
Inductive dispatching :=
  | Ops (rd : reply → Value) (th : thread)
  | Other.

Definition dispatch_start (req : Value) : dispatching :=
  match request_meaning req with Some (x, rd) => Ops rd (Start x) | None => Other end.

(** The next step of [Dispatch]: go on, or return the reply. *)
Definition dispatch_next (ord : map_order) (now : Z) (req : Value) (d : dispatching) (db : DB)
    : option (DB * (dispatching + Value)) :=
  match d with
  | Other =>
      match Dispatch (λ _, now) ord db req with
      | (db', Some v) => Some (db', inr v)
      | (_, None) => None
      end
  | Ops rd (Done r) => Some (db, inr (rd r))
  | Ops rd th =>
      match section ord now th db with
      | Some (db', th') => Some (db', inl (Ops rd th'))
      | None => None
      end
  end.

(** A goroutine in [rewriteAOF]: waiting for the lock; holding it; copying
    the store, the clock read at [begin], [next] shards copied into [out];
    and past the rewrite. *)
Inductive compacting :=
  | CLocking
  | CHolding
  | CCopying (os : snap_orders) (begin : Z) (next : nat) (out : list SnapshotEntry)
  | CWritten.

(** A goroutine in [applyRecord] or [rewriteAOF]. *)
Inductive gor :=
  | Away
  | Checking (req : Value)
  | Fast (req : Value) (d : dispatching)
  | Locking (req : Value)
  | Holding (req : Value) (d : dispatching)
  | Appending (req reply : Value)
  | Propagating (req reply : Value)
  | Unlocking (reply : Value)
  | Replying (reply : Value)
  | Compacting (c : compacting).

(** The test on entry. *)
Definition checked (s : Server) (req : Value) : gor :=
  if negb (IsWrite (commandName req)) || (bool_decide (s_aof s = None) && negb (Any (s_replicas s)))
  then Fast req (dispatch_start req) else Locking req.

Definition running (held : bool) (req : Value) (d : dispatching) : gor :=
  if held then Holding req d else Fast req d.

(** Where a goroutine is after a step of [Dispatch]: only a reply that is no
    error is recorded. *)
Definition landed (held : bool) (req : Value) (r : dispatching + Value) : gor :=
  match r with
  | inl d => running held req d
  | inr v =>
      if held then if byte_eqb (vType v) TypeError then Unlocking v else Appending req v
      else Replying v
  end.

(** What is visible of a step: a write takes its place in the order of
    writes, with its reply; a frame of the feed [p] goes to its socket, the
    write on which succeeds or not; the log is rewritten, at [tw], to
    [records], with the outcomes [io] of the system calls. *)
Inductive wlabel :=
  | Committed (req reply : Value)
  | Shipped (p : nat) (frame : bytes) (ok : bool)
  | Rewrote (tw : Z) (records : list SnapshotEntry) (io : rewrite_io).

(** A write is committed when it fails, or when it is propagated. *)
Definition committed (held : bool) (req : Value) (r : dispatching + Value) : option wlabel :=
  match r with
  | inr v => if held && byte_eqb (vType v) TypeError then Some (Committed req v) else None
  | inl _ => None
  end.

Definition sync_log (s : Server) (ok : bool) : Server :=
  match s_aof s with
  | None => s
  | Some a => with_log s (syncEverySec_tick (s_world s) a ok) (Some a)
  end.

Record wserver := WS {
  w_now : Z;
  w_srv : Server;
  w_mu : bool;
  w_gors : list gor;
  w_reaper : worker
}.

Inductive pstep : wserver → option wlabel → wserver → Prop :=
  | P_tick t t' s mu gs w :
      t ≤ t' → pstep (WS t s mu gs w) None (WS t' s mu gs w)
  | P_wake t s mu gs inp :
      p_now inp = t →
      pstep (WS t s mu gs Asleep) None (WS t s mu gs (Pass inp (Z.to_nat shardCount) 0 0 0))
  | P_worker t s mu gs w db w' :
      worker_step w (s_db s) = (db, w') →
      pstep (WS t s mu gs w) None (WS t (with_db s db) mu gs w')
  | P_call t s mu gs w i req :
      gs !! i = Some Away →
      pstep (WS t s mu gs w) None (WS t s mu (<[i := Checking req]> gs) w)
  | P_check t s mu gs w i req :
      gs !! i = Some (Checking req) →
      pstep (WS t s mu gs w) None (WS t s mu (<[i := checked s req]> gs) w)
  | P_lock t s gs w i req :
      gs !! i = Some (Locking req) →
      pstep (WS t s false gs w) None (WS t s true (<[i := Holding req (dispatch_start req)]> gs) w)
  | P_dispatch t s mu gs w i held req d ord db r :
      gs !! i = Some (running held req d) → dispatch_next ord t req d (s_db s) = Some (db, r) →
      pstep (WS t s mu gs w) (committed held req r)
            (WS t (with_db s db) mu (<[i := landed held req r]> gs) w)
  | P_append t s mu gs w i req v e :
      gs !! i = Some (Appending req v) →
      pstep (WS t s mu gs w) None (WS t (append_log e s req) mu (<[i := Propagating req v]> gs) w)
  | P_propagate t s mu gs w i req v o r :
      gs !! i = Some (Propagating req v) → Propagate o (s_replicas s) req = Some r →
      pstep (WS t s mu gs w) (Some (Committed req v)) (WS t (with_replicas s r) mu (<[i := Unlocking v]> gs) w)
  | P_unlock t s mu gs w i v :
      gs !! i = Some (Unlocking v) →
      pstep (WS t s mu gs w) None (WS t s false (<[i := Replying v]> gs) w)
  | P_return t s mu gs w i v :
      gs !! i = Some (Replying v) →
      pstep (WS t s mu gs w) None (WS t s mu (<[i := Away]> gs) w)
  | P_sync t s mu gs w ok :
      pstep (WS t s mu gs w) None (WS t (sync_log s ok) mu gs w)
  | P_join t s mu gs w addr r p :
      Add (s_replicas s) addr t = (r, p) →
      pstep (WS t s mu gs w) None (WS t (with_replicas s r) mu gs w)
  | P_ship t s mu gs w wok p s' frame more :
      deliverReplica_step wok s p = Some (s', frame, more) →
      pstep (WS t s mu gs w) (Some (Shipped p frame more)) (WS t s' mu gs w)
  | P_beat t s mu gs w o o' s' warned :
      runReplicaHeartbeat_tick o o' t s = Some (s', warned) →
      pstep (WS t s mu gs w) None (WS t s' mu gs w)
  | P_grown t s mu gs w i a stat_ok :
      gs !! i = Some Away → s_aof s = Some a → ShouldRewrite (s_world s) a stat_ok = true →
      pstep (WS t s mu gs w) None (WS t s mu (<[i := Compacting CLocking]> gs) w)
  | P_freeze t s gs w i :
      gs !! i = Some (Compacting CLocking) →
      pstep (WS t s false gs w) None (WS t s true (<[i := Compacting CHolding]> gs) w)
  | P_begin t s mu gs w i os :
      gs !! i = Some (Compacting CHolding) →
      pstep (WS t s mu gs w) None (WS t s mu (<[i := Compacting (CCopying os t 0 [])]> gs) w)
  | P_copy t s mu gs w i os begin next out sh :
      gs !! i = Some (Compacting (CCopying os begin next out)) → shards (s_db s) !! next = Some sh →
      pstep (WS t s mu gs w) None
            (WS t s mu (<[i := Compacting (CCopying os begin (S next) (out ++ snapshotShard os begin next sh))]> gs) w)
  | P_rewrite t s mu gs w i os begin out a io wd a' ok :
      gs !! i = Some (Compacting (CCopying os begin (Z.to_nat shardCount) out)) → s_aof s = Some a →
      Rewrite (s_world s) a (s_aofPath s) t out io = Some (wd, a', ok) →
      pstep (WS t s mu gs w) (Some (Rewrote t out io))
            (WS t (with_log s wd (Some a')) mu (<[i := Compacting CWritten]> gs) w)
  | P_thaw t s mu gs w i :
      gs !! i = Some (Compacting CWritten) →
      pstep (WS t s mu gs w) None (WS t s false (<[i := Away]> gs) w)
  | P_leave t s mu gs w p r :
      Remove (s_replicas s) p = Some r →
      pstep (WS t s mu gs w) None (WS t (with_replicas s r) mu gs w)
  | P_ack t s mu gs w p :
      pstep (WS t s mu gs w) None (WS t (with_replicas s (Acked (s_replicas s) p t)) mu gs w).

Definition path_init (t : Z) (s : Server) (n : nat) : wserver := WS t s false (replicate n Away) Asleep.

(** * One write at a time *)

(** A store that a rewrite may copy from the store [db] between [begin] and
    [tw]: it holds what is live at the end and nothing that was not live at
    the beginning. *)
Definition copy_of (begin tw : Z) (db dbs : DB) : Prop :=
  view begin dbs ⊆ view begin db ∧ view tw dbs = view tw db.

#[export] Instance copy_of_dec begin tw db dbs : Decision (copy_of begin tw db dbs).
Proof. unfold copy_of, subseteq, map_subseteq, map_included. apply _. Defined.

Inductive sev :=
  | SWrite (e : env) (req : Value)
  | SSync (ok : bool)
  | SJoin (addr : bytes) (now : Z)
  | SShip (wok : bool) (p : nat)
  | SBeat (o o' : map_order) (now : Z)
  | SRewrite (os : snap_orders) (dbs : DB) (begin tw : Z) (io : rewrite_io)
  | SLeave (p : nat)
  | SAck (p : nat) (now : Z).

Definition seq_step (s : Server) (ev : sev) : option (Server * list wlabel) :=
  match ev with
  | SWrite e req =>
      match applyRecord e s req (commandName req) with
      | Some (s', v) => Some (s', [Committed req v])
      | None => None
      end
  | SSync ok => Some (sync_log s ok, [])
  | SJoin addr now => Some (with_replicas s (Add (s_replicas s) addr now).1, [])
  | SShip wok p =>
      match deliverReplica_step wok s p with
      | Some (s', frame, more) => Some (s', [Shipped p frame more])
      | None => None
      end
  | SBeat o o' now =>
      match runReplicaHeartbeat_tick o o' now s with Some (s', _) => Some (s', []) | None => None end
  | SRewrite os dbs begin tw io =>
      match s_aof s with
      | None => None
      | Some a =>
          if decide (copy_of begin tw (s_db s) dbs) then
            match Rewrite (s_world s) a (s_aofPath s) tw (Snapshot os dbs begin) io with
            | Some (wd, a', _) =>
                Some (with_log s wd (Some a'), [Rewrote tw (Snapshot os dbs begin) io])
            | None => None
            end
          else None
      end
  | SLeave p =>
      match Remove (s_replicas s) p with Some r => Some (with_replicas s r, []) | None => None end
  | SAck p now => Some (with_replicas s (Acked (s_replicas s) p now), [])
  end.

(** The server after the events, and what is visible of them. *)
Fixpoint sequential (s : Server) (evs : list sev) : option (Server * list wlabel) :=
  match evs with
  | [] => Some (s, [])
  | ev :: evs' =>
      match seq_step s ev with
      | None => None
      | Some (s1, out) =>
          match sequential s1 evs' with Some (s2, out') => Some (s2, out ++ out') | None => None end
      end
  end.

Lemma sequential_app s evs evs' s1 out s2 out' :
  sequential s evs = Some (s1, out) → sequential s1 evs' = Some (s2, out') →
  sequential s (evs ++ evs') = Some (s2, out ++ out').
Proof.
  revert s out. induction evs as [|ev evs IH]; intros s out E1 E2; simpl in *; [by simplify_eq|].
  destruct (seq_step s ev) as [[s3 o3]|]; [|done]. destruct (sequential s3 evs) as [[s4 o4]|] eqn:E; [|done].
  simplify_eq. rewrite (IH _ _ E E2). by rewrite <-app_assoc.
Qed.

Lemma sequential_one s ev s1 out :
  seq_step s ev = Some (s1, out) → sequential s [ev] = Some (s1, out).
Proof. intros E. simpl. rewrite E. by rewrite app_nil_r. Qed.

(** Every command reads the clock once, but for [DEL], which reads it once
    per key. *)
Definition steady (clk : clock) (req : Value) : Prop :=
  (∃ u, clk = λ _, u) ∨ ∃ ks rd, request_meaning req = Some (ODel ks, rd).

(** An event between two instants. *)
Definition event_times (t : Z) (ev : sev) (u : Z) : Prop :=
  match ev with
  | SWrite e req => (∀ j, t ≤ e_clk e j ≤ u) ∧ steady (e_clk e) req
  | SRewrite _ dbs begin tw _ => db_ok dbs ∧ t ≤ begin ∧ begin ≤ tw ∧ tw ≤ u
  | _ => t ≤ u
  end.

(** Writes and rewrites read the clock in their order. *)
Fixpoint write_times (t : Z) (evs : list sev) (t' : Z) : Prop :=
  match evs with
  | [] => t ≤ t'
  | ev :: evs' => ∃ u, event_times t ev u ∧ write_times u evs' t'
  end.

Lemma write_times_nil t : write_times t [] t.
Proof. simpl. lia. Qed.
#[local] Hint Resolve write_times_nil : core.

Lemma event_times_weak t0 t ev u : t0 ≤ t → event_times t ev u → event_times t0 ev u.
Proof.
  intros Ht. destruct ev; simpl; try lia; [|naive_solver lia]. intros [Hc Hs]. split; [|done]. intros j.
  specialize (Hc j). lia.
Qed.

Lemma write_times_weak t0 t evs t' : t0 ≤ t → write_times t evs t' → write_times t0 evs t'.
Proof.
  destruct evs as [|ev evs]; simpl; [lia|]. intros Ht (u & Hu & Hts). exists u.
  split; [by eapply event_times_weak|done].
Qed.

Lemma write_times_app t evs u evs' t' :
  write_times t evs u → write_times u evs' t' → write_times t (evs ++ evs') t'.
Proof.
  revert t. induction evs as [|ev evs IH]; intros t; simpl; [by apply write_times_weak|].
  intros (v & Hv & Hts) Hts'. exists v. split; [done|by apply IH].
Qed.

Lemma write_times_until t evs u t' : u ≤ t' → write_times t evs u → write_times t evs t'.
Proof. intros Hu Hts. rewrite <-(app_nil_r evs). by eapply write_times_app. Qed.

Definition background (ev : sev) : Prop :=
  match ev with SWrite _ _ | SRewrite _ _ _ _ _ => False | _ => True end.

Lemma write_times_other t ev : background ev → write_times t [ev] t.
Proof. intros Hev. exists t. split; [|done]. destruct ev; simpl in *; done || lia. Qed.

Lemma write_times_syncs t pend : write_times t (map SSync pend) t.
Proof. induction pend; simpl; [lia|]. exists t. simpl. split; [lia|done]. Qed.

(** What every event keeps holds after a sequence of them. *)
Lemma sequential_invariant (P : Z → Server → list wlabel → Prop) (ok : wlabel → Prop) t s evs s' tr t' :
  (∀ t u s tr, t ≤ u → P t s tr → P u s tr) →
  (∀ t u s tr ev s' out, P t s tr → seq_step s ev = Some (s', out) → event_times t ev u →
     Forall ok out → P u s' (tr ++ out)) →
  P t s [] → sequential s evs = Some (s', tr) → write_times t evs t' → Forall ok tr → P t' s' tr.
Proof.
  intros Hlater Hstep Hs. change tr with ([] ++ tr) at 3. revert Hs. generalize (@nil wlabel) as tr0.
  revert t s tr. induction evs as [|ev evs IH]; intros t s tr tr0 HP E Hts Hok; simpl in *.
  { simplify_eq. rewrite app_nil_r. by eapply Hlater. }
  destruct Hts as (u & Hu & Hts). destruct (seq_step s ev) as [[s1 out]|] eqn:E1; [|done].
  destruct (sequential s1 evs) as [[s2 out2]|] eqn:E2; simplify_eq. apply Forall_app in Hok as [Hok1 Hok2].
  rewrite app_assoc. by eapply IH; [eapply Hstep|..].
Qed.

(** * Scheduling, executably *)

Inductive move :=
  | MTick (t' : Z)
  | MCall (i : nat) (req : Value)
  | MGo (i : nat)
  | MSync (ok : bool)
  | MJoin (addr : bytes)
  | MShip (p : nat)
  | MCompact (i : nat)
  | MLeave (p : nat)
  | MAck (p : nat).

(** The next step of goroutine [i], its system calls succeeding. *)
Definition go (i : nat) (w : wserver) : option (option wlabel * wserver) :=
  let '(WS t s mu gs r) := w in
  let at_dispatch held req d :=
    match dispatch_next order_id t req d (s_db s) with
    | Some (db, x) =>
        Some (committed held req x, WS t (with_db s db) mu (<[i := landed held req x]> gs) r)
    | None => None
    end in
  match gs !! i with
  | Some (Checking req) => Some (None, WS t s mu (<[i := checked s req]> gs) r)
  | Some (Locking req) =>
      if mu then None else Some (None, WS t s true (<[i := Holding req (dispatch_start req)]> gs) r)
  | Some (Fast req d) => at_dispatch false req d
  | Some (Holding req d) => at_dispatch true req d
  | Some (Appending req v) =>
      Some (None, WS t (append_log (quiet t) s req) mu (<[i := Propagating req v]> gs) r)
  | Some (Propagating req v) =>
      match Propagate order_id (s_replicas s) req with
      | Some reps => Some (Some (Committed req v), WS t (with_replicas s reps) mu (<[i := Unlocking v]> gs) r)
      | None => None
      end
  | Some (Unlocking v) => Some (None, WS t s false (<[i := Replying v]> gs) r)
  | Some (Replying v) => Some (None, WS t s mu (<[i := Away]> gs) r)
  | Some (Compacting CLocking) =>
      if mu then None else Some (None, WS t s true (<[i := Compacting CHolding]> gs) r)
  | Some (Compacting CHolding) =>
      Some (None, WS t s mu (<[i := Compacting (CCopying orders_id t 0 [])]> gs) r)
  | Some (Compacting (CCopying os begin next out)) =>
      if decide (next = Z.to_nat shardCount) then
        match s_aof s with
        | Some a =>
            match Rewrite (s_world s) a (s_aofPath s) t out io_ok with
            | Some (wd, a', _) =>
                Some (Some (Rewrote t out io_ok),
                      WS t (with_log s wd (Some a')) mu (<[i := Compacting CWritten]> gs) r)
            | None => None
            end
        | None => None
        end
      else
        match shards (s_db s) !! next with
        | Some sh =>
            Some (None, WS t s mu
                          (<[i := Compacting (CCopying os begin (S next) (out ++ snapshotShard os begin next sh))]> gs) r)
        | None => None
        end
  | Some (Compacting CWritten) => Some (None, WS t s false (<[i := Away]> gs) r)
  | _ => None
  end.

Definition perform_move (m : move) (w : wserver) : option (option wlabel * wserver) :=
  let '(WS t s mu gs r) := w in
  match m with
  | MTick t' => if t <=? t' then Some (None, WS t' s mu gs r) else None
  | MCall i req =>
      match gs !! i with
      | Some Away => Some (None, WS t s mu (<[i := Checking req]> gs) r)
      | _ => None
      end
  | MGo i => go i w
  | MSync ok => Some (None, WS t (sync_log s ok) mu gs r)
  | MJoin addr => Some (None, WS t (with_replicas s (Add (s_replicas s) addr t).1) mu gs r)
  | MShip p =>
      match deliverReplica_step true s p with
      | Some (s', frame, more) => Some (Some (Shipped p frame more), WS t s' mu gs r)
      | None => None
      end
  | MCompact i =>
      match gs !! i, s_aof s with
      | Some Away, Some a =>
          if ShouldRewrite (s_world s) a true
          then Some (None, WS t s mu (<[i := Compacting CLocking]> gs) r) else None
      | _, _ => None
      end
  | MLeave p =>
      match Remove (s_replicas s) p with
      | Some reps => Some (None, WS t (with_replicas s reps) mu gs r)
      | None => None
      end
  | MAck p => Some (None, WS t (with_replicas s (Acked (s_replicas s) p t)) mu gs r)
  end.

Lemma go_step i w l w' : go i w = Some (l, w') → pstep w l w'.
Proof.
  destruct w as [t s mu gs r]. unfold go. destruct (gs !! i) as [g|] eqn:Ei; [|done].
  destruct g as [|req|req d|req|req d|req v|req v|v|v|[| |os b n out|]]; [done|..]; intros E.
  - simplify_eq. by apply P_check.
  - destruct (dispatch_next _ _ _ _ _) as [[db x]|] eqn:Ed; simplify_eq. by eapply (P_dispatch _ _ _ _ _ _ false).
  - destruct mu; simplify_eq. by apply P_lock.
  - destruct (dispatch_next _ _ _ _ _) as [[db x]|] eqn:Ed; simplify_eq. by eapply (P_dispatch _ _ _ _ _ _ true).
  - simplify_eq. by apply P_append.
  - destruct (Propagate _ _ _) eqn:Ep; simplify_eq. by eapply P_propagate.
  - simplify_eq. by apply P_unlock.
  - simplify_eq. by eapply P_return.
  - destruct mu; simplify_eq. by apply P_freeze.
  - simplify_eq. by apply P_begin.
  - case_decide as Hn; [subst n; destruct (s_aof s) as [a|] eqn:Ea; [|done]|].
    + destruct (Rewrite _ _ _ _ _ _) as [[[wd a'] ok]|] eqn:Er; simplify_eq. by eapply P_rewrite.
    + destruct (shards (s_db s) !! n) as [sh|] eqn:Es; simplify_eq. by eapply P_copy.
  - simplify_eq. by apply P_thaw.
Qed.

Lemma perform_move_step m w l w' : perform_move m w = Some (l, w') → pstep w l w'.
Proof.
  destruct w as [t s mu gs r]. destruct m as [t'|i req|i|ok|addr|p|i|p|p]; simpl; intros E.
  - case_match; simplify_eq. reflect_bools. by apply P_tick.
  - repeat case_match; simplify_eq. by apply P_call.
  - by eapply (go_step i).
  - simplify_eq. apply P_sync.
  - simplify_eq. destruct (Add (s_replicas s) addr t) eqn:Ea. by eapply P_join.
  - destruct (deliverReplica_step true s p) as [[[s' f] more]|] eqn:Ed; simplify_eq. by eapply P_ship.
  - destruct (gs !! i) as [[]|] eqn:Ei, (s_aof s) as [a|] eqn:Ea; try done.
    destruct (ShouldRewrite _ _ _) eqn:Es; simplify_eq. by eapply P_grown.
  - destruct (Remove _ _) as [reps|] eqn:Er; simplify_eq. by eapply P_leave.
  - simplify_eq. apply P_ack.
Qed.

Lemma moves_run ms w tr w' : drive perform_move ms w = Some (tr, w') → runs pstep w tr w'.
Proof. apply drive_runs, perform_move_step. Qed.
End write_path.

#[export] Hint Resolve write_times_nil : core.

(** * Concrete runs *)

(** A [SET] waits for the lock while a [DEL] of two keys holds it; a [GET]
    runs between the sections of the [DEL], time passes, a replica joins and
    the log is synced; then the [SET] goes. *)
Definition contention : list move :=
  let set := request [B "SET"; B "k"; B "new"] in
  [MCall 0 (request [B "SET"; B "k"; B "old"])] ++ replicate 8 (MGo 0) ++
  [MCall 1 (request [B "DEL"; B "k"; B "x"]); MGo 1; MCall 0 set; MGo 0; MGo 1; MGo 1; MGo 1; MTick 5;
   MCall 2 (request [B "GET"; B "k"]); MGo 2; MGo 2; MGo 1; MGo 1; MJoin (B "10.0.0.2:1"); MGo 1; MGo 1;
   MSync true; MGo 1; MShip 0; MGo 1; MGo 0; MGo 0; MGo 2; MGo 2] ++ replicate 5 (MGo 0).

Definition contention_trace : list wlabel :=
  let del := request [B "DEL"; B "k"; B "x"] in
  [Committed (request [B "SET"; B "k"; B "old"]) okValue; Committed del (IntegerV 1); Shipped 0 (encode del) true;
   Committed (request [B "SET"; B "k"; B "new"]) okValue].

(** Without a log: goroutine 0 passes the test while no replica is connected. *)
Definition overtaken : list move := [MCall 0 (request [B "SET"; B "k"; B "old"]); MGo 0; MJoin (B "10.0.0.2:1")].

(** Goroutine 1 then writes through the lock, and goroutine 0 last. *)
Definition overtaking : list move :=
  [MCall 1 (request [B "SET"; B "k"; B "new"])] ++ replicate 8 (MGo 1) ++ replicate 2 (MGo 0).
