(* ===== verification/WritePathFacts.v ===== *)
(** The write path of [WritePath] is atomic: the invariant that ties the
    concurrent server to the one that serves a write at a time. *)

From S2P Require Import Prelude Lts GoLib Protocol ProtocolFacts PubSub Store Db Spec Refine Expiry.
From S2P Require Import History Concurrent Cmd CmdFacts CmdSpec Replay Aof AofFacts Snapshot Compaction.
From S2P Require Import LiveSnapshot Replication Server ServerFacts Feed WritePath.

Section write_path_facts.
Context `{GoUnicode}.

(** * Requests and operations *)

Lemma meaning_first req x rd :
  request_meaning req = Some (x, rd) →
  ∃ first args den, commandName req = arg first ∧
    assoc (ToUpper (arg first)) denotes = Some den ∧ den args = Some (x, rd) ∧
    ∀ clk (o : map_order) db, Dispatch clk o db req = Dispatch clk o db (ArrayV (Some (first :: args))).
Proof.
  unfold request_meaning, commandName. intros E. destruct (negb _) eqn:Ht; [done|].
  destruct (vArray req) as [[|first args]|] eqn:Ea; [done| |done].
  destruct (assoc _ denotes) as [den|] eqn:Ed; [|done]. exists first, args, den. split_and!; [done..|].
  intros. by rewrite Dispatch_cases, Ht, Ea.
Qed.

Lemma denotes_reads :
  Forall (λ c : bytes * meaning, ∀ args x rd, c.2 args = Some (x, rd) →
    reads x = negb (bool_decide (c.1 ∈ writeCommands))) denotes.
Proof.
  unfold denotes.
  repeat (apply Forall_cons; split; [cbn [fst snd]|]); [..|by apply Forall_nil].
  all: intros args x rd; unfold one, many, hset, ttl, expire;
    repeat (case_match; simplify_eq/=; try done); by intros [= <- <-].
Qed.

Lemma meaning_reads req x rd :
  request_meaning req = Some (x, rd) → reads x = negb (IsWrite (commandName req)).
Proof.
  intros E. destruct (meaning_first _ _ _ E) as (first & args & den & -> & Hden & Hx & _).
  apply assoc_elem in Hden. pose proof denotes_reads as Hr. rewrite Forall_forall in Hr.
  by apply (Hr _ Hden args x rd).
Qed.

Lemma Dispatch_meaning (o : map_order) t db req x rd :
  db_ok db → request_meaning req = Some (x, rd) →
  op_ok x ∧ Dispatch (λ _, t) o db req = ((run_op o t x db).1, Some (rd (run_op o t x db).2)).
Proof.
  intros Hok E. destruct (meaning_first _ _ _ E) as (first & args & den & _ & Hden & Hx & ->).
  destruct (denotes_command _ _ Hden) as (f & Hf & Himp). rewrite Dispatch_array, Hf. by apply Himp.
Qed.

Lemma denotes_del :
  Forall (λ c : bytes * meaning, ∀ args ks rd, c.2 args = Some (ODel ks, rd) →
    assoc c.1 commands = Some cmd_Del ∧ ks = map arg args ∧ args ≠ [] ∧ rd = render) denotes.
Proof.
  unfold denotes.
  repeat (apply Forall_cons; split; [cbn [fst snd]|]); [..|by apply Forall_nil].
  all: intros args ks rd; unfold one, many, hset, ttl, expire;
    repeat (case_match; simplify_eq/=; try done); by intros [= <- <-].
Qed.

(** [DEL] at the instants of its sections. *)
Lemma Dispatch_del clk (o : map_order) db req ks rd :
  request_meaning req = Some (ODel ks, rd) →
  Dispatch clk o db req = let '(db', n) := DB_Del db ks clk in (db', Some (rd (RInt n))).
Proof.
  intros E. destruct (meaning_first _ _ _ E) as (first & args & den & _ & Hden & Hx & ->).
  apply assoc_elem in Hden. pose proof denotes_del as Hd. rewrite Forall_forall in Hd.
  destruct (Hd _ Hden args ks rd Hx) as (Hf & -> & Hargs & ->). cbn [fst] in Hf.
  rewrite Dispatch_array, Hf. by destruct args.
Qed.

(** A command that should write and has no meaning is refused. *)
Lemma Dispatch_refused req :
  IsWrite (commandName req) = true → request_meaning req = None →
  ∃ msg, ∀ clk (o : map_order) db, Dispatch clk o db req = (db, Some (errorValue msg)).
Proof.
  unfold request_meaning, commandName. intros Hw E.
  destruct (negb _) eqn:Ht.
  { eexists. intros. by rewrite Dispatch_cases, Ht. }
  destruct (vArray req) as [[|first args]|] eqn:Ea; [eexists; intros; by rewrite Dispatch_cases, Ht, Ea|
    |eexists; intros; by rewrite Dispatch_cases, Ht, Ea].
  destruct (IsWrite_denotes _ Hw) as [den Hden]. change (content (vBulk first)) with (arg first) in Hden.
  rewrite Hden in E. destruct (denotes_reject _ _ Hden) as (f & Hf & Hrej).
  destruct (Hrej args E) as [msg Hmsg]. exists msg. intros clk o db. rewrite Dispatch_cases, Ht, Ea, Dispatch_array, Hf.
  apply Hmsg.
Qed.

(** Commands without a meaning touch no shard. *)
Lemma commands_shards :
  Forall (λ c : bytes * CmdFunc, is_Some (assoc c.1 denotes) ∨
    ∀ clk (o : map_order) db args, shards (c.2 clk o db args).1 = shards db) commands.
Proof.
  unfold commands.
  repeat (apply Forall_cons; split; [cbn [fst snd]; first [by left; eexists|right]|]); [..|by apply Forall_nil].
  all: intros clk o db args; unfold cmd_Ping, cmd_Echo, cmd_Publish, usage; by repeat case_match.
Qed.

Lemma Dispatch_shards clk (o : map_order) db req :
  request_meaning req = None → shards (Dispatch clk o db req).1 = shards db.
Proof.
  unfold request_meaning. rewrite Dispatch_cases. destruct (negb _); [done|].
  destruct (vArray req) as [[|first args]|]; [done| |done]. rewrite Dispatch_array.
  destruct (assoc (ToUpper (arg first)) denotes) as [den|] eqn:Ed; intros E.
  - destruct (denotes_reject _ _ Ed) as (f & -> & Hrej). by destruct (Hrej args E) as [msg ->].
  - destruct (assoc (ToUpper (arg first)) commands) as [f|] eqn:Ef; [|done].
    apply assoc_elem in Ef as Hf. pose proof commands_shards as Hc. rewrite Forall_forall in Hc.
    destruct (Hc _ Hf) as [[den Hden]|Hs]; [|apply Hs]. cbn [fst] in Hden. congruence.
Qed.

(** The reply of a write does not depend on any iteration order. *)
Definition plain (r : reply) : Prop := match r with RBag _ | RPairs _ => False | _ => True end.

Lemma spec_write_plain t x m : reads x = false → plain (spec_op t x m).2.
Proof.
  destruct x; try done; intros _; simpl; unfold spec_push, spec_pop, spec_hash, spec_set;
    repeat (case_match; simplify_eq/=; try done).
Qed.

Lemma write_reply (o : map_order) t x db :
  db_ok db → op_ok x → reads x = false → (run_op o t x db).2 = (spec_op t x (view t db)).2.
Proof.
  intros Hok Hx Hr. destruct (run_op_refines o t x db Hok Hx) as (_ & _ & Heq).
  pose proof (spec_write_plain t x (view t db) Hr) as Hp.
  destruct (spec_op t x (view t db)) as [m r']. simpl in *. destruct (run_op o t x db) as [db' r]. simpl in *.
  destruct r, r'; simpl in *; try done.
Qed.

(** * The goroutine that holds the lock *)

Lemma view_later t t' db db' :
  db_ok db → db_ok db' → t ≤ t' → view t db = view t db' → view t' db = view t' db'.
Proof. intros. rewrite (view_ages t t' db), (view_ages t t' db') by done. congruence. Qed.

(** The command it runs on [db] has done, up to now, what it does on [db0]
    alone. *)
Definition ran (last now : Z) (db db0 : DB) (req v : Value) : Prop :=
  ∃ clk (ord : map_order) db', ((∀ j, last ≤ clk j ≤ now) ∧ steady clk req) ∧ db_ok db' ∧
    Dispatch clk ord db0 req = (db', Some v) ∧ view now db = view now db'.

Definition dispatch_ok (last now : Z) (db db0 : DB) (req : Value) (d : dispatching) : Prop :=
  match d with
  | Other => request_meaning req = None ∧ view now db = view now db0
  | Ops rd th =>
      ∃ x, request_meaning req = Some (x, rd) ∧
      match th with
      | Start x' => x' = x ∧ view now db = view now db0
      | DelFrom ks n => ∃ ks0 clk db', x = ODel (ks0 ++ ks) ∧ (∀ j, last ≤ clk j ≤ now) ∧ db_ok db' ∧
          del_loop db0 ks0 clk 0 0 = (db', n) ∧ view now db = view now db'
      | Done r => ran last now db db0 req (rd r)
      | _ => False
      end
  end.

Lemma ran_view last now db db1 db0 req v : view now db1 = view now db → ran last now db db0 req v → ran last now db1 db0 req v.
Proof. intros E (clk & ord & db' & H1 & H2 & H3 & H4). exists clk, ord, db'. by rewrite E. Qed.

Lemma dispatch_ok_view last now db db1 db0 req d :
  view now db1 = view now db → dispatch_ok last now db db0 req d → dispatch_ok last now db1 db0 req d.
Proof.
  intros E. destruct d as [rd [|x|k|ks n|ks n|r]|]; simpl; rewrite ?E; try done.
  intros (x & Hx & Hr). exists x. split; [done|]. by eapply ran_view.
Qed.

Lemma clk_later (clk : clock) last now now' :
  now ≤ now' → (∀ j, last ≤ clk j ≤ now) → ∀ j, last ≤ clk j ≤ now'.
Proof. intros Ht Hc j. specialize (Hc j). lia. Qed.

Lemma ran_later last now now' db db0 req v :
  db_ok db → now ≤ now' → ran last now db db0 req v → ran last now' db db0 req v.
Proof.
  intros Hok Ht (clk & ord & db' & H1 & H2 & H3 & H4). exists clk, ord, db'.
  split_and!; [by apply (clk_later _ _ now), H1|apply H1|done..|by eapply view_later].
Qed.

Lemma dispatch_ok_later last now now' db db0 req d :
  db_ok db → db_ok db0 → now ≤ now' → dispatch_ok last now db db0 req d → dispatch_ok last now' db db0 req d.
Proof.
  intros Hok Hok0 Ht. destruct d as [rd [|x|k|ks n|ks n|r]|]; simpl; try done.
  - intros (y & Hy & -> & Hv). exists y. split_and!; [done..|]. by eapply view_later.
  - intros (y & Hy & ks0 & clk & db' & H1 & Hc & H2 & H3 & H4). exists y. split; [done|].
    exists ks0, clk, db'. split_and!; [done|by apply clk_later with now|done..|by eapply view_later].
  - intros (y & Hy & Hr). exists y. split; [done|]. by eapply ran_later.
  - intros [Hm Hv]. split; [done|]. by eapply view_later.
Qed.

Lemma del_loop_snoc db ks k clk i n :
  del_loop db (ks ++ [k]) clk i n =
  let '(db', n') := del_loop db ks clk i n in
  let '(db2, d) := del_step db' k (clk (i + length ks)%nat) in (db2, n' + d).
Proof.
  revert db i n. induction ks as [|k0 ks IH]; intros db i n; simpl; rewrite ?Nat.add_0_r.
  - by destruct (del_step db k (clk i)).
  - destruct (del_step db k0 (clk i)) as [db1 d1]. rewrite IH.
    by replace (S i + length ks)%nat with (i + S (length ks))%nat by lia.
Qed.

Lemma del_loop_clk db ks clk clk' i n :
  (∀ j, (j < length ks)%nat → clk (i + j)%nat = clk' (i + j)%nat) →
  del_loop db ks clk i n = del_loop db ks clk' i n.
Proof.
  revert db i n. induction ks as [|k ks IH]; intros db i n Hc; simpl; [done|].
  pose proof (Hc 0%nat ltac:(simpl; lia)) as H0. rewrite Nat.add_0_r in H0. rewrite H0.
  destruct (del_step db k (clk' i)) as [db' d]. apply IH.
  intros j Hj. specialize (Hc (S j) ltac:(simpl; lia)). by rewrite Nat.add_succ_r in Hc.
Qed.
(** One more key of a [DEL]. *)
Lemma del_ran last now db db0 db' ks0 clk n k db1 d :
  last ≤ now → (∀ j, last ≤ clk j ≤ now) →
  db_ok db → db_ok db' → del_loop db0 ks0 clk 0 0 = (db', n) → view now db = view now db' →
  del_step db k now = (db1, d) →
  ∃ clk' db2, (∀ j, last ≤ clk' j ≤ now) ∧ db_ok db2 ∧ del_loop db0 (ks0 ++ [k]) clk' 0 0 = (db2, n + d) ∧ view now db1 = view now db2.
Proof.
  intros Ht Hc Hok Hok' Hl Hv Hd.
  pose (clk' := λ j, if decide (j = length ks0) then now else clk j).
  destruct (del_step_spec now db k now Hok) as (_ & V1 & N1), (del_step_spec now db' k now Hok') as (O2 & V2 & N2).
  rewrite Hd in V1, N1. simpl in V1, N1. rewrite Hv in V1, N1.
  exists clk', (del_step db' k now).1. split_and!; [|done| |by rewrite V1, V2].
  { intros j. unfold clk'. destruct (decide (j = length ks0)); [by split|apply Hc]. }
  rewrite del_loop_snoc, (del_loop_clk _ _ clk' clk), Hl.
  2:{ intros j Hj. simpl. unfold clk'. rewrite decide_False by lia. done. }
  assert (clk' (0 + length ks0)%nat = now) as -> by (unfold clk'; by rewrite decide_True by lia).
  destruct (del_step db' k now) as [db2 d2]. simpl in *. congruence.
Qed.

Lemma hold_step last ord now req d db db0 db1 r :
  last ≤ now → db_ok db → db_ok db0 → IsWrite (commandName req) = true →
  dispatch_ok last now db db0 req d → dispatch_next ord now req d db = Some (db1, r) →
  db_ok db1 ∧ match r with inl d' => dispatch_ok last now db1 db0 req d' | inr v => ran last now db1 db0 req v end.
Proof.
  intros Hlast Hok Hok0 Hw Hd E. destruct d as [rd th|].
  2:{ destruct Hd as [Hm Hv]. destruct (Dispatch_refused req Hw Hm) as [msg Hmsg]. simpl in E.
      rewrite Hmsg in E. simplify_eq. split; [done|]. exists (λ _, now), ord, db0. split_and!; try done. left. eauto. }
  destruct Hd as (x & Hx & Hth).
  assert (reads x = false) as Hr by (rewrite (meaning_reads _ _ _ Hx), Hw; done).
  destruct th as [|x'|k|ks n|ks n|v]; simpl in Hth; try done.
  - destruct Hth as [-> Hv]. destruct (Dispatch_meaning ord now db0 req x rd Hok0 Hx) as [Hxok Hdisp].
    destruct (decide (one_section x)) as [Ho|Ho].
    + cbn [dispatch_next] in E. rewrite section_one in E by done.
      destruct (run_op_refines ord now x db Hok Hxok) as (H1 & H2 & _).
      destruct (run_op_refines ord now x db0 Hok0 Hxok) as (H1' & H2' & _).
      pose proof (write_reply ord now x db Hok Hxok Hr) as R1.
      pose proof (write_reply ord now x db0 Hok0 Hxok Hr) as R2. rewrite <-Hv in R2, H2'.
      destruct (run_op ord now x db) as [db2 r2]. simplify_eq. split; [done|].
      exists x. split; [done|]. exists (λ _, now), ord, (run_op ord now x db0).1. simpl in *.
      split_and!; [done..|by left; exists now|done| |congruence]. by rewrite Hdisp, R2, R1.
    + destruct x; try done; simpl in Ho; try (exfalso; by apply Ho). simpl in E. simplify_eq.
      split; [done|]. eexists. split; [done|]. by exists [], (λ _, now), db0; split_and!.
  - destruct Hth as (ks0 & clk & db' & -> & Hc & Hok' & Hl & Hv). destruct ks as [|k ks]; simpl in E.
    + simplify_eq. split; [done|]. eexists. split; [done|]. exists clk, ord, db'. split_and!; [done..|by right; eauto|done| |done].
      rewrite (Dispatch_del _ _ _ _ _ _ Hx). unfold DB_Del. by rewrite app_nil_r, Hl.
    + pose proof (proj1 (del_step_spec now db k now Hok)) as Hok1.
      destruct (del_step db k now) as [db2 d] eqn:Ed. simplify_eq. split; [done|].
      eexists. split; [done|].
      destruct (del_ran _ _ _ _ _ _ _ _ _ _ _ Hlast Hc Hok Hok' Hl Hv Ed) as (clk' & db2 & Hc' & H1 & H2 & H3).
      exists (ks0 ++ [k]), clk', db2. by rewrite <-app_assoc.
  - simpl in E. simplify_eq. by split.
Qed.

(** * Goroutines that do not hold the lock *)

(** Without it only reads run. *)
Definition fast_ok (req : Value) (d : dispatching) : Prop :=
  IsWrite (commandName req) = false ∧ match d with Ops _ th => reading th | Other => request_meaning req = None end.

Lemma fast_start req : IsWrite (commandName req) = false → fast_ok req (dispatch_start req).
Proof.
  intros Hw. split; [done|]. unfold dispatch_start. destruct (request_meaning req) as [[x rd]|] eqn:E; [|done].
  simpl. by rewrite (meaning_reads _ _ _ E), Hw.
Qed.

(** Shards from which some expired keys were evicted. *)
Definition thinned (t : Z) (db db' : DB) : Prop := Forall2 (reaped t) (shards db) (shards db').

Lemma thinned_refl t db : thinned t db db.
Proof. by apply Forall_Forall2_diag, Forall_forall. Qed.

Lemma thinned_trans t db1 db2 db3 : thinned t db1 db2 → thinned t db2 db3 → thinned t db1 db3.
Proof. unfold thinned. by etrans. Qed.

Lemma reaped_all_mono t t' l l' : t ≤ t' → Forall2 (reaped t) l l' → Forall2 (reaped t') l l'.
Proof. intros Ht Hf. eapply Forall2_impl; [exact Hf|]. intros. by eapply reaped_mono. Qed.

Lemma thinned_db t db db' :
  db_ok db → thinned t db db' → db_ok (mkDB (shards db') (pubsub db)) ∧ ∀ t', t ≤ t' → view t' db' = view t' db.
Proof.
  intros Hok Hf. destruct (evicted_db t db (mkDB (shards db') (pubsub db)) Hok) as [H1 H2]; [by split|].
  split; [done|]. intros t' Ht. rewrite <-(H2 t' Ht). done.
Qed.

Lemma fast_step ord now req d db db1 r :
  db_ok db → fast_ok req d → dispatch_next ord now req d db = Some (db1, r) →
  db_ok db1 ∧ thinned now db db1 ∧ match r with inl d' => fast_ok req d' | inr _ => True end.
Proof.
  intros Hok [Hw Hd] E. destruct d as [rd th|].
  - assert ((db1 = db ∧ ∃ v, r = inr v) ∨ ∃ th', section ord now th db = Some (db1, th') ∧ r = inl (Ops rd th'))
      as [[-> [v ->]]|(th' & Es & ->)]; [|by split_and!; [|apply thinned_refl|]|].
    { destruct th; simpl in E |- *; try (destruct (match _ with [] => _ | _ => _ end) as [[? ?]|]; simplify_eq; eauto);
        simplify_eq; eauto; repeat case_match; simplify_eq; eauto. }
    destruct (reading_section _ _ _ _ _ _ Hd Es) as [Hev Hr].
    destruct (evicted_db _ _ _ Hok Hev) as [Hok1 Hv]. by split_and!; [|apply Hev|].
  - simpl in E. destruct (Dispatch_sound (λ _, now) ord db req Hok) as (Hok1 & v & Hv & _).
    pose proof (Dispatch_shards (λ _, now) ord db req Hd) as Hs.
    destruct (Dispatch _ _ _ _) as [db2 [v'|]]; simplify_eq. split_and!; [done| |done].
    unfold thinned. simpl in Hs. rewrite Hs. apply thinned_refl.
Qed.

(** * Invariant *)

Definition inside (g : gor) : Prop :=
  match g with
  | Holding _ _ | Appending _ _ | Propagating _ _ | Unlocking _ => True
  | Compacting c => c ≠ CLocking
  | _ => False
  end.

#[export] Instance inside_dec g : Decision (inside g).
Proof. destruct g as [| | | | | | | | |[]]; simpl; first [apply _|left; done|right; naive_solver]. Defined.

Definition propagating (g : gor) : Prop := match g with Propagating _ _ => True | _ => False end.

#[export] Instance propagating_dec g : Decision (propagating g).
Proof. destruct g; simpl; apply _. Defined.

Definition recordable (req v : Value) : Prop :=
  IsWrite (commandName req) = true ∧ byte_eqb (vType v) TypeError = false.

Definition same_log (c s : Server) : Prop := s_world c = s_world s ∧ s_aof c = s_aof s.

(** A rewrite has copied [next] shards since [begin] of a store that was
    [db0] then: each as it was at some moment since. *)
Definition copying_ok (os : snap_orders) (begin : Z) (next : nat) (out : list SnapshotEntry)
    (now : Z) (db0 db : DB) : Prop :=
  db_ok db0 ∧ thinned now db0 db ∧
  ∃ seen, Forall2 (reaped now) (take next (shards db0)) seen ∧ length seen = next ∧
    out = concat (imap (snapshotShard os begin) seen).

(** Where a goroutine is, the sequential server [s] being the one before the
    write of the goroutine that holds the lock, or after it once the write is
    committed. *)
Definition gor_ok (last now : Z) (c s : Server) (g : gor) : Prop :=
  match g with
  | Fast req d => fast_ok req d
  | Locking req => IsWrite (commandName req) = true
  | Holding req d => IsWrite (commandName req) = true ∧ dispatch_ok last now (s_db c) (s_db s) req d
  | Appending req v => recordable req v ∧ ran last now (s_db c) (s_db s) req v
  | Propagating req v => recordable req v ∧ ran last now (s_db c) (s_db s) req v ∧
      ∃ e pend, same_log c (foldl sync_log (append_log e s req) pend)
  | Unlocking _ => view now (s_db c) = view now (s_db s)
  | Compacting CLocking => True
  | Compacting (CCopying os begin next out) =>
      last ≤ begin ∧ begin ≤ now ∧ view now (s_db c) = view now (s_db s) ∧
      ∃ db0, view begin db0 = view begin (s_db s) ∧ copying_ok os begin next out now db0 (s_db c)
  | Compacting _ => view now (s_db c) = view now (s_db s)
  | _ => True
  end.

Record gors_ok (last now : Z) (c s : Server) (mu : bool) (gs : list gor) : Prop := {
  go_held : ∀ i g, gs !! i = Some g → inside g → mu = true;
  go_one : ∀ i g j g', gs !! i = Some g → inside g → gs !! j = Some g' → inside g' → j = i;
  go_at : ∀ i g, gs !! i = Some g → gor_ok last now c s g;
  go_log : (∀ i g, gs !! i = Some g → ¬ propagating g) → same_log c s
}.

Record path_inv (last : Z) (s : Server) (w : wserver) : Prop := {
  pi_last : last ≤ w_now w;
  pi_srv : srv_ok s;
  pi_on : is_Some (s_aof s);
  pi_on' : is_Some (s_aof (w_srv w));
  pi_db : db_ok (s_db (w_srv w));
  pi_worker : worker_ok (w_now w) (w_reaper w);
  pi_feeds : s_replicas (w_srv w) = s_replicas s;
  pi_path : s_aofPath (w_srv w) = s_aofPath s;
  pi_gors : gors_ok last (w_now w) (w_srv w) s (w_mu w) (w_gors w);
  pi_free : w_mu w = false → view (w_now w) (s_db (w_srv w)) = view (w_now w) (s_db s)
}.

Lemma gor_ok_outside last last' now c s now' c' s' g : ¬ inside g → gor_ok last now c s g → gor_ok last' now' c' s' g.
Proof. destruct g as [| | | | | | | | |[]]; simpl; naive_solver. Qed.

Lemma gors_at_impl last now c s now' c' s' mu gs :
  gors_ok last now c s mu gs → (same_log c s → same_log c' s') →
  (∀ g, gor_ok last now c s g → gor_ok last now' c' s' g) → gors_ok last now' c' s' mu gs.
Proof. intros [H1 H2 H3 H4] Hl Hg. split; eauto. Qed.

Lemma gor_at_insert (gs : list gor) i g' j gj :
  <[i := g']> gs !! j = Some gj → (j = i ∧ gj = g') ∨ (j ≠ i ∧ gs !! j = Some gj).
Proof.
  rewrite list_lookup_insert. destruct (decide (j = i)) as [->|Hne].
  - case_decide as Hd; [naive_solver|]. intros E. destruct Hd. split; [done|by eapply lookup_lt_Some].
  - rewrite decide_False by naive_solver. auto.
Qed.

(** A goroutine that is not inside moves and stays outside. *)
Lemma gors_outside last now c s mu gs i g g' :
  gors_ok last now c s mu gs → gs !! i = Some g → ¬ inside g → ¬ inside g' → gor_ok last now c s g' →
  gors_ok last now c s mu (<[i := g']> gs).
Proof.
  intros [H1 H2 H3 H4] Hi Hg Hg' Hok.
  assert (∀ j gj, <[i := g']> gs !! j = Some gj → gj = g' ∨ gs !! j = Some gj) as Hj.
  { intros j gj Hgj%gor_at_insert. naive_solver. }
  split.
  - intros j gj [->|Hgj]%Hj Hin; [done|by eapply H1].
  - intros j gj k gk [->|Hgj]%Hj Hin [->|Hgk]%Hj Hin'; try done. by eapply H2.
  - intros j gj [->|Hgj]%Hj; [done|by eapply H3].
  - intros Hp. apply H4. intros j gj Hgj Hpr. destruct (decide (j = i)) as [->|Hne].
    + rewrite Hi in Hgj. simplify_eq. by destruct gj.
    + apply (Hp j gj); [|done]. by rewrite list_lookup_insert_ne.
Qed.

(** The goroutine inside moves; the others do not depend on the state. *)
Lemma gors_inside last last' now c s mu gs now' c' s' mu' i g g' :
  gors_ok last now c s mu gs → gs !! i = Some g → (inside g ∨ mu = false) → (inside g' → mu' = true) →
  gor_ok last' now' c' s' g' → (¬ propagating g' → same_log c' s') →
  gors_ok last' now' c' s' mu' (<[i := g']> gs).
Proof.
  intros [H1 H2 H3 H4] Hi Hg Hg' Hok Hl.
  assert (∀ j gj, gs !! j = Some gj → j ≠ i → ¬ inside gj) as Hout.
  { intros j gj Hj Hne Hin. destruct Hg as [Hg| ->]; [by apply Hne; eapply H2|]. by specialize (H1 j gj Hj Hin). }
  assert (∀ j gj, <[i := g']> gs !! j = Some gj → (j = i ∧ gj = g') ∨ (gs !! j = Some gj ∧ ¬ inside gj)) as Hj.
  { intros j gj [?|[Hne Hgj]]%gor_at_insert; [by left|right]. split; [done|by apply (Hout j gj)]. }
  split.
  - intros j gj [[-> ->]|[_ Hn]]%Hj Hin; [by apply Hg'|done].
  - intros j gj k gk [[-> ->]|[_ Hn]]%Hj Hin [[-> ->]|[_ Hn']]%Hj Hin'; done.
  - intros j gj [[-> ->]|[Hgj Hn]]%Hj; [done|]. eapply gor_ok_outside; [done|by eapply H3].
  - intros Hp. apply Hl. apply (Hp i). by apply list_lookup_insert_eq; eapply lookup_lt_Some.
Qed.

(** ** Steps that no goroutine notices *)

Lemma copying_thinned os b n out now db0 db db' :
  thinned now db db' → copying_ok os b n out now db0 db → copying_ok os b n out now db0 db'.
Proof. intros Ht (H1 & H2 & H3). split_and!; [done| |done]. by eapply thinned_trans. Qed.

Lemma copying_later os b n out now now' db0 db :
  now ≤ now' → copying_ok os b n out now db0 db → copying_ok os b n out now' db0 db.
Proof.
  intros Ht (H1 & H2 & seen & H3 & H4). split_and!; [done|by eapply reaped_all_mono|].
  exists seen. split; [by eapply reaped_all_mono|done].
Qed.

Lemma gor_ok_db last now c s g db :
  db_ok (s_db c) → thinned now (s_db c) db → gor_ok last now c s g → gor_ok last now (with_db c db) s g.
Proof.
  intros Hok Ht. destruct (thinned_db _ _ _ Hok Ht) as [_ Hv]. specialize (Hv now (Z.le_refl _)).
  destruct g as [|req|req d|req|req d|req v|req v|v|v|[| |os b n out|]]; simpl; try done; rewrite ?Hv; try done.
  - intros [Hw Hd]. split; [done|]. by eapply dispatch_ok_view.
  - intros [Hr Hran]. split; [done|]. by eapply ran_view.
  - intros (Hr & Hran & e & pend & Hl). split_and!; [done|by eapply ran_view|]. by exists e, pend.
  - intros (H1 & H2 & H3 & db0 & H4 & H5). split_and!; [done..|]. exists db0. split; [done|].
    by eapply copying_thinned.
Qed.

Lemma path_inv_db last s t c mu gs w db w' :
  path_inv last s (WS t c mu gs w) → db_ok db → thinned t (s_db c) db → worker_ok t w' →
  path_inv last s (WS t (with_db c db) mu gs w').
Proof.
  intros [H0 H1 H2 H2' H3 H4 H5 Hp H6 H7] Hok Ht Hw. simpl in *. split; simpl; try done.
  - eapply gors_at_impl; [exact H6|done|]. intros g. by apply gor_ok_db.
  - intros Hmu. rewrite (proj2 (thinned_db _ _ _ H3 Ht)) by done. by apply H7.
Qed.

Lemma gor_ok_later last now now' c s g :
  db_ok (s_db c) → db_ok (s_db s) → now ≤ now' → gor_ok last now c s g → gor_ok last now' c s g.
Proof.
  intros Hc Hs Ht. destruct g as [|req|req d|req|req d|req v|req v|v|v|[| |os b n out|]]; simpl; try done.
  - intros [Hw Hd]. split; [done|]. by eapply dispatch_ok_later.
  - intros [Hr Hran]. split; [done|]. by eapply ran_later.
  - intros (Hr & Hran & Hl). split_and!; [done|by eapply ran_later|done].
  - intros. by eapply view_later.
  - intros. by eapply view_later.
  - intros (H1 & H2 & H3 & db0 & H4 & H5). split_and!; [done|lia|by eapply view_later|].
    exists db0. split; [done|by eapply copying_later].
  - intros. by eapply view_later.
Qed.

Lemma append_log_replicas e s req r :
  append_log e (with_replicas s r) req = with_replicas (append_log e s req) r.
Proof. unfold append_log. cbn. destruct (s_aof s); [|done]. by destruct (Append _ _ _ _ _) as [[? ?] ?]. Qed.

Lemma sync_log_replicas s r ok : sync_log (with_replicas s r) ok = with_replicas (sync_log s ok) r.
Proof. unfold sync_log. cbn. by destruct (s_aof s). Qed.

Lemma syncs_replicas s r pend :
  foldl sync_log (with_replicas s r) pend = with_replicas (foldl sync_log s pend) r.
Proof. revert s. induction pend as [|ok pend IH]; intros s; simpl; [done|]. by rewrite sync_log_replicas, IH. Qed.

Lemma path_inv_replicas last s t c mu gs w r :
  path_inv last s (WS t c mu gs w) → reps_ok r →
  path_inv last (with_replicas s r) (WS t (with_replicas c r) mu gs w).
Proof.
  intros [H0 [Hdb Hrs Hlg] H2 H2' H3 H4 H5 Hpa H6 H7] Hr. simpl in *. split; simpl; try done.
  eapply gors_at_impl; [exact H6|done|].
  intros [|req|req d|req|req d|req v|req v|v|v|[| |os b n out|]]; simpl; try done.
  intros (Hrec & Hran & e & pend & Hl). split_and!; [done..|]. exists e, pend.
  by rewrite append_log_replicas, syncs_replicas.
Qed.

(** ** Syncs of the log *)

Lemma sync_log_frame s ok :
  s_db (sync_log s ok) = s_db s ∧ s_replicas (sync_log s ok) = s_replicas s ∧
  s_aof (sync_log s ok) = s_aof s ∧ s_aofPath (sync_log s ok) = s_aofPath s.
Proof. unfold sync_log. by destruct (s_aof s) eqn:E; cbn. Qed.

Lemma sync_log_ok s ok : srv_ok s → srv_ok (sync_log s ok).
Proof.
  intros [H1 H2 H3]. destruct (sync_log_frame s ok) as (E1 & E2 & E3 & _).
  split; rewrite ?E1, ?E2; [done..|]. intros a. rewrite E3. apply H3.
Qed.

Lemma same_log_sync c s ok : same_log c s → same_log (sync_log c ok) (sync_log s ok).
Proof. intros [E1 E2]. unfold same_log, sync_log. rewrite E2. destruct (s_aof s) eqn:E; cbn; [by rewrite E1|]. split; congruence. Qed.

Lemma syncs_frame s pend :
  s_db (foldl sync_log s pend) = s_db s ∧ s_replicas (foldl sync_log s pend) = s_replicas s ∧
  s_aof (foldl sync_log s pend) = s_aof s ∧ s_aofPath (foldl sync_log s pend) = s_aofPath s ∧
  (srv_ok s → srv_ok (foldl sync_log s pend)).
Proof.
  revert s. induction pend as [|ok pend IH]; intros s; simpl; [done|].
  destruct (IH (sync_log s ok)) as (E1 & E2 & E3 & E4 & E5), (sync_log_frame s ok) as (F1 & F2 & F3 & F4).
  rewrite E1, E2, E3, E4. split_and!; [done..|]. intros. by apply E5, sync_log_ok.
Qed.

Lemma sequential_syncs s pend : sequential s (map SSync pend) = Some (foldl sync_log s pend, []).
Proof. revert s. induction pend as [|ok pend IH]; intros s; simpl; [done|]. by rewrite IH. Qed.

Lemma gor_ok_sync last now c s g ok :
  ¬ propagating g → gor_ok last now c s g → gor_ok last now (sync_log c ok) (sync_log s ok) g.
Proof.
  destruct (sync_log_frame c ok) as (E1 & _), (sync_log_frame s ok) as (E2 & _).
  destruct g as [|req|req d|req|req d|req v|req v|v|v|[| |os b n out|]]; simpl; rewrite ?E1, ?E2; done.
Qed.

(** A sync during the propagation of a write comes after the write. *)
Lemma path_inv_sync last s t c mu gs w ok :
  path_inv last s (WS t c mu gs w) →
  ∃ evs s' last', sequential s evs = Some (s', []) ∧ write_times last evs last' ∧ path_inv last' s' (WS t (sync_log c ok) mu gs w).
Proof.
  intros [H0 H1 H2 H2' H3 H4 H5 Hpa H6 H7]. simpl in *.
  destruct (sync_log_frame c ok) as (E1 & E2 & E3 & E4), (sync_log_frame s ok) as (F1 & F2 & F3 & F4).
  destruct (decide (Exists propagating gs)) as [Hp|Hp].
  - exists [], s, last. split_and!; [done..|]. apply Exists_exists in Hp as (g & [i Hi]%list_elem_of_lookup & Hg).
    split; simpl; rewrite ?E1, ?E2, ?E3, ?E4; try done.
    rewrite <-(list_insert_id gs i g) by done.
    eapply gors_inside; [exact H6|exact Hi|by left; destruct g|by intros; eapply (go_held _ _ _ _ _ _ H6)| |done].
    pose proof (go_at _ _ _ _ _ _ H6 i g Hi) as Hok. destruct g as [| | | | | |req v| | |]; try done. simpl in *.
    destruct Hok as (Hr & Hran & e & pend & Hl). rewrite E1. split_and!; [done..|].
    exists e, (pend ++ [ok]). rewrite foldl_app. simpl. by apply same_log_sync.
  - exists [SSync ok], (sync_log s ok), last. split; [by apply sequential_one|]. split; [by apply write_times_other|].
    assert (∀ i g, gs !! i = Some g → ¬ propagating g) as Hn.
    { intros i g Hi Hg. apply Hp, Exists_exists. exists g. split; [by eapply list_elem_of_lookup_2|done]. }
    split; simpl; rewrite ?E1, ?E2, ?E3, ?E4, ?F1, ?F2, ?F3, ?F4; try done; [by apply sync_log_ok|].
    destruct H6 as [G1 G2 G3 G4]. split; try done.
    + intros i g Hi. apply gor_ok_sync; [by eapply Hn|by eapply G3].
    + intros _. by apply same_log_sync, G4.
Qed.

(** ** The steps of a write *)

Definition with_dispatch (e : env) (clk : clock) (ord feeds : map_order) : env :=
  {| e_clk := clk; e_ord := ord; e_accept := e_accept e; e_sync := e_sync e; e_feeds := feeds; e_now := e_now e |}.

Lemma append_log_db e s req db clk ord feeds :
  append_log (with_dispatch e clk ord feeds) (with_db s db) req = with_db (append_log e s req) db.
Proof. unfold append_log. cbn. destruct (s_aof s); [|done]. by destruct (Append _ _ _ _ _) as [[? ?] ?]. Qed.

Lemma append_log_same e c s req : same_log c s → same_log (append_log e c req) (append_log e s req).
Proof.
  intros [E1 E2]. unfold same_log, append_log. rewrite E1, E2. destruct (s_aof s) eqn:E; [|split; congruence].
  by destruct (Append _ _ _ _ _) as [[? ?] ?].
Qed.

Lemma append_log_path e s req : s_aofPath (append_log e s req) = s_aofPath s.
Proof. unfold append_log. by repeat case_match. Qed.

Lemma append_log_some e s req : is_Some (s_aof s) → is_Some (s_aof (append_log e s req)).
Proof. intros [a E]. unfold append_log. rewrite E. by destruct (Append _ _ _ _ _) as [[? ?] ?]. Qed.

Lemma applyRecord_failed clk (ord : map_order) e s req db v :
  is_Some (s_aof s) → IsWrite (commandName req) = true → byte_eqb (vType v) TypeError = true →
  Dispatch clk ord (s_db s) req = (db, Some v) →
  applyRecord (with_dispatch e clk ord ord) s req (commandName req) = Some (with_db s db, v).
Proof. intros [a Ha] Hw Hv E. unfold applyRecord. cbn. rewrite E, Hw, Ha, Hv. done. Qed.

Lemma applyRecord_done clk (ord o : map_order) e s req db v r :
  is_Some (s_aof s) → recordable req v → Dispatch clk ord (s_db s) req = (db, Some v) →
  Propagate o (s_replicas s) req = Some r →
  applyRecord (with_dispatch e clk ord o) s req (commandName req)
  = Some (with_replicas (with_db (append_log e s req) db) r, v).
Proof.
  intros [a Ha] [Hw Hv] E Hp. unfold applyRecord. change (e_clk (with_dispatch e clk ord o)) with clk.
  change (e_ord (with_dispatch e clk ord o)) with ord. change (e_feeds (with_dispatch e clk ord o)) with o.
  rewrite E, Hw, Ha, Hv. cbn zeta. rewrite append_log_db. cbn [negb orb andb].
  assert (s_replicas (with_db (append_log e s req) db) = s_replicas s) as ->.
  { unfold append_log. rewrite Ha. cbn. by destruct (Append _ _ _ _ _) as [[? ?] ?]. }
  rewrite bool_decide_eq_false_2 by done. cbn [andb]. by rewrite Hp.
Qed.

Lemma path_inv_failed last s t c gs w i req d db v :
  path_inv last s (WS t c true gs w) → gs !! i = Some (Holding req d) → db_ok db →
  IsWrite (commandName req) = true → ran last t db (s_db s) req v → byte_eqb (vType v) TypeError = true →
  ∃ evs s', sequential s evs = Some (s', [Committed req v]) ∧ write_times last evs t ∧
    path_inv t s' (WS t (with_db c db) true (<[i := Unlocking v]> gs) w).
Proof.
  intros [H0 H1 H2 H2' H3 H4 H5 Hpa H6 H7] Hi Hdb Hw (clk & ord & db' & [Hc Hst] & Hok' & Hd & Hv) He. simpl in *.
  pose (e0 := {| e_clk := clk; e_ord := ord; e_accept := None; e_sync := true; e_feeds := ord; e_now := t |}).
  exists [SWrite (with_dispatch e0 clk ord ord) req], (with_db s db'). split; [|split; [by exists t; simpl; split_and!|]].
  { apply sequential_one. cbn [seq_step]. by rewrite (applyRecord_failed _ _ _ _ _ _ _ H2 Hw He Hd). }
  split; simpl; try done.
  { split; [done|apply H1|apply H1]. }
  eapply gors_inside; [exact H6|exact Hi|by left|done|done|]. intros _.
  apply (go_log _ _ _ _ _ _ H6). intros j gj Hj Hp.
  assert (j = i) as -> by (eapply (go_one _ _ _ _ _ _ H6); [exact Hi|done|exact Hj|by destruct gj]).
  rewrite Hi in Hj. by simplify_eq.
Qed.

Lemma path_inv_commit last s t c gs w i req v o r :
  path_inv last s (WS t c true gs w) → gs !! i = Some (Propagating req v) →
  Propagate o (s_replicas c) req = Some r →
  ∃ evs s', sequential s evs = Some (s', [Committed req v]) ∧ write_times last evs t ∧
    path_inv t s' (WS t (with_replicas c r) true (<[i := Unlocking v]> gs) w).
Proof.
  intros [H0 H1 H2 H2' H3 H4 H5 Hpa H6 H7] Hi Hp. simpl in *. rewrite H5 in Hp.
  destruct (go_at _ _ _ _ _ _ H6 i _ Hi) as (Hrec & (clk & ord & db' & [Hc Hst] & Hok' & Hd & Hv) & e & pend & Hl).
  set (s1 := with_replicas (with_db (append_log e s req) db') r).
  pose proof (applyRecord_done clk ord o e s req db' v r H2 Hrec Hd Hp) as Ha. fold s1 in Ha.
  destruct (applyRecord_ok (with_dispatch e clk ord o) s req (commandName req) H1) as (s2 & v2 & Ha2 & Hs1 & _).
  rewrite Ha in Ha2. injection Ha2 as <- _.
  destruct (syncs_frame s1 pend) as (F1 & F2 & F3 & F5 & F4).
  exists (SWrite (with_dispatch e clk ord o) req :: map SSync pend), (foldl sync_log s1 pend).
  split; [|split; [exists t; split; [done|apply write_times_syncs]|]].
  { simpl. rewrite Ha. by rewrite sequential_syncs. }
  assert (same_log (with_replicas c r) (foldl sync_log s1 pend)) as Hl'.
  { subst s1. rewrite syncs_replicas. destruct Hl as [L1 L2].
    assert (∀ s pend, foldl sync_log (with_db s db') pend = with_db (foldl sync_log s pend) db') as Hdb.
    { intros s3 l. revert s3. induction l as [|ok l IH]; intros s3; simpl; [done|]. rewrite <-IH. f_equal.
      unfold sync_log. cbn. by destruct (s_aof s3). }
    rewrite Hdb. by split. }
  split; simpl; rewrite ?F1, ?F2, ?F3, ?F5; try done.
  - by apply F4.
  - by apply append_log_some.
  - subst s1. cbn [with_replicas with_db s_aofPath]. by rewrite append_log_path.
  - eapply gors_inside; [exact H6|exact Hi|by left|done| |done]. simpl. by rewrite F1.
Qed.

Lemma held_mu last s t c mu gs w i g :
  path_inv last s (WS t c mu gs w) → gs !! i = Some g → inside g → mu = true.
Proof. intros Hinv Hi Hg. by eapply (go_held _ _ _ _ _ _ (pi_gors _ _ _ Hinv)). Qed.

(** Alone inside, a goroutine that is not propagating finds the two logs the
    same. *)
Lemma held_log last s t c mu gs w i g :
  path_inv last s (WS t c mu gs w) → gs !! i = Some g → inside g → ¬ propagating g → same_log c s.
Proof.
  intros Hinv Hi Hg Hp. pose proof (pi_gors _ _ _ Hinv) as Hgs. simpl in Hgs.
  apply (go_log _ _ _ _ _ _ Hgs). intros j gj Hj Hpj.
  assert (j = i) as -> by (eapply (go_one _ _ _ _ _ _ Hgs); [exact Hi|done|exact Hj|by destruct gj]). congruence.
Qed.

Lemma path_inv_move last s t c mu gs w i g g' :
  path_inv last s (WS t c mu gs w) → gs !! i = Some g → ¬ inside g → ¬ inside g' → gor_ok last t c s g' →
  path_inv last s (WS t c mu (<[i := g']> gs) w).
Proof. intros [] Hi Hg Hg' Hok. split; try done. simpl in *. by eapply gors_outside. Qed.

Lemma dispatch_inv last s t c mu gs w i held req d ord db r :
  path_inv last s (WS t c mu gs w) → gs !! i = Some (running held req d) →
  dispatch_next ord t req d (s_db c) = Some (db, r) →
  ∃ evs s' last', sequential s evs = Some (s', option_list (committed held req r)) ∧
    write_times last evs last' ∧ path_inv last' s' (WS t (with_db c db) mu (<[i := landed held req r]> gs) w).
Proof.
  intros Hinv Hi E. pose proof (pi_db _ _ _ Hinv) as Hdb. pose proof (pi_gors _ _ _ Hinv) as Hgs. simpl in Hdb, Hgs.
  pose proof (go_at _ _ _ _ _ _ Hgs i _ Hi) as Hg. destruct held; simpl in Hg, Hi.
  - destruct Hg as [Hw Hd]. pose proof (held_mu _ _ _ _ _ _ _ _ _ Hinv Hi I) as ->.
    destruct (hold_step _ _ _ _ _ _ _ _ _ (pi_last _ _ _ Hinv) Hdb (sv_db _ (pi_srv _ _ _ Hinv)) Hw Hd E) as [Hok Hr].
    assert (∀ g', gor_ok last t (with_db c db) s g' → ¬ propagating g' → inside g' →
      path_inv last s (WS t (with_db c db) true (<[i := g']> gs) w)) as Hmove.
    { intros g' Hg' Hnp Hin. pose proof (held_log _ _ _ _ _ _ _ _ _ Hinv Hi I (λ x, x)) as Hl.
      destruct Hinv. split; simpl in *; try done. by eapply gors_inside; [done|exact Hi|left|..]. }
    destruct r as [d'|v]; simpl.
    + exists [], s, last. split_and!; [done..|]. apply Hmove; [done|by intros []|done].
    + destruct (byte_eqb (vType v) TypeError) eqn:He; simpl; [|].
      { destruct (path_inv_failed _ _ _ _ _ _ _ _ _ _ _ Hinv Hi Hok Hw Hr He) as (evs & s' & ?). by exists evs, s', t. }
      exists [], s, last. split_and!; [done..|]. apply Hmove; [done|by intros []|done].
  - exists [], s, last. destruct (fast_step _ _ _ _ _ _ _ Hdb Hg E) as (Hok & Hv & Hd). split; [by destruct r|].
    split; [done|].
    eapply path_inv_move; [by eapply path_inv_db; [..|apply Hinv]|exact Hi|by intros []| |].
    + by destruct r; intros [].
    + by destruct r.
Qed.

Lemma checked_ok last t c s req :
  is_Some (s_aof c) → ¬ inside (checked c req) ∧ gor_ok last t c s (checked c req).
Proof.
  intros [a Ha]. unfold checked. rewrite Ha, bool_decide_eq_false_2 by done. cbn [andb]. rewrite orb_false_r.
  destruct (IsWrite (commandName req)) eqn:Hw; simpl; (split; [by intros []|]); [done|by apply fast_start].
Qed.

Lemma dispatch_start_ok last now db db0 req :
  view now db = view now db0 → dispatch_ok last now db db0 req (dispatch_start req).
Proof.
  intros Hv. unfold dispatch_start. destruct (request_meaning req) as [[x rd]|] eqn:E; simpl; [|done].
  by exists x.
Qed.

(** Taking the lock, moving under it and releasing it. *)
Lemma path_inv_lock last s t c gs w i g g' :
  path_inv last s (WS t c false gs w) → gs !! i = Some g → gor_ok last t c s g' →
  path_inv last s (WS t c true (<[i := g']> gs) w).
Proof.
  intros [H0 H1 H2 H2' H3 H4 H5 Hpa H6 H7] Hi Hok. split; simpl in *; try done.
  eapply gors_inside; [exact H6|exact Hi|by right|done|done|]. intros _. apply (go_log _ _ _ _ _ _ H6).
  intros j gj Hj Hp. assert (inside gj) as Hin by by destruct gj. by specialize (go_held _ _ _ _ _ _ H6 j gj Hj Hin).
Qed.

Lemma path_inv_hold last s t c mu gs w i g g' :
  path_inv last s (WS t c mu gs w) → gs !! i = Some g → inside g → ¬ propagating g → inside g' →
  gor_ok last t c s g' → path_inv last s (WS t c mu (<[i := g']> gs) w).
Proof.
  intros Hinv Hi Hg Hp Hin Hok. pose proof (held_mu _ _ _ _ _ _ _ _ _ Hinv Hi Hg) as ->.
  pose proof (held_log _ _ _ _ _ _ _ _ _ Hinv Hi Hg Hp) as Hl.
  destruct Hinv as [H0 H1 H2 H2' H3 H4 H5 Hpa H6 H7]. split; simpl in *; try done.
  by eapply gors_inside; [exact H6|exact Hi|left|..].
Qed.

Lemma path_inv_release last s t c mu gs w i g g' :
  path_inv last s (WS t c mu gs w) → gs !! i = Some g → inside g → ¬ propagating g → ¬ inside g' →
  view t (s_db c) = view t (s_db s) → gor_ok last t c s g' →
  path_inv last s (WS t c false (<[i := g']> gs) w).
Proof.
  intros Hinv Hi Hg Hp Hin Hv Hok. pose proof (held_log _ _ _ _ _ _ _ _ _ Hinv Hi Hg Hp) as Hl.
  destruct Hinv as [H0 H1 H2 H2' H3 H4 H5 Hpa H6 H7]. split; simpl in *; try done.
  by eapply gors_inside; [exact H6|exact Hi|left|..].
Qed.

(** ** The steps of a rewrite *)

Lemma copying_shard os b n out now db0 db sh :
  shards db !! n = Some sh → copying_ok os b n out now db0 db →
  copying_ok os b (S n) (out ++ snapshotShard os b n sh) now db0 db.
Proof.
  intros Hsh (H1 & H2 & seen & H3 & H4 & ->). split_and!; [done..|].
  destruct (Forall2_lookup_r _ _ _ _ _ H2 Hsh) as (sh0 & Hsh0 & Hr).
  exists (seen ++ [sh]). rewrite (take_S_r _ _ _ Hsh0), imap_app, concat_app. split_and!.
  - by apply Forall2_app; [|constructor].
  - rewrite length_app. simpl. lia.
  - f_equal. simpl. by rewrite app_nil_r, Nat.add_0_r, H4.
Qed.

(** All shards copied: a snapshot of a store that was there. *)
Lemma copying_done os b out now db0 db :
  b ≤ now → copying_ok os b (Z.to_nat shardCount) out now db0 db →
  ∃ dbs, db_ok dbs ∧ out = Snapshot os dbs b ∧ view b dbs ⊆ view b db0 ∧ view now dbs = view now db.
Proof.
  intros Hb (Hok & Ht & seen & Hs & _ & ->). rewrite take_ge in Hs by by rewrite (ok_shards _ Hok).
  pose (dbs := mkDB seen (pubsub db0)). assert (evicted now db0 dbs) as Hev by by split.
  destruct (evicted_db _ _ _ Hok Hev) as [Hoks Hv]. exists dbs. split_and!; [done..|by eapply evicted_view|].
  by rewrite Hv, (proj2 (thinned_db _ _ _ Hok Ht)).
Qed.

Lemma path_inv_rewrite last s t c mu gs w i os b out a io wd a' ok :
  path_inv last s (WS t c mu gs w) →
  gs !! i = Some (Compacting (CCopying os b (Z.to_nat shardCount) out)) → s_aof c = Some a →
  Rewrite (s_world c) a (s_aofPath c) t out io = Some (wd, a', ok) →
  ∃ evs s' last', sequential s evs = Some (s', [Rewrote t out io]) ∧ write_times last evs last' ∧
    path_inv last' s' (WS t (with_log c wd (Some a')) mu (<[i := Compacting CWritten]> gs) w).
Proof.
  intros Hinv Hi Ha E. pose proof (held_mu _ _ _ _ _ _ _ _ _ Hinv Hi ltac:(done)) as ->.
  destruct (held_log _ _ _ _ _ _ _ _ _ Hinv Hi ltac:(done) (λ x, x)) as [Hw Ha'].
  destruct (go_at _ _ _ _ _ _ (pi_gors _ _ _ Hinv) i _ Hi) as (H1 & H2 & H3 & db0 & H4 & H5).
  destruct (copying_done _ _ _ _ _ _ H2 H5) as (dbs & Hok & -> & Hsub & Hv). cbn [w_now] in *.
  exists [SRewrite os dbs b t io], (with_log s wd (Some a')), t. split_and!.
  - apply sequential_one. cbn [seq_step]. rewrite <-Ha', Ha, decide_True by (split; [by rewrite <-H4|congruence]).
    pose proof (pi_path _ _ _ Hinv) as Hp. simpl in Hp. by rewrite <-Hw, <-Hp, E.
  - exists t. by split_and!.
  - destruct (Rewrite_mode _ _ _ _ _ _ _ _ _ E) as [Hm Htk]. destruct Hinv as [I0 I1 I2 I2' I3 I4 I5 Ipa I6 I7].
    split; simpl in *; try done.
    + split; [apply I1..|]. intros a1. cbn [with_log s_aof]. intros [= <-]. rewrite Hm, Htk.
      apply (sv_log _ I1). congruence.
    + by eapply gors_inside; [exact I6|exact Hi|left|..].
Qed.

(** Steps that only touch the feeds. *)
Lemma path_inv_feed last s t c mu gs w ev r out :
  path_inv last s (WS t c mu gs w) → reps_ok r → background ev → seq_step s ev = Some (with_replicas s r, out) →
  ∃ evs s' last', sequential s evs = Some (s', out) ∧ write_times last evs last' ∧
    path_inv last' s' (WS t (with_replicas c r) mu gs w).
Proof.
  intros Hinv Hr Hev E. exists [ev], (with_replicas s r), last.
  split_and!; [by apply sequential_one|by apply write_times_other|by apply path_inv_replicas].
Qed.

Lemma pstep_inv last s w l w' :
  path_inv last s w → pstep w l w' →
  ∃ evs s' last', sequential s evs = Some (s', option_list l) ∧ write_times last evs last' ∧ path_inv last' s' w'.
Proof.
  intros Hinv Hst. pose proof (sv_reps _ (pi_srv _ _ _ Hinv)) as Hreps. pose proof (pi_feeds _ _ _ Hinv) as Hf.
  pose proof (sv_db _ (pi_srv _ _ _ Hinv)) as Hdbs.
  destruct Hst as [t t' c mu gs w Ht|t c mu gs inp Hn|t c mu gs w db w' Hw|t c mu gs w i req Hi
    |t c mu gs w i req Hi|t c gs w i req Hi|t c mu gs w i held req d ord db r Hi E|t c mu gs w i req v e Hi
    |t c mu gs w i req v o r Hi E|t c mu gs w i v Hi|t c mu gs w i v Hi|t c mu gs w ok|t c mu gs w addr r p E
    |t c mu gs w wok p c' frame more E|t c mu gs w o o' c' warned E|t c mu gs w i a st Hi Ha Hsr|t c gs w i Hi
    |t c mu gs w i os Hi|t c mu gs w i os b n out sh Hi Hsh|t c mu gs w i os b out a io wd a' ok Hi Ha E
    |t c mu gs w i Hi|t c mu gs w p r E|t c mu gs w p]; simpl in Hf.
  - exists [], s, last. split_and!; [done..|]. destruct Hinv as [H0 H1 H2 H2' H3 H4 H5 Hpa H6 H7]. split; simpl in *; try done; [lia|..].
    + destruct w; simpl in *; [done|lia].
    + eapply gors_at_impl; [exact H6|done|]. intros g. by apply gor_ok_later.
    + intros Hmu. eapply view_later; eauto.
  - exists [], s, last. split_and!; [done..|]. destruct Hinv. split; simpl in *; try done. lia.
  - exists [], s, last. split_and!; [done..|].
    destruct (worker_evicts t w (s_db c) db w' (pi_db _ _ _ Hinv) (pi_worker _ _ _ Hinv) Hw) as [H1 H2].
    eapply path_inv_db; [done|by eapply evicted_db, H1; apply Hinv|apply H1|done].
  - exists [], s, last. split_and!; [done..|]. eapply path_inv_move; [exact Hinv|exact Hi|by intros []|by intros []|done].
  - exists [], s, last. split_and!; [done..|]. destruct (checked_ok last t c s req (pi_on' _ _ _ Hinv)).
    eapply path_inv_move; [exact Hinv|exact Hi|by intros []|done|done].
  - exists [], s, last. split_and!; [done..|]. pose proof (go_at _ _ _ _ _ _ (pi_gors _ _ _ Hinv) i _ Hi) as Hw.
    eapply path_inv_lock; [done|exact Hi|]. split; [done|]. by apply dispatch_start_ok, (pi_free _ _ _ Hinv).
  - by eapply dispatch_inv.
  - exists [], s, last. split_and!; [done..|]. pose proof (held_log _ _ _ _ _ _ _ _ _ Hinv Hi I (λ x, x)) as Hl.
    pose proof (held_mu _ _ _ _ _ _ _ _ _ Hinv Hi I) as ->.
    destruct Hinv as [H0 H1 H2 H2' H3 H4 H5 Hpa H6 H7]. simpl in *.
    destruct (append_log_frame e c req) as (A1 & A2 & _).
    split; simpl; rewrite ?A1, ?A2, ?append_log_path; try done; [by apply append_log_some|].
    pose proof (go_at _ _ _ _ _ _ H6 i _ Hi) as [Hrec Hran].
    eapply gors_inside; [exact H6|exact Hi|by left|done| |by intros []]. simpl. rewrite A1.
    split_and!; [done..|]. exists e, []. by apply append_log_same.
  - pose proof (held_mu _ _ _ _ _ _ _ _ _ Hinv Hi I) as ->. 
    destruct (path_inv_commit _ _ _ _ _ _ _ _ _ _ _ Hinv Hi E) as (evs & s' & ?). by exists evs, s', t.
  - exists [], s, last. split_and!; [done..|]. pose proof (go_at _ _ _ _ _ _ (pi_gors _ _ _ Hinv) i _ Hi) as Hv.
    eapply path_inv_release; [exact Hinv|exact Hi|done|by intros []|by intros []|exact Hv|done].
  - exists [], s, last. split_and!; [done..|]. eapply path_inv_move; [exact Hinv|exact Hi|by intros []|by intros []|done].
  - by apply path_inv_sync.
  - pose proof (Add_ok (s_replicas s) addr t Hreps) as Ha. rewrite Hf in E. rewrite E in Ha. destruct Ha as (Hr & _).
    eapply (path_inv_feed _ _ _ _ _ _ _ (SJoin addr t)); [done..|]. cbn [seq_step]. by rewrite E.
  - unfold deliverReplica_step in E. rewrite Hf in E.
    pose proof (Feed_receive_spec (s_replicas s) p Hreps) as Hr.
    destruct (Feed_receive (s_replicas s) p) as [[f r]|] eqn:Er; simplify_eq. destruct Hr as (Hr & _).
    eapply (path_inv_feed _ _ _ _ _ _ _ (SShip more p)); [done..|]. cbn [seq_step]. unfold deliverReplica_step. by rewrite Er.
  - unfold runReplicaHeartbeat_tick, Heartbeat in E. rewrite Hf in E.
    destruct (Propagate_keeps o (s_replicas s) pingCommand Hreps) as (r & Ep & Hr & _). rewrite Ep in E. simplify_eq.
    eapply (path_inv_feed _ _ _ _ _ _ _ (SBeat o o' t)); [done..|]. cbn [seq_step].
    unfold runReplicaHeartbeat_tick, Heartbeat. by rewrite Ep.
  - exists [], s, last. split_and!; [done..|].
    eapply path_inv_move; [exact Hinv|exact Hi|by intros []|by intros Hn; apply Hn|done].
  - exists [], s, last. split_and!; [done..|]. eapply path_inv_lock; [done|exact Hi|].
    by apply (pi_free _ _ _ Hinv).
  - exists [], s, last. split_and!; [done..|]. pose proof (go_at _ _ _ _ _ _ (pi_gors _ _ _ Hinv) i _ Hi) as Hv.
    eapply path_inv_hold; [exact Hinv|exact Hi|done|by intros []|done|].
    split_and!; [by apply (pi_last _ _ _ Hinv)|done|done|]. exists (s_db c). split; [done|].
    split_and!; [apply (pi_db _ _ _ Hinv)|apply thinned_refl|by exists []].
  - exists [], s, last. split_and!; [done..|].
    destruct (go_at _ _ _ _ _ _ (pi_gors _ _ _ Hinv) i _ Hi) as (H1 & H2 & H3 & db0 & H4 & H5).
    eapply path_inv_hold; [exact Hinv|exact Hi|done|by intros []|done|].
    split_and!; [done..|]. exists db0. split; [done|]. by apply copying_shard.
  - by eapply path_inv_rewrite.
  - exists [], s, last. split_and!; [done..|].
    pose proof (go_at _ _ _ _ _ _ (pi_gors _ _ _ Hinv) i _ Hi) as Hv.
    eapply path_inv_release; [exact Hinv|exact Hi|done|by intros []|by intros []|exact Hv|done].
  - rewrite Hf in E. pose proof (Remove_reps _ _ _ Hreps E) as Hr.
    eapply (path_inv_feed _ _ _ _ _ _ _ (SLeave p)); [done..|]. cbn [seq_step]. by rewrite E.
  - rewrite Hf. destruct (Acked_ok (s_replicas s) p t Hreps) as [Hr _].
    by eapply (path_inv_feed _ _ _ _ _ _ _ (SAck p t)).
Qed.

Lemma path_inv_init t s n : srv_ok s → is_Some (s_aof s) → path_inv t s (path_init t s n).
Proof.
  intros Hs Ha.
  assert (∀ i g, replicate n Away !! i = Some g → g = Away) as Hr by (intros i g Hg; by apply lookup_replicate in Hg as [-> _]).
  split; simpl; try done; [apply Hs|]. split; [by intros i g ->%Hr|by intros i g ? ? ->%Hr|by intros i g ->%Hr|done].
Qed.

Lemma path_reachable t s0 n tr w :
  srv_ok s0 → is_Some (s_aof s0) → runs pstep (path_init t s0 n) tr w →
  ∃ evs s last, sequential s0 evs = Some (s, tr) ∧ write_times t evs last ∧ path_inv last s w.
Proof.
  intros Hs Ha.
  apply (runs_trace_invariant pstep (λ tr w, ∃ evs s last, sequential s0 evs = Some (s, tr) ∧ write_times t evs last ∧ path_inv last s w)).
  - intros tr0 w0 l w1 (evs & s & last & E & Hts & Hinv) Hst.
    destruct (pstep_inv _ _ _ _ _ Hinv Hst) as (evs' & s' & last' & E' & Hts' & Hinv').
    exists (evs ++ evs'), s', last'. split_and!; [by eapply sequential_app|by eapply write_times_app|done].
  - exists [], s0, t. split_and!; [done..|]. by apply path_inv_init.
Qed.

Lemma free_log last s w : path_inv last s w → w_mu w = false → same_log (w_srv w) s.
Proof.
  intros Hinv Hmu. pose proof (pi_gors _ _ _ Hinv) as Hgs. apply (go_log _ _ _ _ _ _ Hgs).
  intros i g Hi Hp. assert (inside g) as Hin by by destruct g.
  pose proof (go_held _ _ _ _ _ _ Hgs i g Hi Hin). congruence.
Qed.
End write_path_facts.

(** * Properties *)

(** C5: the write lock makes the write path atomic.  Goroutines that serve
    any requests run through [applyRecord], and others through [rewriteAOF],
    at the grain of their lock operations and, for a rewrite, of the shards
    it copies, interleaved in any order with each other, the expiry worker,
    fsync ticks, replicas that join, acknowledge and leave, deliveries,
    heartbeats and time, and any append, fsync or rewrite may fail.  With a
    log, every such run is a run of the server that serves the same writes
    with the same replies and rewrites the log to the same records one after
    the other, in the order they commit and reading the clock in that order,
    and ships the same frames.  The records of a rewrite are the snapshot of
    a store that holds every key live when it is written and none that was
    not live when the copying began.  The feeds of the replicas are the same at every
    moment, and whenever the lock is free the live keyspace and the log are
    the same too. *)
Theorem write_path_serializable `{GoUnicode} t0 s0 n tr w :
  srv_ok s0 → is_Some (s_aof s0) → runs pstep (path_init t0 s0 n) tr w →
  ∃ evs s1, sequential s0 evs = Some (s1, tr) ∧ write_times t0 evs (w_now w) ∧ srv_ok s1 ∧
    s_replicas (w_srv w) = s_replicas s1 ∧
    (w_mu w = false →
      view (w_now w) (s_db (w_srv w)) = view (w_now w) (s_db s1) ∧
      s_world (w_srv w) = s_world s1 ∧ s_aof (w_srv w) = s_aof s1).
Proof.
  intros Hs Ha Hr. destruct (path_reachable _ _ _ _ _ Hs Ha Hr) as (evs & s1 & last & E & Hts & Hinv).
  exists evs, s1. pose proof (free_log _ _ _ Hinv). destruct Hinv. split_and!; try done.
  - by eapply write_times_until.
  - intros Hmu. split; [by apply pi_free0|]. by destruct (H0 Hmu).
Qed.

Lemma write_path_serializable_witness :
  ∃ w, w_mu w = false ∧ w_now w = 5 ∧
  ∃ evs s1, @sequential plain_unicode everysec_server evs = Some (s1, contention_trace) ∧
    @write_times plain_unicode 0 evs 5 ∧ view 5 (s_db (w_srv w)) = view 5 (s_db s1) ∧
    s_world (w_srv w) = s_world s1.
Proof.
  assert ((λ x : list wlabel * wserver, (x.1, w_mu x.2, w_now x.2)) <$>
    drive (@perform_move plain_unicode) contention (path_init 0 everysec_server 3)
    = Some (contention_trace, false, 5)) as E by (vm_compute; reflexivity).
  destruct (drive _ contention _) as [[tr w]|] eqn:Er; [|discriminate E].
  injection E as -> Hmu Ht. apply moves_run in Er. exists w. split; [exact Hmu|]. split; [exact Ht|].
  destruct (@write_path_serializable plain_unicode 0 everysec_server 3 contention_trace w)
    as (evs & s1 & H1 & H2 & _ & _ & H3).
  - split; [apply newDB_ok|apply reps_ok_new|intros a Ha; injection Ha as <-; reflexivity].
  - eexists. reflexivity.
  - exact Er.
  - destruct (H3 Hmu) as (H4 & H5 & _). exists evs, s1. rewrite Ht in H2, H4.
    split; [exact H1|]. split; [exact H2|]. split; [exact H4|exact H5].
Defined.

(** C39: the test in front of the lock can miss a replica.  A server without
    a log has no replica when a goroutine that serves SET k old passes the
    test; a replica connects while the store is still empty; another
    goroutine then serves SET k new through the lock, and the first one
    writes last, without the lock.  Both clients are told OK, the store
    holds old, and the stream of the replica, registered before either
    write took effect, holds SET k new and nothing else. *)
Theorem fast_path_misses_replica :
  let new := request [B "SET"; B "k"; B "new"] in
  ∃ w1 w2, runs (@pstep plain_unicode) (path_init 0 (NewMulti empty_fs [] FsyncEverySec []) 2) [] w1 ∧
    Any (s_replicas (w_srv w1)) = true ∧ view 0 (s_db (w_srv w1)) = ∅ ∧
    runs (@pstep plain_unicode) w1 [Committed new okValue] w2 ∧
    w_gors w2 = [Replying okValue; Away] ∧
    view 0 (s_db (w_srv w2)) !! B "k" = Some (mkA (AStr (B "old")) None) ∧
    r_ch <$> (map snd (map_to_list (rheap (s_replicas (w_srv w2))))) = [[encode new]].
Proof.
  intros new.
  set (go_on := λ ms w, default w (snd <$> drive (@perform_move plain_unicode) ms w)).
  set (w1 := go_on overtaken (path_init 0 (NewMulti empty_fs [] FsyncEverySec []) 2)).
  exists w1, (go_on overtaking w1).
  split_and!.
  1: apply (moves_run overtaken).
  4: apply (moves_run overtaking).
  all: vm_compute; reflexivity.
Qed.
