(* ===== verification/Progress.v ===== *)
(** The write path never gets stuck: mutual exclusion of [writeMu] on any
    server, with or without a log, and the steps a request still has to
    take. *)

From S2P Require Import Prelude Lts GoLib Protocol ProtocolFacts PubSub Store Db Spec Refine Expiry.
From S2P Require Import History Concurrent Cmd CmdFacts CmdSpec Replay Aof AofFacts Snapshot Compaction.
From S2P Require Import Replication Server ServerFacts Feed WritePath WritePathFacts.

Section progress.
Context `{GoUnicode}.

(** * Steps still to take *)

Definition dispatch_work (d : dispatching) : nat :=
  match d with Ops _ th => S (work th) | Other => 1 end.

Definition compact_work (c : compacting) : nat :=
  match c with
  | CLocking => 5 + Z.to_nat shardCount
  | CHolding => 4 + Z.to_nat shardCount
  | CCopying _ _ next _ => 3 + (Z.to_nat shardCount - next)
  | CWritten => 1
  end.

Definition gor_work (g : gor) : nat :=
  match g with
  | Away => 0
  | Checking req => 7 + dispatch_work (dispatch_start req)
  | Fast _ d => 1 + dispatch_work d
  | Locking req => 6 + dispatch_work (dispatch_start req)
  | Holding _ d => 4 + dispatch_work d
  | Appending _ _ => 4
  | Propagating _ _ => 3
  | Unlocking _ => 2
  | Replying _ => 1
  | Compacting c => compact_work c
  end.

Definition total_work (gs : list gor) : nat := sum_list_with gor_work gs.

Lemma total_work_insert gs i g g' :
  gs !! i = Some g → (total_work (<[i := g']> gs) + gor_work g = total_work gs + gor_work g')%nat.
Proof.
  unfold total_work. revert i. induction gs as [|h gs IH]; intros [|i] Hi; simplify_eq/=; [lia|].
  specialize (IH i Hi). lia.
Qed.

(** * Invariant *)

Definition dispatch_live (d : dispatching) : Prop :=
  match d with Ops _ th => th ≠ Idle ∧ ∃ ath, trel th ath | Other => True end.

(** A rewrite has a log to rewrite, and records it can write. *)
Definition gor_live (s : Server) (g : gor) : Prop :=
  match g with
  | Fast _ d | Holding _ d => dispatch_live d
  | Compacting c =>
      is_Some (s_aof s) ∧
      match c with
      | CCopying _ _ next out => (next ≤ Z.to_nat shardCount)%nat ∧ Forall (λ r, recordValue r ≠ None) out
      | _ => True
      end
  | _ => True
  end.

Record lock_inv (w : wserver) : Prop := {
  lk_db : db_ok (s_db (w_srv w));
  lk_reps : reps_ok (s_replicas (w_srv w));
  lk_worker : worker_ok (w_now w) (w_reaper w);
  lk_live : ∀ i g, w_gors w !! i = Some g → gor_live (w_srv w) g;
  lk_one : ∀ i g j g', w_gors w !! i = Some g → inside g → w_gors w !! j = Some g' → inside g' → j = i;
  lk_held : w_mu w = true ↔ ∃ i g, w_gors w !! i = Some g ∧ inside g
}.

Lemma dispatch_start_live req : dispatch_live (dispatch_start req).
Proof.
  unfold dispatch_start. destruct (request_meaning req) as [[x rd]|] eqn:E; [|done].
  destruct (Dispatch_meaning order_id 0 newDB req x rd newDB_ok E) as [Hx _].
  split; [done|]. exists (AStart x). by constructor.
Qed.

(** [Dispatch] always has a next step, and comes closer to its reply. *)
Lemma dispatch_next_progress ord now req d db :
  db_ok db → dispatch_live d →
  ∃ db' r, dispatch_next ord now req d db = Some (db', r) ∧ db_ok db' ∧
    match r with inl d' => dispatch_live d' ∧ (dispatch_work d' < dispatch_work d)%nat | inr _ => True end.
Proof.
  intros Hok Hl. destruct d as [rd th|].
  2:{ simpl. destruct (Dispatch_sound (λ _, now) ord db req Hok) as (Hok' & v & Hv & _).
      destruct (Dispatch _ _ _ _) as [db' [v'|]]; simplify_eq/=. by eexists _, _. }
  destruct Hl as [Hi [ath Ht]].
  assert ((∃ r, th = Done r) ∨ ∀ r, th ≠ Done r) as [[r ->]|Hd] by (destruct th; naive_solver).
  { by eexists _, _. }
  destruct (section_progress ord now th db Hi Hd) as (db' & th' & E & Hi' & Hw).
  destruct (section_sim _ _ _ _ _ _ _ Hok Ht E) as [Hok' Hm].
  exists db', (inl (Ops rd th')). split_and!; [|done| |simpl; lia].
  - assert (dispatch_next ord now req (Ops rd th) db
      = match section ord now th db with Some (db', th') => Some (db', inl (Ops rd th')) | None => None end) as ->
      by (destruct th; try done; by destruct (Hd r)). by rewrite E.
  - split; [done|]. destruct Hm as [[_ ?]|(? & ath' & _ & _ & ?)]; eauto.
Qed.

Lemma dispatch_next_ok ord now req d db db' r :
  db_ok db → dispatch_live d → dispatch_next ord now req d db = Some (db', r) →
  db_ok db' ∧ match r with inl d' => dispatch_live d' | inr _ => True end.
Proof.
  intros Hok Hl E. destruct (dispatch_next_progress ord now req d db Hok Hl) as (db1 & r1 & E1 & Hok1 & Hr).
  rewrite E in E1. simplify_eq. split; [done|]. by destruct r1 as [d'|v]; [destruct Hr|].
Qed.

(** ** Moves of one goroutine *)

(** It keeps the lock or stays outside, or takes it when it is free, or
    releases it. *)
Definition lock_move (mu : bool) (g g' : gor) (mu' : bool) : Prop :=
  (mu' = mu ∧ (inside g' ↔ inside g)) ∨ (mu = false ∧ mu' = true ∧ ¬ inside g ∧ inside g') ∨
  (mu' = false ∧ inside g ∧ ¬ inside g').

Lemma gor_live_srv c c' g : (is_Some (s_aof c) → is_Some (s_aof c')) → gor_live c g → gor_live c' g.
Proof. destruct g; simpl; try done. intros Hc [H1 H2]. split; [by apply Hc|done]. Qed.

Lemma lock_inv_move t c mu gs w i g g' mu' c' :
  lock_inv (WS t c mu gs w) → gs !! i = Some g → gor_live c' g' → lock_move mu g g' mu' →
  db_ok (s_db c') → reps_ok (s_replicas c') → (is_Some (s_aof c) → is_Some (s_aof c')) →
  lock_inv (WS t c' mu' (<[i := g']> gs) w).
Proof.
  intros [H1 H2 H3 H4 H5 H6] Hi Hl Hm Hdb Hreps Hon. simpl in *.
  assert (<[i := g']> gs !! i = Some g') as Hi' by (apply list_lookup_insert_eq; by eapply lookup_lt_Some).
  split; simpl; [done..| | |].
  - intros j gj [[-> ->]|[_ Hj]]%gor_at_insert; [done|by eapply gor_live_srv, H4].
  - assert (inside g' → ∀ j gj, j ≠ i → gs !! j = Some gj → ¬ inside gj) as Ho.
    { intros Hin j gj Hne Hj Hinj. destruct Hm as [[_ Hm]|[(-> & _ & _ & _)|(_ & _ & Hm)]]; [..|done].
      - by apply Hne, (H5 i g j gj Hi (proj1 Hm Hin)).
      - assert (false = true) by (apply H6; eauto). done. }
    intros j gj k gk [[-> ->]|[Hne Hj]]%gor_at_insert Hin [[-> ->]|[Hne' Hk]]%gor_at_insert Hin'; try done.
    + by destruct (Ho Hin k gk).
    + by destruct (Ho Hin' j gj).
    + by eapply H5.
  - destruct Hm as [[-> Hm]|[(-> & -> & Hm & Hm')|(-> & Hm & Hm')]].
    + rewrite H6. split; intros (j & gj & Hj & Hin).
      * destruct (decide (j = i)) as [->|Hne]; [|exists j, gj; by rewrite list_lookup_insert_ne].
        exists i, g'. split; [done|]. apply Hm. congruence.
      * apply gor_at_insert in Hj as [[-> ->]|[_ Hj]]; [|by exists j, gj]. exists i, g. split; [done|by apply Hm].
    + split; [|done]. intros _. by exists i, g'.
    + split; [done|]. intros (j & gj & [[-> ->]|[Hne Hj]]%gor_at_insert & Hin); [done|].
      by destruct Hne; apply (H5 i g j gj).
Qed.

Lemma lock_inv_srv t c mu gs w c' :
  lock_inv (WS t c mu gs w) → db_ok (s_db c') → reps_ok (s_replicas c') →
  (is_Some (s_aof c) → is_Some (s_aof c')) → lock_inv (WS t c' mu gs w).
Proof. intros [H1 H2 H3 H4 H5 H6] ? ? Hon. split; try done. intros i g Hi. by eapply gor_live_srv, H4. Qed.

Lemma checked_live c req : gor_live c (checked c req) ∧ ¬ inside (checked c req).
Proof. unfold checked. destruct (_ || _); simpl; (split; [|by intros []]); [apply dispatch_start_live|done]. Qed.

Lemma landed_inside held req r : inside (landed held req r) ↔ held = true.
Proof. destruct r as [d|v], held; simpl; try case_match; naive_solver. Qed.

Lemma landed_live s held req r :
  match r with inl d' => dispatch_live d' | inr _ => True end → gor_live s (landed held req r).
Proof. intros Hr. destruct r as [d|v], held; simpl; try case_match; naive_solver. Qed.

Lemma snapshotShard_records os b i sh : Forall (λ r, recordValue r ≠ None) (snapshotShard os b i sh).
Proof.
  apply Forall_forall. intros r Hr. apply elem_of_snapshotShard in Hr as (k & e & _ & _ & ->).
  apply recordValue_entry.
Qed.

Lemma pstep_lock_inv w l w' : lock_inv w → pstep w l w' → lock_inv w'.
Proof.
  intros Hinv Hst. pose proof (lk_db _ Hinv) as Hdb. pose proof (lk_reps _ Hinv) as Hreps.
  pose proof (lk_live _ Hinv) as Hlive.
  destruct Hst as [t t' c mu gs w Ht|t c mu gs inp Hn|t c mu gs w db w' Hw|t c mu gs w i req Hi
    |t c mu gs w i req Hi|t c gs w i req Hi|t c mu gs w i held req d ord db r Hi E|t c mu gs w i req v e Hi
    |t c mu gs w i req v o r Hi E|t c mu gs w i v Hi|t c mu gs w i v Hi|t c mu gs w ok|t c mu gs w addr r p E
    |t c mu gs w wok p c' frame more E|t c mu gs w o o' c' warned E|t c mu gs w i a st Hi Ha Hsr|t c gs w i Hi
    |t c mu gs w i os Hi|t c mu gs w i os b n out sh Hi Hsh|t c mu gs w i os b out a io wd a' ok Hi Ha E
    |t c mu gs w i Hi|t c mu gs w p r E|t c mu gs w p]; simpl in Hdb, Hreps, Hlive.
  - destruct Hinv. split; simpl in *; try done. destruct w; simpl in *; [done|lia].
  - destruct Hinv. split; simpl in *; try done. lia.
  - destruct (worker_sim t w (s_db c) db w' Hdb (lk_worker _ Hinv) Hw) as (H1 & _ & H3). destruct Hinv. by split.
  - eapply lock_inv_move; [done|done|done|by left|done..].
  - destruct (checked_live c req) as [H1 H2]. eapply lock_inv_move; [done|done|done| |done..]. left. split; [done|].
    split; [done|by intros []].
  - eapply lock_inv_move; [done|done|apply dispatch_start_live| |done..]. right; left. split_and!; [done..|by intros []|done].
  - assert (dispatch_live d) as Hd by (specialize (Hlive i _ Hi); by destruct held).
    destruct (dispatch_next_ok _ _ _ _ _ _ _ Hdb Hd E) as [Hok Hr]. pose proof (landed_live (with_db c db) held req r Hr).
    eapply lock_inv_move; [done|done|done| |done..]. left. split; [done|]. rewrite landed_inside. by destruct held.
  - destruct (append_log_frame e c req) as (A1 & A2 & _).
    eapply lock_inv_move; [done|done|done|by left|by rewrite A1|by rewrite A2|apply append_log_some].
  - destruct (Propagate_keeps o (s_replicas c) req Hreps) as (r' & E' & Hr & _). rewrite E in E'. simplify_eq.
    eapply lock_inv_move; [done|done|done|by left|done..].
  - eapply lock_inv_move; [done|done|done|right; right|done..]. split_and!; [done..|by intros []].
  - eapply lock_inv_move; [done|done|done|by left|done..].
  - destruct (sync_log_frame c ok) as (E1 & E2 & E3 & _).
    eapply lock_inv_srv; [done|by rewrite E1|by rewrite E2|by rewrite E3].
  - pose proof (Add_ok (s_replicas c) addr t Hreps) as Ha. rewrite E in Ha. by eapply lock_inv_srv; [..|apply Ha|].
  - unfold deliverReplica_step in E. pose proof (Feed_receive_spec (s_replicas c) p Hreps) as Hr.
    destruct (Feed_receive (s_replicas c) p) as [[f r]|]; simplify_eq. by eapply lock_inv_srv; [..|apply Hr|].
  - unfold runReplicaHeartbeat_tick, Heartbeat in E.
    destruct (Propagate_keeps o (s_replicas c) pingCommand Hreps) as (r & Ep & Hr & _). rewrite Ep in E. simplify_eq.
    by eapply lock_inv_srv.
  - eapply lock_inv_move; [done|done|by split; [exists a|]|left|done..]. split; [done|]. split; [by intros Hn|by intros []].
  - specialize (Hlive i _ Hi). eapply lock_inv_move; [done|done|done|right; left|done..].
    split_and!; [done..|by intros Hn; apply Hn|done].
  - destruct (Hlive i _ Hi) as [Ha _]. eapply lock_inv_move; [done|done| |by left|done..].
    split_and!; [done|lia|constructor].
  - destruct (Hlive i _ Hi) as (Ha & Hn & Hout). eapply lock_inv_move; [done|done| |by left|done..].
    apply lookup_lt_Some in Hsh as Hlt. rewrite (ok_shards _ Hdb) in Hlt. split_and!; [done|lia|].
    apply Forall_app_2; [done|by eapply snapshotShard_records].
  - destruct (Hlive i _ Hi) as [_ _]. eapply lock_inv_move; [done|done|by split|by left|done..].
  - eapply lock_inv_move; [done|done|done|right; right|done..]. split_and!; [done..|by intros []].
  - by eapply lock_inv_srv; [..|eapply Remove_reps|].
  - by eapply lock_inv_srv; [..|apply Acked_ok|].
Qed.

Lemma lock_inv_init t s n : srv_ok s → lock_inv (path_init t s n).
Proof.
  intros Hs.
  assert (∀ i g, replicate n Away !! i = Some g → g = Away) as Hr by (intros i g Hg; by apply lookup_replicate in Hg as [-> _]).
  split; simpl; [apply Hs|apply Hs|done|by intros i g ->%Hr|by intros i g ? ? ->%Hr|].
  split; [done|]. by intros (i & g & ->%Hr & []).
Qed.

Lemma lock_inv_reachable t s n tr w : srv_ok s → runs pstep (path_init t s n) tr w → lock_inv w.
Proof. intros Hs. apply (runs_invariant pstep lock_inv); [apply pstep_lock_inv|by apply lock_inv_init]. Qed.

(** * Progress *)

(** Only [Lock] can block a goroutine. *)
Definition at_lock (g : gor) : Prop :=
  match g with Locking _ | Compacting CLocking => True | _ => False end.

Definition blocked (w : wserver) (g : gor) : Prop := at_lock g ∧ w_mu w = true.

#[export] Instance at_lock_dec g : Decision (at_lock g).
Proof. destruct g as [| | | | | | | | |[]]; simpl; apply _. Defined.

Lemma at_lock_outside g : at_lock g → ¬ inside g ∧ g ≠ Away.
Proof. destruct g as [| | | | | | | | |[]]; simpl; naive_solver. Qed.

Lemma go_progress w i g :
  lock_inv w → w_gors w !! i = Some g → g ≠ Away → ¬ blocked w g →
  ∃ l w' g', go i w = Some (l, w') ∧ w_gors w' = <[i := g']> (w_gors w) ∧ (gor_work g' < gor_work g)%nat.
Proof.
  intros Hinv Hi Ha Hb. pose proof (lk_live _ Hinv i g Hi) as Hl. pose proof (lk_db _ Hinv) as Hdb.
  destruct w as [t s mu gs r]. unfold go, blocked in *. simpl in *. rewrite Hi.
  destruct g as [|req|req d|req|req d|req v|req v|v|v|[| |os b n out|]]; [done|..]; simpl in *.
  - eexists _, _, _. split_and!; [done..|]. unfold checked. destruct (_ || _); simpl; lia.
  - destruct (dispatch_next_progress order_id t req d (s_db s) Hdb Hl) as (db & x & -> & _ & Hx).
    eexists _, _, _. split_and!; [done..|]. destruct x as [d'|v]; simpl; [destruct Hx; lia|]. destruct d; simpl; lia.
  - destruct mu; [by destruct Hb|]. eexists _, _, _. split_and!; [done..|]. simpl. lia.
  - destruct (dispatch_next_progress order_id t req d (s_db s) Hdb Hl) as (db & x & -> & _ & Hx).
    eexists _, _, _. split_and!; [done..|]. destruct x as [d'|v]; simpl; [destruct Hx; lia|].
    destruct d; case_match; simpl; lia.
  - eexists _, _, _. split_and!; [done..|]. simpl. lia.
  - destruct (Propagate_keeps order_id (s_replicas s) req (lk_reps _ Hinv)) as (reps & -> & _).
    eexists _, _, _. split_and!; [done..|]. simpl. lia.
  - eexists _, _, _. split_and!; [done..|]. simpl. lia.
  - eexists _, _, _. split_and!; [done..|]. simpl. lia.
  - destruct mu; [by destruct Hb|]. eexists _, _, _. split_and!; [done..|]. cbn [gor_work compact_work]. lia.
  - eexists _, _, _. split_and!; [done..|]. cbn [gor_work compact_work]. lia.
  - destruct Hl as ([a Hon] & Hn & Hout). case_decide as Hd.
    + rewrite Hon. destruct (Rewrite_records (s_world s) a (s_aofPath s) t out io_ok Hout) as [[[wd a'] ok] ->].
      eexists _, _, _. split_and!; [done..|]. cbn [gor_work compact_work]. lia.
    + destruct (lookup_lt_is_Some_2 (shards (s_db s)) n) as [sh ->]; [rewrite (ok_shards _ Hdb); lia|].
      eexists _, _, _. split_and!; [done..|]. cbn [gor_work compact_work]. lia.
  - eexists _, _, _. split_and!; [done..|]. cbn [gor_work compact_work]. lia.
Qed.

(** The goroutine that holds the lock is not blocked. *)
Lemma holder_runs w :
  lock_inv w → w_mu w = true → ∃ j h, w_gors w !! j = Some h ∧ inside h ∧ h ≠ Away ∧ ¬ blocked w h.
Proof.
  intros Hinv Hmu. apply (lk_held _ Hinv) in Hmu as (j & h & Hj & Hin).
  exists j, h. split_and!; [done..|by intros ->|]. intros [Hl _]. by apply at_lock_outside in Hl as [? _].
Qed.

Lemma runnable w :
  lock_inv w → (∀ i g, w_gors w !! i = Some g → g = Away) ∨
  ∃ i g, w_gors w !! i = Some g ∧ g ≠ Away ∧ ¬ blocked w g.
Proof.
  intros Hinv. destruct (w_mu w) eqn:Hmu.
  { right. destruct (holder_runs w Hinv Hmu) as (j & h & Hj & _ & Ha & Hb). by exists j, h. }
  destruct (decide (Exists (λ g, gor_work g ≠ 0%nat) (w_gors w))) as [He|He].
  - right. apply Exists_exists in He as (g & [i Hi]%list_elem_of_lookup & Hg).
    exists i, g. split_and!; [done|by intros ->|]. intros [_ ?]. congruence.
  - left. intros i g Hi. destruct g as [| | | | | | | | |[]]; try done; exfalso; apply He, Exists_exists; eexists;
      (split; [by eapply list_elem_of_lookup_2|done]).
Qed.

Lemma drains w :
  lock_inv w →
  ∃ is_ tr w', (length is_ ≤ total_work (w_gors w))%nat ∧
    drive perform_move (map MGo is_) w = Some (tr, w') ∧
    (∀ i g, w_gors w' !! i = Some g → g = Away) ∧ w_mu w' = false.
Proof.
  remember (total_work (w_gors w)) as k eqn:Hk. revert w Hk. induction (lt_wf k) as [k _ IH].
  intros w -> Hinv. destruct (runnable w Hinv) as [Haway|(i & g & Hi & Ha & Hb)].
  - exists [], [], w. split_and!; [simpl; lia|done..|]. destruct (w_mu w) eqn:Hmu; [|done].
    apply (lk_held _ Hinv) in Hmu as (j & h & Hj & Hin). by rewrite (Haway j h Hj) in Hin.
  - destruct (go_progress w i g Hinv Hi Ha Hb) as (l & w1 & g' & E & Hg & Hlt).
    pose proof (total_work_insert _ _ _ g' Hi) as Ht. rewrite <-Hg in Ht.
    destruct (IH (total_work (w_gors w1)) ltac:(lia) w1 eq_refl) as (is_ & tr & w' & Hlen & Ed & Hend).
    { by eapply pstep_lock_inv, go_step. }
    exists (i :: is_), (option_list l ++ tr), w'. split_and!; [simpl; lia| |apply Hend..].
    cbn [map drive]. destruct w as [t s mu gs r]. cbn [perform_move]. rewrite E. simpl. by rewrite Ed.
Qed.
End progress.

(** * Properties *)

(** C14: the write path never gets stuck.  On any server, with or without a
    log or replicas, in every state that goroutines serving any requests and
    rewriting the log can reach, in any interleaving with the background
    work: at most one of them is between taking and releasing the write lock;
    each that serves a request or rewrites can take its next step, unless it
    waits for the lock while another one holds it, which can take its own;
    and if no further request comes, a number of steps bounded by what the
    requests and rewrites in progress still have to do answers all of them,
    ends all of these and leaves the lock free. *)
Theorem write_path_never_stuck `{GoUnicode} t s n tr w :
  srv_ok s → runs pstep (path_init t s n) tr w →
  (∀ i g j h, w_gors w !! i = Some g → inside g → w_gors w !! j = Some h → inside h → j = i) ∧
  (∀ i g, w_gors w !! i = Some g → g ≠ Away →
     is_Some (go i w) ∨
     at_lock g ∧ ∃ j h, w_gors w !! j = Some h ∧ inside h ∧ is_Some (go j w)) ∧
  ∃ js tr' w', (length js ≤ total_work (w_gors w))%nat ∧
    drive perform_move (map MGo js) w = Some (tr', w') ∧
    (∀ i g, w_gors w' !! i = Some g → g = Away) ∧ w_mu w' = false.
Proof.
  intros Hs Hr. pose proof (lock_inv_reachable _ _ _ _ _ Hs Hr) as Hinv. split_and!; [apply Hinv| |by apply drains].
  intros i g Hi Ha.
  assert (∀ j h, w_gors w !! j = Some h → h ≠ Away → ¬ blocked w h → is_Some (go j w)) as Hgo.
  { intros j h Hj Hah Hb. by destruct (go_progress w j h Hinv Hj Hah Hb) as (l & w' & g' & -> & _). }
  destruct (decide (w_mu w = true)) as [Hmu|Hmu].
  2:{ left. apply (Hgo i g); [done..|]. by intros [_ ?]. }
  destruct (holder_runs w Hinv Hmu) as (j & h & Hj & Hin & Hh & Hb).
  destruct (decide (at_lock g)) as [Hl|Hl].
  - right. split; [done|]. exists j, h. eauto.
  - left. apply (Hgo i g); [done..|]. by intros [? _].
Qed.

(** In the middle of the contention of [WritePath]. *)
Lemma write_path_never_stuck_witness :
  ∃ w js tr' w', w_mu w = true ∧ total_work (H := plain_unicode) (w_gors w) = 13%nat ∧
    drive (@perform_move plain_unicode) (map MGo js) w = Some (tr', w') ∧ w_mu w' = false.
Proof.
  assert ((λ x : list wlabel * wserver, (w_mu x.2, total_work (H := plain_unicode) (w_gors x.2))) <$>
    drive (@perform_move plain_unicode) (take 25 contention) (path_init 0 everysec_server 3)
    = Some (true, 13%nat)) as E by (vm_compute; reflexivity).
  destruct (drive _ (take 25 contention) _) as [[tr w]|] eqn:Er; [|discriminate E].
  injection E as Hmu Ht. apply moves_run in Er.
  destruct (@write_path_never_stuck plain_unicode 0 everysec_server 3 tr w) as (_ & _ & js & tr' & w' & _ & Hd & _ & Hm).
  - split; [apply newDB_ok|apply reps_ok_new|intros a Ha; injection Ha as <-; reflexivity].
  - exact Er.
  - exists w, js, tr', w'. split; [exact Hmu|]. split; [exact Ht|]. split; [exact Hd|exact Hm].
Defined.
