(* ===== verification/Liveness.v ===== *)
(** Every request is answered.  Infinite executions of the write path of
    [WritePath], under a fair scheduler and a lock that starves no waiter:
    what [write_path_never_stuck] says could happen does happen. *)

From S2P Require Import Prelude Lts GoLib Protocol ProtocolFacts PubSub Store Db Spec Refine Expiry.
From S2P Require Import History Concurrent Cmd CmdFacts CmdSpec Replay Aof AofFacts Snapshot Compaction.
From S2P Require Import Replication Server ServerFacts Feed WritePath WritePathFacts Progress.

Section liveness.
Context `{GoUnicode}.

(** * Steps and work *)

(** A goroutine stays where it is, or comes closer to its end. *)
Definition nearer (gs : list gor) (i : nat) (g : gor) : Prop :=
  ∃ g', gs !! i = Some g' ∧ (gor_work g' < gor_work g)%nat.

Lemma insert_nearer gs i g g' j h :
  gs !! i = Some g → (g ≠ Away → gor_work g' < gor_work g)%nat → gs !! j = Some h → h ≠ Away →
  <[i := g']> gs !! j = Some h ∨ nearer (<[i := g']> gs) j h.
Proof.
  intros Hi Hw Hj Hh. destruct (decide (j = i)) as [->|Hne]; [right|left; by rewrite list_lookup_insert_ne].
  rewrite Hi in Hj. injection Hj as <-. exists g'. split; [|by apply Hw].
  apply list_lookup_insert_eq. by eapply lookup_lt_Some.
Qed.

Lemma checked_work s req : (gor_work (checked s req) < gor_work (Checking req))%nat.
Proof. unfold checked. destruct (_ || _); simpl; lia. Qed.

Lemma landed_work ord now held req d db db' r :
  db_ok db → dispatch_live d → dispatch_next ord now req d db = Some (db', r) →
  (gor_work (landed held req r) < gor_work (running held req d))%nat.
Proof.
  intros Hdb Hl E. destruct (dispatch_next_progress ord now req d db Hdb Hl) as (db1 & r1 & E1 & _ & Hr).
  rewrite E in E1. injection E1 as <- <-. destruct r as [d'|v], held; simpl; try (destruct Hr; lia).
  - case_match; destruct d; simpl; lia.
  - destruct d; simpl; lia.
Qed.

Lemma pstep_nearer w l w' j h :
  lock_inv w → pstep w l w' → w_gors w !! j = Some h → h ≠ Away →
  w_gors w' !! j = Some h ∨ nearer (w_gors w') j h.
Proof.
  intros Hinv Hst. pose proof (lk_db _ Hinv) as Hdb. pose proof (lk_live _ Hinv) as Hlive.
  destruct Hst as [t t' c mu gs w Ht|t c mu gs inp Hn|t c mu gs w db w' Hw|t c mu gs w i req Hi
    |t c mu gs w i req Hi|t c gs w i req Hi|t c mu gs w i held req d ord db r Hi E|t c mu gs w i req v e Hi
    |t c mu gs w i req v o r Hi E|t c mu gs w i v Hi|t c mu gs w i v Hi|t c mu gs w ok|t c mu gs w addr r p E
    |t c mu gs w wok p c' frame more E|t c mu gs w o o' c' warned E|t c mu gs w i a st Hi Ha Hsr|t c gs w i Hi
    |t c mu gs w i os Hi|t c mu gs w i os b n out sh Hi Hsh|t c mu gs w i os b out a io wd a' ok Hi Ha E
    |t c mu gs w i Hi|t c mu gs w p r E|t c mu gs w p]; cbn [w_gors w_srv] in *; try (by left).
  all: eapply insert_nearer; [exact Hi|intros Hna; try done].
  all: try (cbn [gor_work compact_work]; lia).
  - apply checked_work.
  - eapply landed_work; [exact Hdb| |exact E]. specialize (Hlive i _ Hi). by destruct held.
  - apply lookup_lt_Some in Hsh. rewrite (ok_shards _ Hdb) in Hsh. cbn [gor_work compact_work]. lia.
Qed.

(** Leaving the lock frees it. *)
Lemma pstep_release w l w' j h h' :
  pstep w l w' → w_gors w !! j = Some h → inside h → w_gors w' !! j = Some h' → ¬ inside h' → w_mu w' = false.
Proof.
  intros Hst Hj Hh Hj' Hh'. destruct Hst; cbn [w_gors w_mu] in *; try (rewrite Hj in Hj'; by simplify_eq).
  all: apply gor_at_insert in Hj' as [[-> ->]|[_ Hj']]; [|rewrite Hj in Hj'; by simplify_eq].
  all: match goal with Hi : _ !! _ = Some _ |- _ => rewrite Hi in Hj; injection Hj as <- end; try done; try (by destruct Hh').
  destruct held; [|by destruct Hh]. by destruct Hh'; apply landed_inside.
Qed.

(** * Fair executions *)

(** Goroutine [i] takes a step. *)
Definition moves_at (x : nat → wserver) (i n : nat) : Prop := w_gors (x (S n)) !! i ≠ w_gors (x n) !! i.

(** Any goroutine moves again and again, unless from some moment on it can
    not: the scheduler runs it whenever it can run, and a waiter for the lock
    gets it when it is free again and again. *)
Record fair (x : nat → wserver) : Prop := {
  fr_step n : (∃ l, pstep (x n) l (x (S n))) ∨ x (S n) = x n;
  fr_go i n : ∃ m, (n ≤ m)%nat ∧ (moves_at x i m ∨ ∀ k, (m ≤ k)%nat → go i (x k) = None)
}.

Section fair_execution.
  Context (x : nat → wserver) (Hfair : fair x) (Hinv : ∀ n, lock_inv (x n)).

(** Goroutine [i], at [g] at time [n], comes closer to its end. *)
Definition advances (i n : nat) (g : gor) : Prop :=
  ∃ m, (n ≤ m)%nat ∧ w_gors (x m) !! i = Some g ∧ nearer (w_gors (x (S m))) i g.

Lemma stays i n m g :
  (n ≤ m)%nat → w_gors (x n) !! i = Some g → g ≠ Away → w_gors (x m) !! i = Some g ∨ advances i n g.
Proof.
  intros Hle Hg Ha. induction Hle as [|m Hle IH]; [by left|]. destruct IH as [IH|IH]; [|by right].
  destruct (fr_step _ Hfair m) as [[l Hst]|E]; [|left; congruence].
  destruct (pstep_nearer _ _ _ _ _ (Hinv m) Hst IH Ha) as [?|Hn]; [by left|right]. by exists m.
Qed.

Lemma runnable_advances i n g :
  w_gors (x n) !! i = Some g → g ≠ Away → (∀ m, (n ≤ m)%nat → ∃ k, (m ≤ k)%nat ∧ ¬ blocked (x k) g) →
  advances i n g.
Proof.
  intros Hg Ha Hb. destruct (fr_go _ Hfair i n) as (m & Hm & [Hmv|Hnone]).
  - destruct (stays i n m g Hm Hg Ha) as [Hgm|?]; [|done].
    destruct (stays i n (S m) g ltac:(lia) Hg Ha) as [Hgm'|?]; [|done]. unfold moves_at in Hmv. congruence.
  - destruct (Hb m Hm) as (k & Hk & Hbk). destruct (stays i n k g ltac:(lia) Hg Ha) as [Hgk|?]; [|done].
    destruct (go_progress (x k) i g (Hinv k) Hgk Ha Hbk) as (l & w' & g' & E & _). by rewrite Hnone in E.
Qed.

(** The lock is free again and again. *)
Lemma lock_freed n : ∃ m, (n ≤ m)%nat ∧ w_mu (x m) = false.
Proof.
  destruct (w_mu (x n)) eqn:Hmu; [|by exists n].
  destruct (holder_runs _ (Hinv n) Hmu) as (j & h & Hj & Hin & _ & _). clear Hmu.
  remember (gor_work h) as k eqn:Hk. revert n h Hk Hj Hin. induction (lt_wf k) as [k _ IH]. intros n h -> Hj Hin.
  assert (h ≠ Away ∧ ¬ at_lock h) as [Ha Hl].
  { split; [by intros ->|]. by intros [? _]%at_lock_outside. }
  destruct (runnable_advances j n h Hj Ha) as (m & Hm & Hjm & h' & Hjm' & Hlt).
  { intros m Hm. exists m. split; [done|]. by intros [? _]. }
  destruct (decide (inside h')) as [Hin'|Hin'].
  - destruct (IH _ Hlt (S m) h' eq_refl Hjm' Hin') as (m' & Hm' & Hfree). exists m'. split; [lia|done].
  - exists (S m). split; [lia|]. destruct (fr_step _ Hfair m) as [[l Hst]|E]; [by eapply pstep_release|].
    rewrite E, Hjm in Hjm'. by simplify_eq.
Qed.

Lemma every_goroutine_ends i n g :
  w_gors (x n) !! i = Some g → ∃ m, (n ≤ m)%nat ∧ w_gors (x m) !! i = Some Away.
Proof.
  remember (gor_work g) as k eqn:Hk. revert n g Hk. induction (lt_wf k) as [k _ IH]. intros n g -> Hg.
  destruct (decide (gor_work g = 0%nat)) as [H0|H0].
  { exists n. split; [done|]. destruct g as [| | | | | | | | |[]]; try done; simpl in H0; lia. }
  destruct (runnable_advances i n g Hg) as (m & Hm & _ & g' & Hg' & Hlt); [by intros ->| |].
  - intros m _. destruct (lock_freed m) as (k & Hk & Hfree). exists k. split; [done|]. intros [_ ?]. congruence.
  - destruct (IH _ Hlt (S m) g' eq_refl Hg') as (m' & Hm' & Haway). exists m'. split; [lia|done].
Qed.
End fair_execution.

Lemma fair_lock_inv t s n x : srv_ok s → fair x → x 0%nat = path_init t s n → ∀ k, lock_inv (x k).
Proof.
  intros Hs Hf H0 k. induction k as [|k IH]; [rewrite H0; by apply lock_inv_init|].
  destruct (fr_step _ Hf k) as [[l Hst]| ->]; [by eapply pstep_lock_inv|done].
Qed.
End liveness.

(** * Properties *)

(** C13: every request is answered.  In an infinite execution of the server,
    with or without a log or replicas, in which any number of goroutines
    serve any requests and rewrite the log, interleaved with the background
    work, under a fair scheduler and a lock that does not starve its waiters:
    each goroutine that serves a request or rewrites the log comes to its
    end, again and again, however many others keep competing for the lock;
    and the lock is free again and again. *)
Theorem every_request_answered `{GoUnicode} t s n x :
  srv_ok s → fair x → x 0%nat = path_init t s n →
  (∀ i k g, w_gors (x k) !! i = Some g → ∃ m, (k ≤ m)%nat ∧ w_gors (x m) !! i = Some Away) ∧
  ∀ k, ∃ m, (k ≤ m)%nat ∧ w_mu (x m) = false.
Proof.
  intros Hs Hf H0. pose proof (fair_lock_inv _ _ _ _ Hs Hf H0) as Hinv.
  split; [intros i k g; by apply every_goroutine_ends|intros k; by apply lock_freed].
Qed.

(** The contention of [WritePath], to its end, and then nothing. *)
Definition answered : list move := contention ++ [MGo 1].

Definition contended (n : nat) : wserver :=
  foldl (λ w m, match @perform_move plain_unicode m w with Some (_, w') => w' | None => w end)
    (path_init 0 everysec_server 3) (take n answered).

Lemma contended_fair : @fair plain_unicode contended.
Proof.
  split.
  - intros n. unfold contended. destruct (answered !! n) as [a|] eqn:Ea.
    + rewrite (take_S_r _ _ _ Ea), foldl_app. set (w := foldl _ _ (take n answered)). cbn [foldl].
      destruct (perform_move a w) as [[l w']|] eqn:Em; [left|by right].
      exists l. by apply (@perform_move_step plain_unicode a).
    + right. apply lookup_ge_None in Ea. by rewrite !take_ge by lia.
  - intros i n. exists (n + length answered)%nat. split; [lia|]. right. intros k Hk.
    assert (contended k = contended (length answered)) as -> by (unfold contended; by rewrite !take_ge by lia).
    assert (w_gors (contended (length answered)) = replicate 3 Away) as Hg by (vm_compute; reflexivity).
    destruct (contended (length answered)) as [t s mu gs r]. simpl in *. subst gs.
    by destruct i as [|[|[|i]]].
Qed.

(** A [SET] waits while a [DEL] holds the lock. *)
Lemma every_request_answered_witness :
  w_mu (contended 25) = true ∧ w_gors (contended 25) !! 0%nat = Some (Locking (request [B "SET"; B "k"; B "new"])) ∧
  ∃ m, (25 ≤ m)%nat ∧ w_gors (contended m) !! 0%nat = Some Away.
Proof.
  split; [vm_compute; reflexivity|]. split; [vm_compute; reflexivity|].
  apply (proj1 (@every_request_answered plain_unicode 0 everysec_server 3 contended
    ltac:(split; [apply newDB_ok|apply reps_ok_new|intros a Ha; injection Ha as <-; reflexivity])
    contended_fair eq_refl) 0%nat 25%nat (Locking (request [B "SET"; B "k"; B "new"]))).
  vm_compute. reflexivity.
Defined.
