(* ===== verification/Recovery.v ===== *)
(** Crash recovery end to end: what the write path logs, replayed by
    [loadAOF], rebuilds the state that was live. *)

From S2P Require Import Prelude GoLib Protocol ProtocolFacts PubSub Store Db Spec Refine Expiry.
From S2P Require Import History Cmd CmdFacts CmdSpec Replay Aof AofFacts Snapshot Compaction.
From S2P Require Import Replication Server ServerFacts Feed.

Section recovery.
Context `{GoUnicode}.

(** * A run of the write path *)

(** A request served at an instant, with system calls that succeed. *)
Record live_req := mkLive { l_time : Z; l_ord : map_order; l_feeds : map_order; l_req : Value }.

Definition env_of (l : live_req) : env :=
  {| e_clk := λ _, l_time l; e_ord := l_ord l; e_accept := None; e_sync := true;
     e_feeds := l_feeds l; e_now := l_time l |}.

(** The life of a logging server: requests and compactions of its log, each
    under [writeMu]. *)
Inductive live_event :=
  | LServe (l : live_req)
  | LCompact (os : snap_orders) (now tw : Z) (io : rewrite_io).

Fixpoint run_live (s : Server) (evs : list live_event) : option Server :=
  match evs with
  | [] => Some s
  | LServe l :: evs' =>
      match applyRecord (env_of l) s (l_req l) (commandName (l_req l)) with
      | None => None
      | Some (s', _) => run_live s' evs'
      end
  | LCompact os now tw io :: evs' =>
      match rewriteAOF os now tw io s with
      | None => None
      | Some (s', _) => run_live s' evs'
      end
  end.

Definition live_time (ev : live_event) : Z :=
  match ev with LServe l => l_time l | LCompact _ now _ _ => now end.

Fixpoint live_mono (t0 : Z) (evs : list live_event) : Prop :=
  match evs with [] => True | ev :: evs' => t0 ≤ live_time ev ∧ live_mono (live_time ev) evs' end.

Definition live_end (t0 : Z) (evs : list live_event) : Z := foldl (λ _ ev, live_time ev) t0 evs.

(** A request that can be carried on the wire and sets no time to live; a
    compaction whose reopen succeeds (any other call may fail). *)
Definition live_event_ok (ev : live_event) : Prop :=
  match ev with
  | LServe l => wire_ok (l_req l) ∧ no_expire (l_req l)
  | LCompact _ _ _ io => r_reopen io = true
  end.

(** Every snapshot taken along the run fits the wire format. *)
Definition snapshots_fit (s : Server) (evs : list live_event) : Prop :=
  ∀ before os now tw io after s1, evs = before ++ LCompact os now tw io :: after →
    run_live s before = Some s1 →
    Forall wire_ok (snapshot_cmds tw (Snapshot os (s_db s1) now)).

Lemma snapshots_fit_step s ev evs s1 :
  snapshots_fit s (ev :: evs) → run_live s [ev] = Some s1 → snapshots_fit s1 evs.
Proof.
  intros Hf E before os now tw io after s2 -> Hr. apply (Hf (ev :: before) os now tw io after); [done|].
  destruct ev; cbn [run_live] in *; repeat case_match; simplify_eq; done.
Qed.

Fixpoint nondecreasing (t0 : Z) (ls : list live_req) : Prop :=
  match ls with [] => True | l :: ls' => t0 ≤ l_time l ∧ nondecreasing (l_time l) ls' end.

Fixpoint end_time (t0 : Z) (ls : list live_req) : Z :=
  match ls with [] => t0 | l :: ls' => end_time (l_time l) ls' end.

(** What the write path records of a request: the request itself when it is
    a write that did not fail. *)
Definition recorded (req reply : Value) : list Value :=
  if IsWrite (commandName req) && negb (byte_eqb (vType reply) TypeError) then [req] else [].

(** The store after a request is the store before with what was recorded. *)
Lemma applyRecord_view l s :
  srv_ok s →
  ∃ s' reply, applyRecord (env_of l) s (l_req l) (commandName (l_req l)) = Some (s', reply) ∧
    srv_ok s' ∧
    view (l_time l) (s_db s') =
      foldl (λ m c, abs_step (l_time l) c m) (view (l_time l) (s_db s)) (recorded (l_req l) reply).
Proof.
  intros Hs. pose proof (sv_db _ Hs) as Hdb. set (req := l_req l) in *.
  destruct (applyRecord_ok (env_of l) s req (commandName req) Hs)
    as (s' & reply & E & Hs' & _ & _ & _ & Hdb' & Hrep & _).
  exists s', reply. split_and!; [done|done|].
  rewrite Hdb'. unfold recorded. destruct (IsWrite (commandName req)) eqn:Hw; cbn [andb].
  2:{ rewrite Dispatch_not_write; done. }
  destruct (byte_eqb (vType reply) TypeError) eqn:Hf; cbn [negb].
  - apply byte_eqb_eq in Hf.
    destruct (Dispatch_sound (e_clk (env_of l)) (e_ord (env_of l)) (s_db s) req Hdb) as (_ & v & Hv1 & _ & Herr).
    rewrite Hrep in Hv1. simplify_eq. by rewrite Herr.
  - exact (Dispatch_view (l_ord l) (l_time l) (s_db s) req Hdb).
Qed.

Lemma applyRecord_abs l s m t :
  srv_ok s → view t (s_db s) = m → no_exp m → t ≤ l_time l → no_expire (l_req l) →
  ∃ s' reply, applyRecord (env_of l) s (l_req l) (commandName (l_req l)) = Some (s', reply) ∧
    srv_ok s' ∧ view (l_time l) (s_db s') = abs_all (recorded (l_req l) reply) m ∧
    no_exp (abs_all (recorded (l_req l) reply) m) ∧ Forall no_expire (recorded (l_req l) reply).
Proof.
  intros Hs Hv Hm Ht Hnx. destruct (applyRecord_view l s Hs) as (s' & reply & E & Hs' & Hview).
  assert (view (l_time l) (s_db s) = m) as Hv'.
  { rewrite (view_ages t) by (done || apply Hs). by rewrite Hv, purge_no_exp. }
  exists s', reply. rewrite Hview, Hv'. unfold recorded, abs_all.
  destruct (_ && _); cbn [foldl]; split_and!; try done.
  - by apply abs_step_time.
  - by apply abs_step_no_exp.
  - by repeat constructor.
Qed.

(** What a request does to the log and the feeds. *)
Lemma applyRecord_effects e s req s' reply :
  applyRecord e s req (commandName req) = Some (s', reply) →
  is_Some (s_aof s) ∨ Any (s_replicas s) = true →
  if decide (recorded req reply = []) then
    s_world s' = s_world s ∧ s_aof s' = s_aof s ∧ s_replicas s' = s_replicas s
  else
    s_world s' = s_world (append_log e s req) ∧ s_aof s' = s_aof (append_log e s req) ∧
    Propagate (e_feeds e) (s_replicas s) req = Some (s_replicas s').
Proof.
  unfold applyRecord. destruct (Dispatch _ _ _ _) as [db1 [v|]]; [|done]. intros E Hon.
  assert (bool_decide (s_aof s = None) && negb (Any (s_replicas s)) = false) as Hb.
  { destruct Hon as [[a ->]| ->]; [done|]. by rewrite andb_false_r. }
  rewrite Hb, orb_false_r in E. unfold recorded.
  destruct (IsWrite _); cbn [negb andb] in *; [|by simplify_eq].
  destruct (byte_eqb (vType v) TypeError) eqn:Hv; [simplify_eq; by rewrite Hv|].
  assert (s_replicas (append_log e (with_db s db1) req) = s_replicas s) as Hr
    by (unfold append_log; cbn; by repeat case_match).
  rewrite Hr in E. destruct (Propagate _ _ _) as [r|]; [|done]. simplify_eq. rewrite Hv. cbn [negb].
  rewrite decide_False by done. unfold append_log. cbn. destruct (s_aof s); [|done].
  by destruct (Append _ _ _ _ _) as [[w1 a1] ok].
Qed.

Lemma applyRecord_path e s req s' reply :
  applyRecord e s req (commandName req) = Some (s', reply) → s_aofPath s' = s_aofPath s.
Proof.
  unfold applyRecord, append_log. intros E. repeat (case_match; simplify_eq/=; try done).
Qed.

(** The server between two events: [logs] is the content of its log. *)
Record live_log (path : bytes) (s : Server) (logs : list Value) : Prop := {
  ll_srv : srv_ok s;
  ll_path : s_aofPath s = path;
  ll_log : ∃ a pre written synced, logs = pre ++ written ∧ s_aof s = Some a ∧ a_err a = false ∧
    log_inv pre (s_world s) a written written synced [] ∧
    dir (s_world s) !! path = Some (a_f a) ∧ dir (s_world s) !! (path ++ B ".tmp") = None
}.

(** The files of a log whose writes may have failed. *)
Record log_files (path : bytes) (s : Server) (a : AOF) : Prop := {
  lf_path : s_aofPath s = path;
  lf_log : s_aof s = Some a;
  lf_inode : (a_f a < length (inodes (s_world s)))%nat;
  lf_durable : (idurable (inode (s_world s) (a_f a)) ≤ length (idata (inode (s_world s) (a_f a))))%nat;
  lf_dir : dir (s_world s) !! path = Some (a_f a);
  lf_tmp : dir (s_world s) !! (path ++ B ".tmp") = None
}.

Lemma live_log_files path s logs : live_log path s logs → ∃ a, log_files path s a ∧ a_err a = false ∧ a_buf a = [].
Proof.
  intros [Hs Hpath (a & pre & wr & synced & Hlogs & Ha & He & Hinv & Hd & Htmp)]. exists a.
  split_and!; [|done|by apply (li_clean _ _ _ _ _ _ _ Hinv)]. split; try done; apply Hinv.
Qed.

Lemma log_files_free path s a : log_files path s a → tmp_free (s_world s) a path.
Proof. intros []. split; [done|intros i Hi; congruence]. Qed.

Lemma log_files_fs path s a : log_files path s a → fs_ok (s_world s) path.
Proof. intros [_ _ ? ? Hd _] i Hi. rewrite Hd in Hi. by simplify_eq. Qed.

(** A rewrite replaces the log by the commands of its records, also one
    whose writes failed, or leaves it as it was. *)
Lemma live_log_rewrite path s a tw rs io w' a' ok :
  srv_ok s → log_files path s a → a_buf a = [] ∨ a_err a = true → r_reopen io = true →
  Forall (λ r, recordValue r ≠ None) rs → Forall wire_ok (snapshot_cmds tw rs) →
  Rewrite (s_world s) a path tw rs io = Some (w', a', ok) →
  srv_ok (with_log s w' (Some a')) ∧
  if ok then live_log path (with_log s w' (Some a')) (snapshot_cmds tw rs)
  else a' = a ∧ log_files path (with_log s w' (Some a)) a ∧
    ∀ logs, live_log path s logs → live_log path (with_log s w' (Some a)) logs.
Proof.
  intros Hs Hf Hb Hre Hrs Hw E. pose proof (log_files_free _ _ _ Hf) as Hfree.
  pose proof (log_files_fs _ _ _ Hf) as Hfs. destruct Hf as [Hpath Ha Hino Hdur Hd Htmp].
  destruct (Rewrite_mode _ _ _ _ _ _ _ _ _ E) as [Hm Htk].
  assert (srv_ok (with_log s w' (Some a'))) as Hs'.
  { split; [apply Hs..|]. intros a1. cbn [with_log s_aof]. intros [= <-]. rewrite Hm, Htk. by apply (sv_log _ Hs). }
  split; [done|]. destruct ok.
  - pose proof (Rewrite_true_ok _ _ _ _ _ _ _ _ E) as Hall.
    destruct (Rewrite_succeeds _ _ _ _ _ _ _ Hfree Hfs Hall Hb (writeSnapshot_cmds _ _ Hrs Hw) Hw)
      as (w2 & a2 & E2 & Hinv2 & Hd2 & Htmp2 & _ & _ & _ & _ & _ & He2). rewrite E in E2. simplify_eq.
    split; [done|done|]. eexists a2, _, [], []. by rewrite app_nil_r.
  - destruct (Rewrite_fails _ _ _ _ _ _ _ _ Hfree Hfs Hre E) as (-> & _ & Hin & Hp).
    destruct (Rewrite_fails_clean _ _ _ _ _ _ _ _ Htmp Hre E) as [Htmp' Hlen].
    split_and!; [done| |].
    + split; cbn; rewrite ?Hin; try done; [lia|by apply Hp].
    + intros logs [_ _ (a1 & pre & wr & synced & Hlogs & Ha1 & He & Hinv & _)]. split; [done|done|].
      rewrite Ha in Ha1. simplify_eq. exists a1, pre, wr, synced. split_and!; [done..| |by apply Hp|done].
      destruct Hinv. split; cbn [with_log s_world]; rewrite ?Hin; try done. lia.
Qed.

(** Without times to live, the log's effect is the live keyspace. *)
Record live_inv (path : bytes) (t : Z) (s : Server) (logs : list Value) : Prop := {
  lv_log : live_log path s logs;
  lv_view : view t (s_db s) = abs_all logs ∅;
  lv_no_exp : no_exp (abs_all logs ∅);
  lv_cmds : Forall no_expire logs
}.

(** An append whose system calls succeed adds exactly its frame. *)
Lemma Append_logs pre w a logs synced cmd :
  log_inv pre w a logs logs synced [] → a_err a = false → wire_ok cmd →
  ∃ w' a' synced', Append w a cmd None true = (w', a', true) ∧ a_err a' = false ∧ dir w' = dir w ∧
    a_f a' = a_f a ∧ log_inv pre w' a' (logs ++ [cmd]) (logs ++ [cmd]) synced' [].
Proof.
  intros Hinv He Hcmd. destruct (li_clean _ _ _ _ _ _ _ Hinv He) as [_ Hb].
  destruct (Append w a cmd None true) as [[w' a'] ok] eqn:E.
  destruct (Append_elsewhere w a cmd He Hb (wire_ok_Encode _ Hcmd)) as (Hok & _ & _).
  rewrite E in Hok. simpl in Hok. subst ok.
  destruct (Append_inv _ _ _ _ _ _ _ _ _ _ _ _ _ Hinv Hcmd E) as (wr & tl & Hinv' & Hwr & Hd & Hm & Hf).
  assert (a_err a' = false) as He'.
  { unfold Append, Flush, fsync, fwrite in E. rewrite He in E. cbn [buffer a_err] in E. rewrite He in E.
    repeat (case_match; simplify_eq/=; try done). }
  assert (wr = logs ++ [cmd]) as ->.
  { destruct Hwr as [-> | ->]; [|done]. pose proof (li_acked _ _ _ _ _ _ _ Hinv') as Hsub.
    apply sublist_length in Hsub. rewrite length_app in Hsub. simpl in Hsub. lia. }
  destruct (li_clean _ _ _ _ _ _ _ Hinv' He') as [-> _].
  eexists _, _, _. split_and!; [done|done|done|done|exact Hinv'].
Qed.

(** A request adds what it records to the log, and nothing else. *)
Lemma live_log_serve path s logs l s' reply :
  live_log path s logs → wire_ok (l_req l) → srv_ok s' →
  applyRecord (env_of l) s (l_req l) (commandName (l_req l)) = Some (s', reply) →
  live_log path s' (logs ++ recorded (l_req l) reply).
Proof.
  intros [Hs Hpath (a & pre & wr & synced & Hlogs & Ha & He & Hinv & Hd & Htmp)] Hw Hs' E.
  pose proof (applyRecord_effects _ _ _ _ _ E (or_introl (mk_is_Some _ _ Ha))) as Heff.
  split; [done|by rewrite (applyRecord_path _ _ _ _ _ E)|].
  unfold recorded in *. destruct (_ && _).
  - rewrite decide_False in Heff by done. destruct Heff as (Hw' & Ha' & _).
    destruct (Append_logs _ _ _ _ _ (l_req l) Hinv He Hw) as (w1 & a1 & sy1 & Ea & He1 & Hd1 & Hf1 & Hinv1).
    unfold append_log in Hw', Ha'. rewrite Ha in Hw', Ha'. cbn [env_of e_accept e_sync] in Hw', Ha'.
    rewrite Ea in Hw', Ha'. cbn [with_log s_world s_aof] in Hw', Ha'.
    exists a1, pre, (wr ++ [l_req l]), sy1. rewrite Hw', Ha', Hlogs, Hd1, Hf1, app_assoc. by split_and!.
  - rewrite decide_True in Heff by done. destruct Heff as (Hw' & Ha' & _).
    exists a, pre, wr, synced. rewrite app_nil_r, Hw', Ha'. by split_and!.
Qed.

Lemma live_serve path t s logs l :
  live_inv path t s logs → t ≤ l_time l → wire_ok (l_req l) → no_expire (l_req l) →
  ∃ s' reply, applyRecord (env_of l) s (l_req l) (commandName (l_req l)) = Some (s', reply) ∧
    live_inv path (l_time l) s' (logs ++ recorded (l_req l) reply).
Proof.
  intros [Hlog Hv Hne Hcm] Ht Hw Hnx.
  destruct (applyRecord_abs l s _ t (ll_srv _ _ _ Hlog) Hv Hne Ht Hnx)
    as (s' & reply & E & Hs' & Hv' & Hne' & Hcm').
  exists s', reply. split; [done|]. unfold abs_all in Hv', Hne'. rewrite <-foldl_app in Hv', Hne'.
  split; [by eapply live_log_serve|done|done|by apply Forall_app].
Qed.

(** A compaction either leaves the log as it is or replaces it by the
    commands of the live keyspace. *)
Lemma live_compact path t s logs os now tw io :
  live_inv path t s logs → t ≤ now → r_reopen io = true →
  Forall wire_ok (snapshot_cmds tw (Snapshot os (s_db s) now)) →
  ∃ s' ok logs', rewriteAOF os now tw io s = Some (s', ok) ∧ live_inv path now s' logs'.
Proof.
  intros [Hlog Hv Hne Hcm] Ht Hre Hw. pose proof (ll_srv _ _ _ Hlog) as Hs. pose proof (sv_db _ Hs) as Hdb.
  destruct (live_log_files _ _ _ Hlog) as (a & Hf & He & Hb).
  assert (view now (s_db s) = abs_all logs ∅) as Hv'.
  { rewrite (view_ages t) by done. by rewrite Hv, purge_no_exp. }
  unfold rewriteAOF. rewrite (lf_log _ _ _ Hf), (lf_path _ _ _ Hf).
  destruct (Rewrite_total (s_world s) a path tw os (s_db s) now io Hdb) as [[[w' a'] ok] E]. rewrite E.
  destruct (live_log_rewrite _ _ _ _ _ _ _ _ _ Hs Hf (or_introl Hb) Hre (Snapshot_records os (s_db s) now Hdb) Hw E)
    as [Hs' Hnew]. rewrite <-Hv' in Hne.
  destruct ok.
  - eexists _, _, (snapshot_cmds tw (Snapshot os (s_db s) now)). split; [done|].
    pose proof (snapshot_abs os (s_db s) now tw Hdb Hne) as Habs.
    split; [done|by rewrite Habs|by rewrite Habs|by apply snapshot_no_expire].
  - destruct Hnew as (-> & _ & Hnew). eexists _, _, logs. split; [done|]. rewrite Hv' in Hne. split; [by apply Hnew|done..].
Qed.

Lemma live_run path t s logs evs :
  live_inv path t s logs → live_mono t evs → Forall live_event_ok evs → snapshots_fit s evs →
  ∃ s' logs', run_live s evs = Some s' ∧ live_inv path (live_end t evs) s' logs'.
Proof.
  intros Hinv Hm Hok. revert t s logs Hinv Hm.
  induction Hok as [|ev evs Hev _ IH]; intros t s logs Hinv Hm Hfit; [by exists s, logs|].
  destruct Hm as [Ht Hm]. destruct ev as [l|os now tw io].
  - destruct Hev as [Hw Hn].
    destruct (live_serve path t s logs l Hinv Ht Hw Hn) as (s1 & reply & E & Hinv1).
    cbn [run_live]. rewrite E. eapply IH; [done|done|].
    eapply snapshots_fit_step; [done|]. cbn [run_live]. by rewrite E.
  - destruct (live_compact path t s logs os now tw io Hinv Ht Hev) as (s1 & ok & logs1 & E & Hinv1).
    { by apply (Hfit [] os now tw io evs). }
    cbn [run_live]. rewrite E. eapply IH; [done|done|].
    eapply snapshots_fit_step; [done|]. cbn [run_live]. by rewrite E.
Qed.

Lemma live_log_start w path mode w0 a0 :
  fs_ok w path → file w path = None → dir w !! (path ++ B ".tmp") = None →
  Open w path mode true true = (w0, Some a0) →
  live_log path (with_log (NewMulti w path mode []) w0 (Some a0)) [].
Proof.
  intros Hfs Hfile Htmp Ho.
  destruct (Open_inv w path mode w0 a0 [] Hfs) as (Hinv & Hd & Hm); [by rewrite Hfile|constructor|done|].
  unfold Open, open_create in Ho. cbn [negb] in Ho.
  assert (dir w0 !! (path ++ B ".tmp") = None ∧ a_err a0 = false ∧
          (a_mode a0 = FsyncEverySec → a_ticking a0 = true)) as (Htmp0 & He & Htk).
  { pose proof (tmp_ne path). destruct (dir w !! path); injection Ho as <- <-; cbn; split_and!;
      rewrite ?lookup_insert_ne by done; try done; by intros ->. }
  split; [split; [apply newDB_ok|apply reps_ok_new|]|done|].
  - intros a. cbn [with_log s_aof]. by intros [= <-].
  - by exists a0, [], [], [].
Qed.

Lemma live_start w path mode w0 a0 t0 :
  fs_ok w path → file w path = None → dir w !! (path ++ B ".tmp") = None →
  Open w path mode true true = (w0, Some a0) →
  live_inv path t0 (with_log (NewMulti w path mode []) w0 (Some a0)) [].
Proof.
  intros. split; [by apply live_log_start|apply view_newDB|by apply map_Forall_empty|done].
Qed.

(** * [loadAOF] on such a log *)

(** A replay whose [i]-th command runs at [clk i]. *)
Fixpoint replay_along (o : map_order) (clk : clock) (i : nat) (reqs : list Value) (db : DB) : DB :=
  match reqs with
  | [] => db
  | c :: reqs' => replay_along o clk (S i) reqs' (Dispatch (λ _, clk i) o db c).1
  end.

Lemma replay_along_at (o : map_order) T i reqs db :
  replay_along o (λ _, T) i reqs db = apply_all (replay_at o T) reqs db.
Proof. revert i db. induction reqs as [|c reqs IH]; intros i db; [done|]. apply IH. Qed.

Definition replay_env (o o' : map_order) (clk : clock) (i : nat) : env := env_of (mkLive (clk i) o o' (ArrayV None)).

Lemma replay_dispatch_all (o o' : map_order) (clk : clock) reqs db i :
  db_ok db →
  apply_all (replay_dispatch (replay_env o o' clk)) reqs (Some db, i)
  = (Some (replay_along o clk i reqs db), (i + length reqs)%nat).
Proof.
  revert db i. induction reqs as [|req reqs IH]; intros db i Hok; simpl; [by rewrite Nat.add_0_r|].
  destruct (Dispatch_sound (λ _, clk i) o db req Hok) as (Hok' & v & Hv & _).
  destruct (Dispatch (λ _, clk i) o db req) as [db' r]. simpl in *. subst r.
  rewrite IH by done. f_equal. lia.
Qed.

(** Loading a file of commands and at most one torn frame applies them to an
    empty store. *)
Lemma loadAOF_file (o o' : map_order) (clk : clock) wd path logs tail mode primary :
  file wd path = Some (encode_all logs ++ tail) → Forall wire_ok logs → torn tail →
  ∃ s2, loadAOF (replay_env o o' clk) (NewMulti wd path mode primary) (read_log wd path) true true = Some s2 ∧
    s_db s2 = replay_along o clk 0 logs newDB.
Proof.
  intros Hf Hw Ht. unfold loadAOF, read_log. rewrite Hf. rewrite Replay_all; [|done|done|].
  2:{ intros c [[db|] i]; simpl; [|done]. by destruct (Dispatch _ _ _ _). }
  cbn [NewMulti s_db]. rewrite replay_dispatch_all by apply newDB_ok.
  unfold Open. cbn [negb NewMulti s_world s_aofPath].
  destruct (open_create wd path) as [w1 i1]. by eexists.
Qed.

Lemma live_log_file path s logs :
  live_log path s logs → file (s_world s) path = Some (encode_all logs) ∧ Forall wire_ok logs.
Proof.
  intros [Hs Hpath (a & pre & wr & synced & -> & Ha & He & Hinv & Hd & _)].
  split; [|exact (li_wire _ _ _ _ _ _ _ Hinv)].
  unfold file. rewrite Hd, (li_data _ _ _ _ _ _ _ Hinv). by rewrite app_nil_r.
Qed.

Lemma loadAOF_replays (o o' : map_order) T path s logs mode primary :
  live_log path s logs →
  ∃ s2, loadAOF (λ _, env_of (mkLive T o o' (ArrayV None)))
          (NewMulti (s_world s) path mode primary) (read_log (s_world s) path) true true = Some s2 ∧
    s_db s2 = apply_all (replay_at o T) logs newDB.
Proof.
  intros [Hf Hw]%live_log_file.
  rewrite <-(app_nil_r (encode_all logs)) in Hf.
  destruct (loadAOF_file o o' (λ _, T) _ _ logs [] mode primary Hf Hw ltac:(by left)) as (s2 & E & Hdb).
  exists s2. split; [done|]. by rewrite Hdb, replay_along_at.
Qed.

Lemma loadAOF_recovers (o o' : map_order) T path t s logs mode primary :
  live_inv path t s logs →
  ∃ s2, loadAOF (λ _, env_of (mkLive T o o' (ArrayV None)))
          (NewMulti (s_world s) path mode primary) (read_log (s_world s) path) true true = Some s2 ∧
    db_ok (s_db s2) ∧ view T (s_db s2) = view t (s_db s).
Proof.
  intros [Hlog Hv Hne Hcm].
  destruct (loadAOF_replays o o' T path s logs mode primary Hlog) as (s2 & E & Hdb).
  destruct (replay_abs o T logs Hcm) as [H1 H2]. exists s2. rewrite Hdb, H2, Hv. by split_and!.
Qed.
End recovery.

(** * Concrete runs *)

Definition ms (n : Z) : Z := n * Millisecond.

Definition at_ (t : Z) (req : list bytes) : live_req := mkLive t order_id order_id (request req).

Definition logging_server : Server :=
  with_log (NewMulti empty_world (B "aof") FsyncAlways []) log_world (Some log_handle).

(** Three requests, a compaction, a last request. *)
Definition working_day : list live_event :=
  [LServe (at_ 3 [B "RPUSH"; B "l"; B "a"; B "b"]); LServe (at_ 3 [B "GET"; B "l"]);
   LServe (at_ 4 [B "lpop"; B "l"]); LCompact orders_id 5 6 io_ok;
   LServe (at_ 9 [B "SET"; B "k"; B "v"])].

(** The file of a server killed now, loaded by a new process at [T]. *)
Definition restart (T : Z) (w : World) : option Server :=
  @loadAOF plain_unicode (λ _, env_of (at_ T [])) (NewMulti w (B "aof") FsyncAlways [])
    (read_log w (B "aof")) true true.

(** * Properties *)

(** C2: recovery rebuilds the state: a server that starts on an empty log
    serves any requests (reads, writes, errors, unknown commands), none of
    them EXPIRE or PEXPIRE, and compacts its log at any moments between them
    (a compaction may also fail, up to the rename; one that renames also
    reopens), at non-decreasing instants, and its appends succeed.  Killed at
    any point between two of these, it is restarted by [loadAOF], at an
    instant later or earlier than that, with exactly the live keyspace it had:
    same keys, kinds and values. *)
Theorem recovery_rebuilds_state `{GoUnicode} w path mode w0 a0 t0 evs (o o' : map_order) T :
  fs_ok w path → file w path = None → dir w !! (path ++ B ".tmp") = None →
  Open w path mode true true = (w0, Some a0) →
  live_mono t0 evs → Forall live_event_ok evs →
  snapshots_fit (with_log (NewMulti w path mode []) w0 (Some a0)) evs →
  ∃ s1, run_live (with_log (NewMulti w path mode []) w0 (Some a0)) evs = Some s1 ∧
  ∃ s2, loadAOF (λ _, env_of (mkLive T o o' (ArrayV None))) (NewMulti (s_world s1) path mode [])
          (read_log (s_world s1) path) true true = Some s2 ∧
    db_ok (s_db s2) ∧ view T (s_db s2) = view (live_end t0 evs) (s_db s1).
Proof.
  intros Hfs Hfile Htmp Ho Hm Hev Hfit.
  assert (live_inv path t0 (with_log (NewMulti w path mode []) w0 (Some a0)) []) as Hlive
    by by apply live_start.
  destruct (live_run path t0 _ [] evs Hlive Hm Hev Hfit) as (s1 & logs & E & Hinv1).
  exists s1. split; [done|]. by eapply loadAOF_recovers.
Qed.

Lemma recovery_rebuilds_state_witness :
  ∃ s1, @run_live plain_unicode logging_server working_day = Some s1 ∧
  ∃ s2, @loadAOF plain_unicode (λ _, env_of (mkLive 50 order_id order_id (ArrayV None)))
          (NewMulti (s_world s1) (B "aof") FsyncAlways []) (read_log (s_world s1) (B "aof")) true true
        = Some s2 ∧
    db_ok (s_db s2) ∧ view 50 (s_db s2) = view 9 (s_db s1).
Proof.
  apply (@recovery_rebuilds_state plain_unicode empty_world (B "aof") FsyncAlways log_world log_handle 0
    working_day order_id order_id 50).
  - intros i Hi. vm_compute in Hi. discriminate Hi.
  - reflexivity.
  - reflexivity.
  - reflexivity.
  - cbn. lia.
  - unfold working_day.
    repeat (apply List.Forall_cons; [first [reflexivity|
      split; [apply wire_okb_sound; vm_compute; reflexivity|intros x Hx; injection Hx as <-; exact I]]|]).
    apply List.Forall_nil.
  - intros before os now tw io after s1 He Hr.
    do 3 (destruct before as [|? before]; [discriminate He|injection He as <- He]).
    destruct before as [|? before].
    + injection He as <- <- <- <- _. vm_compute in Hr. injection Hr as <-.
      apply wire_okb_all. vm_compute. reflexivity.
    + injection He as _ He. destruct before as [|? [|? ?]]; discriminate He.
Defined.
