(* ===== verification/TornTail.v ===== *)
(** A log that ends inside a frame.  [Replay] tolerates it, nothing cuts it
    off, and the next append goes after it: what a later restart makes of
    that. *)

From S2P Require Import Prelude GoLib Protocol ProtocolFacts PubSub Store Db Spec Refine Expiry.
From S2P Require Import History Cmd CmdFacts CmdSpec Replay Aof AofFacts Snapshot Compaction.
From S2P Require Import Replication Server ServerFacts Feed Recovery.

(** * A frame torn in its first line *)

Lemma parse_digits_all acc l n : parse_digits acc l = Some n → Forall (λ b, is_digit b = true) l.
Proof.
  revert acc. induction l as [|b l IH]; intros acc E; [constructor|]. simpl in E.
  destruct (is_digit b) eqn:Hb; [|done]. constructor; [done|by eapply IH].
Qed.

(** An asterisk is in no number. *)
Lemma ParseInt_asterisk l : TypeArray ∈ l → ParseInt l = None.
Proof.
  assert (∀ acc l, TypeArray ∈ l → parse_digits acc l = None) as Hd.
  { intros acc k Hk. destruct (parse_digits acc k) eqn:E; [|done]. apply parse_digits_all in E.
    rewrite Forall_forall in E. by apply E in Hk. }
  destruct l as [|b l]; [by intros ?%elem_of_nil|]. intros Hin. unfold ParseInt.
  destruct (byte_eqb b x2b) eqn:E1; [|destruct (byte_eqb b x2d) eqn:E2].
  3:{ by rewrite Hd. }
  all: apply byte_eqb_eq in E1 || apply byte_eqb_eq in E2; subst b; apply elem_of_cons in Hin as [?|Hin]; [done|];
    rewrite Hd by done; by destruct l.
Qed.

(** The line goes on into the frame that was appended. *)
Lemma decode_into_header rest d more :
  LF ∉ rest → LF ∉ d →
  decode (mkReader ((TypeArray :: rest) ++ TypeArray :: d ++ CRLF ++ more) EOF)
  = Err (ErrInvalidInteger (rest ++ TypeArray :: d)).
Proof.
  intros Hr Hd. unfold decode. cbn [rbuf app length Decode ReadByte obind].
  change (byte_eqb TypeArray TypeSimpleString) with false. change (byte_eqb TypeArray TypeError) with false.
  change (byte_eqb TypeArray TypeInteger) with false. change (byte_eqb TypeArray TypeBulkString) with false.
  change (byte_eqb TypeArray TypeArray) with true. cbn iota. unfold decodeArray, readInt. cbn [rerr].
  replace (rest ++ TypeArray :: d ++ CRLF ++ more) with ((rest ++ TypeArray :: d) ++ CRLF ++ more)
    by (by rewrite <-app_assoc).
  rewrite readLine_app by (rewrite elem_of_app, elem_of_cons; naive_solver). cbn [obind].
  rewrite ParseInt_asterisk; [done|]. rewrite elem_of_app, elem_of_cons. auto.
Qed.

(** * A frame torn in a payload *)

Definition bulks (l : list bytes) : list Value := map (λ b, BulkV (Some b)) l.

(** The frame of a command, up to the [j]-th byte of the argument [v]. *)
Definition cut_payload (l1 : list bytes) (v : bytes) (l2 : list bytes) (j : nat) : bytes :=
  TypeArray :: FormatInt (zlen (bulks (l1 ++ v :: l2))) ++ CRLF ++ encode_all (bulks l1) ++
  TypeBulkString :: FormatInt (zlen v) ++ CRLF ++ take j v.

Lemma encode_request l1 v l2 :
  Forall wire_ok (bulks (l1 ++ v :: l2)) →
  encode (request (l1 ++ v :: l2)) = cut_payload l1 v l2 (length v) ++ CRLF ++ encode_all (bulks l2).
Proof.
  intros Hw. change (request (l1 ++ v :: l2)) with (ArrayV (Some (bulks (l1 ++ v :: l2)))).
  rewrite encode_ArrayV by done. unfold cut_payload. rewrite firstn_all.
  assert (encode_all (bulks (l1 ++ v :: l2)) = encode_all (bulks l1) ++
    TypeBulkString :: FormatInt (zlen v) ++ CRLF ++ v ++ CRLF ++ encode_all (bulks l2)) as ->.
  { unfold bulks, encode_all. rewrite !map_app, concat_app. f_equal. cbn [map concat].
    change (encode (BulkV (Some v))) with (TypeBulkString :: FormatInt (zlen v) ++ CRLF ++ v ++ CRLF).
    cbn [app]. by rewrite <-!app_assoc. }
  cbn [app]. f_equal. by repeat (rewrite <-app_assoc; cbn [app]).
Qed.

(** Bytes that fit into what is missing make it another torn frame. *)
Lemma payload_swallows l1 v l2 j p :
  wire_ok (request (l1 ++ v :: l2)) → (j + length p ≤ length v)%nat → torn (cut_payload l1 v l2 j ++ p).
Proof.
  intros Hw Hj. inversion Hw as [| | | | | |vs Hlen Hall E]. subst vs.
  set (v' := take j v ++ p ++ drop (j + length p) v).
  assert (length v' = length v) as Hv'.
  { unfold v'. rewrite !length_app, length_take, length_drop. lia. }
  assert (zlen v' = zlen v) as Hz by (unfold zlen; by rewrite Hv').
  assert (Forall wire_ok (bulks (l1 ++ v' :: l2))) as Hall'.
  { unfold bulks in *. rewrite map_app in *. cbn [map] in *. apply Forall_app in Hall as [H1 H2].
    apply Forall_cons in H2 as [H2 H3]. apply Forall_app. split; [done|]. constructor; [|done].
    inversion H2. constructor. by rewrite Hz. }
  assert (zlen (bulks (l1 ++ v' :: l2)) = zlen (bulks (l1 ++ v :: l2))) as Hz2.
  { unfold zlen, bulks. by rewrite !length_map, !length_app. }
  assert (wire_ok (request (l1 ++ v' :: l2))) as Hw'.
  { apply (wire_array (bulks (l1 ++ v' :: l2))); [|done]. rewrite Hz2. exact Hlen. }
  assert (∃ more, encode (request (l1 ++ v' :: l2)) = (cut_payload l1 v l2 j ++ p) ++ more ∧ more ≠ []) as (more & Hmore & Hne).
  { rewrite encode_request by done. unfold cut_payload. rewrite Hz, Hz2, firstn_all.
    exists (drop (j + length p) v ++ CRLF ++ encode_all (bulks l2)). split.
    - unfold v'. repeat (rewrite <-app_assoc; cbn [app]). done.
    - by destruct (drop _ v). }
  right. exists (request (l1 ++ v' :: l2)). split_and!; [done|by exists more| |done].
  intros E2. rewrite <-E2 in Hmore. apply Hne. apply (app_inv_head (cut_payload l1 v l2 j ++ p)).
  by rewrite app_nil_r.
Qed.

Section torn_tail.
Context `{GoUnicode}.

(** * Restarts *)

(** A command after which the log is no sequence of frames. *)
Lemma loadAOF_bad (o o' : map_order) (clk : clock) wd path logs bad err mode primary :
  file wd path = Some (encode_all logs ++ bad) → Forall wire_ok logs →
  decode (mkReader bad EOF) = Err err → err ≠ EOF → err ≠ ErrUnexpectedEOF →
  loadAOF (replay_env o o' clk) (NewMulti wd path mode primary) (read_log wd path) true true = None ∧
  ∃ st n, Replay (replay_dispatch (replay_env o o' clk)) (read_log wd path) (Some newDB, 0%nat) = (st, n, BadLog err).
Proof.
  intros Hf Hw Hd H1 H2. unfold loadAOF, read_log. rewrite Hf.
  rewrite Replay_app; [|done|intros c [[db|] i]; simpl; [|done]; by destruct (Dispatch _ _ _ _)].
  rewrite Replay_app; [|done|intros c [[db|] i]; simpl; [|done]; by destruct (Dispatch _ _ _ _)].
  cbn [Replay rbuf replay_loop]. rewrite Hd. split; [|destruct err; try done; by eexists _, _].
  destruct (apply_all _ _ _) as [[db|] i]; by destruct err.
Qed.

(** The log that a restart opens, and a write to it. *)
Lemma loadAOF_log (es : nat → env) wd path mode primary f s1 i :
  fs_ok wd path → dir wd !! path = Some i →
  loadAOF es (NewMulti wd path mode primary) f true true = Some s1 →
  s_world s1 = wd ∧ ∃ a, s_aof s1 = Some a ∧ a_f a = i ∧ a_err a = false ∧ a_buf a = [] ∧ (i < length (inodes wd))%nat.
Proof.
  intros Hfs Hi. unfold loadAOF. destruct (Replay _ _ _) as [[[[db|] n] m] []]; try done.
  unfold Open, open_create. cbn [negb NewMulti s_world s_aofPath]. rewrite Hi. intros [= <-].
  destruct (Hfs i Hi). split; [done|]. eexists. by split_and!.
Qed.

Lemma append_file e s a req path i bs :
  s_aof s = Some a → a_f a = i → a_err a = false → a_buf a = [] → (i < length (inodes (s_world s)))%nat →
  dir (s_world s) !! path = Some i → file (s_world s) path = Some bs → wire_ok req → e_accept e = None →
  file (s_world (append_log e s req)) path = Some (bs ++ encode req).
Proof.
  intros Ha Hf He Hb Hi Hd Hbs Hw Hacc. unfold append_log. rewrite Ha.
  destruct (Append _ _ _ _ _) as [[w' a'] ok] eqn:E. cbn [with_log s_world].
  pose proof (wire_ok_Encode req Hw) as Henc. unfold file in *. rewrite Hd in Hbs. injection Hbs as <-.
  unfold Append, Flush, fwrite, fsync, encode in *. rewrite He, Hacc in E. destruct (Encode req) as [out err].
  simpl in Henc. subst err. cbn [buffer a_err a_f a_buf] in E. rewrite He, Hb, Hf in E. simpl in E.
  unfold inode, set_inode in *. simpl in *.
  repeat (case_match; simplify_eq/=);
    rewrite ?list_lookup_insert_eq by (rewrite ?length_insert; lia); done.
Qed.

(** What is recorded is a command. *)
Lemma recorded_array req reply :
  recorded req reply = [req] → wire_ok req → ∃ d more, LF ∉ d ∧ encode req = TypeArray :: d ++ CRLF ++ more.
Proof.
  unfold recorded. destruct (IsWrite (commandName req)) eqn:Hw; [|done]. intros _ Hok.
  destruct Hok as [| | | | | |vs Hlen Hvs]; [by vm_compute in Hw..|].
  rewrite encode_ArrayV by done. eexists _, _. split; [apply FormatInt_no_LF|done].
Qed.
End torn_tail.

(** * Properties *)

(** C38: a torn tail is tolerated once and then poisons the log.  A restart
    on a log of complete commands that ends inside the frame of another one
    succeeds, but the file is not cut back, so the next write that is
    recorded (acknowledged, and synced) is appended after the torn bytes.
    When the frame was torn in its first line, the restart after that finds
    a number it cannot parse and refuses the log, whatever was written; when
    it was torn in an argument of which at least as many bytes are missing
    as the new frame has, that argument swallows the new frame, and the
    restart succeeds without the write. *)
Theorem append_after_torn_tail_corrupts `{GoUnicode} (o o' : map_order) clk clk' wd path mode logs c tail :
  fs_ok wd path → file wd path = Some (encode_all logs ++ tail) → Forall wire_ok logs →
  wire_ok c → tail `prefix_of` encode c → tail ≠ encode c → tail ≠ [] →
  ∃ s1, loadAOF (replay_env o o' clk) (NewMulti wd path mode []) (read_log wd path) true true = Some s1 ∧
  ∀ l s2 reply, wire_ok (l_req l) →
    applyRecord (env_of l) s1 (l_req l) (commandName (l_req l)) = Some (s2, reply) →
    recorded (l_req l) reply = [l_req l] →
    let again := loadAOF (replay_env o o' clk') (NewMulti (s_world s2) path mode [])
                   (read_log (s_world s2) path) true true in
    (vType c = TypeArray → LF ∉ tail →
       again = None ∧
       ∃ st n line, Replay (replay_dispatch (replay_env o o' clk')) (read_log (s_world s2) path) (Some newDB, 0%nat)
                    = (st, n, BadLog (ErrInvalidInteger line))) ∧
    (∀ l1 v l2 j, c = request (l1 ++ v :: l2) → tail = cut_payload l1 v l2 j →
       (j + length (encode (l_req l)) ≤ length v)%nat →
       ∃ s3, again = Some s3 ∧ s_db s3 = replay_along o clk' 0 logs newDB).
Proof.
  intros Hfs Hf Hlogs Hc Hp Hne Hnil.
  destruct (loadAOF_file o o' clk wd path logs tail mode [] Hf Hlogs) as (s1 & E1 & _); [right; by exists c|].
  exists s1. split; [done|]. intros l s2 reply Hw Ea Hrec again.
  assert (∃ i, dir wd !! path = Some i) as [i Hi] by (unfold file in Hf; destruct (dir wd !! path); [by eexists|done]).
  destruct (loadAOF_log _ _ _ _ _ _ _ _ Hfs Hi E1) as (Hwd & a & Ha & H1 & H2 & H3 & H4).
  pose proof (applyRecord_effects _ _ _ _ _ Ea (or_introl (mk_is_Some _ _ Ha))) as Heff.
  rewrite Hrec, decide_False in Heff by done. destruct Heff as (Hw2 & _).
  assert (file (s_world s2) path = Some (encode_all logs ++ tail ++ encode (l_req l))) as Hf2.
  { rewrite Hw2, app_assoc. subst i. by eapply append_file; rewrite ?Hwd. }
  split.
  - intros Ht HLF. destruct (recorded_array _ _ Hrec Hw) as (d & more & Hd & Henc).
    assert (∃ rest, tail = TypeArray :: rest ∧ LF ∉ rest) as (rest & -> & Hr).
    { destruct tail as [|b rest]; [done|]. rewrite not_elem_of_cons in HLF. destruct HLF as [_ HLF]. exists rest.
      split; [|done]. f_equal. destruct Hp as [k Hk].
      destruct Hc as [| | | | | |vs _ Hvs]; try done; [by injection Hk|]. rewrite encode_ArrayV in Hk by done. by injection Hk. }
    rewrite Henc in Hf2.
    destruct (loadAOF_bad o o' clk' _ _ _ _ _ mode [] Hf2 Hlogs (decode_into_header rest d more Hr Hd)) as [H5 H6]; [done..|].
    split; [done|]. destruct H6 as (st & n & ->). by eexists _, _, _.
  - intros l1 v l2 j -> -> Hj. apply (loadAOF_file o o' clk' _ _ logs _ mode [] Hf2 Hlogs).
    by apply payload_swallows.
Qed.

(** A [SET] torn in its first line, and one torn in a value of 64 bytes. *)
Definition torn_world (tail : bytes) : World :=
  mkWorld [mkInode (encode_all [request [B "SET"; B "k"; B "v"]] ++ tail) 0] (<[B "aof" := 0%nat]> ∅) 0.

Definition write_after (w : World) (l : live_req) : option (Server * Value) :=
  s ← restart 0 w; @applyRecord plain_unicode (env_of l) s (l_req l) (commandName (l_req l)).

Lemma append_after_torn_tail_corrupts_witness :
  let next := at_ 1 [B "SET"; B "x"; B "y"] in
  (∃ s2, write_after (torn_world (B "*3")) next = Some (s2, okValue) ∧ restart 2 (s_world s2) = None) ∧
  (∃ s2 s3, write_after (torn_world (cut_payload [B "SET"; B "k"] (replicate 64 x00) [] 3)) next = Some (s2, okValue) ∧
     restart 2 (s_world s2) = Some s3 ∧
     s_db s3 = @replay_along plain_unicode order_id (λ _, 2) 0 [request [B "SET"; B "k"; B "v"]] newDB).
Proof.
  assert (∀ tail, fs_ok (torn_world tail) (B "aof")) as Hfs.
  { intros tail i Hi. assert (i = 0%nat) as -> by (vm_compute in Hi; congruence). split; simpl; lia. }
  assert (Forall wire_ok [request [B "SET"; B "k"; B "v"]]) as Hl by (apply wire_okb_all; vm_compute; reflexivity).
  assert (∀ c tail more, wire_okb c = true → encode c = tail ++ more → more ≠ [] → tail ≠ [] →
    wire_ok c ∧ tail `prefix_of` encode c ∧ tail ≠ encode c ∧ tail ≠ []) as Ht.
  { intros c tail more Hc He Hm Hn. split; [by apply wire_okb_sound|]. split; [by exists more|]. split; [|done].
    intros E. rewrite <-E in He. apply Hm, (app_inv_head tail). by rewrite app_nil_r. }
  assert (∀ w s1, restart 0 w = Some s1 →
    snd <$> write_after w (at_ 1 [B "SET"; B "x"; B "y"]) = Some okValue →
    ∃ s2, write_after w (at_ 1 [B "SET"; B "x"; B "y"]) = Some (s2, okValue) ∧
      @applyRecord plain_unicode (env_of (at_ 1 [B "SET"; B "x"; B "y"])) s1 (request [B "SET"; B "x"; B "y"])
        (commandName (request [B "SET"; B "x"; B "y"])) = Some (s2, okValue)) as Hwr.
  { intros w s1 E Hs. unfold write_after in *. rewrite E in *. cbn [mbind option_bind] in *.
    change (l_req (at_ 1 [B "SET"; B "x"; B "y"])) with (request [B "SET"; B "x"; B "y"]) in *.
    destruct (applyRecord _ s1 _ _) as [[s2 reply]|]; [|done]. injection Hs as ->. by exists s2. }
  split.
  - destruct (Ht (request [B "SET"; B "k"; B "w"]) (B "*3") (drop 2 (encode (request [B "SET"; B "k"; B "w"]))))
      as (H1 & H2 & H3 & H4); [vm_compute; reflexivity..|done|done|].
    destruct (@append_after_torn_tail_corrupts plain_unicode order_id order_id (λ _, 0) (λ _, 2) _ (B "aof") FsyncAlways _ _ _
      (Hfs (B "*3")) eq_refl Hl H1 H2 H3 H4) as (s1 & E1 & Hall).
    destruct (Hwr _ s1 E1) as (s2 & Hs2 & Ea); [vm_compute; reflexivity|]. exists s2. split; [done|].
    apply (Hall (at_ 1 [B "SET"; B "x"; B "y"]) s2 okValue); [by apply wire_okb_sound|done|by vm_compute|done|].
    apply (bool_decide_unpack _). by vm_compute.
  - destruct (Ht (request [B "SET"; B "k"; replicate 64 x00]) (cut_payload [B "SET"; B "k"] (replicate 64 x00) [] 3)
      (replicate 61 x00 ++ CRLF)) as (H1 & H2 & H3 & H4); [vm_compute; reflexivity..|done|done|].
    destruct (@append_after_torn_tail_corrupts plain_unicode order_id order_id (λ _, 0) (λ _, 2) _ (B "aof") FsyncAlways _ _ _
      (Hfs (cut_payload [B "SET"; B "k"] (replicate 64 x00) [] 3)) eq_refl Hl H1 H2 H3 H4) as (s1 & E1 & Hall).
    destruct (Hwr _ s1 E1) as (s2 & Hs2 & Ea); [vm_compute; reflexivity|]. exists s2.
    destruct (Hall (at_ 1 [B "SET"; B "x"; B "y"]) s2 okValue) as [_ Hall']; [by apply wire_okb_sound|done|by vm_compute|].
    destruct (Hall' [B "SET"; B "k"] (replicate 64 x00) [] 3%nat eq_refl eq_refl) as (s3 & E3 & Hdb); [vm_compute; lia|].
    exists s3. by split_and!.
Defined.
