(* ===== verification/Deadlines.v ===== *)
(** Recovery with times to live.  The log records deadlines as durations, so
    a replay counts them again from its own clock: as long as no deadline
    passed while the log was written, a restart gives every key back with its
    value, and every deadline back with at least the time that was left, less
    what the replay took.  When a deadline did pass, the replay diverges. *)

From S2P Require Import Prelude GoLib Protocol ProtocolFacts PubSub Store Db Spec Refine Expiry.
From S2P Require Import History Cmd CmdFacts CmdSpec Replay Aof AofFacts Snapshot Compaction.
From S2P Require Import Replication Server ServerFacts Feed Recovery.

Lemma Forall_sublist {A} (P : A → Prop) l k : l `sublist_of` k → Forall P k → Forall P l.
Proof. intros Hs Hk. rewrite Forall_forall in *. intros x Hx. by eapply Hk, elem_of_sublist. Qed.

(** * Entries that differ in their deadlines *)

(** The same value; and no deadline, or deadlines that lie ahead of [now] and
    of [T], the second leaving as much time as the first, but for [ε]. *)
Definition rebased_entry (ε now T : Z) (a a' : aentry) : Prop :=
  a_val a = a_val a' ∧
  match a_exp a, a_exp a' with
  | None, None => True
  | Some x, Some x' => now < x ∧ T < x' ∧ x - now ≤ x' - T + ε
  | _, _ => False
  end.

Definition rebased_within (ε now T : Z) (m m' : astate) : Prop :=
  ∀ k, option_relation (rebased_entry ε now T) (λ _, False) (λ _, False) (m !! k) (m' !! k).

(** At least as much time. *)
Definition rebased_map (now T : Z) : astate → astate → Prop := rebased_within 0 now T.

Section rebased.
  Context (ε now T : Z).

Lemma rebased_insert m m' k a a' :
  rebased_within ε now T m m' → rebased_entry ε now T a a' → rebased_within ε now T (<[k := a]> m) (<[k := a']> m').
Proof. intros Hm Ha k'. rewrite !lookup_insert. case_decide; [done|apply Hm]. Qed.

Lemma rebased_delete m m' k :
  rebased_within ε now T m m' → rebased_within ε now T (delete k m) (delete k m').
Proof. intros Hm k'. rewrite !lookup_delete. case_decide; [done|apply Hm]. Qed.

(** The entry under a key, on both sides. *)
Lemma rebased_lookup m m' k :
  rebased_within ε now T m m' →
  (m !! k = None ∧ m' !! k = None) ∨
  ∃ v x x', m !! k = Some (mkA v x) ∧ m' !! k = Some (mkA v x') ∧
    rebased_entry ε now T (mkA v x) (mkA v x').
Proof.
  intros Hm. specialize (Hm k). destruct (m !! k) as [[v x]|], (m' !! k) as [[v' x']|]; try done; [|by left].
  right. destruct Hm as [Hv Hx]. simpl in Hv. subst v'. exists v, x, x'. split_and!; [done..|]. by split.
Qed.

Lemma rebased_value v v' x x' :
  rebased_entry ε now T (mkA v x) (mkA v x') → rebased_entry ε now T (mkA v' x) (mkA v' x').
Proof. intros [_ Hx]. by split. Qed.

Lemma rebased_dels m m' ks :
  rebased_within ε now T m m' →
  rebased_within ε now T (foldl (λ m k, delete k m) m ks) (foldl (λ m k, delete k m) m' ks).
Proof. revert m m'. induction ks as [|k ks IH]; intros m m' Hm; [done|]. simpl. by apply IH, rebased_delete. Qed.

(** Performed at two instants, an operation keeps the two sides related: it
    never looks at a deadline that has not passed. *)
Lemma spec_rebased_at u v x m m' :
  (∀ k d, x = OExpire k d → 0 < d → now < u + d ∧ T < v + d ∧ u - now ≤ v - T + ε) →
  rebased_within ε now T m m' → rebased_within ε now T (spec_op u x m).1 (spec_op v x m').1.
Proof.
  intros Hx Hm. destruct x; simpl; try done; try (by apply rebased_dels).
  all: try (apply rebased_insert; [done|by split]; fail).
  all: unfold spec_push, spec_pop, spec_hash, spec_set;
    destruct (rebased_lookup m m' k Hm) as [[-> ->]|(w & x & x' & -> & -> & He)].
  all: try (repeat case_match; simplify_eq/=; try done;
    first [by apply rebased_delete|apply rebased_insert; [done|]; first [by split|by eapply rebased_value]]; fail).
  - simpl. destruct (d <=? 0) eqn:Hd; reflect_bools; [by apply rebased_delete|].
    apply rebased_insert; [done|]. split; [done|]. simpl. destruct (Hx k d eq_refl ltac:(lia)) as (? & ? & ?). lia.
  - destruct He as [_ He]. simpl in He. destruct x, x'; try done. by apply rebased_insert.
Qed.

Lemma spec_rebased x m m' :
  0 ≤ ε → rebased_within ε now T m m' → rebased_within ε now T (spec_op now x m).1 (spec_op T x m').1.
Proof. intros Hε. apply spec_rebased_at. intros. lia. Qed.

(** Time passes on the live side without reaching a deadline. *)
Lemma rebased_later now' m m' :
  rebased_within ε now T m m' → now ≤ now' → purge now' m = m → rebased_within ε now' T m m'.
Proof.
  intros Hm Hle Hp k. destruct (rebased_lookup m m' k Hm) as [[-> ->]|(v & x & x' & E & -> & Hv & He)]; [done|].
  rewrite E. split; [done|]. simpl in *. destruct x as [x|], x' as [x'|]; try done.
  assert (alive now' (mkA v (Some x))) as Ha.
  { rewrite <-Hp, purge_lookup in E. destruct (m !! k) as [a|]; [|done]. simpl in E.
    destruct (decide (alive now' a)) as [Hal|]; simplify_eq. done. }
  unfold alive in Ha. simpl in Ha. lia.
Qed.
End rebased.

Section deadlines.
Context `{GoUnicode}.

Definition abs_at (t : Z) (reqs : list Value) (m : astate) : astate := foldl (λ m c, abs_step t c m) m reqs.

Lemma abs_step_rebased ε now T req m m' :
  0 ≤ ε → rebased_within ε now T m m' → rebased_within ε now T (abs_step now req m) (abs_step T req m').
Proof. intros Hε. unfold abs_step. destruct (request_op req) as [x|]; [|done]. by apply spec_rebased. Qed.

Lemma abs_at_rebased ε now T reqs m m' :
  0 ≤ ε → rebased_within ε now T m m' → rebased_within ε now T (abs_at now reqs m) (abs_at T reqs m').
Proof.
  intros Hε. revert m m'. induction reqs as [|c reqs IH]; intros m m' Hm; [done|]. simpl.
  by apply IH, abs_step_rebased.
Qed.

(** A replay at [T], its commands applied one after the other. *)
Lemma replay_view (o : map_order) T reqs db :
  db_ok db →
  db_ok (apply_all (replay_at o T) reqs db) ∧
  view T (apply_all (replay_at o T) reqs db) = abs_at T reqs (view T db).
Proof.
  revert db. induction reqs as [|c reqs IH]; intros db Hok; [done|]. cbn [apply_all foldl abs_at].
  destruct (IH ((replay_at o T c db).1)) as [H1 H2]; [by apply Dispatch_sound|].
  split; [exact H1|]. etrans; [exact H2|]. unfold abs_at. f_equal. by apply Dispatch_view.
Qed.

(** ** A replay that takes time *)

(** A command that sets no time to live, or one longer than [D]. *)
Definition outlasting (D : Z) (req : Value) : Prop :=
  ∀ k d, request_op req = Some (OExpire k d) → d ≤ 0 ∨ D < d.

(** A clock that does not go back, between [T] and [T']. *)
Definition clock_within (T T' : Z) (clk : clock) : Prop := ∀ i, T ≤ clk i ∧ clk i ≤ clk (S i) ∧ clk i ≤ T'.

(** What is related to it with deadlines ahead does not age. *)
Lemma rebased_view ε now T T' t db m :
  db_ok db → t ≤ T' → T' ≤ T → rebased_within ε now T m (view t db) → view T' db = view t db.
Proof.
  intros Hok Ht HT Hm. rewrite (view_ages t) by done. apply map_eq. intros k. rewrite purge_lookup.
  destruct (rebased_lookup _ _ _ _ _ k Hm) as [[_ ->]|(v & x & x' & _ & -> & _ & He)]; [done|].
  simpl in *. rewrite decide_True; [done|]. unfold alive. simpl. destruct x, x'; try done. lia.
Qed.

(** It gives what a replay at its beginning gives, with deadlines that are
    not earlier and all lie after its end. *)
Lemma replay_along_rebased (o : map_order) T T' (clk : clock) reqs i m db :
  clock_within T T' clk → Forall (outlasting (T' - T)) reqs → db_ok db →
  rebased_within 0 T' T' m (view (clk i) db) →
  db_ok (replay_along o clk i reqs db) ∧
  rebased_within 0 T' T' (abs_at T reqs m) (view T' (replay_along o clk i reqs db)).
Proof.
  intros Hc Hr. revert i m db. induction Hr as [|c reqs Hcmd _ IH]; intros i m db Hok Hm.
  { split; [done|]. simpl. rewrite (rebased_view _ _ _ T' _ _ _ Hok) by (by apply Hc || exact Hm || done). done. }
  destruct (Dispatch_sound (λ _, clk i) o db c Hok) as [Hok' _].
  destruct (Hc i) as (H1 & H2 & H3), (Hc (S i)) as (_ & _ & H4). cbn [replay_along abs_at foldl]. apply IH; [done|].
  assert (rebased_within 0 T' T' (abs_step T c m) (view (clk i) (Dispatch (λ _, clk i) o db c).1)) as Hs.
  { rewrite Dispatch_view by done. unfold abs_step. destruct (request_op c) as [x|] eqn:Ex; [|done].
    apply spec_rebased_at; [|done]. intros k d -> Hd. destruct (Hcmd k d Ex); lia. }
  by rewrite (rebased_view _ _ _ (clk (S i)) _ _ _ Hok' H2 H4 Hs).
Qed.

(** Against the live side the replay loses at most the time it takes. *)
Lemma rebased_shift ε now T T' m m' m'' :
  rebased_within ε now T m m' → rebased_within 0 T' T' m' m'' →
  rebased_within (ε + (T' - T)) now T' m m''.
Proof.
  intros H1 H2 k. destruct (rebased_lookup _ _ _ _ _ k H1) as [[E1 E2]|(v & x & x' & E1 & E2 & _ & He)].
  - specialize (H2 k). rewrite E1, E2 in *. by destruct (m'' !! k).
  - destruct (rebased_lookup _ _ _ _ _ k H2) as [[E3 _]|(v' & y & y' & E3 & E4 & _ & Hf)]; [congruence|].
    rewrite E2 in E3. injection E3 as <- <-. rewrite E1, E4. split; [done|]. simpl in *.
    destruct x, x', y'; try done. lia.
Qed.

(** No deadline passes between two requests of the run. *)
Fixpoint calm (t0 : Z) (s : Server) (ls : list live_req) : Prop :=
  match ls with
  | [] => True
  | l :: ls' =>
      view (l_time l) (s_db s) = view t0 (s_db s) ∧
      match applyRecord (env_of l) s (l_req l) (commandName (l_req l)) with
      | Some (s', _) => calm (l_time l) s' ls'
      | None => False
      end
  end.

Fixpoint calmb (t0 : Z) (s : Server) (ls : list live_req) : bool :=
  match ls with
  | [] => true
  | l :: ls' =>
      bool_decide (view (l_time l) (s_db s) = view t0 (s_db s)) &&
      match applyRecord (env_of l) s (l_req l) (commandName (l_req l)) with
      | Some (s', _) => calmb (l_time l) s' ls'
      | None => false
      end
  end.

Lemma calmb_sound t0 s ls : calmb t0 s ls = true → calm t0 s ls.
Proof.
  revert t0 s. induction ls as [|l ls IH]; intros t0 s; [done|]. cbn [calmb calm].
  intros [Hv%bool_decide_eq_true Hc]%andb_true_iff. split; [done|].
  destruct (applyRecord _ _ _ _) as [[s' v]|]; [by apply IH|done].
Qed.

(** The live keyspace is the one a replay at [T] would build, but for the
    deadlines. *)
Lemma calm_run path T t s logs ls :
  live_log path s logs → rebased_map t T (view t (s_db s)) (abs_at T logs ∅) →
  nondecreasing t ls → Forall (λ l, wire_ok (l_req l)) ls → calm t s ls →
  ∃ s' new, run_live s (map LServe ls) = Some s' ∧ live_log path s' (logs ++ new) ∧
    new `sublist_of` map l_req ls ∧
    rebased_map (end_time t ls) T (view (end_time t ls) (s_db s')) (abs_at T (logs ++ new) ∅).
Proof.
  revert t s logs. induction ls as [|l ls IH]; intros t s logs Hlog Hr Hm Hw Hc.
  { exists s, []. rewrite app_nil_r. by split_and!. }
  destruct Hm as [Ht Hm], Hc as [Hv Hc]. apply Forall_cons in Hw as [Hwl Hw].
  destruct (applyRecord_view l s (ll_srv _ _ _ Hlog)) as (s1 & reply & E & Hs1 & Hview).
  cbn [map run_live end_time]. rewrite E in *.
  destruct (IH (l_time l) s1 (logs ++ recorded (l_req l) reply)) as (s' & new & E' & Hlog' & Hsub & Hr');
    [by eapply live_log_serve| |done..|].
  - rewrite Hview. unfold abs_at. rewrite foldl_app. apply abs_at_rebased; [done|].
    rewrite Hv. eapply rebased_later; [exact Hr|done|].
    rewrite <-Hv. apply purge_view, (ll_srv _ _ _ Hlog).
  - exists s', (recorded (l_req l) reply ++ new). rewrite app_assoc. split_and!; [done..| |done].
    unfold recorded. destruct (_ && _); simpl; [by apply sublist_skip|by apply sublist_cons].
Qed.
(** ** A deadline that passes *)

(** A write that succeeds is served as the specification says and logged. *)
Lemma live_write path s logs l first args den x :
  live_log path s logs → wire_ok (l_req l) → l_req l = ArrayV (Some (first :: args)) →
  assoc (ToUpper (arg first)) denotes = Some den → den args = Some (x, render) →
  IsWrite (commandName (l_req l)) = true →
  (∀ r, reply_eq r (spec_op (l_time l) x (view (l_time l) (s_db s))).2 → vType (render r) ≠ TypeError) →
  ∃ s' reply, applyRecord (env_of l) s (l_req l) (commandName (l_req l)) = Some (s', reply) ∧
    live_log path s' (logs ++ [l_req l]) ∧
    view (l_time l) (s_db s') = (spec_op (l_time l) x (view (l_time l) (s_db s))).1.
Proof.
  intros Hlog Hw Hreq Hden Hx Hwr Hne. pose proof (ll_srv _ _ _ Hlog) as Hs.
  destruct (applyRecord_ok (env_of l) s (l_req l) (commandName (l_req l)) Hs)
    as (s' & reply & E & Hs' & _ & _ & _ & Hdb & Hrep & _).
  exists s', reply. split; [done|].
  destruct (Dispatch_denotes (l_ord l) (l_time l) (s_db s) first args den x render (sv_db _ Hs) Hden Hx)
    as (_ & Hview & r & Hr & Heq).
  rewrite <-Hreq in Hview, Hr. rewrite Hdb. split; [|done].
  pose proof (live_log_serve path s logs l s' reply Hlog Hw Hs' E) as Hl.
  assert (Some reply = Some (render r)) as [= ->] by (rewrite <-Hrep; exact Hr).
  unfold recorded in Hl. rewrite Hwr in Hl. cbn [andb] in Hl.
  by rewrite (proj2 (byte_eqb_neq _ _) (Hne r Heq)) in Hl.
Qed.

Definition rpush (k v : bytes) : Value := request [B "RPUSH"; k; v].
Definition pexpire (k : bytes) (d : Z) : Value := request [B "PEXPIRE"; k; FormatInt d].

(** A push, as a live write and as a command of the log. *)
Lemma live_push path s logs t (o o' : map_order) k v :
  live_log path s logs → wire_ok (rpush k v) →
  (view t (s_db s) !! k = None ∨ ∃ l x, view t (s_db s) !! k = Some (mkA (AList l) x)) →
  ∃ s' reply, applyRecord (env_of (mkLive t o o' (rpush k v))) s (rpush k v) (commandName (rpush k v)) = Some (s', reply) ∧
    live_log path s' (logs ++ [rpush k v]) ∧ view t (s_db s') = (spec_push (λ l, l ++ [v]) (view t (s_db s)) k).1.
Proof.
  intros Hlog Hw Hk. destruct (live_write path s logs (mkLive t o o' (rpush k v)) (BulkV (Some (B "RPUSH")))
    [BulkV (Some k); BulkV (Some v)] (many (λ k vs, ORPush k (map vBulk vs))) (ORPush k [Some v])) as (s' & reply & H1 & H2 & H3);
    [done..| |by exists s', reply].
  cbn [l_time spec_op]. unfold spec_push. intros r.
  destruct Hk as [-> | (l & x & ->)]; simpl; destruct r; try done; by intros _.
Qed.

Lemma pexpire_denotes k d :
  0 < d → d * Millisecond ≤ max_int64 →
  expire Millisecond [BulkV (Some k); BulkV (Some (FormatInt d))] = Some (OExpire k (d * Millisecond), render).
Proof.
  intros H0 H1. assert (int64 d) by (unfold int64, min_int64, max_int64, Millisecond in *; lia).
  cbn [expire]. rewrite !arg_bulk, ParseInt_FormatInt by done. unfold dur_mul.
  by rewrite wrap64_id by (unfold int64, min_int64, Millisecond in *; lia).
Qed.

Lemma pexpire_op k d :
  0 < d → d * Millisecond ≤ max_int64 → request_op (pexpire k d) = Some (OExpire k (d * Millisecond)).
Proof.
  intros. unfold request_op, pexpire, request. cbn [vType vArray ArrayV map]. rewrite byte_eqb_refl. cbn [negb].
  change (assoc (ToUpper (arg (BulkV (Some (B "PEXPIRE"))))) denotes) with (Some (expire Millisecond)).
  cbv beta iota. by rewrite pexpire_denotes.
Qed.

Lemma live_pexpire path s logs t (o o' : map_order) k d :
  live_log path s logs → wire_ok (pexpire k d) → 0 < d → d * Millisecond ≤ max_int64 →
  ∃ s' reply, applyRecord (env_of (mkLive t o o' (pexpire k d))) s (pexpire k d) (commandName (pexpire k d)) = Some (s', reply) ∧
    live_log path s' (logs ++ [pexpire k d]) ∧
    view t (s_db s') = (spec_op t (OExpire k (d * Millisecond)) (view t (s_db s))).1.
Proof.
  intros Hlog Hw H0 H1. destruct (live_write path s logs (mkLive t o o' (pexpire k d)) (BulkV (Some (B "PEXPIRE")))
    [BulkV (Some k); BulkV (Some (FormatInt d))] (expire Millisecond) (OExpire k (d * Millisecond))) as (s' & reply & E);
    [done|done|done|done|by apply pexpire_denotes|done| |by exists s', reply].
  cbn [l_time spec_op]. intros r. repeat case_match; simpl; destruct r; try done; by intros [= ->].
Qed.

(** The three commands, at one instant. *)
Lemma pushes_abs_at T k v v' d :
  0 < d → d * Millisecond ≤ max_int64 →
  abs_at T [rpush k v; pexpire k d; rpush k v'] ∅ = {[k := mkA (AList [v; v']) (Some (T + d * Millisecond))]}.
Proof.
  intros H0 H1. unfold abs_at, abs_step. cbn [foldl].
  change (request_op (rpush k v)) with (Some (ORPush k [Some v])). change (request_op (rpush k v')) with (Some (ORPush k [Some v'])).
  rewrite pexpire_op by done. cbn [spec_op]. unfold spec_push. rewrite !lookup_empty. cbn [fst]. rewrite !lookup_insert_eq.
  assert (d * Millisecond <=? 0 = false) as -> by (apply Z.leb_gt; unfold Millisecond; lia). cbn [fst].
  rewrite !lookup_insert_eq. cbn. by rewrite !insert_insert_eq.
Qed.

Lemma pushes_outlast D k v v' d :
  0 < d → d * Millisecond ≤ max_int64 → D < d * Millisecond →
  Forall (outlasting D) [rpush k v; pexpire k d; rpush k v'].
Proof.
  intros H0 H1 HD. assert (∀ w, outlasting D (rpush k w)) as Hp by (intros w k' d'; by change (request_op (rpush k w)) with (Some (ORPush k [Some w]))).
  repeat (apply Forall_cons_2; [try apply Hp|]); [|by apply Forall_nil]. intros k' d'.
  rewrite pexpire_op by done. intros [= <- <-]. by right.
Qed.
End deadlines.

(** * Properties *)

(** C25: recovery with times to live: a server that starts on an empty log
    serves requests, EXPIRE and PEXPIRE included, at non-decreasing instants,
    its appends succeed, and no key's deadline passes before it is killed.
    Restarted with a replay that reads the clock anew for every command,
    between [T] and [T'], and is shorter than any time to live that was set,
    it has, when the replay ends, the same keys with the same values; the keys
    without a deadline still have none, and every other key has at least the
    time to live it had left, less the duration of the replay: durations are
    counted again from the instant their command is replayed. *)
Theorem recovery_restarts_ttls `{GoUnicode} w path mode w0 a0 t0 ls (o o' : map_order) T T' clk :
  fs_ok w path → file w path = None → dir w !! (path ++ B ".tmp") = None →
  Open w path mode true true = (w0, Some a0) →
  nondecreasing t0 ls → Forall (λ l, wire_ok (l_req l)) ls →
  calm t0 (with_log (NewMulti w path mode []) w0 (Some a0)) ls →
  clock_within T T' clk → Forall (λ l, outlasting (T' - T) (l_req l)) ls →
  ∃ s1, run_live (with_log (NewMulti w path mode []) w0 (Some a0)) (map LServe ls) = Some s1 ∧
  ∃ s2, loadAOF (replay_env o o' clk) (NewMulti (s_world s1) path mode [])
          (read_log (s_world s1) path) true true = Some s2 ∧
    db_ok (s_db s2) ∧
    rebased_within (T' - T) (end_time t0 ls) T' (view (end_time t0 ls) (s_db s1)) (view T' (s_db s2)).
Proof.
  intros Hfs Hfile Htmp Ho Hm Hw Hc Hclk Hout. set (s0 := with_log _ _ _) in *.
  assert (live_log path s0 []) as Hlog by by apply live_log_start.
  destruct (calm_run path T t0 s0 [] ls Hlog) as (s1 & logs & E & Hlog1 & Hsub & Hr); [|done..|].
  { intros k. change (s_db s0) with newDB. rewrite view_newDB. cbn. by rewrite lookup_empty. }
  exists s1. split; [done|]. cbn [app] in *.
  destruct (live_log_file _ _ _ Hlog1) as [Hf Hwire]. rewrite <-(app_nil_r (encode_all logs)) in Hf.
  destruct (loadAOF_file o o' clk _ _ logs [] mode [] Hf Hwire ltac:(by left)) as (s2 & E2 & Hdb).
  assert (Forall (outlasting (T' - T)) logs) as Hol by (by eapply Forall_sublist, Forall_map).
  destruct (replay_along_rebased o T T' clk logs 0 ∅ newDB Hclk Hol newDB_ok) as [H8 H9].
  { rewrite view_newDB. intros k. by rewrite lookup_empty. }
  exists s2. rewrite Hdb. split_and!; [done..|]. by apply (rebased_shift 0 _ T _ _ (abs_at T logs ∅)).
Qed.

(** A list with a time to live, pushed to again before it runs out. *)
Definition short_day : list live_req :=
  [at_ 0 [B "RPUSH"; B "l"; B "a"]; at_ 0 [B "PEXPIRE"; B "l"; B "10"];
   at_ (ms 4) [B "RPUSH"; B "l"; B "b"]; at_ (ms 5) [B "SET"; B "k"; B "v"]].

(** Every command is replayed a millisecond after the one before. *)
Definition slow_replay : clock := λ i, ms (70 + Z.min (Z.of_nat i) 5).

Lemma slow_replay_within : clock_within (ms 70) (ms 75) slow_replay.
Proof. intros i. unfold slow_replay, ms, Millisecond. lia. Qed.

Lemma recovery_restarts_ttls_witness :
  ∃ s1, @run_live plain_unicode logging_server (map LServe short_day) = Some s1 ∧
  ∃ s2, @loadAOF plain_unicode (replay_env order_id order_id slow_replay)
          (NewMulti (s_world s1) (B "aof") FsyncAlways []) (read_log (s_world s1) (B "aof")) true true = Some s2 ∧
    rebased_within (ms 75 - ms 70) (ms 5) (ms 75) (view (ms 5) (s_db s1)) (view (ms 75) (s_db s2)).
Proof.
  destruct (@recovery_restarts_ttls plain_unicode empty_world (B "aof") FsyncAlways log_world log_handle 0
    short_day order_id order_id (ms 70) (ms 75) slow_replay) as (s1 & E1 & s2 & E2 & _ & Hr).
  - intros i Hi. vm_compute in Hi. discriminate Hi.
  - reflexivity.
  - reflexivity.
  - reflexivity.
  - cbn. unfold ms, Millisecond. lia.
  - unfold short_day.
    repeat (apply List.Forall_cons; [apply wire_okb_sound; vm_compute; reflexivity|]). apply List.Forall_nil.
  - apply calmb_sound. vm_compute. reflexivity.
  - exact slow_replay_within.
  - unfold short_day. repeat (apply List.Forall_cons; [intros k d Hd; vm_compute in Hd; try discriminate Hd|]);
      [|apply List.Forall_nil]. injection Hd as <- <-. right. vm_compute. reflexivity.
  - exists s1. split; [exact E1|]. exists s2. split; [exact E2|exact Hr].
Defined.

(** C37: with times to live that run out the log does not rebuild the state.
    Whatever the key, the elements, the duration and the instants: a list
    gets an element and a time to live, expires, and is pushed to again.
    Live, it is the new list, without a deadline; but the log holds both
    pushes and the relative deadline, so a restart whose replay is shorter
    than that duration brings the expired element back, in front of the new
    one, and gives the key a deadline that it did not have. *)
Theorem relative_ttl_replay_diverges `{GoUnicode} w path mode w0 a0 k v v' d t1 t2 t3 (o o' : map_order) T T' clk :
  fs_ok w path → file w path = None → dir w !! (path ++ B ".tmp") = None →
  Open w path mode true true = (w0, Some a0) →
  wire_ok (rpush k v) → wire_ok (pexpire k d) → wire_ok (rpush k v') →
  0 < d → d * Millisecond ≤ max_int64 → t1 ≤ t2 → t2 + d * Millisecond ≤ t3 →
  clock_within T T' clk → T' - T < d * Millisecond →
  ∃ s1, run_live (with_log (NewMulti w path mode []) w0 (Some a0))
          (map LServe [mkLive t1 o o' (rpush k v); mkLive t2 o o' (pexpire k d); mkLive t3 o o' (rpush k v')]) = Some s1 ∧
    view t3 (s_db s1) !! k = Some (mkA (AList [v']) None) ∧
  ∃ s2 x, loadAOF (replay_env o o' clk) (NewMulti (s_world s1) path mode [])
            (read_log (s_world s1) path) true true = Some s2 ∧
    view T' (s_db s2) !! k = Some (mkA (AList [v; v']) (Some x)) ∧ T' < x.
Proof.
  intros Hfs Hfile Htmp Ho W1 W2 W3 Hd0 Hd Ht1 Ht3 Hclk HD. set (s0 := with_log _ _ _).
  assert (live_log path s0 []) as L0 by by apply live_log_start.
  assert (∀ t, view t (s_db s0) = ∅) as V0 by (intros t; apply view_newDB).
  destruct (live_push path s0 [] t1 o o' k v L0 W1) as (s1 & r1 & E1 & L1 & V1); [left; by rewrite V0|].
  unfold spec_push in V1. rewrite V0, lookup_empty in V1. cbn [fst app] in *.
  assert (view t2 (s_db s1) = {[k := mkA (AList [v]) None]}) as V1'.
  { rewrite (view_ages t1), V1 by (done || apply L1). apply purge_no_exp. by apply map_Forall_singleton. }
  destruct (live_pexpire path s1 _ t2 o o' k d L1 W2 Hd0 Hd) as (s2 & r2 & E2 & L2 & V2).
  cbn [spec_op] in V2. rewrite V1', lookup_singleton_eq in V2.
  assert (d * Millisecond <=? 0 = false) as Hd1 by (apply Z.leb_gt; unfold Millisecond; lia).
  rewrite Hd1 in V2. cbn [fst] in V2.
  assert (view t3 (s_db s2) !! k = None) as V2'.
  { rewrite (view_ages t2), V2, purge_lookup, lookup_insert_eq by (apply L2 || (unfold Millisecond in *; lia)). simpl.
    rewrite decide_False; [done|]. unfold alive. simpl. lia. }
  destruct (live_push path s2 _ t3 o o' k v' L2 W3) as (s3 & r3 & E3 & L3 & V3); [by left|].
  unfold spec_push in V3. rewrite V2' in V3. cbn [fst app] in *.
  exists s3. cbn [map run_live l_req]. rewrite E1, E2, E3. split; [done|]. split; [by rewrite V3, lookup_insert_eq|].
  destruct (live_log_file _ _ _ L3) as [Hf Hwire]. rewrite <-(app_nil_r (encode_all _)) in Hf.
  destruct (loadAOF_file o o' clk _ _ _ [] mode [] Hf Hwire ltac:(by left)) as (s4 & E4 & Hdb).
  destruct (replay_along_rebased o T T' clk [rpush k v; pexpire k d; rpush k v'] 0 ∅ newDB Hclk) as [_ H9];
    [by apply pushes_outlast|apply newDB_ok|rewrite view_newDB; intros k'; by rewrite lookup_empty|].
  rewrite pushes_abs_at in H9 by done.
  destruct (rebased_lookup _ _ _ _ _ k H9) as [[Hn _]|(u & x & x' & Hu & Hx & _ & Hr)]; [by rewrite lookup_singleton_eq in Hn|].
  rewrite lookup_singleton_eq in Hu. injection Hu as <- <-. simpl in Hr. destruct x' as [x'|]; [|done].
  exists s4, x'. rewrite Hdb. split_and!; [done|done|lia].
Qed.

(** An element that lives ten milliseconds. *)
Lemma relative_ttl_replay_diverges_witness :
  ∃ s1, @run_live plain_unicode logging_server
          (map LServe [at_ 0 [B "RPUSH"; B "l"; B "a"]; at_ 0 [B "PEXPIRE"; B "l"; B "10"];
                       at_ (ms 20) [B "RPUSH"; B "l"; B "b"]]) = Some s1 ∧
    view (ms 20) (s_db s1) !! B "l" = Some (mkA (AList [B "b"]) None) ∧
  ∃ s2 x, @loadAOF plain_unicode (replay_env order_id order_id slow_replay)
            (NewMulti (s_world s1) (B "aof") FsyncAlways []) (read_log (s_world s1) (B "aof")) true true = Some s2 ∧
    view (ms 75) (s_db s2) !! B "l" = Some (mkA (AList [B "a"; B "b"]) (Some x)) ∧ ms 75 < x.
Proof.
  refine (@relative_ttl_replay_diverges plain_unicode empty_world (B "aof") FsyncAlways log_world log_handle
    (B "l") (B "a") (B "b") 10 0 0 (ms 20) order_id order_id (ms 70) (ms 75) slow_replay
    _ eq_refl eq_refl eq_refl _ _ _ _ _ _ _ slow_replay_within _).
  - intros i Hi. vm_compute in Hi. discriminate Hi.
  - apply wire_okb_sound. vm_compute. reflexivity.
  - apply wire_okb_sound. vm_compute. reflexivity.
  - apply wire_okb_sound. vm_compute. reflexivity.
  - lia.
  - vm_compute. discriminate.
  - lia.
  - vm_compute. discriminate.
  - vm_compute. reflexivity.
Defined.
