(* ===== verification/CrashLog.v ===== *)
(** A crash while goroutines are inside the write path: what the file of the
    log of the concurrent server of [WritePath] holds, at whatever step of any
    goroutine the process is killed, in the middle of an append or of a
    rewrite of the log too. *)

From S2P Require Import Prelude Lts GoLib Protocol ProtocolFacts PubSub Store Db Spec Refine Expiry.
From S2P Require Import History Concurrent Cmd CmdFacts CmdSpec Replay Aof AofFacts Snapshot Compaction.
From S2P Require Import Replication Server ServerFacts Feed WritePath WritePathFacts Recovery.

Section crash_log.
Context `{GoUnicode}.

(** * Appends of any outcome *)

(** A write to the log has failed; the writer refuses every later one. *)
Definition broken (s : Server) : Prop := ∃ a, s_aof s = Some a ∧ a_err a = true.

Lemma Append_data w a cmd accept sync w' a' ok :
  (a_f a < length (inodes w))%nat → a_err a = false → a_buf a = [] → wire_ok cmd →
  Append w a cmd accept sync = (w', a', ok) →
  a_err a' = true ∨ idata (inode w' (a_f a)) = idata (inode w (a_f a)) ++ encode cmd.
Proof.
  intros Hi He Hb Hcmd E. pose proof (wire_ok_Encode cmd Hcmd) as Herr.
  unfold Append, Flush, fwrite, fsync, encode in *. rewrite He in E. destruct (Encode cmd) as [out err].
  simpl in Herr. subst err. cbn [buffer a_err a_f a_buf] in E. rewrite He, Hb in E.
  destruct accept as [k|]; simpl in E; [simplify_eq; by left|]. right.
  unfold inode, set_inode in *. simpl in *.
  case_bool_decide; destruct sync; simplify_eq/=; by rewrite ?list_lookup_insert_eq by (rewrite ?length_insert; lia).
Qed.

(** What the file holds counts, whether or not the fsync after it failed. *)
Lemma log_inv_written pre w a written acked synced tail :
  log_inv pre w a written acked synced tail → log_inv pre w a written written synced tail.
Proof. intros []. by split. Qed.

Lemma Append_writes pre w a logs synced cmd accept sync w' a' ok :
  log_inv pre w a logs logs synced [] → a_err a = false → wire_ok cmd →
  Append w a cmd accept sync = (w', a', ok) →
  a_err a' = true ∨
  a_err a' = false ∧ dir w' = dir w ∧ a_f a' = a_f a ∧
    ∃ synced', log_inv pre w' a' (logs ++ [cmd]) (logs ++ [cmd]) synced' [].
Proof.
  intros Hinv He Hcmd E. destruct (li_clean _ _ _ _ _ _ _ Hinv He) as [_ Hb].
  destruct (Append_inv _ _ _ _ _ _ _ _ _ _ _ _ _ Hinv Hcmd E) as (wr & tl & Hinv' & Hwr & Hd & _ & Hf).
  apply log_inv_written in Hinv'.
  destruct (Append_data _ _ _ _ _ _ _ _ (li_inode _ _ _ _ _ _ _ Hinv) He Hb Hcmd E) as [?|Hdata]; [by left|].
  destruct (a_err a') eqn:He'; [by left|right]. destruct (li_clean _ _ _ _ _ _ _ Hinv' He') as [-> _].
  split_and!; [done..|]. eexists. destruct Hwr as [-> | ->]; [|exact Hinv']. exfalso.
  pose proof (li_data _ _ _ _ _ _ _ Hinv') as D'. rewrite Hf, Hdata, (li_data _ _ _ _ _ _ _ Hinv) in D'.
  rewrite !app_nil_r in D'. apply (f_equal length) in D'. rewrite length_app in D'.
  pose proof (encode_nonempty cmd Hcmd) as Hne. destruct (encode cmd); simpl in D'; [done|lia].
Qed.

(** A request adds what it records to the log, or breaks it. *)
Lemma live_log_write path s logs e req s' reply :
  live_log path s logs → wire_ok req → srv_ok s' →
  applyRecord e s req (commandName req) = Some (s', reply) →
  broken s' ∨ live_log path s' (logs ++ recorded req reply).
Proof.
  intros [Hs Hpath (a & pre & wr & synced & -> & Ha & He & Hinv & Hd & Htmp)] Hw Hs' E.
  pose proof (applyRecord_effects _ _ _ _ _ E (or_introl (mk_is_Some _ _ Ha))) as Heff.
  pose proof (applyRecord_path _ _ _ _ _ E) as Hp. rewrite Hpath in Hp. case_decide as Hr.
  { destruct Heff as (Hw' & Ha' & _). right. split; [done..|]. exists a, pre, wr, synced.
    rewrite Hr, app_nil_r, Hw', Ha'. by split_and!. }
  assert (recorded req reply = [req]) as -> by (unfold recorded in *; by destruct (_ && _)).
  destruct Heff as (Hw' & Ha' & _). unfold append_log in Hw', Ha'. rewrite Ha in Hw', Ha'.
  destruct (Append _ _ _ _ _) as [[w1 a1] ok] eqn:Ea. cbn in Hw', Ha'.
  destruct (Append_writes _ _ _ _ _ _ _ _ _ _ _ Hinv He Hw Ea) as [?|(He1 & Hd1 & Hf1 & sy1 & Hinv1)];
    [by left; exists a1|right]. split; [done..|].
  exists a1, pre, (wr ++ [req]), sy1. by rewrite Hw', Ha', Hd1, Hf1, app_assoc.
Qed.

(** The files of the log stay where they are, whatever an append does. *)
Lemma Append_files w a cmd accept sync w' a' ok :
  Append w a cmd accept sync = (w', a', ok) → (a_f a < length (inodes w))%nat →
  dir w' = dir w ∧ a_f a' = a_f a ∧ length (inodes w') = length (inodes w) ∧
  ((idurable (inode w (a_f a)) ≤ length (idata (inode w (a_f a))))%nat →
   (idurable (inode w' (a_f a)) ≤ length (idata (inode w' (a_f a))))%nat) ∧ (a_err a = true → w' = w ∧ a' = a).
Proof.
  unfold Append. destruct (a_err a) eqn:He; [by intros [= <- <- <-]|]. destruct (Encode cmd) as [out [err|]].
  { by intros [= <- <- <-]. }
  unfold Flush, fwrite, fsync. cbn [buffer a_err a_f a_buf a_counted a_mode]. rewrite He. intros E Hi.
  unfold inode, set_inode in *.
  repeat (case_match; simplify_eq/=); rewrite ?length_insert, ?list_lookup_insert_eq by (rewrite ?length_insert; lia);
    simpl; rewrite ?length_app; split_and!; try done; lia.
Qed.

Lemma live_log_sync path s logs ok : live_log path s logs → live_log path (sync_log s ok) logs.
Proof.
  intros [Hs Hp (a & pre & wr & sy & Hlogs & Ha & He & Hinv & Hd & Htmp)].
  destruct (sync_log_frame s ok) as (_ & _ & _ & E4).
  split; [by apply sync_log_ok|by rewrite E4|].
  destruct (log_inv_fsync _ _ _ _ _ _ _ ok Hinv) as (Hinv' & Hd' & _).
  unfold sync_log. rewrite Ha. cbn. eexists a, pre, wr, _. unfold syncEverySec_tick. rewrite Hd'.
  split_and!; [done..|by eapply log_inv_written|done|done].
Qed.

(** * The log of a run *)

(** What was recorded of the writes of a run. *)
Definition label_recorded (l : wlabel) : list Value :=
  match l with Committed req reply => recorded req reply | _ => [] end.

Definition recorded_all (tr : list wlabel) : list Value := concat (map label_recorded tr).

Lemma recorded_all_app tr tr' : recorded_all (tr ++ tr') = recorded_all tr ++ recorded_all tr'.
Proof. unfold recorded_all. by rewrite map_app, concat_app. Qed.

Lemma recorded_one l : recorded_all [l] = label_recorded l.
Proof. apply app_nil_r. Qed.

(** The content of the file of the log: the commands of the last rewrite
    that got as far as its rename, and the writes recorded since, in their
    order; but when that rewrite could not reopen the file (the boolean), the
    handle stays on the old one, and the writes since are missing. *)
Definition log_label (log : list Value * bool) (l : wlabel) : list Value * bool :=
  match l with
  | Committed req reply => (if log.2 then log.1 else log.1 ++ recorded req reply, log.2)
  | Rewrote tw records io =>
      if decide (replaced io) then (snapshot_cmds tw records, negb (r_reopen io)) else log
  | Shipped _ _ _ => log
  end.

Definition log_after (tr : list wlabel) : list Value * bool := foldl log_label ([], false) tr.

Definition log_of (tr : list wlabel) : list Value := (log_after tr).1.

(** The handle is on the file that the path names. *)
Definition attached (tr : list wlabel) : Prop := (log_after tr).2 = false.

Lemma log_after_app tr out : log_after (tr ++ out) = foldl log_label (log_after tr) out.
Proof. apply foldl_app. Qed.

(** What the log can take: requests and records that fit the wire. *)
Definition fits_label (l : wlabel) : Prop :=
  match l with
  | Committed req _ => wire_ok req
  | Shipped _ _ _ => True
  | Rewrote tw records _ => Forall wire_ok (snapshot_cmds tw records)
  end.

(** An event is a write or a rewrite, or it leaves the store and the log
    alone but for a sync; only a write records something. *)
Lemma seq_step_cases s ev s' out :
  srv_ok s → seq_step s ev = Some (s', out) →
  srv_ok s' ∧
  ((∃ e req reply, ev = SWrite e req ∧ out = [Committed req reply] ∧
      applyRecord e s req (commandName req) = Some (s', reply)) ∨
   s_db s' = s_db s ∧ recorded_all out = [] ∧
   ((∀ log, foldl log_label log out = log) ∧ ((∃ ok, s' = sync_log s ok) ∨ ∃ r, s' = with_replicas s r) ∨
    ∃ os dbs b tw io a wd a' ok, ev = SRewrite os dbs b tw io ∧ s_aof s = Some a ∧ copy_of b tw (s_db s) dbs ∧
      Rewrite (s_world s) a (s_aofPath s) tw (Snapshot os dbs b) io = Some (wd, a', ok) ∧
      s' = with_log s wd (Some a') ∧ out = [Rewrote tw (Snapshot os dbs b) io])).
Proof.
  intros Hs E. pose proof (sv_reps _ Hs) as Hreps.
  assert (∀ r, reps_ok r → srv_ok (with_replicas s r)) as Hr by (intros; split; [apply Hs|done|apply Hs]).
  destruct ev as [e req|ok|addr now|wok p|o o' now|os dbs b tw io|p|p now]; cbn [seq_step] in E.
  - destruct (applyRecord_ok e s req (commandName req) Hs) as (s1 & v1 & E1 & Hs1 & _).
    rewrite E1 in E. simplify_eq. split; [done|left]. by exists e, req, v1.
  - simplify_eq. split; [by apply sync_log_ok|right]. split_and!; [by apply sync_log_frame|done|left].
    split; [done|left]. by exists ok.
  - pose proof (Add_ok (s_replicas s) addr now Hreps) as Ha.
    destruct (Add (s_replicas s) addr now) as [r q] eqn:Ea. cbn [fst] in E. simplify_eq.
    split; [apply Hr, Ha|right]. split_and!; [done..|left]. split; [done|right]. by exists r.
  - unfold deliverReplica_step in E. pose proof (Feed_receive_spec (s_replicas s) p Hreps) as Hf.
    destruct (Feed_receive (s_replicas s) p) as [[f r]|]; simplify_eq.
    split; [apply Hr, Hf|right]. split_and!; [done..|left]. split; [done|right]. by exists r.
  - unfold runReplicaHeartbeat_tick, Heartbeat in E.
    destruct (Propagate_keeps o (s_replicas s) pingCommand Hreps) as (r & Ep & Hok & _). rewrite Ep in E. simplify_eq.
    split; [by apply Hr|right]. split_and!; [done..|left]. split; [done|right]. by exists r.
  - destruct (s_aof s) as [a|] eqn:Ea; [|done]. case_decide as Hc; [|done].
    destruct (Rewrite _ _ _ _ _ _) as [[[wd a'] ok]|] eqn:Er; simplify_eq.
    destruct (Rewrite_mode _ _ _ _ _ _ _ _ _ Er) as [Hm Htk]. split; [split; [apply Hs..|]|].
    + intros a1. cbn [with_log s_aof]. intros [= <-]. rewrite Hm, Htk. by apply (sv_log _ Hs).
    + right. split_and!; [done..|right]. by exists os, dbs, b, tw, io, a, wd, a', ok.
  - destruct (Remove _ _) as [r|] eqn:Er; simplify_eq. split; [by eapply Hr, Remove_reps|right].
    split_and!; [done..|left]. split; [done|right]. by exists r.
  - simplify_eq. split; [by apply Hr, Acked_ok|right]. split_and!; [done..|left]. split; [done|right]. by eexists.
Qed.

Lemma event_later t ev u : event_times t ev u → t ≤ u.
Proof. destruct ev; simpl; try lia. intros [Hc _]. specialize (Hc 0%nat). lia. Qed.

(** Where the log is: the handle is an inode of the file system, the path
    names a file, and there is no temporary one. *)
Record log_place (path : bytes) (s : Server) (a : AOF) : Prop := {
  lp_path : s_aofPath s = path;
  lp_log : s_aof s = Some a;
  lp_inode : (a_f a < length (inodes (s_world s)))%nat;
  lp_named : is_Some (dir (s_world s) !! path);
  lp_fs : fs_ok (s_world s) path;
  lp_tmp : dir (s_world s) !! (path ++ B ".tmp") = None;
  lp_buf : a_buf a = [] ∨ a_err a = true
}.

Lemma log_place_free path s a : log_place path s a → tmp_free (s_world s) a path.
Proof. intros [_ _ ? _ _ Ht _]. split; [done|]. intros i Hi. congruence. Qed.

(** The path names the inode [j], which holds these commands, and the handle
    is on another one. *)
Definition detached (path : bytes) (s : Server) (a : AOF) (logs : list Value) : Prop :=
  ∃ j, dir (s_world s) !! path = Some j ∧ j ≠ a_f a ∧
    idata (inode (s_world s) j) = encode_all logs ∧ Forall wire_ok logs.

(** The log has been left, is in error, or holds these commands. *)
Definition log_state (path : bytes) (s : Server) (log : list Value * bool) : Prop :=
  ∃ a, log_place path s a ∧
    if log.2 then detached path s a log.1
    else dir (s_world s) !! path = Some (a_f a) ∧ (a_err a = true ∨ live_log path s log.1).

Lemma log_place_files path s a :
  log_place path s a → dir (s_world s) !! path = Some (a_f a) → log_files path s a.
Proof. intros [? ? ? ? Hfs ? ?] Hd. destruct (Hfs _ Hd). by split. Qed.

Lemma log_files_place path s a : log_files path s a → a_buf a = [] ∨ a_err a = true → log_place path s a.
Proof. intros Hf Hb. pose proof (log_files_fs _ _ _ Hf). destruct Hf. by split. Qed.

Lemma live_log_state path s logs : live_log path s logs → log_state path s (logs, false).
Proof.
  intros Hl. destruct (live_log_files _ _ _ Hl) as (a & Hf & _ & Hb). exists a.
  split; [by apply log_files_place; [|left]|]. split; [apply Hf|by right].
Qed.

(** *** Writes *)

(** An append changes only the inode of its handle. *)
Lemma Append_local w a cmd accept sync w' a' ok :
  wire_ok cmd → Append w a cmd accept sync = (w', a', ok) → a_buf a = [] ∨ a_err a = true →
  (∀ j, j ≠ a_f a → inode w' j = inode w j) ∧ (a_buf a' = [] ∨ a_err a' = true).
Proof.
  intros Hw%wire_ok_Encode. unfold Append. destruct (a_err a) eqn:He; [by intros [= <- <- <-]; auto|].
  destruct (Encode cmd) as [out err]. simpl in Hw. subst err. unfold Flush, fwrite, fsync. cbn [buffer a_err a_f a_buf].
  rewrite He. intros E _. unfold inode, set_inode in *.
  repeat (case_match; simplify_eq/=); (split; [intros j Hj; by rewrite ?list_lookup_insert_ne|by auto]).
Qed.

Lemma log_place_append path e s req a :
  log_place path s a → wire_ok req →
  ∃ a', log_place path (append_log e s req) a' ∧ a_f a' = a_f a ∧ (a_err a = true → a_err a' = true) ∧
    dir (s_world (append_log e s req)) = dir (s_world s) ∧
    ∀ j, j ≠ a_f a → inode (s_world (append_log e s req)) j = inode (s_world s) j.
Proof.
  intros Hp Hw. destruct (Append (s_world s) a req (e_accept e) (e_sync e)) as [[w' a'] ok] eqn:E.
  destruct (Append_local _ _ _ _ _ _ _ _ Hw E (lp_buf _ _ _ Hp)) as [Hin Hb].
  destruct (Append_files _ _ _ _ _ _ _ _ E (lp_inode _ _ _ Hp)) as (E1 & E2 & E3 & E4 & E5).
  exists a'. unfold append_log. rewrite (lp_log _ _ _ Hp), E. cbn [with_log s_world s_aof s_aofPath].
  split_and!; [|done| |done|done].
  - split; cbn; rewrite ?E1, ?E2, ?E3; try apply Hp; [done| |done]. intros j Hj. rewrite E1 in Hj.
    destruct (lp_fs _ _ _ Hp j Hj) as [H1 H2]. rewrite E3. split; [done|].
    destruct (decide (j = a_f a)) as [->|Hne]; [by apply E4|by rewrite Hin].
  - intros Hb'. by destruct (E5 Hb') as [_ ->].
Qed.

Lemma log_place_same path s s' a :
  log_place path s a → s_aofPath s' = s_aofPath s → same_log s' s → log_place path s' a.
Proof. intros [] Hp [Hw Ha]. by split; rewrite ?Hp, ?Hw, ?Ha. Qed.

Lemma log_state_write path e s req s' reply log :
  srv_ok s' → applyRecord e s req (commandName req) = Some (s', reply) → wire_ok req →
  log_state path s log → log_state path s' (log_label log (Committed req reply)).
Proof.
  intros Hs' Ea Hw (a & Hp & Hlog).
  pose proof (applyRecord_path _ _ _ _ _ Ea) as Hpath.
  pose proof (applyRecord_effects _ _ _ _ _ Ea (or_introl (mk_is_Some _ _ (lp_log _ _ _ Hp)))) as Heff.
  assert (∃ a', log_place path s' a' ∧ a_f a' = a_f a ∧ (a_err a = true → a_err a' = true) ∧
    dir (s_world s') = dir (s_world s) ∧ ∀ j, j ≠ a_f a → inode (s_world s') j = inode (s_world s) j)
    as (a' & Hp' & Hf & He & Hd & Hin).
  { case_decide; destruct Heff as (Hw' & Ha' & _).
    - exists a. rewrite Hw'. split_and!; try done. by eapply log_place_same.
    - destruct (log_place_append path e s req a Hp Hw) as (a' & Hp' & H1 & H2 & H3 & H4). exists a'.
      rewrite Hw'. split_and!; try done. eapply log_place_same; [done|by rewrite Hpath, append_log_path|done]. }
  exists a'. split; [done|]. destruct log as [logs []]; cbn [log_label fst snd] in *.
  - destruct Hlog as (j & Hj & Hne & Hdat & Hwire). exists j. rewrite Hd, Hf, Hin by done. done.
  - rewrite Hd, Hf. destruct Hlog as [Hdir [Hb|Hlive]]; (split; [done|]); [by left; apply He|].
    destruct (live_log_write _ _ _ _ _ _ _ Hlive Hw Hs' Ea) as [(a1 & Ha1 & Hb)|?]; [left|by right].
    rewrite (lp_log _ _ _ Hp') in Ha1. by simplify_eq.
Qed.

(** *** Rewrites *)

(** A rewrite replaces the file when its calls up to the rename succeed, and
    moves the handle to it when the reopen does. *)
Lemma log_state_rewrite path os dbs b tw io s a wd a' ok log :
  srv_ok s → db_ok dbs → s_aof s = Some a →
  Rewrite (s_world s) a (s_aofPath s) tw (Snapshot os dbs b) io = Some (wd, a', ok) →
  fits_label (Rewrote tw (Snapshot os dbs b) io) → log_state path s log →
  log_state path (with_log s wd (Some a')) (log_label log (Rewrote tw (Snapshot os dbs b) io)).
Proof.
  intros Hs Hoks Ha Er Hw (a0 & Hp & Hlog). cbn [fits_label] in Hw.
  rewrite (lp_log _ _ _ Hp) in Ha. injection Ha as ->. rewrite (lp_path _ _ _ Hp) in Er.
  pose proof (Snapshot_records os dbs b Hoks) as Hrs. pose proof (log_place_free _ _ _ Hp) as Hfree.
  pose proof (writeSnapshot_cmds _ _ Hrs Hw) as Hws. cbn [log_label].
  destruct (decide (replaced io)) as [Hrep|Hrep]; [destruct (r_reopen io) eqn:Hre; cbn [negb]|].
  - destruct (Rewrite_succeeds _ _ _ _ _ _ _ Hfree (lp_fs _ _ _ Hp) (conj Hrep Hre) (lp_buf _ _ _ Hp) Hws Hw)
      as (w2 & a2 & E2 & Hinv2 & Hd2 & Htmp2 & _ & _ & _ & _ & _ & He2). rewrite Er in E2. simplify_eq.
    apply live_log_state. destruct (Rewrite_mode _ _ _ _ _ _ _ _ _ Er) as [Hm Htk]. split; [|apply Hp|].
    + split; [apply Hs..|]. intros a1. cbn [with_log s_aof]. intros [= <-]. rewrite Hm, Htk. by apply (sv_log _ Hs), Hp.
    + eexists a2, _, [], []. by rewrite app_nil_r.
  - destruct (Rewrite_no_reopen _ _ _ _ _ _ _ Hfree (lp_fs _ _ _ Hp) Hrep Hre Hws)
      as (w2 & i & E2 & Hi & Hin & Hlt & Htmp & Hlen & Hd). rewrite Er in E2. simplify_eq.
    exists a. split.
    + split; cbn; [apply Hp|done|pose proof (lp_inode _ _ _ Hp); lia|by eexists| |done|apply Hp].
      intros k Hk. rewrite Hi in Hk. simplify_eq. by rewrite Hin.
    + exists i. cbn. rewrite Hin. split_and!; [done| |done|done]. intros ->. by destruct (Hd path) as [?|[_ ?]].
  - rewrite <-(Rewrite_not_replaced _ _ _ _ _ _ Hrep) in Er.
    destruct ok; [by apply Rewrite_true_ok in Er as [? _]|].
    assert (r_reopen (reopening io) = true) as Hre by done.
    destruct (Rewrite_fails _ _ _ _ _ _ _ _ Hfree (lp_fs _ _ _ Hp) Hre Er) as (-> & _ & Hin & Hpath).
    destruct (Rewrite_fails_clean _ _ _ _ _ _ _ _ (lp_tmp _ _ _ Hp) Hre Er) as [Htmp Hlen]. exists a.
    assert (log_place path (with_log s wd (Some a)) a) as Hp'.
    { destruct (lp_named _ _ _ Hp) as [j Hj]. destruct (Hpath j Hj) as [Hj' Hij]. destruct (lp_fs _ _ _ Hp j Hj) as [H1 H2].
      split; cbn; [apply Hp|done|pose proof (lp_inode _ _ _ Hp); lia|by eexists| |done|apply Hp].
      intros k Hk. rewrite Hj' in Hk. simplify_eq. rewrite Hij. split; [lia|done]. }
    split; [done|]. destruct log as [logs []]; cbn [fst snd] in *.
    + destruct Hlog as (j & Hj & Hne & Hdat & Hwire). destruct (Hpath j Hj) as [Hj' Hij]. exists j. cbn. by rewrite Hij.
    + destruct Hlog as [Hdir Hlog]. split; [by apply Hpath|]. destruct Hlog as [?|Hlive]; [by left|right].
      destruct (live_log_rewrite _ _ _ _ _ _ _ _ _ Hs (log_place_files _ _ _ Hp Hdir) (lp_buf _ _ _ Hp) Hre Hrs Hw Er)
        as (_ & _ & _ & Hl). by apply Hl.
Qed.

Lemma log_state_sync path s log ok : log_state path s log → log_state path (sync_log s ok) log.
Proof.
  intros (a & Hp & Hlog). exists a. pose proof (lp_log _ _ _ Hp) as Ha.
  assert (dir (s_world (sync_log s ok)) = dir (s_world s) ∧
          ∀ j, idata (inode (s_world (sync_log s ok)) j) = idata (inode (s_world s) j)) as [Hd Hin].
  { unfold sync_log. rewrite Ha. unfold syncEverySec_tick, fsync. destruct ok; [|done]. split; [done|]. intros j.
    cbn. unfold inode, set_inode. cbn. destruct (decide (j = a_f a)) as [->|Hj]; [|by rewrite list_lookup_insert_ne].
    by rewrite list_lookup_insert_eq by apply Hp. }
  assert (log_place path (sync_log s ok) a) as Hp'.
  { unfold sync_log in *. rewrite Ha in *. unfold syncEverySec_tick, fsync in *. destruct ok; [|destruct Hp; by split].
    split; cbn in *; [apply Hp|done|rewrite length_insert; apply Hp|apply Hp| |apply Hp|apply Hp].
    intros j Hj. cbn in Hj |- *. destruct (lp_fs _ _ _ Hp j Hj) as [H1 H2]. rewrite length_insert. split; [done|].
    destruct (decide (j = a_f a)) as [->|Hne]; [by rewrite inode_set_eq|].
    unfold inode in *. cbn. by rewrite list_lookup_insert_ne. }
  split; [done|]. destruct log as [logs []]; cbn [fst snd] in *.
  - destruct Hlog as (j & Hj & Hne & Hdat & Hw). exists j. by rewrite Hd, Hin.
  - rewrite Hd. destruct Hlog as [Hdir [?|Hlive]]; (split; [done|]); [by left|right; by apply live_log_sync].
Qed.

Lemma log_state_step path t u s ev s' out log :
  srv_ok s → seq_step s ev = Some (s', out) → event_times t ev u → Forall fits_label out →
  log_state path s log → srv_ok s' ∧ log_state path s' (foldl log_label log out).
Proof.
  intros Hs Est Het Hok Hlog. destruct (seq_step_cases _ _ _ _ Hs Est) as [Hs2 Hc]. split; [done|].
  destruct Hc as [(e & req & reply & -> & -> & Ea)|(Hdb & _ & Hc)].
  { rewrite Forall_singleton in Hok. by eapply log_state_write. }
  destruct Hc as [(-> & Hc)|(os & dbs & b & tw & io & a & wd & a' & ok & -> & Ha & Hcopy & Er & -> & ->)].
  - destruct Hc as [[ok ->]|[r ->]]; [by apply log_state_sync|]. destruct Hlog as (a & Hp & Hlog). exists a.
    split; [by eapply log_place_same|]. destruct log as [logs []]; [done|]. destruct Hlog as [? [?|Hlive]];
      (split; [done|]); [by left|right; by destruct Hlive; split].
  - rewrite Forall_singleton in Hok. destruct Het as [Hoks _]. by eapply log_state_rewrite.
Qed.

Lemma sequential_log path t s evs s' tr t' :
  live_log path s [] → sequential s evs = Some (s', tr) → write_times t evs t' → Forall fits_label tr →
  log_state path s' (log_after tr).
Proof.
  intros Hl Hseq Hts Hok. enough (srv_ok s' ∧ log_state path s' (log_after tr)) as [_ ?] by done.
  revert Hseq Hts Hok. apply (sequential_invariant (λ _ s tr, srv_ok s ∧ log_state path s (log_after tr))); [done| |].
  - intros t1 u s1 tr1 ev s2 out [Hs1 Hl1] Est Het Hok. rewrite log_after_app. by eapply log_state_step.
  - split; [apply Hl|by apply live_log_state].
Qed.

(** The file, unless the log is in error. *)
Lemma log_state_file path s log :
  log_state path s log → ¬ broken s →
  file (s_world s) path = Some (encode_all log.1) ∧ Forall wire_ok log.1.
Proof.
  intros (a & Hp & Hlog) Hb. destruct log as [logs []]; cbn [fst snd] in *.
  - destruct Hlog as (j & Hj & _ & Hdat & Hw). split; [|done]. unfold file. by rewrite Hj, Hdat.
  - destruct Hlog as [_ [He|Hlive]]; [|by apply live_log_file]. destruct Hb. exists a. split; [apply Hp|done].
Qed.

(** * The concurrent server and its log *)

(** Some goroutine has logged a write that it has not propagated yet. *)
Definition in_flight (w : wserver) (req reply : Value) : Prop :=
  ∃ i, w_gors w !! i = Some (Propagating req reply).

(** Some goroutine has copied the store and is inside [Rewrite]. *)
Definition rewriting (w : wserver) (out : list SnapshotEntry) : Prop :=
  ∃ i os b, w_gors w !! i = Some (Compacting (CCopying os b (Z.to_nat shardCount) out)).

(** The file system a kill leaves behind, and the writes and rewrites that
    count: those of the run, the write that is logged and not propagated,
    and the rewrite whose rename has happened; not the write of which only
    some bytes have reached the log. *)
Inductive killed (w : wserver) (tr : list wlabel) : World → list wlabel → Prop :=
  | K_between :
      (∀ req v, ¬ in_flight w req v) → killed w tr (s_world (w_srv w)) tr
  | K_logged req v :
      in_flight w req v → killed w tr (s_world (w_srv w)) (tr ++ [Committed req v])
  | K_torn i req v a k :
      w_gors w !! i = Some (Appending req v) → s_aof (w_srv w) = Some a → wire_ok req →
      (k < length (encode req))%nat →
      killed w tr (fwrite (s_world (w_srv w)) (a_f a) (encode req) (Some k)).1 tr
  | K_writing out wd :
      rewriting w out → mid_rewrite (s_world (w_srv w)) (s_aofPath (w_srv w)) (w_now w) out wd false →
      killed w tr wd tr
  | K_renamed out wd :
      rewriting w out → mid_rewrite (s_world (w_srv w)) (s_aofPath (w_srv w)) (w_now w) out wd true →
      killed w tr wd (tr ++ [Rewrote (w_now w) out io_ok]).

Lemma rewriting_alone last s w out req v : path_inv last s w → rewriting w out → ¬ in_flight w req v.
Proof.
  intros Hinv (i & os & b & Hi) [j Hj].
  pose proof (go_one _ _ _ _ _ _ (pi_gors _ _ _ Hinv) i _ j _ Hi ltac:(done) Hj I) as ->. congruence.
Qed.

(** At any moment the log is that of a sequential server: of the committed
    writes and the rewrites, *)
Lemma log_sequential last s w :
  path_inv last s w → (∀ req v, ¬ in_flight w req v) → same_log (w_srv w) s.
Proof.
  intros Hinv Hn. apply (go_log _ _ _ _ _ _ (pi_gors _ _ _ Hinv)). intros i g Hi Hg.
  destruct g as [| | | | | |req v| | |]; try done. apply (Hn req v). by exists i.
Qed.

(** or of these and the write in flight. *)
Lemma logged_sequential last s w req v :
  path_inv last s w → in_flight w req v →
  w_mu w = true ∧
  ∃ evs s', sequential s evs = Some (s', [Committed req v]) ∧ write_times last evs (w_now w) ∧ same_log (w_srv w) s'.
Proof.
  intros Hinv [i Hi]. destruct w as [t c mu gs r]. simpl in *.
  pose proof (held_mu _ _ _ _ _ _ _ _ _ Hinv Hi I) as ->. split; [done|].
  destruct (Propagate_keeps order_id (s_replicas c) req) as (reps & Hreps & _).
  { pose proof (pi_feeds _ _ _ Hinv) as Hf. simpl in Hf. rewrite Hf. apply (pi_srv _ _ _ Hinv). }
  destruct (path_inv_commit _ _ _ _ _ _ _ _ _ _ _ Hinv Hi Hreps) as (evs' & s2 & E' & Hts' & Hinv').
  exists evs', s2. split_and!; [done..|].
  assert (<[i := Unlocking v]> gs !! i = Some (Unlocking v)) as Hi'
    by (apply list_lookup_insert_eq; by eapply lookup_lt_Some).
  by apply (held_log _ _ _ _ _ _ _ _ _ Hinv' Hi' I (λ x, x)).
Qed.

(** A rewrite that is stopped after its rename leaves the file of one that
    succeeds. *)
Lemma renamed_sequential path last s w out wd log :
  path_inv last s w → rewriting w out → log_state path s log →
  mid_rewrite (s_world (w_srv w)) (s_aofPath (w_srv w)) (w_now w) out wd true →
  fits_label (Rewrote (w_now w) out io_ok) →
  w_mu w = true ∧
  ∃ evs s', sequential s evs = Some (s', [Rewrote (w_now w) out io_ok]) ∧ write_times last evs (w_now w) ∧
    ¬ broken s' ∧ file wd path = file (s_world s') path.
Proof.
  intros Hinv (i & os & b & Hi) (a & Hf & _) Hm Hw. destruct w as [t c mu gs r]. simpl in *.
  pose proof (lp_buf _ _ _ Hf) as Hbuf.
  pose proof (held_mu _ _ _ _ _ _ _ _ _ Hinv Hi ltac:(done)) as ->. split; [done|].
  destruct (held_log _ _ _ _ _ _ _ _ _ Hinv Hi ltac:(done) (λ x, x)) as [Hcw Hca].
  pose proof (pi_path _ _ _ Hinv) as Hp. simpl in Hp.
  destruct (go_at _ _ _ _ _ _ (pi_gors _ _ _ Hinv) i _ Hi) as (H1 & H2 & H3 & db0 & H4 & H5).
  destruct (copying_done _ _ _ _ _ _ H2 H5) as (dbs & Hok & -> & Hsub & Hv). cbn [w_now] in *.
  rewrite Hcw, Hp, (lp_path _ _ _ Hf) in Hm.
  pose proof (log_place_free _ _ _ Hf) as Hfree. pose proof (lp_fs _ _ _ Hf) as Hfs.
  pose proof (writeSnapshot_cmds _ _ (Snapshot_records os dbs b Hok) Hw) as Hws.
  destruct (Rewrite_succeeds (s_world s) a path t (Snapshot os dbs b) io_ok (snapshot_cmds t (Snapshot os dbs b)))
    as (wd1 & a1 & E1 & _ & Hd1 & _ & Hdat & _ & _ & _ & _ & He1); [done..|].
  destruct (path_inv_rewrite last s t c true gs r i os b (Snapshot os dbs b) a io_ok wd1 a1 true) as (evs & s' & last' & Es & Hts & Hinv').
  { done. } { done. } { by rewrite Hca, (lp_log _ _ _ Hf). } { by rewrite Hcw, Hp, (lp_path _ _ _ Hf). }
  destruct (held_log _ _ _ _ _ _ _ i (Compacting CWritten) Hinv') as [Hw1 Ha1];
    [apply list_lookup_insert_eq; by eapply lookup_lt_Some|done|by intros []|]. cbn in Hw1, Ha1.
  exists evs, s'. split_and!; [done|by eapply write_times_until; [apply (pi_last _ _ _ Hinv')|]| |].
  - intros (a2 & Ha2 & He2). congruence.
  - destruct (mid_rewrite_file _ _ _ _ _ _ _ Hfree Hfs Hm) as (bs & Hbs & ->). unfold file.
    rewrite <-Hw1, Hd1, Hdat. congruence.
Qed.

(** A write that is being appended: some bytes after the log, or after the
    file the handle was left on. *)
Lemma torn_sequential last s w i req v a k path :
  path_inv last s w → w_gors w !! i = Some (Appending req v) → s_aof (w_srv w) = Some a → wire_ok req →
  (k < length (encode req))%nat → log_place path s a →
  ¬ w_mu w = false ∧ same_log (w_srv w) s ∧
  ∃ tail, torn tail ∧ file (fwrite (s_world (w_srv w)) (a_f a) (encode req) (Some k)).1 path
    = (λ bs, bs ++ tail) <$> file (s_world s) path.
Proof.
  intros Hinv Hi Ha Hwr Hk Hf. destruct w as [t c mu gs r]. simpl in *.
  pose proof (held_mu _ _ _ _ _ _ _ _ _ Hinv Hi I) as ->.
  destruct (held_log _ _ _ _ _ _ _ _ _ Hinv Hi I (λ x, x)) as [Hw Ha'].
  split_and!; [done..|]. rewrite Hw. destruct (lp_named _ _ _ Hf) as [j Hj].
  unfold file, fwrite. cbn [fst set_inode dir]. rewrite Hj. cbn [fmap option_fmap option_map].
  destruct (decide (j = a_f a)) as [->|Hne].
  - exists (take k (encode req)). rewrite inode_set_eq by apply Hf. split; [|done].
    destruct (torn_take req k Hwr) as [?|E]; [done|]. apply (f_equal length) in E. rewrite length_take in E. lia.
  - exists []. split; [by left|]. unfold inode. cbn. by rewrite list_lookup_insert_ne, app_nil_r.
Qed.

(** What a kill leaves behind is the log of a sequential server, and at most
    a torn frame. *)
Lemma killed_sequential path t0 s0 n tr w wd tr' :
  live_log path s0 [] →
  runs pstep (path_init t0 s0 n) tr w → killed w tr wd tr' → ¬ broken (w_srv w) → Forall fits_label tr' →
  ∃ evs s1 tail, sequential s0 evs = Some (s1, tr') ∧ write_times t0 evs (w_now w) ∧ ¬ broken s1 ∧ torn tail ∧
    file wd path = (λ bs, bs ++ tail) <$> file (s_world s1) path ∧
    (w_mu w = false → tr' = tr ∧ view (w_now w) (s_db s1) = view (w_now w) (s_db (w_srv w))).
Proof.
  intros Hl Hr Hk Hb Hok.
  destruct (live_log_files _ _ _ Hl) as (a0 & Hf0 & _).
  destruct (path_reachable _ _ _ _ _ (ll_srv _ _ _ Hl) (mk_is_Some _ _ (lf_log _ _ _ Hf0)) Hr) as (evs & s1 & last & Es & Hts & Hinv).
  pose proof (write_times_until _ _ _ _ (pi_last _ _ _ Hinv) Hts) as Hts1.
  assert (∀ s, same_log (w_srv w) s → ¬ broken s) as Hnb
    by (intros s [_ Ha] (a & Ha' & He); apply Hb; exists a; by rewrite Ha).
  assert (∀ wd wd' : World, file wd path = file wd' path → file wd path = (λ bs, bs ++ []) <$> file wd' path) as Hnil
    by (intros wd1 wd2 ->; destruct (file wd2 path); simpl; by rewrite ?app_nil_r).
  assert (∀ wd wd' : World, wd = wd' → file wd path = file wd' path) as Heq by by intros ? ? ->.
  assert (torn []) as Ht0 by by left.
  assert (w_mu w = false → view (w_now w) (s_db s1) = view (w_now w) (s_db (w_srv w))) as Hfree
    by (intros Hmu; by rewrite (pi_free _ _ _ Hinv Hmu)).
  assert (Forall fits_label tr → log_state path s1 (log_after tr)) as Hst by (intros Htr; by eapply sequential_log).
  destruct Hk as [Hq|req v Hin|i req v a k Hi Ha Hwr Hk|out wd1 Hrw Hm|out wd1 Hrw Hm].
  - pose proof (log_sequential _ _ _ Hinv Hq) as Hs. exists evs, s1, []. split_and!; [done..|by apply Hnb|done| |naive_solver].
    apply Hnil, Heq, Hs.
  - destruct (logged_sequential _ _ _ _ _ Hinv Hin) as (Hmu & evs' & s' & E' & Hts' & Hs).
    exists (evs ++ evs'), s', []. split_and!; [by eapply sequential_app|by apply (write_times_app _ _ last)|by apply Hnb|done| |by rewrite Hmu].
    apply Hnil, Heq, Hs.
  - destruct (Hst Hok) as (a1 & Hf & _).
    destruct (log_sequential _ _ _ Hinv) as [Hw Ha1]; [intros req' v' [j Hj]|].
    { pose proof (go_one _ _ _ _ _ _ (pi_gors _ _ _ Hinv) i _ j _ Hi I Hj I) as ->. congruence. }
    rewrite Ha, (lp_log _ _ _ Hf) in Ha1. injection Ha1 as <-.
    destruct (torn_sequential _ _ _ _ _ _ _ _ _ Hinv Hi Ha Hwr Hk Hf) as (Hmu & Hs & tail & Htorn & Hfile).
    exists evs, s1, tail. split_and!; [done..|by apply Hnb|done|done|done].
  - pose proof (log_sequential _ _ _ Hinv (λ req v, rewriting_alone _ _ _ _ req v Hinv Hrw)) as Hs.
    destruct (Hst Hok) as (a & Hf & _).
    exists evs, s1, []. split_and!; [done..|by apply Hnb|done| |naive_solver]. apply Hnil.
    destruct Hs as [Hsw _]. pose proof (pi_path _ _ _ Hinv) as Hp. rewrite Hsw, Hp, (lp_path _ _ _ Hf) in Hm.
    exact (mid_rewrite_file _ a _ _ _ _ _ (log_place_free _ _ _ Hf) (lp_fs _ _ _ Hf) Hm).
  - apply Forall_app in Hok as [Hok1 Hok2]. apply Forall_cons in Hok2 as [Hok2 _].
    destruct (renamed_sequential path last s1 w out wd1 _ Hinv Hrw (Hst Hok1) Hm Hok2)
      as (Hmu & evs' & s' & E' & Hts' & Hb' & Hfm).
    exists (evs ++ evs'), s', []. split_and!; [by eapply sequential_app|by apply (write_times_app _ _ last)|done|done|by apply Hnil|by rewrite Hmu].
Qed.

(** Restarted on it, the server replays these commands. *)
Lemma killed_replays path t0 s0 n tr w wd tr' (clk : clock) (o o' : map_order) mode :
  live_log path s0 [] → runs pstep (path_init t0 s0 n) tr w → killed w tr wd tr' → ¬ broken (w_srv w) →
  Forall fits_label tr' →
  ∃ evs s1 tail s2, sequential s0 evs = Some (s1, tr') ∧ write_times t0 evs (w_now w) ∧
    file wd path = Some (encode_all (log_of tr') ++ tail) ∧ torn tail ∧
    loadAOF (replay_env o o' clk) (NewMulti wd path mode []) (read_log wd path) true true = Some s2 ∧
    s_db s2 = replay_along o clk 0 (log_of tr') newDB ∧
    (w_mu w = false → tr' = tr ∧ view (w_now w) (s_db s1) = view (w_now w) (s_db (w_srv w))).
Proof.
  intros Hl Hr Hk Hb Hok.
  destruct (killed_sequential path t0 s0 n tr w wd tr' Hl Hr Hk Hb Hok) as (evs & s1 & tail & H1 & H2 & H3 & H4 & H5 & H6).
  destruct (log_state_file _ _ _ (sequential_log _ _ _ _ _ _ _ Hl H1 H2 Hok) H3) as [Hlf Hwire].
  rewrite Hlf in H5. cbn in H5.
  destruct (loadAOF_file o o' clk wd path _ tail mode [] H5 Hwire H4) as (s2 & E2 & Hdb).
  by exists evs, s1, tail, s2.
Qed.
End crash_log.

(** * Concrete runs *)

(** A key gets a long time to live and another a value of 64 KiB, so that the
    log is rewritten; half of the shards are copied, time passes, a [GET]
    runs, the rest is copied; a [SET] waits for the lock; and the process is
    killed after the rename of the new log. *)
Definition large : bytes := replicate (Z.to_nat minRewriteSize) x00.

Definition killed_at : list move :=
  [MCall 0 (request [B "SET"; B "y"; B "v"])] ++ replicate 8 (MGo 0) ++
  [MCall 0 (request [B "EXPIRE"; B "y"; B "100"])] ++ replicate 8 (MGo 0) ++
  [MCall 0 (request [B "SET"; B "x"; large])] ++ replicate 8 (MGo 0) ++
  [MCompact 1; MCall 0 (request [B "SET"; B "k"; B "new"]); MGo 0; MGo 1; MGo 1] ++ replicate 16 (MGo 1) ++
  [MTick 5; MCall 2 (request [B "GET"; B "y"]); MGo 2; MGo 2] ++ replicate 16 (MGo 1).

Definition killed_trace : list wlabel :=
  [Committed (request [B "SET"; B "y"; B "v"]) okValue; Committed (request [B "EXPIRE"; B "y"; B "100"]) (IntegerV 1);
   Committed (request [B "SET"; B "x"; large]) okValue].

(** The records of a rewrite of goroutine 1, if it is about to write them. *)
Definition about_to_write (w : wserver) : option (list SnapshotEntry) :=
  match w_gors w !! 1%nat with
  | Some (Compacting (CCopying _ _ n out)) => if decide (n = Z.to_nat shardCount) then Some out else None
  | _ => None
  end.

Lemma about_to_write_rewriting w out : about_to_write w = Some out → rewriting w out.
Proof.
  unfold about_to_write, rewriting. intros E. exists 1%nat.
  destruct (w_gors w !! 1%nat) as [[| | | | | | | | |[| |os b n out'|]]|]; try done.
  case_decide; [|done]. simplify_eq. by exists os, b.
Qed.

Section checks.
Context `{GoUnicode}.

Definition fitsb (l : wlabel) : bool :=
  match l with
  | Committed req _ => wire_okb req
  | Shipped _ _ _ => true
  | Rewrote tw records _ => forallb wire_okb (snapshot_cmds tw records)
  end.

Lemma fitsb_sound l : fitsb l = true → fits_label l.
Proof.
  destruct l as [req v| |tw rs io]; simpl; [apply wire_okb_sound|done|]. by apply wire_okb_all.
Qed.
End checks.

(** A property of every element, decided. *)
Lemma forallb_Forall {A} (f : A → bool) (P : A → Prop) l :
  (∀ x, f x = true → P x) → forallb f l = true → Forall P l.
Proof.
  intros Hf Hl. apply Forall_forall. intros x Hx. apply list_elem_of_In in Hx.
  by apply Hf, (proj1 (forallb_forall _ _) Hl).
Qed.

(** The run reaches the point between rename and reopen. *)
Lemma killed_at_runs :
  ∃ w out wd', runs (@pstep plain_unicode) (path_init 0 logging_server 3) killed_trace w ∧ w_now w = 5 ∧
    ¬ broken (w_srv w) ∧ rewriting w out ∧
    mid_rewrite (s_world (w_srv w)) (s_aofPath (w_srv w)) (w_now w) out wd' true ∧
    Forall fits_label (killed_trace ++ [Rewrote 5 out io_ok]).
Proof.
  assert ((λ x : list wlabel * wserver, (x.1, w_now x.2, a_err <$> s_aof (w_srv x.2),
      (λ out, (forallb (λ r, if decide (recordValue r = None) then false else true) out,
               forallb fitsb (x.1 ++ [Rewrote 5 out io_ok]))) <$> about_to_write x.2)) <$>
    drive (@perform_move plain_unicode) killed_at (path_init 0 logging_server 3)
    = Some (killed_trace, 5, Some false, Some (true, true))) as Ed.
  { vm_cast_no_check (eq_refl (Some (killed_trace, 5, Some false, Some (true, true)))). }
  destruct (drive _ killed_at _) as [[tr w]|] eqn:Er; [|discriminate Ed].
  cbn [fmap option_fmap option_map fst snd] in Ed.
  destruct (about_to_write w) as [out|] eqn:Eo; [|discriminate Ed].
  injection Ed as -> Ht He Hrec Hok. apply moves_run in Er. apply about_to_write_rewriting in Eo.
  assert (Forall fits_label (killed_trace ++ [Rewrote 5 out io_ok])) as Hl by (by eapply forallb_Forall, Hok; apply fitsb_sound).
  assert (Forall (λ r, recordValue r ≠ None) out) as Hr.
  { eapply forallb_Forall, Hrec. intros r Hd. simpl in Hd. by case_decide. }
  apply Forall_app in Hl as Hl2. destruct Hl2 as [_ Hl2]. apply Forall_cons in Hl2 as [Hw _].
  destruct (open_trunc (s_world (w_srv w)) (s_aofPath (w_srv w) ++ B ".tmp")) as [w1 i] eqn:Et.
  pose proof (M_renamed _ _ 5 out w1 i _ Et (writeSnapshot_cmds 5 out Hr Hw)) as Hm. rewrite <-Ht in Hm at 1.
  eexists w, out, _. split_and!; [exact Er|exact Ht| |exact Eo|exact Hm|exact Hl].
  intros (a & Ha & Hb). rewrite Ha in He. injection He as He. congruence.
Qed.

(** * Properties *)

(** C6: the log is exact under concurrency.  Goroutines serve any requests
    on a server that started with an empty log, the log is rewritten while
    they do, and any append, fsync or call of a rewrite may fail.  The process
    is killed at any step of any of them, also inside an append, with part of
    the frame in the file, and inside a rewrite, with the temporary file
    partly written, or renamed and not reopened; at that moment the writer of
    the log is not in error (a failed append leaves it so until the next
    successful rewrite).  Then the file holds the commands of the last rewrite
    that renamed its file over the log, and, if that rewrite reopened the
    file, the writes recorded since then in the order they were committed,
    each once, the one that was logged and not yet propagated among them, and
    at most part of one more; if it did not, none of the later ones.  A
    restart, whatever its clock reads, succeeds and applies exactly these
    commands to an empty store.  Requests and records must fit the wire. *)
Theorem concurrent_log_exact `{GoUnicode} wd path mode w0 a0 t0 n tr w wd' tr' (o o' : map_order) clk :
  let s0 := with_log (NewMulti wd path mode []) w0 (Some a0) in
  fs_ok wd path → file wd path = None → dir wd !! (path ++ B ".tmp") = None →
  Open wd path mode true true = (w0, Some a0) →
  runs pstep (path_init t0 s0 n) tr w → killed w tr wd' tr' → ¬ broken (w_srv w) → Forall fits_label tr' →
  ∃ tail s2, file wd' path = Some (encode_all (log_of tr') ++ tail) ∧ torn tail ∧
    loadAOF (replay_env o o' clk) (NewMulti wd' path mode []) (read_log wd' path) true true = Some s2 ∧
    s_db s2 = replay_along o clk 0 (log_of tr') newDB.
Proof.
  intros s0 Hfs Hfile Htmp Ho Hr Hk Hb Hok. assert (live_log path s0 []) as Hl0 by by apply live_log_start.
  destruct (killed_replays path t0 s0 n tr w wd' tr' clk o o' mode Hl0 Hr Hk Hb Hok)
    as (evs & s1 & tail & s2 & _ & _ & H3 & H4 & H5 & H6 & _). by exists tail, s2.
Qed.

Lemma concurrent_log_exact_witness :
  ∃ out wd' tail s2, file wd' (B "aof") = Some (encode_all (snapshot_cmds 5 out) ++ tail) ∧
    @loadAOF plain_unicode (replay_env order_id order_id (λ i, Z.of_nat i)) (NewMulti wd' (B "aof") FsyncAlways [])
      (read_log wd' (B "aof")) true true = Some s2 ∧
    s_db s2 = @replay_along plain_unicode order_id (λ i, Z.of_nat i) 0 (snapshot_cmds 5 out) newDB.
Proof.
  destruct killed_at_runs as (w & out & wd' & Er & Ht & Hb & Hrw & Hm & Hok). exists out, wd'.
  rewrite <-Ht in Hok.
  destruct (@concurrent_log_exact plain_unicode empty_world (B "aof") FsyncAlways log_world log_handle 0 3
    killed_trace w wd' _ order_id order_id (λ i, Z.of_nat i)
    (ltac:(intros j Hj; vm_compute in Hj; discriminate Hj)) eq_refl eq_refl eq_refl Er
    (K_renamed w killed_trace out wd' Hrw Hm) Hb Hok) as (tail & s2 & H1 & _ & H2 & H3).
  assert (@log_of plain_unicode (killed_trace ++ [Rewrote (w_now w) out io_ok]) = snapshot_cmds 5 out) as El.
  { unfold log_of. rewrite log_after_app, Ht. cbn [foldl log_label]. by rewrite decide_True by (repeat split). }
  rewrite El in H1, H3.
  exists tail, s2. split; [exact H1|]. split; [exact H2|exact H3].
Defined.
