(* ===== verification/CrashPoints.v ===== *)
(** Recovery of the concurrent server of [WritePath] with times to live: the
    log of [CrashLog], replayed before any deadline passes, gives back the
    keyspace. *)

From S2P Require Import Prelude Lts GoLib Protocol ProtocolFacts PubSub Store Db Spec Refine Expiry.
From S2P Require Import History Concurrent Cmd CmdFacts CmdSpec Replay Aof AofFacts Snapshot Compaction.
From S2P Require Import Replication Server ServerFacts Feed WritePath WritePathFacts Recovery Deadlines CrashLog.

Section crash_points.
Context `{GoUnicode}.

(** * Commands before any deadline passes *)

(** The deadlines lie after [E], and at most the longest duration ahead. *)
Definition long_lived (E t : Z) (m : astate) : Prop :=
  map_Forall (λ _ a, ∀ x, a_exp a = Some x → E < x ∧ x ≤ t + max_int64) m.

Lemma long_lived_purge E t u m : long_lived E t m → u ≤ E → purge u m = m.
Proof.
  intros Hm Hu. apply map_eq. intros k. rewrite purge_lookup. destruct (m !! k) as [a|] eqn:Ek; [|done].
  simpl. rewrite decide_True; [done|]. unfold alive. destruct (a_exp a) as [x|] eqn:Ex; [|done].
  destruct (Hm k a Ek x Ex). lia.
Qed.

Lemma long_lived_later E t u db :
  db_ok db → long_lived E t (view t db) → t ≤ u → u ≤ E → view u db = view t db.
Proof. intros Hok Hm Ht Hu. rewrite (view_ages t) by done. by eapply long_lived_purge. Qed.

Lemma long_lived_mono E t u m : t ≤ u → long_lived E t m → long_lived E u m.
Proof.
  intros Ht Hm. eapply map_Forall_impl; [exact Hm|]. intros k a Ha x Hx. destruct (Ha x Hx). lia.
Qed.

(** A request that can be carried on the wire and sets no deadline that, from
    [t0] on, is reached up to [E]. *)
Definition lasting (t0 E : Z) (req : Value) : Prop :=
  wire_ok req ∧ ∀ k d, request_op req = Some (OExpire k d) → d ≤ 0 ∨ E < t0 + d.

Lemma long_lived_dels E t m ks : long_lived E t m → long_lived E t (foldl (λ m k, delete k m) m ks).
Proof. revert m. induction ks as [|k ks IH]; intros m Hm; [done|]. by apply IH, map_Forall_delete. Qed.

Lemma spec_long_lived E now x m :
  (∀ k d, x = OExpire k d → d ≤ 0 ∨ E < now + d ∧ d ≤ max_int64) →
  long_lived E now m → long_lived E now (spec_op now x m).1.
Proof.
  intros Hx Hm. destruct x; simpl; try done; try (by apply long_lived_dels).
  all: try (apply map_Forall_insert_2; done).
  all: unfold spec_push, spec_pop, spec_hash, spec_set; destruct (m !! k) as [[v xp]|] eqn:Ek; simpl.
  all: try (pose proof (Hm _ _ Ek) as Ha).
  all: try (repeat case_match; simplify_eq/=; try done;
    first [by apply map_Forall_delete|by apply map_Forall_insert_2]; fail).
  destruct (d <=? 0) eqn:Hd; reflect_bools; [by apply map_Forall_delete|].
  apply map_Forall_insert_2; [|done]. intros x [= <-]. destruct (Hx k d eq_refl); lia.
Qed.

(** A duration is a 64-bit number of nanoseconds. *)
Lemma denotes_duration :
  Forall (λ c : bytes * meaning, ∀ args k d rd, c.2 args = Some (OExpire k d, rd) → d ≤ max_int64) denotes.
Proof.
  unfold denotes.
  repeat (apply Forall_cons; split; [cbn [fst snd]|]); [..|by apply Forall_nil].
  all: intros args k d rd; unfold one, many, hset, ttl, expire;
    repeat (case_match; simplify_eq/=; try done); intros [= <- <- <-].
  all: unfold dur_mul; apply wrap64_int64.
Qed.

Lemma request_duration req k d : request_op req = Some (OExpire k d) → d ≤ max_int64.
Proof.
  unfold request_op. destruct (negb _); [done|]. destruct (vArray req) as [[|first args]|]; [done| |done].
  destruct (assoc _ denotes) as [den|] eqn:E; [|done]. destruct (den args) as [[x rd]|] eqn:Ed; [|done].
  intros [= ->]. apply assoc_elem in E. pose proof denotes_duration as Hf. rewrite Forall_forall in Hf.
  by eapply (Hf _ E).
Qed.

Lemma abs_step_long_lived t0 E now req m :
  lasting t0 E req → t0 ≤ now → long_lived E now m → long_lived E now (abs_step now req m).
Proof.
  intros [_ Hx] Ht Hm. unfold abs_step. destruct (request_op req) as [x|] eqn:Eo; [|done].
  apply spec_long_lived; [|done]. intros k d ->. pose proof (request_duration _ _ _ Eo).
  destruct (Hx k d eq_refl); [by left|right; lia].
Qed.

Lemma del_loop_view t db ks clk i n :
  db_ok db → view t (del_loop db ks clk i n).1 = foldl (λ m k, delete k m) (view t db) ks.
Proof.
  revert db i n. induction ks as [|k ks IH]; intros db i n Hok; simpl; [done|].
  destruct (del_step_spec t db k (clk i) Hok) as (Hok' & Hv & _).
  destruct (del_step db k (clk i)) as [db' d]. simpl in *. by rewrite IH, Hv.
Qed.

(** The keyspace [m] at [t] and what a replay at [T] makes of it. *)
Definition tracks (ε E t T : Z) (m m' : astate) : Prop := long_lived E t m ∧ rebased_within ε t T m m'.

Lemma tracks_later ε E t u T db m' :
  db_ok db → t ≤ u → u ≤ E → tracks ε E t T (view t db) m' → tracks ε E u T (view u db) m'.
Proof.
  intros Hok Ht Hu [Hl Hr]. rewrite (long_lived_later E t) by done. split; [by eapply long_lived_mono|].
  eapply rebased_later; [done..|]. by eapply long_lived_purge.
Qed.

(** A command keeps them in step. *)
Lemma Dispatch_tracks clk (ord : map_order) db req ε t0 E t u T m' :
  0 ≤ ε → db_ok db → lasting t0 E req → t0 ≤ t → u ≤ E → (∀ j, t ≤ clk j ≤ u) → steady clk req →
  tracks ε E t T (view t db) m' →
  tracks ε E u T (view u (Dispatch clk ord db req).1) (abs_step T req m').
Proof.
  intros Hε Hok Hx Ht Hu Hc Hst Htr. pose proof (Hc 0%nat) as Hc0. destruct Hst as [[c ->]|(ks & rd & Hd)].
  - simpl in Hc0. destruct (Dispatch_sound (λ _, c) ord db req Hok) as [Hok' _].
    eapply (tracks_later ε E c); [done|lia|done|].
    assert (tracks ε E c T (view c db) m') as [Hl Hr] by (eapply (tracks_later ε E t); [done|lia|lia|done]).
    rewrite Dispatch_view by done. split; [eapply abs_step_long_lived; [done|lia|done]|by apply abs_step_rebased].
  - assert (request_op req = Some (ODel ks)) as Ho.
    { unfold request_meaning, request_op in *. repeat case_match; by simplify_eq. }
    assert (tracks ε E u T (view u db) m') as [Hl Hr] by (eapply (tracks_later ε E t); [done|lia|lia|done]).
    rewrite (Dispatch_del _ _ _ _ _ _ Hd). unfold abs_step, DB_Del. rewrite Ho. simpl.
    pose proof (del_loop_view u db ks clk 0 0 Hok) as Hv.
    destruct (del_loop _ _ _ _ _). simpl in *. rewrite Hv. split; [by apply long_lived_dels|by apply rebased_dels].
Qed.

Lemma applyRecord_tracks e s req s' reply ε t0 E t u T m' :
  0 ≤ ε → srv_ok s → applyRecord e s req (commandName req) = Some (s', reply) →
  lasting t0 E req → t0 ≤ t → u ≤ E → (∀ j, t ≤ e_clk e j ≤ u) → steady (e_clk e) req →
  tracks ε E t T (view t (s_db s)) m' →
  tracks ε E u T (view u (s_db s')) (abs_at T (recorded req reply) m').
Proof.
  intros Hε Hs Ea Hx Ht Hu Hc Hst Htr. pose proof (sv_db _ Hs) as Hdb.
  destruct (applyRecord_ok e s req (commandName req) Hs) as (s1 & v1 & E1 & _ & _ & _ & _ & Hdb' & Hrep & _).
  rewrite Ea in E1. simplify_eq. rewrite Hdb'. unfold recorded, abs_at.
  assert (tracks ε E u T (view u (s_db s)) m') as Hu'.
  { eapply (tracks_later ε E t); [done| |done..]. specialize (Hc 0%nat). lia. }
  destruct (IsWrite (commandName req)) eqn:Hw; cbn [andb foldl].
  2:{ rewrite Dispatch_not_write; [done..|apply Hc|done]. }
  destruct (byte_eqb (vType v1) TypeError) eqn:Hf; cbn [negb foldl]; [|by eapply Dispatch_tracks].
  apply byte_eqb_eq in Hf. destruct (Dispatch_sound (e_clk e) (e_ord e) (s_db s) req Hdb) as (_ & v & Hv1 & _ & Herr).
  rewrite Hrep in Hv1. simplify_eq. by rewrite Herr.
Qed.

(** ** Rewrites *)







(** * The sequential server *)

Definition lasting_write (t0 E : Z) (l : wlabel) : Prop :=
  match l with Committed req _ => lasting t0 E req | _ => True end.






(** The keyspace is what the recorded writes make of it. *)
Lemma sequential_keyspace t0 E T s evs s' tr t' :
  srv_ok s → view t0 (s_db s) = ∅ → t' ≤ E →
  sequential s evs = Some (s', tr) → write_times t0 evs t' → Forall (lasting_write t0 E) tr →
  srv_ok s' ∧ tracks 0 E t' T (view t' (s_db s')) (abs_at T (recorded_all tr) ∅).
Proof.
  intros Hs Hv HE Hseq Hts Hok.
  enough (srv_ok s' ∧ t0 ≤ t' ∧ (t' ≤ E → tracks 0 E t' T (view t' (s_db s')) (abs_at T (recorded_all tr) ∅)))
    as (? & ? & ?) by auto.
  revert Hseq Hts Hok.
  apply (sequential_invariant (λ t s tr, srv_ok s ∧ t0 ≤ t ∧
           (t ≤ E → tracks 0 E t T (view t (s_db s)) (abs_at T (recorded_all tr) ∅))) (lasting_write t0 E)).
  - intros t1 u s1 tr1 Ht (Hs1 & Ht1 & Htr). split_and!; [done|lia|]. intros Hu.
    eapply (tracks_later 0 E t1); [apply Hs1|done..|]. apply Htr. lia.
  - intros t1 u s1 tr1 ev s2 out (Hs1 & Ht1 & Htr) Est Het Hok. pose proof (event_later _ _ _ Het) as Hu1.
    destruct (seq_step_cases _ _ _ _ Hs1 Est) as [Hs2 Hc]. split_and!; [done|lia|]. intros Hu.
    specialize (Htr ltac:(lia)). rewrite recorded_all_app. unfold abs_at. rewrite foldl_app.
    destruct Hc as [(e & req & reply & -> & -> & Ea)|(-> & -> & _)].
    + destruct Het as [Hc Hst]. rewrite Forall_singleton in Hok. rewrite recorded_one.
      by apply (applyRecord_tracks _ _ _ _ _ _ _ _ _ _ _ _ (Z.le_refl 0) Hs1 Ea Hok Ht1 Hu Hc Hst).
    + by eapply (tracks_later 0 E t1); [apply Hs1|..].
  - split_and!; [done|lia|]. intros _. rewrite Hv. split; [apply map_Forall_empty|]. intros k. cbn.
    by rewrite lookup_empty.
Qed.

(** ** The log *)

Section log.
  Context (t0 E T D : Z) (HD : 0 ≤ D).






End log.
End crash_points.

(** * Properties *)


(** ** Deciding the hypotheses *)

Section checks.
Context `{GoUnicode}.




End checks.


