(* ===== verification/Convergence.v ===== *)
(** Replication end to end: a replica that connects to an empty primary and
    reads the stream to its end holds the primary's live keyspace. *)

From S2P Require Import Prelude GoLib Protocol ProtocolFacts PubSub Store Db Spec Refine Expiry.
From S2P Require Import History Cmd CmdFacts CmdSpec Replay Aof AofFacts Snapshot Compaction.
From S2P Require Import Replication Server ServerFacts Feed Recovery.

Section convergence.
Context `{GoUnicode}.

(** * A run of the primary *)

(** What the primary does while [p] is connected: serve a request, ship one
    queued frame to the replica, or send a heartbeat. *)
Inductive prim_event :=
  | PRequest (l : live_req)
  | PShip
  | PHeartbeat (o o' : map_order) (now : Z).

Definition event_reqs (ev : prim_event) : list live_req :=
  match ev with PRequest l => [l] | _ => [] end.

(** The server, the frames on the socket of [p], and whether a write found
    its queue full. *)
Fixpoint run_primary (s : Server) (p : nat) (evs : list prim_event) (sent : list bytes)
    (dropped : bool) : option (Server * list bytes * bool) :=
  match evs with
  | [] => Some (s, sent, dropped)
  | PRequest l :: evs' =>
      match applyRecord (env_of l) s (l_req l) (commandName (l_req l)) with
      | None => None
      | Some (s', reply) =>
          run_primary s' p evs' sent
            (dropped || (negb (bool_decide (recorded (l_req l) reply = []))
                         && negb (has_space (s_replicas s) p)))
      end
  | PShip :: evs' =>
      match deliverReplica_step true s p with
      | Some (s', frame, _) => run_primary s' p evs' (sent ++ [frame]) dropped
      | None => run_primary s p evs' sent dropped
      end
  | PHeartbeat o o' now :: evs' =>
      match runReplicaHeartbeat_tick o o' now s with
      | None => None
      | Some (s', _) => run_primary s' p evs' sent dropped
      end
  end.

(** * Facts *)

Lemma isHeartbeat_not_write req : IsWrite (commandName req) = true → isHeartbeat req = false.
Proof.
  unfold IsWrite, isHeartbeat, commandName. intros Hw%bool_decide_eq_true.
  destruct (byte_eqb (vType req) TypeArray); [|done]. cbn [negb andb] in *.
  destruct (vArray req) as [[|first args]|]; try done.
  destruct (EqualFold_PING (content (vBulk first))) eqn:E; [exfalso|done].
  apply bool_decide_eq_true in E. rewrite (ToUpper_folds _ _ E eq_refl) in Hw. unfold writeCommands in Hw.
  by repeat (apply elem_of_cons in Hw as [Hw|Hw]; [done|]); apply not_elem_of_nil in Hw.
Qed.

Lemma recorded_cases req reply :
  recorded req reply = [] ∨ recorded req reply = [req] ∧ isHeartbeat req = false.
Proof.
  unfold recorded. destruct (IsWrite (commandName req)) eqn:E; [|by left].
  destruct (negb _); [right|by left]. split; [done|by apply isHeartbeat_not_write].
Qed.

Lemma registered_Any r p : registered r p → Any r = true.
Proof.
  intros [id Hid]. unfold Any. apply negb_true_iff, bool_decide_eq_false_2. intros E.
  apply map_size_empty_inv in E. by rewrite E, lookup_empty in Hid.
Qed.

Lemma writes_of_app l k : writes_of (l ++ k) = writes_of l ++ writes_of k.
Proof. apply filter_app. Qed.

(** * The invariant

    [acc] are the commands that entered the queue of [p], [all] the writes
    the primary recorded. *)
Record conv_inv (p : nat) (t : Z) (s : Server) (sent : list bytes) (dropped : bool)
    (acc all : list Value) : Prop := {
  cv_srv : srv_ok s;
  cv_reg : registered (s_replicas s) p;
  cv_fifo : sent ++ queue (s_replicas s) p = map encode acc;
  cv_wire : Forall wire_ok acc;
  cv_view : view t (s_db s) = abs_all all ∅;
  cv_no_exp : no_exp (abs_all all ∅);
  cv_cmds : Forall no_expire all;
  cv_acc : dropped = false → writes_of acc = all
}.

Lemma conv_request p t s sent dropped acc all l :
  conv_inv p t s sent dropped acc all →
  t ≤ l_time l → wire_ok (l_req l) → no_expire (l_req l) →
  ∃ s' reply, applyRecord (env_of l) s (l_req l) (commandName (l_req l)) = Some (s', reply) ∧
    let full := negb (bool_decide (recorded (l_req l) reply = []))
                && negb (has_space (s_replicas s) p) in
    ∃ new, conv_inv p (l_time l) s' sent (dropped || full) (acc ++ new)
                    (all ++ recorded (l_req l) reply).
Proof.
  intros [Hs Hreg Hq Hw Hv Hne Hcm Hacc] Ht Hwl Hnx.
  destruct (applyRecord_abs l s _ t Hs Hv Hne Ht Hnx) as (s' & reply & E & Hs' & Hv' & Hne' & Hcm').
  exists s', reply. split; [done|]. cbn zeta.
  pose proof (applyRecord_effects _ _ _ _ _ E (or_intror (registered_Any _ _ Hreg))) as Heff.
  unfold abs_all in Hv', Hne'. rewrite <-foldl_app in Hv', Hne'.
  assert (Forall no_expire (all ++ recorded (l_req l) reply)) as Hcm2 by by apply Forall_app.
  destruct (recorded_cases (l_req l) reply) as [Hrec|[Hrec Hhb]]; rewrite Hrec in *.
  - rewrite decide_True in Heff by done. destruct Heff as (_ & _ & Hr').
    exists []. rewrite orb_false_r, !app_nil_r in *. by split; rewrite ?Hr'.
  - rewrite decide_False in Heff by done. destruct Heff as (_ & _ & Hp).
    destruct (Propagate_queue (e_feeds (env_of l)) (s_replicas s) (l_req l) (sv_reps _ Hs)
      (wire_ok_Encode _ Hwl)) as (r' & Hp' & _ & Hreps & Hq' & _). rewrite Hp in Hp'. simplify_eq.
    pose proof (registered_reps _ _ _ Hreps Hreg) as Hreg'. specialize (Hq' p Hreg).
    destruct (has_space (s_replicas s) p); cbn.
    + exists [l_req l]. rewrite orb_false_r. split; try done.
      * by rewrite Hq', app_assoc, Hq, map_app.
      * apply Forall_app. auto.
      * intros Hd. rewrite writes_of_app, (Hacc Hd). f_equal.
        unfold writes_of. by rewrite filter_cons, decide_True, filter_nil.
    + exists []. rewrite orb_true_r, app_nil_r. split; try done. by rewrite Hq'.
Qed.

Lemma conv_ship p t s sent dropped acc all :
  conv_inv p t s sent dropped acc all →
  match deliverReplica_step true s p with
  | Some (s', frame, _) => conv_inv p t s' (sent ++ [frame]) dropped acc all
  | None => True
  end.
Proof.
  intros [Hs Hreg Hq Hw Hv Hne Hcm Hacc]. unfold deliverReplica_step.
  pose proof (Feed_receive_spec (s_replicas s) p (sv_reps _ Hs)) as Hf.
  destruct (Feed_receive (s_replicas s) p) as [[f r]|]; [|done]. destruct Hf as (Hr & Hq1 & Hreps).
  split; try done.
  - split; [apply Hs|done|apply Hs].
  - by eapply registered_reps.
  - cbn [with_replicas s_replicas]. by rewrite <-app_assoc, <-Hq, Hq1.
Qed.

Lemma conv_heartbeat p t s sent dropped acc all (o o' : map_order) now :
  conv_inv p t s sent dropped acc all →
  ∃ s' warned new, runReplicaHeartbeat_tick o o' now s = Some (s', warned) ∧
    conv_inv p t s' sent dropped (acc ++ new) all.
Proof.
  intros [Hs Hreg Hq Hw Hv Hne Hcm Hacc]. unfold runReplicaHeartbeat_tick, Heartbeat.
  destruct (Propagate_queue o (s_replicas s) pingCommand (sv_reps _ Hs) eq_refl)
    as (r' & -> & Hr & Hreps & Hq' & _).
  pose proof (registered_reps _ _ _ Hreps Hreg) as Hreg'. specialize (Hq' p Hreg).
  eexists _, _, (if has_space (s_replicas s) p then [pingCommand] else []). split; [done|].
  assert (wire_ok pingCommand) by by apply wire_okb_sound.
  split; try done; cbn [with_replicas s_replicas].
  - split; [apply Hs|done|apply Hs].
  - rewrite Hq'. destruct (has_space _ _); [|by rewrite app_nil_r].
    by rewrite app_assoc, Hq, map_app.
  - apply Forall_app. split; [done|]. by destruct (has_space _ _); repeat constructor.
  - intros Hd. rewrite writes_of_app, (Hacc Hd). by destruct (has_space _ _); rewrite app_nil_r.
Qed.

Lemma conv_run p evs t s sent dropped acc all :
  conv_inv p t s sent dropped acc all → nondecreasing t (concat (map event_reqs evs)) →
  Forall (λ l, wire_ok (l_req l) ∧ no_expire (l_req l)) (concat (map event_reqs evs)) →
  ∃ s' sent' dropped' acc' all', run_primary s p evs sent dropped = Some (s', sent', dropped') ∧
    conv_inv p (end_time t (concat (map event_reqs evs))) s' sent' dropped' acc' all'.
Proof.
  revert t s sent dropped acc all. induction evs as [|[l| |o o' now] evs IH];
    intros t s sent dropped acc all Hinv Hm Hl; cbn [map concat event_reqs app] in *.
  - by eexists _, _, _, _, _.
  - destruct Hm as [Ht Hm]. apply Forall_cons in Hl as [[Hw Hn] Hl].
    destruct (conv_request _ _ _ _ _ _ _ l Hinv Ht Hw Hn) as (s1 & reply & E & new & Hinv1).
    cbn [run_primary end_time]. rewrite E. by eapply IH.
  - cbn [run_primary]. pose proof (conv_ship _ _ _ _ _ _ _ Hinv) as Hship.
    destruct (deliverReplica_step true s p) as [[[s1 f] more]|]; by eapply IH.
  - destruct (conv_heartbeat _ _ _ _ _ _ _ o o' now Hinv) as (s1 & wd & new & E & Hinv1).
    cbn [run_primary]. rewrite E. by eapply IH.
Qed.

(** A server that found no log starts empty. *)
Lemma Serve_start_empty es w path mode s :
  Serve_start es (NewMulti w path mode []) Missing true true = Some s →
  s_db s = newDB ∧ s_replicas s = NewReplicas.
Proof.
  unfold Serve_start, loadAOF. cbn. destruct (open_create _ _).
  case_bool_decide; by intros [= <-].
Qed.

(** The replica applies with [Dispatch], as the closure of [Serve] does. *)
Definition mirror (o : map_order) (T : Z) (c : Value) (db : DB) : DB :=
  (Dispatch (λ _, T) o db c).1.

Lemma mirror_replay (o : map_order) T cmds db :
  foldl (λ db c, mirror o T c db) db cmds = apply_all (replay_at o T) cmds db.
Proof. done. Qed.
End convergence.

(** * Properties *)

(** A replica converges: a replica connects ([REPLICAOF]) to a primary
    that has just started, without a log or on an empty one; the primary then
    serves any requests at non-decreasing instants, none of them EXPIRE or
    PEXPIRE, interleaved in any way with deliveries and heartbeats.  When no
    write found the replica's queue full and the queue has been drained, a
    replica that applied what is on the socket, whenever it did, holds
    exactly the primary's live keyspace. *)
Theorem replica_converges `{GoUnicode} es w path mode s t0 remote evs (o : map_order) T :
  Serve_start es (NewMulti w path mode []) Missing true true = Some s →
  nondecreasing t0 (concat (map event_reqs evs)) →
  Forall (λ l, wire_ok (l_req l) ∧ no_expire (l_req l)) (concat (map event_reqs evs)) →
  let '(s0, cs, out, _) := replicaof (λ _, true) t0 s (new_conn remote) in
  ∃ p s1 sent dropped, cs_replica cs = Some p ∧
    run_primary s0 p evs [] false = Some (s1, sent, dropped) ∧
    (dropped = false → queue (s_replicas s1) p = [] →
     let '(db2, acks, ended) :=
       streamOnce (mirror o T) true (λ _, true)
         (mkReader (encode_all out ++ concat sent) EOF) newDB in
     ended = StreamBroken EOF ∧ db_ok db2 ∧
     view T db2 = view (end_time t0 (concat (map event_reqs evs))) (s_db s1)).
Proof.
  intros Hst Hm Hl. rewrite replicaof_acked by done.
  pose proof (sk_srv _ (initial_ok _ _ _ _ _ _ _ _ _ Hst)) as Hs. cbn [sy_server] in Hs.
  destruct (Serve_start_empty _ _ _ _ _ Hst) as [Hdb Hr].
  pose proof (Add_ok (s_replicas s) remote t0 (sv_reps _ Hs)) as Hadd. cbn [new_conn cs_remote].
  destruct (Add (s_replicas s) remote t0) as [r p]. destruct Hadd as (Hr1 & _ & Hreg & Hp). cbn [cs_replica].
  assert (conv_inv p t0 (with_replicas s r) [] false [] []) as Hinv.
  { split; cbn [with_replicas s_replicas s_db]; try done; [split; [apply Hs|done|apply Hs]|..].
    - unfold queue. by rewrite Hp.
    - rewrite Hdb. apply view_newDB. }
  destruct (conv_run p evs t0 _ [] false [] [] Hinv Hm Hl)
    as (s1 & sent & dropped & acc & all & Hrun & [Hs1 _ Hq Hw Hv _ Hcm Hacc]).
  exists p, s1, sent, dropped. split_and!; [done..|]. intros Hd Hempty.
  rewrite Hempty, app_nil_r in Hq. rewrite Hq.
  change (encode_all [okVal]) with (encode okValue ++ []). rewrite app_nil_r.
  change (concat (map encode acc)) with (encode_all acc). rewrite streamOnce_all by done.
  rewrite (Hacc Hd), mirror_replay.
  destruct (replay_abs o T all Hcm) as [H1 H2]. split_and!; [done..|].
  by rewrite H2, Hv.
Qed.

(** A primary one replica has joined, and what it does next. *)
Definition joined : Server * connState * list Value * bool :=
  replicaof (λ _, true) 0 everysec_server (new_conn (B "10.0.0.2:7000")).

Definition busy_hour : list prim_event :=
  [PRequest (at_ 1 [B "SET"; B "k"; B "v"]); PHeartbeat order_id order_id 2;
   PRequest (at_ 3 [B "RPUSH"; B "l"; B "a"; B "b"]); PShip; PShip; PShip].

Lemma replica_converges_witness :
  match run_primary (H := plain_unicode) joined.1.1.1 (default 0%nat (cs_replica joined.1.1.2))
          busy_hour [] false with
  | Some (s1, sent, _) =>
      let '(db2, acks, ended) :=
        streamOnce (mirror (H := plain_unicode) order_rev 9) true (λ _, true)
          (mkReader (encode_all joined.1.2 ++ concat sent) EOF) newDB in
      ended = StreamBroken EOF ∧ db_ok db2 ∧ view 9 db2 = view 3 (s_db s1)
  | None => False
  end.
Proof.
  assert (match run_primary (H := plain_unicode) joined.1.1.1 (default 0%nat (cs_replica joined.1.1.2))
                  busy_hour [] false with
          | Some (s1, _, dropped) =>
              dropped = false ∧ queue (s_replicas s1) (default 0%nat (cs_replica joined.1.1.2)) = []
          | None => False
          end) as Hd by (vm_compute; split; reflexivity).
  destruct (replica_converges (H := plain_unicode) (λ _, quiet 0) empty_fs (B "aof") FsyncEverySec
    everysec_server 0 (B "10.0.0.2:7000") busy_hour order_rev 9)
    as (p & s1 & sent & dropped & Hp & Hrun & Hc).
  - reflexivity.
  - cbn. lia.
  - repeat (apply List.Forall_cons; [split; [apply wire_okb_sound; vm_compute; reflexivity|
      intros x Hx; injection Hx as <-; exact I]|]). apply List.Forall_nil.
  - change (cs_replica joined.1.1.2 = Some p) in Hp.
    change (run_primary (H := plain_unicode) joined.1.1.1 p busy_hour [] false = Some (s1, sent, dropped)) in Hrun.
    rewrite Hp in *. cbn [default from_option] in *. unfold id in *. rewrite Hrun in *.
    destruct Hd as [Hd Hq]. exact (Hc Hd Hq).
Defined.
