(* ===== verification/Streams.v ===== *)
(** The replication stream of a primary with concurrent clients: what the
    feed of a replica carries, in the order of the write path of
    [WritePath], and the keyspace of a replica that reads it. *)

From S2P Require Import Prelude Lts GoLib Protocol ProtocolFacts PubSub Store Db Spec Refine Expiry.
From S2P Require Import History Concurrent Cmd CmdFacts CmdSpec Replay Aof AofFacts Snapshot Compaction.
From S2P Require Import Replication Server ServerFacts Feed WritePath WritePathFacts Recovery Deadlines CrashLog CrashPoints Convergence.

Section streams.
Context `{GoUnicode}.





(** * The queue of a feed *)






(** * The stream is in the order of the writes *)












(** * The replica *)




End streams.

(** * Properties *)




